(* ===== verification/_CoqProject ===== *)
-Q . S2P
Prelude.v
GoBase.v
GoText.v
GoFloat.v
GoCrypto.v
Domain.v
TigerBeetle.v
TigerBeetleModel.v
LedgerModel.v
Cache.v
Health.v
Interface.v
Semantics.v
Metrics.v
Contract.v
FakeLedger.v
Client.v
Service.v
ServiceSpec.v
Operations.v
OperationsSpec.v
Invariant.v
Safety.v
Replay.v
Scenarios.v
Outcomes.v
System.v
Deployment.v
Duplicates.v
Accounting.v
Provenance.v
Tracking.v
Requests.v
Snapshots.v
FakeBooks.v
Http.v
HttpProgram.v
Admission.v
HttpSemantics.v
Server.v
AdmissionSpec.v
HttpSystem.v
HttpRefinement.v
HttpOutcomes.v
Stalls.v
HttpProvenance.v
Config.v
Main.v
Process.v
Loadtest.v
Benchmark.v
Wire.v
LoadtestSpec.v
