(* ===== verification/Prelude.v ===== *)
(** * Verification of the ledger service

    A library of machine-checked theorems about the Go program under [src/]: an
    HTTP service that keeps the wallets, cards and card authorizations of
    corporate customers in a TigerBeetle cluster, and the load-test tool that
    comes with it.

    ** The program and its model

    A request travels through five layers, each modelled in files of its own, and
    the theorems are stated at the layer where they are visible from outside.

    - The cluster and its SDK ([github.com/tigerbeetle/tigerbeetle-go]) are not in
      the repository.  The SDK's pure functions are the class [TigerBeetle.SDK],
      with documented laws [SDKLaws]; [TigerBeetleModel.v] is a computable
      instance with the laws proved.  The batch client is [Client.BatchClient]
      with the contract [BatchContract] over whole batches.
    - [internal/ledger]: [LedgerModel.v] ([model.go], the chart of accounts) and
      [Client.v] ([client.go], batches of one).  What the service relies on is the
      interface [Interface.Ledger] with [Contract.LedgerContract]: definitions of
      accounts and transfers never change, a call fails without an answer - and may
      have been applied - or answers the truth, and an id names at most one
      transfer.  It covers the transfers the service submits, posted or pending
      ([Contract.ordinary]).  [Client.v] proves the contract of the adapter over any
      [BatchContract]; [FakeLedger.v] proves it of the test ledger of
      [internal/service/service_test.go].
    - [internal/domain]: [Domain.v] ([model.go], [errors.go]).
    - [internal/service]: [Cache.v] ([cache.go], the metadata cache), [Health.v]
      and the [observed] wrapper of [Interface.v] ([health.go], the tracker of calls
      in flight), [Service.v] ([service.go]) and [Operations.v] ([operations.go]).
      Each method is one definition with the source's name, in the order of the
      source's statements, with every early return, metric and log line.
    - [internal/observability]: [Metrics.v], the instruments of the service; those
      of the HTTP layer are in [Admission.v].
    - [internal/httpapi]: [Http.v] (response writers, [writeJSON], [writeError]),
      [Admission.v] ([admission.go] and the middleware of [metrics.go]) and
      [Server.v] ([server.go]).
    - [internal/config] and [cmd/ledger-service]: [Config.v]; [Main.v] (start-up) and
      [Process.v] (the process that serves, is signalled and stops).
    - [cmd/loadtest]: [Loadtest.v]; [Wire.v] has the JSON names the tool and the
      service share.
    - Go itself: [GoBase.v] (machine integers, errors, durations, times, strings),
      [GoText.v] ([strconv], [time.ParseDuration], [strings.Split]), [GoFloat.v]
      (rounding of float64 products), [GoCrypto.v] (SHA-256, little endian).

    ** How state and concurrency are modelled

    A service method is a finite tree of effects, [Interface.prog]: a clock
    reading, one ledger call, one critical section of the cache or of the tracker,
    an observation.  [Semantics.v] gives each effect its atomic action on the
    shared [World], runs one program ([run]) and interleaves any number of them
    ([pool_step]).  The HTTP layer adds its own effects - the admission channel,
    the gauge and the counters, the log of panics - and panics that can be deferred
    over and recovered: [HttpProgram.hprog], with [HttpSemantics.v].  A granularity
    finer than these effects has no shared state to observe: every access of the
    source is under a lock, on a channel or a call of a client that is safe for
    concurrent use.

    A ledger call that never returns is a handler that takes no further step; the
    theorems of [Stalls.v] are for any set of such handlers.

    Two program logics are used: [wp] for a program alone, with exact outputs, and
    the rely-guarantee conditions [rg] and [hok], proved sound for every
    interleaving.  The shared invariant is [Invariant.service_inv]: the ledger is
    well formed, the cache is well formed and only holds what the ledger says, and
    every transfer of the service's ledger follows one of the six recipes of the
    accounting model ([Invariant.recipe]).

    ** What the theorems show

    - [Safety.v] proves one lemma per method; [System.v] composes them for the
      service and [HttpSystem.v] for the HTTP server: in every interleaving no
      panic, the invariant, nothing lost, and answers that are true of the ledger,
      then and for ever after.
    - [Deployment.v]: the same over any number of instances that share the ledger,
      start with an empty cache at any time and are killed between any two effects:
      restarts, roll-outs, crashes and calls a killed process leaves under way.
    - [Stalls.v]: ledger calls that never return.  Whatever handlers hang, the others
      are answered, the tracker counts the hanging calls, and the readiness check
      reports them after the threshold, so that no more requests are admitted.
    - [HttpRefinement.v]: a simulation - every execution of HTTP requests is one of
      the service methods they ask for, in the same world, and each reply is what
      its method returned - so that what is proved of the methods holds of the
      server.  [Snapshots.v]: a balance is that of one moment of the execution.
    - [Replay.v] and [System.v]: idempotency.  A repeated request is answered by
      the transfer stored under its id, whatever changed in between.  [Duplicates.v]:
      all the confirmations given under one request id, by any instance of a
      deployment, are of one movement.
    - [Provenance.v], [HttpProvenance.v]: in every interleaving, whatever appears in
      the ledger is what one of the requests asks for.
    - [Accounting.v]: the flows of the journal; what a corporate wallet and its cards
      hold together is what was topped up less what was withdrawn.  [FakeBooks.v]:
      the balances of the test ledger are these flows, in every interleaving, so the
      service reports them and nobody is overdrawn.
    - [System.v]: the accounting invariants over the journal - money of a card
      moves between the card and its own corporate wallet or is held for
      settlement; increments belong to open authorizations.
    - [Requests.v], [Outcomes.v], [HttpOutcomes.v]: single requests - screening,
      the answer for each status of the ledger, balances and their bounds, risk
      limits, the transparency of the cache, the status codes of every route.
    - [ServiceSpec.v], [OperationsSpec.v]: identifiers, the chart of accounts,
      expiry and timeouts in 32 bits.
    - [Cache.v], [Health.v], [Tracking.v], [AdmissionSpec.v]: the cache is a
      bounded FIFO map; readiness is exact; in every interleaving every call that is
      begun is closed and counted, and the metrics agree with the log; the slots bound
      the requests inside, also when handlers panic.
    - [Config.v], [Main.v], [Process.v]: ranges and round trip of the configuration,
      a start-up that ends in an error or in a state from which the theorems above
      hold, and a process that ends, closes its client once, and exits with status 0
      only when every request it accepted has been answered.
    - [Benchmark.v], [LoadtestSpec.v]: the worker pool of the load-test tool does
      not deadlock and counts each request once; its report adds up; a success it
      counts is a transfer in the ledger.

    [Scenarios.v] evaluates the service on the test ledger with the concrete SDK,
    including the scenarios of the Go tests; the theorems with hypotheses are
    applied there and in their own files at concrete inputs.

    ** Bounds and fuel

    Machine integers keep their width: [uint16], [uint32], [uint64] and [int64] wrap
    and the theorems state the ranges they need.  The tracker's theorems are for
    fewer than 2^64 calls, when its counter would wrap; the percentiles for fewer
    than 2^53 requests, when a length would not be exact in a float64; the balances
    of the test ledger for less than 2^64 cents moved.  Fuel
    bounds the rounds of a loop by its input: its length for the loop of
    [strings.TrimSpace] ([GoBase.trim_loop]) and the groups of a duration
    ([GoText.duration_groups]), of which each round consumes at least one byte, the
    number of blocks and one more for SHA-256 ([GoCrypto.chunks]), and the number of
    digits of a 128-bit id for the model SDK.  Programs are finite trees, so executions of
    pools terminate without fuel; the goroutines of the load test are a step
    relation with a decreasing measure.

    ** What is not modelled

    - Sockets, TLS, timeouts of [http.Server], the delivery of signals, the buffered
      log and the inside of [Client.Close]: I/O around the modelled parts.
      [Process.v] takes their results as events; a client that is closed while
      requests are left, after a failed shutdown, still answers in the model.
    - The JSON decoder, the media-type parser and the Prometheus handler: the
      parameter [Server.Codecs] and, for the client side, [Loadtest.ClientLib],
      with the laws [Wire.JSONLaws] where a theorem needs them.  Paths are taken
      clean and split; redirects of the mux are left out.
    - Registration, buckets and exposition of the Prometheus instruments; gauges
      are integers.
    - Exhaustion of memory, with it the panics of [make] for a channel or a slice
      that no address space holds (the load-test tool accepts such sizes), and data
      races inside the Go runtime.
    - That [net/http] drops the body of the answer to a [HEAD] request: a
      [connection] has what the handler wrote.
    - Contexts: whether and when a request is cancelled is an argument; the delay
      of the risk evaluation is not timed.

    ** Findings

    [OperationsSpec.remaining_seconds_wraps]: with the longest timeout the
    remaining seconds of an increment can wrap to zero, a hold without a timeout.
    [AdmissionSpec.gauge_can_exceed_the_limit]: the gauge of admitted requests can
    exceed the limit, since the slot is freed before the gauge is lowered.
    [AdmissionSpec.panics_are_contained]: a request whose handler panics is
    answered 500 but not counted.
    [FakeBooks.test_ledger_check_wraps]: the balance checks of the test ledger wrap
    at 2^64, so the bound of its theorem is needed.

    ** Plan

    Next: admission under fairness, and the provenance of the ledger's content over
    deployments of several instances and their HTTP servers. *)
From stdpp Require Export base gmap sets list strings fin_maps.
From Stdlib Require Export ZArith Lia.
From Stdlib Require Ascii.

(** ** Notations of the development *)

Declare Scope go_scope.
Delimit Scope go_scope with go.

(** Go's [(T, error)] result pair: [inl] is a non-nil error, [inr] a value. *)
Definition result (E A : Type) : Type := E + A.

(** [if err != nil { return ..., err }] on a pure call. *)
Definition result_bind {E A B} (r : result E A) (f : A → result E B) : result E B :=
  match r with inl e => inl e | inr a => f a end.

Notation "'let?' x := r 'in' k" := (result_bind r (λ x, k))
  (at level 10, x name, r at level 100, k at level 200) : go_scope.

(** ** Automation *)

Create HintDb ledger.
Create Rewrite HintDb ledger.

(** Split every conjunction of the context and the goal. *)
Ltac split_all :=
  repeat match goal with
  | H : _ ∧ _ |- _ => destruct H
  | H : ∃ _, _ |- _ => destruct H
  | |- _ ∧ _ => split
  end.

(** Turn boolean equations of the context into propositions. *)
Ltac bool_simpl :=
  repeat match goal with
  | H : negb _ = true |- _ => apply negb_true_iff in H
  | H : negb _ = false |- _ => apply negb_false_iff in H
  | H : andb _ _ = true |- _ => apply andb_true_iff in H; destruct H
  | H : orb _ _ = false |- _ => apply orb_false_iff in H; destruct H
  | H : bool_decide _ = true |- _ => apply bool_decide_eq_true in H
  | H : bool_decide _ = false |- _ => apply bool_decide_eq_false in H
  | H : Z.ltb _ _ = true |- _ => apply Z.ltb_lt in H
  | H : Z.ltb _ _ = false |- _ => apply Z.ltb_ge in H
  | H : Z.leb _ _ = true |- _ => apply Z.leb_le in H
  | H : Z.leb _ _ = false |- _ => apply Z.leb_gt in H
  | H : Z.eqb _ _ = true |- _ => apply Z.eqb_eq in H
  | H : Z.eqb _ _ = false |- _ => apply Z.eqb_neq in H
  end.

(** Close an equation between closed terms by evaluation in the kernel. *)
Ltac by_computation := match goal with |- _ = ?b => vm_cast_no_check (eq_refl b) end.

(** ** Generic lemmas *)

Lemma bool_decide_refl {A} `{EqDecision A} (x : A) : bool_decide (x = x) = true.
Proof. by apply bool_decide_eq_true. Qed.
#[export] Hint Rewrite @bool_decide_refl : ledger.

Lemma result_bind_inr {E A B} (r : result E A) (f : A → result E B) b :
  result_bind r f = inr b → ∃ a, r = inr a ∧ f a = inr b.
Proof. destruct r as [e|a]; cbn; [done|]. by exists a. Qed.

Lemma pair_of_fst {A B} (p : A * B) a : fst p = a → p = (a, snd p).
Proof. destruct p. by intros <-. Qed.

Lemma list_lookup_insert_NoDup {A} (l : list A) i x :
  NoDup l → x ∉ l → NoDup (<[i := x]> l).
Proof.
  intros Hnd Hx. apply NoDup_alt. intros j k y Hj Hk.
  apply list_lookup_insert_Some in Hj, Hk.
  destruct Hj as [(<- & <- & ?)|(? & Hj)], Hk as [(<- & ? & ?)|(? & Hk)]; try done.
  - exfalso. apply Hx. by eapply list_elem_of_lookup_2.
  - subst. exfalso. apply Hx. by eapply list_elem_of_lookup_2.
  - by eapply NoDup_lookup.
Qed.

(** A list whose elements each make finitely many steps makes finitely many. *)
Definition element_step {A} (step : A → A → Prop) (ts' ts : list A) : Prop :=
  ∃ i p p', ts !! i = Some p ∧ step p' p ∧ ts' = <[i := p']> ts.

Lemma element_step_cons {A} (step : A → A → Prop) p us :
  (∀ p', step p' p → ∀ us, Acc (element_step step) us → Acc (element_step step) (p' :: us)) →
  Acc (element_step step) us → Acc (element_step step) (p :: us).
Proof.
  intros Hp. induction 1 as [us Hus IH]. constructor. intros us' ([|i] & q & p' & Hi & Hs & ->).
  - injection Hi as <-. apply Hp; [done|by constructor].
  - apply IH. by exists i, q, p'.
Qed.

Lemma element_step_acc {A} (step : A → A → Prop) (ts : list A) :
  (∀ p, Acc step p) → Acc (element_step step) ts.
Proof.
  intros Hacc.
  assert (∀ p us, Acc (element_step step) us → Acc (element_step step) (p :: us)) as Hcons.
  { intros p. induction (Hacc p) as [p _ IH]. intros us. by apply element_step_cons. }
  induction ts as [|p ts IH]; [|by apply Hcons].
  constructor. by intros ts' (i & p & p' & Hi & _).
Qed.

(** An invariant of the steps is one of the executions. *)
Lemma rtc_keeps {A} (R : relation A) (P : A → Prop) x y :
  (∀ x y, R x y → P x → P y) → rtc R x y → P x → P y.
Proof. intros Hstep. induction 1 as [|x y z Hxy _ IH]; [done|]. intros Hx. by eapply IH, Hstep. Qed.

(** Sums over a list. *)
Definition total {A} (f : A → Z) (l : list A) : Z := foldr (λ x n, f x + n)%Z 0%Z l.

Lemma total_cons {A} (f : A → Z) x (l : list A) : total f (x :: l) = (f x + total f l)%Z.
Proof. done. Qed.
Lemma total_insert {A} (f : A → Z) (l : list A) i x y :
  l !! i = Some x → total f (<[i := y]> l) = (total f l - f x + f y)%Z.
Proof.
  revert i. induction l as [|z l IH]; intros [|i] H; [done..| |].
  - injection H as ->. change (<[0%nat := y]> (x :: l)) with (y :: l). rewrite !total_cons. lia.
  - change (<[S i := y]> (z :: l)) with (z :: <[i := y]> l). rewrite !total_cons, (IH i H). lia.
Qed.
Lemma total_nonneg {A} (f : A → Z) (l : list A) : (∀ x, x ∈ l → 0 ≤ f x)%Z → (0 ≤ total f l)%Z.
Proof.
  induction l as [|x l IH]; [done|]. intros H. rewrite total_cons.
  assert (0 ≤ f x)%Z by (apply H; left). assert (0 ≤ total f l)%Z by (apply IH; intros; apply H; by right).
  lia.
Qed.
Lemma total_member {A} (f : A → Z) (l : list A) i x :
  (∀ x, x ∈ l → 0 ≤ f x)%Z → l !! i = Some x → (f x ≤ total f l)%Z.
Proof.
  revert i. induction l as [|z l IH]; intros i H Hi; [done|]. rewrite total_cons.
  assert (0 ≤ total f l)%Z by (apply total_nonneg; intros; apply H; by right).
  assert (0 ≤ f z)%Z by (apply H; left).
  destruct i as [|i]; [injection Hi as ->; lia|].
  assert (f x ≤ total f l)%Z by (eapply IH; [intros; apply H; by right|done]). lia.
Qed.
Lemma total_zero {A} (f : A → Z) (l : list A) : (∀ x, x ∈ l → f x = 0%Z) → total f l = 0%Z.
Proof.
  induction l as [|x l IH]; [done|]. intros H. rewrite total_cons, (H x) by left.
  rewrite IH; [done|]. intros; apply H; by right.
Qed.
Lemma total_ext {A} (f g : A → Z) (l : list A) : (∀ x, x ∈ l → f x = g x) → total f l = total g l.
Proof.
  induction l as [|x l IH]; [done|]. intros H. rewrite !total_cons, (H x) by left.
  rewrite IH; [done|]. intros; apply H; by right.
Qed.
Lemma total_add {A} (f g : A → Z) (l : list A) : total (λ x, f x + g x)%Z l = (total f l + total g l)%Z.
Proof. induction l as [|x l IH]; [done|]. rewrite !total_cons, IH. lia. Qed.
Lemma total_sub {A} (f g : A → Z) (l : list A) : total (λ x, f x - g x)%Z l = (total f l - total g l)%Z.
Proof. induction l as [|x l IH]; [done|]. rewrite !total_cons, IH. lia. Qed.
(** Summing over two lists in either order. *)
Lemma total_swap {A B} (f : A → B → Z) (l : list A) (k : list B) :
  total (λ x, total (f x) k) l = total (λ y, total (λ x, f x y) l) k.
Proof.
  induction l as [|x l IH]; [symmetry; by apply total_zero|].
  rewrite total_cons, IH, <- total_add. by apply total_ext.
Qed.
(** The one entry of a duplicate-free list that is counted. *)
Lemma total_indicator `{EqDecision A} (x : A) (n : Z) (l : list A) :
  NoDup l → total (λ y, if bool_decide (x = y) then n else 0%Z) l = if bool_decide (x ∈ l) then n else 0%Z.
Proof.
  induction 1 as [|y l Hy _ IH]; [done|]. rewrite total_cons, IH.
  do 3 case_bool_decide; set_solver || lia.
Qed.
#[export] Instance total_permutation {A} (f : A → Z) : Proper ((≡ₚ) ==> eq) (total f).
Proof. induction 1; rewrite ?total_cons; lia || congruence. Qed.

(** Sums over a map, and a counter of it that is incremented. *)
Definition map_sum `{Countable K} (m : gmap K Z) : Z := map_fold (λ _ n acc, n + acc)%Z 0%Z m.

Lemma map_sum_split `{Countable K} (m : gmap K Z) k :
  map_sum m = (default 0 (m !! k) + map_sum (delete k m))%Z.
Proof.
  unfold map_sum. destruct (m !! k) as [n|] eqn:Hk.
  - apply (map_fold_delete_L (λ _ n acc, n + acc)%Z); [lia|done].
  - by rewrite delete_id.
Qed.

Lemma map_sum_count `{Countable K} (m : gmap K Z) k :
  map_sum (<[k := (default 0 (m !! k) + 1)%Z]> m) = (map_sum m + 1)%Z.
Proof.
  rewrite (map_sum_split (<[k := _]> m) k), (map_sum_split m k), lookup_insert_eq, delete_insert_eq.
  cbn. lia.
Qed.
