(* ===== verification/GoBase.v ===== *)
(** * The parts of Go and of its standard library the service uses

    Machine integers, durations and times ([time]), error values ([errors],
    [fmt]) and strings ([strings]).  Strings are byte strings. *)
From Stdlib Require Import Ascii.
From S2P Require Import Prelude.

(** ** Fixed-width integers *)
Module GoInt.
Local Open Scope Z_scope.

(** Conversion to an unsigned, respectively two's-complement signed, integer
    of [w] bits. *)
Definition uwrap (w z : Z) : Z := z mod 2 ^ w.
Definition swrap (w z : Z) : Z := (z + 2 ^ (w - 1)) mod 2 ^ w - 2 ^ (w - 1).

Definition uint16 := uwrap 16.
Definition uint32 := uwrap 32.
Definition uint64 := uwrap 64.
Definition int64 := swrap 64.

Definition in_uint32 (z : Z) : Prop := 0 <= z < 2 ^ 32.
Definition in_uint64 (z : Z) : Prop := 0 <= z < 2 ^ 64.
Definition in_int64 (z : Z) : Prop := - 2 ^ 63 <= z < 2 ^ 63.

Lemma uwrap_range w z : 0 <= w → 0 <= uwrap w z < 2 ^ w.
Proof. intros. apply Z.mod_pos_bound. lia. Qed.

Lemma uwrap_id w z : 0 <= z < 2 ^ w → uwrap w z = z.
Proof. apply Z.mod_small. Qed.

Lemma uint32_id z : in_uint32 z → uint32 z = z.
Proof. apply uwrap_id. Qed.

Lemma uint64_id z : in_uint64 z → uint64 z = z.
Proof. apply uwrap_id. Qed.

Lemma int64_range z : in_int64 (int64 z).
Proof.
  unfold in_int64, int64, swrap.
  pose proof (Z.mod_pos_bound (z + 2 ^ (64 - 1)) (2 ^ 64) eq_refl). lia.
Qed.

Lemma int64_id z : in_int64 z → int64 z = z.
Proof. unfold in_int64, int64, swrap. intros. rewrite Z.mod_small; lia. Qed.
End GoInt.

(** ** Errors *)
Module GoError.
(** [ErrorNew text] is a package-level [errors.New] value (its identity is its
    text: the service declares no two with the same text); [Errorf text] is a
    [fmt.Errorf] without [%w]; [Wrapf text inner] one with [%w], [text] being
    the rendered message; [External text] an error made by code outside the
    repository. *)
Inductive error :=
| ErrorNew (text : string)
| Errorf (text : string)
| Wrapf (text : string) (inner : error)
| External (text : string).

#[export] Instance error_eq_dec : EqDecision error.
Proof. solve_decision. Defined.

(** [err.Error()] *)
Definition Error (e : error) : string :=
  match e with ErrorNew t | Errorf t | Wrapf t _ | External t => t end.

(** [errors.Is(err, target)] for a target declared by [errors.New]. *)
Fixpoint Is (e target : error) : bool :=
  bool_decide (e = target) || match e with Wrapf _ inner => Is inner target | _ => false end.

(** [fmt.Errorf("%w" + suffix, inner)] and [fmt.Errorf(prefix + "%w", inner)]. *)
Definition wrap_suffix (inner : error) (suffix : string) : error :=
  Wrapf (Error inner +:+ suffix) inner.
Definition wrap_prefix (prefix : string) (inner : error) : error :=
  Wrapf (prefix +:+ Error inner) inner.

Definition context_Canceled := ErrorNew "context canceled".
Definition context_DeadlineExceeded := ErrorNew "context deadline exceeded".

Lemma Is_refl e : Is e e = true.
Proof. destruct e; cbn; by rewrite bool_decide_refl. Qed.

Lemma Is_wrap_suffix inner s target :
  Is inner target = true → Is (wrap_suffix inner s) target = true.
Proof. intros H. cbn. rewrite H. apply orb_true_r. Qed.

Lemma Is_wrap_prefix inner s target :
  Is inner target = true → Is (wrap_prefix s inner) target = true.
Proof. intros H. cbn. rewrite H. apply orb_true_r. Qed.
End GoError.

#[export] Hint Resolve GoError.Is_refl GoError.Is_wrap_suffix GoError.Is_wrap_prefix : ledger.

(** ** Durations and times *)
Module GoTime.
Import GoInt.
Local Open Scope Z_scope.

(** [time.Duration]: an [int64] of nanoseconds; its arithmetic wraps and its
    division truncates toward zero. *)
Definition Duration := Z.
Definition Millisecond : Duration := 1000000.
Definition Second : Duration := 1000 * Millisecond.
Definition Minute : Duration := 60 * Second.
Definition Hour : Duration := 60 * Minute.
Definition dadd (a b : Duration) : Duration := int64 (a + b).
Definition dsub (a b : Duration) : Duration := int64 (a - b).
Definition dmul (a b : Duration) : Duration := int64 (a * b).
Definition ddiv (a b : Duration) : Duration := int64 (Z.quot a b).
Definition Milliseconds (d : Duration) : Z := Z.quot d 1000000.

(** [time.Time]: nanoseconds since the Unix epoch on the wall clock and, for a
    value made by [time.Now], the monotonic reading. *)
Record Time := mkTime { wall : Z; mono : option Z }.
#[export] Instance Time_eq_dec : EqDecision Time.
Proof. solve_decision. Defined.

(** The zero value: January 1 of year 1. *)
Definition zero_wall : Z := - 62135596800 * 1000000000.
Definition zeroTime : Time := mkTime zero_wall None.
Definition IsZero (t : Time) : bool := wall t =? zero_wall.

(** [time.Unix(0, nsec)] *)
Definition Unix_nano (nsec : Z) : Time := mkTime nsec None.

Definition Add (t : Time) (d : Duration) : Time :=
  mkTime (wall t + d) ((λ m, m + d) <$> mono t).

Definition minDuration : Duration := - 2 ^ 63.
Definition maxDuration : Duration := 2 ^ 63 - 1.
Definition saturate (z : Z) : Duration := Z.max minDuration (Z.min maxDuration z).

(** [t.Sub(u)] and [t.Before(u)] use the monotonic readings when both have one. *)
Definition diff (t u : Time) : Z :=
  match mono t, mono u with Some a, Some b => a - b | _, _ => wall t - wall u end.
Definition Sub (t u : Time) : Duration := saturate (diff t u).
Definition Before (t u : Time) : bool := diff t u <? 0.

(** [t.UTC()] drops the monotonic reading and fixes the location. *)
Definition UTC (t : Time) : Time := mkTime (wall t) None.

Lemma saturate_range z : in_int64 (saturate z).
Proof. unfold in_int64, saturate, minDuration, maxDuration. lia. Qed.

Lemma saturate_id z : in_int64 z → saturate z = z.
Proof. unfold in_int64, saturate, minDuration, maxDuration. lia. Qed.
End GoTime.

(** ** Status codes of [net/http] *)
Definition StatusOK : Z := 200.
Definition StatusCreated : Z := 201.
Definition StatusBadRequest : Z := 400.
Definition StatusNotFound : Z := 404.
Definition StatusMethodNotAllowed : Z := 405.
Definition StatusConflict : Z := 409.
Definition StatusUnprocessableEntity : Z := 422.
Definition StatusInternalServerError : Z := 500.
Definition StatusServiceUnavailable : Z := 503.
Definition StatusGatewayTimeout : Z := 504.

(** ** Strings *)
Module GoStrings.
Local Open Scope N_scope.

Definition to_bytes (s : string) : list N := Ascii.N_of_ascii <$> String.list_ascii_of_string s.
Definition of_bytes (l : list N) : string := String.string_of_list_ascii (Ascii.ascii_of_N <$> l).

(** The UTF-8 encodings of the code points [unicode.IsSpace] accepts. *)
Definition space_encodings : list (list N) :=
  [[9]; [10]; [11]; [12]; [13]; [32]; [194; 133]; [194; 160]; [225; 154; 128];
   [226; 128; 128]; [226; 128; 129]; [226; 128; 130]; [226; 128; 131]; [226; 128; 132];
   [226; 128; 133]; [226; 128; 134]; [226; 128; 135]; [226; 128; 136]; [226; 128; 137];
   [226; 128; 138]; [226; 128; 168]; [226; 128; 169]; [226; 128; 175]; [226; 129; 159];
   [227; 128; 128]].

(** The rest of [l] after the first encoding of [encs] that is a prefix of it. *)
Fixpoint strip_prefix (p l : list N) : option (list N) :=
  match p, l with
  | [], _ => Some l
  | a :: p', b :: l' => if a =? b then strip_prefix p' l' else None
  | _ :: _, [] => None
  end.
Fixpoint strip_first (encs : list (list N)) (l : list N) : option (list N) :=
  match encs with
  | [] => None
  | p :: encs' => match strip_prefix p l with Some l' => Some l' | None => strip_first encs' l end
  end.

(** [strings.TrimLeftFunc(s, unicode.IsSpace)] for [encs := space_encodings];
    the mirrored table trims the mirrored string.  A UTF-8 sequence is found
    from either end by its own bytes, so matching encodings is exact, on
    strings that are not valid UTF-8 too (an invalid byte is no space). *)
Fixpoint trim_loop (fuel : nat) (encs : list (list N)) (l : list N) : list N :=
  match fuel with
  | O => l
  | S n => match strip_first encs l with Some l' => trim_loop n encs l' | None => l end
  end.
Definition trim_left (encs : list (list N)) (l : list N) : list N := trim_loop (length l) encs l.
Definition trim_bytes (l : list N) : list N :=
  reverse (trim_left (reverse <$> space_encodings) (reverse (trim_left space_encodings l))).

Definition TrimSpace (s : string) : string := of_bytes (trim_bytes (to_bytes s)).

(** [s] starts, respectively ends, with a white-space code point. *)
Definition starts_with_space (s : string) : bool :=
  if strip_first space_encodings (to_bytes s) is Some _ then true else false.
Definition ends_with_space (s : string) : bool :=
  if strip_first (reverse <$> space_encodings) (reverse (to_bytes s)) is Some _ then true else false.

Lemma strip_prefix_Some p l l' : strip_prefix p l = Some l' ↔ l = p ++ l'.
Proof.
  revert l. induction p as [|a p IHp]; intros [|b l]; cbn.
  1-3: clear; naive_solver.
  destruct (N.eqb_spec a b) as [->|Hne]; [rewrite IHp; clear; naive_solver|].
  split; [done|]. by intros [= ??].
Qed.

Lemma strip_first_Some encs l l' :
  strip_first encs l = Some l' → ∃ p, p ∈ encs ∧ l = p ++ l'.
Proof.
  induction encs as [|p encs IH]; cbn; [done|].
  destruct (strip_prefix p l) eqn:Hp; intros Heq; simplify_eq.
  - apply strip_prefix_Some in Hp. exists p. split; [left|done].
  - destruct (IH Heq) as (q & ? & ?). exists q. split; [by right|done].
Qed.

Lemma strip_first_None encs l :
  strip_first encs l = None ↔ ∀ p l', p ∈ encs → l ≠ p ++ l'.
Proof.
  induction encs as [|p encs IHe]; cbn.
  { split; [|done]. intros _ p l' Hin. by apply elem_of_nil in Hin. }
  destruct (strip_prefix p l) as [k|] eqn:Hp.
  - apply strip_prefix_Some in Hp. split; [done|]. intros H. by destruct (H p k); [left|].
  - rewrite IHe. split; intros H q l' Hq.
    + apply elem_of_cons in Hq as [->|]; [|by apply H].
      intros Heq%strip_prefix_Some. congruence.
    + apply H. by right.
Qed.

Definition proper (encs : list (list N)) : Prop := Forall (λ p, p ≠ []) encs.

Lemma space_encodings_proper : proper space_encodings.
Proof. repeat (constructor; [done|]). constructor. Qed.
Lemma reversed_encodings_proper : proper (reverse <$> space_encodings).
Proof. repeat (constructor; [done|]). constructor. Qed.

(** The fuel is enough: the loop stops on a string no encoding starts. *)
Lemma trim_loop_done fuel encs l :
  proper encs → (length l ≤ fuel)%nat → strip_first encs (trim_loop fuel encs l) = None.
Proof.
  intros Hp. unfold proper in Hp. rewrite Forall_forall in Hp.
  revert l. induction fuel as [|n IH]; intros l Hl; cbn.
  - apply strip_first_None. intros p l' Hin ->. rewrite length_app in Hl.
    destruct p; [by apply (Hp [])|cbn in Hl; lia].
  - destruct (strip_first encs l) as [l'|] eqn:E; [|done].
    destruct (strip_first_Some _ _ _ E) as (p & Hin & ->). apply IH.
    rewrite length_app in Hl. destruct p; [by destruct (Hp [])|cbn in Hl; lia].
Qed.

Lemma trim_loop_suffix fuel encs l : ∃ k, l = k ++ trim_loop fuel encs l.
Proof.
  revert l. induction fuel as [|n IH]; intros l; cbn; [by exists []|].
  destruct (strip_first encs l) as [l'|] eqn:E; [|by exists []].
  destruct (strip_first_Some _ _ _ E) as (p & _ & ->). destruct (IH l') as [k Hk].
  exists (p ++ k). by rewrite <- app_assoc, <- Hk.
Qed.

Lemma trim_loop_id fuel encs l : strip_first encs l = None → trim_loop fuel encs l = l.
Proof. destruct fuel; cbn; [done|]. by intros ->. Qed.

Lemma strip_first_None_app encs l k :
  strip_first encs (l ++ k) = None → strip_first encs l = None.
Proof.
  rewrite !strip_first_None. intros H p l' Hin ->. by eapply (H p (l' ++ k)); [|rewrite app_assoc].
Qed.

Lemma of_to_bytes s : of_bytes (to_bytes s) = s.
Proof.
  unfold of_bytes, to_bytes. rewrite <- list_fmap_compose.
  rewrite (list_fmap_ext _ id).
  - rewrite list_fmap_id. apply String.string_of_list_ascii_of_string.
  - intros ? a _. cbn. apply Ascii.ascii_N_embedding.
Qed.

Lemma length_of_bytes l : String.length (of_bytes l) = length l.
Proof. unfold of_bytes. induction l; cbn; congruence. Qed.

Lemma trim_bytes_infix l : ∃ k1 k2, l = k1 ++ trim_bytes l ++ k2.
Proof.
  unfold trim_bytes, trim_left.
  destruct (trim_loop_suffix (length l) space_encodings l) as [k1 Hk1].
  set (m := trim_loop (length l) space_encodings l) in *.
  destruct (trim_loop_suffix (length (reverse m)) (reverse <$> space_encodings) (reverse m))
    as [k2 Hk2].
  exists k1, (reverse k2). rewrite Hk1 at 1. f_equal.
  apply (f_equal reverse) in Hk2. by rewrite reverse_involutive, reverse_app in Hk2.
Qed.

Lemma TrimSpace_bytes s : TrimSpace s = s ↔ trim_bytes (to_bytes s) = to_bytes s.
Proof.
  unfold TrimSpace. split; [|intros ->; apply of_to_bytes].
  intros Heq. destruct (trim_bytes_infix (to_bytes s)) as (k1 & k2 & Hl).
  apply (f_equal String.length) in Heq. rewrite length_of_bytes in Heq.
  assert (length (to_bytes s) = String.length s) as Hs
    by (rewrite <- (of_to_bytes s) at 2; by rewrite length_of_bytes).
  pose proof (f_equal length Hl) as Hlen. rewrite !length_app in Hlen.
  destruct k1, k2; cbn in Hlen; try lia. by rewrite app_nil_r in Hl.
Qed.

(** [TrimSpace] returns its argument exactly when neither end is white space. *)
Lemma TrimSpace_id s :
  TrimSpace s = s ↔ starts_with_space s = false ∧ ends_with_space s = false.
Proof.
  rewrite TrimSpace_bytes. unfold starts_with_space, ends_with_space.
  set (b := to_bytes s). split.
  - intros Heq. unfold trim_bytes, trim_left in Heq.
    pose proof (trim_loop_done (length b) _ b space_encodings_proper (le_n _)) as H1.
    set (m := trim_loop (length b) space_encodings b) in *.
    pose proof (trim_loop_done (length (reverse m)) _ (reverse m)
      reversed_encodings_proper (le_n _)) as H2.
    apply (f_equal reverse) in Heq. rewrite reverse_involutive in Heq. rewrite Heq in H2.
    assert (m = b) as Hmb.
    { destruct (trim_loop_suffix (length b) space_encodings b) as [k1 Hk1]. fold m in Hk1.
      destruct (trim_loop_suffix (length (reverse m)) (reverse <$> space_encodings) (reverse m))
        as [k2 Hk2]. rewrite Heq in Hk2.
      pose proof (f_equal length Hk1). pose proof (f_equal length Hk2).
      rewrite ?length_app, ?length_reverse in *. destruct k1; [done|cbn in *; lia]. }
    rewrite Hmb in H1. by rewrite H1, H2.
  - intros [H1 H2]. destruct (strip_first space_encodings b) eqn:E1; [done|].
    destruct (strip_first _ (reverse b)) eqn:E2; [done|].
    unfold trim_bytes, trim_left. rewrite (trim_loop_id _ _ b E1), (trim_loop_id _ _ _ E2).
    apply reverse_involutive.
Qed.

(** Trimming once is enough. *)
Lemma trim_bytes_idem l : trim_bytes (trim_bytes l) = trim_bytes l.
Proof.
  unfold trim_bytes at 2 3. set (m := trim_left space_encodings l).
  assert (strip_first space_encodings m = None) as Hm
    by (apply trim_loop_done; [apply space_encodings_proper|done]).
  set (r := trim_left (reverse <$> space_encodings) (reverse m)).
  assert (strip_first (reverse <$> space_encodings) r = None) as Hr
    by (apply trim_loop_done; [apply reversed_encodings_proper|done]).
  destruct (trim_loop_suffix (length (reverse m)) (reverse <$> space_encodings) (reverse m)) as [k Hk].
  change (trim_loop _ _ _) with r in Hk.
  apply (f_equal reverse) in Hk. rewrite reverse_involutive, reverse_app in Hk.
  assert (strip_first space_encodings (reverse r) = None) as Hl
    by (eapply strip_first_None_app; by rewrite <- Hk).
  unfold trim_bytes, trim_left. rewrite (trim_loop_id _ _ _ Hl), reverse_involutive.
  by rewrite (trim_loop_id _ _ _ Hr).
Qed.

Lemma to_of_bytes l : Forall (λ b, b < 256)%N l → to_bytes (of_bytes l) = l.
Proof.
  unfold to_bytes, of_bytes. intros Hl.
  rewrite String.list_ascii_of_string_of_list_ascii, <- list_fmap_compose.
  induction Hl as [|b l Hb _ IH]; [done|]. cbn. rewrite IH. f_equal. by apply Ascii.N_ascii_embedding.
Qed.
Lemma to_bytes_range s : Forall (λ b, b < 256)%N (to_bytes s).
Proof.
  unfold to_bytes. apply Forall_fmap, Forall_forall. intros a _. apply Ascii.N_ascii_bounded.
Qed.

Lemma TrimSpace_idem s : TrimSpace (TrimSpace s) = TrimSpace s.
Proof.
  unfold TrimSpace. rewrite to_of_bytes; [by rewrite trim_bytes_idem|].
  destruct (trim_bytes_infix (to_bytes s)) as (k1 & k2 & Hl). pose proof (to_bytes_range s) as Hr.
  rewrite Hl, !Forall_app in Hr. apply Hr.
Qed.

Lemma TrimSpace_empty : TrimSpace "" = "".
Proof. reflexivity. Qed.
End GoStrings.
