(* ===== verification/GoText.v ===== *)
(** * Parsing in Go's standard library

    [strconv.ParseUint] and [strconv.Atoi] in base ten, [time.ParseDuration] with
    its IEEE arithmetic for fractions, and [strings.Split] on a one-byte
    separator, as the configuration uses them.  Byte strings are lists of [N].
    The proofs give the ranges of the results and the round trips with the
    decimal rendering. *)
From Stdlib Require Import Ascii SpecFloat.
From stdpp Require Import pretty.
From S2P Require Import Prelude GoBase.
Import GoInt GoError GoTime GoStrings.
Local Open Scope Z_scope.

(** ** Digits *)
Definition is_digit (c : N) : bool := (48 <=? c)%N && (c <=? 57)%N.
Definition digit (c : N) : Z := Z.of_N c - 48.

(** ** [strconv] *)

(** [ErrSyntax] and [ErrRange] inside a [*NumError]. *)
Definition num_error (f s what : string) : error :=
  External ("strconv." +:+ f +:+ ": parsing " +:+ s +:+ ": " +:+ what).

(** The loop of [ParseUint(s, 10, bitSize)]; [max] is the largest value. *)
Fixpoint parse_digits (max : Z) (l : list N) (n : Z) : option Z :=
  match l with
  | [] => Some n
  | c :: l =>
      if is_digit c then
        let n := 10 * n + digit c in if max <? n then None else parse_digits max l n
      else None
  end.
Definition ParseUint (s : string) (bitSize : Z) : result error Z :=
  match to_bytes s with
  | [] => inl (num_error "ParseUint" s "invalid syntax")
  | l =>
      match parse_digits (2 ^ bitSize - 1) l 0 with
      | Some n => inr n
      | None => inl (num_error "ParseUint" s
                  (if forallb is_digit l then "value out of range" else "invalid syntax"))
      end
  end.

(** An optional sign. *)
Definition take_sign (l : list N) : bool * list N :=
  match l with
  | c :: l' => if (c =? 43)%N then (false, l') else if (c =? 45)%N then (true, l') else (false, l)
  | [] => (false, [])
  end.

(** [Atoi]: an optional sign and digits, within 64 bits. *)
Definition Atoi (s : string) : result error Z :=
  let '(negative, l) := take_sign (to_bytes s) in
  let failed what := inl (num_error "Atoi" s what) in
  match l with
  | [] => failed "invalid syntax"
  | _ =>
      match parse_digits (if negative : bool then 2 ^ 63 else 2 ^ 63 - 1) l 0 with
      | Some n => inr (if negative then - n else n)
      | None => failed (if forallb is_digit l then "value out of range" else "invalid syntax")
      end
  end.

(** ** [time.ParseDuration] *)

Definition binary64 (z : Z) : spec_float := binary_normalize 53 1024 z 0 false.
Definition fmul : spec_float → spec_float → spec_float := SFmul 53 1024.
Definition fdiv : spec_float → spec_float → spec_float := SFdiv 53 1024.
(** Conversion of a non-negative finite value to an integer. *)
Definition truncate (x : spec_float) : Z :=
  match x with
  | S754_finite false m e => Z.shiftl (Z.pos m) e
  | _ => 0
  end.

(** [leadingInt]: the value and the rest, or an overflow. *)
Fixpoint leadingInt (l : list N) (x : Z) : option (Z * list N) :=
  match l with
  | c :: l' =>
      if is_digit c then
        if 2 ^ 63 / 10 <? x then None else
        let x := 10 * x + digit c in
        if 2 ^ 63 <? x then None else leadingInt l' x
      else Some (x, l)
  | [] => Some (x, [])
  end.

(** [leadingFraction]: the value, the scale and the rest; digits beyond the
    precision are skipped. *)
Fixpoint leadingFraction (l : list N) (x : Z) (scale : spec_float) (overflow : bool) :
    Z * spec_float * list N :=
  match l with
  | c :: l' =>
      if is_digit c then
        if overflow then leadingFraction l' x scale true
        else if (2 ^ 63 - 1) / 10 <? x then leadingFraction l' x scale true
        else
          let y := 10 * x + digit c in
          if 2 ^ 63 <? y then leadingFraction l' x scale true
          else leadingFraction l' y (fmul scale (binary64 10)) false
      else (x, scale, l)
  | [] => (x, scale, [])
  end.

(** The unit: the bytes up to the next digit or period. *)
Fixpoint take_unit (l : list N) : list N * list N :=
  match l with
  | c :: l' =>
      if (c =? 46)%N || is_digit c then ([], l)
      else let '(u, rest) := take_unit l' in (c :: u, rest)
  | [] => ([], [])
  end.
(** [unitMap]; the micro sign and the Greek mu are both accepted. *)
Definition unitMap : list (list N * Z) :=
  [(to_bytes "ns", 1);
   (to_bytes "us", 1000);
   ([194; 181; 115]%N, 1000);
   ([206; 188; 115]%N, 1000);
   (to_bytes "ms", Millisecond);
   (to_bytes "s", Second);
   (to_bytes "m", Minute);
   (to_bytes "h", Hour)].
Fixpoint unit_of (table : list (list N * Z)) (u : list N) : option Z :=
  match table with
  | [] => None
  | (name, value) :: table => if decide (name = u) then Some value else unit_of table u
  end.

(** A period and digits: the fraction, its scale, the rest, and whether it has digits. *)
Definition take_fraction (l : list N) : Z * spec_float * list N * bool :=
  match l with
  | c :: l' =>
      if (c =? 46)%N then
        let '(f, scale, rest) := leadingFraction l' 0 (binary64 1) false in
        (f, scale, rest, negb (length rest =? length l')%nat)
      else (0, binary64 1, l, false)
  | [] => (0, binary64 1, [], false)
  end.
(** One [number unit] group: its value and the rest. *)
Definition duration_group (l : list N) : option (Z * list N) :=
  match l with
  | [] => None
  | c :: _ =>
      if negb ((c =? 46)%N || is_digit c) then None else
      '(v, s1) ← leadingInt l 0;
      let pre := negb (length s1 =? length l)%nat in
      let '(f, scale, s2, post) := take_fraction s1 in
      if negb pre && negb post then None else
      let '(u, s3) := take_unit s2 in
      match u with
      | [] => None
      | _ =>
          unit ← unit_of unitMap u;
          if 2 ^ 63 / unit <? v then None else
          let v := v * unit in
          if 0 <? f then
            let v := uint64 (v + truncate (fmul (binary64 f) (fdiv (binary64 unit) scale))) in
            if 2 ^ 63 <? v then None else Some (v, s3)
          else Some (v, s3)
      end
  end.

(** The loop over the groups; a group is never empty, so the length is enough
    fuel. *)
Fixpoint duration_groups (fuel : nat) (l : list N) (d : Z) : option Z :=
  match l, fuel with
  | [], _ => Some d
  | _, O => None
  | _, S fuel =>
      '(v, rest) ← duration_group l;
      let d := uint64 (d + v) in
      if 2 ^ 63 <? d then None else duration_groups fuel rest d
  end.

Definition duration_error (s : string) : error := External ("time: invalid duration " +:+ s).
Definition ParseDuration (s : string) : result error Duration :=
  let '(negative, l) := take_sign (to_bytes s) in
  if decide (l = [48%N]) then inr 0 else
  match l with
  | [] => inl (duration_error s)
  | _ =>
      match duration_groups (length l) l 0 with
      | None => inl (duration_error s)
      | Some d =>
          if negative : bool then inr (int64 (- int64 d))
          else if 2 ^ 63 - 1 <? d then inl (duration_error s) else inr d
      end
  end.

(** ** [strings.Split] on one byte *)
Fixpoint split_bytes (sep : N) (l : list N) : list (list N) :=
  match l with
  | [] => [[]]
  | c :: l =>
      match split_bytes sep l with
      | [] => [[c]]
      | first :: rest => if (c =? sep)%N then [] :: first :: rest else (c :: first) :: rest
      end
  end.
Definition Split (s : string) (sep : N) : list string := of_bytes <$> split_bytes sep (to_bytes s).

(** The values Go documents. *)
Example parse_examples :
  (ParseDuration "1h30m", ParseDuration "1.5h", ParseDuration "-1.5h", ParseDuration "100ms",
   ParseDuration ".5s", ParseDuration "0", ParseDuration "2562047h47m16.854775807s",
   Atoi "-12", Atoi "+7", ParseUint "4294967295" 32, Split "a,,b" 44) =
  (inr (dmul 90 Minute), inr (dmul 90 Minute), inr (- dmul 90 Minute), inr (100 * Millisecond),
   inr (500 * Millisecond), inr 0, inr maxDuration, inr (-12), inr 7, inr 4294967295,
   ["a"; ""; "b"]).
Proof. vm_compute. reflexivity. Qed.
Definition failed {A} (r : result error A) : bool := if r is inl _ then true else false.
Example parse_failures :
  forallb (λ s, failed (ParseDuration s))
    [""; "3000000h"; "1"; "s"; ".s"; "1x"; "1h 30m"; "9223372036854775808ns"; "-"] &&
  forallb (λ s, failed (ParseUint s 32)) [""; "4294967296"; "-1"; "+1"; "1_0"; " 1"] &&
  forallb (λ s, failed (Atoi s)) [""; "-"; "9223372036854775808"; "1.0"] = true.
Proof. vm_compute. reflexivity. Qed.

(** ** Ranges *)

Lemma digit_range c : is_digit c = true → 0 ≤ digit c ≤ 9.
Proof. unfold is_digit, digit. rewrite andb_true_iff, !N.leb_le. lia. Qed.

Lemma parse_digits_range max l n m : 0 ≤ n ≤ max → parse_digits max l n = Some m → 0 ≤ m ≤ max.
Proof.
  revert n. induction l as [|c l IH]; intros n Hn; cbn [parse_digits]; [congruence|].
  destruct (is_digit c) eqn:Hc; [|done]. apply digit_range in Hc.
  destruct (Z.ltb_spec max (10 * n + digit c)); [done|]. apply IH. lia.
Qed.

Lemma ParseUint_range s bitSize n : 0 ≤ bitSize → ParseUint s bitSize = inr n → 0 ≤ n < 2 ^ bitSize.
Proof.
  intros Hb. unfold ParseUint. destruct (to_bytes s) as [|c l]; [done|].
  destruct (parse_digits _ _ _) as [m|] eqn:E; [|done]. intros [= <-].
  pose proof (Z.pow_pos_nonneg 2 bitSize ltac:(lia) Hb).
  apply parse_digits_range in E; lia.
Qed.

Lemma Atoi_range s n : Atoi s = inr n → in_int64 n.
Proof.
  unfold Atoi, in_int64. destruct (take_sign (to_bytes s)) as [neg l].
  destruct l as [|c l]; [done|]. destruct (parse_digits _ _ _) as [m|] eqn:E; [|done].
  intros [= <-]. destruct neg; apply parse_digits_range in E; lia.
Qed.

Lemma duration_groups_range fuel l d d' :
  0 ≤ d ≤ 2 ^ 63 → duration_groups fuel l d = Some d' → 0 ≤ d' ≤ 2 ^ 63.
Proof.
  revert l d. induction fuel as [|fuel IH]; intros [|c l] d Hd; cbn [duration_groups]; try congruence.
  destruct (duration_group (c :: l)) as [[v rest]|]; cbn [mbind option_bind]; [|done].
  destruct (Z.ltb_spec (2 ^ 63) (uint64 (d + v))) as [|Hle]; [done|]. apply IH.
  split; [apply Z.mod_pos_bound; lia|done].
Qed.

Lemma ParseDuration_range s d : ParseDuration s = inr d → in_int64 d.
Proof.
  unfold ParseDuration, in_int64.
  destruct (take_sign (to_bytes s)) as [neg l].
  case_decide; [intros [= <-]; lia|]. destruct l as [|c l]; [done|].
  destruct (duration_groups _ _ _) as [d'|] eqn:E; [|done].
  apply duration_groups_range in E; [|lia]. destruct neg.
  - intros [= <-]. apply int64_range.
  - destruct (Z.ltb_spec (2 ^ 63 - 1) d'); [done|]. intros [= <-]. lia.
Qed.

(** ** Round trips *)

Lemma pretty_digit x : (x < 10)%N →
  is_digit (N_of_ascii (pretty_N_char x)) = true ∧ digit (N_of_ascii (pretty_N_char x)) = Z.of_N x.
Proof.
  intros Hx. assert (x ∈ [0; 1; 2; 3; 4; 5; 6; 7; 8; 9])%N as Hin
    by (rewrite !elem_of_cons; lia).
  repeat (apply elem_of_cons in Hin as [->|Hin]; [by split|]). by apply elem_of_nil in Hin.
Qed.

Lemma to_bytes_cons a s : to_bytes (String.String a s) = N_of_ascii a :: to_bytes s.
Proof. done. Qed.
Lemma to_bytes_app s t : to_bytes (s +:+ t) = to_bytes s ++ to_bytes t.
Proof. induction s as [|a s IH]; [done|]. change (String.String a s +:+ t) with (String.String a (s +:+ t)).
  by rewrite !to_bytes_cons, IH. Qed.

(** A decimal rendering, digit by digit. *)
Lemma pretty_N_go_ind (P : N → string → Prop) :
  (∀ s, P 0%N s) →
  (∀ x s, (0 < x)%N → P (x / 10)%N (String.String (pretty_N_char (x mod 10)) s) → P x s) →
  ∀ x s, P x s.
Proof.
  intros H0 Hs x. induction (N.lt_wf_0 x) as [x _ IH]. intros s.
  destruct (decide (x = 0%N)) as [->|Hx]; [apply H0|].
  apply Hs; [lia|]. apply IH, N.div_lt; lia.
Qed.

Lemma parse_digits_pretty max x s :
  Z.of_N x ≤ max →
  parse_digits max (to_bytes (pretty_N_go x s)) 0 = parse_digits max (to_bytes s) (Z.of_N x).
Proof.
  revert x s. apply (pretty_N_go_ind (λ x s, Z.of_N x ≤ max → _)).
  - intros s _. by rewrite pretty_N_go_0.
  - intros x s Hx IH Hle. rewrite pretty_N_go_step by done.
    pose proof (N.div_mod' x 10) as Hdm. pose proof (N.mod_lt x 10 ltac:(lia)) as Hm.
    set (q := (x / 10)%N) in *. set (r := (x mod 10)%N) in *. clearbody q r.
    rewrite IH by lia. rewrite to_bytes_cons. cbn [parse_digits].
    destruct (pretty_digit r Hm) as [-> ->].
    replace (10 * Z.of_N q + Z.of_N r) with (Z.of_N x) by lia.
    destruct (Z.ltb_spec max (Z.of_N x)); [lia|done].
Qed.

Lemma leadingInt_pretty x s :
  Z.of_N x ≤ 2 ^ 63 → leadingInt (to_bytes (pretty_N_go x s)) 0 = leadingInt (to_bytes s) (Z.of_N x).
Proof.
  revert x s. apply (pretty_N_go_ind (λ x s, Z.of_N x ≤ 2 ^ 63 → _)).
  - intros s _. by rewrite pretty_N_go_0.
  - intros x s Hx IH Hle. rewrite pretty_N_go_step by done.
    pose proof (N.div_mod' x 10) as Hdm. pose proof (N.mod_lt x 10 ltac:(lia)) as Hm.
    set (q := (x / 10)%N) in *. set (r := (x mod 10)%N) in *. clearbody q r.
    rewrite IH by lia. rewrite to_bytes_cons. cbn [leadingInt].
    destruct (pretty_digit r Hm) as [-> ->].
    replace (10 * Z.of_N q + Z.of_N r) with (Z.of_N x) by lia.
    assert (2 ^ 63 / 10 <? Z.of_N q = false) as -> by (apply Z.ltb_ge, Z.div_le_lower_bound; lia).
    destruct (Z.ltb_spec (2 ^ 63) (Z.of_N x)); [lia|done].
Qed.

Lemma pretty_N_go_app x s t : pretty_N_go x (s +:+ t) = pretty_N_go x s +:+ t.
Proof.
  revert x s. apply (pretty_N_go_ind (λ x s, pretty_N_go x (s +:+ t) = pretty_N_go x s +:+ t)).
  - intros s. by rewrite !pretty_N_go_0.
  - intros x s Hx IH. by rewrite !(pretty_N_go_step x) by done.
Qed.

(** A rendering starts with a digit. *)
Lemma pretty_N_go_head x s : (0 < x)%N →
  ∃ c l, to_bytes (pretty_N_go x s) = c :: l ∧ is_digit c = true ∧ (length (to_bytes s) ≤ length l)%nat.
Proof.
  revert x s. apply (pretty_N_go_ind (λ x s, (0 < x)%N → _)); [lia|].
  intros x s Hx IH _. rewrite pretty_N_go_step by done.
  pose proof (N.mod_lt x 10 ltac:(lia)) as Hm. destruct (pretty_digit _ Hm) as [Hd _].
  destruct (decide (x / 10 = 0)%N) as [->|Hnz].
  - rewrite pretty_N_go_0, to_bytes_cons. by eexists _, _.
  - destruct IH as (c & l & -> & Hc & Hl); [by apply N.neq_0_lt_0|]. rewrite to_bytes_cons in Hl. cbn in Hl.
    exists c, l. split_and!; [done|done|lia].
Qed.

Definition decimal (n : N) : string := pretty n.

Lemma decimal_zero : to_bytes (decimal 0) = [48%N].
Proof. done. Qed.
Lemma decimal_pos n : (0 < n)%N → decimal n = pretty_N_go n "".
Proof. intros Hn. unfold decimal, pretty, pretty_N. rewrite decide_False by lia. done. Qed.

Lemma ParseUint_decimal n bitSize : Z.of_N n < 2 ^ bitSize → ParseUint (decimal n) bitSize = inr (Z.of_N n).
Proof.
  intros Hn. unfold ParseUint. destruct (decide (n = 0%N)) as [->|Hz].
  - rewrite decimal_zero.
    assert (parse_digits (2 ^ bitSize - 1) [48%N] 0 = Some 0) as ->; [|done].
    cbn -[Z.pow Z.ltb Z.sub]. change (10 * 0 + digit 48) with 0.
    destruct (Z.ltb_spec (2 ^ bitSize - 1) 0); [lia|done].
  - rewrite decimal_pos by lia. destruct (pretty_N_go_head n "") as (c & l & Hl & _ & _); [lia|].
    pose proof (parse_digits_pretty (2 ^ bitSize - 1) n "" ltac:(lia)) as H. rewrite Hl in *.
    by rewrite H.
Qed.

Lemma take_sign_digit c l : is_digit c = true → take_sign (c :: l) = (false, c :: l).
Proof.
  unfold is_digit, take_sign. rewrite andb_true_iff, !N.leb_le. intros [H1 H2].
  destruct (N.eqb_spec c 43); [lia|]. destruct (N.eqb_spec c 45); [lia|done].
Qed.

(** A unit of the table, as a string. *)
Definition unit_name (u : string) (unit : Z) : Prop := (to_bytes u, unit) ∈ unitMap.

Lemma unit_name_spec u unit : unit_name u unit →
  (∃ c l, to_bytes u = c :: l ∧ is_digit c = false ∧ c ≠ 46%N) ∧
  take_unit (to_bytes u) = (to_bytes u, []) ∧ unit_of unitMap (to_bytes u) = Some unit ∧
  1 ≤ unit < 2 ^ 63.
Proof.
  unfold unit_name. generalize (to_bytes u). intros l Hin. unfold unitMap in Hin.
  repeat (apply elem_of_cons in Hin as [[= -> ->]|Hin];
    [split_and!; [by eexists _, _|done|done|done|done]|]).
  by apply elem_of_nil in Hin.
Qed.

Lemma leadingInt_stop c l x : is_digit c = false → leadingInt (c :: l) x = Some (x, c :: l).
Proof. intros Hc. cbn. by rewrite Hc. Qed.

(** A decimal number and a unit. *)
Lemma duration_group_decimal n u unit :
  unit_name u unit → Z.of_N n * unit < 2 ^ 63 → (0 < n)%N →
  duration_group (to_bytes (pretty_N_go n u)) = Some (Z.of_N n * unit, []).
Proof.
  intros Hu Hn Hpos. destruct (unit_name_spec u unit Hu) as ((c & l & Hul & Hc & Hdot) & Htake & Hof & Hup).
  assert (Z.of_N n ≤ 2 ^ 63) as Hle by nia.
  pose proof (leadingInt_pretty n u Hle) as Hlead. rewrite Hul, leadingInt_stop in Hlead by done.
  destruct (pretty_N_go_head n u Hpos) as (d & rest & Hd & Hdig & Hlen). rewrite Hd in *.
  unfold duration_group. rewrite Hdig, orb_true_r, Hlead. cbn [negb mbind option_bind].
  assert (length (c :: l) =? length (d :: rest) = false)%nat as ->.
  { apply Nat.eqb_neq. rewrite <- Hul. cbn. lia. }
  cbn [negb andb].
  assert (take_fraction (c :: l) = (0, binary64 1, c :: l, false)) as ->
    by (cbn; by rewrite (proj2 (N.eqb_neq _ _) Hdot)).
  rewrite <- Hul, Htake, Hul. cbn [mbind option_bind]. rewrite <- Hul, Hof. cbn [mbind option_bind].
  assert (2 ^ 63 / unit <? Z.of_N n = false) as ->; [|done].
  apply Z.ltb_ge, Z.div_le_lower_bound; nia.
Qed.

(** [ParseDuration] reads back a whole number of units. *)
Lemma ParseDuration_decimal n u unit :
  unit_name u unit → Z.of_N n * unit < 2 ^ 63 → ParseDuration (decimal n +:+ u) = inr (Z.of_N n * unit).
Proof.
  intros Hu Hn. destruct (decide (n = 0%N)) as [->|Hz].
  { unfold unit_name, unitMap in Hu. unfold ParseDuration. rewrite to_bytes_app, decimal_zero.
    revert Hu. generalize (to_bytes u). intros l Hin.
    repeat (apply elem_of_cons in Hin as [[= -> ->]|Hin]; [vm_compute; reflexivity|]).
    by apply elem_of_nil in Hin. }
  rewrite decimal_pos by lia. rewrite <- pretty_N_go_app.
  change ("" +:+ u) with u. assert (0 < n)%N as Hpos by lia.
  pose proof (duration_group_decimal n u unit Hu Hn Hpos) as Hgroup.
  destruct (unit_name_spec u unit Hu) as ((c & l & Hul & _) & _ & _ & Hup).
  destruct (pretty_N_go_head n u Hpos) as (d & rest & Hd & Hdig & Hlen).
  unfold ParseDuration. rewrite Hd in *. rewrite take_sign_digit by done.
  rewrite decide_False. 2: { intros [= _ ->]. rewrite Hul in Hlen. cbn in Hlen. lia. }
  cbn [length duration_groups]. rewrite Hgroup. cbn [mbind option_bind].
  assert (uint64 (0 + Z.of_N n * unit) = Z.of_N n * unit) as -> by (apply uint64_id; unfold in_uint64; lia).
  destruct (Z.ltb_spec (2 ^ 63) (Z.of_N n * unit)); [lia|].
  destruct rest; cbn [length duration_groups]; (destruct (Z.ltb_spec (2 ^ 63 - 1) (Z.of_N n * unit)); [lia|done]).
Qed.

(** ** Split *)

Lemma split_bytes_nonempty sep l : split_bytes sep l ≠ [].
Proof. destruct l as [|c l]; cbn; [done|]. destruct (split_bytes sep l); [done|]. by case_match. Qed.

(** Joining the parts with the separator gives the string back, and no part
    contains the separator. *)
Fixpoint join_bytes (sep : N) (parts : list (list N)) : list N :=
  match parts with
  | [] => []
  | [part] => part
  | part :: rest => part ++ sep :: join_bytes sep rest
  end.
Lemma split_join sep l : join_bytes sep (split_bytes sep l) = l.
Proof.
  induction l as [|c l IH]; [done|]. cbn. pose proof (split_bytes_nonempty sep l) as Hne.
  destruct (split_bytes sep l) as [|first rest]; [done|].
  destruct (N.eqb_spec c sep) as [->|]; [cbn in *; by rewrite IH|].
  destruct rest; cbn in *; by rewrite IH.
Qed.
Lemma split_no_sep sep l : Forall (λ part, sep ∉ part) (split_bytes sep l).
Proof.
  induction l as [|c l IH]; cbn; [repeat constructor; set_solver|].
  pose proof (split_bytes_nonempty sep l) as Hne.
  destruct (split_bytes sep l) as [|first rest]; [done|].
  inversion IH; subst. destruct (N.eqb_spec c sep); constructor; try done; [set_solver|].
  rewrite not_elem_of_cons. by split.
Qed.

Lemma Atoi_decimal n : Z.of_N n < 2 ^ 63 → Atoi (decimal n) = inr (Z.of_N n).
Proof.
  intros Hn. destruct (decide (n = 0%N)) as [->|Hz]; [by vm_compute|].
  unfold Atoi. rewrite decimal_pos by lia.
  destruct (pretty_N_go_head n "") as (c & l & Hl & Hc & _); [lia|].
  pose proof (parse_digits_pretty (2 ^ 63 - 1) n "" ltac:(lia)) as H. rewrite Hl in *.
  rewrite take_sign_digit by done. by rewrite H.
Qed.

Lemma decimal_nonempty n : decimal n ≠ "".
Proof.
  intros H%(f_equal (λ s, length (to_bytes s))). destruct (decide (n = 0%N)) as [->|Hz]; [done|].
  rewrite decimal_pos in H by lia. destruct (pretty_N_go_head n "") as (c & l & Hl & _); [lia|].
  by rewrite Hl in H.
Qed.

(** Splitting a joined list gives the list back. *)
Lemma split_cons_part sep part rest l :
  sep ∉ part → split_bytes sep l = [] :: rest →
  split_bytes sep (part ++ l) = part :: rest.
Proof.
  intros Hin Hl. induction part as [|c part IH]; [done|]. rewrite not_elem_of_cons in Hin. cbn.
  rewrite IH by apply Hin. destruct (N.eqb_spec c sep); [by destruct Hin|done].
Qed.
Lemma split_bytes_join sep parts :
  parts ≠ [] → Forall (λ part, sep ∉ part) parts → split_bytes sep (join_bytes sep parts) = parts.
Proof.
  intros Hne Hall. induction Hall as [|part rest Hpart Hall IH]; [done|].
  destruct rest as [|next rest].
  - cbn. rewrite <- (app_nil_r part) at 1. by apply split_cons_part.
  - change (join_bytes sep (part :: next :: rest)) with (part ++ sep :: join_bytes sep (next :: rest)).
    apply split_cons_part; [done|]. cbn [split_bytes]. rewrite IH by done. by rewrite N.eqb_refl.
Qed.
