(* ===== verification/GoFloat.v ===== *)
(** * [float64] values of durations, and the rounding of products

    [Duration.Seconds] and [Duration.Microseconds], and what the percentiles of
    the load-test tool need of IEEE 754: an integer below [2^53] is represented
    exactly, and a product is its exact value with at most one unit added in the
    last place, none when it is representable. *)
From S2P Require Import Prelude GoBase GoText.
From Stdlib Require Import SpecFloat.
Import GoTime.
Local Open Scope Z_scope.

Definition fadd : spec_float → spec_float → spec_float := SFadd 53 1024.
Definition Microseconds (d : Duration) : Z := Z.quot d 1000.
Definition Seconds (d : Duration) : spec_float :=
  fadd (binary64 (Z.quot d Second)) (fdiv (binary64 (Z.rem d Second)) (binary64 1000000000)).

Lemma digits2_spec (m : positive) :
  2 ^ (Z.pos (digits2_pos m) - 1) ≤ Z.pos m < 2 ^ Z.pos (digits2_pos m).
Proof.
  induction m as [m IH|m IH|]; cbn [digits2_pos]; [| |done];
    rewrite Pos2Z.inj_succ, Z.pow_succ_r by lia;
    replace (Z.succ (Z.pos (digits2_pos m)) - 1) with (Z.succ (Z.pos (digits2_pos m) - 1)) by lia;
    rewrite Z.pow_succ_r by lia; lia.
Qed.

(** The number of digits is determined by the bounds. *)
Lemma digits2_unique (m : positive) d : 0 < d → 2 ^ (d - 1) ≤ Z.pos m < 2 ^ d → Z.pos (digits2_pos m) = d.
Proof.
  intros Hd [Hlo Hhi]. pose proof (digits2_spec m) as [Hlo' Hhi'].
  assert (d - 1 < Z.pos (digits2_pos m)) by (apply (Z.pow_lt_mono_r_iff 2); lia).
  assert (Z.pos (digits2_pos m) - 1 < d) by (apply (Z.pow_lt_mono_r_iff 2); lia). lia.
Qed.

(** ** Shifting right *)

Lemma iter_pos_iter {A} (f : A → A) p x : iter_pos f p x = Pos.iter f x p.
Proof.
  revert x. induction p as [p IH|p IH|]; intros x; cbn; [|by rewrite !IH|done].
  by rewrite !IH, !Pos.iter_swap.
Qed.

Lemma shr_1_m mrs : 0 ≤ shr_m mrs → shr_m (shr_1 mrs) = shr_m mrs / 2.
Proof.
  destruct mrs as [m r s]. cbn. intros Hm. rewrite <- Z.div2_div.
  destruct m as [|[p|p|]|p]; cbn; [done..|lia].
Qed.

Lemma shr_iter_m p mrs : 0 ≤ shr_m mrs → shr_m (iter_pos shr_1 p mrs) = shr_m mrs / 2 ^ Z.pos p.
Proof.
  intros Hm. rewrite iter_pos_iter. induction p as [|p IH] using Pos.peano_ind.
  - by apply shr_1_m.
  - pose proof (Z.pow_pos_nonneg 2 (Z.pos p) ltac:(lia) ltac:(lia)) as Hpow.
    rewrite Pos.iter_succ, shr_1_m; rewrite IH; [|by apply Z.div_pos].
    by rewrite Z.div_div, Pos2Z.inj_succ, Z.pow_succ_r, (Z.mul_comm 2) by lia.
Qed.

Lemma shr_1_exact q : shr_1 (Build_shr_record (q * 2) false false) = Build_shr_record q false false.
Proof. rewrite Z.mul_comm. by destruct q. Qed.

Lemma shr_iter_exact p q :
  iter_pos shr_1 p (Build_shr_record (q * 2 ^ Z.pos p) false false) = Build_shr_record q false false.
Proof.
  rewrite iter_pos_iter. revert q. induction p as [|p IH] using Pos.peano_ind; intros q.
  - apply shr_1_exact.
  - rewrite Pos.iter_succ, Pos2Z.inj_succ, Z.pow_succ_r, Z.mul_assoc, IH by lia. apply shr_1_exact.
Qed.

Lemma round_bounds m l : m ≤ round_nearest_even m l ≤ m + 1.
Proof. destruct l as [|[]]; cbn; [lia..| |lia|lia]. destruct (Z.even m); lia. Qed.

(** [shr] by a non-negative amount. *)
Lemma shr_m_div m e k : 0 ≤ m → 0 ≤ k →
  ∃ l, shr (shr_record_of_loc m loc_Exact) e k = (l, e + k) ∧ shr_m l = m / 2 ^ k ∧
    (m = m / 2 ^ k * 2 ^ k → loc_of_shr_record l = loc_Exact).
Proof.
  intros Hm Hk. destruct k as [|p|p]; [| |lia].
  - eexists. split; [cbn; by rewrite Z.add_0_r|]. cbn. by rewrite Z.div_1_r.
  - eexists. split; [done|]. split; [by apply shr_iter_m|]. intros Hexact.
    unfold shr_record_of_loc. rewrite Hexact, shr_iter_exact. done.
Qed.

Lemma fexp_64 e : - 1021 ≤ e → fexp 53 1024 e = e - 53.
Proof. unfold fexp, emin. lia. Qed.

Lemma shr_fexp_64 m e k : 0 < m → 0 ≤ k → Zdigits2 m = 53 + k → - 1074 ≤ e + k →
  ∃ l, shr_fexp 53 1024 m e loc_Exact = (l, e + k) ∧ shr_m l = m / 2 ^ k ∧
    (m = m / 2 ^ k * 2 ^ k → loc_of_shr_record l = loc_Exact).
Proof.
  intros Hm Hk Hd He. unfold shr_fexp. rewrite Hd, fexp_64 by lia.
  replace (53 + k + e - 53 - e) with k by lia. apply shr_m_div; lia.
Qed.

(** The value a rounding ends with: [r] units of [2^E]. *)
Definition rounded_to (x : spec_float) (r E : Z) : Prop :=
  ∃ p, x = S754_finite false p E ∧ Z.pos p = r ∨ x = S754_finite false p (E + 1) ∧ 2 * Z.pos p = r ∧ r = 2 ^ 53.

Lemma digits_half d m k : 0 < m → 0 ≤ k → 0 < d → Zdigits2 m = d + k →
  2 ^ (d - 1) ≤ m / 2 ^ k < 2 ^ d.
Proof.
  intros Hm Hk Hd Hdig. destruct m as [|m|m]; [lia| |lia]. cbn in Hdig.
  pose proof (digits2_spec m) as [Hlo Hhi]. rewrite Hdig in Hlo, Hhi.
  replace (d + k - 1) with (d - 1 + k) in Hlo by lia. rewrite Z.pow_add_r in Hlo, Hhi by lia.
  pose proof (Z.pow_pos_nonneg 2 k ltac:(lia) Hk). split.
  - apply Z.div_le_lower_bound; lia.
  - apply Z.div_lt_upper_bound; lia.
Qed.

(** Rounding of [m * 2^e], for a mantissa of at least 53 digits. *)
Lemma binary_round_64 m e k : 0 ≤ k → Zdigits2 (Z.pos m) = 53 + k → - 1074 ≤ e + k ≤ 970 →
  ∃ r, rounded_to (binary_round_aux 53 1024 false (Z.pos m) e loc_Exact) r (e + k) ∧
    Z.pos m / 2 ^ k ≤ r ≤ Z.pos m / 2 ^ k + 1 ∧
    (Z.pos m = Z.pos m / 2 ^ k * 2 ^ k → r = Z.pos m / 2 ^ k).
Proof.
  intros Hk Hd He.
  destruct (shr_fexp_64 (Z.pos m) e k) as (l & Hshr & Hl & Hexact); [lia..|].
  pose proof (digits_half 53 (Z.pos m) k ltac:(lia) Hk ltac:(lia) Hd) as Hrange.
  set (r := round_nearest_even (shr_m l) (loc_of_shr_record l)).
  pose proof (round_bounds (shr_m l) (loc_of_shr_record l)) as Hr. fold r in Hr. rewrite Hl in Hr.
  exists r. split_and!; [|lia|lia|by intros H; unfold r; rewrite Hexact, Hl].
  unfold binary_round_aux. rewrite Hshr. cbv beta iota zeta. fold r.
  destruct r as [|p|p] eqn:Er; [lia| |lia].
  destruct (decide (Z.pos p = 2 ^ 53)) as [Hcarry|Hno].
  - exists (2 ^ 52)%positive. right. split_and!; [|by rewrite Hcarry|done].
    replace p with (2 ^ 53)%positive by (apply Pos2Z.inj; rewrite Hcarry; reflexivity).
    destruct (shr_fexp_64 (Z.pos (2 ^ 53)) (e + k) 1) as (l' & -> & Hl' & _); [done|done|done|lia|].
    rewrite Hl'. cbn [Z.div Z.div_eucl]. change (Z.pos (2 ^ 53) / 2 ^ 1) with (Z.pos (2 ^ 52)). cbv iota.
    destruct (Z.leb_spec (e + k + 1) (1024 - 53)); [done|lia].
  - exists p. left. split; [|done].
    assert (Zdigits2 (Z.pos p) = 53 + 0) as Hp by (cbn; apply digits2_unique; lia).
    destruct (shr_fexp_64 (Z.pos p) (e + k) 0) as (l' & -> & Hl' & _); [done|done|done|lia|].
    rewrite Hl', Z.add_0_r, Z.pow_0_r, Z.div_1_r. destruct (Z.leb_spec (e + k) (1024 - 53)); [done|lia].
Qed.

(** ** Integers *)

Lemma iter_xO m d : Z.pos (Pos.iter xO m d) = Z.pos m * 2 ^ Z.pos d.
Proof.
  induction d as [|d IH] using Pos.peano_ind; [rewrite Z.pow_1_r; cbn; lia|].
  rewrite Pos.iter_succ, Pos2Z.inj_succ, Z.pow_succ_r by lia.
  rewrite (Pos2Z.inj_xO (Pos.iter _ _ _)). lia.
Qed.

(** A float that holds the integer [n]: 53 digits and a non-positive exponent. *)
Definition holds (x : spec_float) (n : Z) : Prop :=
  ∃ m e, x = S754_finite false m e ∧ - 52 ≤ e ≤ 0 ∧ Z.pos m = n * 2 ^ (- e) ∧
    2 ^ 52 ≤ Z.pos m < 2 ^ 53.

Lemma shl_align_le n e : 0 ≤ e →
  ∃ m, shl_align n 0 (- e) = (m, - e) ∧ Z.pos m = Z.pos n * 2 ^ e.
Proof.
  intros He. unfold shl_align. rewrite Z.sub_0_r. destruct e as [|d|d]; [| |lia].
  - exists n. cbn. split; [done|lia].
  - exists (Pos.iter xO n d). by rewrite iter_xO.
Qed.

Lemma binary64_holds n : 0 < n < 2 ^ 53 → holds (binary64 n) n.
Proof.
  intros Hn. destruct n as [|n|n]; [lia| |lia].
  pose proof (digits2_spec n) as [Hlo Hhi]. set (d := Z.pos (digits2_pos n)) in *.
  assert (1 ≤ d ≤ 53) as Hd.
  { split; [unfold d; lia|]. assert (d - 1 < 53) by (apply (Z.pow_lt_mono_r_iff 2); lia). lia. }
  destruct (shl_align_le n (53 - d) ltac:(lia)) as (m & Halign & Hm).
  assert (2 ^ 52 ≤ Z.pos m < 2 ^ 53) as Hrange.
  { rewrite Hm. replace 52 with (d - 1 + (53 - d)) by lia.
    replace (2 ^ 53) with (2 ^ d * 2 ^ (53 - d)) by (rewrite <- Z.pow_add_r by lia; f_equal; lia).
    rewrite Z.pow_add_r by lia. pose proof (Z.pow_pos_nonneg 2 (53 - d) ltac:(lia) ltac:(lia)). nia. }
  assert (Zdigits2 (Z.pos m) = 53 + 0) as Hdig by (cbn; apply digits2_unique; lia).
  exists m, (- (53 - d)). split_and!; [|lia|lia|by rewrite Z.opp_involutive|lia|lia].
  unfold binary64, binary_normalize, binary_round. fold d. rewrite Z.add_0_r, fexp_64 by lia.
  replace (d - 53) with (- (53 - d)) by lia. rewrite Halign. cbv beta iota zeta.
  destruct (binary_round_64 m (- (53 - d)) 0) as (r & [p [[-> Hp]|(_ & _ & Hp)]] & Hr & Hex); [lia|done|lia| |].
  - rewrite Z.pow_0_r, Z.div_1_r in Hex. rewrite Z.add_0_r. rewrite Hex in Hp by lia. by injection Hp as ->.
  - rewrite Z.pow_0_r, Z.div_1_r in Hex. rewrite Hex in Hp by lia. lia.
Qed.

(** ** Products *)

Lemma truncate_rounded x r E : E ≤ 0 → rounded_to x r E → truncate x = r / 2 ^ (- E).
Proof.
  intros HE [p [[-> <-]|(-> & <- & _)]]; cbn [truncate].
  - rewrite <- Z.shiftr_div_pow2 by lia. by rewrite Z.shiftr_opp_r.
  - destruct (decide (E = 0)) as [->|HE'].
    + change (- 0) with 0. rewrite Z.shiftl_mul_pow2, Z.pow_0_r, Z.div_1_r by lia.
      change (2 ^ (0 + 1)) with 2. lia.
    + rewrite <- (Z.opp_involutive (E + 1)), Z.shiftl_opp_r, Z.shiftr_div_pow2 by lia.
      replace (- E) with (Z.succ (- (E + 1))) by lia. rewrite Z.pow_succ_r by lia.
      pose proof (Z.pow_pos_nonneg 2 (- (E + 1)) ltac:(lia) ltac:(lia)).
      by rewrite Z.div_mul_cancel_l by lia.
Qed.

(** An integer times a float in [[1/2, 1)]: between the exact product rounded
    down and the integer. *)
Lemma fmul_fraction x n mp : 0 < n < 2 ^ 53 → holds x n → 2 ^ 52 ≤ Z.pos mp < 2 ^ 53 →
  n * Z.pos mp / 2 ^ 53 ≤ truncate (fmul x (S754_finite false mp (- 53))) ≤ n.
Proof.
  intros Hn (m & e & -> & He & Hm & Hrange) Hp.
  set (M := (m * mp)%positive). assert (Z.pos M = Z.pos m * Z.pos mp) as HM by done.
  assert (∃ k, (k = 52 ∨ k = 53) ∧ Zdigits2 (Z.pos M) = 53 + k) as (k & Hk & Hdig).
  { destruct (decide (Z.pos M < 2 ^ 105)).
    - exists 52. split; [by left|]. cbn. apply digits2_unique; [lia|]. split; [|done].
      change (2 ^ (53 + 52 - 1)) with (2 ^ 52 * 2 ^ 52). nia.
    - exists 53. split; [by right|]. cbn. apply digits2_unique; [lia|]. split; [lia|].
      change (2 ^ (53 + 53)) with (2 ^ 53 * 2 ^ 53). nia. }
  destruct (binary_round_64 M (e + - 53) k) as (r & Hround & Hr & _); [lia|done|lia|].
  assert (fmul (S754_finite false m e) (S754_finite false mp (- 53)) =
    binary_round_aux 53 1024 false (Z.pos M) (e + - 53) loc_Exact) as -> by done.
  rewrite (truncate_rounded _ r (e + - 53 + k)) by (done || lia).
  set (E := - (e + - 53 + k)).
  assert (2 ^ (53 - e) = 2 ^ k * 2 ^ E) as HE by (rewrite <- Z.pow_add_r by (unfold E; lia); f_equal; unfold E; lia).
  assert (2 ^ (53 - e) = 2 ^ 53 * 2 ^ (- e)) as He' by (rewrite <- Z.pow_add_r by lia; f_equal; lia).
  pose proof (Z.pow_pos_nonneg 2 k ltac:(lia) ltac:(lia)) as Hk0.
  pose proof (Z.pow_pos_nonneg 2 E ltac:(lia) ltac:(unfold E; lia)) as HE0.
  pose proof (Z.pow_pos_nonneg 2 (- e) ltac:(lia) ltac:(lia)) as He0.
  split.
  - transitivity (Z.pos M / 2 ^ k / 2 ^ E); [|apply Z.div_le_mono; lia].
    rewrite Z.div_div, <- HE, He', HM, Hm by lia.
    replace (n * 2 ^ (- e) * Z.pos mp) with (n * Z.pos mp * 2 ^ (- e)) by ring.
    by rewrite Z.div_mul_cancel_r by lia.
  - apply Z.div_le_upper_bound; [done|]. enough (Z.pos M / 2 ^ k < 2 ^ E * n) by lia.
    apply Z.div_lt_upper_bound; [done|]. rewrite Z.mul_assoc, <- HE, He', HM, Hm. nia.
Qed.

(** An integer times one. *)
Lemma fmul_one x n : 0 < n < 2 ^ 53 → holds x n →
  truncate (fmul x (S754_finite false (2 ^ 52) (- 52))) = n.
Proof.
  intros Hn (m & e & -> & He & Hm & Hrange).
  set (M := (m * 2 ^ 52)%positive). assert (Z.pos M = Z.pos m * 2 ^ 52) as HM by done.
  assert (Zdigits2 (Z.pos M) = 53 + 52) as Hdig.
  { cbn. apply digits2_unique; [lia|]. rewrite HM. change (2 ^ (53 + 52 - 1)) with (2 ^ 52 * 2 ^ 52).
    change (2 ^ (53 + 52)) with (2 ^ 53 * 2 ^ 52). lia. }
  destruct (binary_round_64 M (e + - 52) 52) as (r & Hround & _ & Hex); [lia|done|lia|].
  assert (fmul (S754_finite false m e) (S754_finite false (2 ^ 52) (- 52)) =
    binary_round_aux 53 1024 false (Z.pos M) (e + - 52) loc_Exact) as -> by done.
  rewrite (truncate_rounded _ r (e + - 52 + 52)) by (done || lia).
  rewrite HM, Z.div_mul in Hex by done. rewrite (Hex eq_refl), Hm.
  replace (- (e + - 52 + 52)) with (- e) by lia. by apply Z.div_mul, Z.pow_nonzero; lia.
Qed.
