(* ===== verification/GoCrypto.v ===== *)
(** * [crypto/sha256] and [encoding/binary]

    SHA-256 (FIPS 180-4) on byte lists, and little-endian decoding: what
    [merchantFingerprint] uses of the standard library. *)
From S2P Require Import Prelude GoBase.
Local Open Scope Z_scope.

Module SHA256.
Definition mask : Z := 2 ^ 32 - 1.
Definition add32 (a b : Z) : Z := Z.land (a + b) mask.
Definition rotr (n x : Z) : Z := Z.lor (Z.shiftr x n) (Z.land (Z.shiftl x (32 - n)) mask).
Definition not32 (x : Z) : Z := Z.lxor x mask.

Definition Ch (x y z : Z) : Z := Z.lxor (Z.land x y) (Z.land (not32 x) z).
Definition Maj (x y z : Z) : Z := Z.lxor (Z.lxor (Z.land x y) (Z.land x z)) (Z.land y z).
Definition Sigma0 (x : Z) : Z := Z.lxor (Z.lxor (rotr 2 x) (rotr 13 x)) (rotr 22 x).
Definition Sigma1 (x : Z) : Z := Z.lxor (Z.lxor (rotr 6 x) (rotr 11 x)) (rotr 25 x).
Definition sigma0 (x : Z) : Z := Z.lxor (Z.lxor (rotr 7 x) (rotr 18 x)) (Z.shiftr x 3).
Definition sigma1 (x : Z) : Z := Z.lxor (Z.lxor (rotr 17 x) (rotr 19 x)) (Z.shiftr x 10).

(** The constants, from their definition: the first 32 bits of the fractional
    parts of the cube roots, respectively the square roots, of the first primes. *)
Definition is_prime (n : nat) : bool :=
  forallb (λ d, negb (n mod d =? 0)%nat) (seq 2 (n - 2)).
Definition primes : list Z := Z.of_nat <$> filter is_prime (seq 2 310).
(** The largest [r] of [k] bits, bit by bit, whose cube is at most [n]. *)
Fixpoint cube_root (k : nat) (n r : Z) : Z :=
  match k with
  | O => r
  | S k' => let c := r + 2 ^ Z.of_nat k' in cube_root k' n (if c ^ 3 <=? n then c else r)
  end.
Definition K : list Z :=
  Eval vm_compute in (λ p, Z.land (cube_root 36 (p * 2 ^ 96) 0) mask) <$> take 64 primes.
Definition H0 : list Z :=
  Eval vm_compute in (λ p, Z.land (Z.sqrt (p * 2 ^ 64)) mask) <$> take 8 primes.

(** Padding: 0x80, zeros to 56 modulo 64, the bit length on eight bytes. *)
Definition be_bytes (n : nat) (z : Z) : list Z :=
  (λ i, Z.land (Z.shiftr z (8 * Z.of_nat i)) 255) <$> reverse (seq 0 n).
Definition pad (msg : list Z) : list Z :=
  let n := length msg in
  let zeros := Z.to_nat ((55 - Z.of_nat n) mod 64) in
  msg ++ [128] ++ replicate zeros 0 ++ be_bytes 8 (8 * Z.of_nat n).

Definition word_be (b : list Z) : Z := foldl (λ acc x, 256 * acc + x) 0 b.
Fixpoint chunks (fuel k : nat) (l : list Z) : list (list Z) :=
  match fuel with
  | O => []
  | S f => match l with [] => [] | _ => take k l :: chunks f k (drop k l) end
  end.

(** The schedule, most recent word first, extended word by word. *)
Fixpoint extend (n : nat) (w : list Z) : list Z :=
  match n with
  | O => w
  | S n' =>
      let at_ i := nth i w 0 in
      extend n' (add32 (add32 (sigma1 (at_ 1%nat)) (at_ 6%nat)) (add32 (sigma0 (at_ 14%nat)) (at_ 15%nat)) :: w)
  end.
Definition schedule (block : list Z) : list Z :=
  reverse (extend 48 (reverse (word_be <$> chunks 16 4 block))).

Definition round (st : list Z) (kw : Z * Z) : list Z :=
  match st with
  | [a; b; c; d; e; f; g; h] =>
      let t1 := add32 (add32 h (Sigma1 e)) (add32 (Ch e f g) (add32 (fst kw) (snd kw))) in
      let t2 := add32 (Sigma0 a) (Maj a b c) in
      [add32 t1 t2; a; b; c; add32 d t1; e; f; g]
  | _ => st
  end.
Definition compress (h block : list Z) : list Z :=
  zip_with add32 h (foldl round h (zip K (schedule block))).

Definition Sum256 (msg : list Z) : list Z :=
  let padded := pad msg in
  concat (be_bytes 4 <$> foldl compress H0 (chunks (S (length padded / 64)) 64 padded)).

Definition bytes (s : string) : list Z := Z.of_N <$> GoStrings.to_bytes s.
End SHA256.

(** [binary.LittleEndian.Uint64] / [Uint32] on a slice of the right length. *)
Definition LittleEndian (b : list Z) : Z := foldr (λ x acc, x + 256 * acc) 0 b.

Lemma LittleEndian_range b :
  Forall (λ x, 0 ≤ x < 256) b → 0 ≤ LittleEndian b < 256 ^ Z.of_nat (length b).
Proof.
  induction 1 as [|x b Hx _ IH]; cbn [LittleEndian foldr length]; [lia|].
  fold (LittleEndian b). rewrite Nat2Z.inj_succ, Z.pow_succ_r by lia. lia.
Qed.

Lemma be_bytes_range n z : Forall (λ x, 0 ≤ x < 256) (SHA256.be_bytes n z).
Proof.
  unfold SHA256.be_bytes. apply Forall_fmap, Forall_true. intros i. cbn.
  change 255 with (Z.ones 8). rewrite Z.land_ones by lia. by apply Z.mod_pos_bound.
Qed.

Lemma Sum256_range msg : Forall (λ x, 0 ≤ x < 256) (SHA256.Sum256 msg).
Proof.
  unfold SHA256.Sum256. apply Forall_concat, Forall_fmap, Forall_true. intros. apply be_bytes_range.
Qed.

(** Test vectors of FIPS 180-4. *)
Example sha256_abc :
  take 8 (SHA256.Sum256 (SHA256.bytes "abc")) = [0xba; 0x78; 0x16; 0xbf; 0x8f; 0x01; 0xcf; 0xea].
Proof. vm_compute. reflexivity. Qed.
Example sha256_two_blocks :
  take 8 (SHA256.Sum256 (SHA256.bytes "abcdbcdecdefdefgefghfghighijhijkijkljklmklmnlmnomnopnopq"))
  = [0x24; 0x8d; 0x6a; 0x61; 0xd2; 0x06; 0x38; 0xb8].
Proof. vm_compute. reflexivity. Qed.
