(* ===== verification/Domain.v ===== *)
(** * [internal/domain]: request, response and error values

    The structs of [model.go] field for field (JSON tags dropped), and the
    sentinel errors of [errors.go].  [uint64] fields are [Z]; that a decoded
    request holds a [uint64] is stated where a theorem needs it. *)
From S2P Require Import Prelude GoBase.
Import GoError GoTime.

(** ** Sentinel errors *)
Definition ErrInvalidRequest := ErrorNew "invalid request".
Definition ErrAccountNotFound := ErrorNew "account not found".
Definition ErrAuthorizationNotFound := ErrorNew "authorization not found".
Definition ErrIdempotencyConflict := ErrorNew "idempotency key reused with a different payload".

(** ** Account kinds *)

(** [type AccountKind string]: a decoded request may hold any string. *)
Definition AccountKind := string.
Definition AccountSafeguardedCash : AccountKind := "safeguarded_cash".
Definition AccountCorporateWallet : AccountKind := "corporate_wallet".
Definition AccountCardWallet : AccountKind := "card_wallet".
Definition AccountCardSettlementPayable : AccountKind := "card_settlement_payable".

#[export] Instance AccountKind_eq_dec : EqDecision AccountKind := String.string_dec.

Definition Valid (k : AccountKind) : bool :=
  bool_decide (k = AccountSafeguardedCash) || bool_decide (k = AccountCorporateWallet) ||
  bool_decide (k = AccountCardWallet) || bool_decide (k = AccountCardSettlementPayable).

(** ** Operation kinds *)
Definition OperationKind := string.
Definition OperationTopUp : OperationKind := "topup".
Definition OperationWithdrawal : OperationKind := "withdrawal".
Definition OperationCardAllocation : OperationKind := "card_allocation".
Definition OperationCardReturn : OperationKind := "card_return".
Definition OperationAuthorization : OperationKind := "authorization".
Definition OperationAuthorizationIncrement : OperationKind := "authorization_increment".

(** ** Requests *)
Record CreateAccountRequest := mkCreateAccountRequest {
  CreateAccountRequest_AccountID : string;
  CreateAccountRequest_Kind : AccountKind;
  CreateAccountRequest_CorporateAccountID : string }.

Record TopUpRequest := mkTopUpRequest {
  TopUpRequest_RequestID : string;
  TopUpRequest_AccountID : string;
  TopUpRequest_AmountCents : Z }.

Record WithdrawalRequest := mkWithdrawalRequest {
  WithdrawalRequest_RequestID : string;
  WithdrawalRequest_AccountID : string;
  WithdrawalRequest_AmountCents : Z }.

Record CardAllocationRequest := mkCardAllocationRequest {
  CardAllocationRequest_RequestID : string;
  CardAllocationRequest_AccountID : string;
  CardAllocationRequest_CardID : string;
  CardAllocationRequest_AmountCents : Z }.

Record CardReturnRequest := mkCardReturnRequest {
  CardReturnRequest_RequestID : string;
  CardReturnRequest_AccountID : string;
  CardReturnRequest_CardID : string;
  CardReturnRequest_AmountCents : Z }.

Record AuthorizationRequest := mkAuthorizationRequest {
  AuthorizationRequest_RequestID : string;
  AuthorizationRequest_CardID : string;
  AuthorizationRequest_MerchantID : string;
  AuthorizationRequest_AmountCents : Z }.

Record IncrementAuthorizationRequest := mkIncrementAuthorizationRequest {
  IncrementAuthorizationRequest_RequestID : string;
  IncrementAuthorizationRequest_AuthorizationID : string;
  IncrementAuthorizationRequest_IncrementCents : Z }.

(** ** Responses *)
Record AccountResponse := mkAccountResponse {
  AccountResponse_AccountID : string;
  AccountResponse_Kind : AccountKind;
  AccountResponse_CorporateAccountID : string;
  AccountResponse_Status : string;
  AccountResponse_Timestamp : Z }.

Record BalanceResponse := mkBalanceResponse {
  BalanceResponse_AccountID : string;
  BalanceResponse_Kind : AccountKind;
  BalanceResponse_CorporateAccountID : string;
  BalanceResponse_DebitsPending : string;
  BalanceResponse_DebitsPosted : string;
  BalanceResponse_CreditsPending : string;
  BalanceResponse_CreditsPosted : string;
  BalanceResponse_PostedBalance : string;
  BalanceResponse_AvailableBalance : string;
  BalanceResponse_Timestamp : Z }.

Record TransactionResponse := mkTransactionResponse {
  TransactionResponse_RequestID : string;
  TransactionResponse_TransactionID : string;
  TransactionResponse_Status : string;
  TransactionResponse_LedgerStatus : string;
  TransactionResponse_Timestamp : Z;
  TransactionResponse_ErrorCode : string;
  TransactionResponse_Message : string }.

Record AuthorizationResponse := mkAuthorizationResponse {
  AuthorizationResponse_RequestID : string;
  AuthorizationResponse_AuthorizationID : string;
  AuthorizationResponse_HoldTransferID : string;
  AuthorizationResponse_Status : string;
  AuthorizationResponse_LedgerStatus : string;
  AuthorizationResponse_EvaluationTimeMS : Z;
  AuthorizationResponse_ExpiresAt : option Time;
  AuthorizationResponse_Timestamp : Z;
  AuthorizationResponse_ErrorCode : string;
  AuthorizationResponse_Message : string }.

Record IncrementAuthorizationResponse := mkIncrementAuthorizationResponse {
  IncrementAuthorizationResponse_RequestID : string;
  IncrementAuthorizationResponse_AuthorizationID : string;
  IncrementAuthorizationResponse_HoldTransferID : string;
  IncrementAuthorizationResponse_Status : string;
  IncrementAuthorizationResponse_LedgerStatus : string;
  IncrementAuthorizationResponse_IncrementCents : Z;
  IncrementAuthorizationResponse_EvaluationTimeMS : Z;
  IncrementAuthorizationResponse_Timestamp : Z;
  IncrementAuthorizationResponse_ErrorCode : string;
  IncrementAuthorizationResponse_Message : string }.

Record ErrorResponse := mkErrorResponse {
  ErrorResponse_Status : string;
  ErrorResponse_ErrorCode : string;
  ErrorResponse_Message : string }.

Lemma Valid_iff k :
  Valid k = true ↔ k ∈ [AccountSafeguardedCash; AccountCorporateWallet; AccountCardWallet;
                        AccountCardSettlementPayable].
Proof.
  unfold Valid. rewrite !orb_true_iff, !bool_decide_eq_true, !elem_of_cons, elem_of_nil. tauto.
Qed.

(** Evaluate the comparisons of two named account kinds. *)
Ltac kind_simpl :=
  repeat match goal with
  | |- context [bool_decide (?a = ?b :> AccountKind)] =>
      first [rewrite (bool_decide_eq_true_2 (a = b)) by reflexivity
            |rewrite (bool_decide_eq_false_2 (a = b)) by discriminate]
  | |- context [decide (?a = ?b :> AccountKind)] =>
      first [rewrite (decide_True (P := a = b)) by reflexivity
            |rewrite (decide_False (P := a = b)) by discriminate]
  end.

(** Case analysis on a valid kind. *)
Ltac kind_cases H :=
  apply Valid_iff in H;
  repeat (apply elem_of_cons in H as [->|H]); [..|by apply elem_of_nil in H].
