(* ===== verification/TigerBeetle.v ===== *)
(** * The TigerBeetle SDK as the service sees it

    [github.com/tigerbeetle/tigerbeetle-go] is not part of the repository.  Its
    pure functions are the fields of the class [SDK], a parameter of every
    definition that uses them; [SDKLaws] names the documented behaviour the
    service relies on.  The record types hold the fields the source reads or
    writes; the status types have one constructor per constant the source names
    and one for every other value.  [ModelSDK], a concrete instance with proved
    laws, is in [TigerBeetleModel.v]. *)
From S2P Require Import Prelude GoBase.
Import GoError.

(** The fields the source sets or reads; the SDK's other flags stay false. *)
Record AccountFlags := mkAccountFlags {
  DebitsMustNotExceedCredits : bool;
  CreditsMustNotExceedDebits : bool }.
Record TransferFlags := mkTransferFlags { Pending : bool }.

Inductive CreateAccountStatus :=
| AccountCreated
| AccountExists
| AccountExistsWithDifferentFlags
| AccountExistsWithDifferentUserData128
| AccountExistsWithDifferentUserData64
| AccountExistsWithDifferentUserData32
| AccountExistsWithDifferentLedger
| AccountExistsWithDifferentCode
| AccountStatusOther (code : Z).
#[export] Instance CreateAccountStatus_eq_dec : EqDecision CreateAccountStatus.
Proof. solve_decision. Defined.

Inductive CreateTransferStatus :=
| TransferCreated
| TransferExists
| TransferExistsWithDifferentFlags
| TransferExistsWithDifferentPendingID
| TransferExistsWithDifferentTimeout
| TransferExistsWithDifferentDebitAccountID
| TransferExistsWithDifferentCreditAccountID
| TransferExistsWithDifferentAmount
| TransferExistsWithDifferentUserData128
| TransferExistsWithDifferentUserData64
| TransferExistsWithDifferentUserData32
| TransferExistsWithDifferentLedger
| TransferExistsWithDifferentCode
| TransferExceedsCredits
| TransferExceedsDebits
| TransferDebitAccountNotFound
| TransferCreditAccountNotFound
| TransferIDAlreadyFailed
| TransferOverflowsDebits
| TransferStatusOther (code : Z).
#[export] Instance CreateTransferStatus_eq_dec : EqDecision CreateTransferStatus.
Proof. solve_decision. Defined.

Class SDK := {
  Uint128 : Type;
  Uint128_eq_dec :: EqDecision Uint128;
  Uint128_countable :: Countable Uint128;
  (** [tb.Uint128{}] *)
  Uint128_zero : Uint128;
  ToUint128 : Z → Uint128;
  Uint128_Bytes : Uint128 → list Z;
  Uint128_BigInt : Uint128 → Z;
  (** the low and the high 64 bits *)
  Uint128_Uint64 : Uint128 → Z * Z;
  Uint128_String : Uint128 → string;
  HexStringToUint128 : string → result error Uint128;
  AccountFlags_ToUint16 : AccountFlags → Z;
  (** [account.AccountFlags()] and [transfer.TransferFlags()] decode the field *)
  AccountFlags_of_Uint16 : Z → AccountFlags;
  TransferFlags_ToUint16 : TransferFlags → Z;
  TransferFlags_of_Uint16 : Z → TransferFlags;
  CreateAccountStatus_String : CreateAccountStatus → string;
  CreateTransferStatus_String : CreateTransferStatus → string;
}.

Section records.
Context {sdk : SDK}.

Record Account := mkAccount {
  Account_ID : Uint128;
  Account_DebitsPending : Uint128;
  Account_DebitsPosted : Uint128;
  Account_CreditsPending : Uint128;
  Account_CreditsPosted : Uint128;
  Account_UserData128 : Uint128;
  Account_UserData64 : Z;
  Account_UserData32 : Z;
  Account_Ledger : Z;
  Account_Code : Z;
  Account_Flags : Z;
  Account_Timestamp : Z }.

Record Transfer := mkTransfer {
  Transfer_ID : Uint128;
  Transfer_DebitAccountID : Uint128;
  Transfer_CreditAccountID : Uint128;
  Transfer_Amount : Uint128;
  Transfer_PendingID : Uint128;
  Transfer_UserData128 : Uint128;
  Transfer_UserData64 : Z;
  Transfer_UserData32 : Z;
  Transfer_Timeout : Z;
  Transfer_Ledger : Z;
  Transfer_Code : Z;
  Transfer_Flags : Z;
  Transfer_Timestamp : Z }.

Record CreateAccountResult := mkCreateAccountResult {
  AccountResult_Timestamp : Z;
  AccountResult_Status : CreateAccountStatus }.

Record CreateTransferResult := mkCreateTransferResult {
  TransferResult_Timestamp : Z;
  TransferResult_Status : CreateTransferStatus }.

(** Go's zero values [tb.Account{}] and [tb.Transfer{}]. *)
Definition Account_zero : Account :=
  mkAccount Uint128_zero Uint128_zero Uint128_zero Uint128_zero Uint128_zero Uint128_zero
    0 0 0 0 0 0.
Definition Transfer_zero : Transfer :=
  mkTransfer Uint128_zero Uint128_zero Uint128_zero Uint128_zero Uint128_zero Uint128_zero
    0 0 0 0 0 0 0.

#[export] Instance Account_eq_dec : EqDecision Account.
Proof. solve_decision. Defined.
#[export] Instance Transfer_eq_dec : EqDecision Transfer.
Proof. solve_decision. Defined.
End records.

(** ** Documented behaviour of the SDK's pure functions *)
Class SDKLaws (sdk : SDK) : Prop := {
  BigInt_inj (u v : Uint128) : Uint128_BigInt u = Uint128_BigInt v → u = v;
  BigInt_range (u : Uint128) : (0 ≤ Uint128_BigInt u < 2 ^ 128)%Z;
  BigInt_zero : Uint128_BigInt Uint128_zero = 0%Z;
  BigInt_ToUint128 v : GoInt.in_uint64 v → Uint128_BigInt (ToUint128 v) = v;
  (** the sixteen bytes, least significant first *)
  Bytes_length (u : Uint128) : length (Uint128_Bytes u) = 16;
  Bytes_range (u : Uint128) : Forall (λ b, 0 ≤ b < 256)%Z (Uint128_Bytes u);
  Bytes_value (u : Uint128) :
    Uint128_BigInt u = foldr (λ b acc, b + 256 * acc)%Z 0%Z (Uint128_Bytes u);
  Uint64_value (u : Uint128) :
    Uint128_Uint64 u = (Uint128_BigInt u mod 2 ^ 64, Uint128_BigInt u / 2 ^ 64)%Z;
  (** the hexadecimal form [String] prints is read back *)
  Hex_String (u : Uint128) : HexStringToUint128 (Uint128_String u) = inr u;
  AccountFlags_roundtrip f : AccountFlags_of_Uint16 (AccountFlags_ToUint16 f) = f;
  TransferFlags_roundtrip f : TransferFlags_of_Uint16 (TransferFlags_ToUint16 f) = f;
  (** no bit of the field is set *)
  TransferFlags_none : TransferFlags_of_Uint16 0 = mkTransferFlags false;
}.

Section laws.
Context {sdk : SDK} {laws : SDKLaws sdk}.

Lemma ToUint128_inj a b :
  GoInt.in_uint64 a → GoInt.in_uint64 b → ToUint128 a = ToUint128 b → a = b.
Proof. intros Ha Hb H%(f_equal Uint128_BigInt). by rewrite !BigInt_ToUint128 in H. Qed.

Lemma Uint128_String_inj (u v : Uint128) : Uint128_String u = Uint128_String v → u = v.
Proof. intros H%(f_equal HexStringToUint128). rewrite !Hex_String in H. by simplify_eq. Qed.

Lemma ToUint128_nonzero v : GoInt.in_uint64 v → v ≠ 0%Z → ToUint128 v ≠ Uint128_zero.
Proof.
  intros Hv Hnz H%(f_equal Uint128_BigInt).
  by rewrite BigInt_ToUint128, BigInt_zero in H.
Qed.

(** Sixteen bytes of 255 are the largest value. *)
Lemma fold_bytes_max (l : list Z) :
  Forall (λ b, 0 ≤ b < 256)%Z l →
  (0 ≤ foldr (λ b acc, b + 256 * acc) 0 l < 256 ^ Z.of_nat (length l))%Z ∧
  (foldr (λ b acc, b + 256 * acc)%Z 0%Z l = 256 ^ Z.of_nat (length l) - 1 ↔
   Forall (eq 255) l)%Z.
Proof.
  induction 1 as [|b l Hb _ [IH1 IH2]]; cbn [foldr length].
  - split; [lia|]. split; [by constructor|done].
  - rewrite Nat2Z.inj_succ, Z.pow_succ_r by lia.
    set (p := (256 ^ Z.of_nat (length l))%Z) in *.
    set (acc := foldr _ _ l) in *. split; [lia|].
    rewrite Forall_cons, <- IH2. lia.
Qed.

Lemma Bytes_max (u : Uint128) :
  Uint128_BigInt u = (2 ^ 128 - 1)%Z ↔ Forall (eq 255%Z) (Uint128_Bytes u).
Proof.
  rewrite <- (proj2 (fold_bytes_max _ (Bytes_range u))), <- Bytes_value, Bytes_length. done.
Qed.
End laws.
