(* ===== verification/TigerBeetleModel.v ===== *)
(** * A concrete instance of the SDK interface

    [ModelSDK] gives every field of [SDK] a computable definition and
    [ModelSDK_laws] discharges [SDKLaws]: the laws are consistent, and every
    theorem that assumes them is instantiated here at concrete inputs. *)
From S2P Require Import Prelude GoBase TigerBeetle.
Import GoError.

Local Open Scope N_scope.

Definition U128 : Type := { n : N | (n <? 2 ^ 128) = true }.

Definition U128_mk (n : N) : U128 :=
  match decide ((n <? 2 ^ 128) = true) with
  | left H => n ↾ H
  | right _ => 0 ↾ eq_refl
  end.

#[export] Instance U128_eq_dec : EqDecision U128.
Proof. unfold U128. apply _. Defined.
#[export] Instance U128_countable : Countable U128.
Proof. unfold U128. apply _. Defined.

Definition U128_val (u : U128) : N := proj1_sig u.

Lemma U128_ext (u v : U128) : U128_val u = U128_val v → u = v.
Proof. apply (proj2 (sig_eq_pi _ u v)). Qed.

Lemma U128_mk_val n : n < 2 ^ 128 → U128_val (U128_mk n) = n.
Proof.
  intros H. unfold U128_mk. destruct (decide _) as [|Hn]; [done|].
  exfalso. apply Hn. by apply N.ltb_lt.
Qed.

Lemma U128_bound (u : U128) : U128_val u < 2 ^ 128.
Proof. destruct u as [n H]. cbn. by apply N.ltb_lt in H. Qed.

(** Little-endian base-256 digits. *)
Fixpoint byte_digits (fuel : nat) (n : N) : list Z :=
  match fuel with O => [] | S f => Z.of_N (n mod 256) :: byte_digits f (n / 256) end.

Lemma byte_digits_value fuel n :
  n < 256 ^ N.of_nat fuel →
  foldr (λ b acc, b + 256 * acc)%Z 0%Z (byte_digits fuel n) = Z.of_N n.
Proof.
  revert n. induction fuel as [|f IH]; intros n Hn; cbn [foldr byte_digits].
  - cbn in Hn. lia.
  - rewrite Nat2N.inj_succ, N.pow_succ_r' in Hn.
    rewrite IH by (apply N.Div0.div_lt_upper_bound; lia).
    rewrite (N.div_mod' n 256) at 3. lia.
Qed.

Lemma byte_digits_length fuel n : length (byte_digits fuel n) = fuel.
Proof. revert n. induction fuel; intros; cbn; auto. Qed.

Lemma byte_digits_range fuel n : Forall (λ b, 0 ≤ b < 256)%Z (byte_digits fuel n).
Proof.
  revert n. induction fuel as [|f IH]; intros n; cbn [byte_digits]; constructor; [|apply IH].
  pose proof (N.mod_lt n 256 ltac:(done)) as Hm. revert Hm. generalize (n mod 256). lia.
Qed.

(** Hexadecimal, most significant digit first, no leading zero. *)
Definition hex_digit (d : N) : Ascii.ascii :=
  Ascii.ascii_of_N (if d <? 10 then 48 + d else 87 + d).
Definition hex_value (c : Ascii.ascii) : option N :=
  let n := Ascii.N_of_ascii c in
  if (48 <=? n) && (n <=? 57) then Some (n - 48)
  else if (97 <=? n) && (n <=? 102) then Some (n - 87)
  else if (65 <=? n) && (n <=? 70) then Some (n - 55)
  else None.

Fixpoint to_hex (fuel : nat) (n : N) (acc : string) : string :=
  match fuel with
  | O => acc
  | S f => if n =? 0 then acc else to_hex f (n / 16) (String.String (hex_digit (n mod 16)) acc)
  end.
Fixpoint from_hex (v : N) (s : string) : option N :=
  match s with
  | String.EmptyString => Some v
  | String.String c s' => match hex_value c with Some d => from_hex (16 * v + d) s' | None => None end
  end.

Lemma hex_value_digit d : d < 16 → hex_value (hex_digit d) = Some d.
Proof.
  intros H. assert (d ∈ [0;1;2;3;4;5;6;7;8;9;10;11;12;13;14;15]) as Hin.
  { rewrite !elem_of_cons. lia. }
  repeat (apply elem_of_cons in Hin as [->|Hin]; [reflexivity|]). by apply elem_of_nil in Hin.
Qed.

Lemma from_to_hex fuel n acc :
  n < 16 ^ N.of_nat fuel → from_hex 0 (to_hex fuel n acc) = from_hex n acc.
Proof.
  revert n acc. induction fuel as [|f IH]; intros n acc Hn; cbn [to_hex].
  - cbn in Hn. by assert (n = 0) as -> by lia.
  - destruct (N.eqb_spec n 0) as [->|_]; [done|].
    rewrite Nat2N.inj_succ, N.pow_succ_r' in Hn.
    rewrite IH by (apply N.Div0.div_lt_upper_bound; lia). cbn [from_hex].
    rewrite hex_value_digit by (apply N.mod_lt; lia).
    by rewrite <- N.div_mod by lia.
Qed.

Definition U128_String (u : U128) : string :=
  if U128_val u =? 0 then "0" else to_hex 32 (U128_val u) "".
Definition U128_parse (s : string) : result error U128 :=
  if (32 <? N.of_nat (String.length s)) then inl (External "hex string too long") else
  match from_hex 0 s with
  | Some n => inr (U128_mk n)
  | None => inl (External "invalid hex string")
  end.

Lemma to_hex_length fuel n acc :
  (String.length (to_hex fuel n acc) ≤ fuel + String.length acc)%nat.
Proof.
  revert n acc. induction fuel; intros n acc; cbn; [lia|].
  destruct (n =? 0); [lia|]. etransitivity; [apply IHfuel|]. cbn. lia.
Qed.

Lemma U128_parse_String (u : U128) : U128_parse (U128_String u) = inr u.
Proof.
  unfold U128_parse, U128_String. pose proof (U128_bound u) as Hu.
  destruct (N.eqb_spec (U128_val u) 0) as [Hz|_].
  - cbn. f_equal. apply U128_ext. by rewrite Hz.
  - pose proof (to_hex_length 32 (U128_val u) "") as Hl. cbn [String.length] in Hl.
    destruct (N.ltb_spec 32 (N.of_nat (String.length (to_hex 32 (U128_val u) "")))); [lia|].
    rewrite from_to_hex by exact Hu. cbn [from_hex]. f_equal.
    apply U128_ext. by apply U128_mk_val.
Qed.

Local Open Scope Z_scope.

Definition bit_if (b : bool) (n : Z) : Z := if b then n else 0.

Definition account_status_string (s : CreateAccountStatus) : string :=
  match s with
  | AccountCreated => "AccountCreated" | AccountExists => "AccountExists"
  | _ => "AccountOther"
  end.
Definition transfer_status_string (s : CreateTransferStatus) : string :=
  match s with
  | TransferCreated => "TransferCreated" | TransferExists => "TransferExists"
  | TransferExceedsCredits => "TransferExceedsCredits"
  | _ => "TransferOther"
  end.

#[export] Instance ModelSDK : SDK := {|
  Uint128 := U128;
  Uint128_zero := U128_mk 0;
  ToUint128 v := U128_mk (Z.to_N v);
  Uint128_Bytes u := byte_digits 16 (U128_val u);
  Uint128_BigInt u := Z.of_N (U128_val u);
  Uint128_Uint64 u := (Z.of_N (U128_val u) mod 2 ^ 64, Z.of_N (U128_val u) / 2 ^ 64);
  Uint128_String := U128_String;
  HexStringToUint128 := U128_parse;
  AccountFlags_ToUint16 f :=
    bit_if (DebitsMustNotExceedCredits f) 2 + bit_if (CreditsMustNotExceedDebits f) 4;
  AccountFlags_of_Uint16 n := mkAccountFlags (Z.testbit n 1) (Z.testbit n 2);
  TransferFlags_ToUint16 f := bit_if (Pending f) 2;
  TransferFlags_of_Uint16 n := mkTransferFlags (Z.testbit n 1);
  CreateAccountStatus_String := account_status_string;
  CreateTransferStatus_String := transfer_status_string;
|}.

#[export] Instance ModelSDK_laws : SDKLaws ModelSDK.
Proof.
  split; cbn.
  - intros u v H. apply U128_ext. lia.
  - intros u. pose proof (U128_bound u). lia.
  - done.
  - intros v Hv. unfold GoInt.in_uint64 in Hv. rewrite U128_mk_val; lia.
  - done.
  - intros u. apply (byte_digits_range 16).
  - intros u. symmetry. apply (byte_digits_value 16). apply U128_bound.
  - done.
  - apply U128_parse_String.
  - by intros [[] []].
  - by intros [[]].
  - done.
Qed.

Example hex_example :
  (U128_String <$> (match U128_parse "19C5d2b61ac27dd55d9c9daff5af441" with
                    | inr u => Some u | inl _ => None end))
  = Some "19c5d2b61ac27dd55d9c9daff5af441"%string.
Proof. vm_compute. reflexivity. Qed.
