(* ===== verification/LedgerModel.v ===== *)
(** * [internal/ledger/model.go]: account and transfer recipes

    Account and transfer codes, the two system accounts and the construction of
    an account from its kind. *)
From Stdlib Require Import Ascii.
From S2P Require Import Prelude GoBase Domain TigerBeetle.
Import GoError.
Local Open Scope Z_scope.
Local Open Scope go_scope.

Definition AccountCodeSafeguardedCash : Z := 1001.
Definition AccountCodeCorporateWallet : Z := 2001.
Definition AccountCodeCardWallet : Z := 2002.
Definition AccountCodeCardSettlementPayable : Z := 2003.

Definition TransferCodeTopUp : Z := 1001.
Definition TransferCodeWithdrawal : Z := 1002.
Definition TransferCodeCardAllocation : Z := 1201.
Definition TransferCodeCardReturn : Z := 1202.
Definition TransferCodeAuthorization : Z := 1101.
Definition TransferCodeAuthorizationIncrement : Z := 1102.

(** [%q] on an ASCII string. *)
Definition quote_byte (n : N) : list N :=
  (if n =? 34 then [92; 34] else if n =? 92 then [92; 92] else
   if n =? 7 then [92; 97] else if n =? 8 then [92; 98] else if n =? 12 then [92; 102] else
   if n =? 10 then [92; 110] else if n =? 13 then [92; 114] else if n =? 9 then [92; 116] else
   if n =? 11 then [92; 118] else
   if (n <? 32) || (n =? 127) then
     let hex d := if d <? 10 then 48 + d else 87 + d in [92; 120; hex (n / 16); hex (n mod 16)]
   else [n])%N.
Definition quote (s : string) : string :=
  GoStrings.of_bytes ([34%N] ++ concat (quote_byte <$> GoStrings.to_bytes s) ++ [34%N]).

Section model.
Context {sdk : SDK}.

Definition SafeguardedCashAccountID : Uint128 := ToUint128 1.
Definition CardSettlementPayableAccountID : Uint128 := ToUint128 2.

Definition IsSystemAccountID (id : Uint128) : bool :=
  bool_decide (id = SafeguardedCashAccountID) || bool_decide (id = CardSettlementPayableAccountID).

(** The [switch kind] of [Account]: code and flags, or the parent error. *)
Definition Account_code_flags (kind : AccountKind) (id corporateAccountID : Uint128)
    : result error (Z * Z) :=
  if decide (kind = AccountSafeguardedCash) then
    if decide (corporateAccountID ≠ Uint128_zero)
    then inl (Errorf "safeguarded cash cannot have a corporate parent")
    else inr (AccountCodeSafeguardedCash, AccountFlags_ToUint16 (mkAccountFlags false true))
  else if decide (kind = AccountCorporateWallet) then
    if decide (corporateAccountID ≠ Uint128_zero)
    then inl (Errorf "corporate wallet cannot have a corporate parent")
    else inr (AccountCodeCorporateWallet, AccountFlags_ToUint16 (mkAccountFlags true false))
  else if decide (kind = AccountCardWallet) then
    if decide (corporateAccountID = Uint128_zero)
    then inl (Errorf "card wallet requires a corporate parent")
    else if decide (corporateAccountID = id)
    then inl (Errorf "card wallet cannot be its own corporate parent")
    else inr (AccountCodeCardWallet, AccountFlags_ToUint16 (mkAccountFlags true false))
  else if decide (kind = AccountCardSettlementPayable) then
    if decide (corporateAccountID ≠ Uint128_zero)
    then inl (Errorf "card settlement payable cannot have a corporate parent")
    else inr (AccountCodeCardSettlementPayable, AccountFlags_ToUint16 (mkAccountFlags true false))
  else inr (0, 0).

Definition ledger_Account (kind : AccountKind) (id corporateAccountID : Uint128) (ledgerID : Z)
    : result error Account :=
  if negb (Valid kind) then inl (Errorf ("unsupported account kind " +:+ quote kind)) else
  if decide (id = Uint128_zero) then inl (Errorf "account id must be non-zero") else
  if decide (ledgerID = 0) then inl (Errorf "ledger id must be non-zero") else
  let? code_flags := Account_code_flags kind id corporateAccountID in
  inr {| Account_ID := id;
         Account_DebitsPending := Uint128_zero;
         Account_DebitsPosted := Uint128_zero;
         Account_CreditsPending := Uint128_zero;
         Account_CreditsPosted := Uint128_zero;
         Account_UserData128 := corporateAccountID;
         Account_UserData64 := 0;
         Account_UserData32 := 0;
         Account_Ledger := ledgerID;
         Account_Code := fst code_flags;
         Account_Flags := snd code_flags;
         Account_Timestamp := 0 |}.

(** ** Specification: what makes an account definition legal *)

(** The parent an account of a kind must have. *)
Definition parent_ok (kind : AccountKind) (id parent : Uint128) : Prop :=
  if decide (kind = AccountCardWallet) then parent ≠ Uint128_zero ∧ parent ≠ id
  else parent = Uint128_zero.

(** The chart of accounts: code and balance constraint of every kind. *)
Definition kind_code (kind : AccountKind) : Z :=
  if decide (kind = AccountSafeguardedCash) then AccountCodeSafeguardedCash else
  if decide (kind = AccountCorporateWallet) then AccountCodeCorporateWallet else
  if decide (kind = AccountCardWallet) then AccountCodeCardWallet
  else AccountCodeCardSettlementPayable.
Definition kind_flags (kind : AccountKind) : AccountFlags :=
  if decide (kind = AccountSafeguardedCash) then mkAccountFlags false true
  else mkAccountFlags true false.

Lemma parent_ok_dec kind id parent : Decision (parent_ok kind id parent).
Proof. unfold parent_ok. destruct (decide _); apply _. Defined.

Lemma Account_code_flags_ok kind id parent code flags :
  Valid kind = true →
  Account_code_flags kind id parent = inr (code, flags) ↔
  parent_ok kind id parent ∧ code = kind_code kind ∧ flags = AccountFlags_ToUint16 (kind_flags kind).
Proof.
  rewrite Valid_iff. unfold Account_code_flags, parent_ok, kind_code, kind_flags. intros Hin.
  repeat (apply elem_of_cons in Hin as [->|Hin]);
    [..|by apply elem_of_nil in Hin]; cbn; repeat case_decide; naive_solver.
Qed.

(** [ledger.Account] succeeds exactly on a valid kind, a non-zero id and
    ledger, and the parent its kind requires; the account it returns has the
    code and flags of the kind and no balance. *)
Lemma ledger_Account_Some kind id parent ledgerID account :
  ledger_Account kind id parent ledgerID = inr account ↔
  Valid kind = true ∧ id ≠ Uint128_zero ∧ ledgerID ≠ 0 ∧ parent_ok kind id parent ∧
  account = mkAccount id Uint128_zero Uint128_zero Uint128_zero Uint128_zero parent 0 0 ledgerID
    (kind_code kind) (AccountFlags_ToUint16 (kind_flags kind)) 0.
Proof.
  unfold ledger_Account. destruct (Valid kind) eqn:Hk; cbn [negb]; [|naive_solver].
  case_decide; [naive_solver|]. case_decide; [naive_solver|].
  destruct (Account_code_flags kind id parent) as [e|[code flags]] eqn:E; cbn.
  - split; [done|]. intros (_ & _ & _ & Hp & _).
    pose proof (proj2 (Account_code_flags_ok kind id parent _ _ Hk) (conj Hp (conj eq_refl eq_refl))).
    congruence.
  - apply Account_code_flags_ok in E as (Hp & -> & ->); [|done]. naive_solver.
Qed.
End model.
