(* ===== verification/Cache.v ===== *)
(** * [internal/service/cache.go]: the account-metadata cache

    A map bounded by [limit] with a ring of keys: [Store] of a new key on a full
    cache evicts the key under [next].  [None] stands for a Go panic (an index
    out of range).  Each method body runs under the cache's lock, so it is one
    atomic step; [limit] never changes after construction. *)
From S2P Require Import Prelude GoBase Domain TigerBeetle.

Section cache.
Context {sdk : SDK}.

(** [accountMetadata] of [service.go]. *)
Record accountMetadata := mkAccountMetadata {
  metadata_kind : AccountKind;
  metadata_corporateAccountID : Uint128 }.
#[export] Instance accountMetadata_eq_dec : EqDecision accountMetadata.
Proof. solve_decision. Defined.

Record metadataCache := mkMetadataCache {
  cache_entries : gmap Uint128 accountMetadata;
  cache_keys : list Uint128;
  cache_next : nat;
  cache_limit : nat }.

Implicit Types (c : metadataCache) (id : Uint128) (metadata : accountMetadata).

Definition newMetadataCache (limit : Z) : metadataCache :=
  mkMetadataCache ∅ [] 0 (Z.to_nat (if (limit <? 0)%Z then 0 else limit)%Z).

Definition metadataCache_Load c id : option accountMetadata :=
  if decide (cache_limit c = 0) then None else cache_entries c !! id.

Definition metadataCache_Store c id metadata : option metadataCache :=
  if decide (cache_limit c = 0) then Some c else
  match cache_entries c !! id with
  | Some _ =>
      Some (mkMetadataCache (<[id := metadata]> (cache_entries c))
              (cache_keys c) (cache_next c) (cache_limit c))
  | None =>
      if decide (size (cache_entries c) < cache_limit c) then
        Some (mkMetadataCache (<[id := metadata]> (cache_entries c))
                (cache_keys c ++ [id]) (cache_next c) (cache_limit c))
      else
        match cache_keys c !! cache_next c with
        | None => None
        | Some evicted =>
            Some (mkMetadataCache (<[id := metadata]> (delete evicted (cache_entries c)))
                    (<[cache_next c := id]> (cache_keys c))
                    ((cache_next c + 1) mod cache_limit c) (cache_limit c))
        end
  end.

Definition metadataCache_Len c : nat := size (cache_entries c).

(** ** Well-formedness *)

(** The ring lists the keys of the map once each; it is full when [next] has
    moved. *)
Record cache_wf c : Prop := {
  wf_nodup : NoDup (cache_keys c);
  wf_dom : dom (cache_entries c) = list_to_set (cache_keys c);
  wf_bound : length (cache_keys c) ≤ cache_limit c;
  wf_next : cache_next c = 0 ∨
    (length (cache_keys c) = cache_limit c ∧ cache_next c < cache_limit c) }.

Lemma cache_wf_size c : cache_wf c → size (cache_entries c) = length (cache_keys c).
Proof. intros [Hnd Hdom _ _]. by rewrite <- size_dom, Hdom, size_list_to_set. Qed.

Lemma cache_wf_in c id : cache_wf c → id ∈ cache_keys c ↔ is_Some (cache_entries c !! id).
Proof. intros [_ Hdom _ _]. by rewrite <- elem_of_dom, Hdom, elem_of_list_to_set. Qed.

Lemma cache_wf_notin c id : cache_wf c → cache_entries c !! id = None → id ∉ cache_keys c.
Proof. intros Hwf Hn Hin. apply (cache_wf_in c id Hwf) in Hin as [? ?]. congruence. Qed.

Lemma newMetadataCache_wf limit : cache_wf (newMetadataCache limit).
Proof. split; cbn; [constructor|set_solver|lia|by left]. Qed.

(** On a full cache the slot under [next] exists: [Store] cannot panic. *)
Lemma cache_wf_slot c :
  cache_wf c → cache_limit c ≠ 0 → ¬ size (cache_entries c) < cache_limit c →
  length (cache_keys c) = cache_limit c ∧ cache_next c < length (cache_keys c).
Proof.
  intros Hwf Hl Hfull. rewrite (cache_wf_size c Hwf) in Hfull.
  pose proof (wf_bound c Hwf). destruct (wf_next c Hwf) as [|[]]; lia.
Qed.

Lemma Store_total c id metadata : cache_wf c → is_Some (metadataCache_Store c id metadata).
Proof.
  intros Hwf. unfold metadataCache_Store. case_decide; [done|].
  destruct (_ !! id); [done|]. case_decide as Hfull; [done|].
  destruct (cache_wf_slot c Hwf) as [_ Hn]; [done..|].
  apply lookup_lt_is_Some in Hn as [k ->]. done.
Qed.

Lemma Store_wf c id metadata c' :
  cache_wf c → metadataCache_Store c id metadata = Some c' → cache_wf c'.
Proof.
  intros Hwf. unfold metadataCache_Store.
  case_decide as Hl; [by intros [= <-]|].
  destruct (_ !! id) as [old|] eqn:Hid; [intros [= <-]|].
  { pose proof Hwf as [Hnd Hdom Hb Hn]. split; cbn; [done| |done|done].
    rewrite dom_insert_L, Hdom. apply (mk_is_Some), (cache_wf_in c id Hwf) in Hid. set_solver. }
  pose proof (cache_wf_notin c id Hwf Hid) as Hfresh.
  pose proof Hwf as [Hnd Hdom Hb Hn].
  case_decide as Hfull; [intros [= <-]|].
  { rewrite (cache_wf_size c Hwf) in Hfull. split; cbn.
    - apply NoDup_app. split_and!; [done| |apply NoDup_singleton]. set_solver.
    - rewrite dom_insert_L, Hdom, list_to_set_app_L. set_solver.
    - rewrite length_app. cbn. lia.
    - left. destruct Hn as [|[]]; lia. }
  destruct (cache_wf_slot c Hwf Hl Hfull) as [Hlen Hnext].
  destruct (cache_keys c !! cache_next c) as [evicted|] eqn:Hev; [intros [= <-]|done].
  split; cbn.
  - by apply list_lookup_insert_NoDup.
  - rewrite dom_insert_L, dom_delete_L, Hdom. apply set_eq. intros x.
    rewrite elem_of_union, elem_of_difference, !elem_of_singleton, !elem_of_list_to_set.
    rewrite !list_elem_of_lookup. split.
    + intros [->|[[i Hi] Hne]]; [exists (cache_next c); by apply list_lookup_insert_eq|].
      exists i. rewrite list_lookup_insert_ne; [done|]. intros <-. congruence.
    + intros [i [(<- & -> & _)|[Hne Hi]]%list_lookup_insert_Some]; [by left|right].
      split; [by exists i|]. intros ->. apply Hne. by eapply NoDup_lookup.
  - by rewrite length_insert.
  - right. rewrite length_insert. split; [done|]. by apply Nat.mod_upper_bound.
Qed.

Lemma Store_limit c id metadata c' :
  metadataCache_Store c id metadata = Some c' → cache_limit c' = cache_limit c.
Proof. unfold metadataCache_Store. repeat case_match; naive_solver. Qed.

(** Every entry of the new cache was there or is the stored one. *)
Lemma Store_entries c id metadata c' i md :
  metadataCache_Store c id metadata = Some c' → cache_entries c' !! i = Some md →
  cache_entries c !! i = Some md ∨ (i = id ∧ md = metadata).
Proof.
  unfold metadataCache_Store. repeat case_match; intros; simplify_eq/=; [by left|..];
    rewrite lookup_insert_Some, ?lookup_delete_Some in *; naive_solver.
Qed.

(** ** Abstract specification: a bounded first-in first-out queue *)

(** The specification keeps the entries in insertion order, oldest first.  A
    new key on a full queue drops the oldest entry; a present key keeps its
    place and takes the new value. *)
Definition fifo := list (Uint128 * accountMetadata).

Definition fifo_update (q : fifo) id metadata : fifo :=
  (λ kv, if decide (kv.1 = id) then (id, metadata) else kv) <$> q.
Definition fifo_store (limit : nat) (q : fifo) id metadata : fifo :=
  if decide (limit = 0) then q else
  if decide (id ∈ q.*1) then fifo_update q id metadata else
  if decide (length q < limit) then q ++ [(id, metadata)]
  else tail q ++ [(id, metadata)].
Fixpoint fifo_load (q : fifo) id : option accountMetadata :=
  match q with
  | [] => None
  | (k, md) :: q' => if decide (k = id) then Some md else fifo_load q' id
  end.

(** The ring read from [next], each key with its entry. *)
Definition ring c : list Uint128 := drop (cache_next c) (cache_keys c) ++ take (cache_next c) (cache_keys c).
Fixpoint entries_of (m : gmap Uint128 accountMetadata) (ks : list Uint128) : fifo :=
  match ks with
  | [] => []
  | k :: ks' =>
      match m !! k with Some md => (k, md) :: entries_of m ks' | None => entries_of m ks' end
  end.
Definition cache_queue c : fifo := entries_of (cache_entries c) (ring c).

Lemma entries_of_keys m ks : (∀ k, k ∈ ks → is_Some (m !! k)) → (entries_of m ks).*1 = ks.
Proof.
  induction ks as [|k ks IH]; intros H; cbn; [done|].
  destruct (H k) as [md Hmd]; [left|]. rewrite Hmd. cbn. f_equal. apply IH. set_solver.
Qed.

Lemma entries_of_insert_ne m ks id md : id ∉ ks → entries_of (<[id := md]> m) ks = entries_of m ks.
Proof.
  induction ks as [|k ks IH]; intros H; cbn; [done|]. apply not_elem_of_cons in H as [Hk Hks].
  rewrite lookup_insert_ne by done. destruct (m !! k); cbn; by rewrite IH.
Qed.

Lemma entries_of_delete_ne m ks id : id ∉ ks → entries_of (delete id m) ks = entries_of m ks.
Proof.
  induction ks as [|k ks IH]; intros H; cbn; [done|]. apply not_elem_of_cons in H as [Hk Hks].
  rewrite lookup_delete_ne by done. destruct (m !! k); cbn; by rewrite IH.
Qed.

Lemma entries_of_update m ks id md :
  is_Some (m !! id) → entries_of (<[id := md]> m) ks = fifo_update (entries_of m ks) id md.
Proof.
  intros [old Hold]. induction ks as [|k ks IH]; cbn; [done|].
  destruct (decide (k = id)) as [->|Hne].
  - rewrite lookup_insert_eq, Hold. cbn. rewrite decide_True by done. by f_equal.
  - rewrite lookup_insert_ne by done. destruct (m !! k); cbn; [|done].
    rewrite decide_False by done. by f_equal.
Qed.

Lemma entries_of_app m ks1 ks2 : entries_of m (ks1 ++ ks2) = entries_of m ks1 ++ entries_of m ks2.
Proof. induction ks1 as [|k ks1 IH]; cbn; [done|]. destruct (m !! k); cbn; by rewrite IH. Qed.

Lemma fifo_load_entries m ks id :
  fifo_load (entries_of m ks) id = if decide (id ∈ ks) then m !! id else None.
Proof.
  induction ks as [|k ks IH]; cbn; [by rewrite decide_False by set_solver|].
  destruct (m !! k) as [md|] eqn:Hk; cbn.
  - destruct (decide (k = id)) as [->|]; [by rewrite decide_True by set_solver|].
    rewrite IH. repeat case_decide; set_solver.
  - rewrite IH. destruct (decide (id = k)) as [->|]; repeat case_decide; set_solver.
Qed.

Lemma ring_perm c : ring c ≡ₚ cache_keys c.
Proof. unfold ring. by rewrite (Permutation_app_comm (drop _ _)), take_drop. Qed.

Lemma elem_of_ring c id : id ∈ ring c ↔ id ∈ cache_keys c.
Proof. by rewrite ring_perm. Qed.

Lemma cache_queue_keys c : cache_wf c → (cache_queue c).*1 = ring c.
Proof. intros Hwf. apply entries_of_keys. intros k. by rewrite elem_of_ring, cache_wf_in. Qed.

Lemma cache_queue_length c : cache_wf c → length (cache_queue c) = length (cache_keys c).
Proof.
  intros Hwf. rewrite <- (length_fmap fst), (cache_queue_keys c Hwf). by rewrite ring_perm.
Qed.

(** Writing the slot under [next] and moving it: the ring loses its head and
    gains the new key at its end. *)
Lemma ring_rotate (l : list Uint128) n id :
  n < length l →
  let n' := (n + 1) mod length l in let l' := <[n := id]> l in
  drop n' l' ++ take n' l' = tail (drop n l ++ take n l) ++ [id].
Proof.
  intros Hn. cbn zeta.
  destruct (lookup_lt_is_Some_2 l n Hn) as [x Hx].
  rewrite (drop_S _ _ _ Hx). cbn [tail app].
  assert (take (n + 1) (<[n := id]> l) = take n l ++ [id]) as Htake.
  { rewrite Nat.add_1_r, (take_S_r _ _ id) by (by apply list_lookup_insert_eq).
    by rewrite take_insert_ge by lia. }
  destruct (decide (n + 1 = length l)) as [Hfull|Hlt].
  - rewrite Hfull, Nat.Div0.mod_same, drop_0, take_0, app_nil_r.
    rewrite (drop_ge l (S n)) by lia. cbn [app]. rewrite <- Htake, take_ge; [done|].
    rewrite length_insert. lia.
  - rewrite Nat.mod_small by lia. rewrite Htake, drop_insert_lt by lia.
    by rewrite Nat.add_1_r, app_assoc.
Qed.

(** The cache refines the queue: [Store] is [fifo_store] on the abstraction,
    [Load] is [fifo_load]. *)
Lemma Store_refines c id metadata c' :
  cache_wf c → metadataCache_Store c id metadata = Some c' →
  cache_queue c' = fifo_store (cache_limit c) (cache_queue c) id metadata.
Proof.
  intros Hwf. unfold metadataCache_Store, fifo_store.
  case_decide as Hl; [by intros [= <-]|].
  rewrite (cache_queue_keys c Hwf), (cache_queue_length c Hwf), (cache_wf_size c Hwf).
  destruct (_ !! id) as [old|] eqn:Hid.
  { intros [= <-]. rewrite decide_True.
    - unfold cache_queue, ring. cbn. by apply entries_of_update.
    - rewrite elem_of_ring, cache_wf_in by done. done. }
  pose proof (cache_wf_notin c id Hwf Hid) as Hfresh.
  rewrite (decide_False (P := id ∈ ring c)) by (by rewrite elem_of_ring).
  case_decide as Hroom; [intros [= <-]|].
  { assert (cache_next c = 0) as Hz by (destruct (wf_next c Hwf) as [|[]]; lia).
    unfold cache_queue, ring. cbn. rewrite Hz, !drop_0, !take_0, !app_nil_r.
    rewrite entries_of_app, entries_of_insert_ne by done. f_equal.
    cbn. by rewrite lookup_insert_eq. }
  rewrite <- (cache_wf_size c Hwf) in Hroom.
  destruct (cache_wf_slot c Hwf Hl Hroom) as [Hlen Hnext].
  destruct (cache_keys c !! cache_next c) as [evicted|] eqn:Hev; [intros [= <-]|done].
  unfold cache_queue, ring. cbn. rewrite <- Hlen, ring_rotate by done.
  rewrite entries_of_app. cbn [entries_of]. rewrite lookup_insert_eq. cbn. f_equal.
  rewrite (drop_S _ _ _ Hev). cbn [app tail].
  pose proof (wf_nodup c Hwf) as Hnd. pose proof (ring_perm c) as Hperm. unfold ring in Hperm.
  rewrite (drop_S _ _ _ Hev) in Hperm. rewrite <- Hperm in Hnd, Hfresh.
  cbn [app] in Hnd, Hfresh. apply NoDup_cons in Hnd as [Hnd _].
  apply not_elem_of_cons in Hfresh as [_ Hfresh].
  rewrite entries_of_insert_ne, entries_of_delete_ne by done.
  cbn [entries_of].
  destruct (cache_wf_in c evicted Hwf) as [[md Hmd] _]; [by eapply list_elem_of_lookup_2|].
  by rewrite Hmd.
Qed.

Lemma Load_refines c id :
  cache_wf c → cache_limit c ≠ 0 → metadataCache_Load c id = fifo_load (cache_queue c) id.
Proof.
  intros Hwf Hl. unfold metadataCache_Load, cache_queue. rewrite decide_False by done.
  rewrite fifo_load_entries. case_decide as Hin; [done|].
  rewrite elem_of_ring, (cache_wf_in c id Hwf) in Hin. by apply eq_None_not_Some.
Qed.

(** ** Any sequence of stores *)

Fixpoint store_all c (ops : list (Uint128 * accountMetadata)) : option metadataCache :=
  match ops with
  | [] => Some c
  | (id, metadata) :: ops' =>
      match metadataCache_Store c id metadata with Some c' => store_all c' ops' | None => None end
  end.
Definition fifo_all (limit : nat) (q : fifo) (ops : list (Uint128 * accountMetadata)) : fifo :=
  foldl (λ q kv, fifo_store limit q kv.1 kv.2) q ops.

Lemma store_all_refines c ops :
  cache_wf c →
  ∃ c', store_all c ops = Some c' ∧ cache_wf c' ∧ cache_limit c' = cache_limit c ∧
    cache_queue c' = fifo_all (cache_limit c) (cache_queue c) ops.
Proof.
  revert c. induction ops as [|[id md] ops IH]; intros c Hwf; cbn; [by exists c|].
  destruct (Store_total c id md Hwf) as [c1 Hs]. rewrite Hs.
  destruct (IH c1 (Store_wf _ _ _ _ Hwf Hs)) as (c' & Hall & Hwf' & Hl & Hq).
  rewrite (Store_limit _ _ _ _ Hs) in Hl, Hq. exists c'. split_and!; [done..|].
  rewrite Hq. unfold fifo_all. by rewrite (Store_refines _ _ _ _ Hwf Hs).
Qed.

Lemma Load_queue c id : cache_wf c → metadataCache_Load c id = fifo_load (cache_queue c) id.
Proof.
  intros Hwf. destruct (decide (cache_limit c = 0)) as [Hz|]; [|by apply Load_refines].
  unfold metadataCache_Load. rewrite decide_True by done.
  assert (cache_queue c = []) as ->; [|done].
  apply length_zero_iff_nil. rewrite cache_queue_length by done. pose proof (wf_bound c Hwf). lia.
Qed.
End cache.

(** C37: The metadata cache is a bounded first-in first-out map.  After any
    sequence of stores into a new cache - no store panics - a load answers what
    the abstract queue holds, the queue being the entries in insertion order
    with the oldest dropped when a new key meets a full cache, and there are
    never more entries than the limit; a cache of limit zero (or less) is always
    empty. *)
Theorem cache_is_a_bounded_fifo {sdk : SDK} limit ops :
  let n := Z.to_nat (Z.max 0 limit) in
  ∃ c, store_all (newMetadataCache limit) ops = Some c ∧ cache_wf c ∧
    (∀ id, metadataCache_Load c id = fifo_load (fifo_all n [] ops) id) ∧
    metadataCache_Len c = length (fifo_all n [] ops) ∧ metadataCache_Len c ≤ n.
Proof.
  intros n. destruct (store_all_refines (newMetadataCache limit) ops (newMetadataCache_wf limit))
    as (c & Hs & Hwf & Hl & Hq).
  assert (cache_limit (newMetadataCache limit) = n) as Hn.
  { unfold n, newMetadataCache. cbn [cache_limit]. destruct (Z.ltb_spec limit 0); f_equal; lia. }
  rewrite Hn in Hl, Hq. replace (cache_queue (newMetadataCache limit)) with (@nil (Uint128 * accountMetadata))
    in Hq by done.
  exists c. split_and!; [done|done| | |].
  - intros id. rewrite <- Hq. by apply Load_queue.
  - rewrite <- Hq, cache_queue_length by done. by apply cache_wf_size.
  - unfold metadataCache_Len. rewrite cache_wf_size, <- Hl by done. apply Hwf.
Qed.
