(* ===== verification/Health.v ===== *)
(** * [internal/service/health.go]: the observed ledger's call tracker

    The fields [nextID], [active], [oldestID], [oldestStarted] and [lastSuccess]
    of [observedLedger] and the critical sections that change them: the locked
    part of [begin], the locked part of the function [begin] returns, and the
    locked part of [Health].  The composition of these sections around a ledger
    call is in [Interface.v].  [findOldest] ranges over a Go map, whose order is
    unspecified: the order is an argument. *)
From S2P Require Import Prelude GoBase.
Import GoInt GoTime GoError.
Local Open Scope Z_scope.

Record LedgerHealth := mkLedgerHealth {
  Ready : bool;
  InFlight : Z;
  Oldest : Duration;
  LastSuccess : Time }.

Record observedLedger := mkObservedLedger {
  stallThreshold : Duration;
  nextID : Z;
  active : gmap Z Time;
  oldestID : Z;
  oldestStarted : Time;
  lastSuccess : Time }.

Definition newObservedLedger (threshold : Duration) : observedLedger :=
  let threshold := if threshold <=? 0 then dmul 2 Second else threshold in
  mkObservedLedger threshold 0 ∅ 0 zeroTime zeroTime.

(** One iteration of the loop of [findOldest]. *)
Definition oldest_step (acc : Z * Time) (entry : Z * Time) : Z * Time :=
  if IsZero (snd acc) || Before (snd entry) (snd acc) then entry else acc.

Definition findOldest (order : list (Z * Time)) (l : observedLedger) : observedLedger :=
  let '(id, started) := foldl oldest_step (0, zeroTime) order in
  mkObservedLedger (stallThreshold l) (nextID l) (active l) id started (lastSuccess l).

(** [begin] between [Lock] and [Unlock]: the call's id and the new state. *)
Definition begin_locked (started : Time) (l : observedLedger) : Z * observedLedger :=
  let id := uint64 (nextID l + 1) in
  let earlier := IsZero (oldestStarted l) || Before started (oldestStarted l) in
  (id, mkObservedLedger (stallThreshold l) id (<[id := started]> (active l))
         (if earlier then id else oldestID l)
         (if earlier then started else oldestStarted l)
         (lastSuccess l)).

(** The function [begin] returns, between [Lock] and [Unlock].  [order] lists
    the map left after the deletion. *)
Definition done_locked (order : gmap Z Time → list (Z * Time)) (id : Z) (completed : Time)
    (err : option error) (l : observedLedger) : observedLedger :=
  let l1 := mkObservedLedger (stallThreshold l) (nextID l) (delete id (active l)) (oldestID l)
    (oldestStarted l) (if err is Some _ then lastSuccess l else completed) in
  if id =? oldestID l then findOldest (order (active l1)) l1 else l1.

Definition Health (now : Time) (l : observedLedger) : LedgerHealth :=
  let inFlight := size (active l) in
  let oldest := if IsZero (oldestStarted l) then 0 else Sub now (oldestStarted l) in
  mkLedgerHealth (oldest <? stallThreshold l) (Z.of_nat inFlight) oldest (lastSuccess l).

(** ** Invariant *)

(** What [time.Now] returns: a time with a monotonic reading, not the zero one. *)
Definition clock_reading (t : Time) : Prop := IsZero t = false ∧ is_Some (mono t).

Definition map_order (order : gmap Z Time → list (Z * Time)) : Prop :=
  ∀ m, order m ≡ₚ map_to_list m.

Definition no_earlier (t u : Time) : Prop := Before u t = false.

(** [oldestID] and [oldestStarted] name an entry of [active] that started no
    later than any other, and are the zero values when there is none. *)
Definition oldest_ok (m : gmap Z Time) (id : Z) (t : Time) : Prop :=
  (m = ∅ ∧ id = 0 ∧ t = zeroTime) ∨
  (m !! id = Some t ∧ ∀ i u, m !! i = Some u → no_earlier t u).

Record health_wf (l : observedLedger) : Prop := {
  wf_ids : ∀ id t, active l !! id = Some t → 0 < id ≤ nextID l ∧ clock_reading t;
  wf_nextID : 0 ≤ nextID l;
  wf_threshold : 0 < stallThreshold l ≤ maxDuration;
  wf_oldest : oldest_ok (active l) (oldestID l) (oldestStarted l) }.

Lemma before_trans t u v :
  is_Some (mono t) → is_Some (mono u) → is_Some (mono v) →
  no_earlier t u → no_earlier u v → no_earlier t v.
Proof.
  intros [a Ha] [b Hb] [d Hd]. unfold no_earlier, Before, diff. rewrite Ha, Hb, Hd.
  rewrite !Z.ltb_ge. lia.
Qed.

Lemma no_earlier_refl t : no_earlier t t.
Proof. unfold no_earlier, Before, diff. apply Z.ltb_ge. destruct (mono t); lia. Qed.

Lemma before_no_earlier t u : Before t u = true → no_earlier t u.
Proof.
  unfold no_earlier, Before, diff. rewrite Z.ltb_lt, Z.ltb_ge.
  destruct (mono t), (mono u); lia.
Qed.

Lemma zeroTime_IsZero : IsZero zeroTime = true.
Proof. reflexivity. Qed.

(** The loop finds a minimum of what it has seen. *)
Lemma oldest_fold (order : list (Z * Time)) acc :
  Forall (λ e, clock_reading (snd e)) order → clock_reading (snd acc) →
  let r := foldl oldest_step acc order in
  r ∈ acc :: order ∧ clock_reading (snd r) ∧
  Forall (λ e, no_earlier (snd r) (snd e)) (acc :: order).
Proof.
  cbn zeta. revert acc. induction order as [|e order IH]; intros acc Ho Hacc; cbn [foldl].
  { split_and!; [set_solver|done|]. repeat constructor. apply no_earlier_refl. }
  apply Forall_cons in Ho as [He Ho].
  assert (clock_reading (snd (oldest_step acc e))) as Hc
    by (unfold oldest_step; by destruct (_ || _)).
  destruct (IH _ Ho Hc) as (Hin & Hr & Hall). apply Forall_cons in Hall as [Hfirst Hall].
  set (r := foldl oldest_step (oldest_step acc e) order) in *.
  assert (oldest_step acc e = acc ∨ oldest_step acc e = e) as Hcase
    by (unfold oldest_step; destruct (_ || _); auto).
  split_and!; [destruct Hcase as [Hs|Hs]; rewrite Hs in Hin; set_solver|done|].
  assert (no_earlier (snd (oldest_step acc e)) (snd acc) ∧
          no_earlier (snd (oldest_step acc e)) (snd e)) as [Ha Hb].
  { unfold oldest_step. destruct Hacc as [-> _]. cbn [orb].
    destruct (Before (snd e) (snd acc)) eqn:E.
    - split; [by apply before_no_earlier|apply no_earlier_refl].
    - split; [apply no_earlier_refl|exact E]. }
  destruct Hr as [_ Hr], Hacc as [_ Hacc], He as [_ He], Hc as [_ Hc].
  repeat constructor; [by apply (before_trans _ (snd (oldest_step acc e)))..|done].
Qed.

Lemma findOldest_ok order (l : observedLedger) :
  order ≡ₚ map_to_list (active l) →
  (∀ id t, active l !! id = Some t → clock_reading t) →
  oldest_ok (active l) (oldestID (findOldest order l)) (oldestStarted (findOldest order l)).
Proof.
  intros Hperm Hclock. unfold findOldest.
  destruct (foldl _ _ _) as [id started] eqn:Hfold. cbn.
  assert (Forall (λ e, clock_reading (snd e)) order) as Ho.
  { rewrite Hperm. apply Forall_forall. intros [i t] Hin%elem_of_map_to_list. by eapply Hclock. }
  destruct order as [|e order].
  - left. apply Permutation_nil_l in Hperm. symmetry in Hperm. apply map_to_list_empty_iff in Hperm.
    cbn in Hfold. by simplify_eq.
  - right. cbn [foldl] in Hfold.
    replace (oldest_step (0, zeroTime) e) with e in Hfold by done.
    apply Forall_cons in Ho as [He Ho].
    pose proof (oldest_fold order e Ho He) as (Hin & _ & Hall). rewrite Hfold in Hin, Hall.
    rewrite Hperm in Hin, Hall. split; [by apply elem_of_map_to_list|].
    intros i u Hiu. rewrite Forall_forall in Hall. by apply (Hall (i, u)), elem_of_map_to_list.
Qed.

Lemma newObservedLedger_wf threshold :
  threshold ≤ maxDuration → health_wf (newObservedLedger threshold).
Proof.
  intros Hmax. split; cbn; [by intros ??; rewrite lookup_empty|lia| |by left].
  destruct (threshold <=? 0) eqn:E; bool_simpl; [done|lia].
Qed.

Lemma begin_wf started l :
  health_wf l → clock_reading started → nextID l + 1 < 2 ^ 64 →
  health_wf (snd (begin_locked started l)).
Proof.
  intros [Hids Hn Ht Ho] Hc Hlt.
  assert (uint64 (nextID l + 1) = nextID l + 1) as Hid by (apply uint64_id; unfold in_uint64; lia).
  unfold begin_locked. cbn [snd]. rewrite Hid.
  assert (active l !! (nextID l + 1) = None) as Hfresh.
  { destruct (active l !! (nextID l + 1)) eqn:E; [|done]. apply Hids in E. lia. }
  split; cbn; [|lia|done|].
  - intros id t [[<- <-]|[? H]]%lookup_insert_Some; [split; [lia|done]|].
    apply Hids in H. split; [lia|tauto].
  - right. destruct Ho as [(Hempty & _ & Hz)|[Hlook Hmin]].
    + rewrite Hz, zeroTime_IsZero. cbn [orb]. rewrite lookup_insert_eq. split; [done|].
      intros i u [[<- <-]|[? H]]%lookup_insert_Some; [apply no_earlier_refl|].
      by rewrite Hempty, lookup_empty in H.
    + destruct (Hids _ _ Hlook) as [Hrange Hclock]. pose proof Hclock as [Hz Hm]. rewrite Hz. cbn [orb].
      destruct (Before started (oldestStarted l)) eqn:E.
      * rewrite lookup_insert_eq. split; [done|].
        intros i u [[<- <-]|[? H]]%lookup_insert_Some; [apply no_earlier_refl|].
        apply (before_trans _ (oldestStarted l)); [apply Hc|done|by apply (Hids _ _ H)| |by eapply Hmin].
        by apply before_no_earlier.
      * rewrite lookup_insert_ne by lia. split; [done|].
        intros i u [[<- <-]|[? H]]%lookup_insert_Some; [exact E|by eapply Hmin].
Qed.

Lemma findOldest_active order l : active (findOldest order l) = active l.
Proof. unfold findOldest. by destruct (foldl _ _ _). Qed.
Lemma findOldest_nextID order l : nextID (findOldest order l) = nextID l.
Proof. unfold findOldest. by destruct (foldl _ _ _). Qed.
Lemma findOldest_threshold order l : stallThreshold (findOldest order l) = stallThreshold l.
Proof. unfold findOldest. by destruct (foldl _ _ _). Qed.

Lemma done_active order id completed err l :
  active (done_locked order id completed err l) = delete id (active l).
Proof. unfold done_locked. case_match; [by rewrite findOldest_active|done]. Qed.
Lemma done_nextID order id completed err l :
  nextID (done_locked order id completed err l) = nextID l.
Proof. unfold done_locked. case_match; [by rewrite findOldest_nextID|done]. Qed.
Lemma done_threshold order id completed err l :
  stallThreshold (done_locked order id completed err l) = stallThreshold l.
Proof. unfold done_locked. case_match; [by rewrite findOldest_threshold|done]. Qed.

Lemma done_wf order id completed err l :
  map_order order → health_wf l → health_wf (done_locked order id completed err l).
Proof.
  intros Hord [Hids Hn Ht Ho]. split.
  - intros i t. rewrite done_active, done_nextID. intros [_ H]%lookup_delete_Some. by eapply Hids.
  - by rewrite done_nextID.
  - by rewrite done_threshold.
  - unfold done_locked. cbn [active]. set (l1 := mkObservedLedger _ _ _ _ _ _).
    destruct (Z.eqb_spec id (oldestID l)) as [->|Hne].
    + rewrite findOldest_active. apply findOldest_ok; [apply Hord|].
      intros i t H. cbn in H. apply lookup_delete_Some in H as [_ H]. by eapply Hids.
    + cbn. destruct Ho as [(Hempty & -> & ->)|[Hlook Hmin]].
      * left. rewrite Hempty, delete_empty. done.
      * right. rewrite lookup_delete_ne by done. split; [done|].
        intros i u [_ H]%lookup_delete_Some. by eapply Hmin.
Qed.

(** ** What [Health] reports *)

(** The age of a call at [now], as [now.Sub(started)] computes it. *)
Definition age (now started : Time) : Duration := Sub now started.

Lemma age_mono now t u :
  is_Some (mono now) → is_Some (mono t) → is_Some (mono u) → no_earlier t u → age now u ≤ age now t.
Proof.
  intros [a Ha] [b Hb] [d Hd]. unfold no_earlier, Before, age, Sub, diff, saturate.
  rewrite Ha, Hb, Hd, Z.ltb_ge. lia.
Qed.

(** The service is ready exactly when every call in flight is younger than the
    threshold; in particular an idle service is ready. *)
Lemma Health_Ready_iff now l :
  health_wf l → is_Some (mono now) →
  Ready (Health now l) = true ↔ ∀ id t, active l !! id = Some t → age now t < stallThreshold l.
Proof.
  intros [Hids Hn Ht Ho] Hnow. unfold Health. cbn [Ready]. rewrite Z.ltb_lt.
  destruct Ho as [(Hempty & _ & Hz)|[Hlook Hmin]].
  - rewrite Hz, zeroTime_IsZero. split; [|lia]. intros _ id t. by rewrite Hempty, lookup_empty.
  - destruct (Hids _ _ Hlook) as [_ [Hz Hm]]. rewrite Hz. split; [|by eauto].
    intros Hlt id t Hid. eapply Z.le_lt_trans; [|exact Hlt].
    apply age_mono; [done..| |by eapply Hmin]. by apply (Hids _ _ Hid).
Qed.

(** ** Sequences of critical sections *)

(** The critical sections of concurrent calls, in the order the lock admits
    them. *)
Inductive health_event :=
| CallBegin (started : Time)
| CallDone (id : Z) (completed : Time) (err : option error).

Definition health_step (order : gmap Z Time → list (Z * Time)) (l : observedLedger)
    (ev : health_event) : observedLedger :=
  match ev with
  | CallBegin started => snd (begin_locked started l)
  | CallDone id completed err => done_locked order id completed err l
  end.

Definition begin_ok (ev : health_event) : Prop :=
  match ev with CallBegin started => clock_reading started | CallDone _ _ _ => True end.

Lemma health_step_nextID order l ev :
  health_wf l → nextID l + 1 < 2 ^ 64 →
  nextID l ≤ nextID (health_step order l ev) ≤ nextID l + 1.
Proof.
  intros [_ Hn _ _] Hlt. destruct ev; cbn.
  - rewrite uint64_id; unfold in_uint64; lia.
  - rewrite done_nextID. lia.
Qed.

(** The invariant holds after any interleaving of fewer than [2^64] calls. *)
Lemma health_run_wf order evs l :
  map_order order → health_wf l → Forall begin_ok evs →
  nextID l + Z.of_nat (length evs) < 2 ^ 64 →
  health_wf (foldl (health_step order) l evs).
Proof.
  intros Hord. revert l. induction evs as [|ev evs IH]; intros l Hwf Hok Hlen; cbn [foldl]; [done|].
  apply Forall_cons in Hok as [Hev Hevs]. cbn [length] in Hlen.
  pose proof (health_step_nextID order l ev Hwf ltac:(lia)). apply IH; [|done|lia].
  destruct ev; cbn; [apply begin_wf; [done..|lia]|by apply done_wf].
Qed.

Lemma health_run_threshold order evs l :
  stallThreshold (foldl (health_step order) l evs) = stallThreshold l.
Proof.
  revert l. induction evs as [|ev evs IH]; intros l; cbn [foldl]; [done|]. rewrite IH.
  destruct ev; cbn; [done|apply done_threshold].
Qed.

(** Readiness is exact.  After any interleaving of fewer than [2^64] calls
    beginning and completing, and for every iteration order of Go's maps, the
    service is ready exactly when each call in flight is younger than the stall
    threshold, and it reports the number of calls in flight. *)
Theorem readiness_is_exact order threshold evs now :
  map_order order → threshold ≤ maxDuration → Forall begin_ok evs →
  Z.of_nat (length evs) < 2 ^ 64 → is_Some (mono now) →
  let l := foldl (health_step order) (newObservedLedger threshold) evs in
  InFlight (Health now l) = Z.of_nat (size (active l)) ∧
  (Ready (Health now l) = true ↔
   ∀ id t, active l !! id = Some t → age now t < stallThreshold (newObservedLedger threshold)).
Proof.
  intros Hord Hmax Hok Hlen Hnow l. split; [done|].
  rewrite <- (health_run_threshold order evs (newObservedLedger threshold)).
  apply Health_Ready_iff; [|done]. apply health_run_wf; [done|by apply newObservedLedger_wf|done|].
  exact Hlen.
Qed.
Definition example_time (n : Z) : Time := mkTime n (Some n).
Lemma readiness_is_exact_witness :
  let l := foldl (health_step map_to_list) (newObservedLedger 5)
             [CallBegin (example_time 3); CallBegin (example_time 7); CallDone 1 (example_time 8) None] in
  InFlight (Health (example_time 9) l) = Z.of_nat (size (active l)) ∧
  (Ready (Health (example_time 9) l) = true ↔
   ∀ id t, active l !! id = Some t → age (example_time 9) t < stallThreshold (newObservedLedger 5)).
Proof.
  apply readiness_is_exact.
  - by intros m.
  - discriminate.
  - repeat constructor; by eexists.
  - reflexivity.
  - by eexists.
Defined.
