(* ===== verification/Interface.v ===== *)
(** * Effects of the service and the ledger interface

    A service method is a program [prog A]: a tree of atomic effects (a clock
    reading, a call of the ledger client, a critical section of the call tracker
    or of the cache, an observation, a log line).  [run] interprets a program
    alone and [pool_step] interleaves the effects of several programs (both in
    [Semantics.v]).  The class [Ledger] is the interface [service.Ledger]; what
    TigerBeetle documents about it is in [Contract.v]. *)
From S2P Require Import Prelude GoBase Domain TigerBeetle LedgerModel Cache Health.
Import GoError GoTime.

(** ** [service.Ledger] *)

(** A client is a state and four methods on it; the state covers the cluster and
    whatever decides the fate of a call.  An [inl] answer may come with a state
    in which the command was applied: the response was lost. *)
Class Ledger {sdk : SDK} (L : Type) := {
  Ledger_CreateAccount : Account → L → result error CreateAccountResult * L;
  Ledger_CreateTransfer : Transfer → L → result error CreateTransferResult * L;
  Ledger_LookupAccount : Uint128 → L → result error (Account * bool) * L;
  Ledger_LookupTransfer : Uint128 → L → result error (Transfer * bool) * L;
}.

(** ** Observable output *)

(** A value of type [any] in the attribute list of a log line. *)
Inductive any :=
| AnyString (s : string)
| AnyUint64 (z : Z)
| AnyInt64 (z : Z)
| AnyError (e : error).

(** Metrics of ledger calls ([SetLedgerCallsInFlight], [ObserveLedgerCall]). *)
Inductive call_output :=
| OutInFlight (n : Z)
| OutLedgerCall (kind outcome : string) (elapsed : Duration).

(** Metrics and log lines of completed operations. *)
Inductive output :=
| OutOperation (kind outcome : string) (elapsed : Duration)
| OutLog (msg : string) (fields : list any).

Section effects.
Context {sdk : SDK}.

Inductive eff : Type → Type :=
| TimeNow : eff Time
| BeginCall (metrics : bool) (started : Time) : eff Z
| DoneCall (metrics : bool) (id : Z) (completed : Time) (err : option error) : eff unit
| ReadHealth (now : Time) : eff LedgerHealth
| ObserveLedgerCall (kind outcome : string) (elapsed : Duration) : eff unit
| CreateAccountCall (account : Account) : eff (result error CreateAccountResult)
| CreateTransferCall (transfer : Transfer) : eff (result error CreateTransferResult)
| LookupAccountCall (id : Uint128) : eff (result error (Account * bool))
| LookupTransferCall (id : Uint128) : eff (result error (Transfer * bool))
| CacheLoad (id : Uint128) : eff (option accountMetadata)
| CacheStore (id : Uint128) (metadata : accountMetadata) : eff (option unit)
| ObserveOperation (kind outcome : string) (elapsed : Duration) : eff unit
| LogInfo (msg : string) (fields : list any) : eff unit.

Inductive prog (A : Type) : Type :=
| Ret (a : A)
| Panic
| Call {X : Type} (e : eff X) (k : X → prog A).
Global Arguments Ret {A} a.
Global Arguments Panic {A}.
Global Arguments Call {A X} e k.

Fixpoint bind {A B} (p : prog A) (f : A → prog B) : prog B :=
  match p with
  | Ret a => f a
  | Panic => Panic
  | Call e k => Call e (λ x, bind (k x) f)
  end.

Definition call {X} (e : eff X) : prog X := Call e Ret.

(** [v, err := f(); if err != nil { return ..., err }; ...] *)
Definition bind_err {A B} (p : prog (result error A)) (f : A → prog (result error B)) :
    prog (result error B) :=
  bind p (λ r, match r with inl e => Ret (inl e) | inr a => f a end).
End effects.

Declare Scope prog_scope.
Delimit Scope prog_scope with prog.
Notation "x <- p ;; q" := (bind p (λ x, q))
  (at level 100, p at next level, right associativity) : prog_scope.
Notation "p ;; q" := (bind p (λ _, q)) (at level 100, right associativity) : prog_scope.
Notation "x <-? p ;; q" := (bind_err p (λ x, q))
  (at level 100, p at next level, right associativity) : prog_scope.
Notation "'let?' x := r 'in' q" := (bind_err (Ret r) (λ x, q))
  (at level 10, x name, r at level 100, q at level 200) : prog_scope.

Section observed.
Context {sdk : SDK}.
Local Open Scope prog_scope.

(** [begin(kind)], the call, and the deferred function [begin] returned.  The
    three metrics calls are skipped when [l.metrics] is nil. *)
Definition observed {A} (metrics : bool) (kind : string) (e : eff (result error A)) :
    prog (result error A) :=
  started <- call TimeNow ;;
  id <- call (BeginCall metrics started) ;;
  r <- call e ;;
  completed <- call TimeNow ;;
  let err := match r with inl err => Some err | inr _ => None end in
  let outcome := if err is Some _ then "error" else "success" in
  call (DoneCall metrics id completed err) ;;
  (if metrics : bool then call (ObserveLedgerCall kind outcome (Sub completed started)) else Ret tt) ;;
  Ret r.

(** [Health] reads the clock, then the tracker under its lock. *)
Definition observedLedger_Health : prog LedgerHealth :=
  now <- call TimeNow ;;
  call (ReadHealth now).

Definition observedLedger_CreateAccount (metrics : bool) (account : Account) :=
  observed metrics "create_account" (CreateAccountCall account).
Definition observedLedger_CreateTransfer (metrics : bool) (transfer : Transfer) :=
  observed metrics "create_transfer" (CreateTransferCall transfer).
Definition observedLedger_LookupAccount (metrics : bool) (id : Uint128) :=
  observed metrics "lookup_account" (LookupAccountCall id).
Definition observedLedger_LookupTransfer (metrics : bool) (id : Uint128) :=
  observed metrics "lookup_transfer" (LookupTransferCall id).
End observed.
