(* ===== verification/Semantics.v ===== *)
(** * Semantics of programs and the two program logics

    [handle] gives every effect its atomic action on the shared state; [run] is a
    program on its own, [pool_step] one effect of one of several programs.  [wp]
    is a weakest precondition for [run]; [rg] is a rely-guarantee condition whose
    soundness covers every interleaving. *)
From S2P Require Import Prelude GoBase Domain TigerBeetle LedgerModel Cache Health Interface.
Import GoError GoTime.

(** What a run takes from outside: the readings of the clock, in order, and the
    iteration order of Go maps. *)
Record Env := mkEnv {
  env_clock : nat → Time;
  env_order : gmap Z Time → list (Z * Time) }.

Record env_ok (env : Env) : Prop := {
  clock_ok n : clock_reading (env_clock env n);
  order_ok : map_order (env_order env) }.

Section semantics.
Context {sdk : SDK} {L : Type} {ledger : Ledger L}.

(** The state the handlers share: the ledger, the cache, the call tracker, the
    number of clock readings so far, and the output. *)
Record World := mkWorld {
  w_ledger : L;
  w_cache : metadataCache;
  w_health : observedLedger;
  w_ticks : nat;
  w_calls : list call_output;
  w_out : list output }.

Definition set_ledger (l : L) (w : World) : World :=
  mkWorld l (w_cache w) (w_health w) (w_ticks w) (w_calls w) (w_out w).
Definition set_cache (c : metadataCache) (w : World) : World :=
  mkWorld (w_ledger w) c (w_health w) (w_ticks w) (w_calls w) (w_out w).
Definition set_health (h : observedLedger) (o : list call_output) (w : World) : World :=
  mkWorld (w_ledger w) (w_cache w) h (w_ticks w) (w_calls w ++ o) (w_out w).
Definition tick (w : World) : World :=
  mkWorld (w_ledger w) (w_cache w) (w_health w) (S (w_ticks w)) (w_calls w) (w_out w).
Definition emit (o : output) (w : World) : World :=
  mkWorld (w_ledger w) (w_cache w) (w_health w) (w_ticks w) (w_calls w) (w_out w ++ [o]).

(** [if l.metrics != nil { l.metrics.SetLedgerCallsInFlight(len(l.active)) }] *)
Definition in_flight_output (metrics : bool) (h : observedLedger) : list call_output :=
  if metrics then [OutInFlight (Z.of_nat (size (active h)))] else [].

Definition handle (env : Env) {X} (e : eff X) : World → X * World :=
  match e in eff X return World → X * World with
  | TimeNow => λ w, (env_clock env (w_ticks w), tick w)
  | BeginCall metrics started => λ w,
      let '(id, h) := begin_locked started (w_health w) in
      (id, set_health h (in_flight_output metrics h) w)
  | DoneCall metrics id completed err => λ w,
      let h := done_locked (env_order env) id completed err (w_health w) in
      (tt, set_health h (in_flight_output metrics h) w)
  | ReadHealth now => λ w, (Health now (w_health w), w)
  | ObserveLedgerCall kind outcome elapsed => λ w,
      (tt, set_health (w_health w) [OutLedgerCall kind outcome elapsed] w)
  | CreateAccountCall account => λ w,
      let '(r, l) := Ledger_CreateAccount account (w_ledger w) in (r, set_ledger l w)
  | CreateTransferCall transfer => λ w,
      let '(r, l) := Ledger_CreateTransfer transfer (w_ledger w) in (r, set_ledger l w)
  | LookupAccountCall id => λ w,
      let '(r, l) := Ledger_LookupAccount id (w_ledger w) in (r, set_ledger l w)
  | LookupTransferCall id => λ w,
      let '(r, l) := Ledger_LookupTransfer id (w_ledger w) in (r, set_ledger l w)
  | CacheLoad id => λ w, (metadataCache_Load (w_cache w) id, w)
  | CacheStore id metadata => λ w,
      match metadataCache_Store (w_cache w) id metadata with
      | Some c => (Some tt, set_cache c w)
      | None => (None, w)
      end
  | ObserveOperation kind outcome elapsed => λ w, (tt, emit (OutOperation kind outcome elapsed) w)
  | LogInfo msg fields => λ w, (tt, emit (OutLog msg fields) w)
  end.

(** A program alone; [None] is a panic. *)
Fixpoint run (env : Env) {A} (p : prog A) (w : World) : option A * World :=
  match p with
  | Ret a => (Some a, w)
  | Panic => (None, w)
  | Call e k => let '(x, w') := handle env e w in run env (k x) w'
  end.

Lemma run_bind env {A B} (p : prog A) (f : A → prog B) w :
  run env (bind p f) w =
  match run env p w with (Some a, w') => run env (f a) w' | (None, w') => (None, w') end.
Proof.
  revert w. induction p as [a| |X e k IH]; intros w; cbn; [done..|].
  destruct (handle env e w) as [x w']. apply IH.
Qed.

(** ** Several programs *)

Inductive pool_step (env : Env) {A} : list (prog A) * World → list (prog A) * World → Prop :=
| pool_call ts i X (e : eff X) k w x w' :
    ts !! i = Some (Call e k) → handle env e w = (x, w') →
    pool_step env (ts, w) (<[i := k x]> ts, w').

Definition pool_steps (env : Env) {A} := rtc (@pool_step env A).

(** A schedule made executable: step the program under each index in turn. *)
Definition step_at (env : Env) {A} (i : nat) (cfg : list (prog A) * World) : list (prog A) * World :=
  match fst cfg !! i with
  | Some (Call e k) => let '(x, w) := handle env e (snd cfg) in (<[i := k x]> (fst cfg), w)
  | _ => cfg
  end.
Definition exec (env : Env) {A} (schedule : list nat) (cfg : list (prog A) * World) :
    list (prog A) * World := foldl (λ cfg i, step_at env i cfg) cfg schedule.

Lemma exec_steps env {A} schedule (cfg : list (prog A) * World) :
  pool_steps env cfg (exec env schedule cfg).
Proof.
  revert cfg. induction schedule as [|i schedule IH]; intros cfg; [constructor|]. cbn.
  etransitivity; [|apply IH]. unfold step_at. destruct cfg as [ts w]. cbn.
  destruct (ts !! i) as [[a| |X e k]|] eqn:Hi; [constructor..| |constructor].
  destruct (handle env e w) as [x w'] eqn:Hh. apply rtc_once. by econstructor.
Qed.

(** Every schedule is finite: a program is a tree without infinite branches. *)
Definition subtree {A} (p p' : prog A) : Prop :=
  match p with Call e k => ∃ x, p' = k x | _ => False end.
Lemma subtree_acc {A} (p : prog A) : Acc (λ p' p, subtree p p') p.
Proof.
  induction p as [a| |X e k IH]; constructor; [by intros ? []..|]. intros p' [x ->]. apply IH.
Qed.

(** No execution of a pool is infinite. *)
Lemma pool_step_acc env {A} (cfg : list (prog A) * World) :
  Acc (λ cfg' cfg, pool_step env cfg cfg') cfg.
Proof.
  destruct cfg as [ts w]. revert w.
  induction (element_step_acc _ ts subtree_acc) as [ts _ IH]. intros w.
  constructor. intros cfg' Hstep. inversion Hstep; subst. apply IH.
  eexists i, _, _. split_and!; [done| |done]. by eexists.
Qed.

(** A pool that cannot step has only finished programs. *)
Lemma pool_step_progress env {A} (ts : list (prog A)) w i p :
  ts !! i = Some p → (∃ a, p = Ret a) ∨ p = Panic ∨ ∃ cfg', pool_step env (ts, w) cfg'.
Proof.
  intros Hi. destruct p as [a| |X e k]; [by left; exists a|by right; left|right; right].
  destruct (handle env e w) as [x w'] eqn:Hh. eexists. by econstructor.
Qed.

(** ** The demonic view of one effect *)

(** Clock readings, call ids and gauges are arbitrary; the ledger, the cache
    and the output of operations are exact. *)
Definition eff_wp {X} (e : eff X) :
    (X → L → metadataCache → list output → Prop) → L → metadataCache → list output → Prop :=
  match e in eff X
    return (X → L → metadataCache → list output → Prop) → L → metadataCache → list output → Prop with
  | TimeNow => λ K l c o, ∀ t, clock_reading t → K t l c o
  | BeginCall _ _ => λ K l c o, ∀ id, K id l c o
  | DoneCall _ _ _ _ => λ K, K tt
  | ReadHealth _ => λ K l c o, ∀ h, K h l c o
  | ObserveLedgerCall _ _ _ => λ K, K tt
  | CreateAccountCall account => λ K l c o,
      let '(r, l') := Ledger_CreateAccount account l in K r l' c o
  | CreateTransferCall transfer => λ K l c o,
      let '(r, l') := Ledger_CreateTransfer transfer l in K r l' c o
  | LookupAccountCall id => λ K l c o, let '(r, l') := Ledger_LookupAccount id l in K r l' c o
  | LookupTransferCall id => λ K l c o, let '(r, l') := Ledger_LookupTransfer id l in K r l' c o
  | CacheLoad id => λ K l c, K (metadataCache_Load c id) l c
  | CacheStore id metadata => λ K l c o,
      match metadataCache_Store c id metadata with
      | Some c' => K (Some tt) l c' o
      | None => K None l c o
      end
  | ObserveOperation kind outcome elapsed => λ K l c o, K tt l c (o ++ [OutOperation kind outcome elapsed])
  | LogInfo msg fields => λ K l c o, K tt l c (o ++ [OutLog msg fields])
  end.

Lemma eff_wp_sound env {X} (e : eff X) K w :
  env_ok env → eff_wp e K (w_ledger w) (w_cache w) (w_out w) →
  let '(x, w') := handle env e w in K x (w_ledger w') (w_cache w') (w_out w').
Proof.
  intros Henv. destruct e; cbn; try done.
  - intros H. apply H, Henv.
  - by destruct (Ledger_CreateAccount account _).
  - by destruct (Ledger_CreateTransfer transfer _).
  - by destruct (Ledger_LookupAccount id _).
  - by destruct (Ledger_LookupTransfer id _).
  - by destruct (metadataCache_Store _ _ _).
Qed.

Lemma eff_wp_mono {X} (e : eff X) (K K' : X → L → metadataCache → list output → Prop) l c o :
  (∀ x l' c' o', K x l' c' o' → K' x l' c' o') → eff_wp e K l c o → eff_wp e K' l c o.
Proof. intros HK. destruct e; cbn; repeat case_match; naive_solver. Qed.

(** ** Weakest precondition of a run *)
Fixpoint wp {A} (p : prog A) (Q : A → L → metadataCache → list output → Prop) :
    L → metadataCache → list output → Prop :=
  match p with
  | Ret a => Q a
  | Panic => λ _ _ _, False
  | Call e k => eff_wp e (λ x, wp (k x) Q)
  end.

Lemma wp_sound env {A} (p : prog A) Q w :
  env_ok env → wp p Q (w_ledger w) (w_cache w) (w_out w) →
  ∃ a w', run env p w = (Some a, w') ∧ Q a (w_ledger w') (w_cache w') (w_out w').
Proof.
  intros Henv. revert w. induction p as [a| |X e k IH]; intros w; cbn; [by eauto|done|].
  intros H. pose proof (eff_wp_sound env e _ w Henv H) as Hstep.
  destruct (handle env e w) as [x w']. by apply IH.
Qed.

Lemma wp_mono {A} (p : prog A) (Q Q' : A → L → metadataCache → list output → Prop) l c o :
  (∀ a l' c' o', Q a l' c' o' → Q' a l' c' o') → wp p Q l c o → wp p Q' l c o.
Proof.
  intros HQ. revert l c o. induction p as [a| |X e k IH]; intros l c o; cbn; [by apply HQ|done|].
  apply eff_wp_mono. intros x l' c' o'. apply IH.
Qed.

Lemma wp_bind {A B} (p : prog A) (f : A → prog B) Q l c o :
  wp (bind p f) Q l c o ↔ wp p (λ a, wp (f a) Q) l c o.
Proof.
  revert l c o. induction p as [a| |X e k IH]; intros l c o; cbn; [done..|].
  split; apply eff_wp_mono; intros x l' c' o'; apply IH.
Qed.

Lemma wp_seq {A B} (p : prog A) (f : A → prog B) Q l c o :
  wp p (λ a, wp (f a) Q) l c o → wp (bind p f) Q l c o.
Proof. by rewrite wp_bind. Qed.

Lemma wp_now {A} (k : Time → prog A) Q l c o :
  (∀ t, clock_reading t → wp (k t) Q l c o) → wp (bind (call TimeNow) k) Q l c o.
Proof. done. Qed.

Lemma wp_bind_err {A B} (p : prog (result error A)) (f : A → prog (result error B)) Q l c o :
  wp (bind_err p f) Q l c o ↔
  wp p (λ r, match r with inl e => Q (inl e) | inr a => wp (f a) Q end) l c o.
Proof.
  unfold bind_err. rewrite wp_bind. split; apply wp_mono; intros [e|a]; naive_solver.
Qed.

(** A call of the observed ledger is a call of the ledger: the tracker and its
    metrics do not show in the ledger, the cache or the operations' output. *)
Lemma wp_observed {A} metrics kind (e : eff (result error A)) Q l c o :
  eff_wp e Q l c o → wp (observed metrics kind e) Q l c o.
Proof.
  intros H. cbn. intros t Ht id. revert H. apply eff_wp_mono.
  intros r l' c' o' HQ t' Ht'. destruct metrics; cbn; exact HQ.
Qed.

(** ** Rely-guarantee: every interleaving *)

Section rely_guarantee.
(** [Inv] holds of the shared state between any two effects; [ext l l'] says
    [l'] is a possible future of [l]. *)
Context (Inv : L → metadataCache → Prop) (ext : L → L → Prop) {ext_pre : PreOrder ext}.

Fixpoint rg {A} (p : prog A) (Q : A → L → Prop) (l : L) : Prop :=
  match p with
  | Ret a => ∀ l', ext l l' → Q a l'
  | Panic => False
  | Call e k => ∀ l0 c0 o0, ext l l0 → Inv l0 c0 →
      eff_wp e (λ x l1 c1 _, ext l0 l1 ∧ Inv l1 c1 ∧ rg (k x) Q l1) l0 c0 o0
  end.

Lemma rg_ext {A} (p : prog A) Q l l' : ext l l' → rg p Q l → rg p Q l'.
Proof.
  destruct p; cbn; [| done |].
  - intros Hl H l'' Hl'. apply H. by etransitivity.
  - intros Hl H l0 c0 o0 Hl0. apply H. by etransitivity.
Qed.

Lemma rg_mono {A} (p : prog A) (Q Q' : A → L → Prop) l :
  (∀ a l', ext l l' → Q a l' → Q' a l') → rg p Q l → rg p Q' l.
Proof.
  revert l. induction p as [a| |X e k IH]; intros l HQ; cbn; [by eauto|done|].
  intros H l0 c0 o0 Hl0 Hinv. eapply eff_wp_mono; [|by apply H].
  cbn. intros x l1 c1 o1 (Hl1 & Hinv1 & Hk). split_and!; [done..|].
  revert Hk. apply IH. intros a l' Hl'. apply HQ. by do 2 (etransitivity; [done|]).
Qed.

Lemma rg_bind {A B} (p : prog A) (f : A → prog B) Q l :
  rg p (λ a l', rg (f a) Q l') l → rg (bind p f) Q l.
Proof.
  revert l. induction p as [a| |X e k IH]; intros l; cbn; [by intros H; apply H|done|].
  intros H l0 c0 o0 Hl0 Hinv. eapply eff_wp_mono; [|by apply H].
  cbn. intros x l1 c1 o1 (? & ? & ?). split_and!; [done..|]. by apply IH.
Qed.

(** A postcondition holds of every later ledger too. *)
Lemma rg_stable {A} (p : prog A) Q l : rg p Q l → rg p (λ a l', ∀ l'', ext l' l'' → Q a l'') l.
Proof.
  revert l. induction p as [a| |X e k IH]; intros l; cbn; [|done|].
  - intros H l' Hl' l'' Hl''. apply H. by etransitivity.
  - intros H l0 c0 o0 Hl0 Hinv. eapply eff_wp_mono; [|by apply H].
    cbn. intros x l1 c1 o1 (? & ? & ?). split_and!; [done..|]. by apply IH.
Qed.

Lemma rg_map {A B} (p : prog A) (f : A → B) (Q : A → L → Prop) (Q' : B → L → Prop) l :
  rg p Q l → (∀ a l', Q a l' → Q' (f a) l') → rg (bind p (λ a, Ret (f a))) Q' l.
Proof.
  intros Hp HQ. apply rg_bind. eapply rg_mono; [|exact (rg_stable _ _ _ Hp)].
  intros a l' _ Ha l'' Hl''. by apply HQ, Ha.
Qed.

Lemma rg_bind_err {A B} (p : prog (result error A)) (f : A → prog (result error B)) Q l :
  rg p (λ r l', match r with inl e => ∀ l'', ext l' l'' → Q (inl e) l'' | inr a => rg (f a) Q l' end) l →
  rg (bind_err p f) Q l.
Proof.
  intros H. apply rg_bind. revert H. apply rg_mono. by intros [e|a] l' _.
Qed.

Lemma rg_observed {A} metrics kind (e : eff (result error A)) (Q : result error A → L → Prop) l :
  (∀ l0 c0 o0, ext l l0 → Inv l0 c0 →
    eff_wp e (λ r l1 c1 _, ext l0 l1 ∧ Inv l1 c1 ∧ ∀ l', ext l1 l' → Q r l') l0 c0 o0) →
  rg (observed metrics kind e) Q l.
Proof.
  intros H. cbn. intros la ca oa Hla Hia t Ht. split_and!; [done..|].
  intros lb cb ob Hlb Hib id. split_and!; [done..|].
  intros lc cc oc Hlc Hic.
  eapply eff_wp_mono; [|apply H; [by repeat (etransitivity; [done|])|done]].
  cbn. intros r ld cd od (Hld & Hid & HQ). split_and!; [done..|].
  intros le ce oe Hle Hie t' Ht'. split_and!; [done..|].
  intros lf cf o_f Hlf Hif. split_and!; [done..|].
  destruct metrics; cbn.
  - intros lg cg og Hlg Hig. split_and!; [done..|]. intros l' Hl'.
    apply HQ. by repeat (etransitivity; [done|]).
  - intros l' Hl'. apply HQ. by repeat (etransitivity; [done|]).
Qed.

(** One effect that leaves the ledger and the cache alone. *)
Lemma rg_pure {A X} (e : eff X) (k : X → prog A) Q l :
  (∀ K l0 c0 o0, (∀ x o1, K x l0 c0 o1) → eff_wp e K l0 c0 o0) →
  (∀ x l', ext l l' → rg (k x) Q l') → rg (Call e k) Q l.
Proof.
  intros He Hk. cbn. intros l0 c0 o0 Hl0 Hinv. apply He. intros x o1.
  split_and!; [done..|]. by apply Hk.
Qed.

(** The pool invariant: the state satisfies [Inv] and every program is [rg]
    from it for its own postcondition.  It is preserved by every step. *)
Definition pool_ok {A} (Qs : list (A → L → Prop)) (cfg : list (prog A) * World) : Prop :=
  Inv (w_ledger (snd cfg)) (w_cache (snd cfg)) ∧
  Forall2 (λ Q p, rg p Q (w_ledger (snd cfg))) Qs (fst cfg).

Lemma pool_step_ok env {A} (Qs : list (A → L → Prop)) cfg cfg' :
  env_ok env → pool_step env cfg cfg' → pool_ok Qs cfg →
  pool_ok Qs cfg' ∧ ext (w_ledger (snd cfg)) (w_ledger (snd cfg')).
Proof.
  intros Henv Hstep [Hinv Hall]. destruct Hstep as [ts i X e k w x w' Hi Hh]. cbn in *.
  destruct (Forall2_lookup_r _ _ _ _ _ Hall Hi) as (Q & HQ & Hp). cbn in Hp.
  specialize (Hp _ _ (w_out w) (reflexivity _) Hinv).
  pose proof (eff_wp_sound env e _ w Henv Hp) as H. rewrite Hh in H.
  destruct H as (Hext & Hinv' & Hk). split_and!; [|done]. split; [done|]. cbn.
  rewrite <- (list_insert_id Qs i Q HQ). apply Forall2_insert; [|done].
  eapply Forall2_impl; [done|]. intros Q' p. by apply rg_ext.
Qed.

Lemma pool_steps_ok env {A} (Qs : list (A → L → Prop)) cfg cfg' :
  env_ok env → pool_steps env cfg cfg' → pool_ok Qs cfg →
  pool_ok Qs cfg' ∧ ext (w_ledger (snd cfg)) (w_ledger (snd cfg')).
Proof.
  intros Henv. induction 1 as [|cfg1 cfg2 cfg3 Hstep _ IH]; intros Hok; [by split|].
  destruct (pool_step_ok env Qs _ _ Henv Hstep Hok) as [Hok' Hext].
  destruct (IH Hok') as [? ?]. split; [done|]. by etransitivity.
Qed.

(** A program that has returned satisfies its postcondition. *)
Lemma pool_ok_result {A} (Qs : list (A → L → Prop)) ts w i a Q :
  pool_ok Qs (ts, w) → Qs !! i = Some Q → ts !! i = Some (Ret a) → Q a (w_ledger w).
Proof.
  intros [_ Hall] HQ Hi. pose proof (Forall2_lookup_lr _ _ _ _ _ _ Hall HQ Hi) as H.
  apply H. reflexivity.
Qed.

Lemma pool_ok_no_panic {A} (Qs : list (A → L → Prop)) ts w i :
  pool_ok Qs (ts, w) → ts !! i ≠ Some Panic.
Proof.
  intros [_ Hall] Hi. by destruct (Forall2_lookup_r _ _ _ _ _ Hall Hi) as (Q & _ & ?).
Qed.

(** A run is the pool of one program. *)
Lemma rg_run env {A} (p : prog A) Q w :
  env_ok env → Inv (w_ledger w) (w_cache w) → rg p Q (w_ledger w) →
  ∃ a w', run env p w = (Some a, w') ∧ Inv (w_ledger w') (w_cache w') ∧
    ext (w_ledger w) (w_ledger w') ∧ Q a (w_ledger w').
Proof.
  intros Henv. revert w. induction p as [a| |X e k IH]; intros w Hinv Hp.
  - exists a, w. split_and!; [done..|]. by apply Hp.
  - done.
  - cbn in Hp. specialize (Hp _ _ (w_out w) (reflexivity _) Hinv).
    pose proof (eff_wp_sound env e _ w Henv Hp) as H. cbn.
    destruct (handle env e w) as [x w1]. destruct H as (Hext & Hinv1 & Hk).
    destruct (IH x w1 Hinv1 Hk) as (a & w' & Hrun & Hinv' & Hext' & HQ).
    exists a, w'. split_and!; [done..| |done]. by etransitivity.
Qed.
End rely_guarantee.
End semantics.

Arguments World {sdk} L.
