(* ===== verification/Metrics.v ===== *)
(** * [internal/observability/metrics.go]: the instruments of the service

    The two counters, two histograms and the gauge that the service reports to,
    with the methods that change them, and their values after the observations a
    run has made.  A counter vector is a map from label values, a histogram the
    list of its observations; buckets and exposition belong to Prometheus.  The
    instruments of the HTTP layer are in [Admission.v]; all eight are described
    here. *)
From S2P Require Import Prelude GoBase GoText GoFloat Domain TigerBeetle LedgerModel.
From S2P Require Import Cache Health Interface Semantics.
From Stdlib Require Import SpecFloat.
Import GoTime.
Local Open Scope Z_scope.

Record Metrics := mkMetrics {
  operations : gmap (string * string) Z;
  duration : gmap string (list spec_float);
  ledgerCalls : gmap (string * string) Z;
  ledgerCallDuration : gmap string (list spec_float);
  ledgerCallsInFlight : Z }.

Definition NewMetrics : Metrics := mkMetrics ∅ ∅ ∅ ∅ 0.

(** The instruments [NewMetrics] describes, in the order it registers them. *)
Inductive instrument := CounterVec | HistogramVec | Gauge.
Record Opts := mkOpts {
  opts_type : instrument;
  Name : string;
  Help : string;
  opts_labels : list string }.
Definition instruments : list Opts :=
  [mkOpts CounterVec "ledger_operations_total" "Completed business operations by kind and outcome."
     ["kind"; "outcome"];
   mkOpts HistogramVec "ledger_operation_duration_seconds" "End-to-end business operation latency." ["kind"];
   mkOpts CounterVec "ledger_http_requests_total" "HTTP requests by method, route, and status."
     ["method"; "route"; "status"];
   mkOpts Gauge "ledger_admission_in_flight" "Requests currently holding a ledger-route admission slot." [];
   mkOpts CounterVec "ledger_admission_rejected_total" "Requests rejected before execution by reason."
     ["reason"];
   mkOpts CounterVec "ledger_dependency_calls_total" "TigerBeetle SDK calls by operation and transport outcome."
     ["operation"; "outcome"];
   mkOpts HistogramVec "ledger_dependency_call_duration_seconds" "TigerBeetle SDK call duration." ["operation"];
   mkOpts Gauge "ledger_dependency_calls_in_flight"
     "TigerBeetle SDK calls currently waiting for a response." []].

(** No name is described twice, which [MustRegister] would answer with a panic. *)
Lemma instruments_distinct : NoDup (Name <$> instruments).
Proof. apply (bool_decide_unpack _). by vm_compute. Qed.

(** [WithLabelValues(labels).Inc()] and [.Observe(value)]. *)
Definition Inc `{Countable K} (labels : K) (m : gmap K Z) : gmap K Z :=
  <[labels := default 0 (m !! labels) + 1]> m.
Definition Observe `{Countable K} (label : K) (value : spec_float) (m : gmap K (list spec_float)) :
    gmap K (list spec_float) :=
  <[label := default [] (m !! label) ++ [value]]> m.

Definition Metrics_ObserveLedgerCall (kind outcome : string) (elapsed : Duration) (m : Metrics) : Metrics :=
  mkMetrics (operations m) (duration m) (Inc (kind, outcome) (ledgerCalls m))
    (Observe kind (Seconds elapsed) (ledgerCallDuration m)) (ledgerCallsInFlight m).
Definition SetLedgerCallsInFlight (inFlight : Z) (m : Metrics) : Metrics :=
  mkMetrics (operations m) (duration m) (ledgerCalls m) (ledgerCallDuration m) inFlight.
Definition Metrics_ObserveOperation (kind outcome : string) (elapsed : Duration) (m : Metrics) : Metrics :=
  mkMetrics (Inc (kind, outcome) (operations m)) (Observe kind (Seconds elapsed) (duration m))
    (ledgerCalls m) (ledgerCallDuration m) (ledgerCallsInFlight m).

(** ** The observations of a run *)

Definition observe_call (m : Metrics) (o : call_output) : Metrics :=
  match o with
  | OutInFlight n => SetLedgerCallsInFlight n m
  | OutLedgerCall kind outcome elapsed => Metrics_ObserveLedgerCall kind outcome elapsed m
  end.
Definition observe_operation (m : Metrics) (o : output) : Metrics :=
  match o with
  | OutOperation kind outcome elapsed => Metrics_ObserveOperation kind outcome elapsed m
  | OutLog _ _ => m
  end.

(** The instruments after [w]: calls and operations change different ones. *)
Definition exposed {sdk : SDK} {L} (w : World L) : Metrics :=
  foldl observe_operation (foldl observe_call NewMetrics (w_calls w)) (w_out w).

(** The kind and the status of a completion line of the log. *)
Definition completion (o : output) : option (string * string) :=
  match o with
  | OutLog msg (AnyString key1 :: AnyString kind :: _ :: _ :: _ :: _ :: AnyString key2 :: AnyString status :: _) =>
      if bool_decide (msg = "ledger operation completed") && bool_decide (key1 = "kind") &&
         bool_decide (key2 = "status") then Some (kind, status) else None
  | _ => None
  end.
Definition completions (label : string * string) (out : list output) : Z :=
  total (λ o, if decide (completion o = Some label) then 1 else 0) out.
Definition counted `{Countable K} (label : K) (m : gmap K Z) : Z := default 0 (m !! label).

Lemma counted_Inc `{Countable K} (label label' : K) m :
  counted label (Inc label' m) = counted label m + (if decide (label' = label) then 1 else 0).
Proof.
  unfold counted, Inc. destruct (decide (label' = label)) as [->|Hne].
  - by rewrite lookup_insert_eq.
  - rewrite lookup_insert_ne by done. lia.
Qed.

Lemma completions_app label out out' :
  completions label (out ++ out') = completions label out + completions label out'.
Proof.
  unfold completions. induction out as [|o out IH]; [done|].
  change ((o :: out) ++ out') with (o :: (out ++ out')). rewrite !total_cons, IH. lia.
Qed.

Lemma completions_operation label kind outcome elapsed :
  completions label [OutOperation kind outcome elapsed] = 0.
Proof. done. Qed.
Lemma completions_log label msg fields :
  completions label [OutLog msg fields] =
  if decide (completion (OutLog msg fields) = Some label) then 1 else 0.
Proof. unfold completions. rewrite total_cons. cbn [total foldr]. lia. Qed.

(** Operations do not touch the instruments of ledger calls, nor the converse. *)
Lemma operations_keep_calls out m :
  ledgerCalls (foldl observe_operation m out) = ledgerCalls m ∧
  ledgerCallsInFlight (foldl observe_operation m out) = ledgerCallsInFlight m.
Proof.
  revert m. induction out as [|[] out IH]; intros m; cbn; [done| |apply IH].
  apply (IH (Metrics_ObserveOperation kind outcome elapsed m)).
Qed.

Lemma calls_keep_operations calls m : operations (foldl observe_call m calls) = operations m.
Proof. revert m. induction calls as [|[] calls IH]; intros m; cbn; [done|by rewrite IH..]. Qed.

Lemma operations_fold out m m' :
  operations m = operations m' →
  operations (foldl observe_operation m out) = operations (foldl observe_operation m' out).
Proof.
  revert m m'. induction out as [|[] out IH]; intros m m' Hm; cbn; [done| |by apply IH].
  apply IH. cbn. by rewrite Hm.
Qed.

Section worlds.
Context {sdk : SDK} {L : Type}.

Lemma exposed_gauge (w : World L) h n :
  ledgerCallsInFlight (exposed (set_health h [OutInFlight n] w)) = n.
Proof.
  unfold exposed. cbn. rewrite (proj2 (operations_keep_calls _ _)), foldl_snoc. done.
Qed.
Lemma exposed_calls (w : World L) h n :
  ledgerCalls (exposed (set_health h [OutInFlight n] w)) = ledgerCalls (exposed w).
Proof.
  unfold exposed. cbn. rewrite !(proj1 (operations_keep_calls _ _)), foldl_snoc. done.
Qed.
Lemma exposed_operations (w : World L) h o :
  operations (exposed (set_health h o w)) = operations (exposed w).
Proof. apply operations_fold. cbn. by rewrite !calls_keep_operations. Qed.
Lemma exposed_call (w : World L) h kind outcome elapsed :
  let w' := set_health h [OutLedgerCall kind outcome elapsed] w in
  ledgerCalls (exposed w') = Inc (kind, outcome) (ledgerCalls (exposed w)) ∧
  ledgerCallsInFlight (exposed w') = ledgerCallsInFlight (exposed w).
Proof.
  cbn zeta. unfold exposed. cbn [w_calls w_out set_health].
  destruct (operations_keep_calls (w_out w) (foldl observe_call NewMetrics (w_calls w))) as [-> ->].
  destruct (operations_keep_calls (w_out w)
    (foldl observe_call NewMetrics (w_calls w ++ [OutLedgerCall kind outcome elapsed]))) as [-> ->].
  by rewrite foldl_snoc.
Qed.
Lemma exposed_emit (w : World L) o : exposed (emit o w) = observe_operation (exposed w) o.
Proof. unfold exposed. cbn. by rewrite foldl_snoc. Qed.
End worlds.
