(* ===== verification/Contract.v ===== *)
(** * What the service relies on of a TigerBeetle cluster

    [LedgerView] gives a ledger state its accounts and transfers;
    [LedgerContract] states the documented behaviour of the four calls on them:
    definitions of accounts and transfers are immutable, a call either fails
    without an answer or answers the truth, and a transfer id names at most one
    transfer.  [FakeLedger.v] proves the contract for the deterministic test
    ledger of the repository. *)
From S2P Require Import Prelude GoBase Domain TigerBeetle LedgerModel Cache Health Interface.
From S2P Require Import Semantics.
Import GoError.

Section definitions.
Context {sdk : SDK}.

(** Two accounts with the same immutable fields. *)
Record same_definition (a b : Account) : Prop := {
  sd_id : Account_ID a = Account_ID b;
  sd_parent : Account_UserData128 a = Account_UserData128 b;
  sd_data64 : Account_UserData64 a = Account_UserData64 b;
  sd_data32 : Account_UserData32 a = Account_UserData32 b;
  sd_ledger : Account_Ledger a = Account_Ledger b;
  sd_code : Account_Code a = Account_Code b;
  sd_flags : Account_Flags a = Account_Flags b }.

(** Two transfers that differ at most in the timeout and the timestamp. *)
Record same_but_timeout (t u : Transfer) : Prop := {
  sp_id : Transfer_ID t = Transfer_ID u;
  sp_debit : Transfer_DebitAccountID t = Transfer_DebitAccountID u;
  sp_credit : Transfer_CreditAccountID t = Transfer_CreditAccountID u;
  sp_amount : Transfer_Amount t = Transfer_Amount u;
  sp_pending : Transfer_PendingID t = Transfer_PendingID u;
  sp_group : Transfer_UserData128 t = Transfer_UserData128 u;
  sp_data64 : Transfer_UserData64 t = Transfer_UserData64 u;
  sp_data32 : Transfer_UserData32 t = Transfer_UserData32 u;
  sp_ledger : Transfer_Ledger t = Transfer_Ledger u;
  sp_code : Transfer_Code t = Transfer_Code u;
  sp_flags : Transfer_Flags t = Transfer_Flags u }.

(** Two transfers with the same immutable payload. *)
Definition same_payload (t u : Transfer) : Prop :=
  same_but_timeout t u ∧ Transfer_Timeout t = Transfer_Timeout u.

#[export] Instance same_definition_equiv : Equivalence same_definition.
Proof.
  split; [by intros a|by intros a b []|].
  intros a b d [] []. split; by etransitivity.
Qed.
#[export] Instance same_but_timeout_equiv : Equivalence same_but_timeout.
Proof.
  split; [by intros t|by intros t u []|].
  intros t u v [] []. split; by etransitivity.
Qed.
#[export] Instance same_payload_equiv : Equivalence same_payload.
Proof.
  split; [by intros t|by intros t u [? ?]|].
  intros t u v [? ?] [? ?]. split; by etransitivity.
Qed.

(** The transfers the contract is about: posted at once, or pending.  Other flags -
    balancing, linked, the posting or voiding of a pending transfer - let the ledger
    store another amount or act on another transfer. *)
Definition ordinary (t : Transfer) : Prop :=
  Transfer_Flags t = 0%Z ∨ Transfer_Flags t = TransferFlags_ToUint16 (mkTransferFlags true).

(** The status TigerBeetle answers for a used transfer id, a used account id. *)
Definition transfer_conflict (s : CreateTransferStatus) : Prop :=
  s ∈ [TransferExistsWithDifferentFlags; TransferExistsWithDifferentPendingID;
       TransferExistsWithDifferentTimeout; TransferExistsWithDifferentDebitAccountID;
       TransferExistsWithDifferentCreditAccountID; TransferExistsWithDifferentAmount;
       TransferExistsWithDifferentUserData128; TransferExistsWithDifferentUserData64;
       TransferExistsWithDifferentUserData32; TransferExistsWithDifferentLedger;
       TransferExistsWithDifferentCode].
Definition account_conflict (s : CreateAccountStatus) : Prop :=
  s ∈ [AccountExistsWithDifferentFlags; AccountExistsWithDifferentUserData128;
       AccountExistsWithDifferentUserData64; AccountExistsWithDifferentUserData32;
       AccountExistsWithDifferentLedger; AccountExistsWithDifferentCode].
End definitions.

(** An error of the client: none of the service's own sentinels. *)
Definition foreign (e : error) : Prop :=
  ∀ target, target ∈ [ErrInvalidRequest; ErrAccountNotFound; ErrAuthorizationNotFound;
                      ErrIdempotencyConflict] → Is e target = false.

Class LedgerView {sdk : SDK} (L : Type) := {
  account_of : L → Uint128 → option Account;
  transfer_of : L → Uint128 → option Transfer;
  ledger_wf : L → Prop;
}.

Section contract.
Context {sdk : SDK} {L : Type} {ledger : Ledger L} {view : LedgerView L}.

Definition same_view (l l' : L) : Prop :=
  (∀ id, account_of l' id = account_of l id) ∧ (∀ id, transfer_of l' id = transfer_of l id).

(** [l'] is a possible future of [l]: account definitions and transfers stay. *)
Definition ledger_ext (l l' : L) : Prop :=
  (∀ id a, account_of l id = Some a → ∃ a', account_of l' id = Some a' ∧
    same_definition a a' ∧ Account_Timestamp a = Account_Timestamp a') ∧
  (∀ id t, transfer_of l id = Some t → transfer_of l' id = Some t).

#[export] Instance ledger_ext_preorder : PreOrder ledger_ext.
Proof.
  split.
  - intros l. split; [|done]. intros id a Ha. by exists a.
  - intros l1 l2 l3 [Ha Ht] [Ha' Ht']. split; [|by auto].
    intros id a H. destruct (Ha _ _ H) as (a2 & H2 & Hs2 & Hts2).
    destruct (Ha' _ _ H2) as (a3 & H3 & Hs3 & Hts3). exists a3.
    split_and!; [done|by etransitivity|congruence].
Qed.

Lemma same_view_ext l l' : same_view l l' → ledger_ext l l'.
Proof.
  intros [Ha Ht]. split; intros id x; [rewrite <- Ha|rewrite <- Ht]; [|done].
  intros H. by exists x.
Qed.

(** The transfer a successful creation stores. *)
Definition stamped (t : Transfer) (ts : Z) (t' : Transfer) : Prop :=
  same_payload t t' ∧ Transfer_Timestamp t' = ts.

(** How a [CreateTransfer] may change the transfers: not at all, or by storing
    the submitted one under its unused id. *)
Definition transfer_added (t : Transfer) (l l' : L) : Prop :=
  transfer_of l (Transfer_ID t) = None ∧
  (∃ t', transfer_of l' (Transfer_ID t) = Some t' ∧ same_payload t t') ∧
  (∀ id, id ≠ Transfer_ID t → transfer_of l' id = transfer_of l id).
Definition transfers_same (l l' : L) : Prop := ∀ id, transfer_of l' id = transfer_of l id.

(** Accounts keep their definition (balances may move); none appears. *)
Definition definitions_same (l l' : L) : Prop :=
  ∀ id, option_relation
    (λ a a', same_definition a a' ∧ Account_Timestamp a = Account_Timestamp a')
    (λ _, False) (λ _, False) (account_of l id) (account_of l' id).

Definition account_added (a : Account) (l l' : L) : Prop :=
  account_of l (Account_ID a) = None ∧
  (∃ a', account_of l' (Account_ID a) = Some a' ∧ same_definition a a') ∧
  (∀ id, id ≠ Account_ID a → account_of l' id = account_of l id).
Definition accounts_same (l l' : L) : Prop := ∀ id, account_of l' id = account_of l id.

(** The truth of an answer to [CreateTransfer]. *)
Definition transfer_answer (t : Transfer) (l l' : L) (r : CreateTransferResult) : Prop :=
  match TransferResult_Status r with
  | TransferCreated =>
      transfer_added t l l' ∧
      ∃ t', transfer_of l' (Transfer_ID t) = Some t' ∧ stamped t (TransferResult_Timestamp r) t'
  | TransferExists =>
      transfers_same l l' ∧
      ∃ t', transfer_of l (Transfer_ID t) = Some t' ∧ stamped t (TransferResult_Timestamp r) t'
  | TransferExistsWithDifferentTimeout =>
      transfers_same l l' ∧ ∃ t', transfer_of l (Transfer_ID t) = Some t' ∧ ¬ same_payload t t'
  | s =>
      transfers_same l l' ∧
      ((transfer_conflict s ∧ ∃ t', transfer_of l (Transfer_ID t) = Some t' ∧ ¬ same_but_timeout t t') ∨
       (¬ transfer_conflict s ∧ transfer_of l (Transfer_ID t) = None))
  end.

Definition account_answer (a : Account) (l l' : L) (r : CreateAccountResult) : Prop :=
  match AccountResult_Status r with
  | AccountCreated => account_added a l l'
  | AccountExists =>
      accounts_same l l' ∧ ∃ a', account_of l (Account_ID a) = Some a' ∧ same_definition a a'
  | s =>
      accounts_same l l' ∧
      ((account_conflict s ∧ ∃ a', account_of l (Account_ID a) = Some a' ∧ ¬ same_definition a a') ∨
       (¬ account_conflict s ∧ account_of l (Account_ID a) = None))
  end.

(** A truthful answer tells what the call changed at most. *)
Lemma transfer_answer_change t (l l' : L) r :
  transfer_answer t l l' r → transfers_same l l' ∨ transfer_added t l l'.
Proof. unfold transfer_answer. destruct (TransferResult_Status r); naive_solver. Qed.

Lemma account_answer_change a (l l' : L) r :
  account_answer a l l' r → accounts_same l l' ∨ account_added a l l'.
Proof. unfold account_answer. destruct (AccountResult_Status r); naive_solver. Qed.

Class LedgerContract : Prop := {
  account_key l id a : ledger_wf l → account_of l id = Some a → Account_ID a = id;
  transfer_key l id t : ledger_wf l → transfer_of l id = Some t → Transfer_ID t = id;

  lookup_account_ok l id : ledger_wf l →
    let '(r, l') := Ledger_LookupAccount id l in
    ledger_wf l' ∧ same_view l l' ∧
    match r with
    | inr (a, true) => account_of l id = Some a
    | inr (_, false) => account_of l id = None
    | inl e => foreign e
    end;
  lookup_transfer_ok l id : ledger_wf l →
    let '(r, l') := Ledger_LookupTransfer id l in
    ledger_wf l' ∧ same_view l l' ∧
    match r with
    | inr (t, true) => transfer_of l id = Some t
    | inr (_, false) => transfer_of l id = None
    | inl e => foreign e
    end;
  create_account_ok l a : ledger_wf l →
    let '(r, l') := Ledger_CreateAccount a l in
    ledger_wf l' ∧ transfers_same l l' ∧
    match r with
    | inr r => account_answer a l l' r
    | inl e => foreign e ∧ (accounts_same l l' ∨ account_added a l l')
    end;
  create_transfer_ok l t : ledger_wf l → ordinary t →
    let '(r, l') := Ledger_CreateTransfer t l in
    ledger_wf l' ∧ definitions_same l l' ∧
    match r with
    | inr r => transfer_answer t l l' r
    | inl e => foreign e ∧ (transfers_same l l' ∨ transfer_added t l l')
    end;
}.
End contract.
Arguments LedgerContract {sdk} L {ledger view}.
