(* ===== verification/FakeLedger.v ===== *)
(** * The deterministic test ledger of [internal/service/service_test.go]

    [fakeLedger] is the repository's own implementation of [service.Ledger].  It
    discharges [LedgerContract], and it computes, so that concrete runs of the
    service are evaluated on it. *)
From S2P Require Import Prelude GoBase Domain TigerBeetle TigerBeetleModel LedgerModel Cache Health.
From S2P Require Import Interface Semantics Contract.
Import GoInt GoError.
Local Open Scope Z_scope.

Section fake.
Context {sdk : SDK}.

Record fakeLedger := mkFakeLedger {
  fake_accounts : gmap string Account;
  fake_transfers : gmap string Transfer;
  fake_failed : gmap string bool;
  fake_timestamp : Z;
  fake_failAfterCommit : bool }.

(** [newFakeLedger], started at the clock reading [now]. *)
Definition newFakeLedger (now : Z) : fakeLedger := mkFakeLedger ∅ ∅ ∅ (uint64 now) false.

Definition set_timestamp (a : Account) (ts : Z) : Account :=
  mkAccount (Account_ID a) (Account_DebitsPending a) (Account_DebitsPosted a)
    (Account_CreditsPending a) (Account_CreditsPosted a) (Account_UserData128 a)
    (Account_UserData64 a) (Account_UserData32 a) (Account_Ledger a) (Account_Code a)
    (Account_Flags a) ts.
Definition set_balances (a : Account) (dpe dpo cpe cpo : Uint128) : Account :=
  mkAccount (Account_ID a) dpe dpo cpe cpo (Account_UserData128 a)
    (Account_UserData64 a) (Account_UserData32 a) (Account_Ledger a) (Account_Code a)
    (Account_Flags a) (Account_Timestamp a).
Definition set_transfer_timestamp (t : Transfer) (ts : Z) : Transfer :=
  mkTransfer (Transfer_ID t) (Transfer_DebitAccountID t) (Transfer_CreditAccountID t)
    (Transfer_Amount t) (Transfer_PendingID t) (Transfer_UserData128 t) (Transfer_UserData64 t)
    (Transfer_UserData32 t) (Transfer_Timeout t) (Transfer_Ledger t) (Transfer_Code t)
    (Transfer_Flags t) ts.

(** The comparisons of [CreateAccount] with an existing account. *)
Definition existing_account_status (existing account : Account) : CreateAccountStatus :=
  if negb (Account_Flags existing =? Account_Flags account) then AccountExistsWithDifferentFlags
  else if bool_decide (Account_UserData128 existing ≠ Account_UserData128 account)
  then AccountExistsWithDifferentUserData128
  else if negb (Account_UserData64 existing =? Account_UserData64 account)
  then AccountExistsWithDifferentUserData64
  else if negb (Account_UserData32 existing =? Account_UserData32 account)
  then AccountExistsWithDifferentUserData32
  else if negb (Account_Ledger existing =? Account_Ledger account)
  then AccountExistsWithDifferentLedger
  else if negb (Account_Code existing =? Account_Code account)
  then AccountExistsWithDifferentCode
  else AccountExists.

Definition fakeLedger_CreateAccount (account : Account) (f : fakeLedger) :
    result error CreateAccountResult * fakeLedger :=
  match fake_accounts f !! Uint128_String (Account_ID account) with
  | Some existing =>
      let status := existing_account_status existing account in
      (inr (mkCreateAccountResult
              (if bool_decide (status = AccountExists) then Account_Timestamp existing else 0)
              status), f)
  | None =>
      let timestamp := uint64 (fake_timestamp f + 1) in
      let account := set_timestamp account timestamp in
      (inr (mkCreateAccountResult timestamp AccountCreated),
       mkFakeLedger (<[Uint128_String (Account_ID account) := account]> (fake_accounts f))
         (fake_transfers f) (fake_failed f) timestamp (fake_failAfterCommit f))
  end.

(** The comparisons of [CreateTransfer] with an existing transfer. *)
Definition existing_transfer_status (existing transfer : Transfer) : CreateTransferStatus :=
  if negb (Transfer_Flags existing =? Transfer_Flags transfer) then TransferExistsWithDifferentFlags
  else if negb (Transfer_Timeout existing =? Transfer_Timeout transfer)
  then TransferExistsWithDifferentTimeout
  else if bool_decide (Transfer_DebitAccountID existing ≠ Transfer_DebitAccountID transfer)
  then TransferExistsWithDifferentDebitAccountID
  else if bool_decide (Transfer_CreditAccountID existing ≠ Transfer_CreditAccountID transfer)
  then TransferExistsWithDifferentCreditAccountID
  else if bool_decide (Transfer_Amount existing ≠ Transfer_Amount transfer)
  then TransferExistsWithDifferentAmount
  else if bool_decide (Transfer_UserData128 existing ≠ Transfer_UserData128 transfer)
  then TransferExistsWithDifferentUserData128
  else if negb (Transfer_UserData64 existing =? Transfer_UserData64 transfer)
  then TransferExistsWithDifferentUserData64
  else if negb (Transfer_UserData32 existing =? Transfer_UserData32 transfer)
  then TransferExistsWithDifferentUserData32
  else if bool_decide (Transfer_PendingID existing ≠ Transfer_PendingID transfer)
  then TransferExistsWithDifferentPendingID
  else if negb (Transfer_Ledger existing =? Transfer_Ledger transfer)
  then TransferExistsWithDifferentLedger
  else if negb (Transfer_Code existing =? Transfer_Code transfer)
  then TransferExistsWithDifferentCode
  else TransferExists.

Definition mark_failed (id : Uint128) (f : fakeLedger) : fakeLedger :=
  mkFakeLedger (fake_accounts f) (fake_transfers f) (<[Uint128_String id := true]> (fake_failed f))
    (fake_timestamp f) (fake_failAfterCommit f).

Definition low64 (u : Uint128) : Z := fst (Uint128_Uint64 u).

Definition reject (status : CreateTransferStatus) (f : fakeLedger) :
    result error CreateTransferResult * fakeLedger :=
  (inr (mkCreateTransferResult 0 status), f).

(** The two balances a committed transfer writes back. *)
Definition debited (pending : bool) (debit : Account) (amount : Z) : Account :=
  if pending
  then set_balances debit (ToUint128 (uint64 (low64 (Account_DebitsPending debit) + amount)))
         (Account_DebitsPosted debit) (Account_CreditsPending debit) (Account_CreditsPosted debit)
  else set_balances debit (Account_DebitsPending debit)
         (ToUint128 (uint64 (low64 (Account_DebitsPosted debit) + amount)))
         (Account_CreditsPending debit) (Account_CreditsPosted debit).
Definition credited (pending : bool) (credit : Account) (amount : Z) : Account :=
  if pending
  then set_balances credit (Account_DebitsPending credit) (Account_DebitsPosted credit)
         (ToUint128 (uint64 (low64 (Account_CreditsPending credit) + amount)))
         (Account_CreditsPosted credit)
  else set_balances credit (Account_DebitsPending credit) (Account_DebitsPosted credit)
         (Account_CreditsPending credit)
         (ToUint128 (uint64 (low64 (Account_CreditsPosted credit) + amount))).

(** From [f.timestamp++] to the end of [CreateTransfer]: the state that holds
    the transfer, and the answer, lost once when [failAfterCommit] is set. *)
Definition committed (transfer : Transfer) (debit credit : Account) (amount : Z)
    (f : fakeLedger) : fakeLedger :=
  let timestamp := uint64 (fake_timestamp f + 1) in
  let pending := Pending (TransferFlags_of_Uint16 (Transfer_Flags transfer)) in
  let debit := debited pending debit amount in
  let credit := credited pending credit amount in
  mkFakeLedger
    (<[Uint128_String (Account_ID credit) := credit]>
      (<[Uint128_String (Account_ID debit) := debit]> (fake_accounts f)))
    (<[Uint128_String (Transfer_ID transfer) := set_transfer_timestamp transfer timestamp]>
      (fake_transfers f))
    (fake_failed f) timestamp false.
Definition commit_transfer (transfer : Transfer) (debit credit : Account) (amount : Z)
    (f : fakeLedger) : result error CreateTransferResult * fakeLedger :=
  (if fake_failAfterCommit f then inl (Errorf "simulated response loss")
   else inr (mkCreateTransferResult (uint64 (fake_timestamp f + 1)) TransferCreated),
   committed transfer debit credit amount f).

Definition exceeds_credits (debit : Account) (amount : Z) : bool :=
  DebitsMustNotExceedCredits (AccountFlags_of_Uint16 (Account_Flags debit)) &&
  (low64 (Account_CreditsPosted debit) <?
   uint64 (uint64 (low64 (Account_DebitsPending debit) + low64 (Account_DebitsPosted debit)) + amount)).
Definition exceeds_debits (credit : Account) (amount : Z) : bool :=
  CreditsMustNotExceedDebits (AccountFlags_of_Uint16 (Account_Flags credit)) &&
  (low64 (Account_DebitsPosted credit) <?
   uint64 (uint64 (low64 (Account_CreditsPending credit) + low64 (Account_CreditsPosted credit)) + amount)).

Definition fakeLedger_CreateTransfer (transfer : Transfer) (f : fakeLedger) :
    result error CreateTransferResult * fakeLedger :=
  let id := Transfer_ID transfer in
  if default false (fake_failed f !! Uint128_String id) then reject TransferIDAlreadyFailed f else
  match fake_transfers f !! Uint128_String id with
  | Some existing =>
      let status := existing_transfer_status existing transfer in
      (inr (mkCreateTransferResult
              (if bool_decide (status = TransferExists) then Transfer_Timestamp existing else 0)
              status), f)
  | None =>
  match fake_accounts f !! Uint128_String (Transfer_DebitAccountID transfer) with
  | None => reject TransferDebitAccountNotFound (mark_failed id f)
  | Some debit =>
  match fake_accounts f !! Uint128_String (Transfer_CreditAccountID transfer) with
  | None => reject TransferCreditAccountNotFound (mark_failed id f)
  | Some credit =>
      let '(amount, high) := Uint128_Uint64 (Transfer_Amount transfer) in
      if negb (high =? 0) then reject TransferOverflowsDebits f else
      if exceeds_credits debit amount then reject TransferExceedsCredits (mark_failed id f) else
      if exceeds_debits credit amount then reject TransferExceedsDebits (mark_failed id f) else
      commit_transfer transfer debit credit amount f
  end
  end
  end.

Definition fakeLedger_LookupAccount (id : Uint128) (f : fakeLedger) :
    result error (Account * bool) * fakeLedger :=
  (inr (match fake_accounts f !! Uint128_String id with
        | Some a => (a, true) | None => (Account_zero, false) end), f).
Definition fakeLedger_LookupTransfer (id : Uint128) (f : fakeLedger) :
    result error (Transfer * bool) * fakeLedger :=
  (inr (match fake_transfers f !! Uint128_String id with
        | Some t => (t, true) | None => (Transfer_zero, false) end), f).

#[export] Instance fakeLedger_Ledger : Ledger fakeLedger := {|
  Ledger_CreateAccount := fakeLedger_CreateAccount;
  Ledger_CreateTransfer := fakeLedger_CreateTransfer;
  Ledger_LookupAccount := fakeLedger_LookupAccount;
  Ledger_LookupTransfer := fakeLedger_LookupTransfer |}.

(** Every object is stored under its own id, and a failed id has no transfer. *)
Record fake_wf (f : fakeLedger) : Prop := {
  fwf_accounts k a : fake_accounts f !! k = Some a → k = Uint128_String (Account_ID a);
  fwf_transfers k t : fake_transfers f !! k = Some t → k = Uint128_String (Transfer_ID t);
  fwf_failed k : fake_failed f !! k = Some true → fake_transfers f !! k = None }.

#[export] Instance fakeLedger_View : LedgerView fakeLedger := {|
  account_of f id := fake_accounts f !! Uint128_String id;
  transfer_of f id := fake_transfers f !! Uint128_String id;
  ledger_wf := fake_wf |}.
End fake.

(** ** The test ledger honours the contract *)
Section fake_contract.
Context {sdk : SDK} {laws : SDKLaws sdk}.
Implicit Types (f : fakeLedger) (a : Account) (t : Transfer).

Lemma existing_account_spec existing a :
  Account_ID existing = Account_ID a →
  let s := existing_account_status existing a in
  (s = AccountExists ∧ same_definition a existing) ∨
  (account_conflict s ∧ ¬ same_definition a existing).
Proof.
  intros Hid. cbn zeta. unfold existing_account_status, account_conflict.
  repeat match goal with
  | |- context [negb (?x =? ?y)] => destruct (Z.eqb_spec x y) as [?|?]; cbn [negb]
  | |- context [bool_decide ?P] => case_bool_decide
  end;
    first [left; split; [done|]; split; congruence
          |right; split; [set_solver|]; intros []; congruence].
Qed.

Lemma existing_transfer_spec existing t :
  Transfer_ID existing = Transfer_ID t →
  let s := existing_transfer_status existing t in
  (s = TransferExists ∧ same_payload t existing) ∨
  (s = TransferExistsWithDifferentTimeout ∧ ¬ same_payload t existing) ∨
  (transfer_conflict s ∧ s ≠ TransferExistsWithDifferentTimeout ∧ ¬ same_but_timeout t existing).
Proof.
  intros Hid. cbn zeta. unfold existing_transfer_status, transfer_conflict.
  repeat match goal with
  | |- context [negb (?x =? ?y)] => destruct (Z.eqb_spec x y) as [?|?]; cbn [negb]
  | |- context [bool_decide ?P] => case_bool_decide
  end;
    first [left; split; [done|]; split; [split; congruence|congruence]
          |right; left; split; [done|]; intros [[] ?]; congruence
          |right; right; split; [set_solver|]; split; [done|]; intros []; congruence].
Qed.

Lemma account_answer_conflict a f f' r :
  account_conflict (AccountResult_Status r) → accounts_same f f' →
  (∃ a', account_of f (Account_ID a) = Some a' ∧ ¬ same_definition a a') →
  account_answer a f f' r.
Proof.
  unfold account_answer. intros Hc Hs Ha.
  destruct (AccountResult_Status r); try (split; [done|by left]);
    unfold account_conflict in Hc; set_solver.
Qed.

Lemma transfer_answer_conflict t f f' r :
  transfer_conflict (TransferResult_Status r) →
  TransferResult_Status r ≠ TransferExistsWithDifferentTimeout → transfers_same f f' →
  (∃ t', transfer_of f (Transfer_ID t) = Some t' ∧ ¬ same_but_timeout t t') →
  transfer_answer t f f' r.
Proof.
  unfold transfer_answer. intros Hc Hto Hs Ht.
  destruct (TransferResult_Status r); try (split; [done|by left]); try done;
    unfold transfer_conflict in Hc; set_solver.
Qed.

Lemma transfer_answer_rejected t f f' status :
  status ∈ [TransferIDAlreadyFailed; TransferDebitAccountNotFound; TransferCreditAccountNotFound;
            TransferOverflowsDebits; TransferExceedsCredits; TransferExceedsDebits] →
  transfers_same f f' → transfer_of f (Transfer_ID t) = None →
  transfer_answer t f f' (mkCreateTransferResult 0 status).
Proof.
  intros Hs Hsame Hnone. unfold transfer_answer. cbn [TransferResult_Status].
  repeat (apply elem_of_cons in Hs as [->|Hs];
    [split; [done|right; split; [unfold transfer_conflict; set_solver|done]]|]).
  by apply elem_of_nil in Hs.
Qed.

(** The views of an updated map. *)
Lemma key_inj {V} (m : gmap string V) (id id' : Uint128) v :
  id' ≠ id → <[Uint128_String id := v]> m !! Uint128_String id' = m !! Uint128_String id'.
Proof. intros H. apply lookup_insert_ne. intros Heq. by apply H, Uint128_String_inj. Qed.

Lemma fake_create_account_ok f a :
  fake_wf f →
  let '(r, f') := fakeLedger_CreateAccount a f in
  fake_wf f' ∧ transfers_same f f' ∧
  match r with
  | inr r => account_answer a f f' r
  | inl e => foreign e ∧ (accounts_same f f' ∨ account_added a f f')
  end.
Proof.
  intros Hwf. unfold fakeLedger_CreateAccount.
  destruct (fake_accounts f !! _) as [existing|] eqn:E.
  - split_and!; [done|done|].
    assert (Account_ID existing = Account_ID a) as Hid.
    { apply Uint128_String_inj. symmetry. by apply (fwf_accounts _ Hwf). }
    destruct (existing_account_spec existing a Hid) as [[Hs Hd]|[Hc Hd]].
    + rewrite Hs. split; [done|]. by exists existing.
    + apply account_answer_conflict; [done|done|]. by exists existing.
  - split_and!; cbn.
    + split; cbn; [|apply Hwf..].
      intros k b [[<- <-]|[_ H]]%lookup_insert_Some; [done|by apply Hwf].
    + done.
    + split_and!; cbn; [done| |].
      * eexists. rewrite lookup_insert_eq. split; [done|]. by split.
      * intros id Hne. by apply key_inj.
Qed.

Lemma mark_failed_wf f id :
  fake_wf f → fake_transfers f !! Uint128_String id = None → fake_wf (mark_failed id f).
Proof.
  intros [Ha Ht Hf] Hnone. split; cbn; [done|done|].
  intros k [[<- _]|[_ H]]%lookup_insert_Some; [done|by apply Hf].
Qed.

(** Account maps with the same definitions. *)
Definition same_def_ts (a a' : Account) : Prop :=
  same_definition a a' ∧ Account_Timestamp a = Account_Timestamp a'.
Definition defs_rel (m m' : gmap string Account) : Prop :=
  ∀ k, option_relation same_def_ts (λ _, False) (λ _, False) (m !! k) (m' !! k).

Lemma defs_rel_refl m : defs_rel m m.
Proof. intros k. destruct (m !! k); cbn; [|done]. by split. Qed.

Lemma defs_rel_insert m m' k a a' :
  defs_rel m m' → m !! k = Some a → same_def_ts a a' → defs_rel m (<[k := a']> m').
Proof.
  intros H Hk Ha k'. destruct (decide (k' = k)) as [->|Hne].
  - by rewrite lookup_insert_eq, Hk.
  - by rewrite lookup_insert_ne.
Qed.

Lemma debited_def pending a amount : same_def_ts a (debited pending a amount).
Proof. by destruct pending. Qed.
Lemma credited_def pending a amount : same_def_ts a (credited pending a amount).
Proof. by destruct pending. Qed.

Lemma committed_defs t debit credit amount f :
  fake_wf f →
  fake_accounts f !! Uint128_String (Transfer_DebitAccountID t) = Some debit →
  fake_accounts f !! Uint128_String (Transfer_CreditAccountID t) = Some credit →
  defs_rel (fake_accounts f) (fake_accounts (committed t debit credit amount f)).
Proof.
  intros Hwf Hd Hc. unfold committed. cbn [fake_accounts]. set (pending := Pending _).
  pose proof (debited_def pending debit amount) as Hdd.
  pose proof (credited_def pending credit amount) as Hcc.
  rewrite <- (sd_id _ _ (proj1 Hdd)), <- (sd_id _ _ (proj1 Hcc)).
  pose proof (fwf_accounts _ Hwf _ _ Hd) as Hkd. pose proof (fwf_accounts _ Hwf _ _ Hc) as Hkc.
  rewrite Hkd in Hd. rewrite Hkc in Hc.
  eapply defs_rel_insert; [|exact Hc|done]. eapply defs_rel_insert; [|exact Hd|done].
  apply defs_rel_refl.
Qed.

Lemma committed_wf t debit credit amount f :
  fake_wf f → fake_failed f !! Uint128_String (Transfer_ID t) ≠ Some true →
  fake_wf (committed t debit credit amount f).
Proof.
  intros [Ha Ht Hf] Hnf. split; cbn.
  - intros k a [[<- <-]|[_ [[<- <-]|[_ H]]%lookup_insert_Some]]%lookup_insert_Some; [done..|].
    by apply Ha.
  - intros k u [[<- <-]|[_ H]]%lookup_insert_Some; [done|by apply Ht].
  - intros k Hk. rewrite lookup_insert_ne; [by apply Hf|]. intros <-. done.
Qed.

Lemma committed_added t debit credit amount f :
  fake_transfers f !! Uint128_String (Transfer_ID t) = None →
  transfer_added t f (committed t debit credit amount f) ∧
  ∃ t', transfer_of (committed t debit credit amount f) (Transfer_ID t) = Some t' ∧
    stamped t (uint64 (fake_timestamp f + 1)) t'.
Proof.
  intros Hnone.
  assert (transfer_of (committed t debit credit amount f) (Transfer_ID t) =
          Some (set_transfer_timestamp t (uint64 (fake_timestamp f + 1)))) as Hnew
    by (cbn; by rewrite lookup_insert_eq).
  split; [split_and!; [done| |]|].
  - eexists. split; [done|]. by split.
  - intros id Hne. cbn. by apply key_inj.
  - eexists. split; [done|]. by split.
Qed.

Lemma loss_foreign : foreign (Errorf "simulated response loss").
Proof. intros target. rewrite !elem_of_cons, elem_of_nil. naive_solver. Qed.

Definition fake_transfer_spec f t (out : result error CreateTransferResult * fakeLedger) : Prop :=
  fake_wf (snd out) ∧ definitions_same f (snd out) ∧
  match fst out with
  | inr r => transfer_answer t f (snd out) r
  | inl e => foreign e ∧ (transfers_same f (snd out) ∨ transfer_added t f (snd out))
  end.

Lemma reject_spec f f' t status :
  status ∈ [TransferIDAlreadyFailed; TransferDebitAccountNotFound; TransferCreditAccountNotFound;
            TransferOverflowsDebits; TransferExceedsCredits; TransferExceedsDebits] →
  fake_transfers f !! Uint128_String (Transfer_ID t) = None →
  fake_wf f' → fake_accounts f' = fake_accounts f → fake_transfers f' = fake_transfers f →
  fake_transfer_spec f t (reject status f').
Proof.
  intros Hs Hnone Hwf Ha Ht. split_and!; cbn [fst snd reject]; [done| |].
  - intros id. cbn. rewrite Ha. apply defs_rel_refl.
  - apply transfer_answer_rejected; [done| |done]. intros id. cbn. by rewrite Ht.
Qed.

Lemma fake_create_transfer_ok f t :
  fake_wf f → fake_transfer_spec f t (fakeLedger_CreateTransfer t f).
Proof.
  intros Hwf. unfold fakeLedger_CreateTransfer.
  destruct (default false (fake_failed f !! _)) eqn:Hfailed.
  { assert (fake_failed f !! Uint128_String (Transfer_ID t) = Some true) as Hf
      by (destruct (fake_failed f !! _) as [[]|]; done).
    apply reject_spec; [set_solver|by apply Hwf|done..]. }
  destruct (fake_transfers f !! _) as [existing|] eqn:Hex.
  { split_and!; cbn [fst snd]; [done|intros id; apply defs_rel_refl|].
    assert (Transfer_ID existing = Transfer_ID t) as Hid.
    { apply Uint128_String_inj. symmetry. by apply (fwf_transfers _ Hwf). }
    destruct (existing_transfer_spec existing t Hid) as [[Hs Hd]|[[Hs Hd]|(Hc & Hto & Hd)]].
    - rewrite Hs. split; [done|]. exists existing. done.
    - rewrite Hs. split; [done|]. by exists existing.
    - apply transfer_answer_conflict; [done..|]. by exists existing. }
  pose proof (mark_failed_wf f (Transfer_ID t) Hwf Hex) as Hmark.
  destruct (fake_accounts f !! Uint128_String (Transfer_DebitAccountID t)) as [debit|] eqn:Hd;
    [|apply reject_spec; [set_solver|done..]].
  destruct (fake_accounts f !! Uint128_String (Transfer_CreditAccountID t)) as [credit|] eqn:Hc;
    [|apply reject_spec; [set_solver|done..]].
  destruct (Uint128_Uint64 (Transfer_Amount t)) as [amount high].
  destruct (negb (high =? 0)); [apply reject_spec; [set_solver|done..]|].
  destruct (exceeds_credits debit amount); [apply reject_spec; [set_solver|done..]|].
  destruct (exceeds_debits credit amount); [apply reject_spec; [set_solver|done..]|].
  destruct (committed_added t debit credit amount f Hex) as [Hadd Hstamp].
  split_and!; cbn [fst snd commit_transfer].
  - apply committed_wf; [done|]. intros Heq. by rewrite Heq in Hfailed.
  - intros id. by apply committed_defs.
  - destruct (fake_failAfterCommit f); [|done]. split; [by apply loss_foreign|by right].
Qed.

#[export] Instance fakeLedger_Contract : LedgerContract fakeLedger.
Proof.
  split; cbn.
  - intros f id a Hwf H. apply Uint128_String_inj. symmetry. by apply (fwf_accounts _ Hwf).
  - intros f id t Hwf H. apply Uint128_String_inj. symmetry. by apply (fwf_transfers _ Hwf).
  - intros f id Hwf. split_and!; [done|done|]. by destruct (fake_accounts f !! _).
  - intros f id Hwf. split_and!; [done|done|]. by destruct (fake_transfers f !! _).
  - intros f a Hwf. by apply fake_create_account_ok.
  - intros f t Hwf _. pose proof (fake_create_transfer_ok f t Hwf) as H.
    unfold fake_transfer_spec in H. by destruct (fakeLedger_CreateTransfer t f).
Qed.

Lemma newFakeLedger_wf now : fake_wf (newFakeLedger now).
Proof. split; cbn; intros ??; rewrite lookup_empty; try done. Qed.
End fake_contract.

(** C40: The repository's test ledger is a ledger.  The deterministic
    [fakeLedger] of the service tests honours the contract the service is
    verified against: immutable definitions, one transfer per id, truthful
    answers, and an answer lost after a commit; and its answers to transfers are
    truthful whatever their flags. *)
Theorem fake_ledger_honours_the_contract {sdk : SDK} {laws : SDKLaws sdk} :
  LedgerContract fakeLedger ∧
  ∀ f t, fake_wf f → fake_transfer_spec f t (fakeLedger_CreateTransfer t f).
Proof. split; [apply fakeLedger_Contract|apply fake_create_transfer_ok]. Qed.
Lemma fake_ledger_honours_the_contract_witness : LedgerContract (sdk := ModelSDK) fakeLedger.
Proof. apply (proj1 (fake_ledger_honours_the_contract (laws := ModelSDK_laws))). Defined.
