(* ===== verification/Client.v ===== *)
(** * [internal/ledger/client.go]: the adapter to the batch SDK

    [tb.Client] takes and answers batches; [ledger.Client] submits batches of one
    and turns the answer into the single result of [service.Ledger].  The SDK's
    client is the parameter [BatchClient]; [BatchContract] states what its
    documentation promises: the events of a batch are executed in their order,
    a creation has one result per event, a lookup the objects it found.
    [Client_Contract] shows that the adapter then honours the contract the
    service is verified against, and [sequential_contract] that any ledger whose
    batches are executed one event after the other is such a client. *)
From stdpp Require Import pretty.
From S2P Require Import Prelude GoBase Domain TigerBeetle TigerBeetleModel LedgerModel Cache Health.
From S2P Require Import Interface Semantics Contract FakeLedger.
Import GoError.
Local Open Scope Z_scope.

(** [tb.Client]: a state, and the four batch calls the adapter uses. *)
Class BatchClient {sdk : SDK} (B : Type) := {
  tb_CreateAccounts : list Account → B → result error (list CreateAccountResult) * B;
  tb_CreateTransfers : list Transfer → B → result error (list CreateTransferResult) * B;
  tb_LookupAccounts : list Uint128 → B → result error (list Account) * B;
  tb_LookupTransfers : list Uint128 → B → result error (list Transfer) * B;
}.

Section client.
Context {sdk : SDK} {B : Type} {batch : BatchClient B}.

(** [Client]: the struct holds the SDK's client. *)
Record Client := mkClient { client : B }.

(** [NewClient], given what [tb.NewClient] answered. *)
Definition NewClient (created : result error B) : result error Client :=
  match created with
  | inl err => inl (wrap_prefix "initialize TigerBeetle client: " err)
  | inr b => inr (mkClient b)
  end.

(** [fmt.Errorf("...: expected ..., received %d", len(results))] *)
Definition received {A} (prefix : string) (results : list A) : error :=
  Errorf (prefix +:+ pretty (Z.of_nat (length results))).

Definition Client_CreateAccount (account : Account) (c : Client) :
    result error CreateAccountResult * Client :=
  let '(r, b) := tb_CreateAccounts [account] (client c) in
  (match r with
   | inl err => inl (wrap_prefix "create account: " err)
   | inr [result] => inr result
   | inr results => inl (received "create account: expected 1 result, received " results)
   end, mkClient b).

Definition Client_CreateTransfer (transfer : Transfer) (c : Client) :
    result error CreateTransferResult * Client :=
  let '(r, b) := tb_CreateTransfers [transfer] (client c) in
  (match r with
   | inl err => inl (wrap_prefix "create transfer: " err)
   | inr [result] => inr result
   | inr results => inl (received "create transfer: expected 1 result, received " results)
   end, mkClient b).

Definition Client_LookupAccount (id : Uint128) (c : Client) : result error (Account * bool) * Client :=
  let '(r, b) := tb_LookupAccounts [id] (client c) in
  (match r with
   | inl err => inl (wrap_prefix "lookup account: " err)
   | inr [] => inr (Account_zero, false)
   | inr [account] => inr (account, true)
   | inr accounts => inl (received "lookup account: expected at most 1 account, received " accounts)
   end, mkClient b).

Definition Client_LookupTransfer (id : Uint128) (c : Client) : result error (Transfer * bool) * Client :=
  let '(r, b) := tb_LookupTransfers [id] (client c) in
  (match r with
   | inl err => inl (wrap_prefix "lookup transfer: " err)
   | inr [] => inr (Transfer_zero, false)
   | inr [transfer] => inr (transfer, true)
   | inr transfers => inl (received "lookup transfer: expected at most 1 transfer, received " transfers)
   end, mkClient b).

#[export] Instance Client_Ledger : Ledger Client := {|
  Ledger_CreateAccount := Client_CreateAccount;
  Ledger_CreateTransfer := Client_CreateTransfer;
  Ledger_LookupAccount := Client_LookupAccount;
  Ledger_LookupTransfer := Client_LookupTransfer |}.

(** ** What the SDK promises of a batch *)

Context {view : LedgerView B}.

(** The events of a batch are executed in order, each with its result. *)
Inductive answered {Cmd Res} (step : Cmd → B → B → Res → Prop) : B → list Cmd → list Res → B → Prop :=
| answered_nil b : answered step b [] [] b
| answered_cons b b1 b2 cmd cmds r rs :
    step cmd b b1 r → answered step b1 cmds rs b2 → answered step b (cmd :: cmds) (r :: rs) b2.

(** A batch whose answer is lost may have been executed up to some event. *)
Inductive applied {Cmd} (change : Cmd → B → B → Prop) : B → list Cmd → B → Prop :=
| applied_stop b cmds : applied change b cmds b
| applied_cons b b1 b2 cmd cmds :
    change cmd b b1 → applied change b1 cmds b2 → applied change b (cmd :: cmds) b2.

Definition account_step (a : Account) (b b' : B) (r : CreateAccountResult) : Prop :=
  transfers_same b b' ∧ account_answer a b b' r.
Definition account_change (a : Account) (b b' : B) : Prop :=
  transfers_same b b' ∧ (accounts_same b b' ∨ account_added a b b').
Definition transfer_step (t : Transfer) (b b' : B) (r : CreateTransferResult) : Prop :=
  definitions_same b b' ∧ transfer_answer t b b' r.
Definition transfer_change (t : Transfer) (b b' : B) : Prop :=
  definitions_same b b' ∧ (transfers_same b b' ∨ transfer_added t b b').

Class BatchContract : Prop := {
  batch_account_key b id a : ledger_wf b → account_of b id = Some a → Account_ID a = id;
  batch_transfer_key b id t : ledger_wf b → transfer_of b id = Some t → Transfer_ID t = id;
  batch_lookup_accounts b ids : ledger_wf b →
    let '(r, b') := tb_LookupAccounts ids b in
    ledger_wf b' ∧ same_view b b' ∧
    match r with inl e => foreign e | inr found => found = omap (account_of b) ids end;
  batch_lookup_transfers b ids : ledger_wf b →
    let '(r, b') := tb_LookupTransfers ids b in
    ledger_wf b' ∧ same_view b b' ∧
    match r with inl e => foreign e | inr found => found = omap (transfer_of b) ids end;
  batch_create_accounts b accounts : ledger_wf b →
    let '(r, b') := tb_CreateAccounts accounts b in
    ledger_wf b' ∧
    match r with
    | inl e => foreign e ∧ applied account_change b accounts b'
    | inr results => answered account_step b accounts results b'
    end;
  batch_create_transfers b transfers : ledger_wf b → Forall ordinary transfers →
    let '(r, b') := tb_CreateTransfers transfers b in
    ledger_wf b' ∧
    match r with
    | inl e => foreign e ∧ applied transfer_change b transfers b'
    | inr results => answered transfer_step b transfers results b'
    end;
}.

(** The adapter shows the cluster as the SDK's client does. *)
#[export] Instance Client_View : LedgerView Client := {|
  account_of c id := account_of (client c) id;
  transfer_of c id := transfer_of (client c) id;
  ledger_wf c := ledger_wf (client c) |}.

Lemma foreign_wrap prefix e : foreign e → foreign (wrap_prefix prefix e).
Proof.
  intros He target Hin. unfold wrap_prefix. cbn [Is]. rewrite (He target Hin), orb_false_r.
  apply bool_decide_eq_false. intros <-. revert Hin. rewrite !elem_of_cons, elem_of_nil. naive_solver.
Qed.

Lemma answered_one {Cmd Res} (step : Cmd → B → B → Res → Prop) b cmd rs b' :
  answered step b [cmd] rs b' → ∃ r, rs = [r] ∧ step cmd b b' r.
Proof.
  inversion 1 as [|? ? ? ? ? r ? Hs Hrest]; subst. inversion Hrest; subst. by exists r.
Qed.
Lemma applied_one {Cmd} (change : Cmd → B → B → Prop) b cmd b' :
  change cmd b b → applied change b [cmd] b' → change cmd b b'.
Proof.
  intros Hrefl. inversion 1 as [|? ? ? ? ? Hc Hrest]; subst; [done|]. by inversion Hrest; subst.
Qed.
Lemma account_change_refl a b : account_change a b b.
Proof. split; [done|by left]. Qed.
Lemma definitions_same_refl (b : B) : definitions_same b b.
Proof. intros id. destruct (account_of b id); cbn; [|done]. by split. Qed.
Lemma transfer_change_refl t b : transfer_change t b b.
Proof. split; [apply definitions_same_refl|by left]. Qed.

Context {contract : BatchContract}.

#[export] Instance Client_Contract : LedgerContract Client.
Proof.
  split.
  - intros [b] id a. apply batch_account_key.
  - intros [b] id t. apply batch_transfer_key.
  - intros [b] id Hwf. cbn. unfold Client_LookupAccount. cbn [client].
    pose proof (batch_lookup_accounts b [id] Hwf) as H. destruct (tb_LookupAccounts [id] b) as [r b'].
    destruct H as (Hwf' & Hv & Hr). split_and!; [done|exact Hv|].
    destruct r as [e|found]; [by apply foreign_wrap|]. subst. cbn. by destruct (account_of b id).
  - intros [b] id Hwf. cbn. unfold Client_LookupTransfer. cbn [client].
    pose proof (batch_lookup_transfers b [id] Hwf) as H. destruct (tb_LookupTransfers [id] b) as [r b'].
    destruct H as (Hwf' & Hv & Hr). split_and!; [done|exact Hv|].
    destruct r as [e|found]; [by apply foreign_wrap|]. subst. cbn. by destruct (transfer_of b id).
  - intros [b] a Hwf. cbn. unfold Client_CreateAccount. cbn [client].
    pose proof (batch_create_accounts b [a] Hwf) as H. destruct (tb_CreateAccounts [a] b) as [r b'].
    destruct H as (Hwf' & H). destruct r as [e|rs].
    + destruct H as [He [Ht Hc]%(applied_one _ _ _ _ (account_change_refl a b))].
      split_and!; [done|exact Ht|by apply foreign_wrap|exact Hc].
    + destruct (answered_one _ _ _ _ _ H) as (r & -> & Ht & Hr). by split_and!.
  - intros [b] t Hwf Hord. cbn. unfold Client_CreateTransfer. cbn [client].
    pose proof (batch_create_transfers b [t] Hwf (Forall_cons_2 _ _ _ Hord (Forall_nil_2 _))) as H. destruct (tb_CreateTransfers [t] b) as [r b'].
    destruct H as (Hwf' & H). destruct r as [e|rs].
    + destruct H as [He [Ht Hc]%(applied_one _ _ _ _ (transfer_change_refl t b))].
      split_and!; [done|exact Ht|by apply foreign_wrap|exact Hc].
    + destruct (answered_one _ _ _ _ _ H) as (r & -> & Ht & Hr). by split_and!.
Qed.
End client.
Arguments Client B : clear implicits.
Arguments BatchContract {sdk} B {batch view}.

(** ** A batch client over a ledger: one event after the other *)
Section sequential.
Context {sdk : SDK} {L : Type} {ledger : Ledger L} {view : LedgerView L}.

(** The first failing event ends the batch without an answer. *)
Fixpoint run_batch {Cmd Res} (f : Cmd → L → result error Res * L) (cmds : list Cmd) (l : L) :
    result error (list Res) * L :=
  match cmds with
  | [] => (inr [], l)
  | cmd :: cmds =>
      match f cmd l with
      | (inl e, l1) => (inl e, l1)
      | (inr r, l1) =>
          match run_batch f cmds l1 with
          | (inl e, l2) => (inl e, l2)
          | (inr rs, l2) => (inr (r :: rs), l2)
          end
      end
  end.

(** Lookups report the objects found, in the order of the ids. *)
Definition found_only {A} (r : result error (list (A * bool))) : result error (list A) :=
  match r with
  | inl e => inl e
  | inr rs => inr (omap (λ x : A * bool, if snd x then Some (fst x) else None) rs)
  end.

Definition sequential_batch : BatchClient L := {|
  tb_CreateAccounts := run_batch Ledger_CreateAccount;
  tb_CreateTransfers := run_batch Ledger_CreateTransfer;
  tb_LookupAccounts ids l :=
    let '(r, l') := run_batch Ledger_LookupAccount ids l in (found_only r, l');
  tb_LookupTransfers ids l :=
    let '(r, l') := run_batch Ledger_LookupTransfer ids l in (found_only r, l') |}.

Context {contract : LedgerContract L}.

Lemma run_batch_creates {Cmd Res} (P : Cmd → Prop) (f : Cmd → L → result error Res * L)
    (step : Cmd → L → L → Res → Prop) (change : Cmd → L → L → Prop) :
  (∀ cmd l, P cmd → ledger_wf l → let '(r, l') := f cmd l in ledger_wf l' ∧
     match r with inl e => foreign e ∧ change cmd l l' | inr r => step cmd l l' r ∧ change cmd l l' end) →
  ∀ cmds l, Forall P cmds → ledger_wf l → let '(r, l') := run_batch f cmds l in ledger_wf l' ∧
     match r with inl e => foreign e ∧ applied change l cmds l' | inr rs => answered step l cmds rs l' end.
Proof.
  intros Hf cmds. induction cmds as [|cmd cmds IH]; intros l HP Hwf; cbn.
  { split; [done|constructor]. }
  apply Forall_cons in HP as [HPcmd HP].
  pose proof (Hf cmd l HPcmd Hwf) as H. destruct (f cmd l) as [[e|r] l1]; destruct H as (Hwf1 & H1 & Hc).
  { split_and!; [done..|]. econstructor; [exact Hc|constructor]. }
  pose proof (IH l1 HP Hwf1) as H2. destruct (run_batch f cmds l1) as [[e|rs] l2]; destruct H2 as [Hwf2 H2].
  - destruct H2 as [He Ha]. split_and!; [done..|]. by econstructor.
  - split; [done|]. by econstructor.
Qed.

Lemma run_batch_lookups {A} (f : Uint128 → L → result error (A * bool) * L) (get : L → Uint128 → option A) :
  (∀ l l', same_view l l' → ∀ id, get l' id = get l id) →
  (∀ id l, ledger_wf l → let '(r, l') := f id l in ledger_wf l' ∧ same_view l l' ∧
     match r with
     | inr (a, true) => get l id = Some a | inr (_, false) => get l id = None | inl e => foreign e end) →
  ∀ ids l, ledger_wf l →
  let '(r, l') := (let '(r, l') := run_batch f ids l in (found_only r, l')) in
  ledger_wf l' ∧ same_view l l' ∧ match r with inl e => foreign e | inr found => found = omap (get l) ids end.
Proof.
  intros Hget Hf ids. induction ids as [|id ids IH]; intros l Hwf; cbn.
  { done. }
  pose proof (Hf id l Hwf) as H. destruct (f id l) as [[e|[a b]] l1]; destruct H as (Hwf1 & Hv & H1).
  { done. }
  pose proof (IH l1 Hwf1) as H2. destruct (run_batch f ids l1) as [[e|rs] l2];
    destruct H2 as (Hwf2 & Hv2 & H2); cbn [found_only] in *.
  all: split_and!; [done|split; intros i; [rewrite (proj1 Hv2)|rewrite (proj2 Hv2)]; apply Hv|].
  { done. }
  assert (omap (get l1) ids = omap (get l) ids) as Heq.
  { clear -Hget Hv. induction ids as [|i ids IH]; cbn; [done|]. by rewrite (Hget _ _ Hv), IH. }
  rewrite <- Heq, <- H2. destruct b; cbn; by rewrite H1.
Qed.

Lemma sequential_contract : BatchContract (batch := sequential_batch) L.
Proof.
  split; cbn.
  - apply account_key.
  - apply transfer_key.
  - intros b ids Hwf. apply run_batch_lookups; [|intros; by apply lookup_account_ok|done].
    intros ?? [H _]. exact H.
  - intros b ids Hwf. apply run_batch_lookups; [|intros; by apply lookup_transfer_ok|done].
    intros ?? [_ H]. exact H.
  - intros b accounts Hwf. apply (run_batch_creates (λ _, True)); [|by apply Forall_true|done].
    clear -contract. intros a l _ Hwf.
    pose proof (create_account_ok l a Hwf) as H. destruct (Ledger_CreateAccount a l) as [[e|r] l'].
    + destruct H as (? & ? & ? & ?). by split_and!.
    + destruct H as (? & ? & ?). split_and!; [done|by split|split; [done|by eapply account_answer_change]].
  - intros b transfers Hwf Hord. apply (run_batch_creates ordinary); [|done..].
    clear -contract. intros t l Hord Hwf. pose proof (create_transfer_ok l t Hwf Hord) as H. destruct (Ledger_CreateTransfer t l) as [[e|r] l'].
    + destruct H as (? & ? & ? & ?). by split_and!.
    + destruct H as (? & ? & ?). split_and!; [done|by split|split; [done|by eapply transfer_answer_change]].
Qed.
End sequential.

(** C27: The TigerBeetle adapter is a ledger.  When the SDK executes the events of a
    batch in their order and answers a creation by one result per event and a
    lookup by the objects found, [ledger.Client], which submits batches of one,
    honours the contract the service is verified against: in particular a
    missing object is [false] without an error, an error is passed on without
    turning into one of the service's own, and no answer is made up. *)
Theorem client_honours_the_contract {sdk : SDK} {B : Type} {batch : BatchClient B} {view : LedgerView B}
    (contract : BatchContract B) :
  LedgerContract (Client B).
Proof. apply Client_Contract. Qed.

Lemma client_honours_the_contract_witness :
  BatchContract (sdk := ModelSDK) (batch := sequential_batch) fakeLedger ∧
  LedgerContract (ledger := Client_Ledger (sdk := ModelSDK) (batch := sequential_batch))
    (Client (fakeLedger (sdk := ModelSDK))).
Proof.
  pose proof (sequential_contract (contract := fakeLedger_Contract (laws := ModelSDK_laws))) as H.
  split; [exact H|exact (client_honours_the_contract (sdk := ModelSDK) (batch := sequential_batch) H)].
Defined.

(** An answer with an unexpected number of results is an error, whatever the SDK
    put in it. *)
Lemma unexpected_results_are_errors {sdk : SDK} {B} {batch : BatchClient B} account (c : Client B) results b' :
  tb_CreateAccounts [account] (client c) = (inr results, b') → length results ≠ 1%nat →
  Client_CreateAccount account c =
    (inl (received "create account: expected 1 result, received " results), mkClient b').
Proof. intros E Hl. unfold Client_CreateAccount. rewrite E. by destruct results as [|? [|]]. Qed.
