(* ===== verification/Service.v ===== *)
(** * [internal/service/service.go]

    The service's configuration, the validation of public identifiers, account
    creation, balances and the metadata of accounts. *)
From stdpp Require Import pretty.
From S2P Require Import Prelude GoBase Domain TigerBeetle LedgerModel Cache Health Interface.
Import GoInt GoError GoTime.
Local Open Scope Z_scope.
Local Open Scope prog_scope.

(** The immutable fields of [Service]; [metrics] is whether the field is
    non-nil.  The mutable objects it points to are in [World]. *)
Record Service := mkService {
  ledgerID : Z;
  authorizationTimeout : Duration;
  riskDelay : Duration;
  riskLimitCents : Z;
  metrics : bool }.

(** [fmt.Errorf("%w: " + msg, domain.ErrInvalidRequest)] *)
Definition invalid (msg : string) : error := wrap_suffix ErrInvalidRequest (": " +:+ msg).

Section service.
Context {sdk : SDK}.

(** [New]: the service, its cache and its call tracker. *)
Definition round_timeout (timeout : Duration) : Duration :=
  dmul (ddiv (dsub (dadd timeout Second) 1) Second) Second.
Definition New (ledger_id : Z) (timeout delay : Duration) (limit : Z) (stall : Duration)
    (cacheSize : Z) (hasMetrics : bool) : Service * metadataCache * observedLedger :=
  (mkService ledger_id (round_timeout timeout) delay limit hasMetrics,
   newMetadataCache cacheSize, newObservedLedger stall).

(** ** Identifiers *)

Definition validateExternalID (field value : string) : result error unit :=
  if decide (GoStrings.TrimSpace value = "") then
    inl (invalid (field +:+ " is required"))
  else if decide (value ≠ GoStrings.TrimSpace value) then
    inl (invalid (field +:+ " must not have surrounding whitespace"))
  else if (200 <? Z.of_nat (String.length value)) then
    inl (invalid (field +:+ " must not exceed 200 bytes"))
  else inr tt.

Definition isUint128Max (id : Uint128) : bool := forallb (λ b, b =? 255) (Uint128_Bytes id).

Definition parsePublicTigerBeetleID (value : string) : result error Uint128 :=
  match HexStringToUint128 value with
  | inl _ => inl (Errorf "invalid TigerBeetle ID")
  | inr id =>
      if bool_decide (id = Uint128_zero) || isUint128Max id
      then inl (Errorf "invalid TigerBeetle ID") else inr id
  end.

Definition requestID (value : string) : result error Uint128 :=
  match validateExternalID "request_id" value with
  | inl err => inl err
  | inr _ =>
      match parsePublicTigerBeetleID value with
      | inl _ => inl (invalid "request_id must be a non-zero 128-bit hexadecimal TigerBeetle ID")
      | inr id => inr id
      end
  end.

Definition accountID (field value : string) : result error Uint128 :=
  match validateExternalID field value with
  | inl err => inl err
  | inr _ =>
      let rejected := inl (invalid (field +:+
        " must be a non-zero 128-bit hexadecimal TigerBeetle ID outside the reserved system range")) in
      match parsePublicTigerBeetleID value with
      | inl _ => rejected
      | inr id => if IsSystemAccountID id then rejected else inr id
      end
  end.

Definition publicID (id : Uint128) : string :=
  if decide (id = Uint128_zero) then "" else Uint128_String id.

(** ** Status classification *)

Definition isIdempotencyConflict (status : CreateTransferStatus) : bool :=
  match status with
  | TransferExistsWithDifferentFlags
  | TransferExistsWithDifferentPendingID
  | TransferExistsWithDifferentTimeout
  | TransferExistsWithDifferentDebitAccountID
  | TransferExistsWithDifferentCreditAccountID
  | TransferExistsWithDifferentAmount
  | TransferExistsWithDifferentUserData128
  | TransferExistsWithDifferentUserData64
  | TransferExistsWithDifferentUserData32
  | TransferExistsWithDifferentLedger
  | TransferExistsWithDifferentCode => true
  | _ => false
  end.

Definition isAccountIdempotencyConflict (status : CreateAccountStatus) : bool :=
  match status with
  | AccountExistsWithDifferentFlags
  | AccountExistsWithDifferentUserData128
  | AccountExistsWithDifferentUserData64
  | AccountExistsWithDifferentUserData32
  | AccountExistsWithDifferentLedger
  | AccountExistsWithDifferentCode => true
  | _ => false
  end.

Definition errorCode (status : CreateTransferStatus) : string * string * Z :=
  match status with
  | TransferExceedsCredits | TransferExceedsDebits =>
      ("insufficient_funds", "the debit account has insufficient available funds",
       StatusUnprocessableEntity)
  | TransferDebitAccountNotFound | TransferCreditAccountNotFound =>
      ("account_not_found", "one or more ledger accounts do not exist", StatusNotFound)
  | TransferIDAlreadyFailed =>
      ("previous_attempt_failed",
       "this transfer ID was previously rejected and cannot produce a different outcome",
       StatusConflict)
  | _ =>
      ("ledger_invariant_violation", "the transfer violated an internal ledger recipe",
       StatusInternalServerError)
  end.

(** ** Account metadata *)

Definition accountKind (account : Account) : option AccountKind :=
  if Account_Code account =? AccountCodeSafeguardedCash then Some AccountSafeguardedCash
  else if Account_Code account =? AccountCodeCorporateWallet then Some AccountCorporateWallet
  else if Account_Code account =? AccountCodeCardWallet then Some AccountCardWallet
  else if Account_Code account =? AccountCodeCardSettlementPayable
  then Some AccountCardSettlementPayable
  else None.

Definition metadataForAccount (s : Service) (account : Account) : option accountMetadata :=
  match accountKind account with
  | None => None
  | Some kind =>
      if negb (Account_Ledger account =? ledgerID s) then None else
      if (bool_decide (kind = AccountSafeguardedCash) &&
            bool_decide (Account_ID account ≠ SafeguardedCashAccountID)) ||
         (bool_decide (kind = AccountCardSettlementPayable) &&
            bool_decide (Account_ID account ≠ CardSettlementPayableAccountID)) ||
         ((bool_decide (kind = AccountCorporateWallet) || bool_decide (kind = AccountCardWallet)) &&
            IsSystemAccountID (Account_ID account))
      then None else
      match ledger_Account kind (Account_ID account) (Account_UserData128 account) (ledgerID s) with
      | inl _ => None
      | inr expected =>
          if negb (Account_Flags account =? Account_Flags expected) ||
             negb (Account_UserData64 account =? 0) || negb (Account_UserData32 account =? 0)
          then None
          else Some (mkAccountMetadata kind (Account_UserData128 account))
      end
  end.

(** A failed index in [Store] would be a panic. *)
Definition cache_store (id : Uint128) (metadata : accountMetadata) : prog unit :=
  r <- call (CacheStore id metadata) ;;
  match r with Some _ => Ret tt | None => Panic end.

Definition rememberAccount (s : Service) (account : Account) : prog unit :=
  match metadataForAccount s account with
  | None => Ret tt
  | Some metadata => cache_store (Account_ID account) metadata
  end.

Definition requireAccountKind (s : Service) (id : Uint128) (expected : AccountKind) :
    prog (result error accountMetadata) :=
  cached <- call (CacheLoad id) ;;
  match cached with
  | Some metadata =>
      if decide (metadata_kind metadata = expected) then Ret (inr metadata)
      else Ret (inl ErrAccountNotFound)
  | None =>
      r <-? observedLedger_LookupAccount (metrics s) id ;;
      match metadataForAccount s (fst r) with
      | Some metadata =>
          if snd r && bool_decide (metadata_kind metadata = expected) then
            (cache_store id metadata ;; Ret (inr metadata))
          else Ret (inl ErrAccountNotFound)
      | None => Ret (inl ErrAccountNotFound)
      end
  end.

(** ** Operations *)

Definition systemAccounts : list (AccountKind * Uint128) :=
  [(AccountSafeguardedCash, SafeguardedCashAccountID);
   (AccountCardSettlementPayable, CardSettlementPayableAccountID)].

(** The [for ... range systemAccounts] loop of [EnsureSystemAccounts]. *)
Fixpoint provision (s : Service) (accounts : list (AccountKind * Uint128)) :
    prog (result error unit) :=
  match accounts with
  | [] => Ret (inr tt)
  | (kind, id) :: rest =>
      let? account := ledger_Account kind id Uint128_zero (ledgerID s) in
      result <-? observedLedger_CreateAccount (metrics s) account ;;
      if negb (bool_decide (AccountResult_Status result = AccountCreated)) &&
         negb (bool_decide (AccountResult_Status result = AccountExists))
      then Ret (inl (Errorf ("provision " +:+ kind +:+ " account: " +:+
                      CreateAccountStatus_String (AccountResult_Status result))))
      else (rememberAccount s account ;; provision s rest)
  end.
Definition EnsureSystemAccounts (s : Service) : prog (result error unit) :=
  provision s systemAccounts.

(** The parent part of [CreateAccount]: the [if request.Kind ==
    domain.AccountCardWallet { ... } else if ...] statement. *)
Definition parent_of_request (s : Service) (request : CreateAccountRequest) (id : Uint128) :
    prog (result error Uint128) :=
  if decide (CreateAccountRequest_Kind request = AccountCardWallet) then
    let? corporateAccountID :=
      accountID "corporate_account_id" (CreateAccountRequest_CorporateAccountID request) in
    if decide (corporateAccountID = id) then
      Ret (inl (invalid "card account cannot be its own corporate account"))
    else
      _ <-? requireAccountKind s corporateAccountID AccountCorporateWallet ;;
      Ret (inr corporateAccountID)
  else if decide (CreateAccountRequest_CorporateAccountID request ≠ "") then
    Ret (inl (invalid "corporate_account_id is only valid for card_wallet"))
  else Ret (inr Uint128_zero).

(** From [account, err := ledger.Account(...)] to the end. *)
Definition CreateAccount_submit (s : Service) (request : CreateAccountRequest)
    (id corporateAccountID : Uint128) : prog (result error (AccountResponse * Z)) :=
  let? account := ledger_Account (CreateAccountRequest_Kind request) id corporateAccountID (ledgerID s) in
  result <-? observedLedger_CreateAccount (metrics s) account ;;
  let response status :=
    mkAccountResponse (Uint128_String (Account_ID account)) (CreateAccountRequest_Kind request)
      (publicID corporateAccountID) status (AccountResult_Timestamp result) in
  match AccountResult_Status result with
  | AccountCreated =>
      rememberAccount s account ;; Ret (inr (response "created", StatusCreated))
  | AccountExists =>
      rememberAccount s account ;; Ret (inr (response "exists", StatusOK))
  | status =>
      if isAccountIdempotencyConflict status then Ret (inl ErrIdempotencyConflict)
      else Ret (inl (Errorf ("create account rejected: " +:+ CreateAccountStatus_String status)))
  end.

Definition CreateAccount (s : Service) (request : CreateAccountRequest) :
    prog (result error (AccountResponse * Z)) :=
  let? id := accountID "account_id" (CreateAccountRequest_AccountID request) in
  if bool_decide (CreateAccountRequest_Kind request ≠ AccountCorporateWallet) &&
     bool_decide (CreateAccountRequest_Kind request ≠ AccountCardWallet)
  then Ret (inl (invalid "kind must be corporate_wallet or card_wallet"))
  else
  corporateAccountID <-? parent_of_request s request id ;;
  CreateAccount_submit s request id corporateAccountID.

(** [balances]: posted and available. *)
Definition balances (account : Account) (kind : AccountKind) : Z * Z :=
  let debitsPosted := Uint128_BigInt (Account_DebitsPosted account) in
  let creditsPosted := Uint128_BigInt (Account_CreditsPosted account) in
  let debitsPending := Uint128_BigInt (Account_DebitsPending account) in
  let creditsPending := Uint128_BigInt (Account_CreditsPending account) in
  if decide (kind = AccountSafeguardedCash) then
    let posted := debitsPosted - creditsPosted in (posted, posted - creditsPending)
  else
    let posted := creditsPosted - debitsPosted in (posted, posted - debitsPending).

Definition Balance (s : Service) (accountIDValue : string) : prog (result error BalanceResponse) :=
  let? _u := validateExternalID "account_id" accountIDValue in
  let? id := match parsePublicTigerBeetleID accountIDValue with
             | inl _ => inl (invalid "account_id must be a non-zero 128-bit hexadecimal TigerBeetle ID")
             | inr id => inr id
             end in
  r <-? observedLedger_LookupAccount (metrics s) id ;;
  let '(account, found) := r in
  if negb found then Ret (inl ErrAccountNotFound) else
  match metadataForAccount s account with
  | None => Ret (inl ErrAccountNotFound)
  | Some metadata =>
      rememberAccount s account ;;
      let '(posted, available) := balances account (metadata_kind metadata) in
      Ret (inr (mkBalanceResponse
        (Uint128_String (Account_ID account)) (metadata_kind metadata)
        (publicID (Account_UserData128 account))
        (pretty (Uint128_BigInt (Account_DebitsPending account)))
        (pretty (Uint128_BigInt (Account_DebitsPosted account)))
        (pretty (Uint128_BigInt (Account_CreditsPending account)))
        (pretty (Uint128_BigInt (Account_CreditsPosted account)))
        (pretty posted) (pretty available) (Account_Timestamp account)))
  end.

Definition Service_LedgerHealth : prog LedgerHealth := observedLedger_Health.
End service.
