(* ===== verification/ServiceSpec.v ===== *)
(** * Theorems about [service.go]: identifiers, metadata, configuration *)
From S2P Require Import Prelude GoBase Domain TigerBeetle TigerBeetleModel LedgerModel Cache Health.
From S2P Require Import Interface Semantics Contract Service.
Import GoInt GoError GoTime.
Local Open Scope Z_scope.

(** ** Identifiers *)
Section identifiers.
Context {sdk : SDK}.

(** A public identifier: non-empty, at most 200 bytes, no white space at
    either end. *)
Definition external_id (value : string) : Prop :=
  value ≠ "" ∧ Z.of_nat (String.length value) ≤ 200 ∧
  GoStrings.starts_with_space value = false ∧ GoStrings.ends_with_space value = false.

Lemma validate_cases field value :
  (validateExternalID field value = inr tt ∧ external_id value) ∨
  (∃ e, validateExternalID field value = inl e ∧ Is e ErrInvalidRequest = true ∧ ¬ external_id value).
Proof.
  unfold validateExternalID, external_id.
  pose proof (GoStrings.TrimSpace_id value) as Hid.
  case_decide as Hempty; [right; eexists; split_and!; [done|auto with ledger|]|].
  { intros (Hne & _ & Htrim%Hid). congruence. }
  case_decide as Htrim; [right; eexists; split_and!; [done|auto with ledger|]|].
  { intros (_ & _ & ?%Hid). congruence. }
  symmetry in Htrim. apply Hid in Htrim as [? ?].
  destruct (Z.ltb_spec 200 (Z.of_nat (String.length value))).
  - right. eexists. split_and!; [done|auto with ledger|]. lia.
  - left. split_and!; [done| |lia|done..]. intros ->. by apply Hempty.
Qed.

Lemma validateExternalID_ok field value :
  validateExternalID field value = inr tt ↔ external_id value.
Proof. destruct (validate_cases field value) as [[-> ?]|(e & -> & _ & ?)]; naive_solver. Qed.

Lemma validateExternalID_error field value e :
  validateExternalID field value = inl e → Is e ErrInvalidRequest = true.
Proof. destruct (validate_cases field value) as [[-> ?]|(e' & -> & ? & ?)]; naive_solver. Qed.

(** The two reserved values. *)
Definition reserved_value (n : Z) : Prop := n = 0 ∨ n = 2 ^ 128 - 1.

Context {laws : SDKLaws sdk}.

Lemma isUint128Max_spec (id : Uint128) : isUint128Max id = true ↔ Uint128_BigInt id = 2 ^ 128 - 1.
Proof.
  rewrite Bytes_max. unfold isUint128Max. rewrite forallb_forall, Forall_forall. setoid_rewrite Z.eqb_eq.
  setoid_rewrite list_elem_of_In. naive_solver.
Qed.

Lemma zero_spec (id : Uint128) : id = Uint128_zero ↔ Uint128_BigInt id = 0.
Proof.
  split; [intros ->; apply BigInt_zero|]. intros H. apply BigInt_inj. by rewrite BigInt_zero.
Qed.

Lemma system_spec (id : Uint128) :
  IsSystemAccountID id = true ↔ Uint128_BigInt id = 1 ∨ Uint128_BigInt id = 2.
Proof.
  unfold IsSystemAccountID. rewrite orb_true_iff, !bool_decide_eq_true.
  unfold SafeguardedCashAccountID, CardSettlementPayableAccountID.
  assert (∀ v, in_uint64 v → id = ToUint128 v ↔ Uint128_BigInt id = v) as H.
  { intros v Hv. split; [intros ->; by apply BigInt_ToUint128|].
    intros Hid. apply BigInt_inj. by rewrite BigInt_ToUint128. }
  by rewrite !H by done.
Qed.

Lemma parse_cases value :
  (∃ id, parsePublicTigerBeetleID value = inr id ∧ HexStringToUint128 value = inr id ∧
     ¬ reserved_value (Uint128_BigInt id)) ∨
  (∃ e, parsePublicTigerBeetleID value = inl e ∧
     ∀ id, HexStringToUint128 value = inr id → reserved_value (Uint128_BigInt id)).
Proof.
  unfold parsePublicTigerBeetleID, reserved_value.
  destruct (HexStringToUint128 value) as [e|id]; [right; eexists; split; [done|naive_solver]|].
  destruct (bool_decide (id = Uint128_zero)) eqn:Hz; cbn [orb].
  { apply bool_decide_eq_true, zero_spec in Hz. right. eexists. split; [done|]. naive_solver. }
  apply bool_decide_eq_false in Hz. rewrite zero_spec in Hz.
  destruct (isUint128Max id) eqn:Hm.
  - apply isUint128Max_spec in Hm. right. eexists. split; [done|]. naive_solver.
  - left. exists id. split_and!; [done..|]. intros [?|Hmax]; [done|].
    apply isUint128Max_spec in Hmax. congruence.
Qed.

(** [parsePublicTigerBeetleID] reads exactly the values other than 0 and
    [2^128 - 1]. *)
Lemma parse_ok value id :
  parsePublicTigerBeetleID value = inr id ↔
  HexStringToUint128 value = inr id ∧ ¬ reserved_value (Uint128_BigInt id).
Proof.
  destruct (parse_cases value) as [(i & -> & -> & ?)|(e & -> & H)]; naive_solver.
Qed.

Lemma requestID_ok value id :
  requestID value = inr id ↔
  external_id value ∧ HexStringToUint128 value = inr id ∧ ¬ reserved_value (Uint128_BigInt id).
Proof.
  unfold requestID. rewrite <- (validateExternalID_ok "request_id"), <- parse_ok.
  destruct (validateExternalID _ _) as [|[]]; [naive_solver|].
  destruct (parsePublicTigerBeetleID value); naive_solver.
Qed.

Lemma requestID_error value e : requestID value = inl e → Is e ErrInvalidRequest = true.
Proof.
  unfold requestID. destruct (validateExternalID "request_id" value) eqn:E.
  - intros [= <-]. by eapply validateExternalID_error.
  - destruct (parsePublicTigerBeetleID value); intros [= <-]. auto with ledger.
Qed.

Lemma accountID_ok field value id :
  accountID field value = inr id ↔
  external_id value ∧ HexStringToUint128 value = inr id ∧
  Uint128_BigInt id ∉ [0; 1; 2; 2 ^ 128 - 1].
Proof.
  unfold accountID. rewrite <- (validateExternalID_ok field).
  destruct (validateExternalID field value) as [|[]]; [naive_solver|].
  rewrite !not_elem_of_cons.
  destruct (parse_cases value) as [(i & -> & Hi & Hr)|(e & -> & H)]; unfold reserved_value in *.
  - destruct (IsSystemAccountID i) eqn:Hs.
    + apply system_spec in Hs. split; [done|]. intros (_ & Hid & Hn). rewrite Hi in Hid. simplify_eq. tauto.
    + assert (¬ (Uint128_BigInt i = 1 ∨ Uint128_BigInt i = 2)) as Hns
        by (rewrite <- system_spec; congruence).
      split; [intros [= <-]; repeat split; try done; set_solver|].
      intros (_ & Hid & _). congruence.
  - split; [done|]. intros (_ & Hid & Hn). apply H in Hid. tauto.
Qed.

Lemma accountID_error field value e : accountID field value = inl e → Is e ErrInvalidRequest = true.
Proof.
  unfold accountID. destruct (validateExternalID field value) eqn:E.
  - intros [= <-]. by eapply validateExternalID_error.
  - destruct (parsePublicTigerBeetleID value) as [|id]; [intros [= <-]; auto with ledger|].
    destruct (IsSystemAccountID id); intros [= <-]. auto with ledger.
Qed.
End identifiers.

(** ** Account metadata *)
Section metadata.
Context {sdk : SDK}.

(** The id an account of a kind may have. *)
Definition id_ok (kind : AccountKind) (id : Uint128) : Prop :=
  if decide (kind = AccountSafeguardedCash) then id = SafeguardedCashAccountID
  else if decide (kind = AccountCardSettlementPayable) then id = CardSettlementPayableAccountID
  else IsSystemAccountID id = false.

(** What the service accepts as an account of its chart of accounts. *)
Record recognised (s : Service) (a : Account) (kind : AccountKind) : Prop := {
  rec_kind : Valid kind = true;
  rec_id : id_ok kind (Account_ID a);
  rec_nonzero : Account_ID a ≠ Uint128_zero;
  rec_ledger : Account_Ledger a = ledgerID s;
  rec_ledger_nonzero : ledgerID s ≠ 0;
  rec_code : Account_Code a = kind_code kind;
  rec_flags : Account_Flags a = AccountFlags_ToUint16 (kind_flags kind);
  rec_parent : parent_ok kind (Account_ID a) (Account_UserData128 a);
  rec_data64 : Account_UserData64 a = 0;
  rec_data32 : Account_UserData32 a = 0 }.

Lemma accountKind_spec a kind : accountKind a = Some kind ↔ Valid kind = true ∧ Account_Code a = kind_code kind.
Proof.
  rewrite Valid_iff. unfold accountKind. split.
  - intros H. repeat case_match; simplify_eq; bool_simpl; (split; [set_solver|done]).
  - intros [Hin ->]. by repeat (apply elem_of_cons in Hin as [->|Hin]; [reflexivity|]);
      apply elem_of_nil in Hin.
Qed.

Lemma id_check_spec kind id :
  (bool_decide (kind = AccountSafeguardedCash) && bool_decide (id ≠ SafeguardedCashAccountID)) ||
  (bool_decide (kind = AccountCardSettlementPayable) && bool_decide (id ≠ CardSettlementPayableAccountID)) ||
  ((bool_decide (kind = AccountCorporateWallet) || bool_decide (kind = AccountCardWallet)) &&
     IsSystemAccountID id) = false ↔
  Valid kind = false ∨ id_ok kind id.
Proof.
  destruct (Valid kind) eqn:Hv.
  - unfold id_ok. kind_cases Hv; kind_simpl; cbn [andb orb]; rewrite ?orb_false_r;
      try case_bool_decide; try naive_solver.
  - split; [by left|]. intros _. unfold Valid in Hv. rewrite !orb_false_iff in Hv.
    destruct Hv as [[[-> ->] ->] ->]. done.
Qed.

(** [metadataForAccount] accepts exactly the recognised accounts. *)
Lemma metadataForAccount_spec s a md :
  metadataForAccount s a = Some md ↔
  recognised s a (metadata_kind md) ∧ metadata_corporateAccountID md = Account_UserData128 a.
Proof.
  unfold metadataForAccount. destruct (accountKind a) as [kind|] eqn:Hkind.
  2: { split; [done|]. intros [[] _].
       assert (accountKind a = Some (metadata_kind md)) by by apply accountKind_spec. congruence. }
  apply accountKind_spec in Hkind as [Hv Hcode].
  destruct (Z.eqb_spec (Account_Ledger a) (ledgerID s)) as [Hl|Hl]; cbn [negb];
    [|split; [done|]; by intros [[] _]].
  assert (∀ k, recognised s a k → k = kind) as Huniq.
  { intros k []. assert (accountKind a = Some k) as H1 by by apply accountKind_spec.
    assert (accountKind a = Some kind) as H2 by by apply accountKind_spec. congruence. }
  destruct (_ || _) eqn:Hid.
  { split; [done|]. intros [Hrec _]. pose proof (Huniq _ Hrec) as Heq. rewrite Heq in Hrec.
    pose proof (proj2 (id_check_spec kind (Account_ID a)) (or_intror (rec_id _ _ _ Hrec))). congruence. }
  apply id_check_spec in Hid as [?|Hid]; [congruence|].
  destruct (ledger_Account kind _ _ _) as [e|expected] eqn:Hacc.
  { split; [done|]. intros [Hrec _]. pose proof (Huniq _ Hrec) as Heq. rewrite Heq in Hrec.
    destruct Hrec. pose proof (proj2 (ledger_Account_Some kind (Account_ID a) (Account_UserData128 a)
      (ledgerID s) _) (conj Hv (conj rec_nonzero0 (conj rec_ledger_nonzero0 (conj rec_parent0 eq_refl))))).
    congruence. }
  apply ledger_Account_Some in Hacc as (_ & Hnz & Hlnz & Hp & ->). cbn [Account_Flags].
  destruct (_ || _) eqn:Hrest.
  { split; [done|]. intros [Hrec _]. pose proof (Huniq _ Hrec) as Heq. rewrite Heq in Hrec.
    destruct Hrec as [_ _ _ _ _ _ Hf _ H64 H32]. by rewrite Hf, H64, H32, Z.eqb_refl in Hrest. }
  bool_simpl. split.
  - intros [= <-]. cbn. split; [|done]. by split.
  - intros [Hrec Hparent]. pose proof (Huniq _ Hrec) as Heq.
    destruct md as [k p]. cbn in *. by subst.
Qed.

Lemma recognised_definition s a b kind :
  same_definition a b → recognised s a kind → recognised s b kind.
Proof.
  intros [] []. split; congruence.
Qed.

(** Metadata depends on the immutable definition only. *)
Lemma metadataForAccount_definition s a b :
  same_definition a b → metadataForAccount s a = metadataForAccount s b.
Proof.
  intros Hab. apply option_eq. intros md. rewrite !metadataForAccount_spec.
  rewrite (sd_parent _ _ Hab). split; intros [H ?]; (split; [|done]); eapply recognised_definition;
    [exact Hab|done|symmetry; exact Hab|done].
Qed.

(** An account built by [ledger.Account] is recognised as what it was built for. *)
Lemma ledger_Account_metadata s kind id parent account :
  ledger_Account kind id parent (ledgerID s) = inr account → id_ok kind id →
  Account_ID account = id ∧ metadataForAccount s account = Some (mkAccountMetadata kind parent).
Proof.
  intros (Hv & Hnz & Hl & Hp & ->)%ledger_Account_Some Hid. split; [done|].
  apply metadataForAccount_spec. split; [|done]. by split.
Qed.

Lemma accountID_user kind field value id :
  accountID field value = inr id → kind = AccountCorporateWallet ∨ kind = AccountCardWallet →
  id_ok kind id.
Proof.
  unfold accountID. intros H Hk. repeat case_match; simplify_eq.
  destruct Hk as [->| ->]; unfold id_ok; by kind_simpl.
Qed.
End metadata.

(** C34: Public identifiers.  A request id is accepted exactly when it is an
    external id (non-empty, at most 200 bytes, no white space at either end)
    that the SDK reads as a 128-bit value other than 0 and the maximum; an
    account id must besides not be one of the two system accounts.  Every
    rejection is an invalid-request error. *)
Theorem public_identifiers {sdk : SDK} {laws : SDKLaws sdk} field value :
  (∀ id, requestID value = inr id ↔
    external_id value ∧ HexStringToUint128 value = inr id ∧ Uint128_BigInt id ∉ [0; 2 ^ 128 - 1]) ∧
  (∀ id, accountID field value = inr id ↔
    external_id value ∧ HexStringToUint128 value = inr id ∧
    Uint128_BigInt id ∉ [0; 1; 2; 2 ^ 128 - 1]) ∧
  (∀ e, requestID value = inl e ∨ accountID field value = inl e → Is e ErrInvalidRequest = true).
Proof.
  split_and!.
  - intros id. rewrite requestID_ok. unfold reserved_value.
    rewrite !elem_of_cons, elem_of_nil. tauto.
  - intros id. apply accountID_ok.
  - intros e [H|H]; [by eapply requestID_error|by eapply accountID_error].
Qed.
Lemma public_identifiers_witness :
  requestID (sdk := ModelSDK) "b1" = inr (ToUint128 177) ↔
  external_id "b1" ∧ HexStringToUint128 (SDK := ModelSDK) "b1" = inr (ToUint128 177) ∧
  Uint128_BigInt (SDK := ModelSDK) (ToUint128 177) ∉ [0; 2 ^ 128 - 1].
Proof. apply (proj1 (public_identifiers (laws := ModelSDK_laws) "account_id" "b1")). Defined.

(** C33: The chart of accounts.  The service recognises a stored account as one
    of its own exactly when its id, ledger, code, balance flag, parent and user
    data are those of a kind: the two system kinds only under their own ids, the
    two customer kinds only under other ids, a parent exactly on card wallets;
    and the account [ledger.Account] builds for such a kind is recognised as it. *)
Theorem chart_of_accounts {sdk : SDK} s :
  (∀ a md, metadataForAccount s a = Some md ↔
    recognised s a (metadata_kind md) ∧ metadata_corporateAccountID md = Account_UserData128 a) ∧
  (∀ kind id parent a, ledger_Account kind id parent (ledgerID s) = inr a ↔
    Valid kind = true ∧ id ≠ Uint128_zero ∧ ledgerID s ≠ 0 ∧ parent_ok kind id parent ∧
    a = mkAccount id Uint128_zero Uint128_zero Uint128_zero Uint128_zero parent 0 0 (ledgerID s)
          (kind_code kind) (AccountFlags_ToUint16 (kind_flags kind)) 0) ∧
  (∀ kind id parent a, ledger_Account kind id parent (ledgerID s) = inr a → id_ok kind id →
    metadataForAccount s a = Some (mkAccountMetadata kind parent)).
Proof.
  split_and!.
  - apply metadataForAccount_spec.
  - intros. apply ledger_Account_Some.
  - intros kind id parent a Ha Hid. by apply (ledger_Account_metadata s kind id parent a).
Qed.
Lemma chart_of_accounts_witness :
  metadataForAccount (sdk := ModelSDK) (mkService 1 Hour 0 100 true)
    (mkAccount (ToUint128 7) Uint128_zero Uint128_zero Uint128_zero Uint128_zero Uint128_zero 0 0 1
       (kind_code AccountCorporateWallet) (AccountFlags_ToUint16 (kind_flags AccountCorporateWallet)) 0)
  = Some (mkAccountMetadata AccountCorporateWallet Uint128_zero).
Proof.
  apply (proj2 (proj2 (chart_of_accounts (mkService 1 Hour 0 100 true))) AccountCorporateWallet
           (ToUint128 7) Uint128_zero); reflexivity.
Defined.
