(* ===== verification/Operations.v ===== *)
(** * [internal/service/operations.go]

    The six money-moving operations and the helpers they share.  [ctx] stands
    for the outcome of the [select] in [evaluateRisk]: [None] when the timer
    fires first, [Some err] when the context is done first with [ctx.Err() =
    err]. *)
From S2P Require Import Prelude GoBase GoCrypto Domain TigerBeetle LedgerModel Cache Health.
From S2P Require Import Interface Service.
Import GoInt GoError GoTime.
Local Open Scope Z_scope.
Local Open Scope prog_scope.

Section operations.
Context {sdk : SDK}.

Definition pendingFlag : Z := TransferFlags_ToUint16 (mkTransferFlags true).

(** ** Shared helpers *)

Definition observeCompletion (s : Service) (kind : OperationKind) (requestID status : string)
    (amountCents : Z) (started : Time) (ledgerStatus : string) (attributes : list any) : prog unit :=
  now <- call TimeNow ;;
  let elapsed := Sub now started in
  (if metrics s then call (ObserveOperation kind status elapsed) else Ret tt) ;;
  call (LogInfo "ledger operation completed"
    ([AnyString "kind"; AnyString kind;
      AnyString "request_id"; AnyString requestID;
      AnyString "transaction_id"; AnyString requestID;
      AnyString "status"; AnyString status;
      AnyString "ledger_status"; AnyString ledgerStatus;
      AnyString "amount_cents"; AnyUint64 amountCents;
      AnyString "duration_ms"; AnyInt64 (Milliseconds elapsed)] ++ attributes)).

Definition attr (key value : string) : list any := [AnyString key; AnyString value].

Definition sameTransferExceptTimeout (left right : Transfer) : bool :=
  bool_decide (Transfer_ID left = Transfer_ID right) &&
  bool_decide (Transfer_DebitAccountID left = Transfer_DebitAccountID right) &&
  bool_decide (Transfer_CreditAccountID left = Transfer_CreditAccountID right) &&
  bool_decide (Transfer_Amount left = Transfer_Amount right) &&
  bool_decide (Transfer_PendingID left = Transfer_PendingID right) &&
  bool_decide (Transfer_UserData128 left = Transfer_UserData128 right) &&
  (Transfer_UserData64 left =? Transfer_UserData64 right) &&
  (Transfer_UserData32 left =? Transfer_UserData32 right) &&
  (Transfer_Ledger left =? Transfer_Ledger right) &&
  (Transfer_Code left =? Transfer_Code right) &&
  (Transfer_Flags left =? Transfer_Flags right).
Definition sameTransfer (left right : Transfer) : bool :=
  (Transfer_Timeout left =? Transfer_Timeout right) && sameTransferExceptTimeout left right.

Definition merchantFingerprint (merchantID : string) : Z * Z :=
  let sum := SHA256.Sum256 (SHA256.bytes ("ledger-service:v1:merchant:" +:+ merchantID)) in
  (LittleEndian (take 8 sum), LittleEndian (take 4 (drop 8 sum))).

Definition evaluateRisk (s : Service) (ctx : option error) (amountCents : Z) : result error bool :=
  let decision := inr (amountCents <=? riskLimitCents s) in
  if (0 <? riskDelay s) then match ctx with Some err => inl err | None => decision end
  else decision.

(** [executeTransaction] *)
Definition executeTransaction (s : Service) (kind : OperationKind) (requestID : string)
    (transfer : Transfer) (successStatus : string) :
    prog (result error (TransactionResponse * Z)) :=
  let amount := fst (Uint128_Uint64 (Transfer_Amount transfer)) in
  let accounts := attr "debit_account_id" (Uint128_String (Transfer_DebitAccountID transfer)) ++
                  attr "credit_account_id" (Uint128_String (Transfer_CreditAccountID transfer)) in
  started <- call TimeNow ;;
  r <- observedLedger_CreateTransfer (metrics s) transfer ;;
  match r with
  | inl err =>
      observeCompletion s kind requestID "unknown" amount started "request_error"
        ([AnyString "error"; AnyError err] ++ accounts) ;;
      Ret (inl err)
  | inr result =>
      let status := TransferResult_Status result in
      let ledgerStatus := CreateTransferStatus_String status in
      if isIdempotencyConflict status then
        (observeCompletion s kind requestID "conflict" amount started ledgerStatus accounts ;;
         Ret (inl ErrIdempotencyConflict))
      else
      let success := bool_decide (status = TransferCreated) || bool_decide (status = TransferExists) in
      let '(code, message, failureStatus) := errorCode status in
      let response := mkTransactionResponse requestID requestID
        (if success then successStatus else "failed") ledgerStatus
        (TransferResult_Timestamp result)
        (if success then "" else code) (if success then "" else message) in
      let httpStatus := if success then StatusOK else failureStatus in
      observeCompletion s kind requestID (TransactionResponse_Status response) amount started
        ledgerStatus accounts ;;
      Ret (inr (response, httpStatus))
  end.

(** ** Posted operations *)

Definition posted_transfer (s : Service) (id debit credit : Uint128) (amountCents code : Z) : Transfer :=
  mkTransfer id debit credit (ToUint128 amountCents) Uint128_zero Uint128_zero 0 0 0
    (ledgerID s) code 0 0.

Definition TopUp (s : Service) (request : TopUpRequest) :
    prog (result error (TransactionResponse * Z)) :=
  let? account := accountID "account_id" (TopUpRequest_AccountID request) in
  if (TopUpRequest_AmountCents request =? 0) then Ret (inl (invalid "amount_cents must be positive")) else
  let? id := requestID (TopUpRequest_RequestID request) in
  _ <-? requireAccountKind s account AccountCorporateWallet ;;
  executeTransaction s OperationTopUp (TopUpRequest_RequestID request)
    (posted_transfer s id SafeguardedCashAccountID account (TopUpRequest_AmountCents request)
       TransferCodeTopUp) "posted".

Definition Withdraw (s : Service) (request : WithdrawalRequest) :
    prog (result error (TransactionResponse * Z)) :=
  let? account := accountID "account_id" (WithdrawalRequest_AccountID request) in
  if (WithdrawalRequest_AmountCents request =? 0) then Ret (inl (invalid "amount_cents must be positive")) else
  let? id := requestID (WithdrawalRequest_RequestID request) in
  _ <-? requireAccountKind s account AccountCorporateWallet ;;
  executeTransaction s OperationWithdrawal (WithdrawalRequest_RequestID request)
    (posted_transfer s id account SafeguardedCashAccountID (WithdrawalRequest_AmountCents request)
       TransferCodeWithdrawal) "posted".

Definition moveCardFunds (s : Service) (kind : OperationKind)
    (requestIDValue accountIDValue cardIDValue : string) (amountCents : Z)
    (returnToCorporate : bool) : prog (result error (TransactionResponse * Z)) :=
  let? corporateAccountID := accountID "account_id" accountIDValue in
  let? cardAccountID := accountID "card_id" cardIDValue in
  if (amountCents =? 0) then Ret (inl (invalid "amount_cents must be positive")) else
  let? id := requestID requestIDValue in
  _ <-? requireAccountKind s corporateAccountID AccountCorporateWallet ;;
  cardAccount <-? requireAccountKind s cardAccountID AccountCardWallet ;;
  if decide (metadata_corporateAccountID cardAccount ≠ corporateAccountID) then
    Ret (inl (invalid "card_id is not linked to account_id"))
  else
  let '(debitAccountID, creditAccountID, code) :=
    if returnToCorporate : bool then (cardAccountID, corporateAccountID, TransferCodeCardReturn)
    else (corporateAccountID, cardAccountID, TransferCodeCardAllocation) in
  executeTransaction s kind requestIDValue
    (posted_transfer s id debitAccountID creditAccountID amountCents code) "posted".

Definition AllocateToCard (s : Service) (request : CardAllocationRequest) :=
  moveCardFunds s OperationCardAllocation (CardAllocationRequest_RequestID request)
    (CardAllocationRequest_AccountID request) (CardAllocationRequest_CardID request)
    (CardAllocationRequest_AmountCents request) false.

Definition ReturnFromCard (s : Service) (request : CardReturnRequest) :=
  moveCardFunds s OperationCardReturn (CardReturnRequest_RequestID request)
    (CardReturnRequest_AccountID request) (CardReturnRequest_CardID request)
    (CardReturnRequest_AmountCents request) true.

(** ** Authorization *)

Definition authorization_transfer (s : Service) (id cardAccountID : Uint128)
    (merchantID : string) (amountCents : Z) : Transfer :=
  let '(merchant64, merchant32) := merchantFingerprint merchantID in
  mkTransfer id cardAccountID CardSettlementPayableAccountID (ToUint128 amountCents)
    Uint128_zero id merchant64 merchant32
    (uint32 (ddiv (authorizationTimeout s) Second)) (ledgerID s) TransferCodeAuthorization
    pendingFlag 0.

(** [time.Unix(0, int64(timestamp)).Add(s.authorizationTimeout).UTC()] *)
Definition expiry (s : Service) (timestamp : Z) : Time :=
  UTC (Add (Unix_nano (int64 timestamp)) (authorizationTimeout s)).

Definition card_attributes (request : AuthorizationRequest) : list any :=
  attr "card_id" (AuthorizationRequest_CardID request) ++
  attr "merchant_id" (AuthorizationRequest_MerchantID request).

Definition observe_authorization (s : Service) (request : AuthorizationRequest) (started : Time)
    (status ledgerStatus : string) (prefix : list any) : prog unit :=
  observeCompletion s OperationAuthorization (AuthorizationRequest_RequestID request) status
    (AuthorizationRequest_AmountCents request) started ledgerStatus
    (prefix ++ card_attributes request).

(** The branch [if !approved { ... }] of [Authorize]. *)
Definition Authorize_declined (s : Service) (request : AuthorizationRequest) (id : Uint128)
    (transfer : Transfer) (started : Time) (evaluationMS : Z) :
    prog (result error (AuthorizationResponse * Z)) :=
  let request_id := AuthorizationRequest_RequestID request in
  r <-? observedLedger_LookupTransfer (metrics s) id ;;
  let '(existing, found) := r in
  if found : bool then
    if negb (sameTransfer existing transfer) then
      (observe_authorization s request started "conflict" "existing_transfer_payload_conflict" [] ;;
       Ret (inl ErrIdempotencyConflict))
    else
      let response := mkAuthorizationResponse request_id request_id request_id "approved"
        (CreateTransferStatus_String TransferExists) evaluationMS
        (Some (expiry s (Transfer_Timestamp existing))) (Transfer_Timestamp existing) "" "" in
      (observe_authorization s request started (AuthorizationResponse_Status response)
         (AuthorizationResponse_LedgerStatus response) [] ;;
       Ret (inr (response, StatusOK)))
  else
    let response := mkAuthorizationResponse request_id request_id "" "declined" "not_submitted"
      evaluationMS None 0 "risk_limit_exceeded"
      "authorization amount exceeds the automatic approval limit" in
    observe_authorization s request started (AuthorizationResponse_Status response)
      (AuthorizationResponse_LedgerStatus response) [] ;;
    Ret (inr (response, StatusOK)).

(** From [result, err := s.ledger.CreateTransfer(transfer)] to the end. *)
Definition Authorize_submit (s : Service) (request : AuthorizationRequest)
    (transfer : Transfer) (started : Time) (evaluationMS : Z) :
    prog (result error (AuthorizationResponse * Z)) :=
  let request_id := AuthorizationRequest_RequestID request in
  r <- observedLedger_CreateTransfer (metrics s) transfer ;;
  match r with
  | inl err =>
      observe_authorization s request started "unknown" "request_error"
        [AnyString "error"; AnyError err] ;;
      Ret (inl err)
  | inr result =>
      let status := TransferResult_Status result in
      let ledgerStatus := CreateTransferStatus_String status in
      if isIdempotencyConflict status then
        (observe_authorization s request started "conflict" ledgerStatus [] ;;
         Ret (inl ErrIdempotencyConflict))
      else
      let timestamp := TransferResult_Timestamp result in
      let '(code, message, failureStatus) := errorCode status in
      let '(response_status, expires, error_code, error_message, httpStatus) :=
        if bool_decide (status = TransferCreated) || bool_decide (status = TransferExists)
        then ("approved", Some (expiry s timestamp), "", "", StatusOK)
        else if bool_decide (code = "insufficient_funds")
        then ("declined", None, code, message, StatusOK)
        else ("failed", None, code, message, failureStatus) in
      let response := mkAuthorizationResponse request_id request_id request_id response_status
        ledgerStatus evaluationMS expires timestamp error_code error_message in
      observe_authorization s request started (AuthorizationResponse_Status response) ledgerStatus [] ;;
      Ret (inr (response, httpStatus))
  end.

Definition Authorize (s : Service) (ctx : option error) (request : AuthorizationRequest) :
    prog (result error (AuthorizationResponse * Z)) :=
  let? cardAccountID := accountID "card_id" (AuthorizationRequest_CardID request) in
  let? _u := validateExternalID "merchant_id" (AuthorizationRequest_MerchantID request) in
  if (AuthorizationRequest_AmountCents request =? 0) then
    Ret (inl (invalid "amount_cents must be positive")) else
  let? id := requestID (AuthorizationRequest_RequestID request) in
  started <- call TimeNow ;;
  _ <-? requireAccountKind s cardAccountID AccountCardWallet ;;
  let transfer := authorization_transfer s id cardAccountID
    (AuthorizationRequest_MerchantID request) (AuthorizationRequest_AmountCents request) in
  riskStarted <- call TimeNow ;;
  match evaluateRisk s ctx (AuthorizationRequest_AmountCents request) with
  | inl err => Ret (inl (wrap_prefix "evaluate risk: " err))
  | inr approved =>
      now <- call TimeNow ;;
      let evaluationMS := Milliseconds (Sub now riskStarted) in
      if negb approved then Authorize_declined s request id transfer started evaluationMS
      else Authorize_submit s request transfer started evaluationMS
  end.

(** ** Increment of an authorization *)

Definition IncrementResponse_zero : IncrementAuthorizationResponse :=
  mkIncrementAuthorizationResponse "" "" "" "" "" 0 0 0 "" "".

Definition incrementFailure (request : IncrementAuthorizationRequest) (code message : string)
    (status evaluationMS : Z) : result error (IncrementAuthorizationResponse * Z) :=
  inr (mkIncrementAuthorizationResponse
    (IncrementAuthorizationRequest_RequestID request)
    (IncrementAuthorizationRequest_AuthorizationID request) "" "declined" "not_submitted"
    (IncrementAuthorizationRequest_IncrementCents request) evaluationMS 0 code message, status).

Definition increment_transfer (s : Service) (original : Transfer)
    (incrementID authorizationID : Uint128) (incrementCents timeout : Z) : Transfer :=
  mkTransfer incrementID (Transfer_DebitAccountID original) (Transfer_CreditAccountID original)
    (ToUint128 incrementCents) Uint128_zero authorizationID (Transfer_UserData64 original)
    (Transfer_UserData32 original) timeout (ledgerID s) TransferCodeAuthorizationIncrement
    pendingFlag 0.

Definition observe_increment (s : Service) (request : IncrementAuthorizationRequest)
    (original : Transfer) (started : Time) (status ledgerStatus : string) (prefix : list any) : prog unit :=
  observeCompletion s OperationAuthorizationIncrement
    (IncrementAuthorizationRequest_RequestID request) status
    (IncrementAuthorizationRequest_IncrementCents request) started ledgerStatus
    (prefix ++ attr "authorization_id" (IncrementAuthorizationRequest_AuthorizationID request) ++
     attr "card_id" (Uint128_String (Transfer_DebitAccountID original))).

(** [lookupExistingIncrement]: Go's four results. *)
Definition lookupExistingIncrement (s : Service) (request : IncrementAuthorizationRequest)
    (original : Transfer) (incrementID authorizationID : Uint128) (started : Time) (evaluationMS : Z) :
    prog (IncrementAuthorizationResponse * Z * bool * option error) :=
  r <- observedLedger_LookupTransfer (metrics s) incrementID ;;
  match r with
  | inl err => Ret (IncrementResponse_zero, 0, false, Some err)
  | inr (_, false) => Ret (IncrementResponse_zero, 0, false, None)
  | inr (existing, true) =>
      let expected := increment_transfer s original incrementID authorizationID
        (IncrementAuthorizationRequest_IncrementCents request) 0 in
      if negb (sameTransferExceptTimeout existing expected) then
        (observe_increment s request original started "conflict"
           "existing_increment_payload_conflict" [] ;;
         Ret (IncrementResponse_zero, 0, true, Some ErrIdempotencyConflict))
      else
      let response := mkIncrementAuthorizationResponse
        (IncrementAuthorizationRequest_RequestID request)
        (IncrementAuthorizationRequest_AuthorizationID request)
        (IncrementAuthorizationRequest_RequestID request) "approved"
        (CreateTransferStatus_String TransferExists)
        (IncrementAuthorizationRequest_IncrementCents request) evaluationMS
        (Transfer_Timestamp existing) "" "" in
      observe_increment s request original started (IncrementAuthorizationResponse_Status response)
        (IncrementAuthorizationResponse_LedgerStatus response) [] ;;
      Ret (response, StatusOK, true, None)
  end.

(** [if response, status, found, lookupErr := s.lookupExistingIncrement(...);
    lookupErr != nil || found { return response, status, lookupErr }; rest] *)
Definition existing_increment_or (s : Service) (request : IncrementAuthorizationRequest)
    (original : Transfer) (incrementID authorizationID : Uint128) (started : Time) (evaluationMS : Z)
    (rest : prog (result error (IncrementAuthorizationResponse * Z))) :
    prog (result error (IncrementAuthorizationResponse * Z)) :=
  r <- lookupExistingIncrement s request original incrementID authorizationID started evaluationMS ;;
  let '(response, status, found, lookupErr) := r in
  match lookupErr with
  | Some err => Ret (inl err)
  | None => if found : bool then Ret (inr (response, status)) else rest
  end.

(** The negation of the condition that answers [authorization_not_open]. *)
Definition is_authorization (s : Service) (original : Transfer) : bool :=
  negb (negb (Transfer_Flags original =? pendingFlag) ||
        negb (Transfer_Code original =? TransferCodeAuthorization) ||
        negb (Transfer_Ledger original =? ledgerID s) ||
        bool_decide (Transfer_CreditAccountID original ≠ CardSettlementPayableAccountID) ||
        bool_decide (Transfer_UserData128 original ≠ Transfer_ID original) ||
        bool_decide (Transfer_PendingID original ≠ Uint128_zero) ||
        (Transfer_Timeout original =? 0)).

(** [expiresAt], and [remainingSeconds] with its cap. *)
Definition increment_expiry (original : Transfer) : Time :=
  Add (Unix_nano (int64 (Transfer_Timestamp original))) (dmul (Transfer_Timeout original) Second).
Definition remaining_seconds (original : Transfer) (remaining : Duration) : Z :=
  let remainingSeconds := uint32 (ddiv (dsub (dadd remaining Second) 1) Second) in
  if (Transfer_Timeout original <? remainingSeconds) then Transfer_Timeout original
  else remainingSeconds.

(** From the [if isIdempotencyConflict(result.Status)] to the end. *)
Definition increment_answer (s : Service) (request : IncrementAuthorizationRequest)
    (original : Transfer) (started : Time) (evaluationMS : Z) (answer : CreateTransferResult) :
    prog (result error (IncrementAuthorizationResponse * Z)) :=
  let status := TransferResult_Status answer in
  let ledgerStatus := CreateTransferStatus_String status in
  if isIdempotencyConflict status then
    (observe_increment s request original started "conflict" ledgerStatus [] ;;
     Ret (inl ErrIdempotencyConflict))
  else
  let '(code, message, failureStatus) := errorCode status in
  let '(response_status, error_code, error_message, httpStatus) :=
    if bool_decide (status = TransferCreated) || bool_decide (status = TransferExists)
    then ("approved", "", "", StatusOK)
    else if bool_decide (code = "insufficient_funds") then ("declined", code, message, StatusOK)
    else ("failed", code, message, failureStatus) in
  let response := mkIncrementAuthorizationResponse
    (IncrementAuthorizationRequest_RequestID request)
    (IncrementAuthorizationRequest_AuthorizationID request)
    (IncrementAuthorizationRequest_RequestID request) response_status ledgerStatus
    (IncrementAuthorizationRequest_IncrementCents request) evaluationMS
    (TransferResult_Timestamp answer) error_code error_message in
  observe_increment s request original started (IncrementAuthorizationResponse_Status response)
    ledgerStatus [] ;;
  Ret (inr (response, httpStatus)).

(** From the [CreateTransfer] of the increment to the end: the answer
    [TransferExistsWithDifferentTimeout] is resolved by a lookup. *)
Definition increment_submit (s : Service) (request : IncrementAuthorizationRequest)
    (original : Transfer) (incrementID : Uint128) (transfer : Transfer) (started : Time)
    (evaluationMS : Z) : prog (result error (IncrementAuthorizationResponse * Z)) :=
  r <- observedLedger_CreateTransfer (metrics s) transfer ;;
  match r with
  | inl err =>
      observe_increment s request original started "unknown" "request_error"
        [AnyString "error"; AnyError err] ;;
      Ret (inl err)
  | inr result =>
      if bool_decide (TransferResult_Status result = TransferExistsWithDifferentTimeout) then
        e <-? observedLedger_LookupTransfer (metrics s) incrementID ;;
        let '(existing, found) := e in
        increment_answer s request original started evaluationMS
          (if found && sameTransferExceptTimeout existing transfer
           then mkCreateTransferResult (Transfer_Timestamp existing) TransferExists else result)
      else increment_answer s request original started evaluationMS result
  end.

(** From the computation of [expiresAt] to the end. *)
Definition increment_approved (s : Service) (request : IncrementAuthorizationRequest)
    (original : Transfer) (incrementID authorizationID : Uint128) (started : Time)
    (evaluationMS : Z) : prog (result error (IncrementAuthorizationResponse * Z)) :=
  now <- call TimeNow ;;
  let remaining := Sub (increment_expiry original) now in
  if negb (Transfer_Timeout original =? 0) && (remaining <=? 0) then
    existing_increment_or s request original incrementID authorizationID started evaluationMS
      (Ret (incrementFailure request "authorization_not_open" "the authorization has expired"
              StatusConflict evaluationMS))
  else
    increment_submit s request original incrementID
      (increment_transfer s original incrementID authorizationID
         (IncrementAuthorizationRequest_IncrementCents request)
         (remaining_seconds original remaining))
      started evaluationMS.

(** The branch [if !approved { ... }] of [IncrementAuthorization]. *)
Definition increment_declined (s : Service) (request : IncrementAuthorizationRequest)
    (original : Transfer) (incrementID authorizationID : Uint128) (started : Time)
    (evaluationMS : Z) : prog (result error (IncrementAuthorizationResponse * Z)) :=
  existing_increment_or s request original incrementID authorizationID started evaluationMS
    (let response := mkIncrementAuthorizationResponse
       (IncrementAuthorizationRequest_RequestID request)
       (IncrementAuthorizationRequest_AuthorizationID request) "" "declined" "not_submitted"
       (IncrementAuthorizationRequest_IncrementCents request) evaluationMS 0 "risk_limit_exceeded"
       "authorization increment exceeds the automatic approval limit" in
     observe_increment s request original started (IncrementAuthorizationResponse_Status response)
       (IncrementAuthorizationResponse_LedgerStatus response) [] ;;
     Ret (inr (response, StatusOK))).

(** The argument checks at the head of [IncrementAuthorization]. *)
Definition increment_ids (request : IncrementAuthorizationRequest) :
    result error (Uint128 * Uint128) :=
  match validateExternalID "authorization_id" (IncrementAuthorizationRequest_AuthorizationID request) with
  | inl err => inl err
  | inr _ =>
  match parsePublicTigerBeetleID (IncrementAuthorizationRequest_AuthorizationID request) with
  | inl _ => inl (invalid "authorization_id must be a TigerBeetle ID")
  | inr authorizationID =>
      if (IncrementAuthorizationRequest_IncrementCents request =? 0) then
        inl (invalid "increment_cents must be positive") else
      match requestID (IncrementAuthorizationRequest_RequestID request) with
      | inl err => inl err
      | inr incrementID =>
          if decide (incrementID = authorizationID) then
            inl (invalid "request_id must differ from authorization_id")
          else inr (authorizationID, incrementID)
      end
  end
  end.

Definition IncrementAuthorization (s : Service) (ctx : option error)
    (request : IncrementAuthorizationRequest) :
    prog (result error (IncrementAuthorizationResponse * Z)) :=
  let? ids := increment_ids request in
  let '(authorizationID, incrementID) := ids in
  started <- call TimeNow ;;
  o <-? observedLedger_LookupTransfer (metrics s) authorizationID ;;
  let '(original, found) := o in
  if negb found then Ret (inl ErrAuthorizationNotFound) else
  let not_open := incrementFailure request "authorization_not_open"
    "the transfer is not an open authorization" StatusConflict 0 in
  if negb (is_authorization s original) then Ret not_open else
  m <- requireAccountKind s (Transfer_DebitAccountID original) AccountCardWallet ;;
  match m with
  | inl err => if Is err ErrAccountNotFound then Ret not_open else Ret (inl err)
  | inr _ =>
      riskStarted <- call TimeNow ;;
      match evaluateRisk s ctx (IncrementAuthorizationRequest_IncrementCents request) with
      | inl err => Ret (inl (wrap_prefix "evaluate risk: " err))
      | inr approved =>
          now <- call TimeNow ;;
          let evaluationMS := Milliseconds (Sub now riskStarted) in
          if negb approved
          then increment_declined s request original incrementID authorizationID started evaluationMS
          else increment_approved s request original incrementID authorizationID started evaluationMS
      end
  end.
End operations.
