(* ===== verification/OperationsSpec.v ===== *)
(** * Theorems about the pure parts of [operations.go] *)
From S2P Require Import Prelude GoBase GoCrypto Domain TigerBeetle TigerBeetleModel LedgerModel.
From S2P Require Import Cache Health Interface Semantics Contract Service ServiceSpec Operations.
Import GoInt GoError GoTime.
Local Open Scope Z_scope.

Section comparisons.
Context {sdk : SDK}.
Implicit Types (t u : Transfer).

(** The two comparisons are the two equivalences on payloads. *)
Lemma sameTransferExceptTimeout_spec t u :
  sameTransferExceptTimeout t u = true ↔ same_but_timeout t u.
Proof.
  unfold sameTransferExceptTimeout. rewrite !andb_true_iff, !bool_decide_eq_true, !Z.eqb_eq.
  split; [intros; split_all; by split|intros []; tauto].
Qed.
Lemma sameTransfer_spec t u : sameTransfer t u = true ↔ same_payload t u.
Proof.
  unfold sameTransfer, same_payload.
  rewrite andb_true_iff, sameTransferExceptTimeout_spec, Z.eqb_eq. tauto.
Qed.

Lemma isIdempotencyConflict_spec status : isIdempotencyConflict status = true ↔ transfer_conflict status.
Proof. unfold transfer_conflict. destruct status; cbn; set_solver. Qed.
Lemma isAccountIdempotencyConflict_spec status :
  isAccountIdempotencyConflict status = true ↔ account_conflict status.
Proof. unfold account_conflict. destruct status; cbn; set_solver. Qed.

(** An open authorization of this service: what [IncrementAuthorization]
    accepts as the original. *)
Record open_authorization (s : Service) (t : Transfer) : Prop := {
  oa_flags : Transfer_Flags t = pendingFlag;
  oa_code : Transfer_Code t = TransferCodeAuthorization;
  oa_ledger : Transfer_Ledger t = ledgerID s;
  oa_credit : Transfer_CreditAccountID t = CardSettlementPayableAccountID;
  oa_group : Transfer_UserData128 t = Transfer_ID t;
  oa_pending : Transfer_PendingID t = Uint128_zero;
  oa_timeout : Transfer_Timeout t ≠ 0 }.

Lemma is_authorization_spec s t : is_authorization s t = true ↔ open_authorization s t.
Proof.
  unfold is_authorization.
  rewrite negb_true_iff, !orb_false_iff, !negb_false_iff, !bool_decide_eq_false, !Z.eqb_eq, Z.eqb_neq.
  split; [intros; split_all; split; first [done|by apply dec_stable]|intros []; tauto].
Qed.
End comparisons.

(** ** Timeouts *)
Section timeouts.
Context {sdk : SDK}.

(** The longest timeout a transfer's 32-bit field holds. *)
Definition max_timeout : Duration := (2 ^ 32 - 1) * Second.

Lemma second_pos : Second = 10 ^ 9.
Proof. reflexivity. Qed.

(** [((d + time.Second - 1) / time.Second)] without wrap-around. *)
Definition ceil_seconds (d : Duration) : Z := (d + Second - 1) / Second.

Lemma ceil_seconds_bounds d :
  0 < d → 1 ≤ ceil_seconds d ∧ d ≤ ceil_seconds d * Second < d + Second.
Proof.
  intros Hd. unfold ceil_seconds. rewrite second_pos.
  pose proof (Z.div_mod (d + 10 ^ 9 - 1) (10 ^ 9) ltac:(lia)).
  pose proof (Z.mod_pos_bound (d + 10 ^ 9 - 1) (10 ^ 9) ltac:(lia)).
  generalize dependent ((d + 10 ^ 9 - 1) mod 10 ^ 9).
  generalize dependent ((d + 10 ^ 9 - 1) / 10 ^ 9). intros. lia.
Qed.

Lemma ceil_seconds_le d n : d ≤ n * Second → ceil_seconds d ≤ n.
Proof.
  intros Hd. unfold ceil_seconds. rewrite second_pos in *. apply Z.lt_succ_r.
  apply Z.div_lt_upper_bound; lia.
Qed.

(** Go's rounding up is exact below [2^63 - 10^9]. *)
Lemma go_ceil d :
  0 < d → d + Second ≤ maxDuration →
  ddiv (dsub (dadd d Second) 1) Second = ceil_seconds d.
Proof.
  intros Hd Hmax. unfold maxDuration in Hmax. rewrite second_pos in *.
  unfold dadd, dsub, ddiv. rewrite ?second_pos.
  rewrite (int64_id (d + _)) by (unfold in_int64; lia).
  rewrite (int64_id (_ - 1)) by (unfold in_int64; lia).
  rewrite Z.quot_div_nonneg by lia. unfold ceil_seconds. rewrite second_pos.
  apply int64_id. unfold in_int64. split.
  - transitivity 0; [lia|]. apply Z.div_pos; lia.
  - apply Z.div_lt_upper_bound; lia.
Qed.

Lemma round_timeout_spec d :
  0 < d → d + Second ≤ maxDuration → round_timeout d = ceil_seconds d * Second.
Proof.
  intros Hd Hmax. unfold round_timeout. rewrite go_ceil by done. unfold dmul. apply int64_id.
  pose proof (ceil_seconds_bounds d Hd). unfold maxDuration, in_int64 in *. rewrite second_pos in *. lia.
Qed.

(** The timeout field of the hold of an authorization. *)
Lemma hold_timeout s d id card merchant amount :
  authorizationTimeout s = round_timeout d → 0 < d ≤ max_timeout →
  Transfer_Timeout (authorization_transfer s id card merchant amount) = ceil_seconds d.
Proof.
  intros Hs [Hd Hmax]. unfold authorization_transfer. destruct (merchantFingerprint merchant). cbn.
  unfold max_timeout in Hmax. pose proof (ceil_seconds_bounds d Hd).
  pose proof (ceil_seconds_le d (2 ^ 32 - 1) Hmax).
  rewrite Hs, round_timeout_spec; [|done|unfold maxDuration; rewrite second_pos in *; lia].
  unfold ddiv. rewrite Z.quot_div_nonneg, Z.div_mul; [|rewrite second_pos in *; lia..].
  rewrite int64_id by (unfold in_int64; lia). apply uint32_id. unfold in_uint32. lia.
Qed.

(** What is left of an authorization, in seconds, for an increment. *)
Lemma remaining_seconds_spec original remaining :
  0 < remaining ≤ max_timeout →
  remaining_seconds original remaining = Z.min (Transfer_Timeout original) (ceil_seconds remaining).
Proof.
  intros [Hr Hmax]. unfold remaining_seconds, max_timeout in *.
  pose proof (ceil_seconds_bounds remaining Hr). pose proof (ceil_seconds_le _ _ Hmax).
  rewrite go_ceil; [|done|unfold maxDuration; rewrite second_pos in *; lia].
  rewrite uint32_id by (unfold in_uint32; lia).
  destruct (Z.ltb_spec (Transfer_Timeout original) (ceil_seconds remaining)); lia.
Qed.
End timeouts.

(** C35: A hold expires when the service says it does.  For every configured
    timeout the hold of an authorization carries the timeout rounded up to whole
    seconds - at least one, faithful in the transfer's 32 bits - and the
    [expires_at] the service answers is the hold's timestamp plus exactly that
    many seconds. *)
Theorem authorization_expiry {sdk : SDK} d ledger_id delay limit stall size m id card merchant amount ts :
  0 < d ≤ max_timeout → in_int64 ts →
  let s := fst (fst (New ledger_id d delay limit stall size m)) in
  let hold := authorization_transfer s id card merchant amount in
  1 ≤ Transfer_Timeout hold < 2 ^ 32 ∧
  d ≤ Transfer_Timeout hold * Second < d + Second ∧
  wall (expiry s ts) = ts + Transfer_Timeout hold * Second.
Proof.
  intros Hd Hts s hold. unfold hold. rewrite (hold_timeout s d) by done.
  destruct Hd as [Hd Hmax]. pose proof (ceil_seconds_bounds d Hd) as [? ?].
  pose proof (ceil_seconds_le d (2 ^ 32 - 1) Hmax). split_and!; try lia.
  cbn. rewrite (int64_id ts) by done. f_equal. apply round_timeout_spec; [done|].
  unfold max_timeout, maxDuration in *. rewrite second_pos in *. lia.
Qed.
Lemma authorization_expiry_witness :
  let s := fst (fst (New (sdk := ModelSDK) 1 1500000000 0 100 0 10 true)) in
  let hold := authorization_transfer s Uint128_zero Uint128_zero "MRC_009" 5 in
  1 ≤ Transfer_Timeout hold < 2 ^ 32 ∧
  1500000000 ≤ Transfer_Timeout hold * Second < 1500000000 + Second ∧
  wall (expiry s 7) = 7 + Transfer_Timeout hold * Second.
Proof.
  apply (authorization_expiry 1500000000).
  - split; [lia|]. apply Z.leb_le. reflexivity.
  - unfold in_int64. lia.
Defined.

(** C36: An increment never outlives its authorization by a second.  For an
    authorization that still has [remaining > 0] to live (up to the longest
    timeout a transfer can carry), the increment's timeout is at least one
    second, at most the original's timeout, covers the remaining time unless
    capped by the original's, and exceeds it by less than a second. *)
Theorem increment_timeout {sdk : SDK} s original incrementID authorizationID cents remaining :
  0 < Transfer_Timeout original < 2 ^ 32 → 0 < remaining ≤ max_timeout →
  let t := Transfer_Timeout (increment_transfer s original incrementID authorizationID cents
             (remaining_seconds original remaining)) in
  1 ≤ t ≤ Transfer_Timeout original ∧ t * Second < remaining + Second ∧
  (remaining ≤ t * Second ∨ t = Transfer_Timeout original).
Proof.
  intros Ho Hr t. unfold t. cbn [increment_transfer Transfer_Timeout].
  rewrite remaining_seconds_spec by done.
  pose proof (ceil_seconds_bounds remaining (proj1 Hr)). rewrite second_pos in *. lia.
Qed.
Lemma increment_timeout_witness :
  let o := authorization_transfer (fst (fst (New (sdk := ModelSDK) 1 Hour 0 100 0 10 true)))
             Uint128_zero Uint128_zero "MRC_009" 5 in
  let t := Transfer_Timeout (increment_transfer (fst (fst (New 1 Hour 0 100 0 10 true))) o
             Uint128_zero Uint128_zero 5 (remaining_seconds o (Minute + 1))) in
  1 ≤ t ≤ Transfer_Timeout o ∧ t * Second < Minute + 1 + Second ∧
  (Minute + 1 ≤ t * Second ∨ t = Transfer_Timeout o).
Proof.
  apply (increment_timeout _ _ _ _ 5 (Minute + 1)).
  - split; apply Z.ltb_lt; reflexivity.
  - split; [apply Z.ltb_lt|apply Z.leb_le]; reflexivity.
Defined.

(** The conversion of the remaining time to [uint32] wraps.  One nanosecond
    beyond the longest timeout a transfer can carry - an authorization made with
    the longest configurable timeout, on a cluster whose clock runs ahead of the
    service's - the seconds computed for an increment are zero, which the ledger
    reads as a hold without timeout, and not the original's timeout. *)
Theorem remaining_seconds_wraps {sdk : SDK} original :
  0 ≤ Transfer_Timeout original → remaining_seconds original (max_timeout + 1) = 0.
Proof.
  intros Ho. unfold remaining_seconds. replace (uint32 _) with 0 by reflexivity.
  destruct (Z.ltb_spec (Transfer_Timeout original) 0); lia.
Qed.
Lemma remaining_seconds_wraps_witness :
  let o := mkTransfer (sdk := ModelSDK) Uint128_zero Uint128_zero Uint128_zero Uint128_zero Uint128_zero
             Uint128_zero 0 0 4294967295 1 TransferCodeAuthorization 2 0 in
  remaining_seconds o (max_timeout + 1) = 0.
Proof. apply remaining_seconds_wraps. discriminate. Defined.
