(* ===== verification/Invariant.v ===== *)
(** * The invariant of the shared state, for every interleaving

    [service_inv] holds between any two effects of any set of concurrent
    handlers: the ledger is well formed, the cache is well formed and coherent
    with the ledger, and every transfer in the ledger follows one of the recipes
    of the accounting model.  The lemmas of this file give each effect and each
    helper of the service its rely-guarantee rule. *)
From S2P Require Import Prelude GoBase GoCrypto Domain TigerBeetle TigerBeetleModel LedgerModel.
From S2P Require Import Cache Health Interface Semantics Contract Service ServiceSpec Operations.
From S2P Require Import OperationsSpec.
Import GoInt GoError GoTime.
Local Open Scope Z_scope.

Section invariant.
Context {sdk : SDK} {L : Type} {ledger : Ledger L} {view : LedgerView L}.
Context (s : Service).

(** The ledger holds an account under [id] that the service recognises. *)
Definition known (l : L) (id : Uint128) (md : accountMetadata) : Prop :=
  ∃ a, account_of l id = Some a ∧ metadataForAccount s a = Some md.
Definition known_kind (l : L) (id : Uint128) (kind : AccountKind) : Prop :=
  ∃ md, known l id md ∧ metadata_kind md = kind.

Lemma known_ext l l' id md : ledger_ext l l' → known l id md → known l' id md.
Proof.
  intros [Ha _] (a & H & Hmd). destruct (Ha _ _ H) as (a' & H' & Hs & _).
  exists a'. split; [done|]. by rewrite <- (metadataForAccount_definition s a a').
Qed.
(** The ledger has [a] under [id], but for the balances. *)
Definition as_defined (l : L) (id : Uint128) (a : Account) : Prop :=
  ∃ a', account_of l id = Some a' ∧ same_definition a a' ∧ Account_Timestamp a = Account_Timestamp a'.
Lemma as_defined_ext l l' id a : ledger_ext l l' → as_defined l id a → as_defined l' id a.
Proof.
  intros [Ha _] (b & Hb & Hs & Ht). destruct (Ha _ _ Hb) as (b' & Hb' & Hs' & Ht').
  exists b'. split_and!; [done|by etransitivity|congruence].
Qed.

Lemma known_kind_ext l l' id kind : ledger_ext l l' → known_kind l id kind → known_kind l' id kind.
Proof. intros He (md & H & Hk). exists md. split; [by eapply known_ext|done]. Qed.

(** ** Transfer recipes *)

(** A posted transfer between two accounts. *)
Definition posted_recipe (l : L) (t : Transfer) (code : Z) (debit credit : L → Uint128 → Prop) : Prop :=
  Transfer_Code t = code ∧ Transfer_Flags t = 0 ∧ Transfer_Timeout t = 0 ∧
  Transfer_UserData128 t = Uint128_zero ∧
  debit l (Transfer_DebitAccountID t) ∧ credit l (Transfer_CreditAccountID t).
(** A pending transfer from a card wallet to the settlement payable. *)
Definition hold_recipe (l : L) (t : Transfer) (code : Z) : Prop :=
  Transfer_Code t = code ∧ Transfer_Flags t = pendingFlag ∧
  known_kind l (Transfer_DebitAccountID t) AccountCardWallet ∧
  Transfer_CreditAccountID t = CardSettlementPayableAccountID.

Definition is_cash (_ : L) (id : Uint128) : Prop := id = SafeguardedCashAccountID.
Definition is_kind (kind : AccountKind) (l : L) (id : Uint128) : Prop := known_kind l id kind.

(** The card wallet [card] belongs to the corporate wallet [corporate]. *)
Definition linked (l : L) (corporate card : Uint128) : Prop :=
  known_kind l corporate AccountCorporateWallet ∧
  known l card (mkAccountMetadata AccountCardWallet corporate).

(** The transfer journal of the accounting model: what a transfer of this
    service's ledger may be. *)
Inductive recipe (l : L) (t : Transfer) : Prop :=
| recipe_topup :
    posted_recipe l t TransferCodeTopUp is_cash (is_kind AccountCorporateWallet) → recipe l t
| recipe_withdrawal :
    posted_recipe l t TransferCodeWithdrawal (is_kind AccountCorporateWallet) is_cash → recipe l t
| recipe_allocation :
    posted_recipe l t TransferCodeCardAllocation (λ _ _, True) (λ _ _, True) →
    linked l (Transfer_DebitAccountID t) (Transfer_CreditAccountID t) → recipe l t
| recipe_return :
    posted_recipe l t TransferCodeCardReturn (λ _ _, True) (λ _ _, True) →
    linked l (Transfer_CreditAccountID t) (Transfer_DebitAccountID t) → recipe l t
| recipe_authorization :
    hold_recipe l t TransferCodeAuthorization → Transfer_UserData128 t = Transfer_ID t → recipe l t
| recipe_increment original :
    hold_recipe l t TransferCodeAuthorizationIncrement →
    Transfer_UserData128 t ≠ Transfer_ID t →
    transfer_of l (Transfer_UserData128 t) = Some original →
    open_authorization s original →
    Transfer_DebitAccountID original = Transfer_DebitAccountID t →
    Transfer_UserData64 original = Transfer_UserData64 t →
    Transfer_UserData32 original = Transfer_UserData32 t → recipe l t.

Definition conforms (l : L) (t : Transfer) : Prop :=
  recipe l t ∧ Transfer_Ledger t = ledgerID s ∧ Transfer_PendingID t = Uint128_zero.

Lemma linked_ext l l' a b : ledger_ext l l' → linked l a b → linked l' a b.
Proof. intros He [H1 H2]. split; [by eapply known_kind_ext|by eapply known_ext]. Qed.

Lemma conforms_ext l l' t : ledger_ext l l' → conforms l t → conforms l' t.
Proof.
  intros He [Hr Hrest]. split; [|done]. pose proof He as [_ Ht].
  destruct Hr as [(?&?&?&?&?&?)|(?&?&?&?&?&?)|(?&?&?&?&?&?)|(?&?&?&?&?&?)|(?&?&?&?)|o (?&?&?&?)].
  - apply recipe_topup. split_and!; try done. by eapply known_kind_ext.
  - apply recipe_withdrawal. split_and!; try done. by eapply known_kind_ext.
  - apply recipe_allocation; [done|]. by eapply linked_ext.
  - apply recipe_return; [done|]. by eapply linked_ext.
  - apply recipe_authorization; [|done]. split_and!; try done. by eapply known_kind_ext.
  - eapply recipe_increment; eauto. split_and!; try done. by eapply known_kind_ext.
Qed.

Lemma conforms_payload l t t' : same_payload t t' → conforms l t → conforms l t'.
Proof.
  intros [[] Hto] (Hr & Hl & Hp).
  split_and!; [|congruence..].
  destruct Hr as [(?&?&?&?&?&?)|(?&?&?&?&?&?)|(?&?&?&?&?&?)|(?&?&?&?&?&?)|(?&?&?&?)|o (?&?&?&?)];
    [apply recipe_topup|apply recipe_withdrawal|apply recipe_allocation|apply recipe_return
    |apply recipe_authorization|eapply (recipe_increment _ _ o)];
    unfold posted_recipe, hold_recipe, is_cash, is_kind in *;
    repeat match goal with
    | H : _ t = _ t' |- _ => rewrite H in *; clear H
    end; split_and?; congruence || eauto.
Qed.

(** No recipe has other flags. *)
Lemma conforms_ordinary l t : conforms l t → ordinary t.
Proof.
  intros [Hr _]. destruct Hr as [(_&Hf&_)|(_&Hf&_)|(_&Hf&_)|(_&Hf&_)|(_&Hf&_)|? (_&Hf&_)];
    first [by left|by right].
Qed.

(** ** The shared invariant *)

Record coherent (l : L) (c : metadataCache) : Prop := {
  coh_wf : cache_wf c;
  coh_known id md : cache_entries c !! id = Some md → known l id md }.

Record service_inv (l : L) (c : metadataCache) : Prop := {
  inv_wf : ledger_wf l;
  inv_cache : coherent l c;
  inv_transfers id t :
    transfer_of l id = Some t → Transfer_Ledger t = ledgerID s → conforms l t }.

Lemma coherent_ext l l' c : ledger_ext l l' → coherent l c → coherent l' c.
Proof. intros He [Hwf Hk]. split; [done|]. intros id md H. by eapply known_ext, Hk. Qed.

Lemma coherent_load l c id md : coherent l c → metadataCache_Load c id = Some md → known l id md.
Proof. intros [_ Hk]. unfold metadataCache_Load. case_decide; [done|]. apply Hk. Qed.

Lemma coherent_store l c id md :
  coherent l c → known l id md → ∃ c', metadataCache_Store c id md = Some c' ∧ coherent l c'.
Proof.
  intros [Hwf Hk] Hmd. destruct (Store_total c id md Hwf) as [c' Hs]. exists c'. split; [done|].
  split; [by eapply Store_wf|]. intros i m Hi.
  destruct (Store_entries _ _ _ _ _ _ Hs Hi) as [?|[-> ->]]; [by apply Hk|done].
Qed.

(** The invariant only looks at what [ledger_ext] keeps, and at new transfers. *)
Lemma inv_step l l' c :
  service_inv l c → ledger_wf l' → ledger_ext l l' →
  (∀ id t, transfer_of l' id = Some t → transfer_of l id = None → conforms l' t) →
  service_inv l' c.
Proof.
  intros [Hwf Hc Ht] Hwf' He Hnew. split; [done|by eapply coherent_ext|].
  intros id t H Hl. destruct (transfer_of l id) as [u|] eqn:Hu; [|by eapply Hnew].
  pose proof (proj2 He _ _ Hu) as Hu'. simplify_eq. by eapply conforms_ext, Ht.
Qed.

Lemma inv_view l l' c : service_inv l c → ledger_wf l' → same_view l l' → service_inv l' c.
Proof.
  intros Hi Hwf Hv. eapply inv_step; [done..|by apply same_view_ext|].
  intros id t H Hn. rewrite (proj2 Hv) in H. congruence.
Qed.
End invariant.

(** The invariant depends on the service's ledger id only. *)
Section configuration.
Context {sdk : SDK} {L : Type} {view : LedgerView L}.

Lemma new_cache_coherent s (l : L) size : coherent s l (newMetadataCache size).
Proof. split; [apply newMetadataCache_wf|]. intros id md. cbn. by rewrite lookup_empty. Qed.

Lemma metadataForAccount_ledgerID s s' a :
  ledgerID s = ledgerID s' → metadataForAccount s a = metadataForAccount s' a.
Proof. unfold metadataForAccount. by intros ->. Qed.

Lemma known_ledgerID s s' (l : L) id md : ledgerID s = ledgerID s' → known s l id md → known s' l id md.
Proof.
  intros Hl (a & Ha & Hmd). exists a. split; [done|]. by rewrite <- (metadataForAccount_ledgerID s).
Qed.

Lemma conforms_ledgerID s s' (l : L) t : ledgerID s = ledgerID s' → conforms s l t → conforms s' l t.
Proof.
  intros Hl (Hr & Ht & Hp).
  assert (∀ id kind, known_kind s l id kind → known_kind s' l id kind) as Hk.
  { intros id kind (md & H & ?). exists md. split; [by eapply known_ledgerID|done]. }
  assert (∀ o, open_authorization s o → open_authorization s' o) as Ho by (intros o []; split; congruence).
  split_and!; [|congruence|done].
  destruct Hr as [(?&?&?&?&?&?)|(?&?&?&?&?&?)|(?&?&?&?&?&?) []|(?&?&?&?&?&?) []|(?&?&?&?)|o (?&?&?&?)].
  - apply recipe_topup. split_and!; auto. by apply Hk.
  - apply recipe_withdrawal. split_and!; auto. by apply Hk.
  - apply recipe_allocation; [by split_and!|]. split; [auto|by eapply known_ledgerID].
  - apply recipe_return; [by split_and!|]. split; [auto|by eapply known_ledgerID].
  - apply recipe_authorization; [|done]. split_and!; auto.
  - eapply recipe_increment; eauto. split_and!; auto.
Qed.

Lemma service_inv_ledgerID s s' (l : L) c :
  ledgerID s = ledgerID s' → service_inv s l c → service_inv s' l c.
Proof.
  intros Hl [Hwf [Hc Hk] Ht]. split; [done| |].
  - split; [done|]. intros id md H. by eapply known_ledgerID, Hk.
  - intros id t H Hlt. eapply conforms_ledgerID; [exact Hl|]. eapply Ht; [done|congruence].
Qed.
End configuration.

(** ** Futures of a ledger *)
Section futures.
Context {sdk : SDK} {L : Type} {ledger : Ledger L} {view : LedgerView L} {contract : LedgerContract L}.

Lemma definitions_same_ext (l l' : L) :
  definitions_same l l' → (∀ id t, transfer_of l id = Some t → transfer_of l' id = Some t) →
  ledger_ext l l'.
Proof.
  intros Hd Ht. split; [|done]. intros id a H. specialize (Hd id). rewrite H in Hd.
  destruct (account_of l' id) as [a'|]; [|done]. by exists a'.
Qed.

Lemma transfers_same_keep (l l' : L) id t :
  transfers_same l l' → transfer_of l id = Some t → transfer_of l' id = Some t.
Proof. intros H. by rewrite (H id). Qed.

Lemma transfer_added_keep (t : Transfer) (l l' : L) id u :
  transfer_added t l l' → transfer_of l id = Some u → transfer_of l' id = Some u.
Proof.
  intros (Hn & _ & Ho) H. rewrite Ho; [done|]. intros ->. congruence.
Qed.

Lemma create_transfer_change (l : L) t r l' :
  ledger_wf l → ordinary t → Ledger_CreateTransfer t l = (r, l') →
  ledger_wf l' ∧ definitions_same l l' ∧ ledger_ext l l' ∧
  (transfers_same l l' ∨ transfer_added t l l').
Proof.
  intros Hwf Hord Hc. pose proof (create_transfer_ok l t Hwf Hord) as H. rewrite Hc in H.
  destruct H as (Hwf' & Hd & Hr).
  assert (transfers_same l l' ∨ transfer_added t l l') as Hch
    by (destruct r; [by destruct Hr|by eapply transfer_answer_change]).
  split_and!; [done..| |done]. apply definitions_same_ext; [done|]. intros id u.
  destruct Hch; [by apply transfers_same_keep|by eapply transfer_added_keep].
Qed.

Lemma create_account_change (l : L) a r l' :
  ledger_wf l → Ledger_CreateAccount a l = (r, l') →
  ledger_wf l' ∧ transfers_same l l' ∧ ledger_ext l l' ∧
  (accounts_same l l' ∨ account_added a l l').
Proof.
  intros Hwf Hc. pose proof (create_account_ok l a Hwf) as H. rewrite Hc in H.
  destruct H as (Hwf' & Ht & Hr).
  assert (accounts_same l l' ∨ account_added a l l') as Hch
    by (destruct r; [by destruct Hr|by eapply account_answer_change]).
  split_and!; [done..| |done]. split; [|intros id t; by apply transfers_same_keep].
  intros id b Hb. destruct Hch as [Hs|(Hn & _ & Ho)]; exists b.
  - by rewrite Hs.
  - rewrite Ho; [done|]. intros ->. congruence.
Qed.
End futures.

(** ** Rely-guarantee rules of the effects and helpers *)
Section rules.
Context {sdk : SDK} {L : Type} {ledger : Ledger L} {view : LedgerView L} {contract : LedgerContract L}.
Context (s : Service).

(** [rg] at the invariant of this service. *)
Definition safe {A} (p : prog A) (Q : A → L → Prop) (l : L) : Prop :=
  rg (service_inv s) ledger_ext p Q l.

Lemma safe_call_pure {A X} (e : eff X) (k : X → prog A) Q l :
  (∀ K (l0 : L) c0 o0, (∀ x o1, K x l0 c0 o1) → eff_wp e K l0 c0 o0) →
  (∀ x l', ledger_ext l l' → safe (k x) Q l') → safe (Call e k) Q l.
Proof. apply rg_pure, _. Qed.

Lemma safe_now {A} (k : Time → prog A) Q l :
  (∀ t l', ledger_ext l l' → safe (k t) Q l') → safe (bind (call TimeNow) k) Q l.
Proof. intros H. apply safe_call_pure; [|exact H]. intros K l0 c0 o0 HK t _. apply HK. Qed.

Lemma safe_error {A} (e : error) (Q : result error A → L → Prop) l :
  (∀ l', ledger_ext l l' → Q (inl e) l') → safe (Ret (inl e)) Q l.
Proof. done. Qed.

Lemma safe_ret {A} (a : A) (Q : A → L → Prop) l :
  (∀ l', ledger_ext l l' → Q a l') → safe (Ret a) Q l.
Proof. done. Qed.

Lemma safe_lookup_account m id (Q : result error (Account * bool) → L → Prop) l :
  (∀ r l', ledger_ext l l' →
    (∀ a, r = inr (a, true) → Account_ID a = id ∧
      (∀ md, metadataForAccount s a = Some md → known s l' id md) ∧ as_defined l' id a) → Q r l') →
  safe (observedLedger_LookupAccount m id) Q l.
Proof.
  intros HQ. apply rg_observed; [apply _|]. intros l0 c0 o0 Hl0 Hinv. cbn.
  pose proof (lookup_account_ok l0 id (inv_wf _ _ _ Hinv)) as H.
  destruct (Ledger_LookupAccount id l0) as [r l1]. destruct H as (Hwf & Hv & Hr).
  pose proof (same_view_ext _ _ Hv) as He. split_and!; [done|by eapply inv_view|].
  intros l' Hl'. apply HQ; [by do 2 (etransitivity; [done|])|].
  intros a ->. assert (ledger_ext l0 l') as He' by (etransitivity; [exact He|exact Hl']).
  split_and!; [eapply account_key; [apply Hinv|done]| |].
  - intros md Hmd. eapply known_ext; [exact He'|]. by exists a.
  - eapply as_defined_ext; [exact He'|]. by exists a.
Qed.

Lemma safe_lookup_transfer m id (Q : result error (Transfer * bool) → L → Prop) l :
  (∀ r l', ledger_ext l l' →
    (∀ t, r = inr (t, true) → Transfer_ID t = id ∧ transfer_of l' id = Some t) → Q r l') →
  safe (observedLedger_LookupTransfer m id) Q l.
Proof.
  intros HQ. apply rg_observed; [apply _|]. intros l0 c0 o0 Hl0 Hinv. cbn.
  pose proof (lookup_transfer_ok l0 id (inv_wf _ _ _ Hinv)) as H.
  destruct (Ledger_LookupTransfer id l0) as [r l1]. destruct H as (Hwf & Hv & Hr).
  pose proof (same_view_ext _ _ Hv) as He. split_and!; [done|by eapply inv_view|].
  intros l' Hl'. apply HQ; [by do 2 (etransitivity; [done|])|].
  intros t ->. split; [eapply transfer_key; [apply Hinv|done]|].
  apply Hl', (proj2 He), Hr.
Qed.

Definition account_stored (a : Account) (r : result error CreateAccountResult) (l : L) : Prop :=
  ∀ res, r = inr res → AccountResult_Status res = AccountCreated ∨ AccountResult_Status res = AccountExists →
  ∀ md, metadataForAccount s a = Some md → known s l (Account_ID a) md.

Lemma account_stored_known a (l l' : L) r md :
  account_answer a l l' r → ledger_ext l l' →
  AccountResult_Status r = AccountCreated ∨ AccountResult_Status r = AccountExists →
  metadataForAccount s a = Some md → known s l' (Account_ID a) md.
Proof.
  unfold account_answer. intros H He Hs Hmd.
  assert (∃ a', account_of l' (Account_ID a) = Some a' ∧ same_definition a a') as (a' & Ha' & Hd).
  { destruct Hs as [Hs|Hs]; rewrite Hs in H; [by destruct H as (_ & ? & _)|].
    destruct H as [Hsame (a' & Ha' & ?)]. exists a'. by rewrite Hsame. }
  exists a'. split; [done|]. by rewrite <- (metadataForAccount_definition s a a').
Qed.

Lemma safe_create_account m a (Q : result error CreateAccountResult → L → Prop) l :
  (∀ r l', ledger_ext l l' → account_stored a r l' → Q r l') →
  safe (observedLedger_CreateAccount m a) Q l.
Proof.
  intros HQ. apply rg_observed; [apply _|]. intros l0 c0 o0 Hl0 Hinv. cbn.
  pose proof (create_account_ok l0 a (inv_wf _ _ _ Hinv)) as Hok.
  destruct (Ledger_CreateAccount a l0) as [r l1] eqn:Hc.
  destruct (create_account_change l0 a r l1 (inv_wf _ _ _ Hinv) Hc) as (Hwf & Ht & He & _).
  destruct Hok as (_ & _ & Hr). split_and!; [done| |].
  - eapply inv_step; [done..|]. intros id t H Hn. rewrite (Ht id) in H. congruence.
  - intros l' Hl'. apply HQ; [by do 2 (etransitivity; [done|])|].
    intros res -> Hs md Hmd. eapply known_ext; [exact Hl'|]. by eapply account_stored_known.
Qed.

(** What a successful answer to [CreateTransfer] establishes for good. *)
Definition transfer_stored (t : Transfer) (r : result error CreateTransferResult) (l : L) : Prop :=
  ∀ res, r = inr res →
  TransferResult_Status res = TransferCreated ∨ TransferResult_Status res = TransferExists →
  ∃ t', transfer_of l (Transfer_ID t) = Some t' ∧ stamped t (TransferResult_Timestamp res) t'.

Lemma transfer_answer_stored t (l l' : L) r :
  transfer_answer t l l' r → transfer_stored t (inr r) l'.
Proof.
  unfold transfer_answer. intros H res [= <-] Hs.
  destruct Hs as [Hs|Hs]; rewrite Hs in H; [by destruct H|].
  destruct H as [Hsame (t' & Ht' & ?)]. exists t'. by rewrite (Hsame (Transfer_ID t)).
Qed.

Lemma safe_create_transfer m t (Q : result error CreateTransferResult → L → Prop) l :
  conforms s l t →
  (∀ r l', ledger_ext l l' → transfer_stored t r l' → Q r l') →
  safe (observedLedger_CreateTransfer m t) Q l.
Proof.
  intros Hcf HQ. apply rg_observed; [apply _|]. intros l0 c0 o0 Hl0 Hinv. cbn.
  pose proof (conforms_ordinary s l t Hcf) as Hord.
  pose proof (create_transfer_ok l0 t (inv_wf _ _ _ Hinv) Hord) as Hok.
  destruct (Ledger_CreateTransfer t l0) as [r l1] eqn:Hc.
  destruct (create_transfer_change l0 t r l1 (inv_wf _ _ _ Hinv) Hord Hc) as (Hwf & _ & He & Hch).
  destruct Hok as (_ & _ & Hr). split_and!; [done| |].
  - eapply inv_step; [done..|]. intros id u Hu Hn.
    destruct Hch as [Hs|(_ & (t' & Ht' & Hp) & Ho)]; [rewrite (Hs id) in Hu; congruence|].
    destruct (decide (id = Transfer_ID t)) as [->|Hne]; [|rewrite Ho in Hu by done; congruence].
    simplify_eq. eapply conforms_payload; [done|].
    eapply conforms_ext; [|exact Hcf]. by etransitivity.
  - intros l' Hl'. apply HQ; [by do 2 (etransitivity; [done|])|].
    destruct r as [|r]; [done|]. intros res Hres Hs.
    destruct (transfer_answer_stored _ _ _ _ Hr res Hres Hs) as (t' & Ht' & ?).
    exists t'. split; [by apply Hl'|done].
Qed.

Lemma safe_bind {A B} (p : prog A) (f : A → prog B) Q l :
  safe p (λ a l', safe (f a) Q l') l → safe (bind p f) Q l.
Proof. intros H. apply rg_bind; [apply _|exact H]. Qed.

Lemma safe_bind_err {A B} (p : prog (result error A)) (f : A → prog (result error B)) Q l :
  safe p (λ r l', match r with
                  | inl e => ∀ l'', ledger_ext l' l'' → Q (inl e) l''
                  | inr a => safe (f a) Q l' end) l →
  safe (bind_err p f) Q l.
Proof. intros H. apply rg_bind_err; [apply _|exact H]. Qed.

Lemma safe_ext {A} (p : prog A) Q l l' : ledger_ext l l' → safe p Q l → safe p Q l'.
Proof. apply rg_ext, _. Qed.

(** A pure fallible call. *)
Lemma safe_let {A B} (r : result error A) (f : A → prog (result error B)) Q l :
  (∀ e, r = inl e → ∀ l', ledger_ext l l' → Q (inl e) l') →
  (∀ a, r = inr a → safe (f a) Q l) → safe (bind_err (Ret r) f) Q l.
Proof. intros He Ha. destruct r; cbn; [by apply He|by apply Ha]. Qed.

Lemma safe_cache_store id md (Q : unit → L → Prop) l :
  known s l id md → (∀ l', ledger_ext l l' → Q tt l') → safe (cache_store id md) Q l.
Proof.
  intros Hk HQ. unfold cache_store. intros l0 c0 o0 Hl0 Hinv. cbn.
  destruct (coherent_store s l0 c0 id md (inv_cache _ _ _ Hinv)) as (c' & -> & Hc').
  { by eapply known_ext. }
  split_and!; [done| |].
  - destruct Hinv. by split.
  - intros l' Hl'. apply HQ. by etransitivity.
Qed.

Lemma safe_rememberAccount a (Q : unit → L → Prop) l :
  (∀ md, metadataForAccount s a = Some md → known s l (Account_ID a) md) →
  (∀ l', ledger_ext l l' → Q tt l') → safe (rememberAccount s a) Q l.
Proof.
  intros Hk HQ. unfold rememberAccount.
  destruct (metadataForAccount s a) as [md|]; [|done]. by apply safe_cache_store; [apply Hk|].
Qed.

Lemma safe_cache_load {A} id (k : option accountMetadata → prog A) Q l :
  (∀ r l', ledger_ext l l' → (∀ md, r = Some md → known s l' id md) → safe (k r) Q l') →
  safe (bind (call (CacheLoad id)) k) Q l.
Proof.
  intros H l0 c0 o0 Hl0 Hinv. cbn [eff_wp]. split_and!; [done..|]. apply H; [done|].
  intros md Hload. eapply coherent_load; [apply Hinv|done].
Qed.

(** [requireAccountKind] answers the metadata of an account of the ledger, from
    the cache or from a lookup, or an error. *)
Lemma safe_requireAccountKind id kind (Q : result error accountMetadata → L → Prop) l :
  (∀ e l', ledger_ext l l' → Q (inl e) l') →
  (∀ md l', ledger_ext l l' → known s l' id md → metadata_kind md = kind → Q (inr md) l') →
  safe (requireAccountKind s id kind) Q l.
Proof.
  intros He HQ. unfold requireAccountKind. apply safe_cache_load.
  intros [md|] l0 Hl0 Hload.
  - specialize (Hload md eq_refl).
    case_decide; [|by apply safe_ret; intros; apply He; etransitivity].
    apply safe_ret. intros l' Hl'. apply HQ; [by etransitivity|by eapply known_ext|done].
  - apply safe_bind_err, safe_lookup_account. intros r l1 Hl1 Hr.
    assert (∀ l', ledger_ext l1 l' → ledger_ext l l') as Htr
      by (intros; do 2 (etransitivity; [done|]); done).
    destruct r as [e|[a found]]; [by eauto|]. cbn [fst snd].
    destruct (metadataForAccount s a) as [md|] eqn:Hmd; [|by apply safe_ret; eauto].
    destruct found; cbn [andb]; [|by apply safe_ret; eauto].
    destruct (Hr a eq_refl) as (_ & Hk & _). specialize (Hk md Hmd).
    case_bool_decide; [|by apply safe_ret; eauto].
    apply safe_bind, safe_cache_store; [done|]. intros l2 Hl2. apply safe_ret.
    intros l3 Hl3. assert (ledger_ext l1 l3) by by etransitivity.
    apply HQ; [by auto|by eapply known_ext|done].
Qed.

Lemma safe_observeCompletion kind id status amount started lst attrs (Q : unit → L → Prop) l :
  (∀ l', ledger_ext l l' → Q tt l') →
  safe (observeCompletion s kind id status amount started lst attrs) Q l.
Proof.
  intros HQ. unfold observeCompletion. apply safe_now. intros t l1 Hl1.
  destruct (metrics s); cbn [bind call]; repeat (apply safe_call_pure;
    [by intros K l0 c0 o0 HK; apply HK|]; intros [] ? ?).
  all: apply safe_ret; intros; apply HQ; by repeat (etransitivity; [done|]).
Qed.
End rules.

(** Transitivity of [ledger_ext] from the hypotheses. *)
Ltac ext_trans := solve [repeat (first [assumption | reflexivity | etransitivity; [eassumption|]])].
#[export] Hint Extern 1 (ledger_ext _ _) => ext_trans : ledger.
