(* ===== verification/Safety.v ===== *)
(** * Every operation, at any point of any interleaving

    For each method of the service: it cannot panic, it keeps [service_inv], and
    what its answer claims is in the ledger for good (the [*_truth]
    predicates). *)
From stdpp Require Import pretty.
From S2P Require Import Prelude GoBase GoCrypto Domain TigerBeetle TigerBeetleModel LedgerModel.
From S2P Require Import Cache Health Interface Semantics Contract Service ServiceSpec Operations.
From S2P Require Import OperationsSpec Invariant.
Import GoInt GoError GoTime.
Local Open Scope Z_scope.

Section truth.
Context {sdk : SDK} {L : Type} {ledger : Ledger L} {view : LedgerView L}.
Context (s : Service).

(** The ledger holds [t], stamped [ts]. *)
Definition committed_as (t : Transfer) (ts : Z) (l : L) : Prop :=
  ∃ t', transfer_of l (Transfer_ID t) = Some t' ∧ stamped t ts t'.

Lemma committed_as_ext t ts l l' : ledger_ext l l' → committed_as t ts l → committed_as t ts l'.
Proof. intros [_ He] (t' & H & ?). exists t'. split; [by apply He|done]. Qed.

Local Open Scope go_scope.

Definition positive (amount : Z) : result error unit :=
  if amount =? 0 then inl (invalid "amount_cents must be positive") else inr tt.

(** The transfer a valid request asks for. *)
Definition topup_transfer (request : TopUpRequest) : result error Transfer :=
  let? account := accountID "account_id" (TopUpRequest_AccountID request) in
  let? _p := positive (TopUpRequest_AmountCents request) in
  let? id := requestID (TopUpRequest_RequestID request) in
  inr (posted_transfer s id SafeguardedCashAccountID account (TopUpRequest_AmountCents request)
         TransferCodeTopUp).
Definition withdrawal_transfer (request : WithdrawalRequest) : result error Transfer :=
  let? account := accountID "account_id" (WithdrawalRequest_AccountID request) in
  let? _p := positive (WithdrawalRequest_AmountCents request) in
  let? id := requestID (WithdrawalRequest_RequestID request) in
  inr (posted_transfer s id account SafeguardedCashAccountID
         (WithdrawalRequest_AmountCents request) TransferCodeWithdrawal).
Definition allocation_transfer (request : CardAllocationRequest) : result error Transfer :=
  let? account := accountID "account_id" (CardAllocationRequest_AccountID request) in
  let? card := accountID "card_id" (CardAllocationRequest_CardID request) in
  let? _p := positive (CardAllocationRequest_AmountCents request) in
  let? id := requestID (CardAllocationRequest_RequestID request) in
  inr (posted_transfer s id account card (CardAllocationRequest_AmountCents request)
         TransferCodeCardAllocation).
Definition return_transfer (request : CardReturnRequest) : result error Transfer :=
  let? account := accountID "account_id" (CardReturnRequest_AccountID request) in
  let? card := accountID "card_id" (CardReturnRequest_CardID request) in
  let? _p := positive (CardReturnRequest_AmountCents request) in
  let? id := requestID (CardReturnRequest_RequestID request) in
  inr (posted_transfer s id card account (CardReturnRequest_AmountCents request)
         TransferCodeCardReturn).
Definition hold_transfer (request : AuthorizationRequest) : result error Transfer :=
  let? card := accountID "card_id" (AuthorizationRequest_CardID request) in
  let? _p := positive (AuthorizationRequest_AmountCents request) in
  let? id := requestID (AuthorizationRequest_RequestID request) in
  inr (authorization_transfer s id card (AuthorizationRequest_MerchantID request)
         (AuthorizationRequest_AmountCents request)).

(** An answer is [failed], or [posted] and names a transfer of the ledger. *)
Definition posted_truth (spec : result error Transfer)
    (r : result error (TransactionResponse * Z)) (l : L) : Prop :=
  ∀ response status, r = inr (response, status) →
  TransactionResponse_Status response = "failed" ∨
  TransactionResponse_Status response = "posted" ∧
  ∃ t, spec = inr t ∧ committed_as t (TransactionResponse_Timestamp response) l.

(** The answer to an authorization that was not made. *)
Definition unapproved (status : string) : Prop := status = "declined" ∨ status = "failed".

(** An authorization is [declined] or [failed], or it is [approved] and names a
    pending hold of the ledger. *)
Definition authorization_truth (request : AuthorizationRequest)
    (r : result error (AuthorizationResponse * Z)) (l : L) : Prop :=
  ∀ response status, r = inr (response, status) →
  unapproved (AuthorizationResponse_Status response) ∨
  AuthorizationResponse_Status response = "approved" ∧
  ∃ t, hold_transfer request = inr t ∧ committed_as t (AuthorizationResponse_Timestamp response) l.

(** So is an increment, and an [approved] one names a hold in the group of an
    authorization. *)
Definition increment_truth (request : IncrementAuthorizationRequest)
    (r : result error (IncrementAuthorizationResponse * Z)) (l : L) : Prop :=
  ∀ response status, r = inr (response, status) →
  unapproved (IncrementAuthorizationResponse_Status response) ∨
  IncrementAuthorizationResponse_Status response = "approved" ∧
  ∃ authorizationID incrementID original hold,
    increment_ids request = inr (authorizationID, incrementID) ∧
    transfer_of l authorizationID = Some original ∧ open_authorization s original ∧
    transfer_of l incrementID = Some hold ∧
    same_but_timeout (increment_transfer s original incrementID authorizationID
      (IncrementAuthorizationRequest_IncrementCents request) 0) hold ∧
    Transfer_Timestamp hold = IncrementAuthorizationResponse_Timestamp response.

(** A created account is in the ledger under the definition asked for, and a
    card's parent is a corporate wallet. *)
Definition account_truth (request : CreateAccountRequest)
    (r : result error (AccountResponse * Z)) (l : L) : Prop :=
  ∀ response status, r = inr (response, status) →
  ∃ id parent, accountID "account_id" (CreateAccountRequest_AccountID request) = inr id ∧
    known s l id (mkAccountMetadata (CreateAccountRequest_Kind request) parent) ∧
    (CreateAccountRequest_Kind request = AccountCardWallet →
      accountID "corporate_account_id" (CreateAccountRequest_CorporateAccountID request) = inr parent ∧
      known_kind s l parent AccountCorporateWallet).

(** The response for an account of the ledger, as decimal strings: an asset
    (the safeguarded cash) counts debits less credits, a liability credits
    less debits, and pending amounts on the decreasing side are not available. *)
Definition balance_view (a : Account) (md : accountMetadata) : BalanceResponse :=
  let dpe := Uint128_BigInt (Account_DebitsPending a) in
  let dpo := Uint128_BigInt (Account_DebitsPosted a) in
  let cpe := Uint128_BigInt (Account_CreditsPending a) in
  let cpo := Uint128_BigInt (Account_CreditsPosted a) in
  let asset := bool_decide (metadata_kind md = AccountSafeguardedCash) in
  mkBalanceResponse (Uint128_String (Account_ID a)) (metadata_kind md) (publicID (Account_UserData128 a))
    (pretty dpe) (pretty dpo) (pretty cpe) (pretty cpo)
    (pretty (if asset then dpo - cpo else cpo - dpo))
    (pretty (if asset then dpo - cpo - cpe else cpo - dpo - dpe))
    (Account_Timestamp a).

Lemma balances_spec a kind :
  balances a kind =
  (if bool_decide (kind = AccountSafeguardedCash)
   then (Uint128_BigInt (Account_DebitsPosted a) - Uint128_BigInt (Account_CreditsPosted a),
         Uint128_BigInt (Account_DebitsPosted a) - Uint128_BigInt (Account_CreditsPosted a) -
         Uint128_BigInt (Account_CreditsPending a))
   else (Uint128_BigInt (Account_CreditsPosted a) - Uint128_BigInt (Account_DebitsPosted a),
         Uint128_BigInt (Account_CreditsPosted a) - Uint128_BigInt (Account_DebitsPosted a) -
         Uint128_BigInt (Account_DebitsPending a))).
Proof. unfold balances. case_decide; [by rewrite bool_decide_eq_true_2|by rewrite bool_decide_eq_false_2]. Qed.

(** A balance is the view of an account of the ledger, as it was when it was read:
    its figures may have moved since, its definition and its timestamp have not. *)
Definition balance_truth (value : string) (r : result error BalanceResponse) (l : L) : Prop :=
  ∀ response, r = inr response →
  ∃ id a md, parsePublicTigerBeetleID value = inr id ∧ as_defined l id a ∧
    metadataForAccount s a = Some md ∧ response = balance_view a md.

Definition system_truth (r : result error unit) (l : L) : Prop :=
  r = inr tt → Forall (λ '(kind, id), known_kind s l id kind) systemAccounts.
End truth.

(** Step through the common prefixes of the handlers. *)
Ltac safe_step :=
  lazymatch goal with
  | |- Invariant.safe _ (bind_err (Ret _) _) _ _ =>
      apply safe_let; [intros ? ? ? ? ? ? ?; discriminate|intros ? ?]
  | |- Invariant.safe _ (bind (call TimeNow) _) _ _ => apply safe_now; intros ? ? ?
  | |- Invariant.safe _ (if ?b then _ else _) _ _ => destruct b eqn:?
  | |- Invariant.safe _ (Ret (inl _)) _ _ => apply safe_ret; intros ? ? ? ? ?; discriminate
  end.

(** Rewrite with the identifiers a prefix has accepted. *)
Ltac use_ids :=
  unfold positive;
  repeat match goal with H : _ = inr _ |- _ => rewrite H; clear H end;
  repeat match goal with H : (_ =? 0) = false |- _ => rewrite H; clear H end; reflexivity.

Section operations.
Context {sdk : SDK} {L : Type} {ledger : Ledger L} {view : LedgerView L} {contract : LedgerContract L}.
Context (s : Service).
#[local] Abbreviation safe := (safe s).

(** *** Posted transfers *)

Lemma safe_executeTransaction kind rid t (Q : result error (TransactionResponse * Z) → L → Prop) l :
  conforms s l t →
  (∀ r l', ledger_ext l l' →
    (∀ response status, r = inr (response, status) →
      TransactionResponse_Status response = "failed" ∨
      TransactionResponse_Status response = "posted" ∧
      committed_as t (TransactionResponse_Timestamp response) l') → Q r l') →
  safe (executeTransaction s kind rid t "posted") Q l.
Proof.
  intros Hc HQ. unfold executeTransaction. apply safe_now. intros started l1 Hl1.
  apply safe_bind, safe_create_transfer; [by eapply conforms_ext|]. intros r l2 Hl2 Hr.
  destruct r as [e|r].
  { apply safe_bind, safe_observeCompletion. intros l3 Hl3. apply safe_ret. intros l4 Hl4.
    apply HQ; [auto with ledger|done]. }
  destruct (isIdempotencyConflict _).
  { apply safe_bind, safe_observeCompletion. intros l3 Hl3. apply safe_ret. intros l4 Hl4.
    apply HQ; [auto with ledger|done]. }
  destruct (errorCode _) as [[code msg] status].
  apply safe_bind, safe_observeCompletion. intros l3 Hl3. apply safe_ret. intros l4 Hl4.
  apply HQ; [auto with ledger|]. intros resp st [= <- <-]. cbn.
  destruct (bool_decide (TransferResult_Status r = TransferCreated)) eqn:E1;
    [|destruct (bool_decide (TransferResult_Status r = TransferExists)) eqn:E2; [|by left]];
    right; (split; [done|]); bool_simpl; (eapply committed_as_ext; [|apply Hr; [done|tauto]]); auto with ledger.
Qed.

Lemma posted_conforms (l : L) id debit credit amount code :
  recipe s l (posted_transfer s id debit credit amount code) →
  conforms s l (posted_transfer s id debit credit amount code).
Proof. done. Qed.

Lemma TopUp_safe request l :
  safe (TopUp s request) (posted_truth (topup_transfer s request)) l.
Proof.
  unfold TopUp. do 3 safe_step.
  apply safe_bind_err, safe_requireAccountKind; [by intros|]. intros md l1 Hl1 Hk Hkind.
  apply safe_executeTransaction.
  - apply posted_conforms, recipe_topup. split_and!; try done. by exists md.
  - intros r l2 Hl2 Hr resp st ->. destruct (Hr _ _ eq_refl) as [?|[? ?]]; [by left|right].
    split; [done|]. eexists. split; [|done]. unfold topup_transfer. use_ids.
Qed.

Lemma Withdraw_safe request l :
  safe (Withdraw s request) (posted_truth (withdrawal_transfer s request)) l.
Proof.
  unfold Withdraw. do 3 safe_step.
  apply safe_bind_err, safe_requireAccountKind; [by intros|]. intros md l1 Hl1 Hk Hkind.
  apply safe_executeTransaction.
  - apply posted_conforms, recipe_withdrawal. split_and!; try done. by exists md.
  - intros r l2 Hl2 Hr resp st ->. destruct (Hr _ _ eq_refl) as [?|[? ?]]; [by left|right].
    split; [done|]. eexists. split; [|done]. unfold withdrawal_transfer. use_ids.
Qed.

(** [moveCardFunds] transfers between a card and the wallet it belongs to. *)
Lemma moveCardFunds_safe kind rid account_value card_value amount back l
    (Q : result error (TransactionResponse * Z) → L → Prop) :
  (∀ e l', ledger_ext l l' → Q (inl e) l') →
  (∀ account card id r l', ledger_ext l l' →
    accountID "account_id" account_value = inr account → accountID "card_id" card_value = inr card →
    (amount =? 0) = false → requestID rid = inr id →
    (∀ response status, r = inr (response, status) →
      TransactionResponse_Status response = "failed" ∨
      TransactionResponse_Status response = "posted" ∧
      committed_as
        (if back : bool then posted_transfer s id card account amount TransferCodeCardReturn
         else posted_transfer s id account card amount TransferCodeCardAllocation)
        (TransactionResponse_Timestamp response) l') → Q r l') →
  safe (moveCardFunds s kind rid account_value card_value amount back) Q l.
Proof.
  intros He HQ. unfold moveCardFunds.
  apply safe_let; [by auto|]. intros account Ha. apply safe_let; [by auto|]. intros card Hc.
  destruct (amount =? 0) eqn:Hamount; [by apply safe_ret; auto|].
  apply safe_let; [by auto|]. intros id Hid.
  apply safe_bind_err, safe_requireAccountKind; [intros; apply He; auto with ledger|].
  intros md l1 Hl1 Hk Hkind.
  apply safe_bind_err, safe_requireAccountKind; [intros; apply He; auto with ledger|].
  intros cmd l2 Hl2 Hck Hckind.
  case_decide as Hlink; [apply safe_ret; intros; apply He; auto with ledger|].
  assert (linked s l2 account card) as Hlinked.
  { split; [exists md; split; [by eapply known_ext|done]|].
    destruct cmd as [k p]. cbn in Hckind, Hlink. by rewrite Hckind, Hlink in Hck. }
  destruct back; (apply safe_executeTransaction;
    [apply posted_conforms|intros r l3 Hl3 Hr; by eapply (HQ account card id); [auto with ledger|..]]).
  - by apply recipe_return.
  - by apply recipe_allocation.
Qed.

Lemma AllocateToCard_safe request l :
  safe (AllocateToCard s request) (posted_truth (allocation_transfer s request)) l.
Proof.
  apply moveCardFunds_safe; [by intros|]. intros account card id r l' Hl' ? ? ? ? Hr resp st ->.
  destruct (Hr _ _ eq_refl) as [?|[? ?]]; [by left|right].
  split; [done|]. eexists. split; [|done]. unfold allocation_transfer. use_ids.
Qed.

Lemma ReturnFromCard_safe request l :
  safe (ReturnFromCard s request) (posted_truth (return_transfer s request)) l.
Proof.
  apply moveCardFunds_safe; [by intros|]. intros account card id r l' Hl' ? ? ? ? Hr resp st ->.
  destruct (Hr _ _ eq_refl) as [?|[? ?]]; [by left|right].
  split; [done|]. eexists. split; [|done]. unfold return_transfer. use_ids.
Qed.

(** *** Authorizations *)

Lemma authorization_conforms (l : L) id card merchant amount :
  known_kind s l card AccountCardWallet →
  conforms s l (authorization_transfer s id card merchant amount).
Proof.
  intros Hk. unfold authorization_transfer. destruct (merchantFingerprint merchant).
  split; [|done]. by apply recipe_authorization.
Qed.

Lemma authorization_transfer_ordinary id card merchant amount :
  ordinary (authorization_transfer s id card merchant amount).
Proof. unfold authorization_transfer. destruct (merchantFingerprint _). by right. Qed.
Lemma authorization_transfer_ID id card merchant amount :
  Transfer_ID (authorization_transfer s id card merchant amount) = id.
Proof. unfold authorization_transfer. by destruct (merchantFingerprint merchant). Qed.

(** The end of every branch of [Authorize] after its ledger call. *)
Lemma safe_observe_authorization {A} request started status lst prefix (a : A) (Q : A → L → Prop) l :
  (∀ l', ledger_ext l l' → Q a l') →
  safe (bind (observe_authorization s request started status lst prefix) (λ _, Ret a)) Q l.
Proof.
  intros HQ. apply safe_bind, safe_observeCompletion. intros l1 Hl1. apply safe_ret.
  intros l2 Hl2. apply HQ. auto with ledger.
Qed.

Lemma Authorize_declined_safe request id t started ms l :
  Transfer_ID t = id → hold_transfer s request = inr t →
  safe (Authorize_declined s request id t started ms) (authorization_truth s request) l.
Proof.
  intros Hid Ht. unfold Authorize_declined. apply safe_bind_err, safe_lookup_transfer.
  intros [e|[existing []]] l1 Hl1 Hr; [by intros| |].
  - destruct (Hr _ eq_refl) as [Heid Hstored].
    destruct (sameTransfer existing t) eqn:E; cbn [negb]; apply safe_observe_authorization;
      [|by intros]. apply sameTransfer_spec in E.
    intros l2 [_ Hl2] resp st [= <- <-]. right. split; [done|].
    exists t. split; [done|]. exists existing.
    rewrite Hid. split; [by apply Hl2|]. by split.
  - apply safe_observe_authorization. intros l2 Hl2 resp st [= <- <-]. by do 2 left.
Qed.

Lemma Authorize_submit_safe request t started ms l :
  conforms s l t → hold_transfer s request = inr t →
  safe (Authorize_submit s request t started ms) (authorization_truth s request) l.
Proof.
  intros Hc Ht. unfold Authorize_submit. apply safe_bind, safe_create_transfer; [done|].
  intros [e|r] l1 Hl1 Hr; [by apply safe_observe_authorization|].
  destruct (isIdempotencyConflict _); [by apply safe_observe_authorization|].
  destruct (errorCode _) as [[code msg] status].
  assert (∀ l', ledger_ext l1 l' →
    TransferResult_Status r = TransferCreated ∨ TransferResult_Status r = TransferExists →
    committed_as t (TransferResult_Timestamp r) l') as Hcommit.
  { intros l' Hl' Hst. eapply committed_as_ext; [done|]. by apply Hr. }
  destruct (bool_decide (TransferResult_Status r = TransferCreated)) eqn:E1;
    [|destruct (bool_decide (TransferResult_Status r = TransferExists)) eqn:E2;
      [|destruct (bool_decide (code = "insufficient_funds"))]];
    cbn [orb]; apply safe_observe_authorization; intros l2 Hl2 resp st [= <- <-]; cbn;
    try (left; by (left + right));
    right; (split; [done|]); bool_simpl; exists t; (split; [done|]); apply Hcommit; tauto.
Qed.

Lemma Authorize_safe ctx request l :
  safe (Authorize s ctx request) (authorization_truth s request) l.
Proof.
  unfold Authorize. do 4 safe_step. safe_step.
  apply safe_bind_err, safe_requireAccountKind; [by intros|]. intros md l2 Hl2 Hk Hkind.
  safe_step. destruct (evaluateRisk _ _ _) as [e|approved]; [by apply safe_ret|].
  safe_step.
  match goal with |- context [authorization_transfer s ?i ?c ?m ?n] =>
    assert (hold_transfer s request = inr (authorization_transfer s i c m n)) as Ht
      by (unfold hold_transfer; use_ids) end.
  destruct approved; cbn [negb].
  - apply Authorize_submit_safe; [|done]. apply authorization_conforms. exists md.
    split; [|done]. eapply known_ext; [|exact Hk]. auto with ledger.
  - apply Authorize_declined_safe; [apply authorization_transfer_ID|done].
Qed.

(** *** Increments *)

Lemma increment_ids_ok request authorizationID incrementID :
  increment_ids request = inr (authorizationID, incrementID) →
  incrementID ≠ authorizationID ∧
  parsePublicTigerBeetleID (IncrementAuthorizationRequest_AuthorizationID request) = inr authorizationID ∧
  requestID (IncrementAuthorizationRequest_RequestID request) = inr incrementID ∧
  IncrementAuthorizationRequest_IncrementCents request ≠ 0.
Proof. unfold increment_ids. repeat case_match; intros; simplify_eq; bool_simpl; naive_solver. Qed.

Lemma increment_conforms (l : L) original incrementID authorizationID cents timeout :
  incrementID ≠ authorizationID → Transfer_ID original = authorizationID →
  transfer_of l authorizationID = Some original → open_authorization s original →
  known_kind s l (Transfer_DebitAccountID original) AccountCardWallet →
  conforms s l (increment_transfer s original incrementID authorizationID cents timeout).
Proof.
  intros Hne Hid Ho Hopen Hk. split; [|done].
  eapply (recipe_increment _ _ _ original); cbn; try done.
  split_and!; try done. by apply Hopen.
Qed.

Section increment.
Context (request : IncrementAuthorizationRequest) (original : Transfer).
Context (authorizationID incrementID : Uint128).
Context (Hids : increment_ids request = inr (authorizationID, incrementID)).

(** What an approved answer needs: the original and the hold are stored. *)
Lemma increment_truth_intro response status (l l' : L) hold :
  ledger_ext l l' → transfer_of l authorizationID = Some original →
  open_authorization s original → transfer_of l incrementID = Some hold →
  same_but_timeout (increment_transfer s original incrementID authorizationID
    (IncrementAuthorizationRequest_IncrementCents request) 0) hold →
  Transfer_Timestamp hold = IncrementAuthorizationResponse_Timestamp response →
  IncrementAuthorizationResponse_Status response = "approved" →
  increment_truth s request (inr (response, status)) l'.
Proof.
  intros [_ He] Ho Hopen Hh Hs Hts Hst resp st [= <- <-]. right. split; [done|].
  exists authorizationID, incrementID, original, hold. split_and!; auto.
Qed.

Lemma increment_truth_other response status (l : L) :
  unapproved (IncrementAuthorizationResponse_Status response) →
  increment_truth s request (inr (response, status)) l.
Proof. intros H resp st [= <- <-]. by left. Qed.

Lemma safe_observe_increment {A} started status lst prefix (a : A) (Q : A → L → Prop) l :
  (∀ l', ledger_ext l l' → Q a l') →
  safe (bind (observe_increment s request original started status lst prefix) (λ _, Ret a)) Q l.
Proof.
  intros HQ. apply safe_bind, safe_observeCompletion. intros l1 Hl1. apply safe_ret.
  intros l2 Hl2. apply HQ. auto with ledger.
Qed.

Lemma existing_increment_or_safe started ms rest l :
  transfer_of l authorizationID = Some original → open_authorization s original →
  (∀ l', ledger_ext l l' → safe rest (increment_truth s request) l') →
  safe (existing_increment_or s request original incrementID authorizationID started ms rest)
    (increment_truth s request) l.
Proof.
  intros Ho Hopen Hrest. unfold existing_increment_or, lookupExistingIncrement.
  apply safe_bind, safe_bind, safe_lookup_transfer.
  intros [e|[existing []]] l1 Hl1 Hr; [by apply safe_ret| |].
  2: { apply safe_ret. intros l2 Hl2. apply Hrest. auto with ledger. }
  destruct (Hr _ eq_refl) as [Heid Hstored].
  destruct (sameTransferExceptTimeout existing _) eqn:E; cbn [negb];
    apply safe_observe_increment; [|by intros; apply safe_ret].
  apply sameTransferExceptTimeout_spec in E. intros l2 Hl2. apply safe_ret. intros l3 Hl3.
  eapply increment_truth_intro; [|by apply Hl1|done|done|by symmetry|done|done]. auto with ledger.
Qed.

Lemma increment_answer_safe started ms answer timeout l :
  transfer_of l authorizationID = Some original → open_authorization s original →
  transfer_stored
    (increment_transfer s original incrementID authorizationID
       (IncrementAuthorizationRequest_IncrementCents request) timeout)
    (inr answer) l ∨
  (∃ hold, transfer_of l incrementID = Some hold ∧
    same_but_timeout (increment_transfer s original incrementID authorizationID
       (IncrementAuthorizationRequest_IncrementCents request) timeout) hold ∧
    Transfer_Timestamp hold = TransferResult_Timestamp answer) →
  safe (increment_answer s request original started ms answer) (increment_truth s request) l.
Proof.
  intros Ho Hopen Hans. unfold increment_answer.
  destruct (isIdempotencyConflict _); [by apply safe_observe_increment|].
  destruct (errorCode _) as [[code msg] status].
  assert (TransferResult_Status answer = TransferCreated ∨ TransferResult_Status answer = TransferExists →
    ∃ hold, transfer_of l incrementID = Some hold ∧
      same_but_timeout (increment_transfer s original incrementID authorizationID
        (IncrementAuthorizationRequest_IncrementCents request) 0) hold ∧
      Transfer_Timestamp hold = TransferResult_Timestamp answer) as Hhold.
  { intros Hst. destruct Hans as [Hstored|(hold & Hh & [] & Hts)];
      [destruct (Hstored _ eq_refl Hst) as (hold & Hh & [[] _] & Hts)|];
      exists hold; (split_and!; [done| |done]); by split. }
  destruct (bool_decide (TransferResult_Status answer = TransferCreated)) eqn:E1;
    [|destruct (bool_decide (TransferResult_Status answer = TransferExists)) eqn:E2;
      [|destruct (bool_decide (code = "insufficient_funds"))]];
    cbn [orb]; apply safe_observe_increment; intros l2 Hl2;
    try (apply increment_truth_other; by (left + right));
    bool_simpl; (destruct Hhold as (hold & Hh & Hs & Hts); [tauto|]);
    by eapply (increment_truth_intro _ _ l).
Qed.

Lemma increment_submit_safe timeout started ms l :
  transfer_of l authorizationID = Some original → open_authorization s original →
  Transfer_ID original = authorizationID →
  known_kind s l (Transfer_DebitAccountID original) AccountCardWallet →
  safe (increment_submit s request original incrementID
    (increment_transfer s original incrementID authorizationID
       (IncrementAuthorizationRequest_IncrementCents request) timeout) started ms)
    (increment_truth s request) l.
Proof.
  intros Ho Hopen Hid Hk. unfold increment_submit. apply safe_bind, safe_create_transfer.
  { apply increment_conforms; [by apply increment_ids_ok in Hids as [? _]|done..]. }
  intros [e|r] l1 Hl1 Hr; [by apply safe_observe_increment|].
  case_bool_decide as Hdiff.
  - apply safe_bind_err, safe_lookup_transfer. intros [e|[existing found]] l2 Hl2 Hex; [by intros|].
    eapply increment_answer_safe; [by apply Hl2, Hl1|done|].
    destruct found; cbn [andb]; [|left; intros res [= <-] [?|?]; congruence].
    destruct (sameTransferExceptTimeout existing _) eqn:E;
      [|left; intros res [= <-] [?|?]; congruence].
    apply sameTransferExceptTimeout_spec in E. destruct (Hex _ eq_refl) as [_ Hst].
    right. exists existing. by split_and!; [|symmetry|].
  - eapply increment_answer_safe; [by apply Hl1|done|by left].
Qed.
End increment.

Lemma IncrementAuthorization_safe ctx request l :
  safe (IncrementAuthorization s ctx request) (increment_truth s request) l.
Proof.
  unfold IncrementAuthorization. apply safe_let; [by intros|].
  intros [authorizationID incrementID] Hids. safe_step.
  apply safe_bind_err, safe_lookup_transfer. intros [e|[original []]] l2 Hl2 Hr; [by intros| |by apply safe_ret].
  cbn [negb]. destruct (Hr _ eq_refl) as [Hid Ho].
  destruct (is_authorization s original) eqn:Hopen; cbn [negb];
    [|apply safe_ret; intros; apply increment_truth_other; by left].
  apply is_authorization_spec in Hopen.
  apply safe_bind, safe_requireAccountKind.
  { intros e l3 Hl3. destruct (Is e _); apply safe_ret; [|by intros].
    intros; apply increment_truth_other; by left. }
  intros md l3 Hl3 Hk Hkind. safe_step.
  destruct (evaluateRisk _ _ _) as [e|approved]; [by apply safe_ret|]. safe_step.
  assert (∀ l4, ledger_ext l3 l4 → transfer_of l4 authorizationID = Some original) as Ho'
    by (intros l4 Hl4; by apply Hl4, Hl3).
  destruct approved; cbn [negb].
  - unfold increment_approved. safe_step. destruct (_ && _).
    + eapply existing_increment_or_safe; [done| |done|].
      * apply Ho'; auto with ledger.
      * intros l4 Hl4. apply safe_ret. intros. apply increment_truth_other. by left.
    + apply increment_submit_safe; [done| |done|done|].
      * apply Ho'; auto with ledger.
      * exists md. split; [|done]. eapply known_ext; [|exact Hk]. auto with ledger.
  - unfold increment_declined.
    eapply existing_increment_or_safe; [done| |done|].
    + apply Ho'; auto with ledger.
    + intros l4 Hl4. apply safe_observe_increment. intros. apply increment_truth_other. by left.
Qed.

(** *** Accounts *)

Lemma parent_of_request_safe request id (Q : result error Uint128 → L → Prop) l :
  (∀ e l', ledger_ext l l' → Q (inl e) l') →
  (∀ parent l', ledger_ext l l' →
    (CreateAccountRequest_Kind request = AccountCardWallet →
      accountID "corporate_account_id" (CreateAccountRequest_CorporateAccountID request) = inr parent ∧
      known_kind s l' parent AccountCorporateWallet) → Q (inr parent) l') →
  safe (parent_of_request s request id) Q l.
Proof.
  intros He HQ. unfold parent_of_request. case_decide as Hcard.
  - apply safe_let; [by auto|]. intros parent Hp. case_decide; [by apply safe_ret; auto|].
    apply safe_bind_err, safe_requireAccountKind; [intros; apply He; auto with ledger|].
    intros md l1 Hl1 Hk Hkind. apply safe_ret. intros l2 Hl2.
    apply HQ; [auto with ledger|]. intros _. split; [done|]. exists md.
    split; [by eapply known_ext|done].
  - case_decide; apply safe_ret; [by auto|]. intros. by apply HQ.
Qed.

Lemma safe_remember_ret {A} account id (a : A) (Q : A → L → Prop) md l :
  metadataForAccount s account = Some md → Account_ID account = id → known s l id md →
  (∀ l', ledger_ext l l' → Q a l') → safe (bind (rememberAccount s account) (λ _, Ret a)) Q l.
Proof.
  intros Hmd <- Hk HQ. apply safe_bind, safe_rememberAccount.
  - intros md' Hmd'. by simplify_eq.
  - intros l1 Hl1. apply safe_ret. intros l2 Hl2. apply HQ. auto with ledger.
Qed.

Lemma CreateAccount_safe request l :
  safe (CreateAccount s request) (account_truth s request) l.
Proof.
  unfold CreateAccount. apply safe_let; [by intros|]. intros id Hid. safe_step; [by apply safe_ret|].
  apply safe_bind_err, parent_of_request_safe; [by intros|]. intros parent l1 Hl1 Hparent.
  unfold CreateAccount_submit. apply safe_let; [by intros|]. intros account Hacc.
  assert (id_ok (CreateAccountRequest_Kind request) id) as Hok.
  { eapply accountID_user; [done|]. apply andb_false_iff in Heqb as [?|?]; bool_simpl;
      [left|right]; by apply dec_stable. }
  destruct (ledger_Account_metadata s _ _ _ _ Hacc Hok) as [Haid Hmd].
  apply safe_bind_err, safe_create_account. intros [e|r] l2 Hl2 Hr; [by intros|].
  assert (∀ response status l', ledger_ext l2 l' →
    AccountResult_Status r = AccountCreated ∨ AccountResult_Status r = AccountExists →
    account_truth s request (inr (response, status)) l') as Htruth.
  { intros ? ? l' Hl' Hst resp st _. exists id, parent. split_and!; [done| |].
    - rewrite <- Haid. eapply known_ext; [exact Hl'|]. by apply (Hr r).
    - intros Hcard. destruct (Hparent Hcard) as [? Hk]. split; [done|].
      eapply known_kind_ext; [|exact Hk]. auto with ledger. }
  destruct (AccountResult_Status r) eqn:Hst; cbn [isAccountIdempotencyConflict];
    try (by apply safe_ret).
  all: eapply safe_remember_ret; [done|done| |intros; apply Htruth; [done|tauto]].
  all: rewrite <- Haid; apply (Hr r); [done|tauto|done].
Qed.

Lemma Balance_safe value l : safe (Balance s value) (balance_truth s value) l.
Proof.
  unfold Balance. apply safe_let; [by intros|]. intros _ _.
  apply safe_let; [by intros|]. intros id Hid.
  assert (parsePublicTigerBeetleID value = inr id) as Hp by (repeat case_match; by simplify_eq).
  apply safe_bind_err, safe_lookup_account. intros [e|[a []]] l1 Hl1 Hr; [by intros| |by apply safe_ret].
  cbn [negb]. destruct (metadataForAccount s a) as [md|] eqn:Hmd; [|by apply safe_ret].
  destruct (Hr a eq_refl) as (Haid & Hk & Hdef). specialize (Hk md Hmd). rewrite balances_spec.
  destruct (bool_decide _) eqn:Hasset; (eapply safe_remember_ret; [done..|]);
    intros l2 Hl2 resp [= <-]; exists id, a, md;
    (split_and!; [done|by eapply as_defined_ext|done|]); unfold balance_view; by rewrite Hasset.
Qed.

Lemma provision_safe accounts (Q : result error unit → L → Prop) l :
  Forall (λ '(kind, id), id_ok kind id) accounts →
  (∀ e l', ledger_ext l l' → Q (inl e) l') →
  (∀ l', ledger_ext l l' → Forall (λ '(kind, id), known_kind s l' id kind) accounts → Q (inr tt) l') →
  safe (provision s accounts) Q l.
Proof.
  revert Q l. induction accounts as [|[kind id] rest IH]; intros Q l Hok He HQ; cbn [provision].
  { apply safe_ret. auto. }
  apply Forall_cons in Hok as [Hok Hrest].
  apply safe_let; [by auto|]. intros account Hacc.
  destruct (ledger_Account_metadata s _ _ _ _ Hacc Hok) as [Haid Hmd].
  apply safe_bind_err, safe_create_account. intros [e|r] l1 Hl1 Hr.
  { intros; apply He; auto with ledger. }
  destruct (negb _ && _) eqn:Hst; [apply safe_ret; intros; apply He; auto with ledger|].
  assert (known s l1 id (mkAccountMetadata kind Uint128_zero)) as Hk.
  { rewrite <- Haid. apply (Hr r); [done| |done].
    apply andb_false_iff in Hst as [Hst|Hst]; bool_simpl; auto. }
  apply safe_bind, safe_rememberAccount; [intros md ?; by simplify_eq|].
  intros l2 Hl2. apply IH; [done|intros; apply He; auto with ledger|].
  intros l3 Hl3 Hall. apply HQ; [auto with ledger|]. constructor; [|done].
  exists (mkAccountMetadata kind Uint128_zero). split; [|done].
  eapply known_ext; [|exact Hk]. auto with ledger.
Qed.

Lemma EnsureSystemAccounts_safe l : safe (EnsureSystemAccounts s) (system_truth s) l.
Proof.
  apply provision_safe; [|by intros ? ? ? ?|by intros ? ? ? ?].
  repeat constructor.
Qed.

Lemma LedgerHealth_safe l : safe Service_LedgerHealth (λ _ _, True) l.
Proof.
  unfold Service_LedgerHealth, observedLedger_Health. apply safe_now. intros t l1 Hl1.
  apply safe_call_pure; [by intros K l0 c0 o0 HK h; apply HK|]. by intros h l2 Hl2; apply safe_ret.
Qed.
End operations.
