(* ===== verification/Replay.v ===== *)
(** * Idempotency: requests whose id names a stored transfer

    At any point of any interleaving, a request whose id is taken is answered by
    the stored transfer alone: the original answer when the payload is the same,
    a conflict when it is not, or the error of a ledger call that failed. *)
From S2P Require Import Prelude GoBase GoCrypto Domain TigerBeetle TigerBeetleModel LedgerModel.
From S2P Require Import Cache Health Interface Semantics Contract Service ServiceSpec Operations.
From S2P Require Import OperationsSpec Invariant Safety.
Import GoInt GoError GoTime.
Local Open Scope Z_scope.

Section rules.
Context {sdk : SDK} {L : Type} {ledger : Ledger L} {view : LedgerView L} {contract : LedgerContract L}.
Context (s : Service).
#[local] Abbreviation safe := (safe s).

Lemma known_unique (l : L) id md md' : known s l id md → known s l id md' → md = md'.
Proof. intros (a & Ha & Hmd) (b & Hb & Hmd'). by simplify_eq. Qed.

(** An error of the client, passed on. *)
Definition ledger_error {A} (r : result error A) : Prop := ∃ e, r = inl e ∧ foreign e.

Lemma safe_lookup_transfer_present m id t (Q : result error (Transfer * bool) → L → Prop) l :
  transfer_of l id = Some t →
  (∀ r l', ledger_ext l l' → r = inr (t, true) ∨ ledger_error r → Q r l') →
  safe (observedLedger_LookupTransfer m id) Q l.
Proof.
  intros Ht HQ. apply rg_observed; [apply _|]. intros l0 c0 o0 Hl0 Hinv. cbn.
  pose proof (lookup_transfer_ok l0 id (inv_wf _ _ _ Hinv)) as H.
  destruct (Ledger_LookupTransfer id l0) as [r l1]. destruct H as (Hwf & Hv & Hr).
  split_and!; [by apply same_view_ext|by eapply inv_view|].
  intros l' Hl'. apply HQ; [pose proof (same_view_ext _ _ Hv); auto with ledger|].
  pose proof (proj2 Hl0 _ _ Ht) as Ht0.
  destruct r as [e|[t' []]]; [right; by exists e|left; congruence|congruence].
Qed.

Lemma safe_lookup_account_known m id md (Q : result error (Account * bool) → L → Prop) l :
  known s l id md →
  (∀ r l', ledger_ext l l' →
    (∃ a, r = inr (a, true) ∧ metadataForAccount s a = Some md) ∨ ledger_error r → Q r l') →
  safe (observedLedger_LookupAccount m id) Q l.
Proof.
  intros Hk HQ. apply rg_observed; [apply _|]. intros l0 c0 o0 Hl0 Hinv. cbn.
  pose proof (lookup_account_ok l0 id (inv_wf _ _ _ Hinv)) as H.
  destruct (Ledger_LookupAccount id l0) as [r l1]. destruct H as (Hwf & Hv & Hr).
  split_and!; [by apply same_view_ext|by eapply inv_view|].
  intros l' Hl'. apply HQ; [pose proof (same_view_ext _ _ Hv); auto with ledger|].
  destruct (known_ext s _ _ _ _ Hl0 Hk) as (a & Ha & Hmd).
  destruct r as [e|[a' []]]; [right; by exists e|left; exists a; split; [congruence|done]|congruence].
Qed.

(** On an account of the ledger [requireAccountKind] is exact, cached or not. *)
Lemma safe_requireAccountKind_known id md kind (Q : result error accountMetadata → L → Prop) l :
  known s l id md →
  (∀ r l', ledger_ext l l' →
    r = (if decide (metadata_kind md = kind) then inr md else inl ErrAccountNotFound) ∨
    ledger_error r → Q r l') →
  safe (requireAccountKind s id kind) Q l.
Proof.
  intros Hk HQ. unfold requireAccountKind. apply safe_cache_load. intros [md'|] l0 Hl0 Hload.
  - rewrite (known_unique l0 id md' md); [|by apply Hload|by eapply known_ext].
    case_decide; apply safe_ret; intros; (apply HQ; [auto with ledger|]); by left.
  - apply safe_bind_err, (safe_lookup_account_known _ _ md); [by eapply known_ext|].
    intros r l1 Hl1 [(a & -> & Hmd)|(e & -> & He)].
    2: { intros. apply HQ; [auto with ledger|]. right. by exists e. }
    cbn [fst snd andb]. rewrite Hmd. case_bool_decide.
    2: { apply safe_ret. intros. apply HQ; [auto with ledger|]. left. by rewrite decide_False. }
    apply safe_bind, safe_cache_store; [by do 2 (eapply known_ext; [done|])|].
    intros l2 Hl2. apply safe_ret. intros. apply HQ; [auto with ledger|]. left.
    by rewrite decide_True.
Qed.

(** The answer to a [CreateTransfer] of [t] under the id of a stored [u]. *)
Inductive present_answer (t u : Transfer) : result error CreateTransferResult → Prop :=
| present_error e : foreign e → present_answer t u (inl e)
| present_exists : same_payload t u →
    present_answer t u (inr (mkCreateTransferResult (Transfer_Timestamp u) TransferExists))
| present_timeout ts : ¬ same_payload t u →
    present_answer t u (inr (mkCreateTransferResult ts TransferExistsWithDifferentTimeout))
| present_conflict ts status : ¬ same_but_timeout t u → transfer_conflict status →
    present_answer t u (inr (mkCreateTransferResult ts status)).

Lemma transfer_answer_present t u (l l' : L) r :
  transfer_of l (Transfer_ID t) = Some u → transfer_answer t l l' r →
  transfers_same l l' ∧ present_answer t u (inr r).
Proof.
  intros Hu. destruct r as [ts status]. unfold transfer_answer. cbn [TransferResult_Status].
  destruct status; cbn; try (intros (Hs & [(Hc & t' & Ht' & Hd)|[_ Hn]]); [|congruence];
    simplify_eq; split; [done|by apply present_conflict]).
  - intros ((Hn & _) & _). congruence.
  - intros (Hs & t' & Ht' & Hp & <-). simplify_eq. split; [done|]. by apply present_exists.
  - intros (Hs & t' & Ht' & Hd). simplify_eq. split; [done|]. by apply present_timeout.
Qed.

Lemma safe_create_transfer_present m t u (Q : result error CreateTransferResult → L → Prop) l :
  ordinary t → transfer_of l (Transfer_ID t) = Some u →
  (∀ r l', ledger_ext l l' → present_answer t u r → Q r l') →
  safe (observedLedger_CreateTransfer m t) Q l.
Proof.
  intros Hord Hu HQ. apply rg_observed; [apply _|]. intros l0 c0 o0 Hl0 Hinv. cbn.
  pose proof (create_transfer_ok l0 t (inv_wf _ _ _ Hinv) Hord) as Hok.
  destruct (Ledger_CreateTransfer t l0) as [r l1] eqn:Hc.
  destruct (create_transfer_change l0 t r l1 (inv_wf _ _ _ Hinv) Hord Hc) as (Hwf & _ & He & _).
  destruct Hok as (_ & _ & Hr). pose proof (proj2 Hl0 _ _ Hu) as Hu0.
  assert (transfers_same l0 l1 ∧ present_answer t u r) as [Hsame Hans].
  { destruct r as [e|r]; [|by apply transfer_answer_present].
    destruct Hr as [Hf [Hs|(Hn & _)]]; [|congruence]. split; [done|by apply present_error]. }
  split_and!; [done| |].
  - eapply inv_step; [done..|]. intros id v Hv Hn. rewrite (Hsame id) in Hv. congruence.
  - intros l' Hl'. apply HQ; [auto with ledger|done].
Qed.
End rules.

Section replay.
Context {sdk : SDK} {L : Type} {ledger : Ledger L} {view : LedgerView L} {contract : LedgerContract L}.
Context (s : Service).
#[local] Abbreviation safe := (safe s).

(** The answers to a request for [t] when [u] is stored under its id;
    [original] says an answer repeats the original one, [same] that the
    payloads agree. *)
Definition idempotent {A} (same : Prop) (original : A → Prop) (r : result error A) : Prop :=
  ledger_error r ∨
  (same ∧ ∃ a, r = inr a ∧ original a) ∨
  (¬ same ∧ r = inl ErrIdempotencyConflict).

Definition posted_original (rid : string) (u : Transfer) (a : TransactionResponse * Z) : Prop :=
  snd a = StatusOK ∧ TransactionResponse_RequestID (fst a) = rid ∧
  TransactionResponse_TransactionID (fst a) = rid ∧
  TransactionResponse_Status (fst a) = "posted" ∧
  TransactionResponse_Timestamp (fst a) = Transfer_Timestamp u ∧
  TransactionResponse_ErrorCode (fst a) = "".
Definition authorization_original (rid : string) (u : Transfer) (a : AuthorizationResponse * Z) : Prop :=
  snd a = StatusOK ∧ AuthorizationResponse_AuthorizationID (fst a) = rid ∧
  AuthorizationResponse_HoldTransferID (fst a) = rid ∧
  AuthorizationResponse_Status (fst a) = "approved" ∧
  AuthorizationResponse_Timestamp (fst a) = Transfer_Timestamp u ∧
  AuthorizationResponse_ExpiresAt (fst a) = Some (expiry s (Transfer_Timestamp u)) ∧
  AuthorizationResponse_ErrorCode (fst a) = "".
Definition increment_original (request : IncrementAuthorizationRequest) (u : Transfer)
    (a : IncrementAuthorizationResponse * Z) : Prop :=
  snd a = StatusOK ∧
  IncrementAuthorizationResponse_HoldTransferID (fst a) = IncrementAuthorizationRequest_RequestID request ∧
  IncrementAuthorizationResponse_Status (fst a) = "approved" ∧
  IncrementAuthorizationResponse_IncrementCents (fst a) = IncrementAuthorizationRequest_IncrementCents request ∧
  IncrementAuthorizationResponse_Timestamp (fst a) = Transfer_Timestamp u ∧
  IncrementAuthorizationResponse_ErrorCode (fst a) = "".

Lemma idempotent_error {A} same (original : A → Prop) e : foreign e → idempotent same original (inl e).
Proof. intros He. left. by exists e. Qed.
Lemma idempotent_original {A} (same : Prop) (original : A → Prop) a :
  same → original a → idempotent same original (inr a).
Proof. intros. right. left. split; [done|]. by exists a. Qed.
Lemma idempotent_conflict {A} same (original : A → Prop) :
  ¬ same → idempotent same original (inl ErrIdempotencyConflict).
Proof. right. right. done. Qed.
Local Hint Resolve idempotent_error idempotent_original idempotent_conflict : core.

Lemma executeTransaction_replay kind rid t u (l : L) :
  ordinary t → transfer_of l (Transfer_ID t) = Some u →
  safe (executeTransaction s kind rid t "posted")
    (λ r _, idempotent (same_payload t u) (posted_original rid u) r) l.
Proof.
  intros Hord Hu. unfold executeTransaction. apply safe_now. intros started l1 Hl1.
  apply safe_bind, (safe_create_transfer_present _ _ _ u); [done|by apply Hl1|].
  intros r l2 Hl2 [e He|Hsame|ts Hdiff|ts status Hdiff Hc];
    cbn [TransferResult_Status TransferResult_Timestamp isIdempotencyConflict errorCode].
  - apply safe_bind, safe_observeCompletion. intros. apply safe_ret. auto.
  - apply safe_bind, safe_observeCompletion. intros. apply safe_ret. intros.
    by apply idempotent_original.
  - apply safe_bind, safe_observeCompletion. intros. apply safe_ret. auto.
  - apply isIdempotencyConflict_spec in Hc. rewrite Hc.
    apply safe_bind, safe_observeCompletion. intros. apply safe_ret. intros.
    apply idempotent_conflict. by intros [? _].
Qed.

(** *** The four posted operations *)

Definition posted_outcome (rid : string) (t u : Transfer) : result error (TransactionResponse * Z) → L → Prop :=
  λ r _, idempotent (same_payload t u) (posted_original rid u) r.

Lemma safe_require_kind {A} id kind (f : accountMetadata → prog (result error A)) same original l :
  known_kind s l id kind →
  (∀ md l', ledger_ext l l' → known s l' id md →
    safe (f md) (λ r _, idempotent same original r) l') →
  safe (bind_err (requireAccountKind s id kind) f) (λ r _, idempotent same original r) l.
Proof.
  intros (md & Hk & Hkind) Hf. apply safe_bind_err, (safe_requireAccountKind_known _ _ md); [done|].
  rewrite decide_True by done. intros r l1 Hl1 [->|(e & -> & He)]; [|by auto].
  apply Hf; [done|by eapply known_ext].
Qed.

(** The accounts a stored or submittable transfer needs, from its code. *)
Ltac recipe_inv H :=
  destruct H as [(Hrc&?&?&?&?&?)|(Hrc&?&?&?&?&?)|(Hrc&?&?&?&?&?)|(Hrc&?&?&?&?&?)|(Hrc&?&?&?)|? (Hrc&?&?&?)];
  cbn in Hrc; try discriminate Hrc.

Ltac step_ids :=
  repeat match goal with
  | H : inl _ = inr _ |- _ => discriminate H
  | H : result_bind ?r _ = inr _ |- _ =>
      let E := fresh "E" in destruct r eqn:E; cbn [result_bind] in H; [discriminate H|]
  | H : inr _ = inr _ |- _ => apply (inj inr) in H; subst
  end.

Lemma TopUp_replay request t u (l : L) :
  topup_transfer s request = inr t → recipe s l t → transfer_of l (Transfer_ID t) = Some u →
  safe (TopUp s request) (posted_outcome (TopUpRequest_RequestID request) t u) l.
Proof.
  unfold topup_transfer, positive, TopUp. intros Ht Hr Hu. destruct (_ =? 0); step_ids.
  cbn [bind_err bind]. recipe_inv Hr. apply safe_require_kind; [done|]. intros md l1 Hl1 _.
  apply executeTransaction_replay; [by left|by apply Hl1].
Qed.

Lemma Withdraw_replay request t u (l : L) :
  withdrawal_transfer s request = inr t → recipe s l t → transfer_of l (Transfer_ID t) = Some u →
  safe (Withdraw s request) (posted_outcome (WithdrawalRequest_RequestID request) t u) l.
Proof.
  unfold withdrawal_transfer, positive, Withdraw. intros Ht Hr Hu. destruct (_ =? 0); step_ids.
  cbn [bind_err bind]. recipe_inv Hr. apply safe_require_kind; [done|]. intros md l1 Hl1 _.
  apply executeTransaction_replay; [by left|by apply Hl1].
Qed.

(** Both directions between a card and its wallet. *)
Lemma moveCardFunds_replay kind rid account_value card_value amount (back : bool) account card id u (l : L) :
  accountID "account_id" account_value = inr account → accountID "card_id" card_value = inr card →
  (amount =? 0) = false → requestID rid = inr id → linked s l account card →
  transfer_of l id = Some u →
  safe (moveCardFunds s kind rid account_value card_value amount back)
    (posted_outcome rid
      (if back then posted_transfer s id card account amount TransferCodeCardReturn
       else posted_transfer s id account card amount TransferCodeCardAllocation) u) l.
Proof.
  intros Ha Hc Hamount Hid [Hacc Hcard] Hu. unfold moveCardFunds.
  rewrite Ha. cbn [bind_err bind]. rewrite Hc, Hamount. cbn [bind_err bind]. rewrite Hid.
  cbn [bind_err bind].
  apply safe_require_kind; [done|]. intros md l1 Hl1 _.
  apply safe_require_kind; [eexists; split; [by eapply known_ext|done]|]. intros cmd l2 Hl2 Hcmd.
  rewrite (known_unique s l2 card cmd (mkAccountMetadata AccountCardWallet account));
    [|done|eapply known_ext; [|exact Hcard]; auto with ledger].
  rewrite decide_False by (intros H; by apply H). destruct back;
    (apply executeTransaction_replay; [by left|by apply Hl2, Hl1]).
Qed.

Lemma AllocateToCard_replay request t u (l : L) :
  allocation_transfer s request = inr t → recipe s l t → transfer_of l (Transfer_ID t) = Some u →
  safe (AllocateToCard s request) (posted_outcome (CardAllocationRequest_RequestID request) t u) l.
Proof.
  unfold allocation_transfer, positive, AllocateToCard. intros Ht Hr Hu.
  destruct (_ =? 0) eqn:Hp; step_ids. recipe_inv Hr. by eapply (moveCardFunds_replay _ _ _ _ _ false).
Qed.

Lemma ReturnFromCard_replay request t u (l : L) :
  return_transfer s request = inr t → recipe s l t → transfer_of l (Transfer_ID t) = Some u →
  safe (ReturnFromCard s request) (posted_outcome (CardReturnRequest_RequestID request) t u) l.
Proof.
  unfold return_transfer, positive, ReturnFromCard. intros Ht Hr Hu.
  destruct (_ =? 0) eqn:Hp; step_ids. recipe_inv Hr. by eapply (moveCardFunds_replay _ _ _ _ _ true).
Qed.

(** *** Authorizations: the answer does not depend on the risk decision *)

Definition authorization_outcome (rid : string) (t u : Transfer) :
    result error (AuthorizationResponse * Z) → L → Prop :=
  λ r _, idempotent (same_payload t u) (authorization_original rid u) r.

Lemma Authorize_declined_replay request t u started ms (l : L) :
  transfer_of l (Transfer_ID t) = Some u →
  safe (Authorize_declined s request (Transfer_ID t) t started ms)
    (authorization_outcome (AuthorizationRequest_RequestID request) t u) l.
Proof.
  intros Hu. unfold Authorize_declined. apply safe_bind_err, (safe_lookup_transfer_present _ _ _ u); [done|].
  intros r l1 Hl1 [->|(e & -> & He)]; [|intros; by apply idempotent_error].
  destruct (sameTransfer u t) eqn:E; cbn [negb]; apply safe_observe_authorization; intros.
  - apply sameTransfer_spec in E. by apply idempotent_original; [symmetry|].
  - apply idempotent_conflict. intros Hs. symmetry in Hs. apply sameTransfer_spec in Hs. congruence.
Qed.

Lemma Authorize_submit_replay request t u started ms (l : L) :
  ordinary t → transfer_of l (Transfer_ID t) = Some u →
  safe (Authorize_submit s request t started ms)
    (authorization_outcome (AuthorizationRequest_RequestID request) t u) l.
Proof.
  intros Hord Hu. unfold Authorize_submit. apply safe_bind, (safe_create_transfer_present _ _ _ u); [done..|].
  intros r l1 Hl1 [e He|Hsame|ts Hdiff|ts status Hdiff Hc];
    cbn [TransferResult_Status TransferResult_Timestamp isIdempotencyConflict errorCode].
  - apply safe_observe_authorization. intros. by apply idempotent_error.
  - rewrite bool_decide_eq_false_2 by done. rewrite bool_decide_eq_true_2 by done. cbn [orb].
    apply safe_observe_authorization. intros. by apply idempotent_original.
  - apply safe_observe_authorization. intros. by apply idempotent_conflict.
  - apply isIdempotencyConflict_spec in Hc. rewrite Hc.
    apply safe_observe_authorization. intros. apply idempotent_conflict. by intros [? _].
Qed.

Lemma Authorize_replay ctx request t u approved (l : L) :
  hold_transfer s request = inr t → recipe s l t → transfer_of l (Transfer_ID t) = Some u →
  validateExternalID "merchant_id" (AuthorizationRequest_MerchantID request) = inr tt →
  evaluateRisk s ctx (AuthorizationRequest_AmountCents request) = inr approved →
  safe (Authorize s ctx request)
    (authorization_outcome (AuthorizationRequest_RequestID request) t u) l.
Proof.
  unfold hold_transfer, positive, Authorize. intros Ht Hr Hu Hm Hrisk.
  destruct (_ =? 0); step_ids. rewrite Hm, Hrisk. cbn [bind_err bind].
  match goal with |- context [authorization_transfer s ?id ?card ?m ?n] =>
    assert (known_kind s l card AccountCardWallet) as Hcard end.
  { revert Hr. unfold authorization_transfer. destruct (merchantFingerprint _). intros Hr.
    by recipe_inv Hr. }
  apply safe_now. intros started l1 Hl1. apply safe_require_kind; [by eapply known_kind_ext|].
  intros md l2 Hl2 _. apply safe_now. intros riskStarted l3 Hl3.
  apply safe_now. intros now l4 Hl4.
  match goal with H : transfer_of l (Transfer_ID ?t) = Some u |- _ =>
    assert (transfer_of l4 (Transfer_ID t) = Some u) as Hu4 by (by apply Hl4, Hl3, Hl2, Hl1) end.
  destruct approved; cbn [negb]; [by apply Authorize_submit_replay; [apply authorization_transfer_ordinary|]|].
  pose proof (authorization_transfer_ID s u1 u0 (AuthorizationRequest_MerchantID request)
    (AuthorizationRequest_AmountCents request)) as Hid.
  rewrite <- Hid at 1. by apply Authorize_declined_replay.
Qed.

(** *** Increments: the answer depends neither on the risk decision, nor on the
    expiry, nor on the timeout the clock gives the submitted hold *)

Section increment.
Context (request : IncrementAuthorizationRequest) (original u : Transfer).
Context (authorizationID incrementID : Uint128).

(** The hold the request asks for, up to its timeout. *)
Definition asked (timeout : Z) : Transfer :=
  increment_transfer s original incrementID authorizationID
    (IncrementAuthorizationRequest_IncrementCents request) timeout.
Definition increment_outcome : result error (IncrementAuthorizationResponse * Z) → L → Prop :=
  λ r _, idempotent (same_but_timeout (asked 0) u) (increment_original request u) r.

Lemma asked_timeout timeout v : same_but_timeout (asked timeout) v ↔ same_but_timeout (asked 0) v.
Proof. split; intros []; by split. Qed.

Lemma existing_increment_replay started ms rest (l : L) :
  transfer_of l incrementID = Some u →
  safe (existing_increment_or s request original incrementID authorizationID started ms rest)
    increment_outcome l.
Proof.
  intros Hu. unfold existing_increment_or, lookupExistingIncrement.
  apply safe_bind, safe_bind, (safe_lookup_transfer_present _ _ _ u); [done|].
  intros r l1 Hl1 [->|(e & -> & He)]; [|apply safe_ret; intros; apply safe_ret; intros; by apply idempotent_error].
  destruct (sameTransferExceptTimeout u _) eqn:E; cbn [negb]; apply safe_observe_increment;
    intros; apply safe_ret; intros.
  - apply sameTransferExceptTimeout_spec in E. by apply idempotent_original; [symmetry|].
  - apply idempotent_conflict. intros Hs. symmetry in Hs. apply sameTransferExceptTimeout_spec in Hs. unfold asked in Hs. congruence.
Qed.

Lemma increment_answer_exists started ms (l : L) :
  same_but_timeout (asked 0) u →
  safe (increment_answer s request original started ms
    (mkCreateTransferResult (Transfer_Timestamp u) TransferExists)) increment_outcome l.
Proof.
  intros Hs. unfold increment_answer.
  cbn [TransferResult_Status TransferResult_Timestamp isIdempotencyConflict errorCode].
  rewrite bool_decide_eq_false_2 by done. rewrite bool_decide_eq_true_2 by done. cbn [orb].
  apply safe_observe_increment. intros. by apply idempotent_original.
Qed.

Lemma increment_answer_conflict started ms ts status (l : L) :
  ¬ same_but_timeout (asked 0) u → transfer_conflict status →
  safe (increment_answer s request original started ms (mkCreateTransferResult ts status))
    increment_outcome l.
Proof.
  intros Hd Hc%isIdempotencyConflict_spec. unfold increment_answer.
  cbn [TransferResult_Status TransferResult_Timestamp]. rewrite Hc.
  apply safe_observe_increment. intros. by apply idempotent_conflict.
Qed.

(** The hold is looked up when the ledger reports another timeout. *)
Lemma increment_submit_replay timeout started ms (l : L) :
  transfer_of l incrementID = Some u →
  safe (increment_submit s request original incrementID (asked timeout) started ms)
    increment_outcome l.
Proof.
  intros Hu. unfold increment_submit. apply safe_bind, (safe_create_transfer_present _ _ _ u); [by right|done|].
  assert (∀ ts (l1 : L), ledger_ext l l1 →
    safe (bind_err (observedLedger_LookupTransfer (metrics s) incrementID)
      (λ '(existing, found), increment_answer s request original started ms
        (if found && sameTransferExceptTimeout existing (asked timeout)
         then mkCreateTransferResult (Transfer_Timestamp existing) TransferExists
         else mkCreateTransferResult ts TransferExistsWithDifferentTimeout))) increment_outcome l1)
    as Hlookup.
  { intros ts l1 Hl1. apply safe_bind_err, (safe_lookup_transfer_present _ _ _ u); [by apply Hl1|].
    intros r l2 Hl2 [->|(e & -> & He)]; [|intros; by apply idempotent_error]. cbn [andb].
    destruct (sameTransferExceptTimeout u _) eqn:E.
    - apply sameTransferExceptTimeout_spec in E. apply increment_answer_exists.
      by apply (asked_timeout timeout).
    - apply increment_answer_conflict; [|unfold transfer_conflict; set_solver].
      intros Hs%(asked_timeout timeout). symmetry in Hs.
      apply sameTransferExceptTimeout_spec in Hs. congruence. }
  intros r l1 Hl1 [e He|Hsame|ts Hdiff|ts status Hdiff Hc]; cbn [TransferResult_Status].
  - apply safe_observe_increment. intros. by apply idempotent_error.
  - rewrite bool_decide_eq_false_2 by done. apply increment_answer_exists.
    apply (asked_timeout timeout), Hsame.
  - rewrite bool_decide_eq_true_2 by done. by apply Hlookup.
  - case_bool_decide as Hto; [rewrite Hto; by apply Hlookup|].
    apply increment_answer_conflict; [|done]. by intros Hs%(asked_timeout timeout).
Qed.

Lemma increment_known approved started ms (l : L) :
  transfer_of l incrementID = Some u →
  safe (if negb approved
        then increment_declined s request original incrementID authorizationID started ms
        else increment_approved s request original incrementID authorizationID started ms)
    increment_outcome l.
Proof.
  intros Hu. destruct approved; cbn [negb]; [|by apply existing_increment_replay].
  unfold increment_approved. apply safe_now. intros now l1 Hl1.
  destruct (_ && _); [apply existing_increment_replay|apply increment_submit_replay]; by apply Hl1.
Qed.
End increment.

Lemma IncrementAuthorization_replay ctx request original u authorizationID incrementID approved (l : L) :
  increment_ids request = inr (authorizationID, incrementID) →
  transfer_of l authorizationID = Some original → open_authorization s original →
  known_kind s l (Transfer_DebitAccountID original) AccountCardWallet →
  evaluateRisk s ctx (IncrementAuthorizationRequest_IncrementCents request) = inr approved →
  transfer_of l incrementID = Some u →
  safe (IncrementAuthorization s ctx request)
    (increment_outcome request original u authorizationID incrementID) l.
Proof.
  intros Hids Ho Hopen Hcard Hrisk Hu. unfold IncrementAuthorization. rewrite Hids.
  cbn [bind_err bind]. apply safe_now. intros started l1 Hl1.
  apply safe_bind_err, (safe_lookup_transfer_present _ _ _ original); [by apply Hl1|].
  intros r l2 Hl2 [->|(e & -> & He)]; [|intros; by apply idempotent_error].
  apply is_authorization_spec in Hopen. cbn [negb]. rewrite Hopen. cbn [negb].
  destruct Hcard as (md & Hk & Hkind).
  apply safe_bind, (safe_requireAccountKind_known _ _ md); [by do 2 (eapply known_ext; [done|])|].
  rewrite decide_True by done. intros r l3 Hl3 [->|(e & -> & He)].
  2: { rewrite He by set_solver. apply safe_ret. intros. by apply idempotent_error. }
  apply safe_now. intros riskStarted l4 Hl4. rewrite Hrisk.
  apply safe_now. intros now l5 Hl5. apply increment_known. by apply Hl5, Hl4, Hl3, Hl2, Hl1.
Qed.
End replay.

(** ** Accounts *)
Section accounts.
Context {sdk : SDK} {L : Type} {ledger : Ledger L} {view : LedgerView L} {contract : LedgerContract L}.
Context (s : Service).
#[local] Abbreviation safe := (safe s).

Lemma account_answer_present a b (l l' : L) r :
  account_of l (Account_ID a) = Some b → account_answer a l l' r →
  accounts_same l l' ∧
  ((same_definition a b ∧ AccountResult_Status r = AccountExists) ∨
   (¬ same_definition a b ∧ account_conflict (AccountResult_Status r))).
Proof.
  intros Hb. unfold account_answer. destruct (AccountResult_Status r);
    try (intros (Hs & [(Hc & b' & Hb' & Hd)|[_ Hn]]); [|congruence]; simplify_eq; split; [done|by right]).
  - intros (Hn & _). congruence.
  - intros (Hs & b' & Hb' & Hd). simplify_eq. split; [done|by left].
Qed.

(** A later account under [id] has the definition it had. *)
Definition defined (l : L) (b : Account) : Prop :=
  ∃ b', account_of l (Account_ID b) = Some b' ∧ same_definition b b'.
Lemma defined_ext l l' b : ledger_ext l l' → defined l b → defined l' b.
Proof.
  intros [He _] (b' & Hb' & Hd). destruct (He _ _ Hb') as (b'' & Hb'' & Hd' & _).
  exists b''. split; [done|]. by etransitivity.
Qed.

Lemma safe_create_account_present m a b (Q : result error CreateAccountResult → L → Prop) l :
  Account_ID b = Account_ID a → defined l b →
  (∀ r l', ledger_ext l l' →
    ledger_error r ∨
    (∃ res, r = inr res ∧
      ((same_definition a b ∧ AccountResult_Status res = AccountExists) ∨
       (¬ same_definition a b ∧ account_conflict (AccountResult_Status res)))) → Q r l') →
  safe (observedLedger_CreateAccount m a) Q l.
Proof.
  intros Hid Hb HQ. apply rg_observed; [apply _|]. intros l0 c0 o0 Hl0 Hinv. cbn.
  pose proof (create_account_ok l0 a (inv_wf _ _ _ Hinv)) as Hok.
  destruct (Ledger_CreateAccount a l0) as [r l1] eqn:Hc.
  destruct (create_account_change l0 a r l1 (inv_wf _ _ _ Hinv) Hc) as (Hwf & Ht & He & _).
  destruct Hok as (_ & _ & Hr). split_and!; [done| |].
  - eapply inv_step; [done..|]. intros id t H Hn. rewrite (Ht id) in H. congruence.
  - intros l' Hl'. apply HQ; [auto with ledger|]. destruct r as [e|res].
    { left. exists e. split; [done|]. apply Hr. }
    right. exists res. split; [done|].
    destruct (defined_ext _ _ _ Hl0 Hb) as (b' & Hb' & Hd). rewrite Hid in Hb'.
    destruct (account_answer_present a b' l0 l1 res Hb' Hr) as [_ [[Hs ?]|[Hs ?]]]; [left|right].
    + split; [|done]. by etransitivity; [exact Hs|symmetry].
    + split; [|done]. intros Hs'. apply Hs. by etransitivity.
Qed.

(** The account a valid request asks for. *)
Definition asked_account (request : CreateAccountRequest) (parent : Uint128) : result error Account :=
  result_bind (accountID "account_id" (CreateAccountRequest_AccountID request)) (λ id,
    ledger_Account (CreateAccountRequest_Kind request) id parent (ledgerID s)).

Definition account_original (request : CreateAccountRequest) (parent : Uint128) (b : Account)
    (a : AccountResponse * Z) : Prop :=
  snd a = StatusOK ∧ AccountResponse_AccountID (fst a) = Uint128_String (Account_ID b) ∧
  AccountResponse_Kind (fst a) = CreateAccountRequest_Kind request ∧
  AccountResponse_CorporateAccountID (fst a) = publicID parent ∧
  AccountResponse_Status (fst a) = "exists".

(** The parent a valid request names, and what the ledger must know of it. *)
Definition parent_named (request : CreateAccountRequest) (parent : Uint128) (l : L) : Prop :=
  if decide (CreateAccountRequest_Kind request = AccountCardWallet) then
    accountID "corporate_account_id" (CreateAccountRequest_CorporateAccountID request) = inr parent ∧
    known_kind s l parent AccountCorporateWallet
  else CreateAccountRequest_CorporateAccountID request = "" ∧ parent = Uint128_zero.

Lemma CreateAccount_submit_replay request id parent a b (l : L) :
  ledger_Account (CreateAccountRequest_Kind request) id parent (ledgerID s) = inr a →
  id_ok (CreateAccountRequest_Kind request) id → Account_ID b = Account_ID a → defined l b →
  safe (CreateAccount_submit s request id parent)
    (λ r _, idempotent (same_definition a b) (account_original request parent b) r) l.
Proof.
  intros Ha Hok Hid Hb. destruct (ledger_Account_metadata s _ _ _ _ Ha Hok) as [Haid Hmd].
  unfold CreateAccount_submit. rewrite Ha. cbn [bind_err bind].
  apply safe_bind_err, (safe_create_account_present _ _ b); [done|done|].
  intros r l1 Hl1 [(e & -> & He)|(res & -> & [[Hs Hst]|[Hs Hst]])].
  - intros. left. by exists e.
  - rewrite Hst. eapply safe_remember_ret; [done|done| |].
    + destruct (defined_ext _ _ _ Hl1 Hb) as (b' & Hb' & Hd).
      exists b'. rewrite Hid, Haid in Hb'. split; [done|].
      rewrite <- (metadataForAccount_definition s a b'); [done|by etransitivity].
    + intros. right. left. split; [done|]. eexists. split; [done|].
      split_and!; [done|cbn; congruence|done..].
  - apply isAccountIdempotencyConflict_spec in Hst.
    destruct (AccountResult_Status res); try discriminate Hst; apply safe_ret; intros; by right; right.
Qed.

Lemma CreateAccount_replay request parent a b (l : L) :
  CreateAccountRequest_Kind request = AccountCorporateWallet ∨
    CreateAccountRequest_Kind request = AccountCardWallet →
  asked_account request parent = inr a → parent_named request parent l →
  Account_ID b = Account_ID a → defined l b →
  safe (CreateAccount s request)
    (λ r _, idempotent (same_definition a b) (account_original request parent b) r) l.
Proof.
  unfold asked_account, CreateAccount. intros Hkind Ha Hparent Hid Hb.
  destruct (accountID "account_id" _) as [|id] eqn:Hacc; [discriminate Ha|]. cbn [result_bind] in Ha.
  cbn [bind_err bind].
  assert (id_ok (CreateAccountRequest_Kind request) id) as Hok by by eapply accountID_user.
  match goal with |- context [if ?c then _ else _] => replace c with false end.
  2: { destruct Hkind as [-> | ->]; kind_simpl; done. }
  unfold parent_of_request, parent_named in *. case_decide as Hcard.
  - destruct Hparent as [Hp (md & Hk & Hmk)]. rewrite Hp. cbn [bind_err bind].
    apply ledger_Account_Some in Ha as Ha'. destruct Ha' as (_ & _ & _ & Hpok & _).
    unfold parent_ok in Hpok. rewrite decide_True in Hpok by done.
    rewrite decide_False by apply Hpok.
    apply safe_bind_err, safe_bind_err, (safe_requireAccountKind_known _ _ md); [done|].
    rewrite decide_True by done. intros r l1 Hl1 [->|(e & -> & He)].
    + apply safe_ret. intros l2 Hl2. eapply CreateAccount_submit_replay; [done..|].
      eapply defined_ext; [|exact Hb]. auto with ledger.
    + intros l2 Hl2. intros. left. by exists e.
  - destruct Hparent as [-> ->]. rewrite decide_False by (intros H; by apply H).
    by apply CreateAccount_submit_replay.
Qed.

(** An account the service recognises has the definition [ledger.Account]
    builds for it. *)
Lemma recognised_built id kind parent a b :
  ledger_Account kind id parent (ledgerID s) = inr a → Account_ID b = id →
  metadataForAccount s b = Some (mkAccountMetadata kind parent) → same_definition a b.
Proof.
  intros (_ & _ & _ & _ & ->)%ledger_Account_Some Hid [[] Hp]%metadataForAccount_spec.
  cbn in *. by split.
Qed.

(** Provisioned system accounts are accepted again. *)
Lemma provision_replay accounts (l : L) :
  Forall (λ '(kind, id), id_ok kind id ∧ id ≠ Uint128_zero ∧
    known s l id (mkAccountMetadata kind Uint128_zero) ∧
    parent_ok kind id Uint128_zero ∧ Valid kind = true) accounts →
  ledgerID s ≠ 0 →
  (∀ id b, account_of l id = Some b → Account_ID b = id) →
  safe (provision s accounts) (λ r _, ledger_error r ∨ r = inr tt) l.
Proof.
  intros Hall Hl Hkey. cut (∀ l', ledger_ext l l' →
    safe (provision s accounts) (λ r _, ledger_error r ∨ r = inr tt) l'); [by intros H; apply H|].
  induction Hall as [|[kind id] rest (Hok & Hnz & (b & Hb & Hmd) & Hp & Hv) _ IH]; intros l' Hl'; cbn [provision].
  { apply safe_ret. by right. }
  destruct (ledger_Account kind id Uint128_zero (ledgerID s)) as [e|a] eqn:Ha.
  { pose proof (proj2 (ledger_Account_Some kind id Uint128_zero (ledgerID s) _)
      (conj Hv (conj Hnz (conj Hl (conj Hp eq_refl))))). congruence. }
  destruct (ledger_Account_metadata s _ _ _ _ Ha Hok) as [Haid Hmda].
  pose proof (recognised_built id kind Uint128_zero a b Ha (Hkey _ _ Hb) Hmd) as Hsame.
  assert (defined l b) as Hdef by (exists b; split; [by rewrite (Hkey _ _ Hb)|done]).
  cbn [bind_err bind]. apply safe_bind_err, (safe_create_account_present _ _ b).
  { symmetry. apply (sd_id _ _ Hsame). } { by eapply defined_ext. }
  intros r l1 Hl1 [(e & -> & He)|(res & -> & [[_ Hst]|[Hd _]])]; [intros; left; by exists e| |done].
  rewrite Hst. cbn [negb andb bool_decide decide_rel]. apply safe_bind, safe_rememberAccount.
  - intros md Hmd'. replace md with (mkAccountMetadata kind Uint128_zero) by congruence.
    rewrite Haid. eapply known_ext; [|exists b; split; [exact Hb|exact Hmd]]. auto with ledger.
  - intros l2 Hl2. apply IH. auto with ledger.
Qed.
End accounts.
