(* ===== verification/Scenarios.v ===== *)
(** * Concrete runs

    The service on the test ledger with the concrete SDK: the worlds, requests
    and clock that the witnesses use, and the scenarios of
    [internal/service/service_test.go] evaluated. *)
From S2P Require Import Prelude GoBase Domain TigerBeetle TigerBeetleModel LedgerModel Cache Health.
From S2P Require Import Interface Semantics Contract FakeLedger Service Operations.
Import GoInt GoError GoTime.
Local Open Scope Z_scope.

(** A clock that advances one millisecond per reading from [start], and maps
    listed in their canonical order. *)
Definition start : Z := 1787000000000000000.
Definition test_env : Env :=
  mkEnv (λ n, mkTime (start + Z.of_nat n * 1000000) (Some (Z.of_nat n * 1000000))) map_to_list.

Lemma test_env_ok : env_ok test_env.
Proof.
  split; [|by intros m].
  intros n. split; [|by eexists]. unfold IsZero, test_env, zero_wall, start. cbn [env_clock wall].
  apply Z.eqb_neq. lia.
Qed.

(** [newTestServiceWithRisk]: ledger 1, one hour, no delay, a 2 s threshold and
    1000 cache entries. *)
Definition test_service (limit : Z) : Service * metadataCache * observedLedger :=
  New 1 Hour 0 limit (2 * Second) 1000 true.
Definition new_world (limit : Z) : World fakeLedger :=
  let '(_, c, h) := test_service limit in mkWorld (newFakeLedger start) c h 0 [] [].
Definition service (limit : Z) : Service := fst (fst (test_service limit)).

Definition testCorporateAccountID := "10000000000000000000000000000001".
Definition testCardAccountID := "10000000000000000000000000000002".
Definition testOtherCorporateID := "10000000000000000000000000000003".
Definition testMerchantID := "MRC_009".

(** The id a public identifier names. *)
Definition hex (value : string) : Uint128 :=
  match HexStringToUint128 value with inr id => id | inl _ => Uint128_zero end.

Definition fst_run {A} (p : prog A) (w : World fakeLedger) : option A := fst (run test_env p w).
Definition snd_run {A} (p : prog A) (w : World fakeLedger) : World fakeLedger :=
  snd (run test_env p w).

Definition corporate_request := mkCreateAccountRequest testCorporateAccountID AccountCorporateWallet "".
Definition card_request :=
  mkCreateAccountRequest testCardAccountID AccountCardWallet testCorporateAccountID.
Definition other_request := mkCreateAccountRequest testOtherCorporateID AccountCorporateWallet "".

(** System accounts, one corporate wallet and its card, as the tests set up. *)
Definition world_accounts : World fakeLedger :=
  let s := service 100000 in
  snd_run (CreateAccount s card_request)
    (snd_run (CreateAccount s corporate_request)
      (snd_run (EnsureSystemAccounts s) (new_world 100000))).
Definition topup_request := mkTopUpRequest "a1" testCorporateAccountID 1000.
Definition allocation_request := mkCardAllocationRequest "a2" testCorporateAccountID testCardAccountID 700.
(** ... the corporate wallet funded, and 700 cents moved to the card. *)
Definition world_funded : World fakeLedger := snd_run (TopUp (service 100000) topup_request) world_accounts.
Definition world_card : World fakeLedger :=
  snd_run (AllocateToCard (service 100000) allocation_request) world_funded.

Definition outcome_of {A B} (f : A → B) (r : option (result error (A * Z))) : option (result error (B * Z)) :=
  match r with
  | Some (inr (a, n)) => Some (inr (f a, n)) | Some (inl e) => Some (inl e) | None => None
  end.
Definition posted_of (id : string) (w : World fakeLedger) : option (string * string) :=
  match fst_run (Balance (service 100000) id) w with
  | Some (inr b) => Some (BalanceResponse_PostedBalance b, BalanceResponse_AvailableBalance b)
  | _ => None
  end.

(** [TestTopUpIsExactlyOnceAcrossAmbiguousFailure] *)
Example ambiguous_topup :
  let s := service 100000 in
  let l := w_ledger world_accounts in
  let lossy := set_ledger (mkFakeLedger (fake_accounts l) (fake_transfers l) (fake_failed l)
                             (fake_timestamp l) true) world_accounts in
  let once := snd_run (TopUp s topup_request) lossy in
  let twice := snd_run (TopUp s topup_request) once in
  (outcome_of TransactionResponse_Status (fst_run (TopUp s topup_request) lossy),
   outcome_of TransactionResponse_LedgerStatus (fst_run (TopUp s topup_request) once),
   size (fake_transfers (w_ledger twice)), posted_of testCorporateAccountID twice)
  = (Some (inl (Errorf "simulated response loss")), Some (inr ("TransferExists", 200)), 1%nat,
     Some ("1000", "1000")).
Proof. vm_compute. reflexivity. Qed.

(** [TestCardAllocationAndReturnMoveFundsWithoutDuplication] *)
Example allocation_and_return :
  let s := service 100000 in
  let ret := ReturnFromCard s (mkCardReturnRequest "a4" testCorporateAccountID testCardAccountID 200) in
  (posted_of testCorporateAccountID world_card, posted_of testCardAccountID world_card,
   outcome_of TransactionResponse_ErrorCode
     (fst_run (AllocateToCard s (mkCardAllocationRequest "a3" testCorporateAccountID testCardAccountID 400))
        world_card),
   posted_of testCorporateAccountID (snd_run ret world_card),
   posted_of testCardAccountID (snd_run ret world_card))
  = (Some ("300", "300"), Some ("700", "700"), Some (inr ("insufficient_funds", 422)),
     Some ("500", "500"), Some ("500", "500")).
Proof. vm_compute. reflexivity. Qed.

Definition auth_request := mkAuthorizationRequest "b1" testCardAccountID testMerchantID 600.
Definition world_authorized : World fakeLedger :=
  snd_run (Authorize (service 100000) None auth_request) world_card.
Definition increment_request := mkIncrementAuthorizationRequest "b2" "b1" 50.

(** [TestAuthorizationUsesPendingBalanceAsTheHold] and the increment tests. *)
Example authorization_holds :
  let s := service 100000 in
  (outcome_of AuthorizationResponse_Status (fst_run (Authorize s None auth_request) world_card),
   posted_of testCardAccountID world_authorized,
   outcome_of AuthorizationResponse_ErrorCode
     (fst_run (Authorize s None (mkAuthorizationRequest "b3" testCardAccountID testMerchantID 500))
        world_authorized),
   outcome_of IncrementAuthorizationResponse_Status
     (fst_run (IncrementAuthorization s None increment_request) world_authorized),
   outcome_of IncrementAuthorizationResponse_ErrorCode
     (fst_run (IncrementAuthorization (service 10) None increment_request) world_authorized),
   outcome_of AuthorizationResponse_Status (fst_run (Authorize (service 1) None auth_request) world_authorized),
   outcome_of AuthorizationResponse_Status
     (fst_run (Authorize s None (mkAuthorizationRequest "b1" testCardAccountID "MRC_CHANGED" 600))
        world_authorized))
  = (Some (inr ("approved", 200)), Some ("700", "100"), Some (inr ("insufficient_funds", 200)),
     Some (inr ("approved", 200)), Some (inr ("risk_limit_exceeded", 200)),
     Some (inr ("approved", 200)), Some (inl ErrIdempotencyConflict)).
Proof. vm_compute. reflexivity. Qed.
