(* ===== verification/Outcomes.v ===== *)
(** * What one operation does, run alone

    Programs that only read the ledger, and the outcome of posting a transfer
    for every answer of the ledger. *)
From S2P Require Import Prelude GoBase GoCrypto Domain TigerBeetle TigerBeetleModel LedgerModel.
From S2P Require Import Cache Health Interface Semantics Contract FakeLedger Service ServiceSpec.
From S2P Require Import Operations OperationsSpec Invariant Safety Replay Scenarios.
Import GoInt GoError GoTime.
Local Open Scope Z_scope.
Local Open Scope prog_scope.

(** ** Programs that submit nothing *)
Section reads_only.
Context {sdk : SDK}.

Definition is_read {X} (e : eff X) : Prop :=
  match e with CreateAccountCall _ | CreateTransferCall _ => False | _ => True end.
Fixpoint reads_only {A} (p : prog A) : Prop :=
  match p with
  | Ret _ | Panic => True
  | Call e k => is_read e ∧ ∀ x, reads_only (k x)
  end.

Lemma reads_only_bind {A B} (p : prog A) (f : A → prog B) :
  reads_only p → (∀ a, reads_only (f a)) → reads_only (bind p f).
Proof. intros Hp Hf. induction p as [a| |X e k IH]; cbn in *; [apply Hf|done|]. naive_solver. Qed.
Lemma reads_only_bind_err {A B} (p : prog (result error A)) (f : A → prog (result error B)) :
  reads_only p → (∀ a, reads_only (f a)) → reads_only (bind_err p f).
Proof. intros Hp Hf. apply reads_only_bind; [done|]. by intros [e|a]. Qed.
Lemma reads_only_call {X} (e : eff X) : is_read e → reads_only (call e).
Proof. by intros H. Qed.
Lemma reads_only_observed {A} m kind (e : eff (result error A)) :
  is_read e → reads_only (observed m kind e).
Proof. intros H. cbn. by split_and!; [|split_and!..|]; destruct m. Qed.
Lemma reads_only_observeCompletion s kind id status amount started lst attrs :
  reads_only (observeCompletion s kind id status amount started lst attrs).
Proof. unfold observeCompletion. destruct (metrics s); cbn; tauto. Qed.
Lemma reads_only_cache_store id md : reads_only (cache_store id md).
Proof. unfold cache_store. cbn. split; [done|]. by intros [|]. Qed.
Lemma reads_only_requireAccountKind s id kind : reads_only (requireAccountKind s id kind).
Proof.
  unfold requireAccountKind. apply reads_only_bind; [done|]. intros [md|]; [by case_decide|].
  apply reads_only_bind_err; [by apply reads_only_observed|]. intros [a found]. cbn [fst snd].
  repeat case_match; try done. apply reads_only_bind; [apply reads_only_cache_store|done].
Qed.

Lemma reads_only_observe {A} s kind id status amount started lst attrs (a : A) :
  reads_only (bind (observeCompletion s kind id status amount started lst attrs) (λ _, Ret a)).
Proof. apply reads_only_bind; [apply reads_only_observeCompletion|done]. Qed.
End reads_only.
#[export] Hint Resolve reads_only_bind reads_only_bind_err reads_only_call reads_only_observed
  reads_only_observeCompletion reads_only_cache_store reads_only_requireAccountKind
  reads_only_observe : ledger.

Section over_limit.
Context {sdk : SDK} (s : Service).

Lemma Authorize_reads_only ctx r :
  evaluateRisk s ctx (AuthorizationRequest_AmountCents r) ≠ inr true → reads_only (Authorize s ctx r).
Proof.
  intros Hrisk. unfold Authorize. apply reads_only_bind_err; [done|]. intros card.
  apply reads_only_bind_err; [done|]. intros _. case_match; [done|].
  apply reads_only_bind_err; [done|]. intros id. apply reads_only_bind; [done|]. intros started.
  apply reads_only_bind_err; [apply reads_only_requireAccountKind|]. intros _.
  apply reads_only_bind; [done|]. intros riskStarted.
  destruct (evaluateRisk _ _ _) as [e|[]]; [done|done|].
  apply reads_only_bind; [done|]. intros now. cbn [negb]. unfold Authorize_declined.
  apply reads_only_bind_err; [by apply reads_only_observed|]. intros [existing []].
  - destruct (negb _); apply reads_only_observe.
  - apply reads_only_observe.
Qed.

Lemma existing_increment_or_reads_only r original incID authID started ms rest :
  reads_only rest → reads_only (existing_increment_or s r original incID authID started ms rest).
Proof.
  intros Hrest. unfold existing_increment_or, lookupExistingIncrement. apply reads_only_bind.
  - apply reads_only_bind; [by apply reads_only_observed|]. intros [e|[existing []]]; [done| |done].
    destruct (negb _); apply reads_only_observe.
  - intros [[[response status] []] [e|]]; done.
Qed.

Lemma IncrementAuthorization_reads_only ctx r :
  evaluateRisk s ctx (IncrementAuthorizationRequest_IncrementCents r) ≠ inr true →
  reads_only (IncrementAuthorization s ctx r).
Proof.
  intros Hrisk. unfold IncrementAuthorization. apply reads_only_bind_err; [done|].
  intros [authID incID]. apply reads_only_bind; [done|]. intros started.
  apply reads_only_bind_err; [by apply reads_only_observed|]. intros [original []]; [|done].
  cbn [negb]. destruct (negb _); [done|].
  apply reads_only_bind; [apply reads_only_requireAccountKind|]. intros [e|md]; [by destruct (Is _ _)|].
  apply reads_only_bind; [done|]. intros riskStarted.
  destruct (evaluateRisk _ _ _) as [e|[]]; [done|done|].
  apply reads_only_bind; [done|]. intros now. cbn [negb].
  apply existing_increment_or_reads_only, reads_only_observe.
Qed.

Lemma Balance_reads_only value : reads_only (Balance s value).
Proof.
  unfold Balance. apply reads_only_bind_err; [done|]. intros _.
  apply reads_only_bind_err; [done|]. intros id.
  apply reads_only_bind_err; [by apply reads_only_observed|]. intros [a []]; [|done]. cbn [negb].
  destruct (metadataForAccount s a) as [md|] eqn:E; [|done]. destruct (balances _ _).
  apply reads_only_bind; [|done]. unfold rememberAccount. rewrite E. apply reads_only_cache_store.
Qed.
End over_limit.

(** Run alone, such a program leaves every account and transfer as it was. *)
Section frame.
Context {sdk : SDK} {L : Type} {ledger : Ledger L} {view : LedgerView L} {contract : LedgerContract L}.

Lemma same_view_trans (l1 l2 l3 : L) : same_view l1 l2 → same_view l2 l3 → same_view l1 l3.
Proof. intros [Ha Ht] [Ha' Ht']. split; intros id; [by rewrite Ha'|by rewrite Ht']. Qed.

Lemma handle_read env {X} (e : eff X) (w : World L) x w' :
  is_read e → ledger_wf (w_ledger w) → handle env e w = (x, w') →
  ledger_wf (w_ledger w') ∧ same_view (w_ledger w) (w_ledger w').
Proof.
  intros Hr Hwf. destruct e; cbn in *; try done.
  1-5,8-11: by repeat case_match; intros [= <- <-].
  - pose proof (lookup_account_ok (w_ledger w) id Hwf) as H.
    destruct (Ledger_LookupAccount id _) as [r l]. intros [= <- <-]. cbn. by destruct H as (? & ? & _).
  - pose proof (lookup_transfer_ok (w_ledger w) id Hwf) as H.
    destruct (Ledger_LookupTransfer id _) as [r l]. intros [= <- <-]. cbn. by destruct H as (? & ? & _).
Qed.

Lemma run_reads_only env {A} (p : prog A) (w : World L) r w' :
  reads_only p → ledger_wf (w_ledger w) → run env p w = (r, w') →
  same_view (w_ledger w) (w_ledger w').
Proof.
  revert w. induction p as [a| |X e k IH]; intros w Hp Hwf Hrun; cbn in *; try (by simplify_eq).
  destruct Hp as [He Hk]. destruct (handle env e w) as [x w1] eqn:Hh.
  destruct (handle_read env e w x w1 He Hwf Hh) as [Hwf1 Hv].
  eapply same_view_trans; [exact Hv|]. by eapply IH.
Qed.
End frame.

(** ** Every answer of the ledger to a posting *)
Section posting.
Context {sdk : SDK} {L : Type} {ledger : Ledger L}.

(** The outcome table of a posted operation: what the client of the service
    sees for each answer of the ledger. *)
Definition posting_result (rid : string) (answer : result error CreateTransferResult) :
    result error (TransactionResponse * Z) :=
  match answer with
  | inl e => inl e
  | inr r =>
      let failed code message :=
        mkTransactionResponse rid rid "failed" (CreateTransferStatus_String (TransferResult_Status r))
          (TransferResult_Timestamp r) code message in
      match TransferResult_Status r with
      | TransferCreated | TransferExists =>
          inr (mkTransactionResponse rid rid "posted"
                 (CreateTransferStatus_String (TransferResult_Status r))
                 (TransferResult_Timestamp r) "" "", 200)
      | TransferExceedsCredits | TransferExceedsDebits =>
          inr (failed "insufficient_funds" "the debit account has insufficient available funds", 422)
      | TransferDebitAccountNotFound | TransferCreditAccountNotFound =>
          inr (failed "account_not_found" "one or more ledger accounts do not exist", 404)
      | TransferIDAlreadyFailed =>
          inr (failed "previous_attempt_failed"
            "this transfer ID was previously rejected and cannot produce a different outcome", 409)
      | TransferOverflowsDebits | TransferStatusOther _ =>
          inr (failed "ledger_invariant_violation" "the transfer violated an internal ledger recipe", 500)
      | _ => inl ErrIdempotencyConflict
      end
  end.

(** The outcome the metrics and the log line carry, and the ledger status. *)
Definition posting_label (answer : result error CreateTransferResult) : string * string :=
  match answer with
  | inl _ => ("unknown", "request_error")
  | inr r =>
      (match posting_result "" answer with
       | inl _ => "conflict"
       | inr (response, _) => TransactionResponse_Status response
       end, CreateTransferStatus_String (TransferResult_Status r))
  end.

(** The output of one completed operation: one metric observation, when there
    are metrics, and one log line. *)
Definition completion (s : Service) (kind rid status : string) (amount : Z) (lst : string)
    (attributes : list any) (elapsed : Duration) : list output :=
  (if metrics s then [OutOperation kind status elapsed] else []) ++
  [OutLog "ledger operation completed"
    ([AnyString "kind"; AnyString kind; AnyString "request_id"; AnyString rid;
      AnyString "transaction_id"; AnyString rid; AnyString "status"; AnyString status;
      AnyString "ledger_status"; AnyString lst; AnyString "amount_cents"; AnyUint64 amount;
      AnyString "duration_ms"; AnyInt64 (Milliseconds elapsed)] ++ attributes)].

Lemma wp_observeCompletion s kind id status amount started lst attrs
    (Q : unit → L → metadataCache → list output → Prop) l c o :
  (∀ elapsed, Q tt l c (o ++ completion s kind id status amount lst attrs elapsed)) →
  wp (observeCompletion s kind id status amount started lst attrs) Q l c o.
Proof.
  intros HQ. unfold observeCompletion, completion in *. cbn. intros t _. destruct (metrics s); cbn.
  - specialize (HQ (Sub t started)). by rewrite <- app_assoc.
  - apply HQ.
Qed.

Lemma wp_completed {A} s kind id status amount started lst attrs (a : A)
    (Q : A → L → metadataCache → list output → Prop) l c o :
  (∀ elapsed, Q a l c (o ++ completion s kind id status amount lst attrs elapsed)) →
  wp (bind (observeCompletion s kind id status amount started lst attrs) (λ _, Ret a)) Q l c o.
Proof. intros HQ. apply wp_seq, wp_observeCompletion. exact HQ. Qed.

Definition party_attributes (t : Transfer) : list any :=
  [AnyString "debit_account_id"; AnyString (Uint128_String (Transfer_DebitAccountID t));
   AnyString "credit_account_id"; AnyString (Uint128_String (Transfer_CreditAccountID t))].
Definition error_attributes {A} (answer : result error A) : list any :=
  match answer with inl e => [AnyString "error"; AnyError e] | inr _ => [] end.

Lemma executeTransaction_wp s kind rid t answer l l' c o :
  Ledger_CreateTransfer t l = (answer, l') →
  wp (executeTransaction s kind rid t "posted")
    (λ r l1 c1 o1, r = posting_result rid answer ∧ l1 = l' ∧ c1 = c ∧
      ∃ elapsed, o1 = o ++ completion s kind rid (fst (posting_label answer))
        (fst (Uint128_Uint64 (Transfer_Amount t))) (snd (posting_label answer))
        (error_attributes answer ++ party_attributes t) elapsed) l c o.
Proof.
  intros Hc. unfold executeTransaction. apply wp_now. intros started _. apply wp_seq, wp_observed.
  cbn [eff_wp]. rewrite Hc. destruct answer as [e|[ts status]].
  - apply wp_completed. intros elapsed. split_and!; [done..|]. by exists elapsed.
  - destruct status; cbn [TransferResult_Status TransferResult_Timestamp isIdempotencyConflict errorCode];
      apply wp_completed; intros elapsed; (split_and!; [done..|]; by exists elapsed).
Qed.
End posting.

(** C20: A posting does exactly one [CreateTransfer] and reports exactly what the
    ledger answered: the response, the error code and the HTTP status of the
    outcome table, the ledger and the cache as that one call leaves them, and
    exactly one completion record (metric and log line) with the same outcome. *)
Theorem posting_outcome {sdk : SDK} {L : Type} {ledger : Ledger L} env s kind rid t (w : World L) answer l' :
  env_ok env → Ledger_CreateTransfer t (w_ledger w) = (answer, l') →
  ∃ w' elapsed,
    run env (executeTransaction s kind rid t "posted") w = (Some (posting_result rid answer), w') ∧
    w_ledger w' = l' ∧ w_cache w' = w_cache w ∧
    w_out w' = w_out w ++ completion s kind rid (fst (posting_label answer))
      (fst (Uint128_Uint64 (Transfer_Amount t))) (snd (posting_label answer))
      (error_attributes answer ++ party_attributes t) elapsed.
Proof.
  intros Henv Hc.
  destruct (wp_sound env _ _ w Henv
    (executeTransaction_wp s kind rid t answer _ l' (w_cache w) (w_out w) Hc))
    as (r & w' & Hrun & -> & Hl & Hca & elapsed & Ho).
  by exists w', elapsed.
Qed.

(** A withdrawal of more than the wallet holds. *)
Definition overdraft : Transfer :=
  posted_transfer (service 100000) (hex "c1") (hex testCorporateAccountID) SafeguardedCashAccountID 5000
    TransferCodeWithdrawal.
Lemma posting_outcome_witness :
  ∃ w' elapsed,
    run test_env (executeTransaction (service 100000) OperationWithdrawal "c1" overdraft "posted") world_card
    = (Some (posting_result "c1" (fst (fakeLedger_CreateTransfer overdraft (w_ledger world_card)))), w') ∧
    w_ledger w' = snd (fakeLedger_CreateTransfer overdraft (w_ledger world_card)) ∧
    w_cache w' = w_cache world_card ∧
    w_out w' = w_out world_card ++ completion (service 100000) OperationWithdrawal "c1"
      (fst (posting_label (fst (fakeLedger_CreateTransfer overdraft (w_ledger world_card)))))
      (fst (Uint128_Uint64 (Transfer_Amount overdraft)))
      (snd (posting_label (fst (fakeLedger_CreateTransfer overdraft (w_ledger world_card)))))
      (error_attributes (fst (fakeLedger_CreateTransfer overdraft (w_ledger world_card))) ++
       party_attributes overdraft) elapsed.
Proof.
  apply (posting_outcome test_env (service 100000) OperationWithdrawal "c1" overdraft world_card).
  - apply test_env_ok.
  - apply surjective_pairing.
Defined.
