(* ===== verification/System.v ===== *)
(** * The service under concurrent requests

    The methods of [service.Service] as one sum of requests, a pool of handlers
    that runs any number of them with their effects interleaved, and the
    theorems that hold of every such execution. *)
From S2P Require Import Prelude GoBase GoCrypto Domain TigerBeetle TigerBeetleModel LedgerModel.
From S2P Require Import Cache Health Interface Semantics Contract FakeLedger Service ServiceSpec.
From S2P Require Import Operations OperationsSpec Invariant Safety Replay Scenarios.
Import GoInt GoError GoTime.
Local Open Scope Z_scope.
Local Open Scope prog_scope.

Section dispatch.
Context {sdk : SDK}.

(** A method call of [service.Service] with its arguments. *)
Inductive request :=
| ReqEnsureSystemAccounts
| ReqCreateAccount (r : CreateAccountRequest)
| ReqBalance (accountIDValue : string)
| ReqTopUp (r : TopUpRequest)
| ReqWithdraw (r : WithdrawalRequest)
| ReqAllocateToCard (r : CardAllocationRequest)
| ReqReturnFromCard (r : CardReturnRequest)
| ReqAuthorize (ctx : option error) (r : AuthorizationRequest)
| ReqIncrementAuthorization (ctx : option error) (r : IncrementAuthorizationRequest)
| ReqLedgerHealth.

Inductive response :=
| RespUnit (r : result error unit)
| RespAccount (r : result error (AccountResponse * Z))
| RespBalance (r : result error BalanceResponse)
| RespTransaction (r : result error (TransactionResponse * Z))
| RespAuthorization (r : result error (AuthorizationResponse * Z))
| RespIncrement (r : result error (IncrementAuthorizationResponse * Z))
| RespHealth (h : LedgerHealth).

Definition dispatch (s : Service) (q : request) : prog response :=
  match q with
  | ReqEnsureSystemAccounts => r <- EnsureSystemAccounts s ;; Ret (RespUnit r)
  | ReqCreateAccount q => r <- CreateAccount s q ;; Ret (RespAccount r)
  | ReqBalance v => r <- Balance s v ;; Ret (RespBalance r)
  | ReqTopUp q => r <- TopUp s q ;; Ret (RespTransaction r)
  | ReqWithdraw q => r <- Withdraw s q ;; Ret (RespTransaction r)
  | ReqAllocateToCard q => r <- AllocateToCard s q ;; Ret (RespTransaction r)
  | ReqReturnFromCard q => r <- ReturnFromCard s q ;; Ret (RespTransaction r)
  | ReqAuthorize ctx q => r <- Authorize s ctx q ;; Ret (RespAuthorization r)
  | ReqIncrementAuthorization ctx q => r <- IncrementAuthorization s ctx q ;; Ret (RespIncrement r)
  | ReqLedgerHealth => h <- Service_LedgerHealth ;; Ret (RespHealth h)
  end.

(** The handlers of a list of requests. *)
Definition handlers (s : Service) (qs : list request) : list (prog response) := dispatch s <$> qs.
End dispatch.

Section system.
Context {sdk : SDK} {L : Type} {ledger : Ledger L} {view : LedgerView L}.

(** What the answer to a request says of the ledger. *)
Definition response_truth (s : Service) (q : request) (a : response) (l : L) : Prop :=
  match q, a with
  | ReqEnsureSystemAccounts, RespUnit r => system_truth s r l
  | ReqCreateAccount q, RespAccount r => account_truth s q r l
  | ReqBalance v, RespBalance r => balance_truth s v r l
  | ReqTopUp q, RespTransaction r => posted_truth (topup_transfer s q) r l
  | ReqWithdraw q, RespTransaction r => posted_truth (withdrawal_transfer s q) r l
  | ReqAllocateToCard q, RespTransaction r => posted_truth (allocation_transfer s q) r l
  | ReqReturnFromCard q, RespTransaction r => posted_truth (return_transfer s q) r l
  | ReqAuthorize _ q, RespAuthorization r => authorization_truth s q r l
  | ReqIncrementAuthorization _ q, RespIncrement r => increment_truth s q r l
  | ReqLedgerHealth, RespHealth _ => True
  | _, _ => False
  end.

Context {contract : LedgerContract L}.

Lemma dispatch_safe s q l : safe s (dispatch s q) (response_truth s q) l.
Proof.
  destruct q; cbn [dispatch].
  - eapply rg_map; [apply _|apply EnsureSystemAccounts_safe|done].
  - eapply rg_map; [apply _|apply CreateAccount_safe|done].
  - eapply rg_map; [apply _|apply Balance_safe|done].
  - eapply rg_map; [apply _|apply TopUp_safe|done].
  - eapply rg_map; [apply _|apply Withdraw_safe|done].
  - eapply rg_map; [apply _|apply AllocateToCard_safe|done].
  - eapply rg_map; [apply _|apply ReturnFromCard_safe|done].
  - eapply rg_map; [apply _|apply Authorize_safe|done].
  - eapply rg_map; [apply _|apply IncrementAuthorization_safe|done].
  - eapply rg_map; [apply _|apply LedgerHealth_safe|done].
Qed.

(** A state some handlers reach from [w], started together. *)
Definition reachable (s : Service) (env : Env) (qs : list request) (w : World L)
    (ts : list (prog response)) (w' : World L) : Prop :=
  pool_steps env (handlers s qs, w) (ts, w').

Lemma handlers_ok s qs (w : World L) :
  service_inv s (w_ledger w) (w_cache w) →
  pool_ok (service_inv s) ledger_ext (response_truth s <$> qs) (handlers s qs, w).
Proof.
  intros Hinv. split; [done|]. unfold handlers. cbn [fst snd].
  apply Forall2_fmap, Forall_Forall2_diag, Forall_forall. intros q _. apply dispatch_safe.
Qed.

Lemma reachable_ok s env qs w ts w' :
  env_ok env → service_inv s (w_ledger w) (w_cache w) → reachable s env qs w ts w' →
  pool_ok (service_inv s) ledger_ext (response_truth s <$> qs) (ts, w') ∧
  ledger_ext (w_ledger w) (w_ledger w').
Proof.
  intros Henv Hinv Hreach.
  exact (pool_steps_ok (service_inv s) ledger_ext env _ _ _ Henv Hreach (handlers_ok s qs w Hinv)).
Qed.

(** A handler with a rule of its own. *)
Lemma reachable_answer s env qs w ts w' i q a (Q : response → L → Prop) :
  env_ok env → service_inv s (w_ledger w) (w_cache w) → reachable s env qs w ts w' →
  safe s (dispatch s q) Q (w_ledger w) → qs !! i = Some q → ts !! i = Some (Ret a) →
  Q a (w_ledger w').
Proof.
  intros Henv Hinv Hreach HQ Hq Ha.
  assert (pool_ok (service_inv s) ledger_ext (<[i := Q]> (response_truth s <$> qs)) (handlers s qs, w))
    as Hok.
  { destruct (handlers_ok s qs w Hinv) as [_ Hall]. split; [done|]. cbn [fst snd] in *.
    rewrite <- (list_insert_id (handlers s qs) i (dispatch s q)).
    - by apply Forall2_insert.
    - unfold handlers. by rewrite list_lookup_fmap, Hq. }
  destruct (pool_steps_ok (service_inv s) ledger_ext env _ _ _ Henv Hreach Hok) as [Hok' _].
  eapply (pool_ok_result (service_inv s) ledger_ext); [exact Hok'| |exact Ha].
  apply list_lookup_insert_eq. rewrite length_fmap. by eapply lookup_lt_Some.
Qed.

Lemma reachable_map {A} s env qs w ts w' i q a (p : prog A) (f : A → response) (Q : A → L → Prop) :
  env_ok env → service_inv s (w_ledger w) (w_cache w) → reachable s env qs w ts w' →
  dispatch s q = bind p (λ r, Ret (f r)) → safe s p Q (w_ledger w) →
  qs !! i = Some q → ts !! i = Some (Ret a) → ∃ r, a = f r ∧ Q r (w_ledger w').
Proof.
  intros Henv Hinv Hreach Hd Hp Hq Ha.
  eapply (reachable_answer s env qs w ts w' i q a (λ a l, ∃ r, a = f r ∧ Q r l)); try done.
  rewrite Hd. eapply rg_map; [apply _|exact Hp|]. intros r l HQ. by exists r.
Qed.

(** The transfer of a stored payload conforms, and so does any with the same payload. *)
Lemma stored_recipe s l c t u :
  service_inv s l c → transfer_of l (Transfer_ID t) = Some u → Transfer_Ledger t = ledgerID s →
  same_payload t u → recipe s l t.
Proof.
  intros Hinv Hu Hl Hsame. pose proof Hsame as [[] _].
  eapply conforms_payload; [symmetry; exact Hsame|]. apply (inv_transfers _ _ _ Hinv _ _ Hu).
  congruence.
Qed.
End system.

(** ** The transfer a posting request asks for *)
Section posting.
Context {sdk : SDK} {L : Type} {ledger : Ledger L} {view : LedgerView L}.

(** The request id and the transfer of the four operations that post. *)
Definition posting (s : Service) (q : request) : option (string * result error Transfer) :=
  match q with
  | ReqTopUp r => Some (TopUpRequest_RequestID r, topup_transfer s r)
  | ReqWithdraw r => Some (WithdrawalRequest_RequestID r, withdrawal_transfer s r)
  | ReqAllocateToCard r => Some (CardAllocationRequest_RequestID r, allocation_transfer s r)
  | ReqReturnFromCard r => Some (CardReturnRequest_RequestID r, return_transfer s r)
  | _ => None
  end.

Context {contract : LedgerContract L}.

Lemma posting_replay s q rid t u (l : L) :
  posting s q = Some (rid, inr t) → recipe s l t → transfer_of l (Transfer_ID t) = Some u →
  ∃ p, dispatch s q = bind p (λ r, Ret (RespTransaction r)) ∧ safe s p (posted_outcome rid t u) l.
Proof.
  intros Hq Hr Hu. destruct q; cbn in Hq; try done; injection Hq as <- Ht;
    (eexists; split; [reflexivity|]).
  - by apply TopUp_replay.
  - by apply Withdraw_replay.
  - by apply AllocateToCard_replay.
  - by apply ReturnFromCard_replay.
Qed.

Lemma posting_ledger s q rid t : posting s q = Some (rid, inr t) → Transfer_Ledger t = ledgerID s.
Proof.
  intros Hq. destruct q; cbn in Hq; try done; injection Hq as _ Ht; revert Ht;
    unfold topup_transfer, withdrawal_transfer, allocation_transfer, return_transfer, result_bind;
    intros Ht; repeat case_match; try done; injection Ht as <-; done.
Qed.

Lemma posting_ordinary s q rid t : posting s q = Some (rid, inr t) → ordinary t.
Proof.
  intros Hq. destruct q; cbn in Hq; try done; injection Hq as _ Ht; revert Ht;
    unfold topup_transfer, withdrawal_transfer, allocation_transfer, return_transfer, result_bind;
    intros Ht; repeat case_match; try done; injection Ht as <-; by left.
Qed.
Lemma hold_transfer_ordinary s r t : hold_transfer s r = inr t → ordinary t.
Proof.
  unfold hold_transfer, result_bind. intros Ht. repeat case_match; try done. injection Ht as <-.
  apply authorization_transfer_ordinary.
Qed.

Lemma hold_transfer_ledger s r t : hold_transfer s r = inr t → Transfer_Ledger t = ledgerID s.
Proof.
  unfold hold_transfer, result_bind. intros Ht. repeat case_match; try done. injection Ht as <-.
  unfold authorization_transfer. by destruct (merchantFingerprint _).
Qed.
End posting.

(** ** The invariant of the concrete worlds *)

Lemma new_world_inv limit :
  service_inv (service limit) (w_ledger (new_world limit)) (w_cache (new_world limit)).
Proof.
  split; [apply newFakeLedger_wf|apply new_cache_coherent|by intros ? ?; cbn; rewrite lookup_empty].
Qed.

Lemma run_inv s {A} (p : prog A) Q (w : World fakeLedger) :
  (∀ l, safe s p Q l) → service_inv s (w_ledger w) (w_cache w) →
  service_inv s (w_ledger (snd_run p w)) (w_cache (snd_run p w)).
Proof.
  intros Hp Hinv.
  destruct (rg_run (service_inv s) ledger_ext test_env p Q w test_env_ok Hinv (Hp _))
    as (a & w' & Hrun & Hinv' & _).
  unfold snd_run. by rewrite Hrun.
Qed.

Lemma world_accounts_inv :
  service_inv (service 100000) (w_ledger world_accounts) (w_cache world_accounts).
Proof.
  unfold world_accounts. do 2 (eapply run_inv; [apply CreateAccount_safe|]).
  eapply run_inv; [apply EnsureSystemAccounts_safe|]. apply new_world_inv.
Qed.
Lemma world_funded_inv : service_inv (service 100000) (w_ledger world_funded) (w_cache world_funded).
Proof. eapply run_inv; [apply TopUp_safe|apply world_accounts_inv]. Qed.
Lemma world_card_inv : service_inv (service 100000) (w_ledger world_card) (w_cache world_card).
Proof. eapply run_inv; [apply AllocateToCard_safe|apply world_funded_inv]. Qed.
Lemma world_authorized_inv :
  service_inv (service 100000) (w_ledger world_authorized) (w_cache world_authorized).
Proof. eapply run_inv; [apply Authorize_safe|apply world_card_inv]. Qed.

(** Two handlers, their effects taken in turn. *)
Definition in_turn (qs : list request) (w : World fakeLedger) : list (prog response) * World fakeLedger :=
  exec test_env (concat (replicate 40 (seq 0 (length qs)))) (handlers (service 100000) qs, w).

Lemma in_turn_reachable qs w :
  reachable (service 100000) test_env qs w (fst (in_turn qs w)) (snd (in_turn qs w)).
Proof.
  unfold reachable, in_turn. rewrite <- surjective_pairing. apply exec_steps.
Qed.

(** A withdrawal and a top-up of the same wallet, then answers of each. *)
Definition withdrawal_request := mkWithdrawalRequest "a5" testCorporateAccountID 100.
Definition rival_requests : list request := [ReqWithdraw withdrawal_request; ReqTopUp topup_request].

(** ** Theorems of the whole service *)

(** C1: However the effects of any number of concurrent requests are
    interleaved, no handler panics (the ring of the metadata cache is never
    indexed out of range), the shared invariant holds - the ledger is well
    formed, the cache only holds metadata of accounts of the ledger, every
    transfer of the service's ledger follows a recipe of the accounting model -
    and no account definition or transfer is lost. *)
Theorem concurrent_safety {sdk : SDK} {L : Type} {ledger : Ledger L} {view : LedgerView L}
    {contract : LedgerContract L} s env qs (w : World L) ts w' :
  env_ok env → service_inv s (w_ledger w) (w_cache w) → reachable s env qs w ts w' →
  (∀ i, ts !! i ≠ Some Panic) ∧ service_inv s (w_ledger w') (w_cache w') ∧
  ledger_ext (w_ledger w) (w_ledger w').
Proof.
  intros Henv Hinv Hreach. destruct (reachable_ok s env qs w ts w' Henv Hinv Hreach) as [Hok Hext].
  split_and!; [intros i; by eapply pool_ok_no_panic|apply Hok|done].
Qed.

Lemma concurrent_safety_witness :
  let '(ts, w') := in_turn rival_requests world_card in
  (∀ i, ts !! i ≠ Some Panic) ∧ service_inv (service 100000) (w_ledger w') (w_cache w') ∧
  ledger_ext (w_ledger world_card) (w_ledger w').
Proof.
  rewrite (surjective_pairing (in_turn rival_requests world_card)).
  apply (concurrent_safety (service 100000) test_env rival_requests).
  - apply test_env_ok.
  - apply world_card_inv.
  - apply in_turn_reachable.
Defined.

(** In every interleaving, an answer is true of the ledger when it is given
    and for ever after: a posting is answered [failed], or [posted] and then it
    names a stored transfer with exactly the accounts, amount and code the request
    asks for and the timestamp answered; an authorization or an increment is
    [declined] or [failed], or [approved] and then it names its stored pending
    hold, an increment one in the group of an open authorization; a created
    account is stored with the kind and the parent asked for. *)
Theorem concurrent_answers {sdk : SDK} {L : Type} {ledger : Ledger L} {view : LedgerView L}
    {contract : LedgerContract L} s env qs (w : World L) ts w' i q a :
  env_ok env → service_inv s (w_ledger w) (w_cache w) → reachable s env qs w ts w' →
  qs !! i = Some q → ts !! i = Some (Ret a) → response_truth s q a (w_ledger w').
Proof.
  intros Henv Hinv Hreach Hq Ha.
  eapply reachable_answer; [exact Henv|exact Hinv|exact Hreach|apply dispatch_safe|exact Hq|exact Ha].
Qed.

Lemma concurrent_answers_witness :
  response_truth (service 100000) (ReqWithdraw withdrawal_request)
    (RespTransaction (inr (mkTransactionResponse "a5" "a5" "posted" "TransferCreated"
       1787000000000000007 "" "", 200)))
    (w_ledger (snd (in_turn rival_requests world_card))).
Proof.
  apply (concurrent_answers (service 100000) test_env rival_requests world_card
           (fst (in_turn rival_requests world_card)) _ 0).
  - apply test_env_ok.
  - apply world_card_inv.
  - apply in_turn_reachable.
  - reflexivity.
  - by_computation.
Defined.

(** C3: Posting is exactly-once.  A top-up, withdrawal, allocation or return
    whose request id names a stored transfer, submitted at any point of any
    interleaving - for instance as the retry of a call whose response was lost -
    is answered from that transfer: with the same payload by [posted] and the
    original timestamp, with another payload (between accounts its recipe allows)
    by the idempotency conflict, or by the error of a ledger call that failed.
    The stored transfer stays as it is. *)
Theorem posting_is_idempotent {sdk : SDK} {L : Type} {ledger : Ledger L} {view : LedgerView L}
    {contract : LedgerContract L} s env qs (w : World L) ts w' i q a rid t u :
  env_ok env → service_inv s (w_ledger w) (w_cache w) → reachable s env qs w ts w' →
  qs !! i = Some q → ts !! i = Some (Ret a) →
  posting s q = Some (rid, inr t) → transfer_of (w_ledger w) (Transfer_ID t) = Some u →
  same_payload t u ∨ recipe s (w_ledger w) t →
  transfer_of (w_ledger w') (Transfer_ID t) = Some u ∧
  ∃ r, a = RespTransaction r ∧ idempotent (same_payload t u) (posted_original rid u) r.
Proof.
  intros Henv Hinv Hreach Hq Ha Hp Hu Hor.
  destruct (reachable_ok s env qs w ts w' Henv Hinv Hreach) as [_ [_ Hext]].
  split; [by apply Hext|].
  assert (recipe s (w_ledger w) t) as Hr.
  { destruct Hor; [|done]. eapply stored_recipe; [exact Hinv|done|by eapply posting_ledger|done]. }
  destruct (posting_replay s q rid t u _ Hp Hr Hu) as (p & Hd & Hsafe).
  destruct (reachable_map s env qs w ts w' i q a p RespTransaction _ Henv Hinv Hreach Hd Hsafe Hq Ha)
    as (r & -> & HQ).
  by exists r.
Qed.

(** A second top-up under the id of the first, in a race with a withdrawal. *)
Definition repeated_topup : Transfer :=
  posted_transfer (service 100000) (hex "a1") SafeguardedCashAccountID (hex testCorporateAccountID)
    1000 TransferCodeTopUp.
Definition stored (w : World fakeLedger) (id : Uint128) : Transfer :=
  default Transfer_zero (transfer_of (w_ledger w) id).
Lemma posting_is_idempotent_witness :
  ∃ r, RespTransaction (inr (mkTransactionResponse "a1" "a1" "posted" "TransferExists"
         1787000000000000005 "" "", 200)) = RespTransaction r ∧
    idempotent (same_payload repeated_topup (stored world_card (hex "a1")))
      (posted_original "a1" (stored world_card (hex "a1"))) r.
Proof.
  refine (proj2 (posting_is_idempotent (service 100000) test_env rival_requests world_card
           (fst (in_turn rival_requests world_card)) (snd (in_turn rival_requests world_card)) 1
           (ReqTopUp topup_request) _ "a1" repeated_topup (stored world_card (hex "a1")) _ _ _ _ _ _ _ _)).
  - apply test_env_ok.
  - apply world_card_inv.
  - apply in_turn_reachable.
  - by_computation.
  - by_computation.
  - by_computation.
  - by_computation.
  - left. apply sameTransfer_spec. by_computation.
Defined.

(** C4: Authorizing is exactly-once, whatever the risk decision.  An
    authorization whose id names a stored transfer is answered from it, at any
    point of any interleaving and whether or not the amount passes the approval
    limit now: with the same payload (card, amount, merchant fingerprint,
    timeout) by [approved], the original timestamp and its expiry, with another
    payload by the idempotency conflict, or by the error of a failed ledger
    call. *)
Theorem authorization_is_idempotent {sdk : SDK} {L : Type} {ledger : Ledger L} {view : LedgerView L}
    {contract : LedgerContract L} s env qs (w : World L) ts w' i ctx r a t u approved :
  env_ok env → service_inv s (w_ledger w) (w_cache w) → reachable s env qs w ts w' →
  qs !! i = Some (ReqAuthorize ctx r) → ts !! i = Some (Ret a) →
  hold_transfer s r = inr t →
  validateExternalID "merchant_id" (AuthorizationRequest_MerchantID r) = inr tt →
  evaluateRisk s ctx (AuthorizationRequest_AmountCents r) = inr approved →
  transfer_of (w_ledger w) (Transfer_ID t) = Some u →
  same_payload t u ∨ recipe s (w_ledger w) t →
  transfer_of (w_ledger w') (Transfer_ID t) = Some u ∧
  ∃ out, a = RespAuthorization out ∧
    idempotent (same_payload t u) (authorization_original s (AuthorizationRequest_RequestID r) u) out.
Proof.
  intros Henv Hinv Hreach Hq Ha Ht Hm Hrisk Hu Hor.
  destruct (reachable_ok s env qs w ts w' Henv Hinv Hreach) as [_ [_ Hext]].
  split; [by apply Hext|].
  assert (recipe s (w_ledger w) t) as Hr.
  { destruct Hor; [|done]. eapply stored_recipe; [exact Hinv|done|by eapply hold_transfer_ledger|done]. }
  destruct (reachable_map s env qs w ts w' i (ReqAuthorize ctx r) a (Authorize s ctx r)
    RespAuthorization _ Henv Hinv Hreach eq_refl (Authorize_replay s ctx r t u approved _ Ht Hr Hu Hm Hrisk)
    Hq Ha) as (out & -> & HQ).
  by exists out.
Qed.

(** The retry of a committed authorization after the limit fell to 10 cents. *)
Definition low_limit : Service := service 10.
Lemma low_limit_inv : service_inv low_limit (w_ledger world_authorized) (w_cache world_authorized).
Proof. by apply (service_inv_ledgerID (service 100000)), world_authorized_inv. Qed.
Definition authorize_again : list (prog response) * World fakeLedger :=
  exec test_env (replicate 40 0%nat) (handlers low_limit [ReqAuthorize None auth_request], world_authorized).
Definition held : Transfer :=
  authorization_transfer low_limit (hex "b1") (hex testCardAccountID) testMerchantID 600.


Definition authorize_again_answer : result error (AuthorizationResponse * Z) :=
  inr (mkAuthorizationResponse "b1" "b1" "b1" "approved" "TransferExists" 1
         (Some (mkTime 1787003600000000007 None)) 1787000000000000007 "" "", 200).
Lemma authorization_is_idempotent_witness :
  ∃ out, RespAuthorization authorize_again_answer = RespAuthorization out ∧
    idempotent (same_payload held (stored world_authorized (hex "b1")))
      (authorization_original low_limit "b1" (stored world_authorized (hex "b1"))) out.
Proof.
  refine (proj2 (authorization_is_idempotent low_limit test_env
    [ReqAuthorize None auth_request] world_authorized (fst authorize_again) (snd authorize_again) 0 None
    auth_request _ held (stored world_authorized (hex "b1")) false _ _ _ _ _ _ _ _ _ _)).
  - apply test_env_ok.
  - apply low_limit_inv.
  - unfold reachable, authorize_again. rewrite <- surjective_pairing. apply exec_steps.
  - by_computation.
  - by_computation.
  - by_computation.
  - by_computation.
  - by_computation.
  - by_computation.
  - left. apply sameTransfer_spec. by_computation.
Defined.

(** C5: Incrementing is exactly-once, whatever the clock and the risk decision.
    An increment of an open authorization of a card of the ledger whose id names
    a stored transfer is answered from it: [approved] with the original
    timestamp when the payloads agree in everything but the timeout - which the
    service recomputes from the clock at every attempt - also when the original
    has expired or the limit forbids the amount now; the idempotency conflict
    when they do not agree; or the error of a failed ledger call. *)
Theorem increment_is_idempotent {sdk : SDK} {L : Type} {ledger : Ledger L} {view : LedgerView L}
    {contract : LedgerContract L} s env qs (w : World L) ts w' i ctx r a authorizationID incrementID
    original u approved :
  env_ok env → service_inv s (w_ledger w) (w_cache w) → reachable s env qs w ts w' →
  qs !! i = Some (ReqIncrementAuthorization ctx r) → ts !! i = Some (Ret a) →
  increment_ids r = inr (authorizationID, incrementID) →
  transfer_of (w_ledger w) authorizationID = Some original → open_authorization s original →
  known_kind s (w_ledger w) (Transfer_DebitAccountID original) AccountCardWallet →
  evaluateRisk s ctx (IncrementAuthorizationRequest_IncrementCents r) = inr approved →
  transfer_of (w_ledger w) incrementID = Some u →
  transfer_of (w_ledger w') incrementID = Some u ∧
  ∃ out, a = RespIncrement out ∧
    idempotent
      (same_but_timeout (increment_transfer s original incrementID authorizationID
         (IncrementAuthorizationRequest_IncrementCents r) 0) u) (increment_original r u) out.
Proof.
  intros Henv Hinv Hreach Hq Ha Hids Ho Hopen Hcard Hrisk Hu.
  destruct (reachable_ok s env qs w ts w' Henv Hinv Hreach) as [_ [_ Hext]].
  split; [by apply Hext|].
  destruct (reachable_map s env qs w ts w' i (ReqIncrementAuthorization ctx r) a
    (IncrementAuthorization s ctx r) RespIncrement _ Henv Hinv Hreach eq_refl
    (IncrementAuthorization_replay s ctx r original u authorizationID incrementID approved _
       Hids Ho Hopen Hcard Hrisk Hu) Hq Ha) as (out & -> & HQ).
  by exists out.
Qed.

(** The retry of a committed increment after the limit fell to 10 cents. *)
Definition world_incremented : World fakeLedger :=
  snd_run (IncrementAuthorization (service 100000) None increment_request) world_authorized.
Lemma incremented_inv :
  service_inv low_limit (w_ledger world_incremented) (w_cache world_incremented).
Proof.
  apply (service_inv_ledgerID (service 100000)); [done|].
  eapply run_inv; [apply IncrementAuthorization_safe|apply world_authorized_inv].
Qed.
Definition increment_again : list (prog response) * World fakeLedger :=
  exec test_env (replicate 40 0%nat)
    (handlers low_limit [ReqIncrementAuthorization None increment_request], world_incremented).
Definition increment_again_answer : result error (IncrementAuthorizationResponse * Z) :=
  inr (mkIncrementAuthorizationResponse "b2" "b1" "b2" "approved" "TransferExists" 50 1
         1787000000000000008 "" "", 200).

Lemma stored_known s (l : fakeLedger) id kind :
  (match account_of l id with
   | Some a => bool_decide (metadata_kind <$> metadataForAccount s a = Some kind)
   | None => false
   end) = true → known_kind s l id kind.
Proof.
  destruct (account_of l id) as [a|] eqn:Ha; [|done]. rewrite bool_decide_eq_true.
  intros (md & Hmd & ->)%fmap_Some. exists md. split; [|done]. by exists a.
Qed.

Lemma increment_is_idempotent_witness :
  ∃ out, RespIncrement increment_again_answer = RespIncrement out ∧
    idempotent
      (same_but_timeout (increment_transfer low_limit (stored world_incremented (hex "b1")) (hex "b2")
         (hex "b1") 50 0) (stored world_incremented (hex "b2")))
      (increment_original increment_request (stored world_incremented (hex "b2"))) out.
Proof.
  refine (proj2 (increment_is_idempotent low_limit test_env
    [ReqIncrementAuthorization None increment_request] world_incremented
    (fst increment_again) (snd increment_again) 0 None increment_request _ (hex "b1") (hex "b2")
    (stored world_incremented (hex "b1")) (stored world_incremented (hex "b2")) false
    _ _ _ _ _ _ _ _ _ _ _)).
  - apply test_env_ok.
  - apply incremented_inv.
  - unfold reachable, increment_again. rewrite <- surjective_pairing. apply exec_steps.
  - by_computation.
  - by_computation.
  - by_computation.
  - by_computation.
  - apply is_authorization_spec. by_computation.
  - apply stored_known. by_computation.
  - by_computation.
  - by_computation.
Defined.

Section journal.
Context {sdk : SDK} {L : Type} {ledger : Ledger L} {view : LedgerView L} {contract : LedgerContract L}.

Lemma known_not_system s (l : L) c id md :
  service_inv s l c → known s l id md →
  metadata_kind md = AccountCorporateWallet ∨ metadata_kind md = AccountCardWallet →
  id ≠ SafeguardedCashAccountID ∧ id ≠ CardSettlementPayableAccountID.
Proof.
  intros Hinv (a & Ha & Hmd) Hk. apply metadataForAccount_spec in Hmd as [[_ Hid _ _ _ _ _ _ _ _] _].
  rewrite (account_key l id a (inv_wf _ _ _ Hinv) Ha) in Hid.
  assert (IsSystemAccountID id = false) as Hs by (destruct Hk as [Hk|Hk]; rewrite Hk in Hid; exact Hid).
  unfold IsSystemAccountID in Hs. by apply orb_false_iff in Hs as [?%bool_decide_eq_false ?%bool_decide_eq_false].
Qed.

Lemma known_kinds_differ s (l : L) id md kind :
  known s l id md → known_kind s l id kind → metadata_kind md = kind.
Proof. intros H (md' & H' & <-). by rewrite (known_unique s l id md md'). Qed.
End journal.

(** C11: A card's money comes from its own corporate wallet, goes back to it, or
    is held for settlement.  In every reachable state, a transfer of the
    service's ledger that touches a card wallet is a posted transfer between the
    card and the corporate wallet it belongs to, or a pending hold from the card
    to the settlement payable. *)
Theorem card_money_flow {sdk : SDK} {L : Type} {ledger : Ledger L} {view : LedgerView L}
    {contract : LedgerContract L} s env qs (w : World L) ts w' card corporate id t :
  env_ok env → service_inv s (w_ledger w) (w_cache w) → reachable s env qs w ts w' →
  known s (w_ledger w') card (mkAccountMetadata AccountCardWallet corporate) →
  transfer_of (w_ledger w') id = Some t → Transfer_Ledger t = ledgerID s →
  Transfer_DebitAccountID t = card ∨ Transfer_CreditAccountID t = card →
  (Transfer_Flags t = 0 ∧
    ((Transfer_DebitAccountID t = corporate ∧ Transfer_CreditAccountID t = card) ∨
     (Transfer_DebitAccountID t = card ∧ Transfer_CreditAccountID t = corporate))) ∨
  (Transfer_Flags t = pendingFlag ∧ Transfer_DebitAccountID t = card ∧
   Transfer_CreditAccountID t = CardSettlementPayableAccountID).
Proof.
  intros Henv Hinv Hreach Hcard Ht Hl Htouch.
  destruct (reachable_ok s env qs w ts w' Henv Hinv Hreach) as [[Hinv' _] _]. cbn [fst snd] in Hinv'.
  destruct (known_not_system s _ _ card _ Hinv' Hcard (or_intror eq_refl)) as [Hncash Hnset].
  assert (¬ known_kind s (w_ledger w') card AccountCorporateWallet) as Hncorp
    by (by intros Hk%(known_kinds_differ s _ _ _ _ Hcard)).
  assert (∀ parent, known s (w_ledger w') card (mkAccountMetadata AccountCardWallet parent) →
    parent = corporate) as Hparent by (intros p Hp; pose proof (known_unique s _ _ _ _ Hcard Hp); congruence).
  destruct (inv_transfers _ _ _ Hinv' id t Ht Hl) as [Hr _].
  destruct Hr as [(_&?&_&_&Hd&Hc)|(_&?&_&_&Hd&Hc)|(_&?&_&_&_&_) [Hcorp Hlink]|(_&?&_&_&_&_) [Hcorp Hlink]
                 |(_&?&?&Hc)|o (_&?&?&Hc)]; unfold is_cash, is_kind in *.
  1,2: exfalso; destruct Htouch; congruence.
  - left. split; [done|]. destruct Htouch as [Htouch|Htouch]; [congruence|].
    left. rewrite Htouch in Hlink. split; [by apply Hparent|done].
  - left. split; [done|]. destruct Htouch as [Htouch|Htouch]; [|congruence].
    right. rewrite Htouch in Hlink. split; [done|by apply Hparent].
  - right. split_and!; [done| |done]. destruct Htouch; [done|congruence].
  - right. split_and!; [done| |done]. destruct Htouch; [done|congruence].
Qed.

Lemma stored_metadata w id md :
  (match account_of (w_ledger w) id with
   | Some a => bool_decide (metadataForAccount (service 100000) a = Some md)
   | None => false
   end) = true → known (service 100000) (w_ledger w) id md.
Proof.
  destruct (account_of (w_ledger w) id) as [a|] eqn:Ha; [|done]. rewrite bool_decide_eq_true.
  intros Hmd. by exists a.
Qed.

(** The allocation that funded the card. *)
Lemma card_money_flow_witness :
  let t := stored world_card (hex "a2") in
  (Transfer_Flags t = 0 ∧
    ((Transfer_DebitAccountID t = hex testCorporateAccountID ∧
      Transfer_CreditAccountID t = hex testCardAccountID) ∨
     (Transfer_DebitAccountID t = hex testCardAccountID ∧
      Transfer_CreditAccountID t = hex testCorporateAccountID))) ∨
  (Transfer_Flags t = pendingFlag ∧ Transfer_DebitAccountID t = hex testCardAccountID ∧
   Transfer_CreditAccountID t = CardSettlementPayableAccountID).
Proof.
  refine (card_money_flow (service 100000) test_env [] world_card [] world_card
    (hex testCardAccountID) (hex testCorporateAccountID) (hex "a2") _ _ _ _ _ _ _ _).
  - apply test_env_ok.
  - apply world_card_inv.
  - constructor.
  - apply stored_metadata. by_computation.
  - by_computation.
  - by_computation.
  - right. by_computation.
Defined.

(** C13: Every increment hold belongs to an authorization.  In every reachable
    state, an increment in the service's ledger names by its group id another
    stored transfer that is an open authorization of the service, on the same
    card, to the same settlement account, for the same merchant fingerprint. *)
Theorem increments_belong_to_authorizations {sdk : SDK} {L : Type} {ledger : Ledger L}
    {view : LedgerView L} {contract : LedgerContract L} s env qs (w : World L) ts w' id t :
  env_ok env → service_inv s (w_ledger w) (w_cache w) → reachable s env qs w ts w' →
  transfer_of (w_ledger w') id = Some t → Transfer_Ledger t = ledgerID s →
  Transfer_Code t = TransferCodeAuthorizationIncrement →
  Transfer_UserData128 t ≠ Transfer_ID t ∧
  ∃ original, transfer_of (w_ledger w') (Transfer_UserData128 t) = Some original ∧
    open_authorization s original ∧
    Transfer_DebitAccountID original = Transfer_DebitAccountID t ∧
    Transfer_CreditAccountID original = Transfer_CreditAccountID t ∧
    Transfer_UserData64 original = Transfer_UserData64 t ∧
    Transfer_UserData32 original = Transfer_UserData32 t ∧
    Transfer_Flags t = pendingFlag.
Proof.
  intros Henv Hinv Hreach Ht Hl Hcode.
  destruct (reachable_ok s env qs w ts w' Henv Hinv Hreach) as [[Hinv' _] _]. cbn [fst snd] in Hinv'.
  destruct (inv_transfers _ _ _ Hinv' id t Ht Hl) as [Hr _].
  destruct Hr as [(Hc&_)|(Hc&_)|(Hc&_)|(Hc&_)|(Hc&_)|o (Hc&Hf&Hk&Hset) ? Ho Hopen];
    rewrite Hc in Hcode; try discriminate Hcode.
  split; [done|]. exists o. split_and!; try done. rewrite Hset. by apply Hopen.
Qed.

Lemma increments_belong_to_authorizations_witness :
  Transfer_UserData128 (stored world_incremented (hex "b2")) ≠ Transfer_ID (stored world_incremented (hex "b2")).
Proof.
  refine (proj1 (increments_belong_to_authorizations low_limit test_env [] world_incremented []
    world_incremented (hex "b2") (stored world_incremented (hex "b2")) _ _ _ _ _ _)).
  - apply test_env_ok.
  - apply incremented_inv.
  - constructor.
  - by_computation.
  - by_computation.
  - by_computation.
Defined.
