(* ===== verification/Deployment.v ===== *)
(** * Several instances of the service

    A process that is restarted loses its cache and its call tracker; the ledger
    stays.  A new version runs beside the old one during a roll-out, and a process
    that was killed may have calls under way which the ledger still executes.
    Here any number of instances - each with its own configuration, environment,
    cache, tracker and requests - share one ledger; an instance starts at any
    time with an empty cache, and stops, for ever, at any point between two of
    its effects, or not at all. *)
From S2P Require Import Prelude GoBase GoCrypto Domain TigerBeetle TigerBeetleModel LedgerModel.
From S2P Require Import Cache Health Interface Semantics Contract FakeLedger Service ServiceSpec.
From S2P Require Import Operations OperationsSpec Invariant Safety Replay Scenarios System.
Import GoInt GoError GoTime.
Local Open Scope Z_scope.

Section deployment.
Context {sdk : SDK} {L : Type} {ledger : Ledger L}.

(** An instance: the service, where it runs, what it was asked, the handlers as
    far as they have come, and its world, of which the ledger is the shared one
    whenever it takes a step. *)
Record instance := mkInstance {
  in_service : Service;
  in_env : Env;
  in_requests : list request;
  in_threads : list (prog response);
  in_world : World L }.

(** The arguments of [New] but the ledger id. *)
Record settings := mkSettings {
  set_timeout : Duration;
  set_delay : Duration;
  set_limit : Z;
  set_stall : Duration;
  set_cacheSize : Z;
  set_metrics : bool }.

Definition launch (ledger_id : Z) (env : Env) (c : settings) (qs : list request) (l : L) : instance :=
  let '(s, cache, tracker) := New ledger_id (set_timeout c) (set_delay c) (set_limit c) (set_stall c)
                                (set_cacheSize c) (set_metrics c) in
  mkInstance s env qs (handlers s qs) (mkWorld l cache tracker 0 [] []).
Definition moved (p : instance) (ts : list (prog response)) (w : World L) : instance :=
  mkInstance (in_service p) (in_env p) (in_requests p) ts w.

(** The ledger and the instances that ever ran. *)
Definition deployment : Type := L * list instance.

Inductive deployed_step (ledger_id : Z) : deployment → deployment → Prop :=
| instance_starts l ps env c qs :
    env_ok env → deployed_step ledger_id (l, ps) (l, ps ++ [launch ledger_id env c qs l])
| instance_steps l ps j p ts w :
    ps !! j = Some p → pool_step (in_env p) (in_threads p, set_ledger l (in_world p)) (ts, w) →
    deployed_step ledger_id (l, ps) (w_ledger w, <[j := moved p ts w]> ps).
Definition deployed_steps (ledger_id : Z) := rtc (deployed_step ledger_id).

(** A schedule made executable: handler [i] of instance [j] takes a step. *)
Definition advance (d : deployment) '((j, i) : nat * nat) : deployment :=
  match d.2 !! j with
  | Some p =>
      match in_threads p !! i with
      | Some (Call e k) =>
          let '(x, w) := handle (in_env p) e (set_ledger d.1 (in_world p)) in
          (w_ledger w, <[j := moved p (<[i := k x]> (in_threads p)) w]> d.2)
      | _ => d
      end
  | None => d
  end.
Definition advances (schedule : list (nat * nat)) (d : deployment) : deployment :=
  foldl advance d schedule.
Definition start (ledger_id : Z) (env : Env) (c : settings) (qs : list request) (d : deployment) :
    deployment := (d.1, d.2 ++ [launch ledger_id env c qs d.1]).

Lemma advances_steps ledger_id schedule d : deployed_steps ledger_id d (advances schedule d).
Proof.
  revert d. induction schedule as [|[j i] schedule IH]; intros [l ps]; [constructor|]. cbn.
  etransitivity; [|apply IH]. destruct (ps !! j) as [p|] eqn:Hj; [|constructor].
  destruct (in_threads p !! i) as [[a| |X e k]|] eqn:Hi; [constructor..| |constructor].
  destruct (handle _ e _) as [x w] eqn:Hh. apply rtc_once. apply instance_steps; [done|]. by econstructor.
Qed.
Lemma start_step ledger_id env c qs d :
  env_ok env → deployed_steps ledger_id d (start ledger_id env c qs d).
Proof. intros Henv. destruct d as [l ps]. by apply rtc_once, instance_starts. Qed.

Context {view : LedgerView L}.

(** A ledger whose journal under [ledger_id] is the service's own. *)
Record books (ledger_id : Z) (l : L) : Prop := {
  books_wf : ledger_wf l;
  books_conform s id t : ledgerID s = ledger_id →
    transfer_of l id = Some t → Transfer_Ledger t = ledger_id → conforms s l t }.

Record instance_ok (ledger_id : Z) (l : L) (p : instance) : Prop := {
  ok_ledger : ledgerID (in_service p) = ledger_id;
  ok_env : env_ok (in_env p);
  ok_pool : pool_ok (service_inv (in_service p)) ledger_ext (response_truth (in_service p) <$> in_requests p)
              (in_threads p, set_ledger l (in_world p)) }.

(** Between two effects of a deployment. *)
Definition deployment_ok (ledger_id : Z) (d : deployment) : Prop :=
  books ledger_id d.1 ∧ Forall (instance_ok ledger_id d.1) d.2.

Lemma books_inv ledger_id s l c :
  ledgerID s = ledger_id → books ledger_id l → coherent s l c → service_inv s l c.
Proof. intros Hs [Hwf Hc] Hco. split; [done..|]. intros id t Ht Hl. eapply Hc; [done|exact Ht|congruence]. Qed.

(** An instance that starts finds the invariant, with nothing in its cache. *)
Lemma books_new_cache s l : books (ledgerID s) l → service_inv s l (newMetadataCache 0).
Proof. intros Hb. eapply books_inv; [done..|]. apply new_cache_coherent. Qed.

Lemma inv_books ledger_id s l c : ledgerID s = ledger_id → service_inv s l c → books ledger_id l.
Proof.
  intros Hs Hinv. split; [apply Hinv|]. intros s' id t Hs' Ht Hl.
  eapply conforms_ledgerID; [|eapply Hinv; [exact Ht|]]; congruence.
Qed.

(** The ledger may move on under an instance. *)
Lemma instance_ok_ext ledger_id l l' p :
  ledger_ext l l' → books ledger_id l' → instance_ok ledger_id l p → instance_ok ledger_id l' p.
Proof.
  intros Hext Hbooks [Hs Henv [Hinv Hall]]. split; [done..|]. split.
  - eapply books_inv; [done..|]. eapply coherent_ext; [exact Hext|]. apply Hinv.
  - eapply Forall2_impl; [exact Hall|]. intros Q p'. apply rg_ext; [apply _|exact Hext].
Qed.

Context {contract : LedgerContract L}.

Lemma launch_ok ledger_id env c qs l :
  env_ok env → books ledger_id l → instance_ok ledger_id l (launch ledger_id env c qs l).
Proof.
  intros Henv Hbooks. split; [done..|]. apply handlers_ok.
  eapply books_inv; [done..|]. apply new_cache_coherent.
Qed.

Lemma deployed_step_ok ledger_id d d' :
  deployed_step ledger_id d d' → deployment_ok ledger_id d →
  deployment_ok ledger_id d' ∧ ledger_ext d.1 d'.1.
Proof.
  intros Hstep [Hbooks Hall]. destruct Hstep as [l ps env c qs Henv|l ps j p ts w Hj Hstep]; cbn in *.
  - split; [|done]. split; [done|]. apply Forall_app_2; [done|]. by apply Forall_singleton, launch_ok.
  - destruct (Forall_lookup_1 _ _ _ _ Hall Hj) as [Hs Henv Hok].
    destruct (pool_step_ok (service_inv (in_service p)) ledger_ext _ _ _ _ Henv Hstep Hok) as [Hok' Hext].
    assert (books ledger_id (w_ledger w)) as Hbooks' by (eapply inv_books; [exact Hs|apply Hok']).
    split; [|done]. split; [done|]. apply Forall_insert.
    + eapply Forall_impl; [exact Hall|]. intros p'. by apply instance_ok_ext.
    + split; [done..|]. by destruct w.
Qed.

Lemma deployed_steps_ok ledger_id d d' :
  deployed_steps ledger_id d d' → deployment_ok ledger_id d →
  deployment_ok ledger_id d' ∧ ledger_ext d.1 d'.1.
Proof.
  induction 1 as [|d d1 d' Hstep _ IH]; intros Hok; [done|].
  destruct (deployed_step_ok _ _ _ Hstep Hok) as [Hok1 Hext].
  destruct (IH Hok1) as [? ?]. split; [done|]. by etransitivity.
Qed.

(** A deployment that started on an untouched or an own ledger. *)
Lemma deployed_ok ledger_id l l' ps :
  books ledger_id l → deployed_steps ledger_id (l, []) (l', ps) →
  books ledger_id l' ∧ ledger_ext l l' ∧ Forall (instance_ok ledger_id l') ps.
Proof.
  intros Hb Hsteps. destruct (deployed_steps_ok _ _ _ Hsteps) as [[? ?] ?]; [by split|by split_and!].
Qed.

Lemma deployed_answer ledger_id l ps p i q a :
  Forall (instance_ok ledger_id l) ps → p ∈ ps → in_requests p !! i = Some q →
  in_threads p !! i = Some (Ret a) → response_truth (in_service p) q a l.
Proof.
  intros Hall Hp Hq Ha. destruct (proj1 (Forall_forall _ _) Hall p Hp) as [_ _ Hok].
  eapply (pool_ok_result (service_inv (in_service p)) ledger_ext _ _ _ _ a _ Hok); [|exact Ha].
  by rewrite list_lookup_fmap, Hq.
Qed.
End deployment.
Arguments deployment {sdk} L.

(** C2: Restarts, roll-outs and crashes.  However many instances of the service -
    of any configuration, with the same ledger id - run over one ledger, start with
    an empty cache at any time, are killed between any two effects or still have
    calls under way, and whatever requests each of them serves in any interleaving:
    no handler panics, no account definition or transfer is lost, the journal stays
    the service's own, and every answer ever given by any instance is true of the
    ledger when it is given and for ever after: a posting is answered [failed], or
    [posted] and then it names a stored transfer with exactly the accounts, amount
    and code asked for and the timestamp answered; an authorization or an increment
    is [declined] or [failed], or [approved] and then it names its stored pending
    hold, an increment one in the group of an open authorization; a created account
    is stored with the kind and the parent asked for. *)
Theorem deployed_answers {sdk : SDK} {L : Type} {ledger : Ledger L} {view : LedgerView L}
    {contract : LedgerContract L} ledger_id (l l' : L) ps :
  books ledger_id l → deployed_steps ledger_id (l, []) (l', ps) →
  books ledger_id l' ∧ ledger_ext l l' ∧
  ∀ p, p ∈ ps → (∀ i, in_threads p !! i ≠ Some Panic) ∧
    ∀ i q a, in_requests p !! i = Some q → in_threads p !! i = Some (Ret a) →
      response_truth (in_service p) q a l'.
Proof.
  intros Hb Hsteps. destruct (deployed_ok _ _ _ _ Hb Hsteps) as (Hb' & Hext & Hall).
  split_and!; [done..|]. intros p Hp. split.
  - intros i. destruct (proj1 (Forall_forall _ _) Hall p Hp) as [_ _ Hok]. by eapply pool_ok_no_panic.
  - intros i q a Hq Ha. by eapply deployed_answer.
Qed.

(** A withdrawal that is killed after the ledger executed it and before it is
    answered, and the retry of the client after the restart. *)
Definition test_settings : settings := mkSettings Hour 0 100000 (2 * Second) 1000 true.
Definition killed_and_restarted (qs : list request) (l : fakeLedger) : deployment fakeLedger :=
  let before := advances (replicate 12 (0%nat, 0%nat)) (start 1 test_env test_settings qs (l, [])) in
  advances (concat (replicate 40 (pair 1%nat <$> seq 0 (length qs))))
    (start 1 test_env test_settings qs before).

Lemma killed_and_restarted_steps qs l :
  deployed_steps 1 (l, []) (killed_and_restarted qs l).
Proof.
  etransitivity; [apply start_step, test_env_ok|]. etransitivity; [apply advances_steps|].
  etransitivity; [apply start_step, test_env_ok|]. apply advances_steps.
Qed.

Lemma world_card_books : books 1 (w_ledger world_card).
Proof. exact (inv_books 1 (service 100000) _ _ eq_refl world_card_inv). Qed.

Definition posting_status (p : prog response) : option (string * string) :=
  match p with
  | Ret (RespTransaction (inr (r, _))) =>
      Some (TransactionResponse_Status r, TransactionResponse_LedgerStatus r)
  | _ => None
  end.
Example retry_after_crash :
  (λ p, posting_status <$> in_threads p) <$>
    (killed_and_restarted [ReqWithdraw withdrawal_request] (w_ledger world_card)).2 = [[None]; [Some ("posted", "TransferExists")]].
Proof. by_computation. Qed.

Lemma deployed_answers_witness :
  let '(l', ps) := killed_and_restarted [ReqWithdraw withdrawal_request] (w_ledger world_card) in
  books 1 l' ∧ ledger_ext (w_ledger world_card) l' ∧
  ∀ p, p ∈ ps → (∀ i, in_threads p !! i ≠ Some Panic) ∧
    ∀ i q a, in_requests p !! i = Some q → in_threads p !! i = Some (Ret a) →
      response_truth (in_service p) q a l'.
Proof.
  pose proof (killed_and_restarted_steps [ReqWithdraw withdrawal_request] (w_ledger world_card)) as Hsteps.
  destruct (killed_and_restarted _ _) as [l' ps].
  exact (deployed_answers 1 (w_ledger world_card) l' ps world_card_books Hsteps).
Defined.
