(* ===== verification/Duplicates.v ===== *)
(** * Duplicates of a request

    Clients retry, and retries race with the original, on this instance of the
    service, on another, or after a restart.  Whatever the interleaving,
    the answers that confirm a money movement under one request id confirm the same
    movement. *)
From S2P Require Import Prelude GoBase GoCrypto Domain TigerBeetle TigerBeetleModel LedgerModel.
From S2P Require Import Cache Health Interface Semantics Contract FakeLedger Service ServiceSpec.
From S2P Require Import Operations OperationsSpec Invariant Safety Replay Scenarios System Deployment.
Import GoInt GoError GoTime.
Local Open Scope Z_scope.

Section duplicates.
Context {sdk : SDK} {L : Type} {ledger : Ledger L} {view : LedgerView L} (s : Service).

(** The id under which a request moves money. *)
Definition movement_id (q : request) : option Uint128 :=
  let parse rid := match requestID rid with inr id => Some id | inl _ => None end in
  match q with
  | ReqTopUp r => parse (TopUpRequest_RequestID r)
  | ReqWithdraw r => parse (WithdrawalRequest_RequestID r)
  | ReqAllocateToCard r => parse (CardAllocationRequest_RequestID r)
  | ReqReturnFromCard r => parse (CardReturnRequest_RequestID r)
  | ReqAuthorize _ r => parse (AuthorizationRequest_RequestID r)
  | ReqIncrementAuthorization _ r => parse (IncrementAuthorizationRequest_RequestID r)
  | _ => None
  end.

(** The movement a request asks for; the timeout of an increment is left open. *)
Definition movement_of (l : L) (q : request) (t : Transfer) : Prop :=
  match q with
  | ReqAuthorize _ r => hold_transfer s r = inr t
  | ReqIncrementAuthorization _ r =>
      ∃ authorizationID incrementID original,
        increment_ids r = inr (authorizationID, incrementID) ∧ transfer_of l authorizationID = Some original ∧
        t = increment_transfer s original incrementID authorizationID
              (IncrementAuthorizationRequest_IncrementCents r) 0
  | _ => ∃ rid, posting s q = Some (rid, inr t)
  end.

(** The timestamp of an answer that confirms a movement. *)
Definition confirms (a : response) : option Z :=
  match a with
  | RespTransaction (inr (r, _)) =>
      if bool_decide (TransactionResponse_Status r = "posted") then Some (TransactionResponse_Timestamp r) else None
  | RespAuthorization (inr (r, _)) =>
      if bool_decide (AuthorizationResponse_Status r = "approved")
      then Some (AuthorizationResponse_Timestamp r) else None
  | RespIncrement (inr (r, _)) =>
      if bool_decide (IncrementAuthorizationResponse_Status r = "approved")
      then Some (IncrementAuthorizationResponse_Timestamp r) else None
  | _ => None
  end.

(** A confirmed movement is in the ledger, as it was asked for. *)
Definition confirmed (l : L) (q : request) (id : Uint128) (n : Z) : Prop :=
  ∃ t u, movement_of l q t ∧ transfer_of l id = Some u ∧ Transfer_Timestamp u = n ∧ same_but_timeout t u.

(** The transfer a request describes carries the request's id. *)
Lemma posting_id q rid t id :
  posting s q = Some (rid, inr t) → movement_id q = Some id → Transfer_ID t = id.
Proof.
  intros Hq Hid. destruct q; cbn in Hq, Hid; try done; injection Hq as _ Ht; revert Ht;
    unfold topup_transfer, withdrawal_transfer, allocation_transfer, return_transfer, result_bind;
    intros Ht; repeat case_match; try done; simplify_eq; done.
Qed.
Lemma hold_id r t id ctx :
  hold_transfer s r = inr t → movement_id (ReqAuthorize ctx r) = Some id → Transfer_ID t = id.
Proof.
  unfold hold_transfer, result_bind, authorization_transfer. cbn -[merchantFingerprint].
  destruct (requestID _) as [|rid]; [done|]. destruct (accountID _ _) as [|card]; [done|].
  destruct (positive _) as [|[]]; [done|]. destruct (merchantFingerprint _) as [m64 m32].
  by intros [= <-] [= ->].
Qed.
Lemma increment_id r authorizationID incrementID id ctx :
  increment_ids r = inr (authorizationID, incrementID) →
  movement_id (ReqIncrementAuthorization ctx r) = Some id → incrementID = id.
Proof. unfold increment_ids. cbn. intros Hids Hid. repeat case_match; simplify_eq; done. Qed.

Lemma committed_confirmed (l : L) q t n :
  movement_of l q t → committed_as t n l → confirmed l q (Transfer_ID t) n.
Proof. intros Hm (u & Hu & [Hsame _] & Hts). by exists t, u. Qed.

Lemma posted_confirmed (l : L) q rid spec r status id :
  posting s q = Some (rid, spec) → movement_id q = Some id → posted_truth spec (inr (r, status)) l →
  TransactionResponse_Status r = "posted" → confirmed l q id (TransactionResponse_Timestamp r).
Proof.
  intros Hq Hid Ht Hp. destruct (Ht r status eq_refl) as [Hf|(_ & t & -> & Hc)]; [congruence|].
  rewrite <- (posting_id q rid t id Hq Hid). apply committed_confirmed; [|done].
  destruct q; cbn in Hq |- *; try done; by exists rid.
Qed.

(** A true answer that confirms a movement names it. *)
Lemma truth_confirmed (l : L) q a id n :
  response_truth s q a l → movement_id q = Some id → confirms a = Some n → confirmed l q id n.
Proof.
  intros Ht Hid Ha.
  destruct a as [|[|[]]|[|]|[|[r status]]|[|[r status]]|[|[r status]]|]; cbn in Ha; try done;
    case_bool_decide as Hs; try done; injection Ha as <-;
    destruct q; cbn [response_truth] in Ht; try done.
  - by eapply (posted_confirmed _ (ReqTopUp _)).
  - by eapply (posted_confirmed _ (ReqWithdraw _)).
  - by eapply (posted_confirmed _ (ReqAllocateToCard _)).
  - by eapply (posted_confirmed _ (ReqReturnFromCard _)).
  - destruct (Ht r status eq_refl) as [[Hf|Hf]|(_ & t & Hspec & Hc)]; [congruence..|].
    rewrite <- (hold_id _ t id ctx Hspec Hid). by apply committed_confirmed.
  - destruct (Ht r status eq_refl) as [[Hf|Hf]|(_ & au & inc & o & u & Hids & Ho & _ & Hu & Hsame & Hts)];
      [congruence..|]. rewrite <- (increment_id _ au inc id ctx Hids Hid).
    eexists _, u. split_and!; [by exists au, inc, o|done..].
Qed.
End duplicates.

Lemma deployed_confirmed {sdk : SDK} {L : Type} {ledger : Ledger L} {view : LedgerView L}
    ledger_id (l : L) ps p i q a id n :
  Forall (instance_ok ledger_id l) ps → p ∈ ps → in_requests p !! i = Some q →
  in_threads p !! i = Some (Ret a) → movement_id q = Some id → confirms a = Some n →
  confirmed (in_service p) l q id n.
Proof. intros Hall Hp Hq Ha Hid. eapply truth_confirmed; [|exact Hid]. by eapply deployed_answer. Qed.

(** C6: One request id, one money movement.  However many requests - originals,
    retries, rivals of another operation - are interleaved under the same request
    id on however many instances, across restarts and crashes, also when calls of
    the ledger fail after they were applied: all the answers that confirm a
    movement ([posted] or [approved]) carry the same timestamp and confirm the one
    transfer the ledger holds under that id, and every request so answered asked
    its instance for exactly that transfer (an increment, up to the timeout that
    is computed when it is submitted); two requests that ask for different
    movements under one id are never both confirmed. *)
Theorem one_movement_per_request_id {sdk : SDK} {L : Type} {ledger : Ledger L} {view : LedgerView L}
    {contract : LedgerContract L} ledger_id (l l' : L) ps id :
  books ledger_id l → deployed_steps ledger_id (l, []) (l', ps) →
  ∃ n u, ∀ p i q a m, p ∈ ps → in_requests p !! i = Some q → in_threads p !! i = Some (Ret a) →
    movement_id q = Some id → confirms a = Some m →
    m = n ∧ transfer_of l' id = Some u ∧ Transfer_Timestamp u = n ∧
    ∃ t, movement_of (in_service p) l' q t ∧ same_but_timeout t u.
Proof.
  intros Hb Hsteps. destruct (deployed_ok _ _ _ _ Hb Hsteps) as (_ & _ & Hall).
  destruct (transfer_of l' id) as [u|] eqn:Hu.
  - exists (Transfer_Timestamp u), u. intros p i q a m Hp Hq Ha Hid Hm.
    destruct (deployed_confirmed _ _ _ _ _ _ _ _ _ Hall Hp Hq Ha Hid Hm) as (t & u' & Ht & Hu' & <- & Hsame).
    simplify_eq. split_and!; [done..|]. by exists t.
  - exists 0, Transfer_zero. intros p i q a m Hp Hq Ha Hid Hm.
    destruct (deployed_confirmed _ _ _ _ _ _ _ _ _ Hall Hp Hq Ha Hid Hm) as (t & u' & _ & Hu' & _). congruence.
Qed.

(** A withdrawal, a top-up under its id, and the withdrawal again, interleaved on
    two instances of which the first is killed before it answers. *)
Definition repeated_requests : list request :=
  [ReqWithdraw withdrawal_request; ReqTopUp (mkTopUpRequest "a5" testCorporateAccountID 100);
   ReqWithdraw withdrawal_request].
Definition answer_of (p : prog response) : option Z :=
  match p with Ret a => confirms a | _ => None end.

Example repeated_answers :
  (λ p, answer_of <$> in_threads p) <$> (killed_and_restarted repeated_requests (w_ledger world_card)).2 =
  [[None; None; None]; [Some 1787000000000000007; None; Some 1787000000000000007]].
Proof. by_computation. Qed.

Lemma one_movement_per_request_id_witness :
  let '(l', ps) := killed_and_restarted repeated_requests (w_ledger world_card) in
  ∃ n u, ∀ p i q a m, p ∈ ps → in_requests p !! i = Some q → in_threads p !! i = Some (Ret a) →
    movement_id q = Some (hex "a5") → confirms a = Some m →
    m = n ∧ transfer_of l' (hex "a5") = Some u ∧ Transfer_Timestamp u = n ∧
    ∃ t, movement_of (in_service p) l' q t ∧ same_but_timeout t u.
Proof.
  pose proof (killed_and_restarted_steps repeated_requests (w_ledger world_card)) as Hsteps.
  destruct (killed_and_restarted _ _) as [l' ps].
  exact (one_movement_per_request_id 1 (w_ledger world_card) l' ps (hex "a5") world_card_books Hsteps).
Defined.
