(* ===== verification/Accounting.v ===== *)
(** * The money of the customers

    A ledger's transfers as a journal, what the journal says of an account, and
    the conservation laws of the six recipes: what the wallet of a corporate
    customer and its cards hold together is what was topped up less what was
    withdrawn, the safeguarded cash is the counterpart of all of it, and nothing
    is ever posted to the settlement account. *)
From S2P Require Import Prelude GoBase GoCrypto Domain TigerBeetle TigerBeetleModel LedgerModel.
From S2P Require Import Cache Health Interface Semantics Contract FakeLedger Service ServiceSpec.
From S2P Require Import Operations OperationsSpec Invariant Safety Replay Scenarios System Deployment.
Import GoInt GoError GoTime.
Local Open Scope Z_scope.

(** ** Flows of a journal *)
Section flows.
Context {sdk : SDK}.
Implicit Types (t : Transfer) (js : list Transfer) (id : Uint128).

Definition cents t : Z := Uint128_BigInt (Transfer_Amount t).
Definition is_pending t : bool := Pending (TransferFlags_of_Uint16 (Transfer_Flags t)).
Definition debits id t : bool := bool_decide (Transfer_DebitAccountID t = id).
Definition credits id t : bool := bool_decide (Transfer_CreditAccountID t = id).
Definition coded (code : Z) t : bool := Transfer_Code t =? code.

(** The cents of the transfers a test selects. *)
Definition part (sel : Transfer → bool) t : Z := if sel t then cents t else 0.
Definition flow (sel : Transfer → bool) js : Z := total (part sel) js.

(** What the journal says of an account. *)
Definition debits_pending id := flow (λ t, is_pending t && debits id t).
Definition debits_posted id := flow (λ t, negb (is_pending t) && debits id t).
Definition credits_pending id := flow (λ t, is_pending t && credits id t).
Definition credits_posted id := flow (λ t, negb (is_pending t) && credits id t).
(** The posted credits less the posted debits. *)
Definition net id js : Z := credits_posted id js - debits_posted id js.

Definition topped_up id := flow (λ t, coded TransferCodeTopUp t && credits id t).
Definition withdrawn id := flow (λ t, coded TransferCodeWithdrawal t && debits id t).

Lemma flow_cons sel t js : flow sel (t :: js) = part sel t + flow sel js.
Proof. done. Qed.
#[export] Instance flow_permutation sel : Proper ((≡ₚ) ==> eq) (flow sel).
Proof. apply total_permutation. Qed.

(** The part of a group of accounts in one transfer, and in a journal. *)
Definition net1 id t : Z :=
  part (λ t, negb (is_pending t) && credits id t) t - part (λ t, negb (is_pending t) && debits id t) t.
Lemma net_total id js : net id js = total (net1 id) js.
Proof. symmetry. apply total_sub. Qed.

Lemma part_split sel (c : bool) t : sel t = c → part sel t = if c then cents t else 0.
Proof. by intros <-. Qed.

Lemma net1_group (ids : list Uint128) t : NoDup ids →
  total (λ id, net1 id t) ids =
    if is_pending t then 0
    else (if bool_decide (Transfer_CreditAccountID t ∈ ids) then cents t else 0) -
         (if bool_decide (Transfer_DebitAccountID t ∈ ids) then cents t else 0).
Proof.
  intros Hnd. unfold net1, part, debits, credits. rewrite total_sub. destruct (is_pending t); cbn [negb andb].
  - by rewrite !total_zero.
  - by rewrite !(total_indicator _ (cents t)).
Qed.

(** A group's net is summed transfer by transfer. *)
Lemma net_group (ids : list Uint128) js (f : Transfer → Z) : NoDup ids →
  (∀ t, t ∈ js →
    (if is_pending t then 0
     else (if bool_decide (Transfer_CreditAccountID t ∈ ids) then cents t else 0) -
          (if bool_decide (Transfer_DebitAccountID t ∈ ids) then cents t else 0)) = f t) →
  total (λ id, net id js) ids = total f js.
Proof.
  intros Hnd Hf. rewrite (total_ext _ (λ id, total (net1 id) js)) by (intros; apply net_total).
  rewrite total_swap. apply total_ext. intros t Ht. rewrite net1_group by done. by apply Hf.
Qed.
End flows.

(** ** The recipes and the flows *)
Section conservation.
Context {sdk : SDK} {laws : SDKLaws sdk} {L : Type} {ledger : Ledger L} {view : LedgerView L}.
Context {contract : LedgerContract L} (s : Service).
Implicit Types (t : Transfer) (js : list Transfer) (id : Uint128).

(** [js] lists the transfers of the service's ledger, each once. *)
Record journal (l : L) js : Prop := {
  journal_once : NoDup js;
  journal_stored t :
    t ∈ js ↔ transfer_of l (Transfer_ID t) = Some t ∧ Transfer_Ledger t = ledgerID s }.

Lemma journal_conforms l c js t : service_inv s l c → journal l js → t ∈ js → conforms s l t.
Proof. intros Hinv [_ Hj] [Ht Hl]%Hj. by eapply inv_transfers. Qed.

Lemma posted_flag t : Transfer_Flags t = 0 → is_pending t = false.
Proof. unfold is_pending. intros ->. by rewrite TransferFlags_none. Qed.
Lemma pending_flag t : Transfer_Flags t = pendingFlag → is_pending t = true.
Proof. unfold is_pending, pendingFlag. intros ->. by rewrite TransferFlags_roundtrip. Qed.

(** What a recipe says of a posted transfer, or that it is a hold. *)
Inductive movement (l : L) t : Prop :=
| moves_in corporate :
    is_pending t = false → Transfer_Code t = TransferCodeTopUp →
    Transfer_DebitAccountID t = SafeguardedCashAccountID → Transfer_CreditAccountID t = corporate →
    known_kind s l corporate AccountCorporateWallet → movement l t
| moves_out corporate :
    is_pending t = false → Transfer_Code t = TransferCodeWithdrawal →
    Transfer_DebitAccountID t = corporate → Transfer_CreditAccountID t = SafeguardedCashAccountID →
    known_kind s l corporate AccountCorporateWallet → movement l t
| moves_within corporate card :
    is_pending t = false → Transfer_Code t ≠ TransferCodeTopUp → Transfer_Code t ≠ TransferCodeWithdrawal →
    (Transfer_DebitAccountID t = corporate ∧ Transfer_CreditAccountID t = card ∨
     Transfer_DebitAccountID t = card ∧ Transfer_CreditAccountID t = corporate) →
    linked s l corporate card → movement l t
| moves_nothing :
    is_pending t = true → Transfer_Code t ≠ TransferCodeTopUp → Transfer_Code t ≠ TransferCodeWithdrawal →
    movement l t.

Lemma conforms_movement l t : conforms s l t → movement l t.
Proof.
  intros [Hr _].
  destruct Hr as [(Hc&Hf&_&_&Hd&Hk)|(Hc&Hf&_&_&Hd&Hk)|(Hc&Hf&_) Hl|(Hc&Hf&_) Hl|(Hc&Hf&_)|o (Hc&Hf&_)].
  - by eapply moves_in; [apply posted_flag|..].
  - by eapply moves_out; [apply posted_flag|..].
  - eapply moves_within; [by apply posted_flag|by rewrite Hc..| |exact Hl]. by left.
  - eapply moves_within; [by apply posted_flag|by rewrite Hc..| |exact Hl]. by right.
  - apply moves_nothing; [by apply pending_flag|by rewrite Hc..].
  - apply moves_nothing; [by apply pending_flag|by rewrite Hc..].
Qed.

(** The wallet of a corporate customer and its cards. *)
Record family (l : L) (corporate : Uint128) (cards : list Uint128) : Prop := {
  family_once : NoDup cards;
  family_wallet : known_kind s l corporate AccountCorporateWallet;
  family_cards card : card ∈ cards ↔ known s l card (mkAccountMetadata AccountCardWallet corporate) }.

Lemma linked_metadata l corporate card kind :
  linked s l corporate card → known_kind s l card kind → kind = AccountCardWallet.
Proof. intros [_ Hc] Hk. symmetry. by apply (known_kinds_differ s l card _ kind Hc). Qed.

Lemma family_members l c corporate cards id :
  service_inv s l c → family l corporate cards →
  (known_kind s l id AccountCorporateWallet → id ∈ corporate :: cards ↔ id = corporate) ∧
  (∀ parent, known s l id (mkAccountMetadata AccountCardWallet parent) →
     id ∈ corporate :: cards ↔ parent = corporate) ∧
  (id = SafeguardedCashAccountID → id ∉ corporate :: cards).
Proof.
  intros Hinv [_ Hw Hcards]. split_and!.
  - intros Hk. rewrite elem_of_cons, Hcards. split; [|by left]. intros [?|Hc]; [done|].
    by pose proof (known_kinds_differ s l id _ _ Hc Hk).
  - intros parent Hp. rewrite elem_of_cons, Hcards. split.
    + intros [->|Hc]; [by pose proof (known_kinds_differ s l _ _ _ Hp Hw)|].
      by pose proof (known_unique s l _ _ _ Hp Hc) as [= ->].
    + intros ->. by right.
  - intros Hcash. rewrite elem_of_cons, Hcards. intros [->|Hc].
    + destruct Hw as (md & Hmd & Hk). by destruct (known_not_system s l c _ md Hinv Hmd (or_introl Hk)).
    + by destruct (known_not_system s l c _ _ Hinv Hc (or_intror eq_refl)).
Qed.

Lemma family_once_all l c corporate cards :
  service_inv s l c → family l corporate cards → NoDup (corporate :: cards).
Proof.
  intros Hinv Hf. constructor; [|apply Hf]. intros Hin.
  apply (family_cards _ _ _ Hf) in Hin.
  by pose proof (known_kinds_differ s l _ _ _ Hin (family_wallet _ _ _ Hf)).
Qed.

Lemma part_test sel (P : Prop) `{Decision P} t : (sel t = true ↔ P) → part sel t = if bool_decide P then cents t else 0.
Proof. unfold part. intros HP. case_bool_decide; destruct (sel t); naive_solver. Qed.

Lemma topped_up_part id t :
  part (λ t, coded TransferCodeTopUp t && credits id t) t =
    if bool_decide (Transfer_Code t = TransferCodeTopUp ∧ Transfer_CreditAccountID t = id) then cents t else 0.
Proof. apply part_test. unfold coded, credits. by rewrite andb_true_iff, Z.eqb_eq, bool_decide_eq_true. Qed.
Lemma withdrawn_part id t :
  part (λ t, coded TransferCodeWithdrawal t && debits id t) t =
    if bool_decide (Transfer_Code t = TransferCodeWithdrawal ∧ Transfer_DebitAccountID t = id) then cents t else 0.
Proof. apply part_test. unfold coded, debits. by rewrite andb_true_iff, Z.eqb_eq, bool_decide_eq_true. Qed.

Lemma codes_differ t : ¬ (Transfer_Code t = TransferCodeTopUp ∧ Transfer_Code t = TransferCodeWithdrawal).
Proof. intros [-> H]. discriminate H. Qed.

(** One transfer and a family: what it brings in less what it takes out. *)
Lemma family_movement l c corporate cards t :
  service_inv s l c → family l corporate cards → movement l t →
  (if is_pending t then 0
   else (if bool_decide (Transfer_CreditAccountID t ∈ corporate :: cards) then cents t else 0) -
        (if bool_decide (Transfer_DebitAccountID t ∈ corporate :: cards) then cents t else 0)) =
  part (λ t, coded TransferCodeTopUp t && credits corporate t) t -
  part (λ t, coded TransferCodeWithdrawal t && debits corporate t) t.
Proof.
  intros Hinv Hf Hm. rewrite topped_up_part, withdrawn_part.
  pose proof (λ id, family_members l c corporate cards id Hinv Hf) as Hmem.
  destruct Hm as [other Hp Hcode Hd Hc Hk|other Hp Hcode Hd Hc Hk|other card Hp Hn1 Hn2 Hdc [Hk Hl]|Hp Hn1 Hn2];
    rewrite Hp.
  - destruct (Hmem (Transfer_DebitAccountID t)) as (_ & _ & Hcash). destruct (Hmem other) as (Hw & _).
    specialize (Hw Hk). specialize (Hcash Hd). rewrite <- Hc in Hw. pose proof (codes_differ t).
    repeat case_bool_decide; first [lia|exfalso; naive_solver].
  - destruct (Hmem (Transfer_CreditAccountID t)) as (_ & _ & Hcash). destruct (Hmem other) as (Hw & _).
    specialize (Hw Hk). specialize (Hcash Hc). rewrite <- Hd in Hw. pose proof (codes_differ t).
    repeat case_bool_decide; first [lia|exfalso; naive_solver].
  - destruct (Hmem other) as (Hw & _). destruct (Hmem card) as (_ & Hcard & _).
    specialize (Hw Hk). specialize (Hcard other Hl).
    destruct Hdc as [[-> ->]|[-> ->]]; repeat case_bool_decide; first [lia|exfalso; naive_solver].
  - repeat case_bool_decide; first [lia|exfalso; naive_solver].
Qed.

(** What a family holds is what was topped up less what was withdrawn. *)
Lemma family_net l c js corporate cards :
  service_inv s l c → journal l js → family l corporate cards →
  total (λ id, net id js) (corporate :: cards) = topped_up corporate js - withdrawn corporate js.
Proof.
  intros Hinv Hj Hf.
  etransitivity; [|exact (total_sub (part (λ t, coded TransferCodeTopUp t && credits corporate t))
    (part (λ t, coded TransferCodeWithdrawal t && debits corporate t)) js)].
  apply net_group; [by eapply family_once_all|]. intros t Ht.
  eapply family_movement; [done..|]. by eapply conforms_movement, journal_conforms.
Qed.

Lemma Zeqb_bool_decide (m n : Z) : (m =? n) = bool_decide (m = n).
Proof. by destruct (Z.eqb_spec m n); case_bool_decide. Qed.

(** The accounts of the service itself. *)
Lemma system_ids_differ : SafeguardedCashAccountID ≠ CardSettlementPayableAccountID.
Proof. by intros H%ToUint128_inj. Qed.

Definition all_coded (code : Z) js : Z := flow (coded code) js.

(** Where the system accounts appear. *)
Lemma movement_system l c t : service_inv s l c → movement l t →
  (is_pending t = true → Transfer_Code t ≠ TransferCodeTopUp ∧ Transfer_Code t ≠ TransferCodeWithdrawal) ∧
  (is_pending t = false →
    (Transfer_DebitAccountID t = SafeguardedCashAccountID ↔ Transfer_Code t = TransferCodeTopUp) ∧
    (Transfer_CreditAccountID t = SafeguardedCashAccountID ↔ Transfer_Code t = TransferCodeWithdrawal) ∧
    Transfer_DebitAccountID t ≠ CardSettlementPayableAccountID ∧
    Transfer_CreditAccountID t ≠ CardSettlementPayableAccountID).
Proof.
  intros Hinv Hm. pose proof system_ids_differ as Hsys. pose proof (codes_differ t) as Hcodes.
  assert (∀ id, known_kind s l id AccountCorporateWallet →
    id ≠ SafeguardedCashAccountID ∧ id ≠ CardSettlementPayableAccountID) as Hcorp.
  { intros id (md & Hmd & Hk). by apply (known_not_system s l c id md Hinv Hmd), or_introl. }
  destruct Hm as [other Hp Hcode Hd Hc Hk|other Hp Hcode Hd Hc Hk|other card Hp Hn1 Hn2 Hdc [Hk Hl]|Hp Hn1 Hn2];
    rewrite Hp; (split; [done|]); try done; intros _.
  - destruct (Hcorp other Hk). split_and!; naive_solver congruence.
  - destruct (Hcorp other Hk). split_and!; naive_solver congruence.
  - destruct (Hcorp other Hk). destruct (known_not_system s l c card _ Hinv Hl (or_intror eq_refl)).
    destruct Hdc as [[-> ->]|[-> ->]]; split_and!; naive_solver.
Qed.

(** The net of one account, transfer by transfer. *)
Lemma net_one js id (f : Transfer → Z) :
  (∀ t, t ∈ js → (is_pending t = true → f t = 0) ∧
     (is_pending t = false → f t = (if bool_decide (Transfer_CreditAccountID t = id) then cents t else 0) -
                                   (if bool_decide (Transfer_DebitAccountID t = id) then cents t else 0))) →
  net id js = total f js.
Proof.
  intros Hf. rewrite net_total. apply total_ext. intros t Ht. destruct (Hf t Ht) as [Hpend Hpost].
  unfold net1, part, credits, debits. destruct (is_pending t); cbn [negb andb].
  - by rewrite Hpend.
  - by rewrite Hpost.
Qed.

Lemma system_net l c js : service_inv s l c → journal l js →
  net SafeguardedCashAccountID js = all_coded TransferCodeWithdrawal js - all_coded TransferCodeTopUp js ∧
  net CardSettlementPayableAccountID js = 0.
Proof.
  intros Hinv Hj. assert (∀ t, t ∈ js → movement l t) as Hm
    by (intros t Ht; by eapply conforms_movement, journal_conforms).
  split.
  - unfold all_coded, flow. rewrite <- total_sub. apply net_one. intros t Ht.
    destruct (movement_system l c t Hinv (Hm t Ht)) as [Hpend Hpost].
    unfold part, coded. split; intros Hp.
    + destruct (Hpend Hp) as [Ht1%Z.eqb_neq Ht2%Z.eqb_neq]. by rewrite Ht1, Ht2.
    + destruct (Hpost Hp) as (Hd & Hc & _). rewrite (bool_decide_ext _ _ Hd), (bool_decide_ext _ _ Hc).
      by rewrite !Zeqb_bool_decide.
  - rewrite (net_one js _ (λ _, 0)); [by apply total_zero|]. intros t Ht. split; [done|]. intros Hp.
    destruct (movement_system l c t Hinv (Hm t Ht)) as [_ Hpost].
    destruct (Hpost Hp) as (_ & _ & ? & ?). by rewrite !bool_decide_eq_false_2.
Qed.

(** No transfer is between an account and itself. *)
Lemma conforms_parties l c t :
  service_inv s l c → conforms s l t → Transfer_DebitAccountID t ≠ Transfer_CreditAccountID t.
Proof.
  intros Hinv [Hr _] Heq.
  assert (∀ id, known_kind s l id AccountCorporateWallet →
    id ≠ SafeguardedCashAccountID ∧ id ≠ CardSettlementPayableAccountID) as Hcorp.
  { intros id (md & Hmd & Hk). by apply (known_not_system s l c id md Hinv Hmd), or_introl. }
  assert (∀ id, known_kind s l id AccountCardWallet → id ≠ CardSettlementPayableAccountID) as Hcard.
  { intros id (md & Hmd & Hk). by apply (known_not_system s l c id md Hinv Hmd), or_intror. }
  destruct Hr as [(_&_&_&_&Hd&Hc)|(_&_&_&_&Hd&Hc)|? [Hk Hl]|? [Hk Hl]|(_&_&Hd&Hc)|o (_&_&Hd&Hc)];
    unfold is_cash, is_kind in *; rewrite Heq in *.
  - by destruct (Hcorp _ Hc).
  - by destruct (Hcorp _ Hd).
  - by pose proof (known_kinds_differ s l _ _ _ Hl Hk).
  - by pose proof (known_kinds_differ s l _ _ _ Hl Hk).
  - by destruct (Hcard _ Hd).
  - by destruct (Hcard _ Hd).
Qed.
End conservation.

(** ** The journal of the test ledger *)
Section fake.
Context {sdk : SDK}.

Definition fake_journal (f : fakeLedger) : list Transfer := snd <$> map_to_list (fake_transfers f).

Lemma fake_journal_elem f t : fake_wf f →
  t ∈ fake_journal f ↔ fake_transfers f !! Uint128_String (Transfer_ID t) = Some t.
Proof.
  intros Hwf. unfold fake_journal. rewrite list_elem_of_fmap. split.
  - intros ([k u] & -> & Hk%elem_of_map_to_list). cbn. by rewrite <- (fwf_transfers f Hwf k u).
  - intros Ht. exists (Uint128_String (Transfer_ID t), t). split; [done|by apply elem_of_map_to_list].
Qed.

Lemma fake_journal_once f : fake_wf f → NoDup (fake_journal f).
Proof.
  intros Hwf. unfold fake_journal. apply NoDup_fmap_2_strong; [|apply NoDup_map_to_list].
  intros [k t] [k' t'] H%elem_of_map_to_list H'%elem_of_map_to_list. cbn. intros <-.
  by rewrite (fwf_transfers f Hwf k t), (fwf_transfers f Hwf k' t).
Qed.

Lemma fake_journal_lists s f : fake_wf f →
  (∀ t, t ∈ fake_journal f → Transfer_Ledger t = ledgerID s) → journal s f (fake_journal f).
Proof.
  intros Hwf Hown. split; [by apply fake_journal_once|]. intros t. split.
  - intros Ht. split; [by apply fake_journal_elem|by apply Hown].
  - intros [Ht _]. by apply fake_journal_elem.
Qed.

(** The cards of a corporate wallet. *)
Definition card_of (s : Service) (corporate : Uint128) (a : Account) : bool :=
  bool_decide (metadataForAccount s a = Some (mkAccountMetadata AccountCardWallet corporate)).
Definition fake_cards (s : Service) (f : fakeLedger) (corporate : Uint128) : list Uint128 :=
  Account_ID <$> filter (λ a, card_of s corporate a) (snd <$> map_to_list (fake_accounts f)).

Lemma fake_family {laws : SDKLaws sdk} s f corporate : fake_wf f →
  known_kind s f corporate AccountCorporateWallet → family s f corporate (fake_cards s f corporate).
Proof.
  intros Hwf Hk. unfold fake_cards. split; [|done|].
  - apply NoDup_fmap_2_strong.
    + intros a b Ha Hb. apply list_elem_of_filter in Ha as [_ Ha], Hb as [_ Hb].
      apply list_elem_of_fmap in Ha as ([k ?] & -> & Ha%elem_of_map_to_list).
      apply list_elem_of_fmap in Hb as ([k' ?] & -> & Hb%elem_of_map_to_list). cbn.
      rewrite (fwf_accounts f Hwf _ _ Ha) in Ha. rewrite (fwf_accounts f Hwf _ _ Hb) in Hb. intros Heq.
      rewrite Heq in Ha. congruence.
    + apply NoDup_filter, NoDup_fmap_2_strong; [|apply NoDup_map_to_list].
      intros [k a] [k' b] Ha%elem_of_map_to_list Hb%elem_of_map_to_list. cbn. intros <-.
      by rewrite (fwf_accounts f Hwf k a), (fwf_accounts f Hwf k' a).
  - intros card. rewrite list_elem_of_fmap. split.
    + intros (a & -> & Ha). apply list_elem_of_filter in Ha as [Hc%bool_decide_unpack Ha].
      apply list_elem_of_fmap in Ha as ([k ?] & -> & Ha%elem_of_map_to_list).
      eexists. split; [|exact Hc]. cbn in *. by rewrite <- (fwf_accounts f Hwf _ _ Ha).
    + intros (a & Ha & Hc). exists a. split.
      * apply Uint128_String_inj, (fwf_accounts f Hwf _ _ Ha).
      * apply list_elem_of_filter. split; [by apply bool_decide_pack|].
        apply list_elem_of_fmap. exists (Uint128_String card, a). split; [done|by apply elem_of_map_to_list].
Qed.
End fake.

Lemma own_ledger (s : Service) (js : list Transfer) :
  forallb (λ t, Transfer_Ledger t =? ledgerID s) js = true → ∀ t, t ∈ js → Transfer_Ledger t = ledgerID s.
Proof. intros H t Ht. apply Z.eqb_eq. by apply (proj1 (forallb_forall _ _) H), list_elem_of_In. Qed.

(** C10: The customers' money is conserved.  In every state of every deployment
    - any number of instances, restarts and crashes -, with any list of the journal
    of the service's ledger: what the wallet of a corporate
    customer and all its cards hold together is exactly what was topped up to the
    wallet less what was withdrawn from it, whatever was moved to, from and held
    on the cards; the safeguarded cash owes nothing else, its posted debits exceed
    its credits by all top-ups less all withdrawals; and nothing is ever posted
    to or from the settlement account. *)
Theorem money_is_conserved {sdk : SDK} {laws : SDKLaws sdk} {L : Type} {ledger : Ledger L}
    {view : LedgerView L} {contract : LedgerContract L} s (l l' : L) ps js :
  books (ledgerID s) l → deployed_steps (ledgerID s) (l, []) (l', ps) → journal s l' js →
  (∀ corporate cards, family s l' corporate cards →
     total (λ id, net id js) (corporate :: cards) = topped_up corporate js - withdrawn corporate js) ∧
  net SafeguardedCashAccountID js = all_coded TransferCodeWithdrawal js - all_coded TransferCodeTopUp js ∧
  net CardSettlementPayableAccountID js = 0.
Proof.
  intros Hb Hsteps Hj. destruct (deployed_ok _ _ _ _ Hb Hsteps) as (Hb' & _ & _).
  pose proof (books_new_cache s l' Hb') as Hinv.
  split; [|by eapply system_net]. intros corporate cards Hf. by eapply family_net.
Qed.

(** A corporate wallet that was topped up with 1000 cents; the withdrawal of 100 is
    killed after the ledger executed it. *)
Definition ledger_after_crash : fakeLedger :=
  (killed_and_restarted [ReqWithdraw withdrawal_request] (w_ledger world_card)).1.

Lemma ledger_after_crash_wf : fake_wf ledger_after_crash.
Proof.
  pose proof (killed_and_restarted_steps [ReqWithdraw withdrawal_request] (w_ledger world_card)) as Hsteps.
  unfold ledger_after_crash. destruct (killed_and_restarted _ _) as [l ps].
  destruct (deployed_ok _ _ _ _ world_card_books Hsteps) as ([Hwf _] & _ & _). exact Hwf.
Qed.

Example money_after_crash :
  let corporate := hex testCorporateAccountID in
  let js := fake_journal ledger_after_crash in
  (total (λ id, net id js) (corporate :: fake_cards (service 100000) ledger_after_crash corporate),
   topped_up corporate js, withdrawn corporate js) = (900, 1000, 100).
Proof. cbv zeta. by_computation. Qed.

Lemma money_is_conserved_witness :
  let corporate := hex testCorporateAccountID in
  let js := fake_journal ledger_after_crash in
  total (λ id, net id js) (corporate :: fake_cards (service 100000) ledger_after_crash corporate)
    = topped_up corporate js - withdrawn corporate js.
Proof.
  cbv zeta. pose proof ledger_after_crash_wf as Hwf.
  refine (proj1 (money_is_conserved (laws := ModelSDK_laws) (service 100000) (w_ledger world_card)
    ledger_after_crash (killed_and_restarted [ReqWithdraw withdrawal_request] (w_ledger world_card)).2
    (fake_journal ledger_after_crash) world_card_books _ _)
    (hex testCorporateAccountID) (fake_cards (service 100000) ledger_after_crash
       (hex testCorporateAccountID)) _).
  - unfold ledger_after_crash. rewrite <- surjective_pairing. apply killed_and_restarted_steps.
  - apply fake_journal_lists; [exact Hwf|]. apply own_ledger. by_computation.
  - apply (fake_family (laws := ModelSDK_laws)); [exact Hwf|]. apply stored_known. by_computation.
Defined.
