(* ===== verification/Provenance.v ===== *)
(** * Where accounts and transfers come from

    [submits] bounds the objects a program may submit to the ledger, for every
    answer it is given.  Each method submits only what its request asks for, so
    that in every interleaving whatever appears in the ledger was asked for by
    one of the requests. *)
From S2P Require Import Prelude GoBase GoCrypto Domain TigerBeetle TigerBeetleModel LedgerModel.
From S2P Require Import Cache Health Interface Semantics Contract FakeLedger Service ServiceSpec.
From S2P Require Import Operations OperationsSpec Invariant Safety Scenarios Outcomes System.
Import GoInt GoError GoTime.
Local Open Scope Z_scope.
Local Open Scope prog_scope.

Section submits.
Context {sdk : SDK}.

(** The objects a program may submit. *)
Record grants := mkGrants { may_transfer : Transfer → Prop; may_account : Account → Prop }.
Context (g : grants).

Definition granted {X} (e : eff X) : Prop :=
  match e with
  | CreateTransferCall t => may_transfer g t
  | CreateAccountCall a => may_account g a
  | _ => True
  end.
Fixpoint submits {A} (p : prog A) : Prop :=
  match p with
  | Ret _ | Panic => True
  | Call e k => granted e ∧ ∀ x, submits (k x)
  end.

Lemma submits_bind {A B} (p : prog A) (f : A → prog B) :
  submits p → (∀ a, submits (f a)) → submits (bind p f).
Proof. intros Hp Hf. induction p as [a| |X e k IH]; cbn in *; [apply Hf|done|naive_solver]. Qed.
Lemma submits_bind_err {A B} (p : prog (result error A)) (f : A → prog (result error B)) :
  submits p → (∀ a, submits (f a)) → submits (bind_err p f).
Proof. intros Hp Hf. apply submits_bind; [done|]. by intros [e|a]. Qed.
(** A check of the request: what follows may rely on it. *)
Lemma submits_let {A B} (r : result error A) (f : A → prog (result error B)) :
  (∀ a, r = inr a → submits (f a)) → submits (bind_err (Ret r) f).
Proof. intros Hf. destruct r as [e|a]; cbn; [done|by apply Hf]. Qed.
Lemma submits_reads_only {A} (p : prog A) : reads_only p → submits p.
Proof.
  induction p as [a| |X e k IH]; cbn; [done..|]. intros [He Hk].
  split; [by destruct e|]. intros x. by apply IH.
Qed.
Lemma submits_observed {A} m kind (e : eff (result error A)) :
  granted e → submits (observed m kind e).
Proof. intros He. cbn. split_and!; [done|]. intros ?. by destruct m. Qed.
End submits.

Ltac submits_step :=
  lazymatch goal with
  | |- ∀ _, _ => intro
  | |- submits _ (bind_err (Ret _) _) => apply submits_let; intros ? ?
  | |- submits _ (bind (call TimeNow) _) => apply submits_bind; [done|intros ?]
  | |- submits _ (bind_err (requireAccountKind _ _ _) _) =>
      apply submits_bind_err; [apply submits_reads_only, reads_only_requireAccountKind|intros ?]
  | |- submits _ (if ?b then _ else _) => destruct b eqn:?
  | |- submits _ (Ret _) => exact I
  | |- submits _ (bind (observeCompletion _ _ _ _ _ _ _ _) _) =>
      apply submits_reads_only, reads_only_observe
  end.

Section methods.
Context {sdk : SDK} (s : Service).

(** The transfers a request asks for: of a posting the one it describes, of an
    authorization or an increment one hold, and only if the risk evaluation
    approves it. *)
Definition asks_transfer (q : request) (t : Transfer) : Prop :=
  match q with
  | ReqTopUp r => topup_transfer s r = inr t
  | ReqWithdraw r => withdrawal_transfer s r = inr t
  | ReqAllocateToCard r => allocation_transfer s r = inr t
  | ReqReturnFromCard r => return_transfer s r = inr t
  | ReqAuthorize ctx r =>
      hold_transfer s r = inr t ∧ evaluateRisk s ctx (AuthorizationRequest_AmountCents r) = inr true
  | ReqIncrementAuthorization ctx r =>
      evaluateRisk s ctx (IncrementAuthorizationRequest_IncrementCents r) = inr true ∧
      ∃ authorizationID incrementID original remaining,
        increment_ids r = inr (authorizationID, incrementID) ∧ is_authorization s original = true ∧
        0 < remaining ∧
        t = increment_transfer s original incrementID authorizationID
              (IncrementAuthorizationRequest_IncrementCents r) (remaining_seconds original remaining)
  | _ => False
  end.

(** The accounts: the two system accounts, or the one of a creation. *)
Definition asks_account (q : request) (a : Account) : Prop :=
  match q with
  | ReqEnsureSystemAccounts =>
      ∃ kind id, (kind, id) ∈ systemAccounts ∧ ledger_Account kind id Uint128_zero (ledgerID s) = inr a
  | ReqCreateAccount r =>
      ∃ id parent, accountID "account_id" (CreateAccountRequest_AccountID r) = inr id ∧
        (CreateAccountRequest_Kind r = AccountCorporateWallet ∨ CreateAccountRequest_Kind r = AccountCardWallet) ∧
        ledger_Account (CreateAccountRequest_Kind r) id parent (ledgerID s) = inr a
  | _ => False
  end.

Definition grants_of (q : request) : grants := mkGrants (asks_transfer q) (asks_account q).

(** [executeTransaction] submits the transfer it is given. *)
Lemma execute_submits g kind rid t st : may_transfer g t → submits g (executeTransaction s kind rid t st).
Proof.
  intros Ht. unfold executeTransaction. submits_step. apply submits_bind; [by apply submits_observed|].
  intros [e|r]; [submits_step|]. submits_step; [submits_step|].
  destruct (errorCode _) as [[code msg] status]. submits_step.
Qed.

Lemma TopUp_submits q : submits (grants_of (ReqTopUp q)) (TopUp s q).
Proof.
  unfold TopUp. do 4 submits_step. apply execute_submits. cbn. unfold topup_transfer. use_ids.
Qed.
Lemma Withdraw_submits q : submits (grants_of (ReqWithdraw q)) (Withdraw s q).
Proof.
  unfold Withdraw. do 4 submits_step. apply execute_submits. cbn. unfold withdrawal_transfer. use_ids.
Qed.

Lemma move_submits g kind rid a c amount (back : bool) :
  (∀ account card id, accountID "account_id" a = inr account → accountID "card_id" c = inr card →
    (amount =? 0) = false → requestID rid = inr id →
    may_transfer g (if back then posted_transfer s id card account amount TransferCodeCardReturn
                    else posted_transfer s id account card amount TransferCodeCardAllocation)) →
  submits g (moveCardFunds s kind rid a c amount back).
Proof.
  intros Hg. unfold moveCardFunds. do 6 submits_step. case_decide; [submits_step|].
  destruct back; apply execute_submits; by apply Hg.
Qed.
Lemma AllocateToCard_submits q : submits (grants_of (ReqAllocateToCard q)) (AllocateToCard s q).
Proof. apply move_submits. intros. cbn. unfold allocation_transfer. use_ids. Qed.
Lemma ReturnFromCard_submits q : submits (grants_of (ReqReturnFromCard q)) (ReturnFromCard s q).
Proof. apply move_submits. intros. cbn. unfold return_transfer. use_ids. Qed.

(** An authorization is submitted only when it is approved. *)
Lemma Authorize_submits ctx q : submits (grants_of (ReqAuthorize ctx q)) (Authorize s ctx q).
Proof.
  destruct (decide (evaluateRisk s ctx (AuthorizationRequest_AmountCents q) = inr true)) as [Hrisk|Hrisk];
    [|by apply submits_reads_only, Authorize_reads_only].
  unfold Authorize. do 7 submits_step. rewrite Hrisk. submits_step. cbn [negb].
  unfold Authorize_submit, observe_authorization. apply submits_bind.
  { apply submits_observed. split; [|done]. unfold hold_transfer. use_ids. }
  intros [e|r]; [submits_step|]. submits_step; [submits_step|].
  destruct (errorCode _) as [[code msg] status].
  repeat case_match; submits_step.
Qed.

Lemma increment_answer_reads_only r original started ms answer :
  reads_only (increment_answer s r original started ms answer).
Proof.
  unfold increment_answer, observe_increment. destruct (isIdempotencyConflict _); [apply reads_only_observe|].
  destruct (errorCode _) as [[code msg] status].
  repeat case_match; apply reads_only_observe.
Qed.

Lemma increment_submits ctx q :
  submits (grants_of (ReqIncrementAuthorization ctx q)) (IncrementAuthorization s ctx q).
Proof.
  destruct (decide (evaluateRisk s ctx (IncrementAuthorizationRequest_IncrementCents q) = inr true))
    as [Hrisk|Hrisk]; [|by apply submits_reads_only, IncrementAuthorization_reads_only].
  unfold IncrementAuthorization. submits_step. destruct a as [authID incID]. submits_step.
  apply submits_bind_err; [by apply submits_observed|]. intros [original []]; [|done]. cbn [negb].
  destruct (is_authorization s original) eqn:Hopen; [|done]. cbn [negb].
  apply submits_bind; [apply submits_reads_only, reads_only_requireAccountKind|].
  intros [e|md]; [by destruct (Is _ _)|]. submits_step. rewrite Hrisk. submits_step. cbn [negb].
  unfold increment_approved. submits_step. destruct (_ && _) eqn:Hexpired.
  { apply submits_reads_only, existing_increment_or_reads_only. done. }
  unfold increment_submit, observe_increment. apply submits_bind.
  { apply submits_observed. split; [done|]. eexists authID, incID, original, _.
    split_and!; [done|done| |reflexivity].
    apply is_authorization_spec in Hopen. destruct Hopen.
    apply andb_false_iff in Hexpired as [?|?]; bool_simpl; [done|lia]. }
  intros [e|r]; [submits_step|]. submits_step; [|apply submits_reads_only, increment_answer_reads_only].
  apply submits_bind_err; [by apply submits_observed|]. intros [existing found].
  apply submits_reads_only, increment_answer_reads_only.
Qed.

(** Accounts. *)
Lemma provision_submits accounts : accounts ⊆ systemAccounts →
  submits (grants_of ReqEnsureSystemAccounts) (provision s accounts).
Proof.
  induction accounts as [|[kind id] accounts IH]; intros Hsub; cbn [provision]; [done|].
  submits_step. apply submits_bind_err.
  { apply submits_observed. exists kind, id. split; [|done]. apply Hsub. left. }
  intros r. submits_step; [done|]. apply submits_bind; [|intros _; apply IH; intros x Hx; apply Hsub; by right].
  apply submits_reads_only. unfold rememberAccount. case_match; [apply reads_only_cache_store|done].
Qed.

Lemma CreateAccount_submits q : submits (grants_of (ReqCreateAccount q)) (CreateAccount s q).
Proof.
  assert (∀ a, reads_only (rememberAccount s a)) as Hrem.
  { intros a. unfold rememberAccount. case_match; [apply reads_only_cache_store|done]. }
  unfold CreateAccount. submits_step. submits_step; [submits_step|].
  apply submits_bind_err.
  { apply submits_reads_only. unfold parent_of_request.
    destruct (decide (CreateAccountRequest_Kind q = AccountCardWallet)); [|by destruct (decide _)].
    apply reads_only_bind_err; [done|]. intros parent. destruct (decide (parent = a)); [done|].
    apply reads_only_bind_err; [apply reads_only_requireAccountKind|done]. }
  intros parent. unfold CreateAccount_submit. submits_step. apply submits_bind_err.
  { apply submits_observed. exists a, parent. split_and!; [done| |done].
    apply andb_false_iff in Heqb as [Hk|Hk]; bool_simpl; [left|right]; by apply dec_stable. }
  intros r. destruct (AccountResult_Status r); try (by case_match);
    (apply submits_bind; [apply submits_reads_only, Hrem|done]).
Qed.

Lemma dispatch_submits q : submits (grants_of q) (dispatch s q).
Proof.
  destruct q; cbn [dispatch]; (apply submits_bind; [|done]).
  - by apply provision_submits.
  - apply CreateAccount_submits.
  - apply submits_reads_only, Balance_reads_only.
  - apply TopUp_submits.
  - apply Withdraw_submits.
  - apply AllocateToCard_submits.
  - apply ReturnFromCard_submits.
  - apply Authorize_submits.
  - apply increment_submits.
  - done.
Qed.
End methods.

(** ** Every interleaving *)

(** What every granted effect keeps is kept by every pool of programs. *)
Lemma pool_granted {sdk : SDK} {L : Type} {ledger : Ledger L} env {A} (gs : list grants) (I : World L → Prop)
    (cfg cfg' : list (prog A) * World L) :
  (∀ X (e : eff X) g w, g ∈ gs → granted g e → I w → I (snd (handle env e w))) →
  pool_steps env cfg cfg' → Forall2 (λ g, submits g) gs (fst cfg) → I (snd cfg) → I (snd cfg').
Proof.
  intros HI. induction 1 as [|cfg1 cfg2 cfg3 Hstep _ IH]; [done|]. intros Hall Hw.
  destruct Hstep as [ts i X e k w x w' Hi Hh]. cbn in *.
  destruct (Forall2_lookup_r _ _ _ _ _ Hall Hi) as (g & Hg & He & Hk).
  pose proof (HI X e g w (list_elem_of_lookup_2 _ _ _ Hg) He Hw) as Hw'. rewrite Hh in Hw'.
  apply IH; [|done]. rewrite <- (list_insert_id gs i g Hg). by apply Forall2_insert.
Qed.

Lemma handlers_submit {sdk : SDK} s qs :
  Forall2 (λ g, submits g) (grants_of s <$> qs) (handlers s qs).
Proof. apply Forall2_fmap, Forall_Forall2_diag, Forall_forall. intros q _. apply dispatch_submits. Qed.

Section provenance.
Context {sdk : SDK} {L : Type} {ledger : Ledger L} {view : LedgerView L} {contract : LedgerContract L}.

(** What [l'] has that [l] had not was granted to one of [gs]. *)
Record provenance (gs : list grants) (l l' : L) : Prop := {
  new_transfers id t : transfer_of l' id = Some t → transfer_of l id = None →
    ∃ g t0, g ∈ gs ∧ may_transfer g t0 ∧ same_payload t0 t;
  new_accounts id a : account_of l' id = Some a → account_of l id = None →
    ∃ g a0, g ∈ gs ∧ may_account g a0 ∧ same_definition a0 a }.

(** Only transfers the contract is about. *)
Definition grants_ordinary (g : grants) : Prop := ∀ t, may_transfer g t → ordinary t.

(** A call of the ledger, with the objects that may be submitted. *)
Lemma handle_provenance env {X} (e : eff X) g gs l0 (w : World L) :
  ledger_wf (w_ledger w) → provenance gs l0 (w_ledger w) → g ∈ gs → grants_ordinary g → granted g e →
  let w' := snd (handle env e w) in
  ledger_wf (w_ledger w') ∧ provenance gs l0 (w_ledger w').
Proof.
  intros Hwf Hprov Hg Hord He.
  assert (∀ l', same_view (w_ledger w) l' → provenance gs l0 l') as Hsame.
  { intros l' [Ha Ht]. destruct Hprov as [Hnt Hna]. split; intros id x.
    - rewrite Ht. apply Hnt.
    - rewrite Ha. apply Hna. }
  destruct e; cbn in He |- *; try done.
  - pose proof (create_account_ok (w_ledger w) account Hwf) as Hok.
    destruct (Ledger_CreateAccount account (w_ledger w)) as [r l']. cbn.
    destruct Hok as (Hwf' & Ht & Hr). split; [done|].
    assert (accounts_same (w_ledger w) l' ∨ account_added account (w_ledger w) l') as Hchange
      by (destruct r; [by apply Hr|by eapply account_answer_change]).
    destruct Hprov as [Hnt Hna]. split; [intros id t; rewrite Ht; apply Hnt|]. intros id a Ha Hnone.
    destruct Hchange as [Hs|(Hnew & (a' & Ha' & Hd) & Hother)]; [rewrite Hs in Ha; by eapply Hna|].
    destruct (decide (id = Account_ID account)) as [->|Hne];
      [|rewrite Hother in Ha by done; by eapply Hna].
    rewrite Ha' in Ha. injection Ha as <-. by exists g, account.
  - pose proof (create_transfer_ok (w_ledger w) transfer Hwf (Hord _ He)) as Hok.
    destruct (Ledger_CreateTransfer transfer (w_ledger w)) as [r l']. cbn.
    destruct Hok as (Hwf' & Hd & Hr). split; [done|].
    assert (transfers_same (w_ledger w) l' ∨ transfer_added transfer (w_ledger w) l') as Hchange
      by (destruct r; [by apply Hr|by eapply transfer_answer_change]).
    destruct Hprov as [Hnt Hna]. split.
    + intros id t Ht Hnone.
      destruct Hchange as [Hs|(Hnew & (t' & Ht' & Hp) & Hother)]; [rewrite Hs in Ht; by eapply Hnt|].
      destruct (decide (id = Transfer_ID transfer)) as [->|Hne];
        [|rewrite Hother in Ht by done; by eapply Hnt].
      rewrite Ht' in Ht. injection Ht as <-. by exists g, transfer.
    + intros id a Ha Hnone. specialize (Hd id). rewrite Ha in Hd.
      destruct (account_of (w_ledger w) id) as [a0|] eqn:Ha0; [|done]. destruct Hd as [Hdef _].
      destruct (Hna id a0 Ha0 Hnone) as (g' & a1 & ? & ? & ?). exists g', a1.
      split_and!; [done|done|by etransitivity].
  - pose proof (lookup_account_ok (w_ledger w) id Hwf) as Hok.
    destruct (Ledger_LookupAccount id (w_ledger w)) as [r l']. destruct Hok as (? & ? & _). auto.
  - pose proof (lookup_transfer_ok (w_ledger w) id Hwf) as Hok.
    destruct (Ledger_LookupTransfer id (w_ledger w)) as [r l']. destruct Hok as (? & ? & _). auto.
  - by destruct (metadataCache_Store _ _ _).
Qed.

Lemma provenance_refl gs l : provenance gs l l.
Proof. split; congruence. Qed.

Lemma pool_provenance env {A} gs l0 (cfg cfg' : list (prog A) * World L) :
  pool_steps env cfg cfg' → Forall2 (λ g, submits g) gs (fst cfg) → Forall grants_ordinary gs →
  ledger_wf (w_ledger (snd cfg)) → provenance gs l0 (w_ledger (snd cfg)) → provenance gs l0 (w_ledger (snd cfg')).
Proof.
  intros Hsteps Hall Hord Hwf Hprov.
  apply (pool_granted env gs (λ w, ledger_wf (w_ledger w) ∧ provenance gs l0 (w_ledger w)) cfg cfg');
    [|done..]. intros X e g w Hg He [Hw Hp]. apply (handle_provenance env e g); try done.
    by apply (proj1 (Forall_forall _ _) Hord).
Qed.
End provenance.

Lemma grants_of_ordinary {sdk : SDK} s q : grants_ordinary (grants_of s q).
Proof.
  intros t. destruct q; cbn; try done.
  - intros H. by apply (posting_ordinary s (ReqTopUp r) (TopUpRequest_RequestID r)); cbn; rewrite H.
  - intros H. by apply (posting_ordinary s (ReqWithdraw r) (WithdrawalRequest_RequestID r)); cbn; rewrite H.
  - intros H. by apply (posting_ordinary s (ReqAllocateToCard r) (CardAllocationRequest_RequestID r)); cbn; rewrite H.
  - intros H. by apply (posting_ordinary s (ReqReturnFromCard r) (CardReturnRequest_RequestID r)); cbn; rewrite H.
  - intros [H _]. by eapply hold_transfer_ordinary.
  - intros (_ & authID & incID & original & remaining & _ & _ & _ & ->). by right.
Qed.

(** Every transfer asked for is one of the service's ledger. *)
Lemma asks_transfer_ledger {sdk : SDK} s q t : asks_transfer s q t → Transfer_Ledger t = ledgerID s.
Proof.
  destruct q; cbn; try done.
  - intros H. by apply (posting_ledger s (ReqTopUp r) (TopUpRequest_RequestID r)); cbn; rewrite H.
  - intros H. by apply (posting_ledger s (ReqWithdraw r) (WithdrawalRequest_RequestID r)); cbn; rewrite H.
  - intros H. by apply (posting_ledger s (ReqAllocateToCard r) (CardAllocationRequest_RequestID r)); cbn; rewrite H.
  - intros H. by apply (posting_ledger s (ReqReturnFromCard r) (CardReturnRequest_RequestID r)); cbn; rewrite H.
  - intros [H _]. by eapply hold_transfer_ledger.
  - by intros (_ & authID & incID & original & remaining & _ & _ & _ & ->).
Qed.

(** Nothing happens unasked.  In every interleaving of concurrent requests -
    also when calls fail after they were applied - every transfer that was not in
    the ledger before is the one transfer a request asks for, with its accounts,
    amount and code: of a top-up, withdrawal, allocation or return, of an
    authorization or an increment that the risk evaluation approves, an increment
    with the shape of one on an open authorization; and every account that was not
    there is a system account being provisioned or the one a request creates.  A
    request that is malformed, over the limit or a query leaves no trace. *)
Theorem nothing_happens_unasked {sdk : SDK} {L : Type} {ledger : Ledger L} {view : LedgerView L}
    {contract : LedgerContract L} s env qs (w : World L) ts w' :
  ledger_wf (w_ledger w) → reachable s env qs w ts w' →
  (∀ id t, transfer_of (w_ledger w') id = Some t → transfer_of (w_ledger w) id = None →
     ∃ q t0, q ∈ qs ∧ asks_transfer s q t0 ∧ same_payload t0 t) ∧
  (∀ id a, account_of (w_ledger w') id = Some a → account_of (w_ledger w) id = None →
     ∃ q a0, q ∈ qs ∧ asks_account s q a0 ∧ same_definition a0 a).
Proof.
  intros Hwf Hreach.
  destruct (pool_provenance env (grants_of s <$> qs) (w_ledger w) _ _ Hreach) as [Hnt Hna]; cbn.
  - apply handlers_submit.
  - by apply Forall_fmap, Forall_true, grants_of_ordinary.
  - done.
  - apply provenance_refl.
  - split.
    + intros id t Ht Hnone. destruct (Hnt id t Ht Hnone) as (g & t0 & Hin & ? & ?).
      apply list_elem_of_fmap in Hin as (q & -> & Hq). by exists q, t0.
    + intros id a Ha Hnone. destruct (Hna id a Ha Hnone) as (g & a0 & Hin & ? & ?).
      apply list_elem_of_fmap in Hin as (q & -> & Hq). by exists q, a0.
Qed.

(** The withdrawal of two concurrent requests: its transfer is the one it asks for. *)
Lemma nothing_happens_unasked_witness :
  ∃ q t0, q ∈ rival_requests ∧ asks_transfer (service 100000) q t0 ∧
    same_payload t0 (default Transfer_zero
      (transfer_of (w_ledger (snd (in_turn rival_requests world_card))) (hex "a5"))).
Proof.
  apply (proj1 (nothing_happens_unasked (service 100000) test_env rival_requests world_card
    (fst (in_turn rival_requests world_card)) (snd (in_turn rival_requests world_card))
    (inv_wf _ _ _ world_card_inv) (in_turn_reachable rival_requests world_card)) (hex "a5")).
  - by_computation.
  - by_computation.
Defined.
