(* ===== verification/Tracking.v ===== *)
(** * The call tracker and the metrics under concurrent requests

    [observedLedger] counts the ledger calls in flight and keeps the oldest: the
    readiness check trusts it.  [tracked] is the protocol of one program: a call
    it begins is closed, and counted when there are metrics, before the next one
    begins and before the program ends; and an operation that is counted is
    logged.  Every method of the service follows it, so that in every
    interleaving the tracker holds exactly the calls that are open and the
    metrics say what the tracker and the log say. *)
From S2P Require Import Prelude GoBase Domain TigerBeetle TigerBeetleModel LedgerModel.
From S2P Require Import Cache Health Interface Semantics Metrics Contract FakeLedger Service Operations.
From S2P Require Import Scenarios System.
Import GoInt GoError GoTime.
Local Open Scope Z_scope.
Local Open Scope prog_scope.

(** Where a program is: between calls, in a call, after a call that is not
    counted yet, after an operation that is counted and not logged yet. *)
Inductive phase := Idle | Open (id : Z) | Closed | Counted (label : string * string).

(** The four effects that are calls of the ledger. *)
Definition is_ledger_call {sdk : SDK} {X} (e : eff X) : bool :=
  match e with
  | CreateAccountCall _ | CreateTransferCall _ | LookupAccountCall _ | LookupTransferCall _ => true
  | _ => false
  end.

(** [reading] holds of what the program may have read from the clock. *)
Section tracked.
Context {sdk : SDK} (metrics : bool) (reading : Time → Prop).

(** The phase of a program before an effect and after it. *)
Definition track {X} (e : eff X) : (X → phase → Prop) → phase → Prop :=
  match e in eff X return (X → phase → Prop) → phase → Prop with
  | TimeNow => λ K o, ∀ t, reading t → K t o
  | BeginCall m started => λ K o, o = Idle ∧ m = metrics ∧ reading started ∧ ∀ id, K id (Open id)
  | DoneCall m id _ _ => λ K o, o = Open id ∧ m = metrics ∧ K tt (if metrics then Closed else Idle)
  | ObserveLedgerCall _ _ _ => λ K o, o = Closed ∧ K tt Idle
  | ObserveOperation kind outcome _ => λ K o, o = Idle ∧ metrics = true ∧ K tt (Counted (kind, outcome))
  | LogInfo msg fields => λ K o,
      match completion (OutLog msg fields) with
      | Some label => o = if metrics then Counted label else Idle
      | None => o = Idle
      end ∧ K tt Idle
  | CreateAccountCall _ => λ K o, (∃ id, o = Open id) ∧ ∀ x, K x o
  | CreateTransferCall _ => λ K o, (∃ id, o = Open id) ∧ ∀ x, K x o
  | LookupAccountCall _ => λ K o, (∃ id, o = Open id) ∧ ∀ x, K x o
  | LookupTransferCall _ => λ K o, (∃ id, o = Open id) ∧ ∀ x, K x o
  | _ => λ K o, ∀ x, K x o
  end.

Fixpoint tracked {A} (p : prog A) (o : phase) : Prop :=
  match p with
  | Ret _ | Panic => o = Idle
  | Call e k => track e (λ x, tracked (k x)) o
  end.

(** An effect that does not report to the tracker, the metrics or the log. *)
Definition untracked {X} (e : eff X) : Prop :=
  match e with
  | BeginCall _ _ | DoneCall _ _ _ _ | ObserveLedgerCall _ _ _ | ObserveOperation _ _ _ | LogInfo _ _ => False
  | _ => True
  end.

Lemma track_mono {X} (e : eff X) (K K' : X → phase → Prop) o :
  (∀ x o', K x o' → K' x o') → track e K o → track e K' o.
Proof. intros HK. destruct e; cbn; naive_solver. Qed.

Lemma track_untracked {X} (e : eff X) (K : X → phase → Prop) o :
  untracked e → (is_ledger_call e = true → ∃ id, o = Open id) → (∀ x, K x o) → track e K o.
Proof. destruct e; cbn; naive_solver. Qed.

Lemma tracked_ret {A} (a : A) : tracked (Ret a) Idle.
Proof. done. Qed.

Lemma tracked_panic {A} : tracked (@Panic sdk A) Idle.
Proof. done. Qed.

Lemma tracked_bind {A B} (p : prog A) (f : A → prog B) o :
  tracked p o → (∀ a, tracked (f a) Idle) → tracked (bind p f) o.
Proof.
  intros Hp Hf. revert o Hp. induction p as [a| |X e k IH]; intros o; cbn; [by intros ->|done|].
  apply track_mono. intros x o'. apply IH.
Qed.

Lemma tracked_bind_err {A B} (p : prog (result error A)) (f : A → prog (result error B)) o :
  tracked p o → (∀ a, tracked (f a) Idle) → tracked (bind_err p f) o.
Proof. intros Hp Hf. apply tracked_bind; [done|]. by intros [e|a]. Qed.

Lemma tracked_call {X} (e : eff X) : untracked e → is_ledger_call e = false → tracked (call e) Idle.
Proof. intros He Hl. apply track_untracked; [done|by rewrite Hl|done]. Qed.

(** The wrapper of a ledger call closes and counts what it opens. *)
Lemma tracked_observed {A} kind (e : eff (result error A)) :
  untracked e → tracked (observed metrics kind e) Idle.
Proof.
  intros He. cbn. intros t Ht. split_and!; [done..|]. intros id. apply track_untracked; [done|by exists id|].
  intros r t' _. split_and!; [done..|]. by destruct metrics.
Qed.
End tracked.

Ltac tracked_step :=
  lazymatch goal with
  | |- ∀ _, _ => intro
  | |- tracked _ _ (match ?x with _ => _ end) _ => destruct x
  | |- tracked _ _ (let '_ := ?x in _) _ => destruct x
  | |- tracked _ _ (bind _ _) _ => apply tracked_bind
  | |- tracked _ _ (bind_err _ _) _ => apply tracked_bind_err
  | |- tracked _ _ (call _) _ => by apply tracked_call
  | |- tracked _ _ (Ret _) _ => apply tracked_ret
  | |- tracked _ _ Panic _ => apply tracked_panic
  | |- tracked _ _ (observed _ _ _) _ => by apply tracked_observed
  | |- tracked _ _ _ _ => solve [eauto with ledger nocore] || (progress cbv beta zeta)
  end.
Ltac tracked := repeat tracked_step.

(** ** Every method of the service *)
Section methods.
Context {sdk : SDK} (s : Service) (reading : Time → Prop).
#[local] Abbreviation tracked := (tracked (metrics s) reading).

(** Every completion that is counted is logged with the same labels. *)
Lemma tracked_completion kind rid st amount started lst attrs :
  tracked (observeCompletion s kind rid st amount started lst attrs) Idle.
Proof.
  intros t Ht. cbn. destruct (metrics s) eqn:E; cbn; rewrite ?E; repeat split.
Qed.
#[local] Hint Resolve tracked_completion : ledger.

Lemma tracked_remember account : tracked (rememberAccount s account) Idle.
Proof. unfold rememberAccount, cache_store. tracked. Qed.
#[local] Hint Resolve tracked_remember : ledger.

Lemma tracked_require id kind : tracked (requireAccountKind s id kind) Idle.
Proof. unfold requireAccountKind, cache_store, observedLedger_LookupAccount. tracked. Qed.
#[local] Hint Resolve tracked_require : ledger.

Lemma tracked_execute kind rid t st : tracked (executeTransaction s kind rid t st) Idle.
Proof. unfold executeTransaction, observedLedger_CreateTransfer. tracked. Qed.
#[local] Hint Resolve tracked_execute : ledger.

Lemma tracked_move kind rid a c amount b : tracked (moveCardFunds s kind rid a c amount b) Idle.
Proof. unfold moveCardFunds. tracked. Qed.
#[local] Hint Resolve tracked_move : ledger.

Lemma tracked_existing q original iid aid started ms rest :
  tracked rest Idle → tracked (existing_increment_or s q original iid aid started ms rest) Idle.
Proof.
  intros Hrest. unfold existing_increment_or, lookupExistingIncrement, observedLedger_LookupTransfer,
    observe_increment. tracked.
Qed.
#[local] Hint Resolve tracked_existing : ledger.

Lemma tracked_increment_answer q original started ms r :
  tracked (increment_answer s q original started ms r) Idle.
Proof. unfold increment_answer, observe_increment. tracked. Qed.
#[local] Hint Resolve tracked_increment_answer : ledger.

Lemma tracked_increment ctx q : tracked (IncrementAuthorization s ctx q) Idle.
Proof.
  unfold IncrementAuthorization, increment_declined, increment_approved, increment_submit,
    observe_increment, observedLedger_LookupTransfer, observedLedger_CreateTransfer. tracked;
  apply tracked_existing; tracked.
Qed.

Lemma tracked_authorize ctx q : tracked (Authorize s ctx q) Idle.
Proof.
  unfold Authorize, Authorize_declined, Authorize_submit, observe_authorization,
    observedLedger_LookupTransfer, observedLedger_CreateTransfer. tracked.
Qed.

Lemma tracked_provision accounts : tracked (provision s accounts) Idle.
Proof.
  induction accounts as [|[kind id] accounts IH]; cbn [provision]; [done|].
  unfold observedLedger_CreateAccount. tracked.
Qed.

Lemma tracked_create q : tracked (CreateAccount s q) Idle.
Proof.
  unfold CreateAccount, parent_of_request, CreateAccount_submit, observedLedger_CreateAccount. tracked.
Qed.

Lemma tracked_dispatch q : tracked (dispatch s q) Idle.
Proof.
  destruct q; cbn [dispatch]; (apply tracked_bind; [|done]).
  - apply tracked_provision.
  - apply tracked_create.
  - unfold Balance, observedLedger_LookupAccount. tracked.
  - unfold TopUp. tracked.
  - unfold Withdraw. tracked.
  - unfold AllocateToCard. tracked.
  - unfold ReturnFromCard. tracked.
  - apply tracked_authorize.
  - apply tracked_increment.
  - unfold Service_LedgerHealth, observedLedger_Health. tracked.
Qed.
End methods.

(** ** Every interleaving *)

(** The image of the phases before and after one program changes its own. *)
Lemma omap_insert_split {A B} (f : A → option B) (os : list A) i x y :
  os !! i = Some x → ∃ rest, omap f os ≡ₚ option_list (f x) ++ rest ∧
    omap f (<[i := y]> os) ≡ₚ option_list (f y) ++ rest.
Proof.
  intros Hi. exists (omap f (take i os ++ drop (S i) os)).
  assert (∀ z l1 l2, omap f (l1 ++ z :: l2) ≡ₚ option_list (f z) ++ omap f (l1 ++ l2)) as Hmid.
  { intros z l1 l2. rewrite <- Permutation_middle. cbn. by destruct (f z). }
  split.
  - rewrite <- (take_drop_middle os i x Hi) at 1. apply Hmid.
  - rewrite (insert_take_drop os i y) by (by eapply lookup_lt_Some). apply Hmid.
Qed.

Definition open_of (o : phase) : option Z := if o is Open id then Some id else None.

(** The tracker holds exactly the open calls of the programs, each once. *)
Record open_calls (os : list phase) (h : observedLedger) : Prop := {
  open_dom : dom (active h) = list_to_set (omap open_of os);
  open_once : NoDup (omap open_of os) }.

Lemma open_size os h : open_calls os h → size (active h) = length (omap open_of os).
Proof. intros [Hd Hn]. rewrite <- size_dom, Hd. by apply size_list_to_set. Qed.

Lemma open_same os i x y h :
  os !! i = Some x → open_of x = open_of y → open_calls os h → open_calls (<[i := y]> os) h.
Proof.
  intros Hi Hxy [Hd Hn]. destruct (omap_insert_split open_of os i x y Hi) as (rest & Hos & Hos').
  rewrite <- Hxy, <- Hos in Hos'. split; [|by rewrite Hos'].
  apply set_eq. intros j. by rewrite Hd, !elem_of_list_to_set, Hos'.
Qed.

Lemma open_begin os i h started :
  open_calls os h → health_wf h → nextID h + 1 < 2 ^ 64 → os !! i = Some Idle →
  let '(id, h') := begin_locked started h in open_calls (<[i := Open id]> os) h'.
Proof.
  intros [Hd Hn] Hwf Hlt Hi. pose proof (wf_nextID _ Hwf). unfold begin_locked.
  rewrite uint64_id by (unfold in_uint64; lia).
  destruct (omap_insert_split open_of os i Idle (Open (nextID h + 1)) Hi) as (rest & Hos & Hos').
  split; cbn [active].
  - apply set_eq. intros j. rewrite dom_insert_L, Hd, elem_of_union, elem_of_singleton,
      !elem_of_list_to_set, Hos, Hos'. cbn. set_solver.
  - rewrite Hos'. cbn. rewrite Hos in Hn. cbn in Hn. apply NoDup_cons. split; [|done].
    intros Hin. assert (nextID h + 1 ∈ dom (active h)) as [t Ht]%elem_of_dom.
    { rewrite Hd, elem_of_list_to_set, Hos. done. }
    apply (wf_ids _ Hwf) in Ht. lia.
Qed.

Lemma open_done order os i h j y completed err :
  open_calls os h → os !! i = Some (Open j) → open_of y = None →
  open_calls (<[i := y]> os) (done_locked order j completed err h).
Proof.
  intros [Hd Hn] Hi Hy. destruct (omap_insert_split open_of os i (Open j) y Hi) as (rest & Hos & Hos').
  rewrite Hy in Hos'. cbn in Hos, Hos'.
  rewrite Hos in Hn. cbn in Hn. apply NoDup_cons in Hn as [Hnew Hn].
  split; [|by rewrite Hos'].
  apply set_eq. intros k. rewrite done_active, dom_delete_L, Hd, elem_of_difference,
    elem_of_singleton, !elem_of_list_to_set, Hos, Hos'. cbn. rewrite elem_of_cons. set_solver.
Qed.

(** A handler that has not ended. *)
Definition running {sdk : SDK} {A} (p : prog A) : bool := if p is Call _ _ then true else false.

Lemma open_running {sdk : SDK} {A} (ts : list (prog A)) os :
  Forall2 (λ p o, running p = false → o = Idle) ts os →
  (length (omap open_of os) ≤ length (filter running ts))%nat.
Proof.
  induction 1 as [|p o ts os Hr _ IH]; [done|]. rewrite filter_cons. cbn [omap]. destruct (running p) eqn:E.
  - rewrite decide_True by done. cbn. fold (omap (M:=list) open_of os). destruct (open_of o); cbn; lia.
  - rewrite decide_False, (Hr eq_refl) by (by intros ?). exact IH.
Qed.

(** The programs in a call or about to count one, and those about to log. *)
Definition in_call (o : phase) : Z := match o with Open _ | Closed => 1 | _ => 0 end.
Definition to_log (label : string * string) (o : phase) : Z :=
  match o with Counted label' => if decide (label' = label) then 1 else 0 | _ => 0 end.

Section pool.
Context {sdk : SDK} {L : Type} {ledger : Ledger L}.

(** What the metrics say: the gauge is the number of calls in flight, every call
    begun is counted or on its way, and so is every operation in the log. *)
Record metered (os : list phase) (w : World L) : Prop := {
  metered_gauge : ledgerCallsInFlight (exposed w) = Z.of_nat (size (active (w_health w)));
  metered_calls : nextID (w_health w) = map_sum (ledgerCalls (exposed w)) + total in_call os;
  metered_operations label :
    counted label (operations (exposed w)) = completions label (w_out w) + total (to_log label) os }.

(** The first [n] readings of the clock, and a program that has seen no others. *)
Definition read_before (env : Env) (n : nat) (t : Time) : Prop := ∃ k, (k < n)%nat ∧ t = env_clock env k.
Definition tracked_from (env : Env) (m : bool) (n : nat) {A} (p : prog A) (o : phase) : Prop :=
  ∀ n', (n ≤ n')%nat → tracked m (read_before env n') p o.

Lemma read_before_mono env n n' t : (n ≤ n')%nat → read_before env n t → read_before env n' t.
Proof. intros Hn (k & Hk & ->). exists k. split; [lia|done]. Qed.
Lemma tracked_from_mono env m n n' {A} (p : prog A) o :
  (n ≤ n')%nat → tracked_from env m n p o → tracked_from env m n' p o.
Proof. intros Hn Hp k Hk. apply Hp. lia. Qed.
Lemma tracked_from_ended env m n {A} (p : prog A) o : tracked_from env m n p o → running p = false → o = Idle.
Proof. intros Hp Hr. specialize (Hp n (le_n n)). by destruct p. Qed.
Lemma tracked_from_insert env m n n' {A} (ts : list (prog A)) os i p o :
  Forall2 (tracked_from env m n) ts os → (n ≤ n')%nat → tracked_from env m n' p o →
  Forall2 (tracked_from env m n') (<[i := p]> ts) (<[i := o]> os).
Proof.
  intros Hts Hn Hp. apply Forall2_insert; [|done].
  eapply Forall2_impl; [exact Hts|]. intros p' o'. by apply tracked_from_mono.
Qed.

(** The protocol of the programs and the shared state together. *)
Record tracking (env : Env) {A} (m : bool) (ts : list (prog A)) (w : World L) (os : list phase) : Prop := {
  tracking_progs : Forall2 (tracked_from env m (w_ticks w)) ts os;
  tracking_open : open_calls os (w_health w);
  tracking_wf : health_wf (w_health w);
  tracking_dates id t : active (w_health w) !! id = Some t → read_before env (w_ticks w) t;
  tracking_metered : m = true → metered os w }.

(** An effect that reports nothing. *)
Lemma handle_untracked env {X} (e : eff X) (w : World L) :
  untracked e → let w' := snd (handle env e w) in
  w_health w' = w_health w ∧ w_calls w' = w_calls w ∧ w_out w' = w_out w ∧ (w_ticks w ≤ w_ticks w')%nat.
Proof. destruct e; cbn; try done; intros _; repeat case_match; simplify_eq/=; split_and!; done || lia. Qed.

Lemma track_value env m {A X} (e : eff X) (k : X → prog A) o (w : World L) :
  untracked e → tracked_from env m (w_ticks w) (Call e k) o →
  tracked_from env m (w_ticks (snd (handle env e w))) (k (fst (handle env e w))) o.
Proof.
  intros He Hp n Hn. destruct (handle_untracked env e w He) as (_ & _ & _ & Hle).
  specialize (Hp n ltac:(lia)). destruct e; cbn in *; try done; try apply Hp.
  exists (w_ticks w). split; [lia|done].
Qed.

(** What an effect of one program leaves to the calls of the others. *)
Definition others_kept (os : list phase) (i : nat) (h h' : observedLedger) : Prop :=
  stallThreshold h' = stallThreshold h ∧
  ∀ j id, j ≠ i → os !! j = Some (Open id) → active h' !! id = active h !! id.

Lemma untracked_step env {A X} m (e : eff X) (k : X → prog A) (w : World L) ts os i o :
  untracked e → tracking env m ts w os → os !! i = Some o → ts !! i = Some (Call e k) →
  let '(x, w') := handle env e w in
  tracking env m (<[i := k x]> ts) w' (<[i := o]> os) ∧ w_health w' = w_health w.
Proof.
  intros He [Hts Hopen Hwf Hd Hm] Ho Hi. rewrite (list_insert_id os i o Ho).
  pose proof (Forall2_lookup_lr _ _ _ _ _ _ Hts Hi Ho) as Hp.
  pose proof (track_value env m e k o w He Hp) as Hk.
  destruct (handle_untracked env e w He) as (Hh & Hc & Hout & Hle).
  destruct (handle env e w) as [x w']. cbn in *. split; [|done].
  split; [|by rewrite Hh..| |].
  - rewrite <- (list_insert_id os i o Ho). by eapply tracked_from_insert.
  - intros id t. rewrite Hh. intros Ht. eapply read_before_mono; [done|by eapply Hd].
  - intros Hmt. destruct (Hm Hmt). unfold exposed in *. split; unfold exposed; rewrite ?Hh, ?Hc, ?Hout; auto.
Qed.

(** What a program's own change of phase does to the sums. *)
Ltac phase_sums :=
  repeat match goal with
  | H : ?os !! ?i = Some ?x |- context [total ?f (<[?i := ?y]> ?os)] => rewrite (total_insert f os i x y H)
  end; cbn [in_call to_log].

Lemma begin_step env {A} m started (k : Z → prog A) (w : World L) ts os i :
  env_ok env → tracking env m ts w os → os !! i = Some Idle →
  read_before env (w_ticks w) started → (∀ id, tracked_from env m (w_ticks w) (k id) (Open id)) →
  nextID (w_health w) + 1 < 2 ^ 64 →
  let '(id, w') := handle env (BeginCall m started) w in
  tracking env m (<[i := k id]> ts) w' (<[i := Open id]> os) ∧
  nextID (w_health w') = nextID (w_health w) + 1 ∧ others_kept os i (w_health w) (w_health w').
Proof.
  intros Henv [Hts Hopen Hwf Hd Hm] Ho Hpast Hk Hlt. cbn [handle].
  assert (clock_reading started) as Hc by (destruct Hpast as (n & _ & ->); apply Henv).
  pose proof (open_begin os i _ started Hopen Hwf Hlt Ho) as Hopen'.
  pose proof (begin_wf started _ Hwf Hc Hlt) as Hwf'. pose proof (wf_nextID _ Hwf) as Hn0.
  unfold begin_locked in *. rewrite uint64_id in * by (unfold in_uint64; lia). cbn [snd] in *.
  split_and!; [split| |]; cbn [w_health set_health nextID active w_ticks]; try done.
  - by eapply tracked_from_insert.
  - intros id t [[_ <-]|[_ Ht]]%lookup_insert_Some; [done|by eapply Hd].
  - intros Hmt. specialize (Hm Hmt). rewrite Hmt in *. destruct Hm as [Hg Hcalls Hops].
    split; cbn [in_flight_output].
    + apply exposed_gauge.
    + rewrite exposed_calls. phase_sums. cbn [w_health set_health nextID]. lia.
    + intros label. rewrite exposed_operations. phase_sums. change (w_out _) with (w_out w). rewrite Hops. lia.
  - split; [done|]. intros j id _ Hj. cbn [active]. apply lookup_insert_ne. intros <-.
    assert (nextID (w_health w) + 1 ∈ dom (active (w_health w))) as [t Ht]%elem_of_dom.
    { rewrite (open_dom _ _ Hopen). apply elem_of_list_to_set, list_elem_of_omap.
      exists (Open (nextID (w_health w) + 1)). split; [by eapply list_elem_of_lookup_2|done]. }
    apply (wf_ids _ Hwf) in Ht. lia.
Qed.

(** Two programs have no call in common. *)
Lemma open_distinct os h i j id :
  open_calls os h → os !! i = Some (Open id) → j ≠ i → os !! j ≠ Some (Open id).
Proof.
  intros [_ Hn] Hi Hne Hj. destruct (omap_insert_split open_of os i (Open id) Idle Hi) as (rest & Hos & Hos').
  rewrite Hos in Hn. apply NoDup_cons in Hn as [Hnew _]. apply Hnew.
  assert (id ∈ omap open_of (<[i := Idle]> os)) as Hin; [|by rewrite Hos' in Hin].
  apply list_elem_of_omap. exists (Open id). split; [|done]. apply (list_elem_of_lookup_2 _ j).
  by rewrite list_lookup_insert_ne.
Qed.

Lemma done_step env {A} m id completed err (k : unit → prog A) (w : World L) ts os i :
  env_ok env → tracking env m ts w os → os !! i = Some (Open id) →
  tracked_from env m (w_ticks w) (k tt) (if m then Closed else Idle) →
  let w' := snd (handle env (DoneCall m id completed err) w) in
  tracking env m (<[i := k tt]> ts) w' (<[i := if m then Closed else Idle]> os) ∧
  nextID (w_health w') = nextID (w_health w) ∧ others_kept os i (w_health w) (w_health w').
Proof.
  intros Henv [Hts Hopen Hwf Hd Hm] Ho Hk. cbn [handle snd]. split_and!; [|apply done_nextID|].
  - split; [by eapply tracked_from_insert| |by apply done_wf; [apply Henv|]| |].
    + apply open_done; [done|done|by destruct m].
    + intros j t. cbn [w_health set_health w_ticks]. rewrite done_active.
      intros [_ Ht]%lookup_delete_Some. by eapply Hd.
    + intros Hmt. specialize (Hm Hmt). rewrite Hmt in *. destruct Hm as [Hg Hcalls Hops].
      split; cbn [in_flight_output].
      * apply exposed_gauge.
      * rewrite exposed_calls. phase_sums. cbn [w_health set_health]. rewrite done_nextID. lia.
      * intros label. rewrite exposed_operations. phase_sums. cbn [w_out set_health]. rewrite Hops. lia.
  - cbn [w_health set_health]. split; [apply done_threshold|]. intros j id' Hj Hj'. rewrite done_active.
    apply lookup_delete_ne. intros <-. by apply (open_distinct os _ i j id Hopen Ho Hj).
Qed.

Lemma count_call_step env {A} m kind outcome elapsed (k : unit → prog A) (w : World L) ts os i :
  tracking env m ts w os → os !! i = Some Closed → tracked_from env m (w_ticks w) (k tt) Idle →
  tracking env m (<[i := k tt]> ts) (snd (handle env (ObserveLedgerCall kind outcome elapsed) w))
    (<[i := Idle]> os).
Proof.
  intros [Hts Hopen Hwf Hd Hm] Ho Hk. cbn [handle snd].
  split; [by eapply tracked_from_insert|by eapply open_same|done..|].
  intros Hmt. destruct (Hm Hmt) as [Hg Hcalls Hops].
  destruct (exposed_call w (w_health w) kind outcome elapsed) as [Hc Hg'].
  split; cbn [w_health w_out set_health].
  - by rewrite Hg'.
  - rewrite Hc. unfold Inc. rewrite map_sum_count. phase_sums. lia.
  - intros label. rewrite exposed_operations. phase_sums. rewrite Hops. lia.
Qed.

Lemma count_operation_step env {A} kind outcome elapsed (k : unit → prog A) (w : World L) ts os i :
  tracking env true ts w os → os !! i = Some Idle →
  tracked_from env true (w_ticks w) (k tt) (Counted (kind, outcome)) →
  tracking env true (<[i := k tt]> ts) (snd (handle env (ObserveOperation kind outcome elapsed) w))
    (<[i := Counted (kind, outcome)]> os).
Proof.
  intros [Hts Hopen Hwf Hd Hm] Ho Hk. cbn [handle snd].
  split; [by eapply tracked_from_insert|by eapply open_same|done..|].
  intros Hmt. destruct (Hm Hmt) as [Hg Hcalls Hops].
  split; rewrite exposed_emit; cbn [w_health w_out emit observe_operation].
  - exact Hg.
  - cbn. phase_sums. lia.
  - intros label. cbn [operations Metrics_ObserveOperation].
    rewrite counted_Inc, completions_app, completions_operation. phase_sums. rewrite Hops. lia.
Qed.

Lemma log_step env {A} m msg fields (k : unit → prog A) (w : World L) ts os i o :
  tracking env m ts w os → os !! i = Some o → open_of o = None →
  match completion (OutLog msg fields) with
  | Some label => o = if m then Counted label else Idle
  | None => o = Idle
  end → tracked_from env m (w_ticks w) (k tt) Idle →
  tracking env m (<[i := k tt]> ts) (snd (handle env (LogInfo msg fields) w)) (<[i := Idle]> os).
Proof.
  intros [Hts Hopen Hwf Hd Hm] Ho Hnone Hlog Hk. cbn [handle snd].
  split; [by eapply tracked_from_insert|by eapply open_same|done..|].
  intros Hmt. destruct (Hm Hmt) as [Hg Hcalls Hops]. rewrite Hmt in Hlog.
  assert (in_call o = 0 ∧ ∀ label, to_log label o =
    if decide (completion (OutLog msg fields) = Some label) then 1 else 0) as [Hin Hto].
  { destruct (completion _) as [label'|]; subst o; cbn; (split; [done|]); intros label; [|done].
    destruct (decide (label' = label)), (decide (Some label' = Some label)); congruence. }
  split; rewrite exposed_emit; cbn [w_health w_out emit observe_operation].
  - exact Hg.
  - phase_sums. lia.
  - intros label. rewrite completions_app, completions_log. phase_sums. rewrite Hops, Hto. lia.
Qed.

Lemma kept_same os i h : others_kept os i h h.
Proof. by split. Qed.

(** One effect, whichever it is. *)
Lemma track_handle env {A X} m (e : eff X) (k : X → prog A) (w : World L) ts os i :
  env_ok env → tracking env m ts w os → ts !! i = Some (Call e k) → nextID (w_health w) + 1 < 2 ^ 64 →
  let '(x, w') := handle env e w in
  ∃ o, tracking env m (<[i := k x]> ts) w' (<[i := o]> os) ∧
    nextID (w_health w') ≤ nextID (w_health w) + 1 ∧ others_kept os i (w_health w) (w_health w').
Proof.
  intros Henv Ht Hi Hlt.
  destruct (Forall2_lookup_l _ _ _ _ _ (tracking_progs _ _ _ _ _ Ht) Hi) as (o & Ho & Hp).
  pose proof (Hp (w_ticks w) (le_n _)) as Hnow. cbn in Hnow.
  destruct e as [|m' started|m' id completed err|now|kind outcome elapsed|account|transfer|id|id|id|id md
    |kind outcome elapsed|msg fields];
    try match goal with
    | |- context [handle env ?e w] =>
        pose proof (untracked_step env m e k w ts os i o I Ht Ho Hi) as Hstep;
        destruct (handle env e w) as [x w']; destruct Hstep as [Hstep Heq]; exists o; rewrite Heq;
        split_and!; [done|lia|apply kept_same..]
    end.
  - destruct Hnow as (-> & -> & Hpast & _).
    assert (∀ id, tracked_from env m (w_ticks w) (k id) (Open id)) as Hk by (intros id n Hn; apply (Hp n Hn)).
    pose proof (begin_step env m started k w ts os i Henv Ht Ho Hpast Hk Hlt) as Hstep.
    destruct (handle env _ w) as [x w']. destruct Hstep as (Hstep & -> & Hkept).
    eexists. split_and!; [exact Hstep|lia|apply Hkept..].
  - destruct Hnow as (-> & -> & _).
    destruct (done_step env m id completed err k w ts os i Henv Ht Ho) as (Hstep & Hn & Hkept).
    { intros n Hn. apply (Hp n Hn). }
    cbn in *. eexists. split_and!; [exact Hstep|lia|apply Hkept..].
  - destruct Hnow as [-> _]. cbn. eexists. split_and!; [|lia|apply kept_same..].
    apply (count_call_step env); [done..|]. intros n Hn. apply (Hp n Hn).
  - destruct Hnow as (-> & -> & _). cbn. eexists. split_and!; [|lia|apply kept_same..].
    apply (count_operation_step env); [done..|]. intros n Hn. apply (Hp n Hn).
  - destruct Hnow as [Hlog _]. cbn. eexists. split_and!; [|lia|apply kept_same..].
    eapply (log_step env); [done|done| |done|intros n Hn; apply (Hp n Hn)].
    destruct (completion _), m; by subst o.
Qed.

Lemma tracking_steps env {A} m n (ts : list (prog A)) (w : World L) ts' w' os :
  env_ok env → tracking env m ts w os → nsteps (pool_step env) n (ts, w) (ts', w') →
  nextID (w_health w) + Z.of_nat n < 2 ^ 64 →
  ∃ os', tracking env m ts' w' os' ∧ nextID (w_health w') ≤ nextID (w_health w) + Z.of_nat n.
Proof.
  intros Henv. revert ts w os. induction n as [|n IH]; intros ts w os Ht Hsteps Hlt.
  { inversion Hsteps; subst. exists os. split; [done|lia]. }
  inversion Hsteps as [|? ? [ts1 w1] ? Hstep Hrest]; subst.
  inversion Hstep as [? i X e k ? x ? Hi Hh]; subst.
  pose proof (track_handle env m e k w ts os i Henv Ht Hi ltac:(lia)) as Hone.
  rewrite Hh in Hone. destruct Hone as (o & Ht' & Hn & _).
  destruct (IH _ _ _ Ht' Hrest) as (os' & Ht'' & Hn'); [lia|]. exists os'. split; [done|lia].
Qed.

End pool.

(** The number of effects a schedule runs. *)
Fixpoint effects_of {sdk : SDK} {L : Type} {ledger : Ledger L} (env : Env) {A} (schedule : list nat)
    (cfg : list (prog A) * World L) : nat :=
  match schedule with
  | [] => 0
  | i :: schedule =>
      (if fst cfg !! i is Some (Call _ _) then 1 else 0) + effects_of env schedule (step_at env i cfg)
  end%nat.

Lemma exec_nsteps {sdk : SDK} {L : Type} {ledger : Ledger L} env {A} schedule (cfg : list (prog A) * World L) :
  nsteps (pool_step env) (effects_of env schedule cfg) cfg (exec env schedule cfg).
Proof.
  revert cfg. induction schedule as [|i schedule IH]; intros cfg; [constructor|].
  cbn [effects_of]. change (exec env (i :: schedule) cfg) with (exec env schedule (step_at env i cfg)).
  specialize (IH (step_at env i cfg)). unfold step_at in *. destruct cfg as [ts w]. cbn [fst snd] in *.
  destruct (ts !! i) as [[a| |X e k]|] eqn:Hi; [done..| |done].
  destruct (handle env e w) as [x w'] eqn:Hh. eapply nsteps_l; [by econstructor|exact IH].
Qed.

(** Between bursts of requests: no call is open, and the metrics - when there are
    any - say what the tracker and the log say. *)
Record settled {sdk : SDK} {L : Type} (m : bool) (w : World L) : Prop := {
  settled_wf : health_wf (w_health w);
  settled_idle : active (w_health w) = ∅;
  settled_metrics : m = true → metered [] w }.

Lemma fresh_settled {sdk : SDK} {L : Type} m (l : L) c threshold :
  threshold ≤ maxDuration → settled m (mkWorld l c (newObservedLedger threshold) 0 [] []).
Proof. intros Ht. split; [by apply newObservedLedger_wf|done|by split]. Qed.

Lemma metered_idle {sdk : SDK} {L : Type} os (w : World L) :
  (∀ o, o ∈ os → o = Idle) → metered os w ↔ metered [] w.
Proof.
  intros Hall.
  assert (total in_call os = 0) as Hin by (apply total_zero; intros o Ho; by rewrite (Hall o Ho)).
  assert (∀ label, total (to_log label) os = 0) as Hto
    by (intros label; apply total_zero; intros o Ho; by rewrite (Hall o Ho)).
  split; intros [Hg Hc Hops]; split; try done; rewrite ?Hin in *; try done;
    intros label; specialize (Hops label); rewrite ?Hto in *; done.
Qed.

Lemma settled_tracking {sdk : SDK} {L : Type} env s qs (w : World L) :
  settled (metrics s) w → tracking env (metrics s) (handlers s qs) w (replicate (length qs) Idle).
Proof.
  intros [Hwf Hidle Hm].
  assert (omap open_of (replicate (length qs) Idle) = []) as Hnone by (by induction qs).
  split; [|split|done| |].
  - unfold handlers. clear Hnone. induction qs as [|q qs IH]; cbn; constructor; [|done].
    intros n _. apply tracked_dispatch.
  - by rewrite Hidle, dom_empty_L, Hnone.
  - rewrite Hnone. constructor.
  - intros id t. by rewrite Hidle, lookup_empty.
  - intros Hmt. apply metered_idle; [|by apply Hm]. by intros o [-> _]%elem_of_replicate.
Qed.

Lemma ended_settled {sdk : SDK} {L A : Type} env m (ts : list (prog A)) (w : World L) os :
  tracking env m ts w os → (∀ i p, ts !! i = Some p → running p = false) → settled m w.
Proof.
  intros [Hts Hopen Hwf _ Hm] Hended.
  assert (∀ o, o ∈ os → o = Idle) as Hidle.
  { intros o [i Hi]%list_elem_of_lookup. destruct (Forall2_lookup_r _ _ _ _ _ Hts Hi) as (p & Hp & Ht).
    by eapply tracked_from_ended, Hended. }
  assert (omap open_of os = []) as Hnone.
  { clear -Hidle. induction os as [|o os IH]; [done|]. cbn. rewrite (Hidle o) by left.
    apply IH. intros o' Ho'. apply Hidle. by right. }
  split; [done| |].
  - apply map_size_empty_iff. by rewrite (open_size _ _ Hopen), Hnone.
  - intros Hmt. apply (metered_idle os); [done|by apply Hm].
Qed.

(** C38: The readiness check and the metrics can be trusted.  From a settled state
    - such as a fresh server -, in every interleaving of concurrent requests: the
    calls reported in flight are never more than the requests that have not
    ended; the service is ready exactly when each open call is younger than the
    threshold; with metrics, the gauge of calls in flight is that number at any
    time.  When every request has ended, whatever calls failed, the state is
    settled again - no call is left open, every call that was begun is counted
    once, and each kind and outcome of operations is counted as often as it is
    logged - and the service is ready. *)
Theorem every_call_is_closed {sdk : SDK} {L : Type} {ledger : Ledger L} s env qs (w : World L) n ts w' now :
  env_ok env → settled (metrics s) w → is_Some (mono now) →
  nsteps (pool_step env) n (handlers s qs, w) (ts, w') →
  nextID (w_health w) + Z.of_nat n < 2 ^ 64 →
  let report := Health now (w_health w') in
  InFlight report ≤ Z.of_nat (length (filter running ts)) ∧
  (Ready report = true ↔ ∀ id t, active (w_health w') !! id = Some t →
     age now t < stallThreshold (w_health w')) ∧
  (metrics s = true → ledgerCallsInFlight (exposed w') = InFlight report) ∧
  ((∀ i p, ts !! i = Some p → running p = false) →
    settled (metrics s) w' ∧ InFlight report = 0 ∧ Ready report = true).
Proof.
  intros Henv Hset Hnow Hsteps Hlt report.
  destruct (tracking_steps env _ n _ w ts w' _ Henv (settled_tracking env s qs w Hset) Hsteps Hlt)
    as (os & Htrack & _). pose proof Htrack as [Hts Hopen Hwf' _ Hm].
  assert (length (omap open_of os) ≤ length (filter running ts))%nat as Hle.
  { apply open_running. eapply Forall2_impl; [exact Hts|]. intros p o. apply tracked_from_ended. } pose proof (open_size os _ Hopen) as Hsize.
  pose proof (Health_Ready_iff now _ Hwf' Hnow) as Hready.
  assert (InFlight report = Z.of_nat (size (active (w_health w')))) as Hin by done.
  split_and!; [lia|done| |].
  - intros Hmt. rewrite Hin. apply (metered_gauge os). by apply Hm.
  - intros Hended. pose proof (ended_settled env _ ts w' os Htrack Hended) as Hset'.
    pose proof (settled_idle _ _ Hset') as Hidle.
    split_and!; [done|by rewrite Hin, Hidle|]. apply Hready. intros id t. by rewrite Hidle, lookup_empty.
Qed.

(** Provisioning and the first account, their effects taken in turn to the end. *)
Definition first_requests : list request := [ReqEnsureSystemAccounts; ReqCreateAccount corporate_request].
Definition first_turns : list nat := concat (replicate 40 (seq 0 2)).
Definition first_start : list (prog response) * World fakeLedger :=
  (handlers (service 100000) first_requests, new_world 100000).
Definition first_end : list (prog response) * World fakeLedger := exec test_env first_turns first_start.

Lemma every_call_is_closed_witness :
  let report := Health (example_time 9) (w_health (snd first_end)) in
  InFlight report ≤ Z.of_nat (length (filter running (fst first_end))) ∧
  (Ready report = true ↔ ∀ id t, active (w_health (snd first_end)) !! id = Some t →
     age (example_time 9) t < stallThreshold (w_health (snd first_end))) ∧
  (metrics (service 100000) = true →
    ledgerCallsInFlight (exposed (snd first_end)) = InFlight report) ∧
  ((∀ i p, fst first_end !! i = Some p → running p = false) →
    settled (metrics (service 100000)) (snd first_end) ∧ InFlight report = 0 ∧ Ready report = true).
Proof.
  intros report.
  apply (every_call_is_closed (service 100000) test_env first_requests (new_world 100000)
           (effects_of test_env first_turns first_start) (fst first_end) (snd first_end)).
  - apply test_env_ok.
  - apply fresh_settled. apply Z.leb_le. by_computation.
  - by eexists.
  - rewrite <- surjective_pairing. apply exec_nsteps.
  - apply Z.ltb_lt. by_computation.
Defined.

(** They do end, and three calls are counted. *)
Example first_requests_end :
  (forallb (λ p, negb (running p)) (fst first_end),
   map_to_list (ledgerCalls (exposed (snd first_end)))) =
  (true, [(("create_account", "success"), 3)]).
Proof. by_computation. Qed.
