(* ===== verification/Requests.v ===== *)
(** * Theorems about single requests

    Malformed requests, requests over the risk limit, repeated account creation
    and provisioning, balances. *)
From stdpp Require Import pretty.
From S2P Require Import Prelude GoBase GoCrypto Domain TigerBeetle TigerBeetleModel LedgerModel.
From S2P Require Import Cache Health Interface Semantics Contract FakeLedger Service ServiceSpec.
From S2P Require Import Operations OperationsSpec Invariant Safety Replay Scenarios Outcomes System.
Import GoInt GoError GoTime.
Local Open Scope Z_scope.

(** ** Malformed requests *)
Section malformed.
Context {sdk : SDK}.

(** A public account id: an external id that names a value outside the
    reserved ones (0, the system accounts 1 and 2, and the maximum). *)
Definition account_value (value : string) (id : Uint128) : Prop :=
  external_id value ∧ HexStringToUint128 value = inr id ∧
  Uint128_BigInt id ∉ [0; 1; 2; 2 ^ 128 - 1].
(** A request id, an authorization id: 0 and the maximum are reserved. *)
Definition transfer_value (value : string) (id : Uint128) : Prop :=
  external_id value ∧ HexStringToUint128 value = inr id ∧ ¬ reserved_value (Uint128_BigInt id).

(** What a request must satisfy before the service looks at any state. *)
Definition well_formed (q : request) : Prop :=
  match q with
  | ReqEnsureSystemAccounts | ReqLedgerHealth => True
  | ReqCreateAccount r =>
      ∃ id, account_value (CreateAccountRequest_AccountID r) id ∧
      ((CreateAccountRequest_Kind r = AccountCorporateWallet ∧
        CreateAccountRequest_CorporateAccountID r = "") ∨
       (CreateAccountRequest_Kind r = AccountCardWallet ∧
        ∃ parent, account_value (CreateAccountRequest_CorporateAccountID r) parent ∧ parent ≠ id))
  | ReqBalance value => ∃ id, transfer_value value id
  | ReqTopUp r =>
      (∃ id, account_value (TopUpRequest_AccountID r) id) ∧ TopUpRequest_AmountCents r ≠ 0 ∧
      ∃ id, transfer_value (TopUpRequest_RequestID r) id
  | ReqWithdraw r =>
      (∃ id, account_value (WithdrawalRequest_AccountID r) id) ∧ WithdrawalRequest_AmountCents r ≠ 0 ∧
      ∃ id, transfer_value (WithdrawalRequest_RequestID r) id
  | ReqAllocateToCard r =>
      (∃ id, account_value (CardAllocationRequest_AccountID r) id) ∧
      (∃ id, account_value (CardAllocationRequest_CardID r) id) ∧
      CardAllocationRequest_AmountCents r ≠ 0 ∧
      ∃ id, transfer_value (CardAllocationRequest_RequestID r) id
  | ReqReturnFromCard r =>
      (∃ id, account_value (CardReturnRequest_AccountID r) id) ∧
      (∃ id, account_value (CardReturnRequest_CardID r) id) ∧
      CardReturnRequest_AmountCents r ≠ 0 ∧
      ∃ id, transfer_value (CardReturnRequest_RequestID r) id
  | ReqAuthorize _ r =>
      (∃ id, account_value (AuthorizationRequest_CardID r) id) ∧
      external_id (AuthorizationRequest_MerchantID r) ∧ AuthorizationRequest_AmountCents r ≠ 0 ∧
      ∃ id, transfer_value (AuthorizationRequest_RequestID r) id
  | ReqIncrementAuthorization _ r =>
      ∃ id, transfer_value (IncrementAuthorizationRequest_AuthorizationID r) id ∧
      IncrementAuthorizationRequest_IncrementCents r ≠ 0 ∧
      ∃ id', transfer_value (IncrementAuthorizationRequest_RequestID r) id' ∧ id' ≠ id
  end.

(** The error of an answer. *)
Definition answer_error (a : response) : option error :=
  match a with
  | RespUnit (inl e) | RespAccount (inl e) | RespBalance (inl e) | RespTransaction (inl e)
  | RespAuthorization (inl e) | RespIncrement (inl e) => Some e
  | _ => None
  end.

(** Answered at once: an invalid-request error, and no effect at all. *)
Definition refused (p : prog response) : Prop :=
  ∃ a e, p = Ret a ∧ answer_error a = Some e ∧ Is e ErrInvalidRequest = true.
(** Goes on to the clock, the cache or the ledger. *)
Definition proceeds {A} (p : prog A) : Prop := ∃ X (e : eff X) k, p = Call e k.

Context {laws : SDKLaws sdk}.

Lemma accountID_cases field value :
  (∃ id, accountID field value = inr id ∧ account_value value id) ∨
  (∃ e, accountID field value = inl e ∧ Is e ErrInvalidRequest = true ∧ ∀ id, ¬ account_value value id).
Proof.
  destruct (accountID field value) as [e|id] eqn:E.
  - right. exists e. split_and!; [done|by eapply accountID_error|].
    intros id H. apply (accountID_ok field) in H. congruence.
  - left. exists id. split; [done|]. by apply (accountID_ok field).
Qed.
Lemma requestID_cases value :
  (∃ id, requestID value = inr id ∧ transfer_value value id) ∨
  (∃ e, requestID value = inl e ∧ Is e ErrInvalidRequest = true ∧ ∀ id, ¬ transfer_value value id).
Proof.
  destruct (requestID value) as [e|id] eqn:E.
  - right. exists e. split_and!; [done|by eapply requestID_error|].
    intros id H. apply requestID_ok in H. congruence.
  - left. exists id. split; [done|]. by apply requestID_ok.
Qed.

Lemma refused_intro (a : response) e :
  answer_error a = Some e → Is e ErrInvalidRequest = true → refused (Ret a).
Proof. intros. by exists a, e. Qed.

Lemma proceeds_bind {A B} (p : prog A) (f : A → prog B) : proceeds p → proceeds (bind p f).
Proof. intros (X & e & k & ->). cbn. by eexists _, _, _. Qed.
Lemma proceeds_bind_err {A B} (p : prog (result error A)) (f : A → prog (result error B)) :
  proceeds p → proceeds (bind_err p f).
Proof. apply proceeds_bind. Qed.
Lemma proceeds_call {X} (e : eff X) : proceeds (call e).
Proof. by eexists _, _, _. Qed.
Lemma proceeds_require s id kind : proceeds (requireAccountKind s id kind).
Proof. apply proceeds_bind, proceeds_call. Qed.
Lemma proceeds_observed {A} m kind (e : eff (result error A)) : proceeds (observed m kind e).
Proof. apply proceeds_bind, proceeds_call. Qed.

Lemma transfer_value_cases field value :
  (∃ id, validateExternalID field value = inr tt ∧ parsePublicTigerBeetleID value = inr id ∧
     transfer_value value id) ∨
  (∃ e, validateExternalID field value = inl e ∧ Is e ErrInvalidRequest = true ∧
     ∀ id, ¬ transfer_value value id) ∨
  (∃ e, validateExternalID field value = inr tt ∧ parsePublicTigerBeetleID value = inl e ∧
     ∀ id, ¬ transfer_value value id).
Proof.
  destruct (validate_cases field value) as [[Hv Hx]|(e & Hv & He & Hx)].
  2: { right; left. exists e. split_and!; [done..|]. by intros id (? & _). }
  destruct (parse_cases value) as [(id & Hp & Hh & Hr)|(e & Hp & Hr)].
  - left. by exists id.
  - right; right. exists e. split_and!; [done..|]. intros id (_ & Hh & Hn). by apply Hn, Hr.
Qed.
Lemma account_value_unique value id id' : account_value value id → account_value value id' → id = id'.
Proof. intros (_ & H & _) (_ & H' & _). congruence. Qed.
Lemma account_value_nonzero value id : account_value value id → id ≠ Uint128_zero.
Proof. intros (_ & _ & H) ->. rewrite BigInt_zero in H. apply H. by left. Qed.
Lemma transfer_value_unique value id id' : transfer_value value id → transfer_value value id' → id = id'.
Proof. intros (_ & H & _) (_ & H' & _). congruence. Qed.

(** Each handler accepts exactly the well-formed requests. *)
Definition screens (s : Service) (q : request) : Prop :=
  (well_formed q ∧ proceeds (dispatch s q)) ∨ (¬ well_formed q ∧ refused (dispatch s q)).

#[local] Hint Resolve proceeds_bind proceeds_bind_err proceeds_call proceeds_require
  proceeds_observed : ledger.
#[local] Hint Extern 1 (proceeds (observedLedger_LookupAccount _ _)) => apply proceeds_observed : ledger.
#[local] Hint Extern 1 (proceeds (observedLedger_CreateAccount _ _)) => apply proceeds_observed : ledger.

#[local] Opaque account_value transfer_value external_id.
Ltac contradict :=
  intros ?; split_all;
  match goal with H : ∀ _, ¬ _ |- False => eapply H; eassumption | H : ¬ _ |- False => apply H; assumption end.
Ltac refuse :=
  right; split; [contradict|cbn [bind_err bind]; eapply refused_intro; [reflexivity|auto with ledger]].
Ltac amount_cases :=
  match goal with |- context [?n =? 0] => destruct (Z.eqb_spec n 0); [refuse|] end.

Lemma TopUp_screens s r : screens s (ReqTopUp r).
Proof.
  unfold screens, well_formed, dispatch, TopUp.
  destruct (accountID_cases "account_id" (TopUpRequest_AccountID r)) as [(id & -> & ?)|(e & -> & ? & ?)];
    [|refuse].
  cbn [bind_err bind]. amount_cases.
  destruct (requestID_cases (TopUpRequest_RequestID r)) as [(rid & -> & ?)|(e & -> & ? & ?)]; [|refuse].
  left. split; [naive_solver|]. cbn [bind_err bind]. auto with ledger.
Qed.
Lemma Withdraw_screens s r : screens s (ReqWithdraw r).
Proof.
  unfold screens, well_formed, dispatch, Withdraw.
  destruct (accountID_cases "account_id" (WithdrawalRequest_AccountID r)) as [(id & -> & ?)|(e & -> & ? & ?)];
    [|refuse].
  cbn [bind_err bind]. amount_cases.
  destruct (requestID_cases (WithdrawalRequest_RequestID r)) as [(rid & -> & ?)|(e & -> & ? & ?)]; [|refuse].
  left. split; [naive_solver|]. cbn [bind_err bind]. auto with ledger.
Qed.

Lemma moveCardFunds_screens s kind rid account card amount back :
  let p := bind (moveCardFunds s kind rid account card amount back) (λ r, Ret (RespTransaction r)) in
  let ok := (∃ id, account_value account id) ∧ (∃ id, account_value card id) ∧ amount ≠ 0 ∧
    ∃ id, transfer_value rid id in
  (ok ∧ proceeds p) ∨ (¬ ok ∧ refused p).
Proof.
  cbn zeta. unfold moveCardFunds.
  destruct (accountID_cases "account_id" account) as [(id & -> & ?)|(e & -> & ? & ?)]; [|refuse].
  cbn [bind_err bind].
  destruct (accountID_cases "card_id" card) as [(cid & -> & ?)|(e & -> & ? & ?)]; [|refuse].
  cbn [bind_err bind]. amount_cases.
  destruct (requestID_cases rid) as [(tid & -> & ?)|(e & -> & ? & ?)]; [|refuse].
  left. split; [naive_solver|]. cbn [bind_err bind]. auto with ledger.
Qed.

Lemma Authorize_screens s ctx r : screens s (ReqAuthorize ctx r).
Proof.
  unfold screens, well_formed, dispatch, Authorize.
  destruct (accountID_cases "card_id" (AuthorizationRequest_CardID r)) as [(id & -> & ?)|(e & -> & ? & ?)];
    [|refuse].
  cbn [bind_err bind].
  destruct (validate_cases "merchant_id" (AuthorizationRequest_MerchantID r)) as [[-> ?]|(e & -> & ? & ?)];
    [|refuse].
  cbn [bind_err bind]. amount_cases.
  destruct (requestID_cases (AuthorizationRequest_RequestID r)) as [(tid & -> & ?)|(e & -> & ? & ?)]; [|refuse].
  left. split; [naive_solver|]. cbn [bind_err bind]. auto with ledger.
Qed.

Lemma increment_ids_cases r :
  ((∃ ids, increment_ids r = inr ids) ∧ well_formed (ReqIncrementAuthorization None r)) ∨
  ((∃ e, increment_ids r = inl e ∧ Is e ErrInvalidRequest = true) ∧
    ¬ well_formed (ReqIncrementAuthorization None r)).
Proof.
  unfold increment_ids, well_formed.
  destruct (transfer_value_cases "authorization_id" (IncrementAuthorizationRequest_AuthorizationID r))
    as [(id & -> & -> & Hid)|[(e & -> & ? & Hn)|(e & -> & -> & Hn)]].
  2-3: right; split; [eexists; split; [reflexivity|auto with ledger]|]; contradict.
  destruct (Z.eqb_spec (IncrementAuthorizationRequest_IncrementCents r) 0).
  { right; split; [eexists; split; [reflexivity|auto with ledger]|]. contradict. }
  destruct (requestID_cases (IncrementAuthorizationRequest_RequestID r)) as [(id' & -> & Hid')|(e & -> & ? & Hn)].
  2: { right; split; [eexists; split; [reflexivity|auto with ledger]|]. contradict. }
  destruct (decide (id' = id)) as [->|].
  - right; split; [eexists; split; [reflexivity|auto with ledger]|]. intros (i & Hi & _ & j & Hj & Hne).
    apply Hne. rewrite <- (transfer_value_unique _ _ _ Hid Hi). by rewrite <- (transfer_value_unique _ _ _ Hid' Hj).
  - left. split; [by eexists|]. exists id. split_and!; [done..|]. by exists id'.
Qed.

Lemma IncrementAuthorization_screens s ctx r : screens s (ReqIncrementAuthorization ctx r).
Proof.
  unfold screens, dispatch, IncrementAuthorization.
  destruct (increment_ids_cases r) as [[[[id id'] ->] Hwf]|[(e & -> & He) Hwf]].
  - left. split; [exact Hwf|]. cbn [bind_err bind]. auto with ledger.
  - right. split; [exact Hwf|]. cbn [bind_err bind]. by eapply refused_intro.
Qed.

Lemma Balance_screens s value : screens s (ReqBalance value).
Proof.
  unfold screens, well_formed, dispatch, Balance.
  destruct (transfer_value_cases "account_id" value) as [(id & -> & -> & ?)|[(e & -> & ? & ?)|(e & -> & -> & ?)]];
    [|refuse..].
  left. split; [by exists id|]. cbn [bind_err bind]. auto with ledger.
Qed.

(** *** Account creation *)

Lemma CreateAccount_screens s r : ledgerID s ≠ 0 → screens s (ReqCreateAccount r).
Proof.
  intros Hl. unfold screens, well_formed, dispatch, CreateAccount, parent_of_request.
  destruct (accountID_cases "account_id" (CreateAccountRequest_AccountID r)) as [(id & -> & Hid)|(e & -> & ? & ?)];
    [|refuse].
  cbn [bind_err bind].
  destruct (decide (CreateAccountRequest_Kind r = AccountCardWallet)) as [Hk|Hncard].
  - rewrite Hk. replace (_ && _) with false by reflexivity. kind_simpl.
    destruct (accountID_cases "corporate_account_id" (CreateAccountRequest_CorporateAccountID r))
      as [(parent & -> & Hp)|(e & -> & ? & ?)].
    2: { right. split; [|cbn [bind_err bind]; by eapply refused_intro].
         intros (i & _ & [[? _]|(_ & p & Hp & _)]); [done|by eapply H0]. }
    cbn [bind_err bind]. destruct (decide (parent = id)) as [->|Hne].
    + right. split; [|eapply refused_intro; [reflexivity|auto with ledger]].
      intros (i & Hi & [[? _]|(_ & p & Hp' & Hne)]); [done|]. apply Hne.
      rewrite <- (account_value_unique _ _ _ Hid Hi). by rewrite <- (account_value_unique _ _ _ Hp Hp').
    + left. split; [|auto with ledger]. exists id. split; [done|]. right. split; [done|]. by exists parent.
  - destruct (decide (CreateAccountRequest_Kind r = AccountCorporateWallet)) as [Hk|Hncorp].
    + rewrite Hk. replace (_ && _) with false by reflexivity. kind_simpl.
      destruct (decide (CreateAccountRequest_CorporateAccountID r = "")) as [Hc|Hc].
      * rewrite decide_False by (intros H; by apply H). cbn [bind_err bind]. unfold CreateAccount_submit.
        rewrite Hk. destruct (ledger_Account AccountCorporateWallet id Uint128_zero (ledgerID s)) as [e|a] eqn:Ha.
        { pose proof (proj2 (ledger_Account_Some AccountCorporateWallet id Uint128_zero (ledgerID s) _)
            (conj eq_refl (conj (account_value_nonzero _ _ Hid) (conj Hl (conj eq_refl eq_refl))))). congruence. }
        left. split; [|cbn [bind_err bind]; auto with ledger]. exists id. split; [done|]. by left.
      * rewrite decide_True by done. right. split; [|eapply refused_intro; [reflexivity|auto with ledger]].
        intros (i & _ & [[_ ?]|[? _]]); done.
    + rewrite !bool_decide_eq_true_2 by done. right.
      split; [|eapply refused_intro; [reflexivity|auto with ledger]].
      intros (i & _ & [[? _]|[? _]]); done.
Qed.

Lemma request_screens s q : ledgerID s ≠ 0 → screens s q.
Proof.
  intros Hl. destruct q.
  - left. split; [done|]. unfold dispatch, EnsureSystemAccounts, systemAccounts, provision.
    destruct (ledger_Account AccountSafeguardedCash SafeguardedCashAccountID Uint128_zero (ledgerID s)) eqn:Ha.
    { pose proof (proj2 (ledger_Account_Some AccountSafeguardedCash SafeguardedCashAccountID Uint128_zero
        (ledgerID s) _) (conj eq_refl (conj (ToUint128_nonzero 1 ltac:(done) ltac:(done))
        (conj Hl (conj eq_refl eq_refl))))). congruence. }
    cbn [bind_err bind]. auto with ledger.
  - by apply CreateAccount_screens.
  - apply Balance_screens.
  - apply TopUp_screens.
  - apply Withdraw_screens.
  - apply moveCardFunds_screens.
  - apply moveCardFunds_screens.
  - apply Authorize_screens.
  - apply IncrementAuthorization_screens.
  - left. split; [done|]. unfold dispatch, Service_LedgerHealth, observedLedger_Health. auto with ledger.
Qed.
End malformed.

(** ** Balances *)
Section balances.
Context {sdk : SDK} {L : Type} {ledger : Ledger L} {view : LedgerView L} {contract : LedgerContract L}.

(** What a balance query must answer. *)
Definition balance_answer (s : Service) (l : L) (id : Uint128) : result error BalanceResponse :=
  match account_of l id with
  | None => inl ErrAccountNotFound
  | Some a =>
      match metadataForAccount s a with
      | None => inl ErrAccountNotFound
      | Some md => inr (balance_view a md)
      end
  end.

Lemma wp_lookup_account m id (Q : result error (Account * bool) → L → metadataCache → list output → Prop) l c o :
  ledger_wf l →
  (∀ r l', same_view l l' →
    match r with
    | inr (a, true) => account_of l id = Some a
    | inr (_, false) => account_of l id = None
    | inl e => foreign e
    end → Q r l' c o) →
  wp (observedLedger_LookupAccount m id) Q l c o.
Proof.
  intros Hwf HQ. apply wp_observed. cbn. pose proof (lookup_account_ok l id Hwf) as H.
  destruct (Ledger_LookupAccount id l) as [r l']. destruct H as (_ & ? & ?). by apply HQ.
Qed.

(** An id of a request is one of an account too. *)
Lemma requestID_accepted value id : requestID value = inr id →
  validateExternalID "account_id" value = inr tt ∧ parsePublicTigerBeetleID value = inr id.
Proof.
  unfold requestID. intros Hid. split.
  - apply validateExternalID_ok, (validateExternalID_ok "request_id").
    by destruct (validateExternalID "request_id" value) as [|[]].
  - destruct (validateExternalID "request_id" value); [done|].
    by destruct (parsePublicTigerBeetleID value); simplify_eq.
Qed.

Lemma Balance_wp s value id l c o :
  ledger_wf l → cache_wf c → requestID value = inr id →
  wp (Balance s value) (λ r l' _ o', same_view l l' ∧ o' = o ∧
    (r = balance_answer s l id ∨ ledger_error r)) l c o.
Proof.
  intros Hwf Hc Hid. destruct (requestID_accepted value id Hid) as [Hext Hparse].
  unfold Balance, balance_answer. rewrite Hext, Hparse. cbn [bind_err bind].
  apply wp_bind_err, wp_lookup_account; [done|]. intros [e|[a []]] l' Hv Hr; [|rewrite Hr|rewrite Hr].
  - split_and!; [done..|]. right. by exists e.
  - cbn [negb]. destruct (metadataForAccount s a) as [md|] eqn:Hmd; [|by split_and!; [..|left]].
    unfold rememberAccount. rewrite Hmd. apply wp_seq. unfold cache_store.
    destruct (Store_total c (Account_ID a) md Hc) as [c' Hs]. cbn. rewrite Hs. cbn.
    rewrite balances_spec. unfold balance_view.
    destruct (bool_decide (metadata_kind md = AccountSafeguardedCash)); cbn; split_and!; auto.
  - split_and!; [done..|by left].
Qed.

(** What a check of an account's kind must answer. *)
Definition kind_answer (s : Service) (l : L) (id : Uint128) (kind : AccountKind) :
    result error accountMetadata :=
  match account_of l id with
  | None => inl ErrAccountNotFound
  | Some a =>
      match metadataForAccount s a with
      | None => inl ErrAccountNotFound
      | Some md => if decide (metadata_kind md = kind) then inr md else inl ErrAccountNotFound
      end
  end.

Lemma kind_answer_view s l l' id kind : same_view l l' → kind_answer s l' id kind = kind_answer s l id kind.
Proof. intros [Ha _]. unfold kind_answer. by rewrite Ha. Qed.

Lemma wp_cache_store id md (Q : unit → L → metadataCache → list output → Prop) l c o :
  cache_wf c → (∀ c', metadataCache_Store c id md = Some c' → Q tt l c' o) →
  wp (cache_store id md) Q l c o.
Proof.
  intros Hc HQ. unfold cache_store. destruct (Store_total c id md Hc) as [c' Hs]. cbn. rewrite Hs. cbn.
  by apply HQ.
Qed.

Lemma requireAccountKind_wp s id kind l c o :
  ledger_wf l → coherent s l c →
  wp (requireAccountKind s id kind) (λ r l' c' o', same_view l l' ∧ o' = o ∧ coherent s l' c' ∧
    (r = kind_answer s l id kind ∨ ledger_error r)) l c o.
Proof.
  intros Hwf Hc. unfold requireAccountKind. apply wp_seq. cbn [wp call eff_wp].
  destruct (metadataCache_Load c id) as [md|] eqn:Hload.
  - destruct (coherent_load s l c id md Hc Hload) as (a & Ha & Hmd).
    unfold kind_answer. rewrite Ha, Hmd. case_decide; cbn; split_and!; auto; done.
  - apply wp_bind_err, wp_lookup_account; [done|]. intros r l' Hv Hr.
    assert (coherent s l' c) as Hc' by (eapply coherent_ext; [by apply same_view_ext|done]).
    destruct r as [e|[a []]].
    + split_and!; [done..|]. right. by exists e.
    + cbn [fst snd andb]. unfold kind_answer. rewrite Hr.
      destruct (metadataForAccount s a) as [md|] eqn:Hmd; [|by split_and!; [..|left]].
      case_bool_decide; [|rewrite decide_False by done; by split_and!; [..|left]].
      rewrite decide_True by done. apply wp_seq.
      assert (known s l' id md) as Hk by (exists a; by rewrite (proj1 Hv)).
      destruct (coherent_store s l' c id md Hc' Hk) as (c2 & Hs & Hc2).
      apply wp_cache_store; [apply Hc'|]. intros c3 Hs3. simplify_eq. cbn. by split_and!; [..|left].
    + unfold kind_answer. rewrite Hr. cbn [fst snd andb].
      destruct (metadataForAccount s a); by split_and!; [..|left].
Qed.

(** The constraint a flag puts on the figures of an account, as TigerBeetle
    documents it: pending amounts count on the constrained side. *)
Definition flag_respected (a : Account) : Prop :=
  (DebitsMustNotExceedCredits (AccountFlags_of_Uint16 (Account_Flags a)) = true →
    Uint128_BigInt (Account_DebitsPending a) + Uint128_BigInt (Account_DebitsPosted a) ≤
    Uint128_BigInt (Account_CreditsPosted a)) ∧
  (CreditsMustNotExceedDebits (AccountFlags_of_Uint16 (Account_Flags a)) = true →
    Uint128_BigInt (Account_CreditsPending a) + Uint128_BigInt (Account_CreditsPosted a) ≤
    Uint128_BigInt (Account_DebitsPosted a)).
End balances.

(** ** Theorems *)

(** C22: A request is looked at before anything else.  A malformed request - an
    id that is no external id or names a reserved value, a missing amount, a
    parent that does not fit the kind, an increment under the authorization's
    own id - is answered with an invalid-request error without any effect; every
    other request goes on to the clock, the cache or the ledger. *)
Theorem requests_are_screened {sdk : SDK} {laws : SDKLaws sdk} s q :
  ledgerID s ≠ 0 →
  (well_formed q → proceeds (dispatch s q)) ∧ (¬ well_formed q → refused (dispatch s q)).
Proof.
  intros Hl. destruct (request_screens s q Hl) as [[Hwf Hp]|[Hwf Hp]]; split; [done|by intros ?|by intros ?|done].
Qed.
Lemma requests_are_screened_witness :
  refused (dispatch (service 100) (ReqTopUp (mkTopUpRequest "a1" testCorporateAccountID 0))).
Proof.
  apply (requests_are_screened (laws := ModelSDK_laws) (service 100)).
  - discriminate.
  - intros (_ & Hnz & _). apply Hnz. reflexivity.
Defined.

(** C29: A balance query reports the ledger.  It answers the figures of the
    stored account under the reading of its kind, [ErrAccountNotFound] for a
    missing account and for one outside the chart of accounts, or the error of
    the failed lookup; it changes no account or transfer and logs nothing. *)
Theorem balance_reports_the_ledger {sdk : SDK} {L : Type} {ledger : Ledger L} {view : LedgerView L}
    {contract : LedgerContract L} s env value id (w : World L) :
  env_ok env → ledger_wf (w_ledger w) → cache_wf (w_cache w) → requestID value = inr id →
  ∃ r w', run env (Balance s value) w = (Some r, w') ∧
    same_view (w_ledger w) (w_ledger w') ∧ w_out w' = w_out w ∧
    (r = balance_answer s (w_ledger w) id ∨ ledger_error r).
Proof.
  intros Henv Hwf Hc Hid.
  destruct (wp_sound env _ _ w Henv (Balance_wp s value id _ _ (w_out w) Hwf Hc Hid)) as (r & w' & Hrun & H).
  by exists r, w'.
Qed.
Lemma balance_reports_the_ledger_witness :
  ∃ r w', run test_env (Balance (service 100000) testCardAccountID) world_authorized = (Some r, w') ∧
    same_view (w_ledger world_authorized) (w_ledger w') ∧ w_out w' = w_out world_authorized ∧
    (r = balance_answer (service 100000) (w_ledger world_authorized) (hex testCardAccountID) ∨ ledger_error r).
Proof.
  apply (balance_reports_the_ledger (service 100000) test_env).
  - apply test_env_ok.
  - apply (inv_wf _ _ _ world_authorized_inv).
  - apply (coh_wf _ _ _ (inv_cache _ _ _ world_authorized_inv)).
  - by_computation.
Defined.

(** What the service calls available can be spent.  For an account of the
    chart of accounts whose balance flag the ledger enforces, the available
    balance lies between zero and the posted balance, so no account of a
    customer is shown overdrawn. *)
Theorem available_balance_bounds {sdk : SDK} {laws : SDKLaws sdk} s a md :
  metadataForAccount s a = Some md → flag_respected a →
  0 ≤ snd (balances a (metadata_kind md)) ≤ fst (balances a (metadata_kind md)).
Proof.
  intros Hmd [Hd Hc]. apply metadataForAccount_spec in Hmd as [[Hv _ _ _ _ _ Hf _ _ _] _].
  rewrite Hf, AccountFlags_roundtrip in Hd, Hc. rewrite balances_spec.
  pose proof (BigInt_range (Account_DebitsPending a)). pose proof (BigInt_range (Account_CreditsPending a)).
  unfold kind_flags in *. case_bool_decide as Hk.
  - rewrite decide_True in Hd, Hc by done. specialize (Hc eq_refl). cbn [fst snd]. lia.
  - rewrite decide_False in Hd, Hc by done. specialize (Hd eq_refl). cbn [fst snd]. lia.
Qed.
Lemma available_balance_bounds_witness :
  let a := default Account_zero (account_of (w_ledger world_authorized) (hex testCardAccountID)) in
  0 ≤ snd (balances a AccountCardWallet) ≤ fst (balances a AccountCardWallet).
Proof.
  apply (available_balance_bounds (laws := ModelSDK_laws) (service 100000) _
    (mkAccountMetadata AccountCardWallet (hex testCorporateAccountID))).
  - by_computation.
  - split; intros H; [apply Z.leb_le; by_computation|vm_compute in H; discriminate H].
Defined.

(** ** Requests over the approval limit *)
Section limits.
Context {sdk : SDK} {L : Type} {ledger : Ledger L} {view : LedgerView L} {contract : LedgerContract L}.

(** An authorization or increment the risk evaluation does not approve. *)
Definition not_approved (s : Service) (q : request) : Prop :=
  match q with
  | ReqAuthorize ctx r => evaluateRisk s ctx (AuthorizationRequest_AmountCents r) ≠ inr true
  | ReqIncrementAuthorization ctx r =>
      evaluateRisk s ctx (IncrementAuthorizationRequest_IncrementCents r) ≠ inr true
  | _ => False
  end.

(** Exactly the amounts over the limit are not approved, unless the context
    ends during the delay. *)
Lemma evaluateRisk_spec s ctx amount :
  evaluateRisk s ctx amount = inr true ↔
  amount ≤ riskLimitCents s ∧ (0 < riskDelay s → ctx = None).
Proof.
  unfold evaluateRisk. destruct (Z.ltb_spec 0 (riskDelay s)) as [Hd|Hd].
  - destruct ctx; [split; [done|]; intros [_ H]; by specialize (H Hd)|].
    rewrite <- Z.leb_le. split; [by intros [= ->]|by intros [-> _]].
  - rewrite <- Z.leb_le. split; [intros [= ->]; split; [done|lia]|by intros [-> _]].
Qed.

Lemma not_approved_reads_only s q : not_approved s q → reads_only (dispatch s q).
Proof.
  destruct q; try done; intros H; apply reads_only_bind; try done.
  - by apply Authorize_reads_only.
  - by apply IncrementAuthorization_reads_only.
Qed.

(** The truth of such an answer does not depend on the run. *)
Lemma not_approved_truth s q a (l l' : L) :
  not_approved s q → same_view l l' → response_truth s q a l' → response_truth s q a l.
Proof.
  intros Hq [_ Ht]. destruct q; try done; destruct a; try done; cbn.
  - intros H resp st Hr. destruct (H resp st Hr) as [?|(? & t & Hh & t' & Ht' & Hs)]; [by left|right].
    split; [done|]. exists t. split; [done|]. exists t'. by rewrite <- Ht.
  - intros H resp st Hr.
    destruct (H resp st Hr) as [?|(? & i & j & o & h & Hi & Ho & Hop & Hh & Hs)]; [by left|right].
    split; [done|]. exists i, j, o, h. rewrite <- !Ht. done.
Qed.
End limits.

(** C19: An amount over the automatic limit is never submitted.  An authorization
    or increment whose risk evaluation does not approve it makes no
    [CreateTransfer] or [CreateAccount]: every account and transfer is as
    before, and an approved answer is the replay of a hold that was stored
    already. *)
Theorem over_limit_is_never_submitted {sdk : SDK} {L : Type} {ledger : Ledger L} {view : LedgerView L}
    {contract : LedgerContract L} s env q (w : World L) :
  env_ok env → service_inv s (w_ledger w) (w_cache w) → not_approved s q →
  reads_only (dispatch s q) ∧
  ∃ a w', run env (dispatch s q) w = (Some a, w') ∧ same_view (w_ledger w) (w_ledger w') ∧
    response_truth s q a (w_ledger w).
Proof.
  intros Henv Hinv Hq. pose proof (not_approved_reads_only s q Hq) as Hread. split; [done|].
  destruct (rg_run (service_inv s) ledger_ext env _ _ w Henv Hinv (dispatch_safe s q (w_ledger w)))
    as (a & w' & Hrun & _ & _ & Htruth).
  pose proof (run_reads_only env _ w _ _ Hread (inv_wf _ _ _ Hinv) Hrun) as Hv.
  exists a, w'. split_and!; [done..|]. by eapply not_approved_truth.
Qed.
Definition large_authorization : AuthorizationRequest :=
  mkAuthorizationRequest "b9" testCardAccountID testMerchantID 20.
Lemma over_limit_is_never_submitted_witness :
  reads_only (dispatch low_limit (ReqAuthorize None large_authorization)).
Proof.
  refine (proj1 (over_limit_is_never_submitted low_limit test_env
    (ReqAuthorize None large_authorization) world_authorized _ _ _)).
  - apply test_env_ok.
  - apply low_limit_inv.
  - discriminate.
Defined.

(** A valid creation request: the account it asks for, under a parent the
    ledger knows. *)
Definition valid_creation {sdk : SDK} {L : Type} {view : LedgerView L} (s : Service)
    (r : CreateAccountRequest) (parent : Uint128) (account : Account) (l : L) : Prop :=
  (CreateAccountRequest_Kind r = AccountCorporateWallet ∨
   CreateAccountRequest_Kind r = AccountCardWallet) ∧
  asked_account s r parent = inr account ∧ parent_named s r parent l.

(** C21: Creating an account is idempotent.  A request whose account id names a
    stored account is answered, in every interleaving, by [exists] when the
    stored definition is the one asked for (kind, parent, ledger), by the
    idempotency conflict when it is not, or by the error of a failed call. *)
Theorem account_creation_is_idempotent {sdk : SDK} {L : Type} {ledger : Ledger L} {view : LedgerView L}
    {contract : LedgerContract L} s env qs (w : World L) ts w' i r a parent account stored :
  env_ok env → service_inv s (w_ledger w) (w_cache w) → reachable s env qs w ts w' →
  qs !! i = Some (ReqCreateAccount r) → ts !! i = Some (Ret a) →
  valid_creation s r parent account (w_ledger w) →
  account_of (w_ledger w) (Account_ID account) = Some stored →
  ∃ out, a = RespAccount out ∧
    idempotent (same_definition account stored) (account_original r parent stored) out.
Proof.
  intros Henv Hinv Hreach Hq Ha (Hkind & Hacc & Hpar) Hst.
  pose proof (account_key _ _ _ (inv_wf _ _ _ Hinv) Hst) as Hid.
  assert (defined (w_ledger w) stored) as Hdef by (exists stored; by rewrite Hid).
  pose proof (CreateAccount_replay s r parent account stored _ Hkind Hacc Hpar Hid Hdef) as Hsafe.
  destruct (reachable_map s env qs w ts w' i (ReqCreateAccount r) a (CreateAccount s r)
    RespAccount _ Henv Hinv Hreach eq_refl Hsafe Hq Ha) as (out & -> & HQ).
  by exists out.
Qed.

(** The corporate wallet created a second time. *)
Definition create_again : list (prog response) * World fakeLedger :=
  in_turn [ReqCreateAccount corporate_request] world_accounts.
Definition corporate_account : Account :=
  default Account_zero (account_of (w_ledger world_accounts) (hex testCorporateAccountID)).
Definition corporate_asked : Account :=
  mkAccount (hex testCorporateAccountID) Uint128_zero Uint128_zero Uint128_zero Uint128_zero Uint128_zero
    0 0 1 AccountCodeCorporateWallet (AccountFlags_ToUint16 (mkAccountFlags true false)) 0.
Lemma account_creation_is_idempotent_witness :
  ∃ out, RespAccount (inr (mkAccountResponse testCorporateAccountID AccountCorporateWallet "" "exists"
      1787000000000000003, 200)) = RespAccount out ∧
    idempotent (same_definition corporate_asked corporate_account)
      (account_original corporate_request Uint128_zero corporate_account) out.
Proof.
  refine (account_creation_is_idempotent (service 100000) test_env [ReqCreateAccount corporate_request]
    world_accounts (fst create_again) (snd create_again) 0 corporate_request _ Uint128_zero corporate_asked
    corporate_account _ _ _ _ _ _ _).
  - apply test_env_ok.
  - apply world_accounts_inv.
  - apply in_turn_reachable.
  - reflexivity.
  - by_computation.
  - split; [left; reflexivity|split; [by_computation|split; reflexivity]].
  - by_computation.
Defined.

(** Both system accounts are in the ledger. *)
Definition provisioned {sdk : SDK} {L : Type} {view : LedgerView L} (s : Service) (l : L) : Prop :=
  Forall (λ '(kind, id), known s l id (mkAccountMetadata kind Uint128_zero)) systemAccounts.

(** Provisioning is idempotent.  Once the two system accounts are known, a
    further [EnsureSystemAccounts] - at every start of the server - succeeds in
    every interleaving, unless a ledger call fails. *)
Theorem provisioning_is_idempotent {sdk : SDK} {laws : SDKLaws sdk} {L : Type} {ledger : Ledger L}
    {view : LedgerView L} {contract : LedgerContract L} s env qs (w : World L) ts w' i a :
  env_ok env → service_inv s (w_ledger w) (w_cache w) → reachable s env qs w ts w' →
  qs !! i = Some ReqEnsureSystemAccounts → ts !! i = Some (Ret a) → ledgerID s ≠ 0 →
  provisioned s (w_ledger w) →
  a = RespUnit (inr tt) ∨ ∃ e, a = RespUnit (inl e) ∧ foreign e.
Proof.
  intros Henv Hinv Hreach Hq Ha Hl Hall. apply Forall_cons in Hall as [Hcash Hall].
  apply Forall_cons in Hall as [Hset _].
  assert (safe s (EnsureSystemAccounts s) (λ r _, ledger_error r ∨ r = inr tt) (w_ledger w)) as Hsafe.
  { apply provision_replay; [|done|intros id b; apply account_key, Hinv].
    repeat constructor; try done; by apply ToUint128_nonzero. }
  destruct (reachable_map s env qs w ts w' i ReqEnsureSystemAccounts a (EnsureSystemAccounts s) RespUnit _ Henv Hinv Hreach
    eq_refl Hsafe Hq Ha) as (r & -> & [(e & -> & He)| ->]); [right; by exists e|by left].
Qed.
Definition ensure_again : list (prog response) * World fakeLedger :=
  in_turn [ReqEnsureSystemAccounts] world_accounts.
Lemma provisioning_is_idempotent_witness :
  RespUnit (inr tt) = RespUnit (inr tt) ∨ ∃ e, RespUnit (inr tt) = RespUnit (inl e) ∧ foreign e.
Proof.
  refine (provisioning_is_idempotent (laws := ModelSDK_laws) (service 100000) test_env [ReqEnsureSystemAccounts] world_accounts
    (fst ensure_again) (snd ensure_again) 0 _ _ _ _ _ _ _ _).
  - apply test_env_ok.
  - apply world_accounts_inv.
  - apply in_turn_reachable.
  - reflexivity.
  - by_computation.
  - discriminate.
  - constructor; [|constructor; [|constructor]]; apply stored_metadata; by_computation.
Defined.

(** C28: The metadata cache is invisible.  Run alone on any ledger, with any
    coherent cache - full, empty or disabled -, the check of an account's kind
    answers what the ledger's account says (its metadata when it has the kind,
    [ErrAccountNotFound] otherwise), or the error of the failed lookup; it
    changes no account or transfer, logs nothing, and leaves a coherent cache. *)
Theorem cache_is_transparent {sdk : SDK} {L : Type} {ledger : Ledger L} {view : LedgerView L}
    {contract : LedgerContract L} s env id kind (w : World L) :
  env_ok env → ledger_wf (w_ledger w) → coherent s (w_ledger w) (w_cache w) →
  ∃ r w', run env (requireAccountKind s id kind) w = (Some r, w') ∧
    same_view (w_ledger w) (w_ledger w') ∧ w_out w' = w_out w ∧ coherent s (w_ledger w') (w_cache w') ∧
    (r = kind_answer s (w_ledger w) id kind ∨ ledger_error r).
Proof.
  intros Henv Hwf Hc.
  destruct (wp_sound env _ _ w Henv (requireAccountKind_wp s id kind _ _ (w_out w) Hwf Hc))
    as (r & w' & Hrun & H).
  by exists r, w'.
Qed.
Lemma cache_is_transparent_witness :
  ∃ r w', run test_env (requireAccountKind (service 100000) (hex testCardAccountID) AccountCardWallet)
            world_card = (Some r, w') ∧
    same_view (w_ledger world_card) (w_ledger w') ∧ w_out w' = w_out world_card ∧
    coherent (service 100000) (w_ledger w') (w_cache w') ∧
    (r = kind_answer (service 100000) (w_ledger world_card) (hex testCardAccountID) AccountCardWallet ∨
     ledger_error r).
Proof.
  apply (cache_is_transparent (service 100000) test_env).
  - apply test_env_ok.
  - apply (inv_wf _ _ _ world_card_inv).
  - apply (inv_cache _ _ _ world_card_inv).
Defined.
