(* ===== verification/Snapshots.v ===== *)
(** * What a query saw

    The value a handler returns is a function of what its effects read, and each
    effect reads the world at one moment of the execution.  [given] turns this
    into a rule: a claim on the value, for any worlds of the execution. *)
From S2P Require Import Prelude GoBase GoCrypto Domain TigerBeetle TigerBeetleModel LedgerModel.
From S2P Require Import Cache Health Interface Semantics Contract FakeLedger Service ServiceSpec.
From S2P Require Import Operations OperationsSpec Invariant Safety Replay Scenarios Outcomes System.
From S2P Require Import Requests.
Import GoInt GoError GoTime.
Local Open Scope Z_scope.

Section given.
Context {sdk : SDK} {L : Type} {ledger : Ledger L} (env : Env) (V : World L → Prop).

(** Run in worlds that satisfy [V], whatever others do between, [p] returns [Q]. *)
Fixpoint given {A} (p : prog A) (Q : A → Prop) : Prop :=
  match p with
  | Ret a => Q a
  | Panic => True
  | Call e k => ∀ w, V w → given (k (fst (handle env e w))) Q
  end.

Lemma given_mono {A} (p : prog A) (Q Q' : A → Prop) : (∀ a, Q a → Q' a) → given p Q → given p Q'.
Proof. intros HQ. induction p as [a| |X e k IH]; cbn; [apply HQ|done|]. intros H w Hw. apply IH, H, Hw. Qed.
Lemma given_bind {A B} (p : prog A) (f : A → prog B) Q :
  given p (λ a, given (f a) Q) → given (bind p f) Q.
Proof. induction p as [a| |X e k IH]; cbn; [done..|]. intros H w Hw. apply IH, H, Hw. Qed.
Lemma given_any {A} (p : prog A) : given p (λ _, True).
Proof. induction p as [a| |X e k IH]; cbn; [done..|]. intros w _. apply IH. Qed.
End given.

Section moments.
Context {sdk : SDK} {L : Type} {ledger : Ledger L}.

(** The worlds an execution passes through. *)
Definition passed (env : Env) {A} (start last : list (prog A) * World L) (w : World L) : Prop :=
  ∃ ts, pool_steps env start (ts, w) ∧ pool_steps env (ts, w) last.

Lemma steps_given env {A} (V : World L → Prop) (cfg last : list (prog A) * World L) i p Q :
  pool_steps env cfg last →
  (∀ mid, pool_steps env cfg mid → pool_steps env mid last → V (snd mid)) →
  fst cfg !! i = Some p → given env V p Q → ∃ p', fst last !! i = Some p' ∧ given env V p' Q.
Proof.
  intros Hsteps. revert p. induction Hsteps as [cfg|cfg1 cfg2 cfg3 Hstep Hsteps IH]; intros p HV Hp Hg.
  { by exists p. }
  assert (∀ p', fst cfg2 !! i = Some p' → given env V p' Q →
    ∃ p'', fst cfg3 !! i = Some p'' ∧ given env V p'' Q) as Hnext.
  { intros p' Hp' Hg'. eapply IH; [|exact Hp'|exact Hg']. intros mid H1 H2. apply HV; [|done].
    by eapply rtc_l. }
  pose proof (HV cfg1 (rtc_refl _ _) (rtc_l _ _ _ _ Hstep Hsteps)) as HVw.
  destruct Hstep as [ts j X e k w x w' Hj Hh]. cbn [fst snd] in *.
  destruct (decide (j = i)) as [->|Hne].
  - rewrite Hj in Hp. injection Hp as <-. apply (Hnext (k x)).
    + apply list_lookup_insert_eq. by eapply lookup_lt_Some.
    + specialize (Hg w HVw). by rewrite Hh in Hg.
  - apply (Hnext p); [|done]. by rewrite list_lookup_insert_ne.
Qed.

(** The value a handler has returned. *)
Lemma returned_given env {A} (start last : list (prog A) * World L) i p a Q :
  pool_steps env start last → fst start !! i = Some p → fst last !! i = Some (Ret a) →
  given env (passed env start last) p Q → Q a.
Proof.
  intros Hsteps Hp Ha Hg.
  destruct (steps_given env (passed env start last) start last i p Q Hsteps) as (p' & Hp' & Hg'); [|done..|].
  - intros [ts w] H1 H2. by exists ts.
  - rewrite Ha in Hp'. by injection Hp' as <-.
Qed.
End moments.

Section balance.
Context {sdk : SDK} {L : Type} {ledger : Ledger L} {view : LedgerView L} {contract : LedgerContract L}.

(** The answer to a query is the view of the account at one moment, or the error
    of a ledger call. *)
Definition read_at (V : World L → Prop) (s : Service) (id : Uint128) (r : result error BalanceResponse) : Prop :=
  (∃ w, V w ∧ r = balance_answer s (w_ledger w) id) ∨ ledger_error r.

Lemma Balance_given env V s value id :
  (∀ w, V w → ledger_wf (w_ledger w)) → requestID value = inr id →
  given env V (Balance s value) (read_at V s id).
Proof.
  intros HV Hid. destruct (requestID_accepted value id Hid) as [Hext Hparse].
  unfold Balance. rewrite Hext, Hparse. cbn. intros w1 _ w2 _ w3 Hw3.
  pose proof (lookup_account_ok (w_ledger w3) id (HV w3 Hw3)) as Hl.
  destruct (Ledger_LookupAccount id (w_ledger w3)) as [r l']. destruct Hl as (_ & _ & Hr). cbn.
  intros w4 _ w5 _. apply given_bind, (given_mono _ _ _ (λ a, a = r)); [|by destruct (metrics s); cbn].
  intros r' ->. destruct r as [e|[a found]]; [right; by exists e|].
  assert (∀ r, r = balance_answer s (w_ledger w3) id → read_at V s id r) as Hread by (left; by exists w3).
  unfold balance_answer in Hread. destruct found; cbn [negb]; rewrite Hr in Hread; [|by apply Hread].
  destruct (metadataForAccount s a) as [md|] eqn:Hmd; [|by apply Hread].
  apply given_bind. eapply given_mono; [|apply given_any]. intros [] _. rewrite balances_spec.
  unfold balance_view in Hread. by case_match; apply Hread.
Qed.

(** In every interleaving, a balance is that of one moment of the execution. *)
Lemma balance_of_a_moment env s qs (w : World L) ts w' i value id r :
  env_ok env → service_inv s (w_ledger w) (w_cache w) → reachable s env qs w ts w' →
  qs !! i = Some (ReqBalance value) → ts !! i = Some (Ret (RespBalance r)) → requestID value = inr id →
  read_at (passed env (handlers s qs, w) (ts, w')) s id r.
Proof.
  intros Henv Hinv Hreach Hq Ha Hid. set (V := passed env (handlers s qs, w) (ts, w')).
  assert (∀ w, V w → ledger_wf (w_ledger w)) as HV.
  { intros w1 (ts1 & H1 & _). destruct (reachable_ok s env qs w ts1 w1 Henv Hinv H1) as [[Hinv1 _] _].
    apply Hinv1. }
  apply (returned_given env (handlers s qs, w) (ts, w') i (dispatch s (ReqBalance value)) (RespBalance r)
    (λ a, ∀ r, a = RespBalance r → read_at V s id r) Hreach); [|done| |done].
  - unfold handlers. cbn. by rewrite list_lookup_fmap, Hq.
  - cbn [dispatch]. apply given_bind. eapply given_mono; [|by apply (Balance_given env V s value id HV)].
    intros r1 Hr1 r2 [= <-]. exact Hr1.
Qed.
End balance.
