(* ===== verification/FakeBooks.v ===== *)
(** * The test ledger keeps the books

    The balances [fakeLedger] writes back with each transfer are the sums of its
    journal and respect the flags of the accounts, as long as less than 2^64 cents
    were ever moved; an invariant of every interleaving of the service on it.  So
    the figures the service reports there are those of [Accounting.v]. *)
From S2P Require Import Prelude GoBase GoCrypto Domain TigerBeetle TigerBeetleModel LedgerModel.
From S2P Require Import Cache Health Interface Semantics Contract FakeLedger Service ServiceSpec.
From S2P Require Import Operations OperationsSpec Invariant Safety Replay Scenarios System.
From S2P Require Import Accounting Provenance Requests.
Import GoInt GoError GoTime.
Local Open Scope Z_scope.

Section books.
Context {sdk : SDK} {laws : SDKLaws sdk}.
Implicit Types (f : fakeLedger) (a : Account) (t : Transfer) (js : list Transfer).

(** The figures of an account are those of the journal, and its flag is respected. *)
Record account_books js a : Prop := {
  books_dpe : Uint128_BigInt (Account_DebitsPending a) = debits_pending (Account_ID a) js;
  books_dpo : Uint128_BigInt (Account_DebitsPosted a) = debits_posted (Account_ID a) js;
  books_cpe : Uint128_BigInt (Account_CreditsPending a) = credits_pending (Account_ID a) js;
  books_cpo : Uint128_BigInt (Account_CreditsPosted a) = credits_posted (Account_ID a) js;
  books_flags : flag_respected a }.

(** All cents ever moved. *)
Definition moved js : Z := total cents js.
Definition two_parties js : Prop := ∀ t, t ∈ js → Transfer_DebitAccountID t ≠ Transfer_CreditAccountID t.

Record fake_books f : Prop := {
  fb_wf : fake_wf f;
  fb_parties t : t ∈ fake_journal f →
    is_Some (account_of f (Transfer_DebitAccountID t)) ∧ is_Some (account_of f (Transfer_CreditAccountID t));
  fb_figures : two_parties (fake_journal f) → moved (fake_journal f) < 2 ^ 64 →
    ∀ id a, account_of f id = Some a → account_books (fake_journal f) a }.

(** ** Flows and bounds *)

Lemma cents_nonneg t : 0 ≤ cents t.
Proof. apply BigInt_range. Qed.
Lemma flow_nonneg sel js : 0 ≤ flow sel js.
Proof. apply total_nonneg. intros t _. unfold part. destruct (sel t); [apply cents_nonneg|done]. Qed.
Lemma flow_pair_moved sel sel' js :
  (∀ t, sel t = true → sel' t = false) → flow sel js + flow sel' js ≤ moved js.
Proof.
  intros Hsel. induction js as [|t js IH]; [done|]. rewrite !flow_cons.
  change (moved (t :: js)) with (cents t + moved js). pose proof (cents_nonneg t).
  unfold part. specialize (Hsel t). destruct (sel t), (sel' t); naive_solver lia.
Qed.
Lemma flow_moved sel js : flow sel js ≤ moved js.
Proof.
  etransitivity; [|apply (flow_pair_moved sel (λ _, false)); done].
  pose proof (flow_nonneg (λ _, false) js). lia.
Qed.
Lemma flow_none sel js : (∀ t, t ∈ js → sel t = false) → flow sel js = 0.
Proof. intros H. apply total_zero. intros t Ht. unfold part. by rewrite H. Qed.

Lemma debits_moved id js : debits_pending id js + debits_posted id js ≤ moved js.
Proof. apply flow_pair_moved. intros t. by destruct (is_pending t). Qed.
Lemma credits_moved id js : credits_pending id js + credits_posted id js ≤ moved js.
Proof. apply flow_pair_moved. intros t. by destruct (is_pending t). Qed.

(** A figure below 2^64 plus an amount, as the ledger computes it. *)
Lemma low64_exact (u : Uint128) n : Uint128_BigInt u = n → 0 ≤ n < 2 ^ 64 → low64 u = n.
Proof. intros <- Hn. unfold low64. rewrite Uint64_value. by apply Z.mod_small. Qed.
Lemma low64_add (u : Uint128) n amount : Uint128_BigInt u = n → 0 ≤ n → 0 ≤ amount → n + amount < 2 ^ 64 →
  Uint128_BigInt (ToUint128 (uint64 (low64 u + amount))) = n + amount.
Proof.
  intros Hu Hn Ha Hlt. rewrite (low64_exact u n Hu) by lia.
  rewrite uint64_id by (unfold in_uint64; lia). apply BigInt_ToUint128. unfold in_uint64. lia.
Qed.

(** The four figures are nonnegative, bounded, and grow by one transfer at a time. *)
Lemma figures_bounds id js :
  0 ≤ debits_pending id js ∧ 0 ≤ debits_posted id js ∧ 0 ≤ credits_pending id js ∧ 0 ≤ credits_posted id js ∧
  debits_pending id js + debits_posted id js ≤ moved js ∧
  credits_pending id js + credits_posted id js ≤ moved js.
Proof. split_and!; [apply flow_nonneg..|apply debits_moved|apply credits_moved]. Qed.

Lemma figures_cons id t js :
  debits_pending id (t :: js) = (if is_pending t && debits id t then cents t else 0) + debits_pending id js ∧
  debits_posted id (t :: js) = (if negb (is_pending t) && debits id t then cents t else 0) + debits_posted id js ∧
  credits_pending id (t :: js) = (if is_pending t && credits id t then cents t else 0) + credits_pending id js ∧
  credits_posted id (t :: js) = (if negb (is_pending t) && credits id t then cents t else 0) + credits_posted id js.
Proof. by split_and!. Qed.

(** The two checks of [CreateTransfer], when nothing wraps. *)
Lemma sum64_exact u v n m amount :
  Uint128_BigInt u = n → Uint128_BigInt v = m → 0 ≤ n → 0 ≤ m → 0 ≤ amount → n + m + amount < 2 ^ 64 →
  uint64 (uint64 (low64 u + low64 v) + amount) = n + m + amount.
Proof.
  intros Hu Hv Hn Hm Ha Hlt. rewrite (low64_exact u n Hu), (low64_exact v m Hv) by lia.
  rewrite (uint64_id (n + m)) by (unfold in_uint64; lia). apply uint64_id. unfold in_uint64. lia.
Qed.

Lemma exceeds_credits_false js a amount :
  account_books js a → 0 ≤ amount → moved js + amount < 2 ^ 64 → exceeds_credits a amount = false →
  DebitsMustNotExceedCredits (AccountFlags_of_Uint16 (Account_Flags a)) = true →
  debits_pending (Account_ID a) js + debits_posted (Account_ID a) js + amount ≤ credits_posted (Account_ID a) js.
Proof.
  intros [Hdpe Hdpo _ Hcpo _] Ha Hm. unfold exceeds_credits. intros Hx Hflag. rewrite Hflag in Hx.
  cbn [andb] in Hx. apply Z.ltb_ge in Hx. destruct (figures_bounds (Account_ID a) js) as (?&?&?&?&?&?).
  rewrite (sum64_exact _ _ _ _ amount Hdpe Hdpo), (low64_exact _ _ Hcpo) in Hx by lia. done.
Qed.
Lemma exceeds_debits_false js a amount :
  account_books js a → 0 ≤ amount → moved js + amount < 2 ^ 64 → exceeds_debits a amount = false →
  CreditsMustNotExceedDebits (AccountFlags_of_Uint16 (Account_Flags a)) = true →
  credits_pending (Account_ID a) js + credits_posted (Account_ID a) js + amount ≤ debits_posted (Account_ID a) js.
Proof.
  intros [_ Hdpo Hcpe Hcpo _] Ha Hm. unfold exceeds_debits. intros Hx Hflag. rewrite Hflag in Hx.
  cbn [andb] in Hx. apply Z.ltb_ge in Hx. destruct (figures_bounds (Account_ID a) js) as (?&?&?&?&?&?).
  rewrite (sum64_exact _ _ _ _ amount Hcpe Hcpo), (low64_exact _ _ Hdpo) in Hx by lia. done.
Qed.

(** One more transfer, seen from the account it debits, the one it credits and
    any other. *)
Lemma debited_books t js a :
  account_books js a → Transfer_DebitAccountID t = Account_ID a → Transfer_CreditAccountID t ≠ Account_ID a →
  moved js + cents t < 2 ^ 64 → exceeds_credits a (cents t) = false →
  account_books (t :: js) (debited (is_pending t) a (cents t)).
Proof.
  intros Hb Hd Hc Hm Hx. pose proof (cents_nonneg t) as Ha.
  pose proof (exceeds_credits_false js a (cents t) Hb Ha Hm Hx) as Hflag.
  destruct Hb as [Hdpe Hdpo Hcpe Hcpo [Hf1 Hf2]], (figures_bounds (Account_ID a) js) as (?&?&?&?&?&?).
  assert (∀ u n, Uint128_BigInt u = n → 0 ≤ n ≤ moved js →
    Uint128_BigInt (ToUint128 (uint64 (low64 u + cents t))) = n + cents t) as Hadd
    by (intros u n Hu Hn; apply low64_add; (done || lia)).
  destruct (figures_cons (Account_ID a) t js) as (Hc1 & Hc2 & Hc3 & Hc4).
  rewrite (bool_decide_eq_true_2 _ Hd : debits _ t = true) in Hc1, Hc2.
  rewrite (bool_decide_eq_false_2 _ Hc : credits _ t = false) in Hc3, Hc4.
  unfold debited. destruct (is_pending t); cbn in Hc1, Hc2, Hc3, Hc4;
    split; cbn; unfold flag_respected; cbn; rewrite ?Hc1, ?Hc2, ?Hc3, ?Hc4.
  all: try (rewrite (Hadd _ _ Hdpe) by lia); try (rewrite (Hadd _ _ Hdpo) by lia); try lia.
  all: split; intros Hf; [specialize (Hflag Hf)|specialize (Hf2 Hf)]; lia.
Qed.
Lemma credited_books t js a :
  account_books js a → Transfer_CreditAccountID t = Account_ID a → Transfer_DebitAccountID t ≠ Account_ID a →
  moved js + cents t < 2 ^ 64 → exceeds_debits a (cents t) = false →
  account_books (t :: js) (credited (is_pending t) a (cents t)).
Proof.
  intros Hb Hc Hd Hm Hx. pose proof (cents_nonneg t) as Ha.
  pose proof (exceeds_debits_false js a (cents t) Hb Ha Hm Hx) as Hflag.
  destruct Hb as [Hdpe Hdpo Hcpe Hcpo [Hf1 Hf2]], (figures_bounds (Account_ID a) js) as (?&?&?&?&?&?).
  assert (∀ u n, Uint128_BigInt u = n → 0 ≤ n ≤ moved js →
    Uint128_BigInt (ToUint128 (uint64 (low64 u + cents t))) = n + cents t) as Hadd
    by (intros u n Hu Hn; apply low64_add; (done || lia)).
  destruct (figures_cons (Account_ID a) t js) as (Hc1 & Hc2 & Hc3 & Hc4).
  rewrite (bool_decide_eq_false_2 _ Hd : debits _ t = false) in Hc1, Hc2.
  rewrite (bool_decide_eq_true_2 _ Hc : credits _ t = true) in Hc3, Hc4.
  unfold credited. destruct (is_pending t); cbn in Hc1, Hc2, Hc3, Hc4;
    split; cbn; unfold flag_respected; cbn; rewrite ?Hc1, ?Hc2, ?Hc3, ?Hc4.
  all: try (rewrite (Hadd _ _ Hcpe) by lia); try (rewrite (Hadd _ _ Hcpo) by lia); try lia.
  all: split; intros Hf; [specialize (Hf1 Hf)|specialize (Hflag Hf)]; lia.
Qed.
Lemma untouched_books t js a :
  account_books js a → Transfer_DebitAccountID t ≠ Account_ID a → Transfer_CreditAccountID t ≠ Account_ID a →
  account_books (t :: js) a.
Proof.
  intros [] Hd Hc. destruct (figures_cons (Account_ID a) t js) as (H1 & H2 & H3 & H4).
  rewrite (bool_decide_eq_false_2 _ Hd : debits _ t = false), andb_false_r in H1, H2.
  rewrite (bool_decide_eq_false_2 _ Hc : credits _ t = false), andb_false_r in H3, H4.
  split; try done; lia.
Qed.

(** ** The operations keep the books *)

Lemma books_permutation js js' a : js ≡ₚ js' → account_books js a → account_books js' a.
Proof.
  intros Hp []. split; [..|done];
    unfold debits_pending, debits_posted, credits_pending, credits_posted in *; by rewrite <- Hp.
Qed.

Lemma fake_books_same f f' :
  fake_accounts f' = fake_accounts f → fake_transfers f' = fake_transfers f → fake_wf f' →
  fake_books f → fake_books f'.
Proof.
  intros Ha Ht Hwf [_ Hp Hf]. unfold fake_journal in *. split; cbn in *; unfold fake_journal; rewrite ?Ha, ?Ht; done.
Qed.

Lemma newFakeLedger_books now : fake_books (newFakeLedger now).
Proof. split; [apply newFakeLedger_wf|..]; cbn; intros *; by rewrite ?lookup_empty, ?elem_of_nil. Qed.

(** An account without balances. *)
Definition unfunded a : Prop :=
  Account_DebitsPending a = Uint128_zero ∧ Account_DebitsPosted a = Uint128_zero ∧
  Account_CreditsPending a = Uint128_zero ∧ Account_CreditsPosted a = Uint128_zero.

Lemma unfunded_books js a ts :
  unfunded a → (∀ t, t ∈ js → Transfer_DebitAccountID t ≠ Account_ID a ∧ Transfer_CreditAccountID t ≠ Account_ID a) →
  account_books js (set_timestamp a ts).
Proof.
  intros (H1 & H2 & H3 & H4) Hjs. split; cbn; rewrite ?H1, ?H2, ?H3, ?H4, ?BigInt_zero.
  1-4: symmetry; apply flow_none; intros t [Hd Hc]%Hjs; unfold debits, credits;
    rewrite bool_decide_eq_false_2 by done; apply andb_false_r.
  unfold flag_respected. cbn. by rewrite ?H1, ?H2, ?H3, ?H4, ?BigInt_zero.
Qed.

Lemma create_account_books f a :
  unfunded a → fake_books f → fake_books (snd (fakeLedger_CreateAccount a f)).
Proof.
  intros Hz Hb. pose proof (fake_create_account_ok f a (fb_wf f Hb)) as Hok. revert Hok.
  unfold fakeLedger_CreateAccount. destruct (fake_accounts f !! _) eqn:Hnone; [done|]. cbn [snd].
  intros (Hwf & _ & _). destruct Hb as [_ Hp Hf]. cbn in Hp, Hf.
  split; [done|..]; unfold fake_journal in *; cbn.
  - intros t Ht. destruct (Hp t Ht). split; by apply lookup_insert_is_Some'; right.
  - intros Htwo Hm id b [[Hid <-]|[Hid Hlook]]%lookup_insert_Some; [|by eapply Hf].
    apply unfunded_books; [done|]. intros t Ht. destruct (Hp t Ht) as [[x Hx] [y Hy]].
    split; intros Heq; rewrite Heq in *; congruence.
Qed.

Lemma stamped_books t ts js a : account_books (t :: js) a → account_books (set_transfer_timestamp t ts :: js) a.
Proof. intros []. by split. Qed.

Lemma committed_journal t debit credit amount f :
  transfer_of f (Transfer_ID t) = None →
  fake_journal (committed t debit credit amount f) ≡ₚ
    set_transfer_timestamp t (uint64 (fake_timestamp f + 1)) :: fake_journal f.
Proof. intros Hnone. unfold fake_journal. cbn. by rewrite map_to_list_insert. Qed.

(** The accounts after a commit. *)
Lemma committed_account t debit credit amount f id a :
  fake_wf f → account_of f (Transfer_DebitAccountID t) = Some debit →
  account_of f (Transfer_CreditAccountID t) = Some credit →
  account_of (committed t debit credit amount f) id = Some a →
  Account_ID debit = Transfer_DebitAccountID t ∧ Account_ID credit = Transfer_CreditAccountID t ∧
  (a = credited (is_pending t) credit amount ∨
   Transfer_CreditAccountID t ≠ id ∧
   (a = debited (is_pending t) debit amount ∨
    Transfer_DebitAccountID t ≠ id ∧ account_of f id = Some a ∧ Account_ID a = id)).
Proof.
  intros Hwf Hd Hc Ha. pose proof (account_key f _ _ Hwf Hd) as Hdi. pose proof (account_key f _ _ Hwf Hc) as Hci.
  split_and!; [done|done|]. revert Ha. cbn.
  rewrite <- (sd_id _ _ (proj1 (debited_def _ debit amount))), <- (sd_id _ _ (proj1 (credited_def _ credit amount))).
  rewrite Hdi, Hci. intros [[_ <-]|[Hne [[_ <-]|[Hne' Ha]]%lookup_insert_Some]]%lookup_insert_Some; [by left|..].
  - right. split; [congruence|by left].
  - right. split; [congruence|]. right. split_and!; [congruence|done|by apply (account_key f)].
Qed.

Lemma committed_books t debit credit f :
  fake_books f → fake_wf (committed t debit credit (cents t) f) → transfer_of f (Transfer_ID t) = None →
  account_of f (Transfer_DebitAccountID t) = Some debit →
  account_of f (Transfer_CreditAccountID t) = Some credit →
  exceeds_credits debit (cents t) = false → exceeds_debits credit (cents t) = false →
  fake_books (committed t debit credit (cents t) f).
Proof.
  intros [Hwf Hp Hf] Hwf' Hnone Hd Hc Hxd Hxc.
  pose proof (committed_journal t debit credit (cents t) f Hnone) as Hj.
  assert (∀ id, is_Some (account_of f id) → is_Some (account_of (committed t debit credit (cents t) f) id)) as Hkeep.
  { intros id [a Ha]. pose proof (committed_defs t debit credit (cents t) f Hwf Hd Hc (Uint128_String id)) as H.
    change (account_of f id) with (fake_accounts f !! Uint128_String id) in Ha. rewrite Ha in H.
    change (is_Some (fake_accounts (committed t debit credit (cents t) f) !! Uint128_String id)).
    destruct (fake_accounts (committed _ _ _ _ _) !! _); [by eexists|done]. }
  split; [done|..].
  - intros u Hu. rewrite Hj in Hu. apply elem_of_cons in Hu as [->|Hu].
    + split; apply Hkeep; by eexists.
    + destruct (Hp u Hu). split; by apply Hkeep.
  - intros Htwo Hm id a Ha. apply (books_permutation _ _ a (symmetry Hj)), stamped_books.
    assert (moved (fake_journal f) + cents t < 2 ^ 64) as Hlt.
    { unfold moved in *. rewrite Hj, total_cons in Hm. change (cents (set_transfer_timestamp _ _)) with (cents t) in Hm. lia. }
    pose proof (cents_nonneg t).
    specialize (Hf ltac:(intros u Hu; apply Htwo; rewrite Hj; by right) ltac:(lia)).
    assert (Transfer_DebitAccountID t ≠ Transfer_CreditAccountID t) as Hne
      by (apply (Htwo (set_transfer_timestamp t (uint64 (fake_timestamp f + 1)))); rewrite Hj; left).
    destruct (committed_account t debit credit _ f id a Hwf Hd Hc Ha)
      as (Hdi & Hci & [->|[Hnc [->|(Hnd & Ha' & Hid)]]]).
    + apply credited_books; [by eapply Hf|congruence..|done|done].
    + apply debited_books; [by eapply Hf|congruence..|done|done].
    + apply untouched_books; [by eapply Hf|congruence..].
Qed.

Lemma create_transfer_books f t : fake_books f → fake_books (snd (fakeLedger_CreateTransfer t f)).
Proof.
  intros Hb. pose proof (fake_create_transfer_ok f t (fb_wf f Hb)) as [Hwf _]. revert Hwf.
  unfold fakeLedger_CreateTransfer.
  destruct (default false _); [done|]. destruct (fake_transfers f !! _) eqn:Hnone; [done|].
  destruct (fake_accounts f !! Uint128_String (Transfer_DebitAccountID t)) as [debit|] eqn:Hd;
    [|intros; by apply (fake_books_same f)].
  destruct (fake_accounts f !! Uint128_String (Transfer_CreditAccountID t)) as [credit|] eqn:Hc;
    [|intros; by apply (fake_books_same f)].
  rewrite Uint64_value. destruct (Z.eqb_spec (Uint128_BigInt (Transfer_Amount t) / 2 ^ 64) 0) as [Hh|]; [|done].
  cbn [negb]. rewrite Z.mod_small by (pose proof (BigInt_range (Transfer_Amount t)); apply Z.div_small_iff in Hh; lia).
  change (Uint128_BigInt (Transfer_Amount t)) with (cents t).
  destruct (exceeds_credits debit (cents t)) eqn:Hxd; [intros; by apply (fake_books_same f)|].
  destruct (exceeds_debits credit (cents t)) eqn:Hxc; [intros; by apply (fake_books_same f)|].
  intros Hwf. by apply committed_books.
Qed.

(** Every effect that submits unfunded accounts only. *)
Lemma handle_books env {X} (e : eff X) g (w : World fakeLedger) :
  (∀ a, may_account g a → unfunded a) → granted g e →
  fake_books (w_ledger w) → fake_books (w_ledger (snd (handle env e w))).
Proof.
  intros Hg He Hb. destruct e; cbn in He |- *; try done.
  - pose proof (create_account_books (w_ledger w) account (Hg _ He) Hb) as Hb'.
    by destruct (fakeLedger_CreateAccount account (w_ledger w)).
  - pose proof (create_transfer_books (w_ledger w) transfer Hb) as Hb'.
    by destruct (fakeLedger_CreateTransfer transfer (w_ledger w)).
  - by destruct (metadataCache_Store _ _ _).
Qed.

Lemma asks_account_unfunded s q a : asks_account s q a → unfunded a.
Proof.
  destruct q; cbn; try done.
  - by intros (kind & id & _ & (_ & _ & _ & _ & ->)%ledger_Account_Some).
  - by intros (id & parent & _ & _ & (_ & _ & _ & _ & ->)%ledger_Account_Some).
Qed.
End books.

(** ** Every interleaving on the test ledger *)
Section system.
Context {sdk : SDK} {laws : SDKLaws sdk} (s : Service).

(** Only this service writes to the ledger. *)
Definition sole_writer (f : fakeLedger) : Prop := ∀ t, t ∈ fake_journal f → Transfer_Ledger t = ledgerID s.

Lemma reachable_books env qs (w : World fakeLedger) ts w' :
  fake_books (w_ledger w) → reachable s env qs w ts w' → fake_books (w_ledger w').
Proof.
  intros Hb Hreach.
  apply (pool_granted env (grants_of s <$> qs) (λ w, fake_books (w_ledger w)) (handlers s qs, w) (ts, w'));
    [|exact Hreach|apply handlers_submit|exact Hb].
  intros X e g w1 Hg He. apply (handle_books env e g); [|done].
  apply list_elem_of_fmap in Hg as (q & -> & _). apply asks_account_unfunded.
Qed.

Lemma reachable_sole_writer env qs (w : World fakeLedger) ts w' :
  env_ok env → service_inv s (w_ledger w) (w_cache w) → sole_writer (w_ledger w) →
  reachable s env qs w ts w' → sole_writer (w_ledger w').
Proof.
  intros Henv Hinv Hown Hreach t Ht.
  destruct (reachable_ok s env qs w ts w' Henv Hinv Hreach) as [[Hinv' _] [_ Hext]].
  apply (fake_journal_elem _ _ (inv_wf _ _ _ Hinv')) in Ht.
  destruct (transfer_of (w_ledger w) (Transfer_ID t)) as [u|] eqn:Hu.
  - apply Hown, fake_journal_elem; [apply (inv_wf _ _ _ Hinv)|].
    pose proof (Hext _ _ Hu) as Hu'. change (transfer_of (w_ledger w') (Transfer_ID t) = Some t) in Ht.
    assert (u = t) as <- by congruence. exact Hu.
  - destruct (pool_provenance env (grants_of s <$> qs) (w_ledger w) _ _ Hreach) as [Hnew _];
      [apply handlers_submit|by apply Forall_fmap, Forall_true, grants_of_ordinary
      |apply (inv_wf _ _ _ Hinv)|apply provenance_refl|].
    destruct (Hnew _ t Ht Hu) as (g & t0 & Hg & Hask & [[] _]).
    apply list_elem_of_fmap in Hg as (q & -> & _). pose proof (asks_transfer_ledger s q t0 Hask). congruence.
Qed.

(** The posted balance the service reports of an account. *)
Definition reported (f : fakeLedger) (id : Uint128) : Z :=
  match account_of f id with
  | None => 0
  | Some a => match metadataForAccount s a with
              | None => 0
              | Some md => fst (balances a (metadata_kind md))
              end
  end.

Lemma reported_net f js id md :
  (∀ a, account_of f id = Some a → account_books js a ∧ Account_ID a = id) →
  known s f id md → metadata_kind md ≠ AccountSafeguardedCash → reported f id = net id js.
Proof.
  intros Hb (a & Ha & Hmd) Hk. unfold reported. rewrite Ha, Hmd, balances_spec.
  rewrite bool_decide_eq_false_2 by done. destruct (Hb a Ha) as [[_ Hdpo _ Hcpo _] <-].
  cbn [fst]. by rewrite Hdpo, Hcpo.
Qed.
End system.

(** C39: The test ledger keeps the books.  In every interleaving of the service on
    the repository's test ledger, as long as fewer than 2^64 cents were moved in
    all: the pending and posted figures of every account are exactly the sums of
    the journal, its flag is respected, so 0 ≤ available ≤ posted in what the
    service reports; and the posted balances the service reports for a corporate
    wallet and its cards add up to the top-ups less the withdrawals. *)
Theorem test_ledger_keeps_the_books {sdk : SDK} {laws : SDKLaws sdk} s env qs (w : World fakeLedger) ts w' :
  env_ok env → service_inv s (w_ledger w) (w_cache w) → fake_books (w_ledger w) →
  sole_writer s (w_ledger w) → reachable s env qs w ts w' →
  let f := w_ledger w' in let js := fake_journal f in
  moved js < 2 ^ 64 →
  (∀ id a md, account_of f id = Some a → metadataForAccount s a = Some md →
     account_books js a ∧ 0 ≤ snd (balances a (metadata_kind md)) ≤ fst (balances a (metadata_kind md))) ∧
  (∀ corporate, known_kind s f corporate AccountCorporateWallet →
     total (reported s f) (corporate :: fake_cards s f corporate) =
       topped_up corporate js - withdrawn corporate js).
Proof.
  intros Henv Hinv Hb Hown Hreach f js Hm.
  destruct (reachable_ok s env qs w ts w' Henv Hinv Hreach) as [[Hinv' _] _]. cbn [fst snd] in Hinv'.
  pose proof (inv_wf _ _ _ Hinv') as Hwf.
  assert (journal s f js) as Hj.
  { apply fake_journal_lists; [exact Hwf|exact (reachable_sole_writer s env qs w ts w' Henv Hinv Hown Hreach)]. }
  assert (∀ id a, account_of f id = Some a → account_books js a) as Hbooks.
  { apply (fb_figures f); [by eapply reachable_books|intros t Ht|exact Hm].
    by eapply conforms_parties, journal_conforms. }
  split.
  - intros id a md Ha Hmd. pose proof (Hbooks id a Ha) as Ha'. split; [done|].
    by eapply available_balance_bounds, books_flags.
  - intros corporate Hk. pose proof (fake_family s f corporate Hwf Hk) as Hfam.
    rewrite <- (family_net s f _ js corporate _ Hinv' Hj Hfam). apply total_ext. intros id Hid.
    assert (∃ md, known s f id md ∧ metadata_kind md ≠ AccountSafeguardedCash) as (md & Hknown & Hne).
    { apply elem_of_cons in Hid as [->|Hid]; [destruct Hk as (md & ? & Hkind); exists md; split; [done|by rewrite Hkind]|].
      apply (family_cards s f corporate _ Hfam) in Hid. by eexists. }
    apply (reported_net s f js id md); [|done..]. intros a Ha. split; [by eapply Hbooks|by eapply account_key].
Qed.

(** From an empty ledger: the accounts are made and funded, then an authorization
    on the card races with a withdrawal from the wallet. *)
Definition first_requests : list request :=
  [ReqEnsureSystemAccounts; ReqCreateAccount corporate_request; ReqCreateAccount card_request;
   ReqTopUp topup_request; ReqAllocateToCard allocation_request;
   ReqAuthorize None auth_request; ReqWithdraw withdrawal_request].
Definition first_run : list (prog response) * World fakeLedger :=
  exec test_env (concat (replicate 40 <$> seq 0 5) ++ concat (replicate 40 [5; 6]%nat))
    (handlers (service 100000) first_requests, new_world 100000).

Lemma test_ledger_keeps_the_books_witness :
  total (reported (service 100000) (w_ledger (snd first_run)))
    (hex testCorporateAccountID :: fake_cards (service 100000) (w_ledger (snd first_run)) (hex testCorporateAccountID)) =
  topped_up (hex testCorporateAccountID) (fake_journal (w_ledger (snd first_run))) -
  withdrawn (hex testCorporateAccountID) (fake_journal (w_ledger (snd first_run))).
Proof.
  refine (proj2 (test_ledger_keeps_the_books (laws := ModelSDK_laws) (service 100000) test_env first_requests
    (new_world 100000) (fst first_run) (snd first_run) test_env_ok (new_world_inv 100000) _ _ _ _)
    (hex testCorporateAccountID) _).
  - apply newFakeLedger_books.
  - by intros t Ht%elem_of_nil.
  - unfold reachable, first_run. rewrite <- surjective_pairing. apply exec_steps.
  - apply Z.ltb_lt. by_computation.
  - apply stored_known. by_computation.
Defined.

(** The figures: 1000 topped up, 100 withdrawn, 300 - 100 on the wallet and 700 on the card. *)
Example first_run_figures :
  let f := w_ledger (snd first_run) in
  (topped_up (hex testCorporateAccountID) (fake_journal f), withdrawn (hex testCorporateAccountID) (fake_journal f),
   reported (service 100000) f (hex testCorporateAccountID), reported (service 100000) f (hex testCardAccountID),
   debits_pending (hex testCardAccountID) (fake_journal f)) = (1000, 100, 200, 700, 600).
Proof. vm_compute. reflexivity. Qed.

(** ** The bound is needed

    The checks of the test ledger add in 64 bits: after a withdrawal of one cent,
    one of 2^64 - 1 cents wraps to a sum of zero and is posted, where the cluster
    would answer [TransferExceedsCredits]. *)
Definition largest_withdrawal := mkWithdrawalRequest "a7" testCorporateAccountID (2 ^ 64 - 1).
Definition cent_withdrawal := mkWithdrawalRequest "a6" testCorporateAccountID 1.
Definition world_wrapped : World fakeLedger :=
  snd_run (Withdraw (service 100000) largest_withdrawal)
    (snd_run (Withdraw (service 100000) cent_withdrawal) world_funded).

Theorem test_ledger_check_wraps :
  outcome_of TransactionResponse_Status
    (fst_run (Withdraw (service 100000) largest_withdrawal)
       (snd_run (Withdraw (service 100000) cent_withdrawal) world_funded)) = Some (inr ("posted", 200)) ∧
  posted_of testCorporateAccountID world_wrapped = Some ("1000", "1000") ∧
  net (hex testCorporateAccountID) (fake_journal (w_ledger world_wrapped)) = 1000 - 2 ^ 64.
Proof. split_and!; by_computation. Qed.
