(* ===== verification/Http.v ===== *)
(** * Writing HTTP responses

    The interface [http.ResponseWriter] as a class with its two
    implementations - the connection of [net/http] and the [statusWriter] of
    [internal/observability/metrics.go] - and [writeJSON] and [writeError] of
    [internal/httpapi/server.go], which write through the interface. *)
From S2P Require Import Prelude GoBase Domain.
Import GoError GoTime.
Local Open Scope Z_scope.

(** The code [writeError] answers a canceled request with. *)
Definition StatusClientClosedRequest : Z := 499.

(** The values [writeJSON] encodes: the response structs, and the two maps of
    the health endpoints. *)
Record readyBody := mkReadyBody {
  ready_status : string;
  ready_reason : option string;
  ready_calls_in_flight : Z;
  ready_oldest_call_ms : Z;
  ready_last_success : option Time }.
Inductive body :=
| BodyAccount (r : AccountResponse)
| BodyBalance (r : BalanceResponse)
| BodyTransaction (r : TransactionResponse)
| BodyAuthorization (r : AuthorizationResponse)
| BodyIncrement (r : IncrementAuthorizationResponse)
| BodyError (r : ErrorResponse)
| BodyLive (status : string)
| BodyReady (r : readyBody)
| BodyText (text : string).

(** ** [http.ResponseWriter] *)
Class ResponseWriter (W : Type) := {
  Header_Set : string → string → W → W;
  WriteHeader : Z → W → W;
  Write : body → W → W;
}.

(** [net/http]'s writer of one response: the header map, the status line and
    headers once they are sent, and what was written to the body.  Only the
    first [WriteHeader] counts, and a write without one sends 200.  (A status
    outside 100..999 would panic; the statuses of the program are constants.  For a
    [HEAD] request the server sends the status line and the headers, and drops what
    was written to the body.) *)
Record connection := mkConnection {
  conn_header : gmap string string;
  conn_sent : option (Z * gmap string string);
  conn_body : list body }.
Definition new_connection : connection := mkConnection ∅ None [].

Definition connection_WriteHeader (status : Z) (c : connection) : connection :=
  match conn_sent c with
  | Some _ => c
  | None => mkConnection (conn_header c) (Some (status, conn_header c)) (conn_body c)
  end.
#[export] Instance connection_writer : ResponseWriter connection := {|
  Header_Set key value c :=
    mkConnection (<[key := value]> (conn_header c)) (conn_sent c) (conn_body c);
  WriteHeader := connection_WriteHeader;
  Write b c :=
    let c := connection_WriteHeader 200 c in
    mkConnection (conn_header c) (conn_sent c) (conn_body c ++ [b]) |}.

(** ** [statusWriter] *)
Section status_writer.
Context {W : Type} {writer : ResponseWriter W}.

Record statusWriter := mkStatusWriter {
  sw_ResponseWriter : W;
  sw_status : Z;
  sw_wroteHeader : bool }.

Definition statusWriter_WriteHeader (status : Z) (w : statusWriter) : statusWriter :=
  if sw_wroteHeader w then w
  else mkStatusWriter (WriteHeader status (sw_ResponseWriter w)) status true.
Definition statusWriter_Write (b : body) (w : statusWriter) : statusWriter :=
  let w := if negb (sw_wroteHeader w) then statusWriter_WriteHeader 200 w else w in
  mkStatusWriter (Write b (sw_ResponseWriter w)) (sw_status w) (sw_wroteHeader w).

(** [Header] is the embedded writer's. *)
#[export] Instance statusWriter_writer : ResponseWriter statusWriter := {|
  Header_Set key value w :=
    mkStatusWriter (Header_Set key value (sw_ResponseWriter w)) (sw_status w) (sw_wroteHeader w);
  WriteHeader := statusWriter_WriteHeader;
  Write := statusWriter_Write |}.
End status_writer.
Arguments statusWriter W : clear implicits.

(** ** Writing a response *)
Section write.
Context {W : Type} {writer : ResponseWriter W}.

(** The encoder writes the value in one call; its error is dropped. *)
Definition writeJSON (status : Z) (b : body) (w : W) : W :=
  Write b (WriteHeader status (Header_Set "Content-Type" "application/json" w)).

(** The [switch] of [writeError]: status, code and message of an error. *)
Definition error_reply (err : error) : Z * string * string :=
  if Is err ErrInvalidRequest then (StatusBadRequest, "invalid_request", Error err)
  else if Is err ErrIdempotencyConflict then (StatusConflict, "idempotency_conflict", Error err)
  else if Is err ErrAccountNotFound then (StatusNotFound, "account_not_found", Error err)
  else if Is err ErrAuthorizationNotFound then (StatusNotFound, "authorization_not_found", Error err)
  else if Is err context_Canceled
  then (StatusClientClosedRequest, "request_canceled", "the request was canceled")
  else if Is err context_DeadlineExceeded
  then (StatusGatewayTimeout, "deadline_exceeded", "the request deadline elapsed")
  else (StatusServiceUnavailable, "dependency_unavailable",
        "a required dependency is unavailable; retry the same request").
Definition writeError (err : error) (w : W) : W :=
  let '(status, code, message) := error_reply err in
  writeJSON status (BodyError (mkErrorResponse "error" code message)) w.
End write.

(** ** What is sent *)

(** A complete response: one status line, JSON, one body. *)
Definition responded (status : Z) (headers : gmap string string) (b : body) (c : connection) : Prop :=
  conn_sent c = Some (status, headers) ∧ conn_body c = [b].

Definition json_headers : gmap string string := {[ "Content-Type" := "application/json" ]}.
Definition retry_headers : gmap string string :=
  <["Content-Type" := "application/json"]> {[ "Retry-After" := "1" ]}.

Lemma writeJSON_responded status b : responded status json_headers b (writeJSON status b new_connection).
Proof. done. Qed.

(** A recorder passes the response on and knows its status. *)
Definition recorder : statusWriter connection := mkStatusWriter new_connection 200 false.

Lemma recorder_writeJSON status b :
  let w := writeJSON status b recorder in
  responded status json_headers b (sw_ResponseWriter w) ∧ sw_status w = status.
Proof. done. Qed.

(** The status the middleware counts is the one the client was sent. *)
Definition recorder_ok (w : statusWriter connection) : Prop :=
  match conn_sent (sw_ResponseWriter w) with
  | Some (status, _) => sw_wroteHeader w = true ∧ sw_status w = status
  | None => sw_wroteHeader w = false ∧ sw_status w = 200 ∧ conn_body (sw_ResponseWriter w) = []
  end.

Lemma recorder_ok_Set key value w : recorder_ok w → recorder_ok (Header_Set key value w).
Proof. done. Qed.
Lemma recorder_ok_WriteHeader status w : recorder_ok w → recorder_ok (WriteHeader status w).
Proof.
  destruct w as [[h [[st hs]|] b] status' wrote]; unfold recorder_ok; cbn.
  - intros [-> ->]. done.
  - intros [-> _]. done.
Qed.
Lemma recorder_ok_Write b w : recorder_ok w → recorder_ok (Write b w).
Proof.
  destruct w as [[h [[st hs]|] bs] status' wrote]; unfold recorder_ok; cbn.
  - intros [-> ->]. done.
  - intros [-> _]. done.
Qed.
