(* ===== verification/HttpProgram.v ===== *)
(** * Effects of the HTTP layer

    A request handler is a program [hprog]: a tree of effects - those of the
    service, the admission channel, the metrics of the HTTP layer, the log of
    panics - that ends with a value or with a panic.  A panic carries the
    connection as the handler left it, because [recoverPanics] writes to it.
    [deferred] runs a deferred function on both ends, [recovered] stops a panic. *)
From S2P Require Import Prelude GoBase Domain TigerBeetle LedgerModel Cache Health Interface Http.
Import GoError GoTime.

Section programs.
Context {sdk : SDK}.

Inductive heff : Type → Type :=
| ServiceEffect {X : Type} (e : eff X) : heff X
| TryAcquire : heff bool   (* select { case a.slots <- struct{}{}: ... default: ... } *)
| ReleaseSlot : heff unit  (* <-a.slots *)
| GaugeInc : heff unit
| GaugeDec : heff unit
| CountRejection (reason : string) : heff unit
| CountHTTP (method route : string) (status : Z) : heff unit
| LogPanic (path : string) : heff unit.

Inductive hprog (A : Type) : Type :=
| HRet (a : A)
| HPanic (c : connection)
| HCall {X : Type} (e : heff X) (k : X → hprog A).
Global Arguments HRet {A} a.
Global Arguments HPanic {A} c.
Global Arguments HCall {A X} e k.

Fixpoint hbind {A B} (p : hprog A) (f : A → hprog B) : hprog B :=
  match p with
  | HRet a => f a
  | HPanic c => HPanic c
  | HCall e k => HCall e (λ x, hbind (k x) f)
  end.
Definition hcall {X} (e : heff X) : hprog X := HCall e HRet.

(** [defer cleanup(); p] *)
Fixpoint deferred {A} (p : hprog A) (cleanup : hprog unit) : hprog A :=
  match p with
  | HRet a => hbind cleanup (λ _, HRet a)
  | HPanic c => hbind cleanup (λ _, HPanic c)
  | HCall e k => HCall e (λ x, deferred (k x) cleanup)
  end.

(** [defer func() { if recover() != nil { handler } }(); p] *)
Fixpoint recovered {A} (p : hprog A) (handler : connection → hprog A) : hprog A :=
  match p with
  | HRet a => HRet a
  | HPanic c => handler c
  | HCall e k => HCall e (λ x, recovered (k x) handler)
  end.

(** A call of a service method from a handler that has not written to [c] since. *)
Fixpoint in_service {A B} (c : connection) (p : prog A) (k : A → hprog B) : hprog B :=
  match p with
  | Ret a => k a
  | Panic => HPanic c
  | Call e f => HCall (ServiceEffect e) (λ x, in_service c (f x) k)
  end.
End programs.

Declare Scope http_scope.
Delimit Scope http_scope with http.
Notation "x <- p ;; q" := (hbind p (λ x, q))
  (at level 100, p at next level, right associativity) : http_scope.
Notation "p ;; q" := (hbind p (λ _, q)) (at level 100, right associativity) : http_scope.
