(* ===== verification/Admission.v ===== *)
(** * [internal/httpapi/admission.go] and the metrics of the HTTP layer

    [Wrap] admits a request to the ledger routes when the ledger is ready and a
    slot is free; [admissionController] is its shared state.  [HTTPMiddleware]
    and the admission instruments are those of
    [internal/observability/metrics.go]. *)
From S2P Require Import Prelude GoBase Domain TigerBeetle LedgerModel Cache Health Interface Service.
From S2P Require Import Http HttpProgram.
Import GoError GoTime.
Local Open Scope Z_scope.
Local Open Scope http_scope.

(** The channel [slots], by its length and its capacity, and the instruments:
    the gauge [admissionInFlight], the counters [admissionRejected] and [http]
    as the labels they were incremented with. *)
Record admissionController := mkAdmissionController {
  slots : Z;
  limit : Z;
  admissionInFlight : Z;
  admissionRejected : list string;
  http_requests : list (string * string * Z) }.

(** [make(chan struct{}, limit)] panics on a negative capacity. *)
Definition newAdmissionController (limit : Z) : option admissionController :=
  if limit <? 0 then None else Some (mkAdmissionController 0 limit 0 [] []).

Definition try_acquire (a : admissionController) : bool * admissionController :=
  if slots a <? limit a
  then (true, mkAdmissionController (slots a + 1) (limit a) (admissionInFlight a)
                (admissionRejected a) (http_requests a))
  else (false, a).
(** A receive from an empty channel blocks. *)
Definition release (a : admissionController) : option admissionController :=
  if 0 <? slots a
  then Some (mkAdmissionController (slots a - 1) (limit a) (admissionInFlight a)
               (admissionRejected a) (http_requests a))
  else None.
Definition BeginAdmission (a : admissionController) : admissionController :=
  mkAdmissionController (slots a) (limit a) (admissionInFlight a + 1) (admissionRejected a) (http_requests a).
Definition EndAdmission (a : admissionController) : admissionController :=
  mkAdmissionController (slots a) (limit a) (admissionInFlight a - 1) (admissionRejected a) (http_requests a).
Definition ObserveAdmissionRejection (reason : string) (a : admissionController) : admissionController :=
  mkAdmissionController (slots a) (limit a) (admissionInFlight a) (admissionRejected a ++ [reason])
    (http_requests a).
Definition observe_http (method route : string) (status : Z) (a : admissionController) : admissionController :=
  mkAdmissionController (slots a) (limit a) (admissionInFlight a) (admissionRejected a)
    (http_requests a ++ [(method, route, status)]).

Section wrap.
Context {sdk : SDK}.

(** An [http.Handler] writing through a recorder. *)
Definition handler := statusWriter connection → hprog (statusWriter connection).

Definition reject (reason code message : string) (w : statusWriter connection) :
    hprog (statusWriter connection) :=
  hcall (CountRejection reason) ;;
  let w := Header_Set "Retry-After" "1" w in
  HRet (writeJSON StatusServiceUnavailable (BodyError (mkErrorResponse "error" code message)) w).

(** The deferred function of an admitted request. *)
Definition leave : hprog unit := hcall ReleaseSlot ;; hcall GaugeDec.

Definition Wrap (ledgerReady : prog bool) (next : handler) : handler := λ w,
  in_service (sw_ResponseWriter w) ledgerReady (λ ready,
  if negb ready then
    reject "ledger_stalled" "ledger_stalled" "the ledger is not responding; retry the same request" w
  else
    acquired <- hcall TryAcquire ;;
    if acquired : bool then
      hcall GaugeInc ;; deferred (next w) leave
    else
      reject "capacity" "overloaded" "too many operations are in flight; retry the same request" w).

(** [HTTPMiddleware]: the counter is skipped when the handler panics. *)
Definition HTTPMiddleware (method route : string) (next : handler) (c : connection) :
    hprog connection :=
  let capture := mkStatusWriter c StatusOK false in
  w <- next capture ;;
  hcall (CountHTTP method route (sw_status w)) ;;
  HRet (sw_ResponseWriter w).
End wrap.
