(* ===== verification/HttpSemantics.v ===== *)
(** * Concurrent HTTP requests

    The shared state of the HTTP layer, the atomic action of every effect, the
    interleaving of any number of handler programs, and a rely-guarantee
    condition [hok] that accounts for the admission slots and the gauge by a
    ghost state per request - whether it holds a slot, whether it is counted -
    and under which no panic is logged. *)
From S2P Require Import Prelude GoBase Domain TigerBeetle LedgerModel Cache Health Interface Semantics.
From S2P Require Import Http HttpProgram Admission.
Import GoError GoTime.
Local Open Scope Z_scope.

Section semantics.
Context {sdk : SDK} {L : Type} {ledger : Ledger L}.

Record HWorld := mkHWorld {
  h_world : World L;
  h_admission : admissionController;
  h_panics : list string }.

Definition on_admission (f : admissionController → admissionController) (w : HWorld) : HWorld :=
  mkHWorld (h_world w) (f (h_admission w)) (h_panics w).

(** [None] is an effect that blocks. *)
Definition hhandle (env : Env) {X} (e : heff X) : HWorld → option (X * HWorld) :=
  match e in heff X return HWorld → option (X * HWorld) with
  | ServiceEffect e => λ w,
      let '(x, w') := handle env e (h_world w) in Some (x, mkHWorld w' (h_admission w) (h_panics w))
  | TryAcquire => λ w,
      let '(acquired, a) := try_acquire (h_admission w) in
      Some (acquired, mkHWorld (h_world w) a (h_panics w))
  | ReleaseSlot => λ w,
      a ← release (h_admission w); Some (tt, mkHWorld (h_world w) a (h_panics w))
  | GaugeInc => λ w, Some (tt, on_admission BeginAdmission w)
  | GaugeDec => λ w, Some (tt, on_admission EndAdmission w)
  | CountRejection reason => λ w, Some (tt, on_admission (ObserveAdmissionRejection reason) w)
  | CountHTTP method route status => λ w, Some (tt, on_admission (observe_http method route status) w)
  | LogPanic path => λ w, Some (tt, mkHWorld (h_world w) (h_admission w) (h_panics w ++ [path]))
  end.

Inductive hpool_step (env : Env) {A} : list (hprog A) * HWorld → list (hprog A) * HWorld → Prop :=
| hpool_call ts i X (e : heff X) k w x w' :
    ts !! i = Some (HCall e k) → hhandle env e w = Some (x, w') →
    hpool_step env (ts, w) (<[i := k x]> ts, w').
Definition hpool_steps (env : Env) {A} := rtc (@hpool_step env A).

(** A schedule made executable. *)
Definition hstep_at (env : Env) {A} (i : nat) (cfg : list (hprog A) * HWorld) : list (hprog A) * HWorld :=
  match fst cfg !! i with
  | Some (HCall e k) =>
      match hhandle env e (snd cfg) with
      | Some (x, w) => (<[i := k x]> (fst cfg), w)
      | None => cfg
      end
  | _ => cfg
  end.
Definition hexec (env : Env) {A} (schedule : list nat) (cfg : list (hprog A) * HWorld) :
    list (hprog A) * HWorld := foldl (λ cfg i, hstep_at env i cfg) cfg schedule.

Lemma hexec_steps env {A} schedule (cfg : list (hprog A) * HWorld) :
  hpool_steps env cfg (hexec env schedule cfg).
Proof.
  revert cfg. induction schedule as [|i schedule IH]; intros cfg; [constructor|]. cbn.
  etransitivity; [|apply IH]. unfold hstep_at. destruct cfg as [ts w]. cbn.
  destruct (ts !! i) as [[a|c|X e k]|] eqn:Hi; [constructor..| |constructor].
  destruct (hhandle env e w) as [[x w']|] eqn:Hh; [|constructor]. apply rtc_once. by econstructor.
Qed.

(** ** A request alone *)
Inductive outcome A := Returned (a : A) | Panicked (c : connection).
Arguments Returned {A} a.
Arguments Panicked {A} c.

(** [None] if it blocks. *)
Fixpoint hrun (env : Env) {A} (p : hprog A) (w : HWorld) : option (outcome A * HWorld) :=
  match p with
  | HRet a => Some (Returned a, w)
  | HPanic c => Some (Panicked c, w)
  | HCall e k => '(x, w') ← hhandle env e w; hrun env (k x) w'
  end.

Lemma hrun_bind env {A B} (p : hprog A) (f : A → hprog B) w :
  hrun env (hbind p f) w =
  '(o, w') ← hrun env p w;
  match o with Returned a => hrun env (f a) w' | Panicked c => Some (Panicked c, w') end.
Proof.
  revert w. induction p as [a|c|X e k IH]; intros w; cbn; [done..|].
  destruct (hhandle env e w) as [[x w']|]; cbn; [apply IH|done].
Qed.
Lemma hrun_deferred env {A} (p : hprog A) cleanup w :
  hrun env (deferred p cleanup) w =
  '(o, w1) ← hrun env p w;
  '(o', w2) ← hrun env cleanup w1;
  match o' with Returned _ => Some (o, w2) | Panicked c => Some (Panicked c, w2) end.
Proof.
  revert w. induction p as [a|c|X e k IH]; intros w; cbn.
  1,2: by rewrite hrun_bind.
  destruct (hhandle env e w) as [[x w']|]; cbn; [apply IH|done].
Qed.
Lemma hrun_recovered env {A} (p : hprog A) handler w :
  hrun env (recovered p handler) w =
  '(o, w') ← hrun env p w;
  match o with Returned a => Some (Returned a, w') | Panicked c => hrun env (handler c) w' end.
Proof.
  revert w. induction p as [a|c|X e k IH]; intros w; cbn; [done..|].
  destruct (hhandle env e w) as [[x w']|]; cbn; [apply IH|done].
Qed.
Lemma hrun_in_service env {A B} c (p : prog A) (k : A → hprog B) w :
  hrun env (in_service c p k) w =
  let '(r, w1) := run env p (h_world w) in
  let w' := mkHWorld w1 (h_admission w) (h_panics w) in
  match r with Some a => hrun env (k a) w' | None => Some (Panicked c, w') end.
Proof.
  revert w. induction p as [a| |X e f IH]; intros [w a' ps]; cbn; [done..|].
  destruct (handle env e w) as [x w1]; cbn. rewrite IH. cbn. done.
Qed.

(** No execution is infinite. *)
Definition hsubtree {A} (p p' : hprog A) : Prop :=
  match p with HCall e k => ∃ x, p' = k x | _ => False end.
Lemma hsubtree_acc {A} (p : hprog A) : Acc (λ p' p, hsubtree p p') p.
Proof.
  induction p as [a|c|X e k IH]; constructor; [by intros ? []..|]. intros p' [x ->]. apply IH.
Qed.
Lemma hpool_step_acc env {A} (cfg : list (hprog A) * HWorld) :
  Acc (λ cfg' cfg, hpool_step env cfg cfg') cfg.
Proof.
  destruct cfg as [ts w]. revert w.
  induction (element_step_acc _ ts hsubtree_acc) as [ts _ IH]. intros w.
  constructor. intros cfg' Hstep. inversion Hstep; subst. apply IH.
  eexists i, _, _. split_and!; [done| |done]. by eexists.
Qed.

(** ** Rely-guarantee with slots *)

(** Whether a request holds a slot, and whether the gauge counts it. *)
Record ghost := mkGhost { holds : bool; counted : bool }.
Definition idle : ghost := mkGhost false false.

Context (Inv : L → metadataCache → Prop) (ext : L → L → Prop) {ext_pre : PreOrder ext}.

Definition heff_ok {X} (e : heff X) : (X → ghost → L → Prop) → ghost → L → Prop :=
  match e in heff X return (X → ghost → L → Prop) → ghost → L → Prop with
  | ServiceEffect e => λ K g l, ∀ l0 c0 o0, ext l l0 → Inv l0 c0 →
      eff_wp e (λ x l1 c1 _, ext l0 l1 ∧ Inv l1 c1 ∧ K x g l1) l0 c0 o0
  | TryAcquire => λ K g l,
      holds g = false ∧ K true (mkGhost true (counted g)) l ∧ K false g l
  | ReleaseSlot => λ K g l, holds g = true ∧ K tt (mkGhost false (counted g)) l
  | GaugeInc => λ K g l, counted g = false ∧ K tt (mkGhost (holds g) true) l
  | GaugeDec => λ K g l, counted g = true ∧ K tt (mkGhost (holds g) false) l
  | CountRejection _ | CountHTTP _ _ _ => λ K, K tt
  | LogPanic _ => λ _ _ _, False
  end.

Fixpoint hok {A} (p : hprog A) (Q : outcome A → ghost → L → Prop) : ghost → L → Prop :=
  match p with
  | HRet a => λ g l, ∀ l', ext l l' → Q (Returned a) g l'
  | HPanic c => λ g l, ∀ l', ext l l' → Q (Panicked c) g l'
  | HCall e k => heff_ok e (λ x, hok (k x) Q)
  end.

Lemma heff_ok_mono {X} (e : heff X) (K K' : X → ghost → L → Prop) g l :
  (∀ x g' l', ext l l' → K x g' l' → K' x g' l') → heff_ok e K g l → heff_ok e K' g l.
Proof.
  intros HK. destruct e as [X e| | | | |reason|m r st|path]; cbn.
  - intros H l0 c0 o0 Hl0 Hinv. eapply eff_wp_mono; [|by apply H]. cbn.
    intros x l1 c1 _ (? & ? & ?). split_and!; [done..|]. apply HK; [by etransitivity|done].
  - intros (? & ? & ?). split_and!; [done|by apply HK|by apply HK].
  - intros [? ?]. split; [done|]. by apply HK.
  - intros [? ?]. split; [done|]. by apply HK.
  - intros [? ?]. split; [done|]. by apply HK.
  - by apply HK.
  - by apply HK.
  - done.
Qed.

Lemma heff_ok_ext {X} (e : heff X) (K : X → ghost → L → Prop) g l l' :
  (∀ x g, K x g l → K x g l') → ext l l' → heff_ok e K g l → heff_ok e K g l'.
Proof.
  intros HK Hl. destruct e as [X e| | | | |reason|m r st|path]; cbn; [|naive_solver..].
  intros H l0 c0 o0 Hl0. apply H. by etransitivity.
Qed.

Lemma hok_ext {A} (p : hprog A) Q g l l' : ext l l' → hok p Q g l → hok p Q g l'.
Proof.
  revert g l l'. induction p as [a|c|X e k IH]; intros g l l' Hl; cbn.
  1,2: intros H l'' Hl''; apply H; by etransitivity.
  apply heff_ok_ext; [|done]. intros x g'. by apply IH.
Qed.

Lemma hok_mono {A} (p : hprog A) (Q Q' : outcome A → ghost → L → Prop) g l :
  (∀ o g' l', ext l l' → Q o g' l' → Q' o g' l') → hok p Q g l → hok p Q' g l.
Proof.
  revert g l. induction p as [a|c|X e k IH]; intros g l HQ; cbn; [by eauto..|].
  apply heff_ok_mono. intros x g' l' Hl'. apply IH. intros o g'' l'' Hl''. apply HQ. by etransitivity.
Qed.

(** A postcondition holds of every later ledger too. *)
Lemma hok_stable {A} (p : hprog A) Q g l :
  hok p Q g l → hok p (λ o g l', ∀ l'', ext l' l'' → Q o g l'') g l.
Proof.
  revert g l. induction p as [a|c|X e k IH]; intros g l; cbn.
  1,2: intros H l' Hl' l'' Hl''; apply H; by etransitivity.
  apply heff_ok_mono. intros x g' l' _. apply IH.
Qed.

Lemma hok_bind {A B} (p : hprog A) (f : A → hprog B) Q g l :
  hok p (λ o g l, match o with
                  | Returned a => hok (f a) Q g l
                  | Panicked c => ∀ l', ext l l' → Q (Panicked c) g l' end) g l →
  hok (hbind p f) Q g l.
Proof.
  revert g l. induction p as [a|c|X e k IH]; intros g l; cbn.
  - intros H. by apply H.
  - intros H l' Hl'. by apply (H l').
  - apply heff_ok_mono. intros x g' l' _. apply IH.
Qed.

Lemma hok_deferred {A} (p : hprog A) cleanup Q g l :
  hok p (λ o g l, hok cleanup (λ o' g l, ∃ u, o' = Returned u ∧ ∀ l', ext l l' → Q o g l') g l) g l →
  hok (deferred p cleanup) Q g l.
Proof.
  revert g l. induction p as [a|c|X e k IH]; intros g l; cbn.
  3: { apply heff_ok_mono. intros x g' l' _. apply IH. }
  all: intros H; apply hok_bind; (eapply hok_mono; [|apply H; reflexivity]);
    intros o g' l' _ (u & -> & HQ) l'' Hl''; by apply HQ.
Qed.

Lemma hok_recovered {A} (p : hprog A) handler Q g l :
  hok p (λ o g l, match o with
                  | Returned a => ∀ l', ext l l' → Q (Returned a) g l'
                  | Panicked c => hok (handler c) Q g l end) g l →
  hok (recovered p handler) Q g l.
Proof.
  revert g l. induction p as [a|c|X e k IH]; intros g l; cbn.
  - intros H l' Hl'. by apply (H l').
  - intros H. by apply H.
  - apply heff_ok_mono. intros x g' l' _. apply IH.
Qed.

(** A service call keeps the slots, and panics only where the call does. *)
Lemma hok_in_service {A B} c (p : prog A) (k : A → hprog B) (Q' : A → L → Prop) Q g l :
  rg Inv ext p Q' l → (∀ a l', ext l l' → Q' a l' → hok (k a) Q g l') →
  hok (in_service c p k) Q g l.
Proof.
  revert l. induction p as [a| |X e f IH]; intros l Hp Hk; cbn in *; [|done|].
  - apply Hk; [done|]. by apply Hp.
  - intros l0 c0 o0 Hl0 Hinv. eapply eff_wp_mono; [|by apply Hp]. cbn.
    intros x l1 c1 _ (Hl1 & Hinv1 & Hx). split_and!; [done..|]. apply IH; [done|].
    intros a l' Hl'. apply Hk. by do 2 (etransitivity; [done|]).
Qed.

(** ** The pool *)

Definition weight (b : bool) : Z := if b then 1 else 0.

Record admission_ok (gs : list ghost) (a : admissionController) : Prop := {
  ao_slots : slots a = total (λ g, weight (holds g)) gs;
  ao_gauge : admissionInFlight a = total (λ g, weight (counted g)) gs;
  ao_limit : slots a ≤ limit a }.

Definition spec A : Type := outcome A → ghost → L → Prop.
Record threads_ok {A} (Qs : list (spec A)) (ts : list (hprog A)) (gs : list ghost) (l : L) : Prop := {
  to_specs : length Qs = length ts;
  to_ghosts : length gs = length ts;
  to_ok i Q p g : Qs !! i = Some Q → ts !! i = Some p → gs !! i = Some g → hok p Q g l }.

Record hpool_ok {A} (Qs : list (spec A)) (gs : list ghost) (cfg : list (hprog A) * HWorld) : Prop := {
  po_inv : Inv (w_ledger (h_world (snd cfg))) (w_cache (h_world (snd cfg)));
  po_admission : admission_ok gs (h_admission (snd cfg));
  po_threads : threads_ok Qs (fst cfg) gs (w_ledger (h_world (snd cfg))) }.

Lemma weight_nonneg b : 0 ≤ weight b.
Proof. by destruct b. Qed.

(** What no request changes: the limit and the log of panics. *)
Definition frame (w w' : HWorld) : Prop :=
  limit (h_admission w') = limit (h_admission w) ∧ h_panics w' = h_panics w.

Lemma hhandle_ok env {X} (e : heff X) K gs i g (w w' : HWorld) x :
  env_ok env → gs !! i = Some g → admission_ok gs (h_admission w) →
  Inv (w_ledger (h_world w)) (w_cache (h_world w)) →
  heff_ok e K g (w_ledger (h_world w)) → hhandle env e w = Some (x, w') →
  ∃ g', K x g' (w_ledger (h_world w')) ∧ admission_ok (<[i := g']> gs) (h_admission w') ∧
    Inv (w_ledger (h_world w')) (w_cache (h_world w')) ∧
    ext (w_ledger (h_world w)) (w_ledger (h_world w')) ∧ frame w w'.
Proof.
  intros Henv Hg [Hs Hgauge Hlim] Hinv Hok Hh.
  assert (∀ f g', total f (<[i := g']> gs) = total f gs - f g + f g') as Hins
    by (intros; by apply total_insert).
  destruct e as [X e| | | | |reason|m r st|path]; cbn in Hok, Hh.
  - specialize (Hok _ _ (w_out (h_world w)) (reflexivity _) Hinv).
    pose proof (eff_wp_sound env e _ _ Henv Hok) as H.
    destruct (handle env e (h_world w)) as [y w1]. destruct H as (Hext & Hinv' & HK).
    injection Hh as <- <-. exists g. rewrite list_insert_id by done. split_and!; done.
  - destruct Hok as (Hfree & Ht & Hf). unfold try_acquire in Hh.
    destruct (Z.ltb_spec (slots (h_admission w)) (limit (h_admission w))) as [Hlt|Hge];
      injection Hh as <- <-.
    + eexists. split_and!; [exact Ht| |done..].
      split; cbn; rewrite ?Hins; cbn; rewrite ?Hfree, ?Hs, ?Hgauge; cbn; lia.
    + exists g. rewrite list_insert_id by done. split_and!; done.
  - destruct Hok as [Hheld HK]. unfold release in Hh. destruct (0 <? _); [|done]. cbn in Hh.
    injection Hh as <- <-. eexists. split_and!; [eassumption| |done..].
    split; cbn; rewrite ?Hins; cbn; rewrite ?Hheld, ?Hs, ?Hgauge; cbn; lia.
  - destruct Hok as [Hheld HK]. injection Hh as <- <-. eexists. split_and!; [eassumption| |done..].
    split; cbn; rewrite ?Hins; cbn; rewrite ?Hheld, ?Hs, ?Hgauge; cbn; lia.
  - destruct Hok as [Hheld HK]. injection Hh as <- <-. eexists. split_and!; [eassumption| |done..].
    split; cbn; rewrite ?Hins; cbn; rewrite ?Hheld, ?Hs, ?Hgauge; cbn; lia.
  - injection Hh as <- <-. exists g. rewrite list_insert_id by done. split_and!; done.
  - injection Hh as <- <-. exists g. rewrite list_insert_id by done. split_and!; done.
  - done.
Qed.

Lemma hpool_step_ok env {A} (Qs : list (spec A)) gs cfg cfg' :
  env_ok env → hpool_step env cfg cfg' → hpool_ok Qs gs cfg →
  ∃ gs', hpool_ok Qs gs' cfg' ∧ ext (w_ledger (h_world (snd cfg))) (w_ledger (h_world (snd cfg'))) ∧
    frame (snd cfg) (snd cfg').
Proof.
  intros Henv Hstep [Hinv Hadm [HlQ Hlg Hall]].
  destruct Hstep as [ts i X e k w x w' Hi Hh]. cbn in *.
  pose proof (lookup_lt_Some _ _ _ Hi) as Hlt.
  destruct (lookup_lt_is_Some_2 Qs i) as [Q HQ]; [lia|].
  destruct (lookup_lt_is_Some_2 gs i) as [g Hg]; [lia|].
  pose proof (Hall i Q _ g HQ Hi Hg) as Hok. cbn in Hok.
  destruct (hhandle_ok env e _ gs i g w w' x Henv Hg Hadm Hinv Hok Hh)
    as (g' & HK & Hadm' & Hinv' & Hext & Hlim).
  exists (<[i := g']> gs). split_and!; [|done..]. split; [done..|]. cbn [fst snd].
  split; [by rewrite length_insert|by rewrite !length_insert|].
  intros j Qj p gj HQj Hp Hgj. destruct (decide (j = i)) as [->|Hne].
  - rewrite list_lookup_insert_eq in Hp by done. rewrite list_lookup_insert_eq in Hgj by (rewrite Hlg; done).
    assert (Qj = Q) as -> by (by injection (eq_trans (eq_sym HQ) HQj)).
    injection Hp as <-. injection Hgj as <-. exact HK.
  - rewrite list_lookup_insert_ne in Hp by done. rewrite list_lookup_insert_ne in Hgj by done.
    eapply hok_ext; [exact Hext|]. by eapply Hall.
Qed.

Lemma hpool_steps_ok env {A} (Qs : list (spec A)) gs cfg cfg' :
  env_ok env → hpool_steps env cfg cfg' → hpool_ok Qs gs cfg →
  ∃ gs', hpool_ok Qs gs' cfg' ∧ ext (w_ledger (h_world (snd cfg))) (w_ledger (h_world (snd cfg'))) ∧
    frame (snd cfg) (snd cfg').
Proof.
  intros Henv Hsteps. revert gs. induction Hsteps as [|cfg1 cfg2 cfg3 Hstep _ IH]; intros gs Hok.
  - exists gs. split_and!; done.
  - destruct (hpool_step_ok env Qs gs _ _ Henv Hstep Hok) as (gs1 & Hok1 & Hext1 & Hlim1).
    destruct (IH gs1 Hok1) as (gs2 & Hok2 & Hext2 & Hlim2).
    exists gs2. split_and!; [done|by etransitivity|]. unfold frame in *. intuition congruence.
Qed.

(** A request that cannot step has returned or panicked. *)
Lemma hpool_progress env {A} (Qs : list (spec A)) gs ts w i p :
  hpool_ok Qs gs (ts, w) → ts !! i = Some p →
  (∃ a, p = HRet a) ∨ (∃ c, p = HPanic c) ∨ ∃ cfg', hpool_step env (ts, w) cfg'.
Proof.
  intros [_ [Hs _ _] [HlQ Hlg Hall]] Hi. cbn in *.
  destruct p as [a|c|X e k]; [by left; exists a|by right; left; exists c|right; right].
  assert (∃ r, hhandle env e w = Some r) as [[x w'] Hh]; [|eexists; by econstructor].
  pose proof (lookup_lt_Some _ _ _ Hi) as Hlt.
  destruct (lookup_lt_is_Some_2 Qs i) as [Q HQ]; [lia|].
  destruct (lookup_lt_is_Some_2 gs i) as [g Hg]; [lia|].
  pose proof (Hall i Q _ g HQ Hi Hg) as Hok. cbn in Hok.
  destruct e as [X e| | | | |reason|m r st|path]; cbn in *; try by eexists.
  - destruct (handle env e _). by eexists.
  - destruct (try_acquire _). by eexists.
  - destruct Hok as [Hheld _]. unfold release.
    assert (1 ≤ slots (h_admission w)).
    { pose proof (total_member (λ g, weight (holds g)) gs i g (λ x _, weight_nonneg (holds x)) Hg) as Hm.
      cbn in Hm. rewrite Hheld in Hm. cbn in Hm. lia. }
    destruct (Z.ltb_spec 0 (slots (h_admission w))); [by eexists|lia].
Qed.

Definition hresult {A} (p : hprog A) (o : outcome A) : Prop :=
  match o with Returned a => p = HRet a | Panicked c => p = HPanic c end.

Lemma hpool_result {A} (Qs : list (spec A)) gs ts w i p o Q :
  hpool_ok Qs gs (ts, w) → Qs !! i = Some Q → ts !! i = Some p → hresult p o →
  ∃ g, gs !! i = Some g ∧ Q o g (w_ledger (h_world w)).
Proof.
  intros [_ _ [HlQ Hlg Hall]] HQ Hi Hr. cbn in *.
  pose proof (lookup_lt_Some _ _ _ Hi) as Hlt.
  destruct (lookup_lt_is_Some_2 gs i) as [g Hg]; [lia|]. exists g. split; [done|].
  pose proof (Hall i Q _ g HQ Hi Hg) as Hok.
  destruct o; cbn in Hr; subst p; apply Hok; reflexivity.
Qed.

(** When every request has ended without a slot, the controller is empty. *)
Lemma hpool_all_idle {A} (Qs : list (spec A)) gs ts w :
  hpool_ok Qs gs (ts, w) → (∀ i g, gs !! i = Some g → g = idle) →
  slots (h_admission w) = 0 ∧ admissionInFlight (h_admission w) = 0.
Proof.
  intros [_ [Hs Hg _] _] Hidle. cbn in *. rewrite Hs, Hg.
  split; apply total_zero; intros g [i Hi]%list_elem_of_lookup; by rewrite (Hidle i g Hi).
Qed.

(** Fresh requests. *)
Lemma hpool_start {A} (Qs : list (spec A)) ts w :
  Inv (w_ledger (h_world w)) (w_cache (h_world w)) →
  slots (h_admission w) = 0 → admissionInFlight (h_admission w) = 0 → 0 ≤ limit (h_admission w) →
  length Qs = length ts →
  (∀ i Q p, Qs !! i = Some Q → ts !! i = Some p → hok p Q idle (w_ledger (h_world w))) →
  hpool_ok Qs (replicate (length ts) idle) (ts, w).
Proof.
  intros Hinv Hs Hg Hl Hlen Hall.
  assert (∀ g, g ∈ replicate (length ts) idle → g = idle) as Hidle
    by (intros g [-> _]%elem_of_replicate; done).
  split; [done| |].
  - split; cbn; [| |lia]; [rewrite Hs|rewrite Hg]; symmetry; apply total_zero;
      intros g ->%Hidle; done.
  - split; cbn; [done|by rewrite length_replicate|].
    intros i Q p g HQ Hp [-> _]%lookup_replicate. by eapply Hall.
Qed.
End semantics.
Arguments HWorld {sdk} L.
Arguments outcome : clear implicits.
Arguments Returned {A} a.
Arguments Panicked {A} c.
