(* ===== verification/Server.v ===== *)
(** * [internal/httpapi/server.go]

    The handlers of the API, their registration on the mux with admission and
    metrics, the health endpoints, [decodeJSON] and [recoverPanics].  The JSON
    decoder, the media-type parser and the Prometheus handler are the parameter
    [Codecs]; a request is taken with its clean path split into segments, as the
    mux of [net/http] matches it. *)
From S2P Require Import Prelude GoBase Domain TigerBeetle LedgerModel Cache Health Interface Service.
From S2P Require Import Operations Http HttpProgram Admission.
Import GoError GoTime.
Local Open Scope Z_scope.
Local Open Scope http_scope.

(** The types a handler decodes a body into. *)
Inductive input : Type → Type :=
| InputCreateAccount : input CreateAccountRequest
| InputTopUp : input TopUpRequest
| InputWithdrawal : input WithdrawalRequest
| InputCardAllocation : input CardAllocationRequest
| InputCardReturn : input CardReturnRequest
| InputAuthorization : input AuthorizationRequest
| InputIncrement : input IncrementAuthorizationRequest.

(** [Decode] reads one value with unknown fields refused and leaves the rest;
    [DecodeEOF] is whether another [Decode] reports [io.EOF]. *)
Class Codecs (Body : Type) := {
  MaxBytesReader : Z → Body → Body;
  Decode {A : Type} : input A → Body → result error A * Body;
  DecodeEOF : Body → bool;
  ParseMediaType : string → result error string;
  promhttp : connection → connection;
}.

Definition maxRequestBytes : Z := Z.shiftl 1 20.

Record Request (Body : Type) := mkRequest {
  Request_Method : string;
  Request_Path : list string;
  Request_ContentType : string;
  Request_Body : Body;
  (** how the [select] on [request.Context()] ends *)
  Request_Context : option error }.
Arguments mkRequest {Body}.
Arguments Request_Method {Body}.
Arguments Request_Path {Body}.
Arguments Request_ContentType {Body}.
Arguments Request_Body {Body}.
Arguments Request_Context {Body}.

(** [strings.EqualFold], exact on the ASCII strings a media type consists of. *)
Definition lower (b : N) : N := if (65 <=? b)%N && (b <=? 90)%N then (b + 32)%N else b.
Definition EqualFold (s t : string) : bool :=
  bool_decide (lower <$> GoStrings.to_bytes s = lower <$> GoStrings.to_bytes t).

Section server.
Context {sdk : SDK} {Body : Type} {codecs : Codecs Body}.

Definition decodeJSON {A} (destination : input A) (request : Request Body) : result error A :=
  let contentType := Request_ContentType request in
  let rejected :=
    if decide (contentType ≠ "") then
      match ParseMediaType contentType with
      | inl _ => true
      | inr mediaType => negb (EqualFold mediaType "application/json")
      end
    else false in
  if rejected then inl (invalid "Content-Type must be application/json") else
  let '(r, rest) := Decode destination (MaxBytesReader maxRequestBytes (Request_Body request)) in
  match r with
  | inl err => inl (invalid ("invalid JSON body: " +:+ Error err))
  | inr value =>
      if negb (DecodeEOF rest) then inl (invalid "request body must contain one JSON value")
      else inr value
  end.

(** ** Handlers *)

(** [if err != nil { writeError(writer, err); return }] *)
Definition or_error {A} (r : result error A) (w : statusWriter connection)
    (k : A → hprog (statusWriter connection)) : hprog (statusWriter connection) :=
  match r with inl err => HRet (writeError err w) | inr a => k a end.

(** A service call, then the end of the handler. *)
Definition answer {A} (call : prog (result error (A * Z))) (encode : A → body)
    (w : statusWriter connection) : hprog (statusWriter connection) :=
  in_service (sw_ResponseWriter w) call (λ r,
  or_error r w (λ '(response, status), HRet (writeJSON status (encode response) w))).

Context (s : Service).

Definition createAccount (request : Request Body) : handler := λ w,
  or_error (decodeJSON InputCreateAccount request) w (λ input,
  answer (CreateAccount s input) BodyAccount w).
Definition balance (account_id : string) : handler := λ w,
  in_service (sw_ResponseWriter w) (Balance s account_id) (λ r,
  or_error r w (λ response, HRet (writeJSON StatusOK (BodyBalance response) w))).
Definition topUp (request : Request Body) : handler := λ w,
  or_error (decodeJSON InputTopUp request) w (λ input,
  answer (TopUp s input) BodyTransaction w).
Definition withdraw (request : Request Body) : handler := λ w,
  or_error (decodeJSON InputWithdrawal request) w (λ input,
  answer (Withdraw s input) BodyTransaction w).
Definition allocateToCard (request : Request Body) : handler := λ w,
  or_error (decodeJSON InputCardAllocation request) w (λ input,
  answer (AllocateToCard s input) BodyTransaction w).
Definition returnFromCard (request : Request Body) : handler := λ w,
  or_error (decodeJSON InputCardReturn request) w (λ input,
  answer (ReturnFromCard s input) BodyTransaction w).
Definition authorize (request : Request Body) : handler := λ w,
  or_error (decodeJSON InputAuthorization request) w (λ input,
  answer (Authorize s (Request_Context request) input) BodyAuthorization w).
Definition increment (request : Request Body) : handler := λ w,
  or_error (decodeJSON InputIncrement request) w (λ input,
  answer (IncrementAuthorization s (Request_Context request) input) BodyIncrement w).

Definition live : handler := λ w, HRet (writeJSON StatusOK (BodyLive "ok") w).

(** The body and status of [ready]. *)
Definition ready_reply (health : LedgerHealth) : Z * readyBody :=
  let last := if negb (IsZero (LastSuccess health)) then Some (UTC (LastSuccess health)) else None in
  if negb (Ready health)
  then (StatusServiceUnavailable,
        mkReadyBody "not_ready" (Some "ledger_stalled") (InFlight health)
          (Milliseconds (Oldest health)) last)
  else (StatusOK, mkReadyBody "ready" None (InFlight health) (Milliseconds (Oldest health)) last).
Definition ready : handler := λ w,
  in_service (sw_ResponseWriter w) Service_LedgerHealth (λ health,
  let '(status, body) := ready_reply health in HRet (writeJSON status (BodyReady body) w)).

(** ** Registration *)

(** A registered pattern: its method, its path with [None] for a wildcard, and
    its handler, given the request and the values of the wildcards. *)
Record route := mkRoute {
  route_method : string;
  route_path : list (option string);
  route_handler : Request Body → list string → connection → hprog connection }.

(** [func() bool { return ledgerService.LedgerHealth().Ready }] *)
Definition ledgerReady : prog bool := bind Service_LedgerHealth (λ health, Ret (Ready health)).

Definition handle (name method : string) (path : list (option string))
    (h : Request Body → list string → handler) : route :=
  mkRoute method path (λ request values,
    HTTPMiddleware (Request_Method request) name (Wrap ledgerReady (h request values))).

Definition v1 (path : list (option string)) : list (option string) := Some "v1" :: path.
Definition routes : list route :=
  [handle "create_account" "POST" (v1 [Some "accounts"]) (λ request _, createAccount request);
   handle "get_balance" "GET" (v1 [Some "accounts"; None]) (λ _ values, balance (hd "" values));
   handle "topup" "POST" (v1 [Some "topups"]) (λ request _, topUp request);
   handle "withdrawal" "POST" (v1 [Some "withdrawals"]) (λ request _, withdraw request);
   handle "card_allocation" "POST" (v1 [Some "card-allocations"]) (λ request _, allocateToCard request);
   handle "card_return" "POST" (v1 [Some "card-returns"]) (λ request _, returnFromCard request);
   handle "authorization" "POST" (v1 [Some "authorizations"]) (λ request _, authorize request);
   handle "authorization_increment" "POST" (v1 [Some "authorizations"; Some "increments"])
     (λ request _, increment request);
   mkRoute "GET" [Some "health"; Some "live"] (λ request _,
     HTTPMiddleware (Request_Method request) "liveness" live);
   mkRoute "GET" [Some "health"; Some "ready"] (λ request _,
     HTTPMiddleware (Request_Method request) "readiness" ready);
   mkRoute "GET" [Some "metrics"] (λ _ _ c, HRet (promhttp c))].

(** The values of the wildcards, each one non-empty segment. *)
Fixpoint match_path (pattern : list (option string)) (path : list string) : option (list string) :=
  match pattern, path with
  | [], [] => Some []
  | Some literal :: pattern, segment :: path =>
      if decide (literal = segment) then match_path pattern path else None
  | None :: pattern, segment :: path =>
      if decide (segment = "") then None
      else values ← match_path pattern path; Some (segment :: values)
  | _, _ => None
  end.
(** A [GET] pattern serves [HEAD] too. *)
Definition match_method (pattern method : string) : bool :=
  bool_decide (pattern = method) || bool_decide (pattern = "GET") && bool_decide (method = "HEAD").

(** [http.NotFound] and the mux's 405. *)
Definition not_found (c : connection) : connection :=
  Write (BodyText "404 page not found")
    (WriteHeader StatusNotFound
      (Header_Set "X-Content-Type-Options" "nosniff"
        (Header_Set "Content-Type" "text/plain; charset=utf-8" c))).
Definition allowed_methods (method : string) : string :=
  if decide (method = "GET") then "GET, HEAD" else method.
Definition method_not_allowed (allow : string) (c : connection) : connection :=
  Write (BodyText "Method Not Allowed")
    (WriteHeader StatusMethodNotAllowed
      (Header_Set "X-Content-Type-Options" "nosniff"
        (Header_Set "Content-Type" "text/plain; charset=utf-8" (Header_Set "Allow" allow c)))).

(** The mux: no two of the patterns match the same request, so the first match
    is the only one; a path of another method is answered 405. *)
Fixpoint find_route (rs : list route) (request : Request Body) : option (route * list string) :=
  match rs with
  | [] => None
  | r :: rs =>
      match match_path (route_path r) (Request_Path request) with
      | Some values =>
          if match_method (route_method r) (Request_Method request) then Some (r, values)
          else find_route rs request
      | None => find_route rs request
      end
  end.
Definition path_methods (request : Request Body) : list string :=
  omap (λ r, _ ← match_path (route_path r) (Request_Path request); Some (route_method r)) routes.
Definition ServeMux (request : Request Body) (c : connection) : hprog connection :=
  match find_route routes request with
  | Some (r, values) => route_handler r request values c
  | None =>
      match path_methods request with
      | [] => HRet (not_found c)
      | method :: _ => HRet (method_not_allowed (allowed_methods method) c)
      end
  end.

Definition recoverPanics (path : list string) (next : connection → hprog connection) (c : connection) :
    hprog connection :=
  recovered (next c) (λ c,
    hcall (LogPanic (String.concat "/" ("" :: path))) ;;
    HRet (writeJSON StatusInternalServerError
      (BodyError (mkErrorResponse "error" "internal_error" "an internal error occurred")) c)).

(** [NewHandler], applied to a request and its connection. *)
Definition NewHandler (request : Request Body) (c : connection) : hprog connection :=
  recoverPanics (Request_Path request) (ServeMux request) c.
End server.
