(* ===== verification/AdmissionSpec.v ===== *)
(** * What admission guarantees

    For any handlers - also ones that panic - behind [Wrap]: the slots bound the
    requests inside, every slot comes back, nothing blocks; what a panic leaves
    behind; and how far the gauge may be off. *)
From S2P Require Import Prelude GoBase Domain TigerBeetle TigerBeetleModel LedgerModel Cache Health.
From S2P Require Import Interface Semantics Contract FakeLedger Service Operations Scenarios.
From S2P Require Import Http HttpProgram Admission HttpSemantics Server.
Import GoError GoTime.
Local Open Scope Z_scope.

(** A handler body: it uses the service only, and may panic. *)
Fixpoint serving {sdk : SDK} {A} (p : hprog A) : Prop :=
  match p with
  | HRet _ | HPanic _ => True
  | HCall e k => (match e with ServiceEffect _ => True | _ => False end) ∧ ∀ x, serving (k x)
  end.

Definition ended {sdk : SDK} {A} (p : hprog A) : Prop :=
  match p with HCall _ _ => False | _ => True end.

(** A request behind [Wrap]: its check of readiness, its handler, its writer. *)
Section guarded.
Context {sdk : SDK}.
Record guarded := mkGuarded {
  g_ready : prog bool; g_next : handler; g_writer : statusWriter connection }.
Definition wrapped (q : guarded) : hprog (statusWriter connection) :=
  Wrap (g_ready q) (g_next q) (g_writer q).
End guarded.

Section any_handler.
Context {sdk : SDK} {L : Type} {ledger : Ledger L}.

(** Nothing is assumed of the service's state. *)
Definition anything (l : L) (c : metadataCache) : Prop := True.
Definition any_future (l l' : L) : Prop := True.
#[export] Instance any_future_preorder : PreOrder any_future.
Proof. by split. Qed.
Local Abbreviation hok := (hok anything any_future).

Lemma eff_wp_any {X} (e : eff X) K (l : L) c o : (∀ x l c o, K x l c o) → eff_wp e K l c o.
Proof. intros HK. destruct e; cbn; repeat case_match; auto. Qed.

Lemma hok_serving {A} (p : hprog A) g l : serving p → hok p (λ _ g' _, g' = g) g l.
Proof.
  revert l. induction p as [a|c|X e k IH]; intros l; cbn; [done..|].
  intros [He Hk]. destruct e; try done. cbn. intros l0 c0 o0 _ _. apply eff_wp_any.
  intros x l1 c1 _. split_and!; [done..|]. by apply IH.
Qed.

Lemma hok_in_service_any {A B} c (p : prog A) (k : A → hprog B) Q g l :
  (∀ a l, hok (k a) Q g l) → (∀ l, Q (Panicked c) g l) → hok (in_service c p k) Q g l.
Proof.
  intros Hk HQ. revert l. induction p as [a| |X e f IH]; intros l; cbn; [apply Hk|auto|].
  intros l0 c0 o0 _ _. apply eff_wp_any. intros x l1 c1 _. split_and!; [done..|]. apply IH.
Qed.

Lemma hok_reject reason code message w l :
  hok (reject reason code message w) (λ _ g _, g = idle) idle l.
Proof. by cbn. Qed.

Lemma hok_leave Q l : Q idle → hok leave (λ o g l', ∃ u, o = Returned u ∧ ∀ l'', any_future l' l'' → Q g)
  (mkGhost true true) l.
Proof. intros HQ. cbn. split_and!; try done. intros l' _. by exists tt. Qed.

Lemma hok_wrapped q l : serving (g_next q (g_writer q)) → hok (wrapped q) (λ _ g _, g = idle) idle l.
Proof.
  intros Hs. apply hok_in_service_any; [|done]. intros [] l1; cbn [negb]; [|apply hok_reject].
  cbn. split_and!; [done|done| |done].
  apply hok_deferred; [apply _|]. eapply hok_mono; [apply _| |apply (hok_serving _ (mkGhost true true)), Hs].
  intros o g l' _ ->. by apply (hok_leave (λ g, g = idle)).
Qed.
End any_handler.

(** C16: Admission bounds the work and gives every slot back.  For any handlers
    behind [Wrap], in every interleaving: the slots taken never exceed the
    limit; no request ever waits (a state in which nothing can step is one in
    which every request has ended); no execution is infinite; and when all
    requests have ended, returning or panicking, all slots are free and the
    gauge is back at zero. *)
Theorem admission_is_bounded {sdk : SDK} {L : Type} {ledger : Ledger L} env limit (w : HWorld L)
    (qs : list guarded) ts w' :
  env_ok env → newAdmissionController limit = Some (h_admission w) →
  Forall (λ q, serving (g_next q (g_writer q))) qs →
  hpool_steps env (wrapped <$> qs, w) (ts, w') →
  0 ≤ slots (h_admission w') ≤ limit ∧ 0 ≤ admissionInFlight (h_admission w') ∧
  ((∀ i p, ts !! i = Some p → ended p) →
    slots (h_admission w') = 0 ∧ admissionInFlight (h_admission w') = 0) ∧
  ((∀ cfg, ¬ hpool_step env (ts, w') cfg) → ∀ i p, ts !! i = Some p → ended p) ∧
  Acc (λ cfg' cfg, hpool_step env cfg cfg') (ts, w').
Proof.
  intros Henv Hnew Hall Hsteps. unfold newAdmissionController in Hnew.
  destruct (Z.ltb_spec limit 0) as [|Hpos]; [done|]. injection Hnew as Hnew.
  set (Qs := replicate (length qs) (λ _ g _, g = idle) : list (spec (L := L) (statusWriter connection))).
  assert (hpool_ok anything any_future Qs (replicate (length (wrapped <$> qs)) idle) (wrapped <$> qs, w))
    as Hok.
  { apply (hpool_start anything any_future); [done|by rewrite <- Hnew|by rewrite <- Hnew|rewrite <- Hnew; exact Hpos| |].
    - unfold Qs. by rewrite length_replicate, length_fmap.
    - intros i Q p HQ Hp. apply lookup_replicate in HQ as [-> _].
      apply list_lookup_fmap_Some in Hp as (q & -> & Hq).
      apply hok_wrapped. exact (Forall_lookup_1 _ _ _ _ Hall Hq). }
  destruct (hpool_steps_ok anything any_future env Qs _ _ _ Henv Hsteps Hok) as (gs & Hok' & _ & Hlim & _).
  assert (Admission.limit (h_admission w') = limit) as Hlim' by (cbn in Hlim; by rewrite Hlim, <- Hnew).
  pose proof Hok' as [_ [Hs Hg Hle] [HlQ Hlg _]]. cbn [fst snd] in *.
  split_and!.
  - rewrite Hs. apply total_nonneg. intros x _. apply weight_nonneg.
  - lia.
  - rewrite Hg. apply total_nonneg. intros x _. apply weight_nonneg.
  - intros Hend. apply (hpool_all_idle anything any_future Qs gs ts w' Hok').
    intros i g Hi. pose proof (lookup_lt_Some _ _ _ Hi) as Hlt.
    destruct (lookup_lt_is_Some_2 ts i) as [p Hp]; [lia|].
    destruct (lookup_lt_is_Some_2 Qs i) as [Q HQ]; [lia|].
    specialize (Hend i p Hp). destruct p as [a|c|]; [| |done].
    + destruct (hpool_result anything any_future Qs gs ts w' i _ (Returned a) Q Hok' HQ Hp eq_refl)
        as (g' & Hg' & HQ'). apply lookup_replicate in HQ as [-> _]. congruence.
    + destruct (hpool_result anything any_future Qs gs ts w' i _ (Panicked c) Q Hok' HQ Hp eq_refl)
        as (g' & Hg' & HQ'). apply lookup_replicate in HQ as [-> _]. congruence.
  - intros Hstuck i p Hp.
    destruct (hpool_progress anything any_future env Qs gs ts w' i p Hok' Hp) as [[a ->]|[[c ->]|[cfg Hst]]];
      [done..|by destruct (Hstuck cfg)].
  - apply hpool_step_acc.
Qed.

(** Two handlers behind a limit of one: the first panics, the second is rejected
    while the first is inside and finds every slot free at the end. *)
Definition small_world (limit : Z) : HWorld fakeLedger :=
  mkHWorld (new_world 100000) (mkAdmissionController 0 limit 0 [] []) [].
Definition panicking : handler := λ w, HCall (ServiceEffect TimeNow) (λ _, HPanic (sw_ResponseWriter w)).
Definition accepting : handler := λ w, HRet (WriteHeader 204 w).
Definition two_requests : list guarded :=
  [mkGuarded (Ret true) panicking recorder; mkGuarded (Ret true) accepting recorder].
Definition two_run (schedule : list nat) : list (hprog (statusWriter connection)) * HWorld fakeLedger :=
  hexec test_env schedule (wrapped <$> two_requests, small_world 1).

Lemma admission_is_bounded_witness :
  let w' := snd (two_run [0; 1; 0; 1; 0; 0; 0; 1]%nat) in
  0 ≤ slots (h_admission w') ≤ 1 ∧ admissionRejected (h_admission w') = ["capacity"].
Proof.
  split; [|by_computation].
  refine (proj1 (admission_is_bounded test_env 1 (small_world 1) two_requests
    (fst (two_run [0; 1; 0; 1; 0; 0; 0; 1]%nat)) (snd (two_run [0; 1; 0; 1; 0; 0; 0; 1]%nat)) _ _ _ _)).
  - apply test_env_ok.
  - reflexivity.
  - repeat constructor.
  - rewrite <- surjective_pairing. apply hexec_steps.
Defined.

(** ** Panics *)

(** The answer [recoverPanics] gives on a connection. *)
Definition internal_error (c : connection) : connection :=
  writeJSON StatusInternalServerError
    (BodyError (mkErrorResponse "error" "internal_error" "an internal error occurred")) c.

(** A world with one more slot taken, the gauge raised. *)
Definition entered (a : admissionController) : admissionController :=
  BeginAdmission (mkAdmissionController (slots a + 1) (limit a) (admissionInFlight a)
                    (admissionRejected a) (http_requests a)).
Definition left (a : admissionController) : admissionController :=
  EndAdmission (mkAdmissionController (slots a - 1) (limit a) (admissionInFlight a)
                  (admissionRejected a) (http_requests a)).

(** C32: A panic is contained.  When the handler of an admitted request panics,
    the slot and the gauge are given back, the panic is logged with the path and
    the client is answered 500 [internal_error] on the connection as the handler
    left it - so the answer is complete if the handler had sent nothing - but
    the counter of HTTP requests does not count the request. *)
Theorem panics_are_contained {sdk : SDK} {L : Type} {ledger : Ledger L} env path method name ready
    (next : handler) c (w : HWorld L) w1 c' w2 :
  run env ready (h_world w) = (Some true, w1) → slots (h_admission w) < limit (h_admission w) →
  hrun env (next (mkStatusWriter c StatusOK false)) (mkHWorld w1 (entered (h_admission w)) (h_panics w))
    = Some (Panicked c', w2) →
  0 < slots (h_admission w2) →
  hrun env (recoverPanics path (HTTPMiddleware method name (Wrap ready next)) c) w =
    Some (Returned (internal_error c'),
          mkHWorld (h_world w2) (left (h_admission w2))
            (h_panics w2 ++ [String.concat "/" ("" :: path)])) ∧
  (conn_sent c' = None → conn_body c' = [] →
   ∃ headers, responded StatusInternalServerError headers
     (BodyError (mkErrorResponse "error" "internal_error" "an internal error occurred"))
     (internal_error c')).
Proof.
  intros Hready Hfree Hnext Hheld. split.
  - unfold recoverPanics, HTTPMiddleware, Wrap. rewrite hrun_recovered, hrun_bind, hrun_in_service.
    cbn [sw_ResponseWriter]. rewrite Hready. cbn [negb hrun hbind hcall hhandle h_admission].
    unfold try_acquire. rewrite (proj2 (Z.ltb_lt _ _) Hfree). cbn [mbind option_bind hrun hbind hhandle].
    rewrite hrun_deferred. unfold on_admission. cbn [h_admission h_world h_panics].
    unfold entered in Hnext. rewrite Hnext. cbn [mbind option_bind leave hcall hbind hrun hhandle].
    unfold release. rewrite (proj2 (Z.ltb_lt _ _) Hheld). done.
  - destruct c' as [h s b]. cbn. intros -> ->. by eexists.
Qed.

Lemma panics_are_contained_witness :
  ∃ w2, hrun test_env (recoverPanics ["v1"; "accounts"] (HTTPMiddleware "POST" "create_account"
          (Wrap (Ret true) panicking)) new_connection) (small_world 1)
        = Some (Returned (internal_error new_connection), w2) ∧
    http_requests (h_admission w2) = [] ∧ slots (h_admission w2) = 0.
Proof.
  eexists. split.
  - refine (proj1 (panics_are_contained test_env ["v1"; "accounts"] "POST" "create_account" (Ret true)
      panicking new_connection (small_world 1) (h_world (small_world 1)) new_connection
      (mkHWorld (tick (h_world (small_world 1))) (entered (h_admission (small_world 1))) []) _ _ _ _)).
    + reflexivity.
    + reflexivity.
    + reflexivity.
    + reflexivity.
  - split; reflexivity.
Defined.

(** ** The gauge *)

(** The in-flight gauge can exceed the limit.  The slot is given back before
    the gauge is lowered, so between the two another request can enter: with a
    limit of one, a state is reachable in which one slot is held and the gauge
    of the requests "currently holding" a slot reads two. *)
Theorem gauge_can_exceed_the_limit {sdk : SDK} {L : Type} {ledger : Ledger L} env (l : World L) :
  ∃ qs ts w', hpool_steps env (wrapped <$> qs, mkHWorld l (mkAdmissionController 0 1 0 [] []) []) (ts, w') ∧
    slots (h_admission w') = 1 ∧ limit (h_admission w') = 1 ∧ admissionInFlight (h_admission w') = 2.
Proof.
  set (q := mkGuarded (Ret true) (λ w, HRet w) recorder).
  set (out := hexec env [0; 0; 0; 1; 1]%nat
                (wrapped <$> [q; q], mkHWorld l (mkAdmissionController 0 1 0 [] []) [])).
  exists [q; q], (fst out), (snd out). split; [|done].
  rewrite <- surjective_pairing. apply hexec_steps.
Qed.
