(* ===== verification/HttpSystem.v ===== *)
(** * The whole program: concurrent HTTP requests on the service

    The API as a relation between HTTP requests and service calls, independent of
    the mux and the handlers; the answer each call is given; and the theorems
    that [NewHandler] implements it in every interleaving. *)
From S2P Require Import Prelude GoBase GoCrypto Domain TigerBeetle TigerBeetleModel LedgerModel.
From S2P Require Import Cache Health Interface Semantics Contract FakeLedger Service ServiceSpec.
From S2P Require Import Operations OperationsSpec Invariant Safety Replay Scenarios System.
From S2P Require Import Http HttpProgram Admission HttpSemantics Server.
Import GoInt GoError GoTime.
Local Open Scope Z_scope.

Section api.
Context {sdk : SDK} {Body : Type} {codecs : Codecs Body}.

(** The service call an HTTP request asks for; [inl] is a body that does not
    decode. *)
Definition decoded {A} (i : input A) (f : A → request) (r : Request Body) : result error request :=
  match decodeJSON i r with inl err => inl err | inr a => inr (f a) end.

Inductive asks (r : Request Body) : result error request → Prop :=
| asks_create_account :
    Request_Method r = "POST" → Request_Path r = ["v1"; "accounts"] →
    asks r (decoded InputCreateAccount ReqCreateAccount r)
| asks_balance id :
    Request_Method r = "GET" ∨ Request_Method r = "HEAD" →
    Request_Path r = ["v1"; "accounts"; id] → id ≠ "" → asks r (inr (ReqBalance id))
| asks_topup :
    Request_Method r = "POST" → Request_Path r = ["v1"; "topups"] →
    asks r (decoded InputTopUp ReqTopUp r)
| asks_withdrawal :
    Request_Method r = "POST" → Request_Path r = ["v1"; "withdrawals"] →
    asks r (decoded InputWithdrawal ReqWithdraw r)
| asks_allocation :
    Request_Method r = "POST" → Request_Path r = ["v1"; "card-allocations"] →
    asks r (decoded InputCardAllocation ReqAllocateToCard r)
| asks_return :
    Request_Method r = "POST" → Request_Path r = ["v1"; "card-returns"] →
    asks r (decoded InputCardReturn ReqReturnFromCard r)
| asks_authorization :
    Request_Method r = "POST" → Request_Path r = ["v1"; "authorizations"] →
    asks r (decoded InputAuthorization (ReqAuthorize (Request_Context r)) r)
| asks_increment :
    Request_Method r = "POST" → Request_Path r = ["v1"; "authorizations"; "increments"] →
    asks r (decoded InputIncrement (ReqIncrementAuthorization (Request_Context r)) r).

(** Status and body of the answer to a call. *)
Definition error_body (e : error) : Z * body :=
  let '(status, code, message) := error_reply e in
  (status, BodyError (mkErrorResponse "error" code message)).
Definition coded {A} (f : A → body) (r : result error (A * Z)) : Z * body :=
  match r with inl e => error_body e | inr (a, status) => (status, f a) end.
Definition reply_of (a : response) : Z * body :=
  match a with
  | RespUnit r => match r with inl e => error_body e | inr _ => (StatusOK, BodyLive "ok") end
  | RespAccount r => coded BodyAccount r
  | RespBalance r => match r with inl e => error_body e | inr b => (StatusOK, BodyBalance b) end
  | RespTransaction r => coded BodyTransaction r
  | RespAuthorization r => coded BodyAuthorization r
  | RespIncrement r => coded BodyIncrement r
  | RespHealth h => let '(status, b) := ready_reply h in (status, BodyReady b)
  end.

Definition rejection (code message : string) (c : connection) : Prop :=
  responded StatusServiceUnavailable retry_headers (BodyError (mkErrorResponse "error" code message)) c.
(** The two answers of a request that was not admitted. *)
Definition not_admitted (c : connection) : Prop :=
  rejection "ledger_stalled" "the ledger is not responding; retry the same request" c ∨
  rejection "overloaded" "too many operations are in flight; retry the same request" c.

(** What the answer [c] to a request for [q] means in the ledger [l]. *)
Definition answers {L} {view : LedgerView L} (s : Service) (q : result error request) (c : connection)
    (l : L) : Prop :=
  match q with
  | inl e => ∃ message, responded StatusBadRequest json_headers
      (BodyError (mkErrorResponse "error" "invalid_request" message)) c
  | inr q => ∃ a, response_truth s q a l ∧ responded (fst (reply_of a)) json_headers (snd (reply_of a)) c
  end.
End api.

(** ** Routing *)
Section routing.
Context {sdk : SDK} {Body : Type}.

(** The route the mux takes matches the request. *)
Lemma find_route_spec rs (r : Request Body) rt values :
  find_route rs r = Some (rt, values) →
  rt ∈ rs ∧ match_path (route_path rt) (Request_Path r) = Some values ∧
  match_method (route_method rt) (Request_Method r) = true.
Proof.
  induction rs as [|rt' rs IH]; cbn; [done|].
  destruct (match_path (route_path rt') _) as [values'|] eqn:Hp; [|intros (?&?&?)%IH; split_and!; [by right|done..]].
  destruct (match_method (route_method rt') _) eqn:Hm; [|intros (?&?&?)%IH; split_and!; [by right|done..]].
  intros [= <- <-]. split_and!; [by left|done..].
Qed.

(** A pattern without wildcards matches its own path only. *)
Lemma match_literal literals path values :
  match_path (Some <$> literals) path = Some values → path = literals.
Proof.
  revert path. induction literals as [|x literals IH]; intros [|y path]; cbn; try done.
  case_decide; [|done]. intros ->%IH. by subst.
Qed.
Lemma post_method method : match_method "POST" method = true → method = "POST".
Proof.
  unfold match_method. rewrite orb_true_iff, andb_true_iff, !bool_decide_eq_true.
  intros [->|[H _]]; done.
Qed.

End routing.

Section http.
Context {sdk : SDK} {L : Type} {ledger : Ledger L} {view : LedgerView L} {contract : LedgerContract L}.
Context {Body : Type} {codecs : Codecs Body} (s : Service).

Local Abbreviation hok := (hok (service_inv s) ledger_ext).

(** A handler that keeps the slot it is run with, does not panic, and sends [P]. *)
Definition handler_ok (h : handler) (P : connection → L → Prop) : Prop :=
  ∀ g l, hok (h recorder) (λ o g' l', g' = g ∧ ∃ w, o = Returned w ∧ P (sw_ResponseWriter w) l') g l.

Lemma writeError_recorder e :
  writeError e recorder = writeJSON (fst (error_body e)) (snd (error_body e)) recorder.
Proof. unfold writeError, error_body. by destruct (error_reply e) as [[status code] message]. Qed.

(** A service call and the answer to it. *)
Lemma called_ok {A} (p : prog A) (Q : A → L → Prop) (k : A → hprog (statusWriter connection)) f
    (P : connection → L → Prop) g l :
  safe s p Q l → (∀ a, k a = HRet (f a)) → (∀ a l', Q a l' → P (sw_ResponseWriter (f a)) l') →
  hok (in_service (sw_ResponseWriter recorder) p k)
    (λ o g' l', g' = g ∧ ∃ w, o = Returned w ∧ P (sw_ResponseWriter w) l') g l.
Proof.
  intros Hp Hk HP. eapply hok_in_service; [apply _|exact (rg_stable _ _ _ _ _ Hp)|].
  intros a l' _ HQ. rewrite Hk. cbn. intros l'' Hl''. split; [done|].
  exists (f a). split; [done|]. by apply HP, HQ.
Qed.

(** [response, status, err := ...] and its answer. *)
Lemma answer_ok {A} (p : prog (result error (A * Z))) (encode : A → body) Q (q : request)
    (inject : result error (A * Z) → response) g l :
  safe s p Q l → (∀ r l', Q r l' → response_truth s q (inject r) l') →
  (∀ r, reply_of (inject r) = coded encode r) →
  hok (answer p encode recorder)
    (λ o g' l', g' = g ∧ ∃ w, o = Returned w ∧ answers s (inr q) (sw_ResponseWriter w) l') g l.
Proof.
  intros Hp Hin Hreply.
  apply (called_ok p Q _ (λ r, writeJSON (fst (coded encode r)) (snd (coded encode r)) recorder)); [done| |].
  - intros [e|[a status]]; [|done]. cbn [or_error]. by rewrite writeError_recorder.
  - intros r l' HQ. exists (inject r). split; [by apply Hin|]. rewrite Hreply. done.
Qed.

(** A handler that decodes a body first. *)
Lemma decoding_ok {A} (i : input A) (f : A → request) (r : Request Body)
    (k : A → hprog (statusWriter connection)) g l :
  (∀ a, hok (k a)
    (λ o g' l', g' = g ∧ ∃ w, o = Returned w ∧ answers s (inr (f a)) (sw_ResponseWriter w) l') g l) →
  hok (or_error (decodeJSON i r) recorder k)
    (λ o g' l', g' = g ∧ ∃ w, o = Returned w ∧ answers s (decoded i f r) (sw_ResponseWriter w) l') g l.
Proof.
  intros Hk. unfold decoded. destruct (decodeJSON i r) as [e|a] eqn:E; [|apply Hk].
  cbn. intros l' _. split; [done|]. eexists. split; [done|].
  assert (Is e ErrInvalidRequest = true) as Hinv.
  { unfold decodeJSON in E. repeat case_match; simplify_eq;
      apply Is_wrap_suffix; reflexivity. }
  exists (Error e). rewrite writeError_recorder. unfold error_body, error_reply. by rewrite Hinv.
Qed.

Definition serves (h : handler) (q : result error request) : Prop := handler_ok h (answers s q).

Lemma createAccount_ok r : serves (createAccount s r) (decoded InputCreateAccount ReqCreateAccount r).
Proof.
  intros g l. apply decoding_ok. intros a.
  by apply (answer_ok _ _ _ (ReqCreateAccount a) RespAccount _ _ (CreateAccount_safe s a l)).
Qed.
Lemma balance_ok id : serves (balance s id) (inr (ReqBalance id)).
Proof.
  intros g l. apply (called_ok _ _ _
    (λ r, writeJSON (fst (reply_of (RespBalance r))) (snd (reply_of (RespBalance r))) recorder) _ _ _
    (Balance_safe s id l)).
  - intros [e|b]; [|done]. cbn [or_error]. by rewrite writeError_recorder.
  - intros r l' HQ. by exists (RespBalance r).
Qed.
Lemma topUp_ok r : serves (topUp s r) (decoded InputTopUp ReqTopUp r).
Proof.
  intros g l. apply decoding_ok. intros a.
  by apply (answer_ok _ _ _ (ReqTopUp a) RespTransaction _ _ (TopUp_safe s a l)).
Qed.
Lemma withdraw_ok r : serves (withdraw s r) (decoded InputWithdrawal ReqWithdraw r).
Proof.
  intros g l. apply decoding_ok. intros a.
  by apply (answer_ok _ _ _ (ReqWithdraw a) RespTransaction _ _ (Withdraw_safe s a l)).
Qed.
Lemma allocateToCard_ok r : serves (allocateToCard s r) (decoded InputCardAllocation ReqAllocateToCard r).
Proof.
  intros g l. apply decoding_ok. intros a.
  by apply (answer_ok _ _ _ (ReqAllocateToCard a) RespTransaction _ _ (AllocateToCard_safe s a l)).
Qed.
Lemma returnFromCard_ok r : serves (returnFromCard s r) (decoded InputCardReturn ReqReturnFromCard r).
Proof.
  intros g l. apply decoding_ok. intros a.
  by apply (answer_ok _ _ _ (ReqReturnFromCard a) RespTransaction _ _ (ReturnFromCard_safe s a l)).
Qed.
Lemma authorize_ok r :
  serves (authorize s r) (decoded InputAuthorization (ReqAuthorize (Request_Context r)) r).
Proof.
  intros g l. apply decoding_ok. intros a.
  by apply (answer_ok _ _ _ (ReqAuthorize (Request_Context r) a) RespAuthorization _ _
              (Authorize_safe s (Request_Context r) a l)).
Qed.
Lemma increment_ok r :
  serves (increment s r) (decoded InputIncrement (ReqIncrementAuthorization (Request_Context r)) r).
Proof.
  intros g l. apply decoding_ok. intros a.
  by apply (answer_ok _ _ _ (ReqIncrementAuthorization (Request_Context r) a) RespIncrement _ _
              (IncrementAuthorization_safe s (Request_Context r) a l)).
Qed.
Lemma live_ok : handler_ok live (λ c _, responded StatusOK json_headers (BodyLive "ok") c).
Proof. intros g l. cbn. intros l' _. split; [done|]. by eexists. Qed.
Definition ready_sent (c : connection) : Prop :=
  ∃ h, responded (fst (ready_reply h)) json_headers (BodyReady (snd (ready_reply h))) c.
Lemma ready_ok : handler_ok ready (λ c _, ready_sent c).
Proof.
  intros g l. unfold ready. apply (called_ok _ _ _
    (λ h, writeJSON (fst (ready_reply h)) (BodyReady (snd (ready_reply h))) recorder) (λ c _, ready_sent c) _ _
    (LedgerHealth_safe s l)).
  - intros h. by destruct (ready_reply h).
  - intros h l' _. by exists h.
Qed.

(** ** Admission, middleware, recovery *)

Lemma ledgerReady_safe l : safe s ledgerReady (λ _ _, True) l.
Proof. eapply rg_map; [apply _|apply LedgerHealth_safe|done]. Qed.

(** A request that ended: not panicked, its slot and its count given back. *)
Definition sent {A} (P : A → L → Prop) : spec (L := L) A :=
  λ o g l, g = idle ∧ ∃ a, o = Returned a ∧ P a l.

Lemma reject_ok reason code message (P : statusWriter connection → L → Prop) l :
  (∀ w l', rejection code message (sw_ResponseWriter w) → P w l') →
  hok (reject reason code message recorder) (sent P) idle l.
Proof. intros HP. cbn. intros l' _. split; [done|]. eexists. split; [done|]. by apply HP. Qed.

Lemma leave_ok o (P : statusWriter connection → L → Prop) l :
  (∃ w, o = Returned w ∧ ∀ l', ledger_ext l l' → P w l') →
  hok leave (λ o' g l', ∃ u, o' = Returned u ∧ ∀ l'', ledger_ext l' l'' → sent P o g l'')
    (mkGhost true true) l.
Proof.
  intros (w & -> & HP). cbn. split_and!; [done|done|]. intros l' Hl'. exists tt. split; [done|].
  intros l'' Hl''. split; [done|]. exists w. split; [done|]. apply HP. by etransitivity.
Qed.

Lemma Wrap_ok h (P : connection → L → Prop) l :
  handler_ok h P →
  hok (Wrap ledgerReady h recorder)
    (sent (λ w l', not_admitted (sw_ResponseWriter w) ∨ P (sw_ResponseWriter w) l')) idle l.
Proof.
  intros Hh. eapply hok_in_service; [apply _|apply ledgerReady_safe|].
  intros [] l1 _ _; cbn [negb]; [|apply reject_ok; intros; left; by left].
  cbn. split_and!; [done|done| |].
  - apply hok_deferred; [apply _|].
    eapply hok_mono; [apply _| |exact (hok_stable _ _ _ _ _ _ (Hh (mkGhost true true) l1))].
    intros o g l2 _ Hst. destruct (Hst l2 (reflexivity _)) as (-> & w & -> & _).
    apply leave_ok. exists w. split; [done|]. intros l' Hl'. right.
    destruct (Hst l' Hl') as (_ & w' & Hw & HP). by injection Hw as <-.
  - intros l' _. split; [done|]. eexists. split; [done|]. left. by right.
Qed.

Lemma middleware_ok method name h (P : connection → L → Prop) l :
  hok (h recorder) (sent (λ w, P (sw_ResponseWriter w))) idle l →
  hok (HTTPMiddleware method name h new_connection) (sent P) idle l.
Proof.
  intros Hh. apply hok_bind; [apply _|].
  eapply hok_mono; [apply _| |exact (hok_stable _ _ _ _ _ _ Hh)].
  intros o g l' _ Hst. destruct (Hst l' (reflexivity _)) as (-> & w & -> & _). cbn.
  intros l'' Hl''. destruct (Hst l'' Hl'') as (_ & w' & Hw & HP). injection Hw as <-.
  split; [done|]. by eexists.
Qed.

Lemma recoverPanics_ok path next (P : connection → L → Prop) l :
  hok (next new_connection) (sent P) idle l →
  hok (recoverPanics path next new_connection) (sent P) idle l.
Proof.
  intros Hn. apply hok_recovered; [apply _|].
  eapply hok_mono; [apply _| |exact (hok_stable _ _ _ _ _ _ Hn)].
  intros o g l' _ Hst. destruct (Hst l' (reflexivity _)) as (_ & c & -> & _). apply Hst.
Qed.

(** A ledger route. *)
Lemma route_ok method name h (P : connection → L → Prop) l :
  handler_ok h P →
  hok (HTTPMiddleware method name (Wrap ledgerReady h) new_connection)
    (sent (λ c l, not_admitted c ∨ P c l)) idle l.
Proof. intros Hh. apply middleware_ok. by apply Wrap_ok. Qed.

(** The API is what the mux serves. *)
Lemma NewHandler_asks r q l :
  asks r q → hok (NewHandler s r new_connection) (sent (λ c l, not_admitted c ∨ answers s q c l)) idle l.
Proof.
  intros Hasks. apply recoverPanics_ok.
  destruct Hasks as [Hm Hp|id Hm Hp Hid|Hm Hp|Hm Hp|Hm Hp|Hm Hp|Hm Hp|Hm Hp];
    destruct r as [method path type body ctx]; cbn in Hm, Hp; subst.
  - exact (route_ok "POST" "create_account" _ _ l (createAccount_ok _)).
  - destruct id as [|ch id]; [done|].
    destruct Hm as [-> | ->]; exact (route_ok _ "get_balance" _ _ l (balance_ok (String.String ch id))).
  - exact (route_ok "POST" "topup" _ _ l (topUp_ok _)).
  - exact (route_ok "POST" "withdrawal" _ _ l (withdraw_ok _)).
  - exact (route_ok "POST" "card_allocation" _ _ l (allocateToCard_ok _)).
  - exact (route_ok "POST" "card_return" _ _ l (returnFromCard_ok _)).
  - exact (route_ok "POST" "authorization" _ _ l (authorize_ok _)).
  - exact (route_ok "POST" "authorization_increment" _ _ l (increment_ok _)).
Qed.

(** Any request at all is answered without a panic. *)
Lemma NewHandler_any r l : hok (NewHandler s r new_connection) (sent (λ _ _, True)) idle l.
Proof.
  apply recoverPanics_ok. unfold ServeMux.
  destruct (find_route (routes s) r) as [[rt values]|] eqn:Hfind.
  - assert (rt ∈ routes s) as Hin.
    { revert Hfind. generalize (routes s). intros rs. induction rs as [|rt' rs IH]; cbn; [done|].
      repeat case_match; intros; simplify_eq; first [by left|right; by apply IH]. }
    assert (∀ name h P, handler_ok h P → hok (HTTPMiddleware (Request_Method r) name
      (Wrap ledgerReady h) new_connection) (sent (λ _ _, True)) idle l) as Hroute.
    { intros name h P Hh. eapply hok_mono; [apply _| |by apply route_ok].
      intros o g l' _ (-> & c & -> & _). split; [done|]. by exists c. }
    assert (∀ name h P, handler_ok h P →
      hok (HTTPMiddleware (Request_Method r) name h new_connection) (sent (λ _ _, True)) idle l) as Hplain.
    { intros name h P Hh. apply (middleware_ok _ _ _ (λ _ _, True)).
      eapply hok_mono; [apply _| |apply (Hh idle)].
      intros o g l' _ (-> & w & -> & _). split; [done|]. by exists w. }
    clear Hfind. unfold routes in Hin.
    repeat (apply elem_of_cons in Hin as [->|Hin]); [..|by apply elem_of_nil in Hin].
    + exact (Hroute _ _ _ (createAccount_ok r)).
    + exact (Hroute _ _ _ (balance_ok _)).
    + exact (Hroute _ _ _ (topUp_ok r)).
    + exact (Hroute _ _ _ (withdraw_ok r)).
    + exact (Hroute _ _ _ (allocateToCard_ok r)).
    + exact (Hroute _ _ _ (returnFromCard_ok r)).
    + exact (Hroute _ _ _ (authorize_ok r)).
    + exact (Hroute _ _ _ (increment_ok r)).
    + exact (Hplain _ _ _ live_ok).
    + exact (Hplain _ _ _ ready_ok).
    + cbn. intros l' _. split; [done|]. by eexists.
  - destruct (path_methods s r); cbn; intros l' _; (split; [done|]); by eexists.
Qed.

(** ** Executions *)

(** A server before its requests. *)
Record at_rest (w : HWorld L) : Prop := {
  ar_inv : service_inv s (w_ledger (h_world w)) (w_cache (h_world w));
  ar_slots : slots (h_admission w) = 0;
  ar_gauge : admissionInFlight (h_admission w) = 0;
  ar_limit : 0 ≤ limit (h_admission w) }.

Definition http_requests_of (rs : list (Request Body)) : list (hprog connection) :=
  (λ r, NewHandler s r new_connection) <$> rs.
Definition http_reachable (env : Env) (rs : list (Request Body)) (w : HWorld L)
    (ts : list (hprog connection)) (w' : HWorld L) : Prop :=
  hpool_steps env (http_requests_of rs, w) (ts, w').

Definition any_spec : spec (L := L) connection := sent (λ _ _, True).

Lemma http_reachable_ok env rs w ts w' (Qs : list (spec (L := L) connection)) :
  env_ok env → at_rest w → http_reachable env rs w ts w' → length Qs = length rs →
  (∀ i Q r, Qs !! i = Some Q → rs !! i = Some r →
     hok (NewHandler s r new_connection) Q idle (w_ledger (h_world w))) →
  ∃ gs, hpool_ok (service_inv s) ledger_ext Qs gs (ts, w') ∧
    ledger_ext (w_ledger (h_world w)) (w_ledger (h_world w')) ∧ frame w w'.
Proof.
  intros Henv [Hinv Hs Hg Hl] Hreach Hlen Hall.
  eapply (hpool_steps_ok (service_inv s) ledger_ext env Qs _ _ _ Henv Hreach).
  apply (hpool_start (service_inv s) ledger_ext); try done.
  - unfold http_requests_of. by rewrite length_fmap.
  - intros i Q p HQ Hp. apply list_lookup_fmap_Some in Hp as (r & -> & Hr). by eapply Hall.
Qed.

Lemma http_any env rs w ts w' :
  env_ok env → at_rest w → http_reachable env rs w ts w' →
  ∃ gs, hpool_ok (service_inv s) ledger_ext (replicate (length rs) any_spec) gs (ts, w') ∧
    ledger_ext (w_ledger (h_world w)) (w_ledger (h_world w')) ∧ frame w w'.
Proof.
  intros Henv Hw Hreach. apply (http_reachable_ok env rs w ts w'); [done..|by rewrite length_replicate|].
  intros i Q r HQ _. apply lookup_replicate in HQ as [-> _]. apply NewHandler_any.
Qed.

(** A request that has ended has returned, without its slot. *)
Lemma any_ended gs ts w' n i p o :
  hpool_ok (service_inv s) ledger_ext (replicate n any_spec) gs (ts, w') →
  ts !! i = Some p → hresult p o → gs !! i = Some idle ∧ ∃ c, o = Returned c.
Proof.
  intros Hok Hp Hr. pose proof (to_specs _ _ _ _ _ _ (po_threads _ _ _ _ _ Hok)) as Hlen.
  pose proof (lookup_lt_Some _ _ _ Hp) as Hlt. cbn in Hlen. rewrite length_replicate in Hlen.
  assert (replicate n any_spec !! i = Some any_spec) as HQ
    by (apply lookup_replicate_2; rewrite Hlen; exact Hlt).
  destruct (hpool_result (service_inv s) ledger_ext _ _ _ _ _ _ _ _ Hok HQ Hp Hr)
    as (g & Hg & -> & c & -> & _).
  split; [done|by exists c].
Qed.
End http.

(** ** Theorems of the HTTP service *)

Definition answered_request {sdk : SDK} (p : hprog connection) : Prop := ∃ c, p = HRet c.

(** C7: The server is safe under any load.  Whatever HTTP requests arrive - any
    method, path, content type or body - and however they are interleaved: no
    handler panics and no panic is logged, the shared invariant of the service
    holds, no account definition or transfer is lost, the slots stay within the
    limit, no execution is infinite, and when no request can step every one has
    been answered, all slots are free and the gauge is zero. *)
Theorem http_concurrent_safety {sdk : SDK} {L : Type} {ledger : Ledger L} {view : LedgerView L}
    {contract : LedgerContract L} {Body : Type} {codecs : Codecs Body} s env rs (w : HWorld L) ts w' :
  env_ok env → at_rest s w → http_reachable s env rs w ts w' →
  (∀ i c, ts !! i ≠ Some (HPanic c)) ∧ h_panics w' = h_panics w ∧
  service_inv s (w_ledger (h_world w')) (w_cache (h_world w')) ∧
  ledger_ext (w_ledger (h_world w)) (w_ledger (h_world w')) ∧
  slots (h_admission w') ≤ limit (h_admission w) ∧
  Acc (λ cfg' cfg, hpool_step env cfg cfg') (ts, w') ∧
  ((∀ cfg, ¬ hpool_step env (ts, w') cfg) →
    (∀ i p, ts !! i = Some p → answered_request p) ∧
    slots (h_admission w') = 0 ∧ admissionInFlight (h_admission w') = 0).
Proof.
  intros Henv Hw Hreach.
  destruct (http_any s env rs w ts w' Henv Hw Hreach) as (gs & Hok & Hext & Hlim & Hpan).
  pose proof Hok as [Hinv [_ _ Hle] [HlQ Hlg _]]. cbn [fst snd] in *.
  split_and!; [|done|done|done|by rewrite <- Hlim|apply hpool_step_acc|].
  { intros i c Hi. destruct (any_ended s gs ts w' _ i _ (Panicked c) Hok Hi eq_refl) as [_ [c' Hc]]. done. }
  intros Hstuck.
  assert (∀ i p, ts !! i = Some p → answered_request p) as Hans.
  { intros i p Hp.
    destruct (hpool_progress _ _ env _ gs ts w' i p Hok Hp) as [[c ->]|[[c ->]|[cfg Hst]]].
    - by exists c.
    - destruct (any_ended s gs ts w' _ i _ (Panicked c) Hok Hp eq_refl) as [_ [c' Hc]]. done.
    - by destruct (Hstuck cfg). }
  split; [done|]. apply (hpool_all_idle _ _ _ gs ts w' Hok). intros i g Hi.
  pose proof (lookup_lt_Some _ _ _ Hi) as Hlt. rewrite Hlg in Hlt.
  destruct (lookup_lt_is_Some_2 ts i Hlt) as [p Hp]. destruct (Hans i p Hp) as [c ->].
  destruct (any_ended s gs ts w' _ i _ (Returned c) Hok Hp eq_refl) as [Hidle _]. congruence.
Qed.

(** A codec for witnesses: a body is the value it decodes to. *)
Inductive plain_body := PlainTopUp (r : TopUpRequest) | PlainWithdrawal (r : WithdrawalRequest) | PlainText.
Definition unexpected : error := External "unexpected value".
Definition plain_decode {A} (i : input A) (b : plain_body) : result error A :=
  match i in input A return result error A with
  | InputTopUp => match b with PlainTopUp r => inr r | _ => inl unexpected end
  | InputWithdrawal => match b with PlainWithdrawal r => inr r | _ => inl unexpected end
  | _ => inl unexpected
  end.
#[export] Instance plain_codecs : Codecs plain_body := {|
  MaxBytesReader _ b := b;
  Decode A i b := (plain_decode i b, b);
  DecodeEOF _ := true;
  ParseMediaType t := inr t;
  promhttp c := c |}.

Definition http_world (limit : Z) (w : World fakeLedger) : HWorld fakeLedger :=
  mkHWorld w (mkAdmissionController 0 limit 0 [] []) [].
Lemma http_world_at_rest limit :
  0 ≤ limit → at_rest (service 100000) (http_world limit world_card).
Proof. intros Hl. by split; [apply world_card_inv|..]. Qed.

(** A withdrawal, a top-up with a wrong content type, and a balance query. *)
Definition http_test_requests : list (Request plain_body) :=
  [mkRequest "POST" ["v1"; "withdrawals"] "Application/JSON" (PlainWithdrawal withdrawal_request) None;
   mkRequest "POST" ["v1"; "topups"] "text/plain" (PlainTopUp topup_request) None;
   mkRequest "GET" ["v1"; "accounts"; testCardAccountID] "" PlainText None].
Definition http_test_run (limit : Z) (schedule : list nat) : list (hprog connection) * HWorld fakeLedger :=
  hexec test_env schedule (http_requests_of (service 100000) http_test_requests, http_world limit world_card).
Definition in_turns : list nat := concat (replicate 40 [0; 1; 2]%nat).

Lemma http_test_reachable limit schedule :
  http_reachable (service 100000) test_env http_test_requests (http_world limit world_card)
    (fst (http_test_run limit schedule)) (snd (http_test_run limit schedule)).
Proof. unfold http_reachable, http_test_run. rewrite <- surjective_pairing. apply hexec_steps. Qed.

Lemma http_concurrent_safety_witness : h_panics (snd (http_test_run 2 in_turns)) = [].
Proof.
  refine (proj1 (proj2 (http_concurrent_safety (service 100000) test_env http_test_requests
    (http_world 2 world_card) (fst (http_test_run 2 in_turns)) (snd (http_test_run 2 in_turns)) _ _ _))).
  - apply test_env_ok.
  - by apply http_world_at_rest.
  - apply http_test_reachable.
Defined.

(** The answer of a request of the API, in every interleaving. *)
Lemma http_answered {sdk : SDK} {L : Type} {ledger : Ledger L} {view : LedgerView L}
    {contract : LedgerContract L} {Body : Type} {codecs : Codecs Body} s env rs (w : HWorld L) ts w' i r q c :
  env_ok env → at_rest s w → http_reachable s env rs w ts w' →
  rs !! i = Some r → asks r q → ts !! i = Some (HRet c) →
  not_admitted c ∨ answers s q c (w_ledger (h_world w')).
Proof.
  intros Henv Hw Hreach Hr Hasks Hc.
  set (Q := sent (λ c l, not_admitted c ∨ answers s q c l) : spec (L := L) connection).
  destruct (http_reachable_ok s env rs w ts w' (<[i := Q]> (replicate (length rs) any_spec)) Henv Hw Hreach)
    as (gs & Hok & _).
  { by rewrite length_insert, length_replicate. }
  { intros j Q' r' HQ' Hr'. apply list_lookup_insert_Some in HQ' as [(<- & <- & _)|[_ HQ']].
    - rewrite Hr in Hr'. injection Hr' as <-. by apply NewHandler_asks.
    - apply lookup_replicate in HQ' as [-> _]. apply NewHandler_any. }
  assert (<[i := Q]> (replicate (length rs) any_spec) !! i = Some Q) as HQ
    by (apply list_lookup_insert_eq; rewrite length_replicate; by eapply lookup_lt_Some).
  destruct (hpool_result _ _ _ gs ts w' i _ (Returned c) Q Hok HQ Hc eq_refl) as (g & _ & _ & c' & Hc' & HP).
  by injection Hc' as <-.
Qed.

(** The withdrawal and what it is sent. *)
Definition withdrawal_answer : connection :=
  writeJSON StatusOK (BodyTransaction (mkTransactionResponse "a5" "a5" "posted" "TransferCreated"
    1787000000000000007 "" "")) new_connection.
Lemma withdrawal_asked :
  asks (mkRequest "POST" ["v1"; "withdrawals"] "Application/JSON" (PlainWithdrawal withdrawal_request) None)
    (inr (ReqWithdraw withdrawal_request)).
Proof.
  set (r := mkRequest _ _ _ _ _).
  assert (decoded InputWithdrawal ReqWithdraw r = inr (ReqWithdraw withdrawal_request)) as E
    by by_computation.
  rewrite <- E. by apply asks_withdrawal.
Qed.
