(* ===== verification/HttpRefinement.v ===== *)
(** * The HTTP server refines the service

    A simulation: an execution of any HTTP requests is, effect by effect, an
    execution of service methods - for each request the readiness check of its
    admission and the method it asks for - on the same world, and what each
    request is sent is what these two methods returned. *)
From S2P Require Import Prelude GoBase GoCrypto Domain TigerBeetle TigerBeetleModel LedgerModel.
From S2P Require Import Cache Health Interface Semantics Contract FakeLedger Service ServiceSpec.
From S2P Require Import Operations OperationsSpec Invariant Safety Replay Scenarios System Requests Snapshots.
From S2P Require Import Http HttpProgram Admission HttpSemantics Server HttpSystem.
Import GoInt GoError GoTime.
Local Open Scope Z_scope.

(** ** The simulation *)
Section simulation.
Context {sdk : SDK}.

(** What is left of the two methods, the check and the call, when a handler ends. *)
Definition ending A : Type := outcome A → prog response → prog response → Prop.

(** An effect on the service is the next effect of one of the two methods; the
    others are not seen by them. *)
Definition heff_follows {X} (e : heff X) :
    (X → prog response → prog response → Prop) → prog response → prog response → Prop :=
  match e in heff X return
    (X → prog response → prog response → Prop) → prog response → prog response → Prop with
  | ServiceEffect e => λ K check call,
      (∃ f, check = Call e f ∧ ∀ x, K x (f x) call) ∨ (∃ f, call = Call e f ∧ ∀ x, K x check (f x))
  | _ => λ K check call, ∀ x, K x check call
  end.
Fixpoint follows {A} (p : hprog A) (Q : ending A) : prog response → prog response → Prop :=
  match p with
  | HRet a => Q (Returned a)
  | HPanic c => Q (Panicked c)
  | HCall e k => heff_follows e (λ x, follows (k x) Q)
  end.

Lemma heff_follows_mono {X} (e : heff X) (K K' : X → prog response → prog response → Prop) check call :
  (∀ x check call, K x check call → K' x check call) →
  heff_follows e K check call → heff_follows e K' check call.
Proof. intros HK. destruct e; cbn; naive_solver. Qed.

Lemma follows_mono {A} (p : hprog A) (Q Q' : ending A) check call :
  (∀ o check call, Q o check call → Q' o check call) → follows p Q check call → follows p Q' check call.
Proof.
  intros HQ. revert check call. induction p as [a|c|X e k IH]; intros check call; cbn; [apply HQ..|].
  apply heff_follows_mono, IH.
Qed.

Lemma follows_bind {A B} (p : hprog A) (f : A → hprog B) Q check call :
  follows p (λ o, match o with Returned a => follows (f a) Q | Panicked c => Q (Panicked c) end) check call →
  follows (hbind p f) Q check call.
Proof.
  revert check call. induction p as [a|c|X e k IH]; intros check call; cbn; [done..|].
  apply heff_follows_mono, IH.
Qed.

Lemma follows_deferred {A} (p : hprog A) cleanup Q check call :
  follows p (λ o, follows cleanup
    (λ o', match o' with Returned _ => Q o | Panicked c => Q (Panicked c) end)) check call →
  follows (deferred p cleanup) Q check call.
Proof.
  revert check call. induction p as [a|c|X e k IH]; intros check call; cbn.
  3: apply heff_follows_mono, IH.
  all: intros H; apply follows_bind; revert H; apply follows_mono; by intros [] ? ?.
Qed.

Lemma follows_recovered {A} (p : hprog A) handler Q check call :
  follows p (λ o, match o with Returned a => Q (Returned a) | Panicked c => follows (handler c) Q end)
    check call →
  follows (recovered p handler) Q check call.
Proof.
  revert check call. induction p as [a|c|X e k IH]; intros check call; cbn; [done..|].
  apply heff_follows_mono, IH.
Qed.

(** A method called from a handler is the call. *)
Lemma follows_call {A B} c (p : prog A) (k : A → hprog B) (f : A → response) Q check :
  (∀ a, follows (k a) Q check (Ret (f a))) → Q (Panicked c) check Panic →
  follows (in_service c p k) Q check (bind p (λ a, Ret (f a))).
Proof.
  intros Hk Hpanic. induction p as [a| |X e g IH]; cbn; [apply Hk|done|].
  right. eexists. split; [done|]. exact IH.
Qed.

Context {L : Type} {ledger : Ledger L}.

(** Every handler with what is left of its methods. *)
Record following {A} (Qs : list (ending A)) (ts : list (hprog A)) (checks calls : list (prog response)) :
    Prop := {
  fo_specs : length Qs = length ts;
  fo_checks : length checks = length ts;
  fo_calls : length calls = length ts;
  fo_follows i Q p check call : Qs !! i = Some Q → ts !! i = Some p → checks !! i = Some check →
    calls !! i = Some call → follows p Q check call }.

(** An effect of the HTTP layer alone. *)
Definition unseen {X} (e : heff X) : Prop := if e is ServiceEffect _ then False else True.
Lemma hhandle_unseen env {X} (e : heff X) (w : HWorld L) x w' :
  unseen e → hhandle env e w = Some (x, w') → h_world w' = h_world w.
Proof.
  destruct e; cbn; intros Hu Hh; try done.
  - destruct (try_acquire _). by simplify_eq.
  - destruct (release _); by simplify_eq/=.
  - by simplify_eq.
  - by simplify_eq.
  - by simplify_eq.
  - by simplify_eq.
  - by simplify_eq.
Qed.

Lemma following_insert {A} (Qs : list (ending A)) ts checks calls i Q p check call :
  following Qs ts checks calls → Qs !! i = Some Q → follows p Q check call →
  following Qs (<[i := p]> ts) (<[i := check]> checks) (<[i := call]> calls).
Proof.
  intros [HlQ Hlk Hlc Hall] HQ Hp. split; rewrite ?length_insert; [done..|].
  intros j Q' p' check' call' HQ' Hp' Hk' Hc'. pose proof (lookup_lt_Some _ _ _ HQ) as Hlt.
  destruct (decide (j = i)) as [->|Hne].
  - rewrite list_lookup_insert_eq in Hp' by lia. rewrite list_lookup_insert_eq in Hk' by lia.
    rewrite list_lookup_insert_eq in Hc' by lia. by simplify_eq.
  - rewrite list_lookup_insert_ne in Hp' by done. rewrite list_lookup_insert_ne in Hk' by done.
    rewrite list_lookup_insert_ne in Hc' by done. by eapply Hall.
Qed.

(** The diagram: one effect of a handler is one effect of the methods, or none. *)
Lemma hpool_step_follows env {A} (Qs : list (ending A)) cfg cfg' checks calls :
  hpool_step env cfg cfg' → following Qs (fst cfg) checks calls →
  ∃ checks' calls', following Qs (fst cfg') checks' calls' ∧
    pool_steps env (checks ++ calls, h_world (snd cfg)) (checks' ++ calls', h_world (snd cfg')).
Proof.
  intros Hstep Hf. destruct Hstep as [ts i X e k w x w' Hi Hh]. cbn [fst snd] in *.
  pose proof Hf as [HlQ Hlk Hlc Hall]. pose proof (lookup_lt_Some _ _ _ Hi) as Hlt.
  destruct (lookup_lt_is_Some_2 Qs i) as [Q HQ]; [lia|].
  destruct (lookup_lt_is_Some_2 checks i) as [check Hcheck]; [lia|].
  destruct (lookup_lt_is_Some_2 calls i) as [call Hcall]; [lia|].
  pose proof (Hall i Q _ check call HQ Hi Hcheck Hcall) as Hp. cbn in Hp.
  assert (unseen e → ∃ checks' calls', following Qs (<[i := k x]> ts) checks' calls' ∧
    pool_steps env (checks ++ calls, h_world w) (checks' ++ calls', h_world w')) as Hunseen.
  { intros Hu. exists checks, calls. rewrite (hhandle_unseen env e w x w' Hu Hh). split; [|done].
    rewrite <- (list_insert_id checks i check Hcheck), <- (list_insert_id calls i call Hcall).
    apply (following_insert _ _ _ _ _ Q); [done..|]. by destruct e; cbn in Hp, Hu. }
  destruct e as [X e| | | | |reason|m r st|path]; [clear Hunseen|by apply Hunseen..].
  cbn in Hh. destruct (Semantics.handle env e (h_world w)) as [y w1] eqn:He. injection Hh as -> <-.
  destruct Hp as [(f & -> & Hf')|(f & -> & Hf')].
  - exists (<[i := f x]> checks), calls. split.
    + rewrite <- (list_insert_id calls i call Hcall). by apply (following_insert _ _ _ _ _ Q).
    + cbn. rewrite <- insert_app_l by lia. apply rtc_once. econstructor; [|exact He].
      by rewrite lookup_app_l by lia.
  - exists checks, (<[i := f x]> calls). split.
    + rewrite <- (list_insert_id checks i check Hcheck). by apply (following_insert _ _ _ _ _ Q).
    + cbn. rewrite <- insert_app_r. apply rtc_once. econstructor; [|exact He].
      rewrite lookup_app_r by lia. by replace (length checks + i - length checks)%nat with i by lia.
Qed.

Lemma hpool_steps_follow env {A} (Qs : list (ending A)) cfg cfg' checks calls :
  hpool_steps env cfg cfg' → following Qs (fst cfg) checks calls →
  ∃ checks' calls', following Qs (fst cfg') checks' calls' ∧
    pool_steps env (checks ++ calls, h_world (snd cfg)) (checks' ++ calls', h_world (snd cfg')).
Proof.
  intros Hsteps. revert checks calls. induction Hsteps as [|cfg1 cfg2 cfg3 Hstep _ IH]; intros checks calls Hf.
  { exists checks, calls. by split. }
  destruct (hpool_step_follows env Qs _ _ checks calls Hstep Hf) as (ks & cs & Hf1 & Hsteps1).
  destruct (IH ks cs Hf1) as (ks' & cs' & Hf2 & Hsteps2). exists ks', cs'. split; [done|].
  by etransitivity.
Qed.
End simulation.

(** ** What a request is served by *)
Section served.
Context {sdk : SDK} {Body : Type} {codecs : Codecs Body}.

(** The method a request asks for, computed; [None] outside the API. *)
Definition asked (r : Request Body) : option (result error request) :=
  let path := Request_Path r in
  if decide (Request_Method r = "POST") then
    if decide (path = ["v1"; "accounts"]) then Some (decoded InputCreateAccount ReqCreateAccount r)
    else if decide (path = ["v1"; "topups"]) then Some (decoded InputTopUp ReqTopUp r)
    else if decide (path = ["v1"; "withdrawals"]) then Some (decoded InputWithdrawal ReqWithdraw r)
    else if decide (path = ["v1"; "card-allocations"]) then
      Some (decoded InputCardAllocation ReqAllocateToCard r)
    else if decide (path = ["v1"; "card-returns"]) then Some (decoded InputCardReturn ReqReturnFromCard r)
    else if decide (path = ["v1"; "authorizations"]) then
      Some (decoded InputAuthorization (ReqAuthorize (Request_Context r)) r)
    else if decide (path = ["v1"; "authorizations"; "increments"]) then
      Some (decoded InputIncrement (ReqIncrementAuthorization (Request_Context r)) r)
    else None
  else if decide (Request_Method r = "GET" ∨ Request_Method r = "HEAD") then
    match path with
    | [version; accounts; id] =>
        if decide (version = "v1" ∧ accounts = "accounts" ∧ id ≠ "") then Some (inr (ReqBalance id)) else None
    | _ => None
    end
  else None.

Lemma asks_asked r q : asks r q → asked r = Some q.
Proof.
  destruct r as [method path type body ctx].
  destruct 1 as [Hm Hp|id Hm Hp Hid|Hm Hp|Hm Hp|Hm Hp|Hm Hp|Hm Hp|Hm Hp]; cbn in Hm, Hp; subst;
    unfold asked; cbn [Request_Method Request_Path]; try reflexivity.
  rewrite decide_False by (by destruct Hm as [-> | ->]). rewrite decide_True by done.
  by rewrite decide_True.
Qed.

(** The method itself; one that is never started for a request without any. *)
Definition call_of (r : Request Body) : request :=
  match asked r with Some (inr q) => q | _ => ReqLedgerHealth end.

Definition replies (a : response) (c : connection) : Prop :=
  responded (fst (reply_of a)) json_headers (snd (reply_of a)) c.
Definition replies_error (e : error) (c : connection) : Prop :=
  responded (fst (error_body e)) json_headers (snd (error_body e)) c.
Definition stalled_rejection : connection → Prop :=
  rejection "ledger_stalled" "the ledger is not responding; retry the same request".
Definition overload_rejection : connection → Prop :=
  rejection "overloaded" "too many operations are in flight; retry the same request".

(** The reply [c] to [r], by what the readiness check and the call returned.  A
    request of the API is rejected when the check found the ledger stalled, or
    else for want of a slot; or its body does not decode and the call is not
    started; or the reply is that of the value the call returned.  A request
    outside the API starts no call, and only [/health/ready] a check, whose value
    it is sent. *)
Definition tied (s : Service) (r : Request Body) (c : connection) (check call : prog response) : Prop :=
  let unstarted := call = dispatch s (call_of r) in
  match asked r with
  | Some q =>
      ∃ health, check = Ret (RespHealth health) ∧
      if Ready health then
        (overload_rejection c ∧ unstarted) ∨
        match q with
        | inl e => Is e ErrInvalidRequest = true ∧ replies_error e c ∧ unstarted
        | inr _ => ∃ a, call = Ret a ∧ replies a c
        end
      else stalled_rejection c ∧ unstarted
  | None =>
      unstarted ∧
      (check = dispatch s ReqLedgerHealth ∨
       ∃ health, check = Ret (RespHealth health) ∧ replies (RespHealth health) c)
  end.

Definition crashed (check call : prog response) : Prop := check = Panic ∨ call = Panic.
Definition ended_by {A} (conn : A → connection)
    (P : connection → prog response → prog response → Prop) : ending A :=
  λ o check call, match o with Returned a => P (conn a) check call | Panicked _ => crashed check call end.

(** *** The layers around a handler *)

Lemma recoverPanics_follows path next P check call :
  (∀ c check call, crashed check call → P c check call) →
  follows (next new_connection) (ended_by id P) check call →
  follows (recoverPanics path next new_connection) (ended_by id P) check call.
Proof.
  intros HP Hn. apply follows_recovered. revert Hn. apply follows_mono. intros [a|c] k l H; [done|].
  cbn. intros _. by apply HP.
Qed.

Lemma middleware_follows method name h P check call :
  follows (h recorder) (ended_by sw_ResponseWriter P) check call →
  follows (HTTPMiddleware method name h new_connection) (ended_by id P) check call.
Proof. intros Hh. apply follows_bind. revert Hh. apply follows_mono. intros [w|c] k l H; cbn; [by intros _|done]. Qed.

Lemma Wrap_follows (s : Service) h P call :
  (∀ health c, Ready health = false → stalled_rejection c → P c (Ret (RespHealth health)) call) →
  (∀ health c, Ready health = true → overload_rejection c → P c (Ret (RespHealth health)) call) →
  (∀ health, Ready health = true →
     follows (h recorder) (ended_by sw_ResponseWriter P) (Ret (RespHealth health)) call) →
  follows (Wrap ledgerReady h recorder) (ended_by sw_ResponseWriter P) (dispatch s ReqLedgerHealth) call.
Proof.
  intros Hstalled Hover Hh. cbn. left. eexists. split; [done|]. intros now.
  left. eexists. split; [done|]. intros health. cbn.
  destruct (Ready health) eqn:Hready; cbn [negb].
  - intros [].
    + intros u. apply follows_deferred. pose proof (Hh health Hready) as H. revert H.
      apply follows_mono. intros o k l H. cbn. intros u1 u2. by destruct o.
    + intros u. by apply Hover.
  - intros u. by apply Hstalled.
Qed.
End served.

(** *** The handlers and the mux *)
Section handlers.
Context {sdk : SDK} {Body : Type} {codecs : Codecs Body} (s : Service).
Implicit Types (r : Request Body) (health : LedgerHealth).

Definition tied_or_crashed r : connection → prog response → prog response → Prop :=
  λ c check call, tied s r c check call ∨ crashed check call.
(** A handler that was admitted. *)
Definition admitted_follows (h : handler) r : Prop :=
  ∀ health, Ready health = true →
  follows (h recorder) (ended_by sw_ResponseWriter (tied_or_crashed r)) (Ret (RespHealth health))
    (dispatch s (call_of r)).

Lemma answer_follows {A} (p : prog (result error (A * Z))) encode inject r q :
  asked r = Some (inr q) → dispatch s q = bind p (λ x, Ret (inject x)) →
  (∀ x, reply_of (inject x) = coded encode x) → admitted_follows (answer p encode) r.
Proof.
  intros Hq Hd Hreply health Hready. unfold call_of. rewrite Hq, Hd. apply follows_call; [|by right].
  assert (∀ x, replies (inject x) (sw_ResponseWriter (writeJSON (fst (coded encode x)) (snd (coded encode x)) recorder)) →
    tied_or_crashed r (sw_ResponseWriter (writeJSON (fst (coded encode x)) (snd (coded encode x)) recorder))
      (Ret (RespHealth health)) (Ret (inject x))) as Hdone.
  { intros x Hx. left. unfold tied. rewrite Hq. exists health. split; [done|]. rewrite Hready. right.
    by exists (inject x). }
  intros x. specialize (Hdone x). unfold replies in Hdone. rewrite Hreply in Hdone.
  destruct x as [e|[a status]]; cbn [or_error]; [|by apply Hdone].
  rewrite writeError_recorder. by apply Hdone.
Qed.

Lemma decodeJSON_invalid {A} (i : input A) r e : decodeJSON i r = inl e → Is e ErrInvalidRequest = true.
Proof.
  unfold decodeJSON. intros E. repeat case_match; simplify_eq; apply Is_wrap_suffix; reflexivity.
Qed.

Lemma decoding_follows {A R} (i : input A) (f : A → request) (call : A → prog (result error (R * Z)))
    encode inject r :
  asked r = Some (decoded i f r) → (∀ a, dispatch s (f a) = bind (call a) (λ x, Ret (inject x))) →
  (∀ x, reply_of (inject x) = coded encode x) →
  admitted_follows (λ w, or_error (decodeJSON i r) w (λ a, answer (call a) encode w)) r.
Proof.
  intros Hq Hd Hreply health Hready. unfold decoded in Hq.
  destruct (decodeJSON i r) as [e|a] eqn:E; cbn [or_error].
  - left. unfold tied. rewrite Hq. exists health. split; [done|]. rewrite Hready. right.
    split_and!; [by eapply decodeJSON_invalid| |done]. by rewrite writeError_recorder.
  - by apply (answer_follows (call a) encode inject r (f a)).
Qed.

Lemma balance_follows r id : asked r = Some (inr (ReqBalance id)) → admitted_follows (balance s id) r.
Proof.
  intros Hq health Hready. unfold call_of. rewrite Hq. apply (follows_call _ _ _ RespBalance); [|by right].
  intros x. assert (∀ c, replies (RespBalance x) c →
    tied_or_crashed r c (Ret (RespHealth health)) (Ret (RespBalance x))) as Hdone.
  { intros c Hc. left. unfold tied. rewrite Hq. exists health. split; [done|]. rewrite Hready. right.
    by exists (RespBalance x). }
  destruct x as [e|b]; cbn [or_error]; [|by apply Hdone]. rewrite writeError_recorder. by apply Hdone.
Qed.

Lemma api_route name h r q :
  asked r = Some q → admitted_follows h r →
  follows (HTTPMiddleware (Request_Method r) name (Wrap ledgerReady h) new_connection)
    (ended_by id (tied_or_crashed r)) (dispatch s ReqLedgerHealth) (dispatch s (call_of r)).
Proof.
  intros Hq Hh. apply middleware_follows, Wrap_follows; [..|done];
    intros health c Hready Hc; left; unfold tied; rewrite Hq; exists health; rewrite Hready; auto.
Qed.

Lemma post_route {A R} (i : input A) (f : A → request) (call : A → prog (result error (R * Z)))
    encode inject literals values name r :
  match_path (Some <$> literals) (Request_Path r) = Some values →
  match_method "POST" (Request_Method r) = true →
  (Request_Method r = "POST" → Request_Path r = literals → asks r (decoded i f r)) →
  (∀ a, dispatch s (f a) = bind (call a) (λ x, Ret (inject x))) →
  (∀ x, reply_of (inject x) = coded encode x) →
  follows (HTTPMiddleware (Request_Method r) name
      (Wrap ledgerReady (λ w, or_error (decodeJSON i r) w (λ a, answer (call a) encode w))) new_connection)
    (ended_by id (tied_or_crashed r)) (dispatch s ReqLedgerHealth) (dispatch s (call_of r)).
Proof.
  intros Hpath Hmethod Hasks Hd Hreply.
  specialize (Hasks (post_method _ Hmethod) (match_literal _ _ _ Hpath)). apply asks_asked in Hasks.
  eapply api_route; [exact Hasks|]. by eapply decoding_follows.
Qed.

(** Requests outside the API. *)
Lemma asked_asks r q : asked r = Some q → asks r q.
Proof.
  unfold asked. intros Hq. case_decide as Hpost.
  - repeat (case_decide; [injection Hq as <-; by constructor|]). done.
  - case_decide as Hget; [|done]. destruct (Request_Path r) as [|a [|b [|id [|]]]] eqn:Hp; try done.
    case_decide as Hid; [|done]. destruct Hid as (-> & -> & Hid). injection Hq as <-. by constructor.
Qed.

Lemma asks_routed r q : asks r q → is_Some (find_route (routes s) r).
Proof.
  destruct r as [method path type body ctx].
  destruct 1 as [Hm Hp|id Hm Hp Hid|Hm Hp|Hm Hp|Hm Hp|Hm Hp|Hm Hp|Hm Hp]; cbn in Hm, Hp; subst;
    try by eexists.
  destruct id as [|ch id]; [done|]. by destruct Hm as [-> | ->]; eexists.
Qed.

Lemma unasked_tied r c check : asked r = None →
  check = dispatch s ReqLedgerHealth ∨ (∃ health, check = Ret (RespHealth health) ∧ replies (RespHealth health) c) →
  tied_or_crashed r c check (dispatch s (call_of r)).
Proof. intros Hq Hcheck. left. unfold tied. by rewrite Hq. Qed.

Lemma unasked_path r values literals :
  match_path (Some <$> literals) (Request_Path r) = Some values → hd "" literals ≠ "v1" → asked r = None.
Proof.
  intros <-%match_literal Hhd. destruct (asked r) as [q|] eqn:Hq; [|done].
  apply asked_asks in Hq. destruct Hq as [? Hp|? ? Hp|? Hp|? Hp|? Hp|? Hp|? Hp|? Hp]; by rewrite Hp in Hhd.
Qed.

Lemma ready_follows r : asked r = None →
  follows (ready recorder) (ended_by sw_ResponseWriter (tied_or_crashed r)) (dispatch s ReqLedgerHealth)
    (dispatch s (call_of r)).
Proof.
  intros Hq. cbn. left. eexists. split; [done|]. intros now. left. eexists. split; [done|]. intros health.
  cbn. assert (∀ c, replies (RespHealth health) c →
    tied_or_crashed r c (Ret (RespHealth health)) (dispatch s (call_of r))) as Hdone
    by (intros c Hc; apply unasked_tied; eauto).
  unfold replies in Hdone. cbn [reply_of] in Hdone. destruct (ready_reply health) as [status b].
  by apply Hdone.
Qed.

(** Every request, by the route the mux takes. *)
Lemma NewHandler_follows r :
  follows (NewHandler s r new_connection) (ended_by id (tied_or_crashed r)) (dispatch s ReqLedgerHealth)
    (dispatch s (call_of r)).
Proof.
  apply recoverPanics_follows; [by right|]. unfold ServeMux.
  destruct (find_route (routes s) r) as [[rt values]|] eqn:Hfind.
  2:{ assert (asked r = None) as Hq.
      { destruct (asked r) as [q|] eqn:Hq; [|done]. apply asked_asks, asks_routed in Hq. rewrite Hfind in Hq.
        by destruct Hq. }
      destruct (path_methods s r); cbn; apply unasked_tied; auto. }
  apply find_route_spec in Hfind as (Hin & Hpath & Hmethod). unfold routes in Hin.
  repeat (apply elem_of_cons in Hin as [->|Hin]); [..|by apply elem_of_nil in Hin];
    cbn [route_path route_method route_handler handle] in *.
  - by apply (post_route InputCreateAccount ReqCreateAccount (CreateAccount s) BodyAccount RespAccount
      ["v1"; "accounts"] values); [..|apply asks_create_account| |].
  - assert (asks r (inr (ReqBalance (hd "" values)))) as Hq%asks_asked.
    { unfold match_method in Hmethod. rewrite orb_true_iff, andb_true_iff, !bool_decide_eq_true in Hmethod.
      destruct (Request_Path r) as [|a [|b [|id [|]]]] eqn:Hp; cbn in Hpath; repeat case_decide; simplify_eq/=.
      by apply asks_balance; [naive_solver|..]. }
    apply (api_route _ _ _ _ Hq). by apply balance_follows.
  - by apply (post_route InputTopUp ReqTopUp (TopUp s) BodyTransaction RespTransaction
      ["v1"; "topups"] values); [..|apply asks_topup| |].
  - by apply (post_route InputWithdrawal ReqWithdraw (Withdraw s) BodyTransaction RespTransaction
      ["v1"; "withdrawals"] values); [..|apply asks_withdrawal| |].
  - by apply (post_route InputCardAllocation ReqAllocateToCard (AllocateToCard s) BodyTransaction RespTransaction
      ["v1"; "card-allocations"] values); [..|apply asks_allocation| |].
  - by apply (post_route InputCardReturn ReqReturnFromCard (ReturnFromCard s) BodyTransaction RespTransaction
      ["v1"; "card-returns"] values); [..|apply asks_return| |].
  - by apply (post_route InputAuthorization (ReqAuthorize (Request_Context r)) (Authorize s (Request_Context r))
      BodyAuthorization RespAuthorization ["v1"; "authorizations"] values); [..|apply asks_authorization| |].
  - by apply (post_route InputIncrement (ReqIncrementAuthorization (Request_Context r))
      (IncrementAuthorization s (Request_Context r)) BodyIncrement RespIncrement
      ["v1"; "authorizations"; "increments"] values); [..|apply asks_increment| |].
  - apply middleware_follows. cbn. apply unasked_tied; [|by left].
    by apply (unasked_path r values ["health"; "live"]).
  - apply middleware_follows, ready_follows. by apply (unasked_path r values ["health"; "ready"]).
  - cbn. apply unasked_tied; [|by left]. by apply (unasked_path r values ["metrics"]).
Qed.
End handlers.

(** ** The refinement *)
Section refinement.
Context {sdk : SDK} {L : Type} {ledger : Ledger L} {view : LedgerView L} {contract : LedgerContract L}.
Context {Body : Type} {codecs : Codecs Body} (s : Service).

(** The methods of a list of requests: the checks, then the calls. *)
Definition methods (rs : list (Request Body)) : list request :=
  replicate (length rs) ReqLedgerHealth ++ (call_of <$> rs).

(** An execution of HTTP requests as one of service methods: [checks] and [calls]
    are what is left of them, in the same world, and every request that was
    answered was answered by what its own two methods returned. *)
Record refined (env : Env) (rs : list (Request Body)) (w : HWorld L) (ts : list (hprog connection))
    (w' : HWorld L) (checks calls : list (prog response)) : Prop := {
  refined_execution : reachable s env (methods rs) (h_world w) (checks ++ calls) (h_world w');
  refined_checks : length checks = length rs;
  refined_calls : length calls = length rs;
  refined_reply i r c : rs !! i = Some r → ts !! i = Some (HRet c) →
    ∃ check call, checks !! i = Some check ∧ calls !! i = Some call ∧ tied s r c check call }.

Lemma handlers_methods rs :
  handlers s (methods rs) =
  replicate (length rs) (dispatch s ReqLedgerHealth) ++ ((λ r, dispatch s (call_of r)) <$> rs).
Proof.
  unfold handlers, methods. rewrite fmap_app, fmap_replicate. f_equal. by rewrite <- list_fmap_compose.
Qed.

Lemma following_start rs :
  following ((λ r, ended_by id (tied_or_crashed s r)) <$> rs) (http_requests_of s rs)
    (replicate (length rs) (dispatch s ReqLedgerHealth)) ((λ r, dispatch s (call_of r)) <$> rs).
Proof.
  unfold http_requests_of. split; rewrite ?length_fmap, ?length_replicate; [done..|].
  intros i Q p check call HQ Hp Hk Hc. apply list_lookup_fmap_Some in HQ as (r & -> & Hr).
  apply list_lookup_fmap_Some in Hp as (r1 & -> & Hr1). apply list_lookup_fmap_Some in Hc as (r2 & -> & Hr2).
  apply lookup_replicate in Hk as [-> _]. simplify_eq. apply NewHandler_follows.
Qed.

Lemma http_refined env rs w ts w' :
  env_ok env → at_rest s w → http_reachable s env rs w ts w' →
  ∃ checks calls, refined env rs w ts w' checks calls.
Proof.
  intros Henv Hw Hreach.
  destruct (hpool_steps_follow env _ _ _ _ _ Hreach (following_start rs)) as (checks & calls & Hf & Hsteps).
  cbn [fst snd] in *. rewrite <- handlers_methods in Hsteps.
  pose proof Hf as [HlQ Hlk Hlc Hall]. rewrite length_fmap in HlQ.
  exists checks, calls. split; [exact Hsteps|congruence..|]. intros i r c Hr Hc.
  pose proof (lookup_lt_Some _ _ _ Hr) as Hlt.
  destruct (lookup_lt_is_Some_2 checks i) as [check Hcheck]; [lia|].
  destruct (lookup_lt_is_Some_2 calls i) as [call Hcall]; [lia|]. exists check, call. split_and!; [done..|].
  assert (((λ r, ended_by id (tied_or_crashed s r)) <$> rs) !! i = Some (ended_by id (tied_or_crashed s r)))
    as HQ by (by rewrite list_lookup_fmap, Hr).
  destruct (Hall i _ _ _ _ HQ Hc Hcheck Hcall) as [Htied|Hcrash]; [done|exfalso].
  destruct (reachable_ok s env _ _ _ _ Henv (ar_inv _ _ Hw) Hsteps) as [Hok _].
  destruct Hcrash as [-> | ->].
  - apply (pool_ok_no_panic _ _ _ _ _ i Hok). by rewrite lookup_app_l by (by eapply lookup_lt_Some).
  - apply (pool_ok_no_panic _ _ _ _ _ (length checks + i) Hok). rewrite lookup_app_r by lia.
    by replace (length checks + i - length checks)%nat with i by lia.
Qed.

(** What the call of a request returned is true, and a balance is that of a
    moment of the execution. *)
Lemma refined_truth env rs w ts w' checks calls i r q a :
  env_ok env → at_rest s w → refined env rs w ts w' checks calls →
  rs !! i = Some r → asked r = Some (inr q) → calls !! i = Some (Ret a) →
  response_truth s q a (w_ledger (h_world w')) ∧
  ∀ value id b, q = ReqBalance value → a = RespBalance b → requestID value = inr id →
    read_at (passed env (handlers s (methods rs), h_world w) (checks ++ calls, h_world w')) s id b.
Proof.
  intros Henv Hw [Hreach Hlk Hlc _] Hr Hq Ha.
  assert (methods rs !! (length rs + i)%nat = Some q) as Hmethod.
  { unfold methods. rewrite lookup_app_r by (rewrite length_replicate; lia). rewrite length_replicate.
    replace (length rs + i - length rs)%nat with i by lia. rewrite list_lookup_fmap, Hr. cbn.
    unfold call_of. by rewrite Hq. }
  assert ((checks ++ calls) !! (length rs + i)%nat = Some (Ret a)) as Hdone.
  { rewrite lookup_app_r by lia. by replace (length rs + i - length checks)%nat with i by lia. }
  split.
  - eapply reachable_answer; [done|apply (ar_inv _ _ Hw)|done|apply dispatch_safe|done..].
  - intros value id b -> -> Hid. by eapply balance_of_a_moment; [|apply (ar_inv _ _ Hw)|..].
Qed.
End refinement.

(** C8: The server is the service behind HTTP.  Any execution of any HTTP requests,
    in any interleaving, is an execution of the methods of [service.Service] in the
    same world - for each request the readiness check of its admission and the
    method its route, path and body ask for -, and every request is sent exactly
    what these returned, in one status line and one body: the 503 with
    [Retry-After] when the check found the ledger stalled or no slot was free, and
    then the method was not started; 400 with the decoder's error when the content
    type or the body does not decode, and then it was not started either; else the
    status and body of the value the method returned, or of its error.  That value
    is true of the ledger, then and for ever after, and the figures of a balance
    are those of the account at one moment of the execution. *)
Theorem http_refines_the_service {sdk : SDK} {L : Type} {ledger : Ledger L} {view : LedgerView L}
    {contract : LedgerContract L} {Body : Type} {codecs : Codecs Body} s env rs (w : HWorld L) ts w' :
  env_ok env → at_rest s w → http_reachable s env rs w ts w' →
  ∃ checks calls, refined s env rs w ts w' checks calls ∧
    ∀ i r q a, rs !! i = Some r → asked r = Some (inr q) → calls !! i = Some (Ret a) →
      response_truth s q a (w_ledger (h_world w')) ∧
      ∀ value id b, q = ReqBalance value → a = RespBalance b → requestID value = inr id →
        read_at (passed env (handlers s (methods rs), h_world w) (checks ++ calls, h_world w')) s id b.
Proof.
  intros Henv Hw Hreach. destruct (http_refined s env rs w ts w' Henv Hw Hreach) as (checks & calls & Href).
  exists checks, calls. split; [done|]. intros i r q a Hr Hq Ha. by eapply refined_truth.
Qed.

Lemma http_refines_the_service_witness :
  let '(ts, w') := http_test_run 2 in_turns in
  let qs := methods http_test_requests in
  ∃ checks calls, refined (service 100000) test_env http_test_requests (http_world 2 world_card) ts w' checks calls ∧
    ∀ i r q a, http_test_requests !! i = Some r → asked r = Some (inr q) → calls !! i = Some (Ret a) →
      response_truth (service 100000) q a (w_ledger (h_world w')) ∧
      ∀ value id b, q = ReqBalance value → a = RespBalance b → requestID value = inr id →
        read_at (passed test_env (handlers (service 100000) qs, world_card) (checks ++ calls, h_world w'))
          (service 100000) id b.
Proof.
  pose proof (http_test_reachable 2 in_turns) as Hreach. destruct (http_test_run 2 in_turns) as [ts w'].
  exact (http_refines_the_service (service 100000) test_env http_test_requests (http_world 2 world_card) ts w'
    test_env_ok (http_world_at_rest 2 ltac:(lia)) Hreach).
Defined.

(** The withdrawal and the query are calls; the top-up with the wrong content type is not. *)
Example http_test_methods :
  asked <$> http_test_requests =
  [Some (inr (ReqWithdraw withdrawal_request));
   Some (inl (invalid "Content-Type must be application/json"));
   Some (inr (ReqBalance testCardAccountID))].
Proof. by_computation. Qed.
