(* ===== verification/HttpOutcomes.v ===== *)
(** * One HTTP request, step by step

    What a single request of the API does from its arrival to its answer: the
    rejections and their effects, the admitted request as the service call it
    asks for, the slot and the metrics it leaves behind, and the status codes
    that can be sent. *)
From S2P Require Import Prelude GoBase Domain TigerBeetle TigerBeetleModel LedgerModel Cache Health.
From S2P Require Import Interface Semantics Contract FakeLedger Service Operations Scenarios Outcomes.
From S2P Require Import System Http HttpProgram Admission HttpSemantics Server HttpSystem.
Import GoError GoTime.
Local Open Scope Z_scope.

Section one_request.
Context {sdk : SDK} {L : Type} {ledger : Ledger L}.
Context {Body : Type} {codecs : Codecs Body} (s : Service).

(** The name under which a request of the API is counted. *)
Definition route_name (path : list string) : string :=
  if decide (path = ["v1"; "accounts"]) then "create_account"
  else if decide (path = ["v1"; "topups"]) then "topup"
  else if decide (path = ["v1"; "withdrawals"]) then "withdrawal"
  else if decide (path = ["v1"; "card-allocations"]) then "card_allocation"
  else if decide (path = ["v1"; "card-returns"]) then "card_return"
  else if decide (path = ["v1"; "authorizations"]) then "authorization"
  else if decide (path = ["v1"; "authorizations"; "increments"]) then "authorization_increment"
  else "get_balance".

(** The handler of a call: [call] stands for the decoded request. *)
Definition serve (q : result error request) : handler := λ w,
  match q with
  | inl e => HRet (writeError e w)
  | inr q => in_service (sw_ResponseWriter w) (dispatch s q) (λ a,
      HRet (writeJSON (fst (reply_of a)) (snd (reply_of a)) w))
  end.

(** Two programs that do the same. *)
Definition same_run {A} (p p' : hprog A) : Prop := ∀ env (w : HWorld L), hrun env p w = hrun env p' w.

Lemma run_ret_map env {A B} (p : prog A) (f : A → B) (w : World L) :
  run env (bind p (λ a, Ret (f a))) w = (f <$> fst (run env p w), snd (run env p w)).
Proof. rewrite run_bind. by destruct (run env p w) as [[a|] w']. Qed.

Lemma writeError_reply e (w : statusWriter connection) :
  writeError e w = writeJSON (fst (error_body e)) (snd (error_body e)) w.
Proof. unfold writeError, error_body. by destruct (error_reply e) as [[status code] message]. Qed.

Lemma serve_call {A} (p : prog A) (inject : A → response) q (k : A → hprog (statusWriter connection)) w :
  dispatch s q = bind p (λ r, Ret (inject r)) →
  (∀ r, k r = HRet (writeJSON (fst (reply_of (inject r))) (snd (reply_of (inject r))) w)) →
  same_run (in_service (sw_ResponseWriter w) p k) (serve (inr q) w).
Proof.
  intros Hd Hk env w0. unfold serve. rewrite !hrun_in_service, Hd, run_ret_map.
  destruct (run env p (h_world w0)) as [[a|] w1]; cbn [fst snd fmap option_fmap option_map]; [|done].
  by rewrite Hk.
Qed.

Lemma serve_answer {A} (p : prog (result error (A * Z))) inject (encode : A → body) q w :
  dispatch s q = bind p (λ r, Ret (inject r)) → (∀ r, reply_of (inject r) = coded encode r) →
  same_run (answer p encode w) (serve (inr q) w).
Proof.
  intros Hd Hr. apply (serve_call p inject); [done|]. intros [e|[a status]]; rewrite Hr; [|done].
  cbn [or_error coded]. by rewrite writeError_reply.
Qed.

Lemma serve_decoded {A} (i : input A) f (r : Request Body) k w :
  (∀ a, same_run (k a) (serve (inr (f a)) w)) →
  same_run (or_error (decodeJSON i r) w k) (serve (decoded i f r) w).
Proof. intros Hk. unfold decoded. destruct (decodeJSON i r) as [e|a]; [done|apply Hk]. Qed.

Lemma serve_balance id w : same_run (balance s id w) (serve (inr (ReqBalance id)) w).
Proof.
  apply (serve_call _ RespBalance); [done|]. intros [e|b]; [|done]. cbn [or_error reply_of].
  by rewrite writeError_reply.
Qed.

(** The route of a request of the API. *)
Lemma asks_route (r : Request Body) q c :
  asks r q → ∃ h : handler,
    NewHandler s r c = recoverPanics (Request_Path r)
      (HTTPMiddleware (Request_Method r) (route_name (Request_Path r)) (Wrap ledgerReady h)) c ∧
    ∀ w, same_run (h w) (serve q w).
Proof.
  destruct 1 as [Hm Hp|id Hm Hp Hid|Hm Hp|Hm Hp|Hm Hp|Hm Hp|Hm Hp|Hm Hp];
    destruct r as [method path type body ctx]; cbn in Hm, Hp; subst.
  - eexists. split; [reflexivity|]. intros w. apply serve_decoded. intros a.
    by apply (serve_answer _ RespAccount).
  - destruct id as [|ch id]; [done|]. exists (balance s (String.String ch id)).
    split; [by destruct Hm as [-> | ->]|]. apply serve_balance.
  - eexists. split; [reflexivity|]. intros w. apply serve_decoded. intros a.
    by apply (serve_answer _ RespTransaction).
  - eexists. split; [reflexivity|]. intros w. apply serve_decoded. intros a.
    by apply (serve_answer _ RespTransaction).
  - eexists. split; [reflexivity|]. intros w. apply serve_decoded. intros a.
    by apply (serve_answer _ RespTransaction).
  - eexists. split; [reflexivity|]. intros w. apply serve_decoded. intros a.
    by apply (serve_answer _ RespTransaction).
  - eexists. split; [reflexivity|]. intros w. apply serve_decoded. intros a.
    by apply (serve_answer _ RespAuthorization).
  - eexists. split; [reflexivity|]. intros w. apply serve_decoded. intros a.
    by apply (serve_answer _ RespIncrement).
Qed.
End one_request.

Section outcomes.
Context {sdk : SDK} {L : Type} {ledger : Ledger L}.

(** The health the readiness check reads. *)
Definition health_now (env : Env) (w : World L) : LedgerHealth :=
  Health (env_clock env (w_ticks w)) (w_health w).

Lemma run_ledgerReady env (w : World L) : run env ledgerReady w = (Some (Ready (health_now env w)), tick w).
Proof. done. Qed.

(** Why a request is not admitted: reason counted, error code, message. *)
Definition rejection_of (health : LedgerHealth) : string * string * string :=
  if Ready health
  then ("capacity", "overloaded", "too many operations are in flight; retry the same request")
  else ("ledger_stalled", "ledger_stalled", "the ledger is not responding; retry the same request").
Definition unavailable (code message : string) : connection :=
  writeJSON StatusServiceUnavailable (BodyError (mkErrorResponse "error" code message))
    (Header_Set "Retry-After" "1" new_connection).

(** The service call of an admitted request, and the answer to it. *)
Definition called (s : Service) (env : Env) (q : result error request) (w : World L) :
    option (Z * body) * World L :=
  match q with
  | inl e => (Some (error_body e), w)
  | inr q => let '(a, w') := run env (dispatch s q) w in (reply_of <$> a, w')
  end.

Lemma hrun_serve s env q (w : HWorld L) status b w1 :
  called s env q (h_world w) = (Some (status, b), w1) →
  hrun env (serve s q recorder) w =
    Some (Returned (writeJSON status b recorder), mkHWorld w1 (h_admission w) (h_panics w)).
Proof.
  destruct q as [e|q]; cbn [called].
  - intros [= He <-]. cbn [serve hrun]. rewrite writeError_reply, He. by destruct w.
  - unfold serve. rewrite hrun_in_service. destruct (run env (dispatch s q) (h_world w)) as [[a|] w'];
      cbn [fmap option_fmap option_map]; [|done]. by intros [= -> <-].
Qed.

Lemma restored (a : admissionController) :
  mkAdmissionController (slots a + 1 - 1) (limit a) (admissionInFlight a + 1 - 1)
    (admissionRejected a) (http_requests a) = a.
Proof. destruct a; cbn; f_equal; lia. Qed.
End outcomes.

(** A request that is not admitted. *)
Lemma rejected_run {sdk : SDK} {L : Type} {ledger : Ledger L} {Body : Type} {codecs : Codecs Body}
    s env r q (w : HWorld L) :
  asks r q →
  Ready (health_now env (h_world w)) = false ∨ limit (h_admission w) ≤ slots (h_admission w) →
  let '(reason, code, message) := rejection_of (health_now env (h_world w)) in
  hrun env (NewHandler s r new_connection) w =
    Some (Returned (unavailable code message),
      mkHWorld (tick (h_world w))
        (observe_http (Request_Method r) (route_name (Request_Path r)) StatusServiceUnavailable
           (ObserveAdmissionRejection reason (h_admission w))) (h_panics w)).
Proof.
  intros Hasks Hrej. destruct (asks_route (L := L) s r q new_connection Hasks) as (h & -> & _).
  unfold recoverPanics, HTTPMiddleware, Wrap. rewrite hrun_recovered, hrun_bind, hrun_in_service.
  rewrite run_ledgerReady. unfold rejection_of.
  destruct (Ready (health_now env (h_world w))) eqn:Hr; cbn [negb]; [|done].
  destruct Hrej as [|Hfull]; [done|]. cbn [hrun hbind hcall hhandle h_admission].
  unfold try_acquire. by rewrite (proj2 (Z.ltb_ge _ _) Hfull).
Qed.

(** C23: A rejected request does nothing.  When the readiness check fails or every
    slot is taken, a request of the API is answered 503 with [Retry-After: 1] and
    the code of the reason; the service is not called: the ledger, the cache, the
    call tracker, the slots and the gauge are as before, one rejection and one
    HTTP request are counted. *)
Theorem rejected_requests_do_nothing {sdk : SDK} {L : Type} {ledger : Ledger L} {Body : Type}
    {codecs : Codecs Body} s env r q (w : HWorld L) :
  asks r q →
  Ready (health_now env (h_world w)) = false ∨ limit (h_admission w) ≤ slots (h_admission w) →
  let '(reason, code, message) := rejection_of (health_now env (h_world w)) in
  hrun env (NewHandler s r new_connection) w =
    Some (Returned (unavailable code message),
      mkHWorld (tick (h_world w))
        (observe_http (Request_Method r) (route_name (Request_Path r)) StatusServiceUnavailable
           (ObserveAdmissionRejection reason (h_admission w))) (h_panics w)).
Proof. apply rejected_run. Qed.

(** C18: An admitted request is its service call.  When the ledger is ready and a
    slot is free, a request of the API that runs alone has exactly the effects of
    the service call it asks for (none, if its body does not decode), is answered
    with that call's status and body, is counted once under its route and the
    status the client was sent, and leaves the slots and the gauge as they were. *)
Theorem admitted_requests_are_service_calls {sdk : SDK} {L : Type} {ledger : Ledger L} {Body : Type}
    {codecs : Codecs Body} s env r q (w : HWorld L) status b w1 :
  asks r q → Ready (health_now env (h_world w)) = true →
  0 ≤ slots (h_admission w) < limit (h_admission w) →
  called s env q (tick (h_world w)) = (Some (status, b), w1) →
  hrun env (NewHandler s r new_connection) w =
    Some (Returned (writeJSON status b new_connection),
      mkHWorld w1
        (observe_http (Request_Method r) (route_name (Request_Path r)) status (h_admission w))
        (h_panics w)).
Proof.
  intros Hasks Hr [Hpos Hfree] Hcall.
  destruct (asks_route (L := L) s r q new_connection Hasks) as (h & -> & Hh).
  unfold recoverPanics, HTTPMiddleware, Wrap. rewrite hrun_recovered, hrun_bind, hrun_in_service.
  rewrite run_ledgerReady, Hr. cbn [negb hrun hbind hcall hhandle h_admission].
  unfold try_acquire. rewrite (proj2 (Z.ltb_lt _ _) Hfree). cbn [mbind option_bind hrun hbind hhandle].
  rewrite hrun_deferred. unfold on_admission. cbn [h_admission h_world h_panics].
  change (mkStatusWriter new_connection StatusOK false) with recorder. rewrite Hh.
  rewrite (hrun_serve s env q (mkHWorld _ _ _) status b w1 Hcall).
  cbn [mbind option_bind leave hcall hbind hrun hhandle h_admission h_world h_panics].
  unfold release. cbn [slots BeginAdmission].
  rewrite (proj2 (Z.ltb_lt 0 (slots (h_admission w) + 1))) by lia.
  cbn [mbind option_bind hbind hrun hhandle]. unfold on_admission, EndAdmission.
  cbn [h_admission h_world h_panics slots limit admissionInFlight admissionRejected http_requests BeginAdmission].
  by rewrite restored.
Qed.

(** A POST on a server whose slots are all taken; an admitted POST. *)
Definition withdrawal_http : Request plain_body :=
  mkRequest "POST" ["v1"; "withdrawals"] "Application/JSON" (PlainWithdrawal withdrawal_request) None.

Lemma full_rejection :
  rejection_of (health_now test_env (h_world (http_world 0 world_card))) =
  ("capacity", "overloaded", "too many operations are in flight; retry the same request").
Proof. by_computation. Qed.
Lemma rejected_requests_do_nothing_witness :
  ∃ w', hrun test_env (NewHandler (service 100000) withdrawal_http new_connection) (http_world 0 world_card)
    = Some (Returned (unavailable "overloaded" "too many operations are in flight; retry the same request"), w').
Proof.
  pose proof (rejected_requests_do_nothing (service 100000) test_env withdrawal_http
    (inr (ReqWithdraw withdrawal_request)) (http_world 0 world_card) withdrawal_asked
    (or_intror (Z.le_refl 0))) as H.
  rewrite full_rejection in H. eexists. exact H.
Defined.

Definition withdrawal_reply : Z * body :=
  (StatusOK, BodyTransaction (mkTransactionResponse "a5" "a5" "posted" "TransferCreated"
    1787000000000000007 "" "")).
Lemma admitted_requests_are_service_calls_witness :
  ∃ w', hrun test_env (NewHandler (service 100000) withdrawal_http new_connection) (http_world 1 world_card)
    = Some (Returned (writeJSON StatusOK (snd withdrawal_reply) new_connection), w') ∧
    http_requests (h_admission w') = [("POST", "withdrawal", 200)].
Proof.
  eexists. split.
  - refine (admitted_requests_are_service_calls (service 100000) test_env withdrawal_http
      (inr (ReqWithdraw withdrawal_request)) (http_world 1 world_card) StatusOK (snd withdrawal_reply)
      (snd (called (service 100000) test_env (inr (ReqWithdraw withdrawal_request))
              (tick (h_world (http_world 1 world_card))))) _ _ _ _).
    + apply withdrawal_asked.
    + by_computation.
    + split; [apply Z.le_refl|apply Z.lt_0_1].
    + apply pair_of_fst. by_computation.
  - by_computation.
Defined.

(** ** Status codes *)
Section statuses.
Context {sdk : SDK}.

(** Every value a program can return satisfies [P], whatever its effects answer. *)
Fixpoint results {A} (P : A → Prop) (p : prog A) : Prop :=
  match p with
  | Ret a => P a
  | Panic => True
  | Call e k => ∀ x, results P (k x)
  end.

Lemma results_bind_with {A B} (P : A → Prop) (Q : B → Prop) (p : prog A) f :
  results P p → (∀ a, P a → results Q (f a)) → results Q (bind p f).
Proof. intros Hp Hf. induction p as [a| |X e k IH]; cbn in *; auto. Qed.
Lemma results_any {A} (p : prog A) : results (λ _, True) p.
Proof. induction p; cbn; auto. Qed.
Lemma results_bind {A B} (Q : B → Prop) (p : prog A) f : (∀ a, results Q (f a)) → results Q (bind p f).
Proof. intros Hf. eapply results_bind_with; [apply results_any|auto]. Qed.
Lemma results_bind_err {A B} (Q : result error B → Prop) (p : prog (result error A)) f :
  (∀ e, Q (inl e)) → (∀ a, results Q (f a)) → results Q (bind_err p f).
Proof. intros He Hf. apply results_bind. intros [e|a]; [apply He|apply Hf]. Qed.

(** The status beside a response is one of [l]. *)
Definition status_in {A} (l : list Z) (r : result error (A * Z)) : Prop :=
  match r with inl _ => True | inr (_, status) => status ∈ l end.

Ltac statuses :=
  repeat first
    [ progress cbn [results status_in]
    | done
    | apply results_bind_err; [by intros|intros ?]
    | apply results_bind; intros ?
    | case_match
    | progress simplify_eq ];
  try (unfold StatusOK, StatusCreated, StatusNotFound, StatusConflict, StatusUnprocessableEntity,
         StatusInternalServerError in *; set_solver).

Lemma errorCode_status status : snd (errorCode status) ∈ [422; 404; 409; 500].
Proof. destruct status; cbn; set_solver. Qed.

Lemma executeTransaction_statuses s kind rid t success :
  results (status_in [200; 422; 404; 409; 500]) (executeTransaction s kind rid t success).
Proof.
  unfold executeTransaction. do 2 (apply results_bind; intros ?). case_match; [statuses|].
  case_match; [statuses|]. pose proof (errorCode_status (TransferResult_Status c)) as Hc.
  destruct (errorCode _) as [[code message] st]. cbn [snd] in Hc. apply results_bind. intros _.
  cbn [results status_in]. case_match; [set_solver|]. set_solver.
Qed.

Lemma moveCardFunds_statuses s kind rid account card amount back :
  results (status_in [200; 422; 404; 409; 500]) (moveCardFunds s kind rid account card amount back).
Proof.
  unfold moveCardFunds.
  repeat first
    [apply executeTransaction_statuses
    |apply results_bind_err; [done|intros ?]
    |case_match
    |done].
Qed.
Lemma TopUp_statuses s r : results (status_in [200; 422; 404; 409; 500]) (TopUp s r).
Proof.
  unfold TopUp.
  repeat first
    [apply executeTransaction_statuses|apply results_bind_err; [done|intros ?]|case_match|done].
Qed.
Lemma Withdraw_statuses s r : results (status_in [200; 422; 404; 409; 500]) (Withdraw s r).
Proof.
  unfold Withdraw.
  repeat first
    [apply executeTransaction_statuses|apply results_bind_err; [done|intros ?]|case_match|done].
Qed.

(** A hold that is refused for lack of funds is declined with 200. *)
Lemma held_status status code message st :
  errorCode status = (code, message, st) → code ≠ "insufficient_funds" → st ∈ [200; 404; 409; 500].
Proof. unfold errorCode. intros E Hc. destruct status; simplify_eq; set_solver. Qed.

Ltac held :=
  match goal with
  | |- context [errorCode ?status] =>
      let E := fresh "E" in
      destruct (errorCode status) as [[code message] st] eqn:E;
      pose proof (held_status _ _ _ _ E)
  end;
  repeat case_match; simplify_eq; bool_simpl;
  apply results_bind; intros ?; cbn [results status_in]; first [set_solver|naive_solver].

Lemma Authorize_statuses s ctx r : results (status_in [200; 404; 409; 500]) (Authorize s ctx r).
Proof.
  unfold Authorize. do 2 (apply results_bind_err; [done|intros ?]). case_match; [done|].
  apply results_bind_err; [done|intros ?]. apply results_bind; intros ?.
  apply results_bind_err; [done|intros ?]. apply results_bind; intros ?. case_match; [done|].
  apply results_bind; intros ?. case_match.
  - unfold Authorize_declined. statuses.
  - unfold Authorize_submit. apply results_bind; intros ?. case_match; [statuses|].
    case_match; [statuses|]. held.
Qed.

Lemma existing_increment_or_statuses s r original incID authID started ms rest :
  results (status_in [200; 404; 409; 500]) rest →
  results (status_in [200; 404; 409; 500])
    (existing_increment_or s r original incID authID started ms rest).
Proof.
  intros Hrest. unfold existing_increment_or.
  apply (results_bind_with
    (λ x : IncrementAuthorizationResponse * Z * bool * option error,
       let '(_, status, found, err) := x in err = None → found = true → status = 200)).
  - unfold lookupExistingIncrement. apply results_bind. intros [e|[existing []]]; [done| |done].
    case_match; apply results_bind; intros _; done.
  - intros [[[resp status] found] err] Hx. destruct err; [done|]. destruct found; [|done].
    cbn. rewrite Hx by done. set_solver.
Qed.

Lemma increment_answer_statuses s r original started ms answer :
  results (status_in [200; 404; 409; 500]) (increment_answer s r original started ms answer).
Proof. unfold increment_answer. case_match; [statuses|]. held. Qed.

Lemma IncrementAuthorization_statuses s ctx r :
  results (status_in [200; 404; 409; 500]) (IncrementAuthorization s ctx r).
Proof.
  unfold IncrementAuthorization. apply results_bind_err; [done|]. intros [authID incID].
  apply results_bind; intros ?. apply results_bind_err; [done|]. intros [original found].
  do 2 (case_match; [cbn; set_solver|]). apply results_bind. intros m.
  case_match; [case_match; cbn; set_solver|]. apply results_bind; intros ?. case_match; [done|].
  apply results_bind; intros ?. case_match.
  - apply existing_increment_or_statuses. statuses.
  - unfold increment_approved. apply results_bind; intros ?. case_match.
    + apply existing_increment_or_statuses. cbn. set_solver.
    + unfold increment_submit. apply results_bind; intros ?. case_match; [statuses|].
      case_match; [|apply increment_answer_statuses].
      apply results_bind_err; [done|]. intros [existing found']. apply increment_answer_statuses.
Qed.

Lemma CreateAccount_statuses s r : results (status_in [200; 201]) (CreateAccount s r).
Proof.
  unfold CreateAccount. apply results_bind_err; [done|intros ?]. case_match; [done|].
  apply results_bind_err; [done|intros ?]. unfold CreateAccount_submit. statuses.
Qed.
End statuses.

Section http_statuses.
Context {sdk : SDK} {Body : Type} {codecs : Codecs Body} (s : Service).

(** Every connection a handler can end with, returning or panicking. *)
Fixpoint hresults {A} (P : A → Prop) (N : connection → Prop) (p : hprog A) : Prop :=
  match p with
  | HRet a => P a
  | HPanic c => N c
  | HCall e k => ∀ x, hresults P N (k x)
  end.

Lemma hresults_bind {A B} (P : A → Prop) (Q : B → Prop) N (p : hprog A) f :
  hresults P N p → (∀ a, P a → hresults Q N (f a)) → hresults Q N (hbind p f).
Proof. intros Hp Hf. induction p as [a|c|X e k IH]; cbn in *; auto. Qed.
Lemma hresults_leave {A} (P : A → Prop) N (p : hprog A) :
  hresults P N p → hresults P N (deferred p leave).
Proof. intros Hp. induction p as [a|c|X e k IH]; cbn in *; auto. Qed.
Lemma hresults_recovered {A} (P : A → Prop) N N' (p : hprog A) h :
  hresults P N p → (∀ c, N c → hresults P N' (h c)) → hresults P N' (recovered p h).
Proof. intros Hp Hh. induction p as [a|c|X e k IH]; cbn in *; auto. Qed.
Lemma hresults_in_service {A B} (R : A → Prop) (P : B → Prop) (N : connection → Prop) c (p : prog A) k :
  N c → results R p → (∀ a, R a → hresults P N (k a)) → hresults P N (in_service c p k).
Proof. intros Hc Hp Hk. induction p as [a| |X e f IH]; cbn in *; auto. Qed.

(** A complete response with a status of [l]. *)
Definition status_of (l : list Z) (c : connection) : Prop :=
  ∃ status headers b, responded status headers b c ∧ status ∈ l.
Definition error_statuses : list Z := [400; 404; 409; 499; 503; 504].

Lemma error_reply_status e : fst (fst (error_reply e)) ∈ error_statuses.
Proof.
  unfold error_reply, error_statuses, StatusBadRequest, StatusConflict, StatusNotFound,
    StatusClientClosedRequest, StatusGatewayTimeout, StatusServiceUnavailable.
  repeat case_match; cbn; set_solver.
Qed.

Definition fresh (c : connection) : Prop := c = new_connection.
Definition handler_statuses (l : list Z) (h : handler) : Prop :=
  hresults (λ w, status_of l (sw_ResponseWriter w)) fresh (h recorder).

Lemma writeJSON_status l status b : status ∈ l → status_of l (sw_ResponseWriter (writeJSON status b recorder)).
Proof. intros H. by exists status, json_headers, b. Qed.
Lemma writeError_status l e : error_statuses ⊆ l → status_of l (sw_ResponseWriter (writeError e recorder)).
Proof.
  intros Hl. unfold writeError. pose proof (error_reply_status e) as H.
  destruct (error_reply e) as [[status code] message]. apply writeJSON_status. by apply Hl.
Qed.

Lemma answer_statuses {A} (p : prog (result error (A * Z))) (encode : A → body) l l' :
  results (status_in l) p → error_statuses ⊆ l' → l ⊆ l' →
  hresults (λ w, status_of l' (sw_ResponseWriter w)) fresh (answer p encode recorder).
Proof.
  intros Hp He Hl. apply (hresults_in_service (status_in l)); [done|done|].
  intros [e|[a status]] Hr; cbn; [by apply writeError_status|]. apply writeJSON_status. by apply Hl.
Qed.
Lemma decoding_statuses {A} (i : input A) (r : Request Body) k l :
  error_statuses ⊆ l → (∀ a, hresults (λ w, status_of l (sw_ResponseWriter w)) fresh (k a)) →
  hresults (λ w, status_of l (sw_ResponseWriter w)) fresh (or_error (decodeJSON i r) recorder k).
Proof. intros He Hk. destruct (decodeJSON i r); cbn; [by apply writeError_status|apply Hk]. Qed.

Lemma route_statuses l method name h c :
  fresh c → 503 ∈ l → 500 ∈ l → handler_statuses l h →
  ∀ path, hresults (status_of l) (λ _, False)
    (recoverPanics path (HTTPMiddleware method name (Wrap ledgerReady h)) c).
Proof.
  intros -> H503 H500 Hh path.
  apply (hresults_recovered _ fresh).
  2: { intros c' ->. cbn. intros _. by exists 500, json_headers, (BodyError
         (mkErrorResponse "error" "internal_error" "an internal error occurred")). }
  apply (hresults_bind (λ w, status_of l (sw_ResponseWriter w))); [|cbn; auto].
  apply (hresults_in_service (λ _, True)); [done|apply results_any|]. intros [] _; cbn [negb].
  - cbn. intros [].
    + intros _. by apply hresults_leave.
    + intros _. by exists 503, retry_headers, (BodyError (mkErrorResponse "error" "overloaded"
        "too many operations are in flight; retry the same request")).
  - cbn. intros _. by exists 503, retry_headers, (BodyError (mkErrorResponse "error" "ledger_stalled"
        "the ledger is not responding; retry the same request")).
Qed.

(** The statuses of a route: errors and 200; 201 for a created account, 422 for a
    posting without funds. *)
Definition posting_path (path : list string) : bool :=
  bool_decide (path ∈ [["v1"; "topups"]; ["v1"; "withdrawals"]; ["v1"; "card-allocations"];
                       ["v1"; "card-returns"]]).
Definition api_statuses (path : list string) : list Z :=
  [200; 500] ++ error_statuses ++
  (if decide (path = ["v1"; "accounts"]) then [201] else []) ++
  (if posting_path path then [422] else []).

Lemma NewHandler_statuses r q :
  asks r q → hresults (status_of (api_statuses (Request_Path r))) (λ _, False) (NewHandler s r new_connection).
Proof.
  destruct 1 as [Hm Hp|id Hm Hp Hid|Hm Hp|Hm Hp|Hm Hp|Hm Hp|Hm Hp|Hm Hp];
    destruct r as [method path type body ctx]; cbn [Request_Method Request_Path] in Hm, Hp |- *; subst.
  - apply (route_statuses _ "POST" "create_account" (createAccount s _)); [done|set_solver..|].
    apply decoding_statuses; [set_solver|]. intros a.
    eapply answer_statuses; [apply CreateAccount_statuses|set_solver..].
  - destruct id as [|ch id]; [done|].
    assert (handler_statuses (api_statuses ["v1"; "accounts"; String.String ch id])
      (balance s (String.String ch id))) as Hb.
    { apply (hresults_in_service (λ _, True)); [done|apply results_any|]. intros [e|b] _; cbn.
      - apply writeError_status. set_solver.
      - apply writeJSON_status. set_solver. }
    destruct Hm as [-> | ->]; apply (route_statuses _ _ "get_balance" _ new_connection); done || set_solver.
  - apply (route_statuses _ "POST" "topup" (topUp s _)); [done|set_solver..|].
    apply decoding_statuses; [set_solver|]. intros a.
    eapply answer_statuses; [apply TopUp_statuses|set_solver..].
  - apply (route_statuses _ "POST" "withdrawal" (withdraw s _)); [done|set_solver..|].
    apply decoding_statuses; [set_solver|]. intros a.
    eapply answer_statuses; [apply Withdraw_statuses|set_solver..].
  - apply (route_statuses _ "POST" "card_allocation" (allocateToCard s _)); [done|set_solver..|].
    apply decoding_statuses; [set_solver|]. intros a.
    eapply answer_statuses; [apply moveCardFunds_statuses|set_solver..].
  - apply (route_statuses _ "POST" "card_return" (returnFromCard s _)); [done|set_solver..|].
    apply decoding_statuses; [set_solver|]. intros a.
    eapply answer_statuses; [apply moveCardFunds_statuses|set_solver..].
  - apply (route_statuses _ "POST" "authorization" (authorize s _)); [done|set_solver..|].
    apply decoding_statuses; [set_solver|]. intros a.
    eapply answer_statuses; [apply Authorize_statuses|set_solver..].
  - apply (route_statuses _ "POST" "authorization_increment" (increment s _)); [done|set_solver..|].
    apply decoding_statuses; [set_solver|]. intros a.
    eapply answer_statuses; [apply IncrementAuthorization_statuses|set_solver..].
Qed.
End http_statuses.

Section pool_statuses.
Context {sdk : SDK} {L : Type} {ledger : Ledger L}.

(** A request keeps to its results whatever the others do. *)
Lemma hpool_results env {A} (P : A → Prop) N cfg cfg' i p :
  hpool_steps (L := L) env cfg cfg' → fst cfg !! i = Some p → hresults P N p →
  ∃ p', fst cfg' !! i = Some p' ∧ hresults P N p'.
Proof.
  intros Hsteps. revert p. induction Hsteps as [|cfg1 cfg2 cfg3 Hstep _ IH]; intros p Hp Hres.
  { by exists p. }
  destruct Hstep as [ts j X e k w x w' Hj Hh]. cbn [fst] in *. destruct (decide (j = i)) as [->|Hne].
  - rewrite Hp in Hj. injection Hj as ->.
    eapply IH; [apply list_lookup_insert_eq; by eapply lookup_lt_Some|apply Hres].
  - eapply IH; [by rewrite list_lookup_insert_ne|done].
Qed.
End pool_statuses.

(** C30: The status codes of the API.  On any ledger, in any interleaving, a
    request of the API that has ended was sent exactly one complete response, with
    status 200, an error status (400, 404, 409, 499, 500, 503 or 504), 201 only
    from account creation, or 422 only from a posting; a refused hold is declined
    with 200. *)
Theorem api_status_codes {sdk : SDK} {L : Type} {ledger : Ledger L} {Body : Type}
    {codecs : Codecs Body} s env r q (w : HWorld L) ts w' i c rs :
  hpool_steps env (http_requests_of s rs, w) (ts, w') →
  rs !! i = Some r → asks r q → ts !! i = Some (HRet c) →
  status_of (api_statuses (Request_Path r)) c.
Proof.
  intros Hsteps Hr Hasks Hc.
  destruct (hpool_results env (status_of (api_statuses (Request_Path r))) (λ _, False) _ _ i
    (NewHandler s r new_connection) Hsteps) as (p' & Hp' & Hres).
  - cbn [fst]. unfold http_requests_of. by rewrite list_lookup_fmap, Hr.
  - by eapply NewHandler_statuses.
  - cbn [fst] in Hp'. rewrite Hc in Hp'. by injection Hp' as <-.
Qed.

Lemma api_status_codes_witness : status_of (api_statuses ["v1"; "withdrawals"]) withdrawal_answer.
Proof.
  refine (api_status_codes (service 100000) test_env withdrawal_http (inr (ReqWithdraw withdrawal_request))
    (http_world 2 world_card) (fst (http_test_run 2 in_turns)) (snd (http_test_run 2 in_turns)) 0
    withdrawal_answer http_test_requests _ _ _ _).
  - apply http_test_reachable.
  - reflexivity.
  - apply withdrawal_asked.
  - by_computation.
Defined.

(** ** Health routes *)

(** A route without admission whose handler returns. *)
Lemma hrun_plain_route {sdk : SDK} {L : Type} {ledger : Ledger L} env path (h : handler) method name p
    (w : HWorld L) wr w1 :
  hrun env (h recorder) w = Some (Returned wr, w1) →
  p = recoverPanics path (HTTPMiddleware method name h) new_connection →
  hrun env p w =
    Some (Returned (sw_ResponseWriter wr), on_admission (observe_http method name (sw_status wr)) w1).
Proof.
  intros Hh ->. unfold recoverPanics, HTTPMiddleware. rewrite hrun_recovered, hrun_bind.
  change (mkStatusWriter new_connection StatusOK false) with recorder. by rewrite Hh.
Qed.

(** C31: The health routes need no slot and no ledger call.  Whatever the load, a
    [GET] (or [HEAD]) of [/health/live] is answered 200, and one of
    [/health/ready] reports the tracker - 200 [ready] while the oldest call in
    flight is younger than the threshold, else 503 [not_ready] because of
    [ledger_stalled] -; neither touches the ledger, the cache, the slots or the
    gauge, and each is counted once with the status sent. *)
Theorem health_routes_are_always_served {sdk : SDK} {L : Type} {ledger : Ledger L} {Body : Type}
    {codecs : Codecs Body} s env method type body ctx (w : HWorld L) :
  method = "GET" ∨ method = "HEAD" →
  let request path := mkRequest (Body := Body) method path type body ctx in
  let health := health_now env (h_world w) in
  hrun env (NewHandler s (request ["health"; "live"]) new_connection) w =
    Some (Returned (writeJSON StatusOK (BodyLive "ok") new_connection),
      on_admission (observe_http method "liveness" StatusOK) w) ∧
  hrun env (NewHandler s (request ["health"; "ready"]) new_connection) w =
    Some (Returned (writeJSON (fst (ready_reply health)) (BodyReady (snd (ready_reply health))) new_connection),
      mkHWorld (tick (h_world w))
        (observe_http method "readiness" (fst (ready_reply health)) (h_admission w)) (h_panics w)) ∧
  (fst (ready_reply health) = StatusOK ∧ ready_reason (snd (ready_reply health)) = None ↔
     Oldest health < stallThreshold (w_health (h_world w))) ∧
  (fst (ready_reply health) = StatusServiceUnavailable ∧
   ready_reason (snd (ready_reply health)) = Some "ledger_stalled" ↔
     stallThreshold (w_health (h_world w)) ≤ Oldest health).
Proof.
  intros Hm request health.
  assert (Ready health = (Oldest health <? stallThreshold (w_health (h_world w)))) as Hready by done.
  split_and!.
  - by rewrite (hrun_plain_route env ["health"; "live"] live method "liveness" _ w
      (writeJSON StatusOK (BodyLive "ok") recorder) w); [|done|destruct Hm as [-> | ->]].
  - rewrite (hrun_plain_route env ["health"; "ready"] ready method "readiness" _ w
      (writeJSON (fst (ready_reply health)) (BodyReady (snd (ready_reply health))) recorder)
      (mkHWorld (tick (h_world w)) (h_admission w) (h_panics w)));
      [done| |by destruct Hm as [-> | ->]].
    unfold ready. rewrite hrun_in_service.
    change (run env Service_LedgerHealth (h_world w)) with (Some health, tick (h_world w)).
    cbn beta iota zeta. destruct (ready_reply health) as [status b] eqn:E. reflexivity.
  - unfold ready_reply. rewrite Hready. destruct (Z.ltb_spec (Oldest health) (stallThreshold (w_health (h_world w))));
      cbn [fst snd negb ready_reason]; unfold StatusOK, StatusServiceUnavailable;
      (split; [intros [? ?]|intros ?]; (done || lia)).
  - unfold ready_reply. rewrite Hready. destruct (Z.ltb_spec (Oldest health) (stallThreshold (w_health (h_world w))));
      cbn [fst snd negb ready_reason]; unfold StatusOK, StatusServiceUnavailable;
      (split; [intros [? ?]|intros ?]; (done || lia)).
Qed.

Lemma health_routes_are_always_served_witness :
  hrun test_env (NewHandler (service 100000)
    (mkRequest "GET" ["health"; "live"] "" PlainText None) new_connection) (http_world 0 world_card) =
  Some (Returned (writeJSON StatusOK (BodyLive "ok") new_connection),
    on_admission (observe_http "GET" "liveness" StatusOK) (http_world 0 world_card)).
Proof.
  refine (proj1 (health_routes_are_always_served (service 100000) test_env "GET" "" PlainText None
    (http_world 0 world_card) (or_introl eq_refl))).
Defined.
