(* ===== verification/Stalls.v ===== *)
(** * Ledger calls that do not return

    A call of the TigerBeetle client has no deadline: when the cluster does not
    answer, its goroutine waits.  Here some of the handlers hang: from some moment
    on, none of their ledger calls returns.  The others are served to their end,
    the tracker counts exactly the hanging calls, and once one of them is as old as
    the stall threshold the service is not ready, so that no further request is
    admitted to hang too. *)
From S2P Require Import Prelude GoBase GoCrypto Domain TigerBeetle TigerBeetleModel LedgerModel.
From S2P Require Import Cache Health Interface Semantics Metrics Contract FakeLedger Service ServiceSpec.
From S2P Require Import Operations OperationsSpec Invariant Safety Replay Scenarios System Tracking.
From S2P Require Import Http HttpProgram Admission HttpSemantics Server HttpSystem HttpOutcomes.
Import GoInt GoError GoTime.
Local Open Scope Z_scope.

(** A handler that waits for the ledger. *)
Definition waiting {sdk : SDK} {A} (p : prog A) : bool :=
  match p with Call e _ => is_ledger_call e | _ => false end.

(** Go's monotonic clock. *)
Definition clock_forward (env : Env) : Prop :=
  ∀ m n, (m ≤ n)%nat → no_earlier (env_clock env m) (env_clock env n).

Section hanging.
Context {sdk : SDK} {L : Type} {ledger : Ledger L} (env : Env) (hung : nat → bool).

(** A step of the pool that is not the return of a ledger call of a hung handler. *)
Inductive hung_step {A} : list (prog A) * World L → list (prog A) * World L → Prop :=
| hung_call ts i X (e : eff X) k w x w' :
    ts !! i = Some (Call e k) → hung i && is_ledger_call e = false → Semantics.handle env e w = (x, w') →
    hung_step (ts, w) (<[i := k x]> ts, w').

Lemma hung_pool_step {A} (cfg cfg' : list (prog A) * World L) : hung_step cfg cfg' → pool_step env cfg cfg'.
Proof. destruct 1. by econstructor. Qed.
Lemma hung_pool_steps {A} n (cfg cfg' : list (prog A) * World L) :
  nsteps hung_step n cfg cfg' → nsteps (pool_step env) n cfg cfg'.
Proof. induction 1; econstructor; [by apply hung_pool_step|done]. Qed.

(** When no other step is left, a handler has ended or hangs. *)
Lemma hung_stuck {A} (ts : list (prog A)) (w : World L) i p :
  (∀ cfg, ¬ hung_step (ts, w) cfg) → ts !! i = Some p →
  running p = false ∨ waiting p = true ∧ hung i = true.
Proof.
  intros Hstuck Hp. destruct p as [a| |X e k]; [by left..|right].
  destruct (Semantics.handle env e w) as [x w'] eqn:Hh.
  destruct (hung i && is_ledger_call e) eqn:Hi; [apply andb_true_iff in Hi as [Hu Hl]; by split|].
  destruct (Hstuck (<[i := k x]> ts, w')). by econstructor.
Qed.

(** *** Waiting handlers and open calls *)

Lemma waiting_open {A} m (ts : list (prog A)) (w : World L) os i p :
  tracking env m ts w os → ts !! i = Some p → waiting p = true → ∃ id, os !! i = Some (Open id).
Proof.
  intros Ht Hp Hw. destruct (Forall2_lookup_l _ _ _ _ _ (tracking_progs _ _ _ _ _ Ht) Hp) as (o & Ho & Hpo).
  specialize (Hpo _ (le_n _)). destruct p as [a| |X e k]; [done..|].
  destruct e; cbn in Hw, Hpo; try done; destruct Hpo as [[j ->] _]; by exists j.
Qed.

Lemma open_dated {A} m (ts : list (prog A)) (w : World L) os i id :
  tracking env m ts w os → os !! i = Some (Open id) →
  ∃ t, active (w_health w) !! id = Some t ∧ read_before env (w_ticks w) t.
Proof.
  intros Ht Ho. assert (id ∈ dom (active (w_health w))) as [t Hid]%elem_of_dom.
  { rewrite (open_dom _ _ (tracking_open _ _ _ _ _ Ht)). apply elem_of_list_to_set, list_elem_of_omap.
    exists (Open id). split; [by eapply list_elem_of_lookup_2|done]. }
  exists t. split; [done|]. by eapply (tracking_dates _ _ _ _ _ Ht).
Qed.

Lemma filter_waiting {A} (ts : list (prog A)) os :
  Forall2 (λ p o, (waiting p = true → is_Some (open_of o)) ∧ (waiting p = false → open_of o = None)) ts os →
  length (filter waiting ts) = length (omap open_of os).
Proof.
  induction 1 as [|p o ts os [Hw Hn] _ IH]; [done|]. rewrite filter_cons. cbn [omap].
  destruct (waiting p) eqn:E.
  - rewrite decide_True by done. cbn. destruct (Hw eq_refl) as [id ->]. cbn. by rewrite IH.
  - rewrite decide_False by (by intros ?). cbn. by rewrite (Hn eq_refl), IH.
Qed.

(** A state where all have ended or wait for the ledger. *)
Lemma waiting_counted {A} m (ts : list (prog A)) (w : World L) os now :
  tracking env m ts w os → (∀ i p, ts !! i = Some p → running p = false ∨ waiting p = true) →
  InFlight (Health now (w_health w)) = Z.of_nat (length (filter waiting ts)).
Proof.
  intros Ht Hall. cbn. rewrite (open_size _ _ (tracking_open _ _ _ _ _ Ht)). f_equal. symmetry.
  apply filter_waiting, Forall2_same_length_lookup_2.
  { by eapply Forall2_length, (tracking_progs _ _ _ _ _ Ht). }
  intros i p o Hp Ho. split.
  - intros Hw. destruct (waiting_open m ts w os i p Ht Hp Hw) as [id Hid]. simplify_eq. by eexists.
  - intros Hw. destruct (Hall i p Hp) as [Hr|?]; [|congruence].
    pose proof (Forall2_lookup_lr _ _ _ _ _ _ (tracking_progs _ _ _ _ _ Ht) Hp Ho) as Hpo.
    by rewrite (tracked_from_ended _ _ _ _ _ Hpo Hr).
Qed.

(** The entry of a hanging call stays as it is. *)
Lemma hanging_kept {A} m n (ts : list (prog A)) (w : World L) ts' w' os i p id :
  env_ok env → tracking env m ts w os → hung i = true → ts !! i = Some p → waiting p = true →
  os !! i = Some (Open id) → nsteps hung_step n (ts, w) (ts', w') →
  nextID (w_health w) + Z.of_nat n < 2 ^ 64 →
  ∃ os', tracking env m ts' w' os' ∧ ts' !! i = Some p ∧ stallThreshold (w_health w') = stallThreshold (w_health w) ∧
    active (w_health w') !! id = active (w_health w) !! id.
Proof.
  intros Henv Ht Hh Hp Hw. revert ts w os Ht Hp. induction n as [|n IH]; intros ts w os Ht Hp Ho Hsteps Hlt.
  { inversion Hsteps; subst. by exists os. }
  inversion Hsteps as [|? ? [ts1 w1] ? Hstep Hrest]; subst.
  inversion Hstep as [? j X e k ? x ? Hj He Hhandle]; subst.
  assert (j ≠ i) as Hne.
  { intros ->. assert (p = Call e k) as -> by congruence. cbn in Hw. by rewrite Hh, Hw in He. }
  pose proof (track_handle env m e k w ts os j Henv Ht Hj ltac:(lia)) as Hone.
  rewrite Hhandle in Hone. destruct Hone as (o & Ht' & Hn & Hthr & Hkept).
  destruct (IH _ _ _ Ht') as (os' & Ht'' & Hp' & Hthr' & Hact'); [by rewrite list_lookup_insert_ne..|done|lia|].
  exists os'. split_and!; [done|done|congruence|]. rewrite Hact'. by apply (Hkept i).
Qed.
End hanging.

(** *** Schedules *)
Section schedules.
Context {sdk : SDK} {L : Type} {ledger : Ledger L} (env : Env) (hung : nat → bool).

Lemma exec_bsteps {A} schedule (cfg : list (prog A) * World L) :
  bsteps (pool_step env) (length schedule) cfg (exec env schedule cfg).
Proof.
  revert cfg. induction schedule as [|i schedule IH]; intros cfg; [constructor|]. cbn [exec foldl length].
  fold (exec env schedule (step_at env i cfg)). specialize (IH (step_at env i cfg)). revert IH.
  unfold step_at. destruct cfg as [ts w]. cbn [fst snd].
  destruct (ts !! i) as [[a| |X e k]|] eqn:Hi; [by apply bsteps_S..| |by apply bsteps_S].
  destruct (Semantics.handle env e w) as [x w'] eqn:Hh. intros IH. eapply bsteps_l; [by econstructor|exact IH].
Qed.

Definition hung_at {A} (i : nat) (cfg : list (prog A) * World L) : list (prog A) * World L :=
  match fst cfg !! i with
  | Some (Call e k) => if hung i && is_ledger_call e then cfg else step_at env i cfg
  | _ => cfg
  end.
Definition hung_exec {A} (schedule : list nat) (cfg : list (prog A) * World L) :
    list (prog A) * World L := foldl (λ cfg i, hung_at i cfg) cfg schedule.

Lemma hung_exec_bsteps {A} schedule (cfg : list (prog A) * World L) :
  bsteps (hung_step env hung) (length schedule) cfg (hung_exec schedule cfg).
Proof.
  revert cfg. induction schedule as [|i schedule IH]; intros cfg; [constructor|]. cbn [hung_exec foldl length].
  fold (hung_exec schedule (hung_at i cfg)). specialize (IH (hung_at i cfg)). revert IH.
  unfold hung_at, step_at. destruct cfg as [ts w]. cbn [fst snd].
  destruct (ts !! i) as [[a| |X e k]|] eqn:Hi; [by apply bsteps_S..| |by apply bsteps_S].
  destruct (hung i && is_ledger_call e) eqn:Hhung; [by apply bsteps_S|].
  destruct (Semantics.handle env e w) as [x w'] eqn:Hh. intros IH. eapply bsteps_l; [by econstructor|exact IH].
Qed.
End schedules.

(** What a hanging call does to the readiness: [w0] is the world in which handler
    [i] waited, [w] a later one. *)
Section stalled.
Context {sdk : SDK} {L : Type} {ledger : Ledger L} (env : Env) (hung : nat → bool).

Lemma stalled_not_ready {A} m n (ts : list (prog A)) (w : World L) ts' w' os i p :
  env_ok env → clock_forward env → tracking env m ts w os → hung i = true → ts !! i = Some p → waiting p = true →
  nsteps (hung_step env hung) n (ts, w) (ts', w') → nextID (w_health w) + Z.of_nat n < 2 ^ 64 →
  stallThreshold (w_health w') ≤ age (env_clock env (w_ticks w')) (env_clock env (w_ticks w)) →
  Ready (health_now env w') = false.
Proof.
  intros Henv Hclock Ht Hh Hp Hw Hsteps Hlt Hage.
  destruct (waiting_open env m ts w os i p Ht Hp Hw) as [id Ho].
  destruct (open_dated env m ts w os i id Ht Ho) as (t & Hid & k & Hk & ->).
  destruct (hanging_kept env hung m n ts w ts' w' os i p id Henv Ht Hh Hp Hw Ho Hsteps Hlt)
    as (os' & Ht' & _ & Hthr & Hact). rewrite Hid in Hact.
  destruct (Ready (health_now env w')) eqn:Hready; [|done]. exfalso.
  pose proof (clock_ok env Henv) as Hok.
  unfold health_now in Hready.
  pose proof (proj1 (Health_Ready_iff _ _ (tracking_wf _ _ _ _ _ Ht') (proj2 (Hok (w_ticks w')))) Hready id _ Hact).
  assert (no_earlier (env_clock env k) (env_clock env (w_ticks w))) as Hle by (apply Hclock; lia).
  pose proof (age_mono (env_clock env (w_ticks w')) _ _ (proj2 (Hok (w_ticks w'))) (proj2 (Hok k)) (proj2 (Hok (w_ticks w))) Hle).
  lia.
Qed.
End stalled.

(** A handler that does not hang is served to its end. *)
Lemma served_unless_hung {sdk : SDK} {L : Type} {ledger : Ledger L} {view : LedgerView L}
    {contract : LedgerContract L} s env qs (w : World L) hung ts w' j q :
  env_ok env → service_inv s (w_ledger w) (w_cache w) → reachable s env qs w ts w' →
  (∀ cfg, ¬ hung_step env hung (ts, w') cfg) → qs !! j = Some q → hung j = false →
  ∃ a, ts !! j = Some (Ret a) ∧ response_truth s q a (w_ledger w').
Proof.
  intros Henv Hinv Hreach Hstuck Hq Hj.
  destruct (reachable_ok s env qs w ts w' Henv Hinv Hreach) as [Hok _].
  pose proof Hok as [_ Hall]. cbn [fst snd] in Hall.
  destruct (lookup_lt_is_Some_2 ts j) as [p Hp].
  { rewrite <- (Forall2_length _ _ _ Hall), length_fmap. by eapply lookup_lt_Some. }
  destruct (hung_stuck env hung ts w' j p Hstuck Hp) as [Hend|[_ Hh]]; [|congruence].
  destruct p as [a| |X e k]; [|by destruct (pool_ok_no_panic _ _ _ _ _ j Hok)|done].
  exists a. split; [done|]. eapply reachable_answer; eauto. apply dispatch_safe.
Qed.

(** C12: A ledger call that does not return harms nobody else, and shows.  Take any
    interleaving of any requests, and from any moment on let any set of handlers
    hang: none of their ledger calls returns any more.  However the others go on: no
    execution is infinite, and when only hanging calls are left every other request
    has been answered, truthfully, and the tracker counts exactly the handlers that
    wait for the ledger.  Once one of them has waited as long as the stall
    threshold, on a clock that does not go backwards, the service is not ready, and
    stays so whatever the others do; a request of the API that arrives then is
    answered 503 [ledger_stalled] and has no effect on the service. *)
Theorem hanging_calls_are_isolated_and_reported {sdk : SDK} {L : Type} {ledger : Ledger L} {view : LedgerView L}
    {contract : LedgerContract L} {Body : Type} {codecs : Codecs Body} s env qs (w : World L) n ts0 w0 hung m ts w' :
  env_ok env → clock_forward env → settled (metrics s) w → service_inv s (w_ledger w) (w_cache w) →
  bsteps (pool_step env) n (handlers s qs, w) (ts0, w0) → bsteps (hung_step env hung) m (ts0, w0) (ts, w') →
  nextID (w_health w) + Z.of_nat n + Z.of_nat m < 2 ^ 64 →
  Acc (λ cfg' cfg, hung_step env hung cfg cfg') (ts, w') ∧
  ((∀ cfg, ¬ hung_step env hung (ts, w') cfg) →
    (∀ j q, qs !! j = Some q → hung j = false →
       ∃ a, ts !! j = Some (Ret a) ∧ response_truth s q a (w_ledger w')) ∧
    InFlight (health_now env w') = Z.of_nat (length (filter waiting ts))) ∧
  ((∃ i p, hung i = true ∧ ts0 !! i = Some p ∧ waiting p = true ∧
      stallThreshold (w_health w') ≤ age (env_clock env (w_ticks w')) (env_clock env (w_ticks w0))) →
    Ready (health_now env w') = false ∧
    ∀ (r : Request Body) q a ps, asks r q → ∃ a',
      hrun env (NewHandler s r new_connection) (mkHWorld w' a ps) =
        Some (Returned (unavailable "ledger_stalled" "the ledger is not responding; retry the same request"),
              mkHWorld (tick w') a' ps)).
Proof.
  intros Henv Hclock Hset Hinv Hrun1 Hrun2 Hlt.
  apply bsteps_nsteps in Hrun1 as (n' & Hn & Hrun1), Hrun2 as (m' & Hm & Hrun2).
  destruct (tracking_steps env _ n' _ w ts0 w0 _ Henv (settled_tracking env s qs w Hset) Hrun1) as (os0 & Ht0 & Hid0);
    [lia|].
  destruct (tracking_steps env _ m' _ w0 ts w' _ Henv Ht0 (hung_pool_steps env hung _ _ _ Hrun2)) as (os & Ht & _);
    [lia|].
  assert (reachable s env qs w ts w') as Hreach.
  { unfold reachable, pool_steps. transitivity (ts0, w0); eapply rtc_nsteps_2; [exact Hrun1|by apply (hung_pool_steps env hung)]. }
  split_and!.
  - eapply Acc_impl; [apply (pool_step_acc env)|]. intros cfg1 cfg2. apply hung_pool_step.
  - intros Hstuck. split.
    + intros j q Hq Hj. by eapply served_unless_hung.
    + eapply waiting_counted; [exact Ht|]. intros i p Hp.
      destruct (hung_stuck env hung ts w' i p Hstuck Hp) as [?|[? _]]; auto.
  - intros (i & p & Hh & Hp & Hw & Hage).
    assert (Ready (health_now env w') = false) as Hready.
    { apply (stalled_not_ready env hung (metrics s) m' ts0 w0 ts w' os0 i p); [done..|lia|done]. }
    split; [done|]. intros r q a ps Hasks.
    pose proof (rejected_run s env r q (mkHWorld w' a ps) Hasks (or_introl Hready)) as Hrej.
    unfold rejection_of in Hrej. cbn [h_world] in Hrej. rewrite Hready in Hrej. eexists. exact Hrej.
Qed.

(** ** Provisioning hangs in its first call while an account is created *)

(** One second between two readings of the clock. *)
Definition slow_env : Env :=
  mkEnv (λ n, mkTime (start + Z.of_nat n * 1000000000) (Some (Z.of_nat n * 1000000000))) map_to_list.
Lemma slow_env_ok : env_ok slow_env.
Proof.
  split; [|by intros m].
  intros n. split; [|by eexists]. unfold IsZero, slow_env, zero_wall, start. cbn [env_clock wall].
  apply Z.eqb_neq. lia.
Qed.
Lemma slow_clock : clock_forward slow_env.
Proof. intros m n Hle. unfold no_earlier, Before, diff. cbn. apply Z.ltb_ge. lia. Qed.

Definition first_hangs (i : nat) : bool := bool_decide (i = 0%nat).
Definition hanging_start : list (prog response) * World fakeLedger := exec slow_env [0; 0]%nat first_start.
Definition hanging_end : list (prog response) * World fakeLedger :=
  hung_exec slow_env first_hangs (replicate 40 1%nat) hanging_start.

Example hanging_handlers :
  (waiting <$> fst hanging_end, running <$> fst hanging_end, InFlight (health_now slow_env (snd hanging_end))) =
  ([true; false], [true; false], 1).
Proof. by_computation. Qed.

Lemma hanging_calls_are_isolated_and_reported_witness :
  Ready (health_now slow_env (snd hanging_end)) = false ∧
  ∀ (r : Request plain_body) q a ps, asks r q → ∃ a',
    hrun slow_env (NewHandler (service 100000) r new_connection) (mkHWorld (snd hanging_end) a ps) =
      Some (Returned (unavailable "ledger_stalled" "the ledger is not responding; retry the same request"),
            mkHWorld (tick (snd hanging_end)) a' ps).
Proof.
  refine (proj2 (proj2 (hanging_calls_are_isolated_and_reported (service 100000) slow_env first_requests
    (new_world 100000) 2 (fst hanging_start) (snd hanging_start) first_hangs 40 (fst hanging_end) (snd hanging_end)
    slow_env_ok slow_clock _ (new_world_inv 100000) _ _ _)) _).
  - apply fresh_settled. apply Z.leb_le. by_computation.
  - rewrite <- surjective_pairing. apply (exec_bsteps slow_env [0; 0]%nat first_start).
  - rewrite <- !surjective_pairing. apply (hung_exec_bsteps slow_env first_hangs (replicate 40 1%nat) hanging_start).
  - apply Z.ltb_lt. by_computation.
  - exists 0%nat, (default Panic (fst hanging_start !! 0%nat)). split_and!.
    + by_computation.
    + by_computation.
    + by_computation.
    + apply Z.leb_le. by_computation.
Defined.
