(* ===== verification/HttpProvenance.v ===== *)
(** * Where accounts and transfers come from, over HTTP

    [Provenance.v] lifted to the server: an HTTP request submits only what the
    service call it asks for submits, whatever the mux, the middleware, the
    admission and the recovery of panics do around that call. *)
From S2P Require Import Prelude GoBase GoCrypto Domain TigerBeetle TigerBeetleModel LedgerModel.
From S2P Require Import Cache Health Interface Semantics Contract FakeLedger Service ServiceSpec.
From S2P Require Import Operations OperationsSpec Invariant Safety Scenarios Outcomes System Provenance.
From S2P Require Import Http HttpProgram Admission HttpSemantics Server HttpSystem.
Import GoInt GoError GoTime.
Local Open Scope Z_scope.
Local Open Scope http_scope.

Section hsubmits.
Context {sdk : SDK} (g : grants).

Definition hgranted {X} (e : heff X) : Prop :=
  match e with ServiceEffect e => granted g e | _ => True end.
Fixpoint hsubmits {A} (p : hprog A) : Prop :=
  match p with
  | HRet _ | HPanic _ => True
  | HCall e k => hgranted e ∧ ∀ x, hsubmits (k x)
  end.

Lemma hsubmits_bind {A B} (p : hprog A) (f : A → hprog B) :
  hsubmits p → (∀ a, hsubmits (f a)) → hsubmits (hbind p f).
Proof. intros Hp Hf. induction p as [a|c|X e k IH]; cbn in *; [apply Hf|done|naive_solver]. Qed.
Lemma hsubmits_deferred {A} (p : hprog A) cleanup :
  hsubmits p → hsubmits cleanup → hsubmits (deferred p cleanup).
Proof.
  intros Hp Hc. induction p as [a|c|X e k IH]; cbn in *; [by apply hsubmits_bind..|naive_solver].
Qed.
Lemma hsubmits_recovered {A} (p : hprog A) handler :
  hsubmits p → (∀ c, hsubmits (handler c)) → hsubmits (recovered p handler).
Proof. intros Hp Hh. induction p as [a|c|X e k IH]; cbn in *; [done|apply Hh|naive_solver]. Qed.
Lemma hsubmits_service {A B} c (p : prog A) (k : A → hprog B) :
  submits g p → (∀ a, hsubmits (k a)) → hsubmits (in_service c p k).
Proof. intros Hp Hk. induction p as [a| |X e f IH]; cbn in *; [apply Hk|done|naive_solver]. Qed.

(** The layers around a handler. *)
Definition handler_submits (h : handler) : Prop := ∀ w, hsubmits (h w).

Lemma middleware_submits method name h c :
  handler_submits h → hsubmits (HTTPMiddleware method name h c).
Proof. intros Hh. apply hsubmits_bind; [apply Hh|done]. Qed.

Lemma Wrap_submits h : handler_submits h → handler_submits (Wrap ledgerReady h).
Proof.
  intros Hh w. apply hsubmits_service; [done|]. intros []; cbn [negb]; [|done].
  split; [done|]. intros []; [|done]. cbn. split; [done|]. intros _.
  by apply hsubmits_deferred.
Qed.

Lemma recoverPanics_submits path next c :
  hsubmits (next c) → hsubmits (recoverPanics path next c).
Proof. intros Hn. by apply hsubmits_recovered. Qed.

Lemma or_error_submits {A} (r : result error A) w k :
  (∀ a, r = inr a → hsubmits (k a)) → hsubmits (or_error r w k).
Proof. intros Hk. destruct r as [e|a]; [done|by apply Hk]. Qed.

Lemma answer_submits {A} (p : prog (result error (A * Z))) encode w :
  submits g p → hsubmits (answer p encode w).
Proof. intros Hp. apply hsubmits_service; [done|]. by intros [e|[a status]]. Qed.
End hsubmits.

Section server.
Context {sdk : SDK} {Body : Type} {codecs : Codecs Body} (s : Service).

(** What an HTTP request asks for: what the service call it decodes to asks for. *)
Definition http_asks_transfer (r : Request Body) (t : Transfer) : Prop :=
  ∃ q, asks r (inr q) ∧ asks_transfer s q t.
Definition http_asks_account (r : Request Body) (a : Account) : Prop :=
  ∃ q, asks r (inr q) ∧ asks_account s q a.
Definition http_grants (r : Request Body) : grants := mkGrants (http_asks_transfer r) (http_asks_account r).

Lemma submits_mono {A} (g g' : grants) (p : prog A) :
  (∀ t, may_transfer g t → may_transfer g' t) → (∀ a, may_account g a → may_account g' a) →
  submits g p → submits g' p.
Proof.
  intros Ht Ha. induction p as [a| |X e k IH]; cbn; [done..|]. intros [He Hk].
  split; [|naive_solver]. destruct e; cbn in *; auto.
Qed.

Lemma asked_submits {A} (r : Request Body) q (p : prog A) :
  asks r (inr q) → submits (grants_of s q) p → submits (http_grants r) p.
Proof. intros Hq. apply submits_mono; intros x Hx; by exists q. Qed.

Lemma ledger_route_submits method name h c r :
  handler_submits (http_grants r) h →
  hsubmits (http_grants r) (HTTPMiddleware method name (Wrap ledgerReady h) c).
Proof. intros Hh. by apply middleware_submits, Wrap_submits. Qed.

(** A route that decodes the body and calls the service. *)
Lemma post_route_submits {A R} (i : input A) (f : A → request) (call : A → prog (result error (R * Z)))
    encode literals values name (r : Request Body) c :
  match_path (Some <$> literals) (Request_Path r) = Some values →
  match_method "POST" (Request_Method r) = true →
  (Request_Method r = "POST" → Request_Path r = literals → asks r (decoded i f r)) →
  (∀ a, submits (grants_of s (f a)) (call a)) →
  hsubmits (http_grants r) (HTTPMiddleware (Request_Method r) name
    (Wrap ledgerReady (λ w, or_error (decodeJSON i r) w (λ a, answer (call a) encode w))) c).
Proof.
  intros Hpath Hmethod Hasks Hcall. apply ledger_route_submits. intros w. apply or_error_submits. intros a Ha.
  apply answer_submits, (asked_submits r (f a)); [|apply Hcall].
  specialize (Hasks (post_method _ Hmethod) (match_literal _ _ _ Hpath)). unfold decoded in Hasks.
  by rewrite Ha in Hasks.
Qed.

Lemma NewHandler_submits (r : Request Body) c : hsubmits (http_grants r) (NewHandler s r c).
Proof.
  apply recoverPanics_submits. unfold ServeMux.
  destruct (find_route (routes s) r) as [[rt values]|] eqn:Hfind; [|by destruct (path_methods s r)].
  apply find_route_spec in Hfind as (Hin & Hpath & Hmethod). unfold routes in Hin.
  repeat (apply elem_of_cons in Hin as [->|Hin]); [..|by apply elem_of_nil in Hin];
    cbn [route_path route_method route_handler handle] in *.
  - exact (post_route_submits InputCreateAccount ReqCreateAccount (CreateAccount s) _ ["v1"; "accounts"] _ _ r c
      Hpath Hmethod (asks_create_account r) (CreateAccount_submits s)).
  - apply ledger_route_submits. intros w. apply hsubmits_service; [|by intros [e|b]].
    apply submits_reads_only, Balance_reads_only.
  - exact (post_route_submits InputTopUp ReqTopUp (TopUp s) _ ["v1"; "topups"] _ _ r c
      Hpath Hmethod (asks_topup r) (TopUp_submits s)).
  - exact (post_route_submits InputWithdrawal ReqWithdraw (Withdraw s) _ ["v1"; "withdrawals"] _ _ r c
      Hpath Hmethod (asks_withdrawal r) (Withdraw_submits s)).
  - exact (post_route_submits InputCardAllocation ReqAllocateToCard (AllocateToCard s) _ ["v1"; "card-allocations"] _ _ r c
      Hpath Hmethod (asks_allocation r) (AllocateToCard_submits s)).
  - exact (post_route_submits InputCardReturn ReqReturnFromCard (ReturnFromCard s) _ ["v1"; "card-returns"] _ _ r c
      Hpath Hmethod (asks_return r) (ReturnFromCard_submits s)).
  - exact (post_route_submits InputAuthorization (ReqAuthorize (Request_Context r)) (Authorize s (Request_Context r))
      _ ["v1"; "authorizations"] _ _ r c Hpath Hmethod (asks_authorization r) (Authorize_submits s (Request_Context r))).
  - exact (post_route_submits InputIncrement (ReqIncrementAuthorization (Request_Context r))
      (IncrementAuthorization s (Request_Context r)) _ ["v1"; "authorizations"; "increments"] _ _ r c Hpath Hmethod (asks_increment r)
      (increment_submits s (Request_Context r))).
  - by apply middleware_submits.
  - apply middleware_submits. intros w. apply hsubmits_service; [done|]. intros h. by destruct (ready_reply h).
  - done.
Qed.
End server.

(** ** Every interleaving *)
Section executions.
Context {sdk : SDK} {L : Type} {ledger : Ledger L} {view : LedgerView L} {contract : LedgerContract L}.

Lemma hhandle_provenance env {X} (e : heff X) g gs l0 (w : HWorld L) x w' :
  ledger_wf (w_ledger (h_world w)) → provenance gs l0 (w_ledger (h_world w)) → g ∈ gs →
  grants_ordinary g → hgranted g e →
  hhandle env e w = Some (x, w') →
  ledger_wf (w_ledger (h_world w')) ∧ provenance gs l0 (w_ledger (h_world w')).
Proof.
  intros Hwf Hprov Hg Hord He. destruct e; cbn [hhandle].
  - pose proof (handle_provenance env e g gs l0 (h_world w) Hwf Hprov Hg Hord He) as Hstep.
    destruct (Semantics.handle env e (h_world w)). intros [= _ <-]. exact Hstep.
  - destruct (try_acquire _). by intros [= _ <-].
  - destruct (release _); [|done]. by intros [= _ <-].
  - by intros [= _ <-].
  - by intros [= _ <-].
  - by intros [= _ <-].
  - by intros [= _ <-].
  - by intros [= _ <-].
Qed.

Lemma hpool_provenance env {A} gs l0 (cfg cfg' : list (hprog A) * HWorld L) :
  hpool_steps env cfg cfg' → Forall2 (λ g, hsubmits g) gs (fst cfg) → Forall grants_ordinary gs →
  ledger_wf (w_ledger (h_world (snd cfg))) → provenance gs l0 (w_ledger (h_world (snd cfg))) →
  provenance gs l0 (w_ledger (h_world (snd cfg'))).
Proof.
  induction 1 as [|cfg1 cfg2 cfg3 Hstep _ IH]; [done|]. intros Hall Hord Hwf Hprov.
  destruct Hstep as [ts i X e k w x w' Hi Hh]. cbn [fst snd] in *.
  destruct (Forall2_lookup_r _ _ _ _ _ Hall Hi) as (g & Hg & He & Hk).
  destruct (hhandle_provenance env e g gs l0 w x w' Hwf Hprov (list_elem_of_lookup_2 _ _ _ Hg)
    (proj1 (Forall_lookup _ _) Hord i g Hg) He Hh).
  apply IH; [|done..]. rewrite <- (list_insert_id gs i g Hg). by apply Forall2_insert.
Qed.
End executions.

(** C9: Nothing happens unasked.  Whatever HTTP requests arrive - any method,
    path, content type or body - and however they are interleaved, also when calls
    of the ledger fail after they were applied: every transfer that was not in the
    ledger before is the one transfer that a request of the API with a well-formed
    body asks for, with its accounts, amount and code - a top-up, a withdrawal, an
    allocation or a return, an authorization or an increment that the risk
    evaluation approves - and every account that was not there is the one such a
    request creates.  A query, a rejected, malformed or unroutable request leaves
    no trace in the ledger. *)
Theorem nothing_happens_unasked_over_http {sdk : SDK} {L : Type} {ledger : Ledger L} {view : LedgerView L}
    {contract : LedgerContract L} {Body : Type} {codecs : Codecs Body} s env rs (w : HWorld L) ts w' :
  ledger_wf (w_ledger (h_world w)) → http_reachable s env rs w ts w' →
  (∀ id t, transfer_of (w_ledger (h_world w')) id = Some t → transfer_of (w_ledger (h_world w)) id = None →
     ∃ r t0, r ∈ rs ∧ http_asks_transfer s r t0 ∧ same_payload t0 t) ∧
  (∀ id a, account_of (w_ledger (h_world w')) id = Some a → account_of (w_ledger (h_world w)) id = None →
     ∃ r a0, r ∈ rs ∧ http_asks_account s r a0 ∧ same_definition a0 a).
Proof.
  intros Hwf Hreach.
  destruct (hpool_provenance env (http_grants s <$> rs) (w_ledger (h_world w)) _ _ Hreach) as [Hnt Hna];
    cbn [fst snd].
  - unfold http_requests_of. apply Forall2_fmap, Forall_Forall2_diag, Forall_forall. intros r _.
    apply NewHandler_submits.
  - apply Forall_fmap, Forall_true. intros r t (q & _ & Ht). by eapply (grants_of_ordinary s q).
  - done.
  - apply provenance_refl.
  - split.
    + intros id t Ht Hnone. destruct (Hnt id t Ht Hnone) as (g & t0 & Hin & ? & ?).
      apply list_elem_of_fmap in Hin as (r & -> & Hr). by exists r, t0.
    + intros id a Ha Hnone. destruct (Hna id a Ha Hnone) as (g & a0 & Hin & ? & ?).
      apply list_elem_of_fmap in Hin as (r & -> & Hr). by exists r, a0.
Qed.

(** The withdrawal of three concurrent requests, one of them with a wrong content type. *)
Lemma nothing_happens_unasked_over_http_witness :
  ∃ r t0, r ∈ http_test_requests ∧ http_asks_transfer (service 100000) r t0 ∧
    same_payload t0 (default Transfer_zero
      (transfer_of (w_ledger (h_world (snd (http_test_run 2 in_turns)))) (hex "a5"))).
Proof.
  refine (proj1 (nothing_happens_unasked_over_http (service 100000) test_env http_test_requests
    (http_world 2 world_card) (fst (http_test_run 2 in_turns)) (snd (http_test_run 2 in_turns))
    (inv_wf _ _ _ world_card_inv) (http_test_reachable 2 in_turns)) (hex "a5") _ _ _).
  - by_computation.
  - by_computation.
Defined.
