(* ===== verification/Config.v ===== *)
(** * [internal/config/config.go]

    [Load] reads the environment, an argument of the model, and validates it.
    The theorems give the ranges every accepted configuration is in, that the
    service, the cache, the tracker and the admission controller built from it
    are the configured ones, and how written values are read. *)
From Stdlib Require Import Ascii.
From stdpp Require Import pretty.
From S2P Require Import Prelude GoBase GoText Domain TigerBeetle TigerBeetleModel LedgerModel Cache Health.
From S2P Require Import Interface Semantics Service Operations OperationsSpec Http HttpProgram Admission.
Import GoInt GoError GoTime GoStrings.
Local Open Scope Z_scope.

Section config.
Context {sdk : SDK}.

Record Config := mkConfig {
  HTTPAddress : string;
  TigerBeetleClusterID : Uint128;
  TigerBeetleAddresses : list string;
  LedgerID : Z;
  AuthorizationTimeout : Duration;
  RiskEvaluationDelay : Duration;
  RiskAutoApproveLimitCents : Z;
  MaxConcurrentRequests : Z;
  LedgerStallThreshold : Duration;
  AccountMetadataCacheSize : Z }.

(** [os.Getenv]: an unset variable is empty. *)
Context (Getenv : string → string).

Definition env (key fallback : string) : string :=
  let value := Getenv key in if decide (value ≠ "") then value else fallback.
Definition durationEnv (key : string) (fallback : Duration) : result error Duration :=
  let value := Getenv key in
  if decide (value = "") then inr fallback else ParseDuration value.
Definition uint32Env (key : string) (fallback : Z) : result error Z :=
  let value := Getenv key in
  if decide (value = "") then inr fallback else
  match ParseUint value 32 with inl err => inl err | inr parsed => inr (uint32 parsed) end.
Definition uint64Env (key : string) (fallback : Z) : result error Z :=
  let value := Getenv key in
  if decide (value = "") then inr fallback else ParseUint value 64.
Definition intEnv (key : string) (fallback : Z) : result error Z :=
  let value := Getenv key in
  if decide (value = "") then inr fallback else Atoi value.

(** [time.Duration(^uint32(0)) * time.Second] *)
Definition maxTimeout : Duration := dmul (2 ^ 32 - 1) Second.

(** [if err != nil || invalid { return Config{}, fmt.Errorf(msg) }] *)
Definition checked {A} (r : result error A) (invalid : A → bool) (msg : string) : result error A :=
  match r with
  | inl _ => inl (Errorf msg)
  | inr a => if invalid a then inl (Errorf msg) else inr a
  end.

(** The loop over the addresses. *)
Fixpoint trim_addresses (addresses : list string) : result error (list string) :=
  match addresses with
  | [] => inr []
  | a :: rest =>
      let a := TrimSpace a in
      if decide (a = "") then inl (Errorf "TB_ADDRESSES contains an empty address") else
      match trim_addresses rest with inl err => inl err | inr rest => inr (a :: rest) end
  end.

Local Open Scope go_scope.

Definition Load : result error Config :=
  match HexStringToUint128 (env "TB_CLUSTER_ID" "0") with
  | inl err => inl (wrap_prefix "TB_CLUSTER_ID: " err)
  | inr clusterID =>
  let? ledgerID := checked (uint32Env "TB_LEDGER_ID" 1) (λ v, v =? 0)
    "TB_LEDGER_ID must be a non-zero uint32" in
  let? authorizationTimeout := checked (durationEnv "AUTHORIZATION_TIMEOUT" Hour)
    (λ v, (v <? Second) || (maxTimeout <? v))
    ("AUTHORIZATION_TIMEOUT must be between 1s and " +:+ pretty (2 ^ 32 - 1) +:+ "s") in
  let? riskDelay := checked (durationEnv "RISK_EVALUATION_DELAY" (200 * Millisecond)) (λ v, v <? 0)
    "RISK_EVALUATION_DELAY must be a non-negative duration" in
  let? riskLimit := checked (uint64Env "RISK_AUTO_APPROVE_LIMIT_CENTS" 100000) (λ v, v =? 0)
    "RISK_AUTO_APPROVE_LIMIT_CENTS must be a positive uint64" in
  let? maxConcurrentRequests := checked (intEnv "MAX_CONCURRENT_REQUESTS" 4096)
    (λ v, (v <=? 0) || (1000000 <? v)) "MAX_CONCURRENT_REQUESTS must be between 1 and 1000000" in
  let? ledgerStallThreshold := checked (durationEnv "LEDGER_STALL_THRESHOLD" (2 * Second))
    (λ v, (v <? 100 * Millisecond) || (Minute <? v))
    "LEDGER_STALL_THRESHOLD must be between 100ms and 1m" in
  let? accountMetadataCacheSize := checked (intEnv "ACCOUNT_METADATA_CACHE_SIZE" 100000)
    (λ v, (v <? 0) || (10000000 <? v)) "ACCOUNT_METADATA_CACHE_SIZE must be between 0 and 10000000" in
  let? addresses := trim_addresses (Split (env "TB_ADDRESSES" "127.0.0.1:3000") 44) in
  inr (mkConfig (env "HTTP_ADDRESS" ":8080") clusterID addresses ledgerID authorizationTimeout riskDelay
         riskLimit maxConcurrentRequests ledgerStallThreshold accountMetadataCacheSize)
  end.
End config.

(** ** What [run] of [cmd/ledger-service] builds from it *)
Section startup.
Context {sdk : SDK}.

(** [service.New(...)] and the controller of [httpapi.NewHandler]. *)
Definition configured_service (c : Config) : Service * metadataCache * observedLedger :=
  New (LedgerID c) (AuthorizationTimeout c) (RiskEvaluationDelay c) (RiskAutoApproveLimitCents c)
    (LedgerStallThreshold c) (AccountMetadataCacheSize c) true.
Definition configured_admission (c : Config) : option admissionController :=
  newAdmissionController (MaxConcurrentRequests c).

(** ** Ranges *)

Record in_range (c : Config) : Prop := {
  ir_ledger : 0 < LedgerID c < 2 ^ 32;
  ir_timeout : Second ≤ AuthorizationTimeout c ≤ (2 ^ 32 - 1) * Second;
  ir_delay : 0 ≤ RiskEvaluationDelay c ≤ maxDuration;
  ir_limit : 0 < RiskAutoApproveLimitCents c < 2 ^ 64;
  ir_concurrency : 1 ≤ MaxConcurrentRequests c ≤ 1000000;
  ir_stall : 100 * Millisecond ≤ LedgerStallThreshold c ≤ Minute;
  ir_cache : 0 ≤ AccountMetadataCacheSize c ≤ 10000000;
  ir_addresses : TigerBeetleAddresses c ≠ [];
  ir_address : Forall (λ a, a ≠ "" ∧ TrimSpace a = a) (TigerBeetleAddresses c) }.

Lemma checked_ok {A} (r : result error A) invalid msg a :
  checked r invalid msg = inr a → r = inr a ∧ invalid a = false.
Proof. destruct r as [e|b]; cbn; [done|]. destruct (invalid b) eqn:E; [done|]. by intros [= ->]. Qed.

Lemma durationEnv_range Getenv key fallback d :
  in_int64 fallback → durationEnv Getenv key fallback = inr d → in_int64 d.
Proof. unfold durationEnv. intros Hf. case_decide; [by intros [= <-]|apply ParseDuration_range]. Qed.
Lemma uint32Env_range Getenv key fallback n :
  0 ≤ fallback < 2 ^ 32 → uint32Env Getenv key fallback = inr n → 0 ≤ n < 2 ^ 32.
Proof.
  unfold uint32Env. intros Hf. case_decide; [by intros [= <-]|].
  destruct (ParseUint _ _) as [e|m]; [done|]. intros [= <-]. by apply uwrap_range.
Qed.
Lemma uint64Env_range Getenv key fallback n :
  0 ≤ fallback < 2 ^ 64 → uint64Env Getenv key fallback = inr n → 0 ≤ n < 2 ^ 64.
Proof. unfold uint64Env. intros Hf. case_decide; [by intros [= <-]|]. by apply ParseUint_range. Qed.

(** A trimmed string is trimmed. *)
Lemma trim_addresses_ok addresses trimmed :
  trim_addresses addresses = inr trimmed →
  length trimmed = length addresses ∧ trimmed = TrimSpace <$> addresses ∧ Forall (λ a, a ≠ "") trimmed.
Proof.
  revert trimmed. induction addresses as [|a rest IH]; intros trimmed; cbn [trim_addresses].
  { by intros [= <-]. }
  case_decide as Ha; [done|]. destruct (trim_addresses rest) as [e|l]; [done|]. intros [= <-].
  destruct (IH l eq_refl) as (Hl & -> & Hall). split_and!; [by cbn; rewrite Hl|done|by constructor].
Qed.
Lemma Split_nonempty s sep : Split s sep ≠ [].
Proof. unfold Split. pose proof (split_bytes_nonempty sep (to_bytes s)). by destruct (split_bytes _ _). Qed.

Lemma Load_in_range Getenv c : Load Getenv = inr c → in_range c.
Proof.
  unfold Load. destruct (HexStringToUint128 _) as [e|clusterID]; [done|].
  intros (ledger & E1 & (timeout & E2 & (delay & E3 & (limit & E4 & (concurrency & E5 & (stall & E6 &
    (size & E7 & (addresses & E8 & [= <-])%result_bind_inr)%result_bind_inr)%result_bind_inr)%result_bind_inr
    )%result_bind_inr)%result_bind_inr)%result_bind_inr)%result_bind_inr.
  apply checked_ok in E1 as [E1 ?], E2 as [E2 ?], E3 as [E3 ?], E4 as [E4 ?], E5 as [E5 ?],
    E6 as [E6 ?], E7 as [E7 ?]. bool_simpl.
  apply uint32Env_range in E1; [|lia]. apply durationEnv_range in E3; [|done].
  apply uint64Env_range in E4; [|lia]. destruct (trim_addresses_ok _ _ E8) as (Hlen & Htrim & Hne).
  assert (maxTimeout = (2 ^ 32 - 1) * Second) as Hmax by reflexivity.
  unfold in_int64, maxDuration in *.
  split; cbn; unfold maxDuration; try lia.
  - intros ->. symmetry in Hlen. apply nil_length_inv in Hlen. by apply Split_nonempty in Hlen.
  - apply Forall_forall. intros a Ha. split; [by rewrite Forall_forall in Hne; apply Hne|].
    rewrite Htrim in Ha. apply list_elem_of_fmap in Ha as (b & -> & _). apply TrimSpace_idem.
Qed.

(** ** Writing a configuration *)

(** An environment that says [c]: numbers in decimal, durations in nanoseconds. *)
Definition number (n : Z) : string := decimal (Z.to_N n).
Definition nanoseconds (d : Duration) : string := number d +:+ "ns".
Definition written (c : Config) (key : string) : string :=
  if decide (key = "HTTP_ADDRESS") then HTTPAddress c
  else if decide (key = "TB_CLUSTER_ID") then Uint128_String (TigerBeetleClusterID c)
  else if decide (key = "TB_ADDRESSES")
  then of_bytes (join_bytes 44 (to_bytes <$> TigerBeetleAddresses c))
  else if decide (key = "TB_LEDGER_ID") then number (LedgerID c)
  else if decide (key = "AUTHORIZATION_TIMEOUT") then nanoseconds (AuthorizationTimeout c)
  else if decide (key = "RISK_EVALUATION_DELAY") then nanoseconds (RiskEvaluationDelay c)
  else if decide (key = "RISK_AUTO_APPROVE_LIMIT_CENTS") then number (RiskAutoApproveLimitCents c)
  else if decide (key = "MAX_CONCURRENT_REQUESTS") then number (MaxConcurrentRequests c)
  else if decide (key = "LEDGER_STALL_THRESHOLD") then nanoseconds (LedgerStallThreshold c)
  else if decide (key = "ACCOUNT_METADATA_CACHE_SIZE") then number (AccountMetadataCacheSize c)
  else "".

(** What can be written: an address without commas, nothing empty. *)
Record writable (c : Config) : Prop := {
  wr_range : in_range c;
  wr_http : HTTPAddress c ≠ "";
  wr_cluster : Uint128_String (TigerBeetleClusterID c) ≠ "";
  wr_commas : Forall (λ a, 44%N ∉ to_bytes a) (TigerBeetleAddresses c) }.

Lemma checked_intro {A} (r : result error A) invalid msg a :
  r = inr a → invalid a = false → checked r invalid msg = inr a.
Proof. intros -> H. cbn. by rewrite H. Qed.

Lemma env_written c key fallback : written c key ≠ "" → env (written c) key fallback = written c key.
Proof. intros H. unfold env. by rewrite decide_True. Qed.
Lemma uint32Env_number Getenv key fallback n :
  0 ≤ n < 2 ^ 32 → Getenv key = number n → uint32Env Getenv key fallback = inr n.
Proof.
  intros Hn H. unfold uint32Env, number in *. rewrite H, decide_False by apply decimal_nonempty.
  rewrite ParseUint_decimal, Z2N.id by (rewrite ?Z2N.id; lia). by rewrite uint32_id.
Qed.
Lemma uint64Env_number Getenv key fallback n :
  0 ≤ n < 2 ^ 64 → Getenv key = number n → uint64Env Getenv key fallback = inr n.
Proof.
  intros Hn H. unfold uint64Env, number in *. rewrite H, decide_False by apply decimal_nonempty.
  by rewrite ParseUint_decimal, Z2N.id by (rewrite ?Z2N.id; lia).
Qed.
Lemma intEnv_number Getenv key fallback n :
  0 ≤ n < 2 ^ 63 → Getenv key = number n → intEnv Getenv key fallback = inr n.
Proof.
  intros Hn H. unfold intEnv, number in *. rewrite H, decide_False by apply decimal_nonempty.
  by rewrite Atoi_decimal, Z2N.id by (rewrite ?Z2N.id; lia).
Qed.
Lemma durationEnv_nanoseconds Getenv key fallback d :
  0 ≤ d < 2 ^ 63 → Getenv key = nanoseconds d → durationEnv Getenv key fallback = inr d.
Proof.
  intros Hd H. unfold durationEnv, nanoseconds, number in *. rewrite H, decide_False.
  2: { intros E%(f_equal (λ s, length (to_bytes s))). rewrite to_bytes_app, length_app in E. cbn in E. lia. }
  rewrite (ParseDuration_decimal _ "ns" 1), Z2N.id by (rewrite ?Z2N.id; (lia || left)). f_equal. lia.
Qed.

Lemma trim_addresses_trimmed addresses :
  Forall (λ a, a ≠ "" ∧ TrimSpace a = a) addresses → trim_addresses addresses = inr addresses.
Proof.
  induction 1 as [|a rest [Hne Ht] _ IH]; [done|]. cbn. rewrite Ht, decide_False by done. by rewrite IH.
Qed.

Lemma bytes_range_join sep parts :
  (sep < 256)%N → Forall (Forall (λ b, b < 256)%N) parts → Forall (λ b, b < 256)%N (join_bytes sep parts).
Proof.
  intros Hs. induction 1 as [|part rest Hp Hr IH]; [constructor|]. cbn.
  destruct rest; [done|]. apply Forall_app. split; [done|]. by constructor.
Qed.

Lemma Split_written addresses :
  addresses ≠ [] → Forall (λ a, 44%N ∉ to_bytes a) addresses →
  Split (of_bytes (join_bytes 44 (to_bytes <$> addresses))) 44 = addresses.
Proof.
  intros Hne Hall. unfold Split. rewrite to_of_bytes.
  - rewrite split_bytes_join; [|by destruct addresses|by apply Forall_fmap].
    rewrite <- list_fmap_compose. rewrite <- (list_fmap_id addresses) at 2.
    apply list_fmap_ext. intros ? a _. apply of_to_bytes.
  - apply bytes_range_join; [done|]. apply Forall_fmap, Forall_forall. intros a _. apply to_bytes_range.
Qed.
Lemma written_addresses_nonempty addresses :
  addresses ≠ [] → Forall (λ a, a ≠ "" ∧ TrimSpace a = a) addresses →
  of_bytes (join_bytes 44 (to_bytes <$> addresses)) ≠ "".
Proof.
  intros Hne Hall E%(f_equal String.length). rewrite length_of_bytes in E.
  destruct Hall as [|a rest [Ha _] _]; [done|]. destruct a as [|ch a]; [done|].
  cbn in E. by destruct rest.
Qed.
End startup.

(** C24: Accepted configurations are safe.  Whatever the environment holds, a
    configuration [Load] accepts is in its documented ranges, and what the
    server builds from it is what it says: the hold of every authorization
    carries the timeout rounded up to whole seconds, between one and [2^32 - 1],
    never wrapped; the tracker uses the configured threshold, not its default;
    the cache has the configured size; and the admission controller exists,
    with at least one and exactly the configured number of slots. *)
Theorem configuration_is_safe {sdk : SDK} Getenv c id card merchant amount :
  Load Getenv = inr c →
  in_range c ∧
  let '(s, cache, tracker) := configured_service c in
  let hold := authorization_transfer s id card merchant amount in
  (1 ≤ Transfer_Timeout hold < 2 ^ 32 ∧
   AuthorizationTimeout c ≤ Transfer_Timeout hold * Second < AuthorizationTimeout c + Second) ∧
  ledgerID s = LedgerID c ∧ Transfer_Ledger hold = LedgerID c ∧
  stallThreshold tracker = LedgerStallThreshold c ∧
  Z.of_nat (cache_limit cache) = AccountMetadataCacheSize c ∧
  ∃ a, configured_admission c = Some a ∧ slots a = 0 ∧ 1 ≤ limit a ∧ limit a = MaxConcurrentRequests c.
Proof.
  intros Hload. pose proof (Load_in_range Getenv c Hload) as Hc. split; [done|].
  destruct Hc as [Hl Ht Hd Hr Hm Hs Hcache _ _].
  assert (0 < AuthorizationTimeout c ≤ max_timeout) as Htimeout
    by (unfold max_timeout; rewrite second_pos in *; lia).
  unfold configured_service, New. cbn [fst snd].
  rewrite (hold_timeout _ (AuthorizationTimeout c)) by done.
  pose proof (ceil_seconds_bounds _ (proj1 Htimeout)) as [? ?].
  pose proof (ceil_seconds_le _ (2 ^ 32 - 1) (proj2 Htimeout)).
  split_and!; try lia; [done|..].
  - unfold authorization_transfer. by destruct (merchantFingerprint merchant).
  - cbn. destruct (Z.leb_spec (LedgerStallThreshold c) 0); [|done].
    unfold Millisecond in *. lia.
  - cbn. destruct (Z.ltb_spec (AccountMetadataCacheSize c) 0); lia.
  - unfold configured_admission, newAdmissionController.
    destruct (Z.ltb_spec (MaxConcurrentRequests c) 0); [lia|]. eexists. split_and!; [done|done|..]; cbn; lia.
Qed.

(** An environment that sets a timeout of 1.5 s and leaves the rest. *)
Definition short_env (key : string) : string :=
  if decide (key = "AUTHORIZATION_TIMEOUT") then "1.5s" else
  if decide (key = "TB_ADDRESSES") then " 10.0.0.1:3000, 10.0.0.2:3000 " else "".
Definition short_config : Config :=
  mkConfig ":8080" Uint128_zero ["10.0.0.1:3000"; "10.0.0.2:3000"] 1 1500000000 200000000 100000 4096
    2000000000 100000.

(** The defaults, and the values [config_test.go] expects. *)
Example defaults :
  Load (λ _, "") = inr (mkConfig ":8080" Uint128_zero ["127.0.0.1:3000"] 1 Hour (200 * Millisecond)
    100000 4096 (2 * Second) 100000).
Proof. by_computation. Qed.
Example unsafe_stall_threshold :
  Load (λ key, if decide (key = "LEDGER_STALL_THRESHOLD") then "10ms" else "") =
  inl (Errorf "LEDGER_STALL_THRESHOLD must be between 100ms and 1m").
Proof. by_computation. Qed.
Example cache_disabled :
  match Load (λ key, if decide (key = "ACCOUNT_METADATA_CACHE_SIZE") then "0" else "") with
  | inr c => AccountMetadataCacheSize c =? 0 | inl _ => false end = true.
Proof. by_computation. Qed.

Lemma configuration_is_safe_witness : in_range short_config.
Proof.
  refine (proj1 (configuration_is_safe short_env short_config Uint128_zero Uint128_zero "MRC_009" 5 _)).
  by_computation.
Defined.

(** C25: A written configuration is read back.  For every configuration in range,
    the environment that gives its numbers in decimal, its durations in
    nanoseconds, its cluster id in hexadecimal and its addresses joined by commas
    loads as exactly that configuration. *)
Theorem configuration_round_trip {sdk : SDK} {laws : SDKLaws sdk} (c : Config) :
  writable c → Load (written c) = inr c.
Proof.
  intros [[Hl Ht Hd Hr Hm Hs Hcache Hne Haddr] Hhttp Hcluster Hcommas].
  assert (Second = 1000000000) as HS by reflexivity.
  unfold Load. rewrite (env_written c "TB_CLUSTER_ID"), (env_written c "HTTP_ADDRESS") by done.
  rewrite (env_written c "TB_ADDRESSES") by by apply written_addresses_nonempty.
  change (written c "TB_CLUSTER_ID") with (Uint128_String (TigerBeetleClusterID c)). rewrite Hex_String.
  unfold maxDuration, Minute, Millisecond in *. rewrite HS in *.
  rewrite (checked_intro _ _ _ (LedgerID c));
    [|by apply uint32Env_number; [lia|]|by apply Z.eqb_neq; lia]. cbn [result_bind].
  rewrite (checked_intro _ _ _ (AuthorizationTimeout c));
    [|apply durationEnv_nanoseconds; [lia|done]
     |apply orb_false_iff; split; apply Z.ltb_ge; [|change maxTimeout with ((2 ^ 32 - 1) * 1000000000)]; lia].
  cbn [result_bind].
  rewrite (checked_intro _ _ _ (RiskEvaluationDelay c));
    [|apply durationEnv_nanoseconds; [lia|done]|apply Z.ltb_ge; lia]. cbn [result_bind].
  rewrite (checked_intro _ _ _ (RiskAutoApproveLimitCents c));
    [|by apply uint64Env_number; [lia|]|by apply Z.eqb_neq; lia]. cbn [result_bind].
  rewrite (checked_intro _ _ _ (MaxConcurrentRequests c));
    [|by apply intEnv_number; [lia|]
     |apply orb_false_iff; split; [apply Z.leb_gt|apply Z.ltb_ge]; lia]. cbn [result_bind].
  rewrite (checked_intro _ _ _ (LedgerStallThreshold c));
    [|apply durationEnv_nanoseconds; [lia|done]
     |apply orb_false_iff; split; apply Z.ltb_ge; unfold Minute, Millisecond; rewrite ?HS; lia]. cbn [result_bind].
  rewrite (checked_intro _ _ _ (AccountMetadataCacheSize c));
    [|by apply intEnv_number; [lia|]|apply orb_false_iff; split; apply Z.ltb_ge; lia]. cbn [result_bind].
  change (written c "TB_ADDRESSES") with (of_bytes (join_bytes 44 (to_bytes <$> TigerBeetleAddresses c))).
  rewrite Split_written, trim_addresses_trimmed by done. by destruct c.
Qed.

Lemma short_config_writable : writable short_config.
Proof.
  assert (Load short_env = inr short_config) as H by by_computation.
  split; [by apply (Load_in_range short_env)|done|..].
  - intros H0. assert (bool_decide (Uint128_String (TigerBeetleClusterID short_config) = "") = false) as Hb
      by by_computation. by rewrite bool_decide_eq_false in Hb.
  - repeat constructor; apply (bool_decide_unpack _); vm_compute; exact I.
Qed.
Lemma configuration_round_trip_witness : Load (written short_config) = inr short_config.
Proof.
  apply (configuration_round_trip (laws := ModelSDK_laws) short_config). apply short_config_writable.
Defined.
