(* ===== verification/Main.v ===== *)
(** * [cmd/ledger-service/main.go]: from the environment to a serving program

    [run] loads the configuration, connects to the cluster, builds the service,
    provisions the system accounts and starts to serve; [startup] composes the
    models of these steps in that order.  What serves is the concurrent system
    of [HttpSystem.v].  [stopped] and [exit_code] are what [run] and [main] make of
    the ways to stop; [Process.v] is the process that serves and stops. *)
From S2P Require Import Prelude GoBase GoText GoCrypto Domain TigerBeetle TigerBeetleModel LedgerModel.
From S2P Require Import Cache Health Interface Semantics Contract FakeLedger Client Service ServiceSpec.
From S2P Require Import Operations OperationsSpec Invariant Safety Replay Scenarios System.
From S2P Require Import Http HttpProgram Admission HttpSemantics Server HttpSystem Config.
Import GoInt GoError GoTime.
Local Open Scope Z_scope.

Section main.
Context {sdk : SDK} {B : Type} {batch : BatchClient B}.
(** [tb.NewClient] and [os.Getenv]. *)
Context (tb_NewClient : Uint128 → list string → result error B) (Getenv : string → string).

(** The functions [run] defers, the last one first. *)
Inductive deferred_call := CancelShutdown | CloseClient | StopSignals.

(** [Stopped] carries the error and the functions deferred so far. *)
Inductive started :=
| Stopped (err : error) (pending : list deferred_call)
| StartPanic
| Serving (s : Service) (w : HWorld (Client B)).

(** [run] up to the call of [ListenAndServe]. *)
Definition startup (env : Env) : started :=
  match Load Getenv with
  | inl err => Stopped err []
  | inr configuration =>
      match NewClient (tb_NewClient (TigerBeetleClusterID configuration)
                                    (TigerBeetleAddresses configuration)) with
      | inl err => Stopped err [StopSignals]
      | inr ledgerClient =>
          let '(ledgerService, cache, tracker) := configured_service configuration in
          match run env (EnsureSystemAccounts ledgerService) (mkWorld ledgerClient cache tracker 0 [] []) with
          | (None, _) => StartPanic
          | (Some (inl err), _) => Stopped err [CloseClient; StopSignals]
          | (Some (inr _), w) =>
              match configured_admission configuration with
              | None => StartPanic
              | Some admission => Serving ledgerService (mkHWorld w admission [])
              end
          end
      end
  end.

(** The [select] of [run]: a signal and the result of [Shutdown], or the error
    [ListenAndServe] returned. *)
Definition http_ErrServerClosed := ErrorNew "http: Server closed".
Inductive served := Signalled (shutdown : option error) | ServeFailed (err : error).
Definition stopped (e : served) : option error :=
  match e with
  | Signalled shutdown => shutdown
  | ServeFailed err => if Is err http_ErrServerClosed then None else Some err
  end.
(** [os.Exit(1)] when the run or the flush of the log failed. *)
Definition exit_code (runErr flushErr : option error) : Z :=
  match runErr, flushErr with None, None => 0 | _, _ => 1 end.
End main.

Section safe_start.
Context {sdk : SDK} {B : Type} {batch : BatchClient B} {view : LedgerView B} {contract : BatchContract B}.

(** A cluster whose journal of the service's ledger is the service's own. *)
Definition own_journal (s : Service) (b : B) : Prop :=
  ∀ id t, transfer_of b id = Some t → Transfer_Ledger t = ledgerID s → conforms s (mkClient b) t.

Lemma provisioned_world env s cache tracker b r (w : World (Client B)) :
  env_ok env → ledger_wf b → own_journal s b → (∃ size, cache = newMetadataCache size) →
  run env (EnsureSystemAccounts s) (mkWorld (mkClient b) cache tracker 0 [] []) = (r, w) →
  ∃ a, r = Some a ∧ service_inv s (w_ledger w) (w_cache w) ∧
    ledger_ext (mkClient b) (w_ledger w) ∧ system_truth s a (w_ledger w).
Proof.
  intros Henv Hwf Hown [size ->] Hrun.
  destruct (rg_run (service_inv s) ledger_ext env (EnsureSystemAccounts s) (system_truth s)
    (mkWorld (mkClient b) (newMetadataCache size) tracker 0 [] []) Henv) as (a & w' & Hrun' & Hinv & Hext & HQ).
  - split; [done|apply new_cache_coherent|done].
  - apply EnsureSystemAccounts_safe.
  - rewrite Hrun in Hrun'. injection Hrun' as -> ->. by exists a.
Qed.
End safe_start.

(** C14: The server starts safely and serves safely.  Started on a cluster that
    honours the SDK's contract and whose journal is the service's own - an empty
    one, or one this program has written -, with any environment, the program
    never panics on the way up: it stops with an error or it serves; and when it
    serves, both system accounts are in the ledger, nothing that was in the
    ledger is lost, all configured slots are free, and no request to come, in any
    interleaving, panics. *)
Theorem server_starts_safely {sdk : SDK} {B : Type} {batch : BatchClient B} {view : LedgerView B}
    {contract : BatchContract B} {Body : Type} {codecs : Codecs Body} tb_NewClient Getenv env :
  env_ok env →
  (∀ cluster addresses b, tb_NewClient cluster addresses = inr b → ledger_wf b ∧
     ∀ c, Load Getenv = inr c → own_journal (fst (fst (configured_service c))) b) →
  match startup tb_NewClient Getenv env with
  | StartPanic => False
  | Stopped _ _ => True
  | Serving s w =>
      at_rest s w ∧ 1 ≤ limit (h_admission w) ∧
      Forall (λ '(kind, id), known_kind s (w_ledger (h_world w)) id kind) systemAccounts ∧
      (∃ cluster addresses b, tb_NewClient cluster addresses = inr b ∧
         ledger_ext (mkClient b) (w_ledger (h_world w))) ∧
      ∀ (rs : list (Request Body)) ts w', http_reachable s env rs w ts w' → ∀ i c, ts !! i ≠ Some (HPanic c)
  end.
Proof.
  intros Henv Hcluster. unfold startup.
  destruct (Load Getenv) as [e|c] eqn:Hload; [done|].
  destruct (tb_NewClient _ _) as [e|b] eqn:Hnew; [done|]. cbn [NewClient].
  destruct (Hcluster _ _ _ Hnew) as [Hwf Hown]. specialize (Hown c eq_refl).
  destruct (configured_service c) as [[s cache] tracker] eqn:Hconf. cbn [fst] in Hown.
  destruct (run env (EnsureSystemAccounts s) _) as [r w] eqn:Hrun.
  destruct (provisioned_world env s cache tracker b r w) as (a & -> & Hinv & Hext & Hsys);
    [done|done|done|unfold configured_service, New in Hconf; injection Hconf as _ <- _; by eexists|done|].
  destruct a as [e|[]]; [done|].
  destruct (Load_in_range _ _ Hload) as [_ _ _ _ Hm _ _ _ _].
  unfold configured_admission, newAdmissionController.
  destruct (Z.ltb_spec (MaxConcurrentRequests c) 0) as [|_]; [lia|].
  assert (at_rest s (mkHWorld w (mkAdmissionController 0 (MaxConcurrentRequests c) 0 [] []) [])) as Hrest
    by (split; cbn; (done || lia)).
  split_and!; [done|cbn; lia|by apply Hsys|by eexists _, _, b|].
  intros rs ts w' Hreach i c' Hi.
  destruct (http_any s env rs _ ts w' Henv Hrest Hreach) as (gs & Hok & _).
  by destruct (any_ended s gs ts w' _ i _ (Panicked c') Hok Hi eq_refl) as [_ [? ?]].
Qed.

(** A first start on an empty cluster. *)
Definition empty_cluster (_ : Uint128) (_ : list string) : result error fakeLedger :=
  inr (newFakeLedger start).
#[local] Instance fake_batch : BatchClient fakeLedger := sequential_batch.
#[local] Instance fake_batch_contract : BatchContract fakeLedger :=
  sequential_contract (contract := fakeLedger_Contract (laws := ModelSDK_laws)).

Definition first_start : started := startup empty_cluster short_env test_env.
Definition is_serving (o : started (B := fakeLedger)) : bool := if o is Serving _ _ then true else false.
Example first_start_serves : is_serving first_start = true.
Proof. by_computation. Qed.

Lemma server_starts_safely_witness :
  match first_start with
  | StartPanic => False | Stopped _ _ => True
  | Serving s w => at_rest s w
  end.
Proof.
  pose proof (server_starts_safely (codecs := plain_codecs) empty_cluster short_env test_env test_env_ok) as H.
  unfold first_start. revert H. destruct (startup empty_cluster short_env test_env) as [e ds| |s w].
  - intros _. exact I.
  - intros H. apply H. intros cluster addresses b [= <-]. split; [apply newFakeLedger_wf|].
    intros c _ id t. cbn. by rewrite lookup_empty.
  - intros H. apply H. intros cluster addresses b [= <-]. split; [apply newFakeLedger_wf|].
    intros c _ id t. cbn. by rewrite lookup_empty.
Defined.
