(* ===== verification/Process.v ===== *)
(** * [cmd/ledger-service/main.go]: the process that serves and stops

    After the start-up of [Main.v]: the goroutine that listens, the [select] of
    [run], [Shutdown], the deferred functions and the exit, interleaved with the
    HTTP requests that arrive and their handlers.  Of [http.Server] the model has
    what its documentation says: no connection is accepted once [Shutdown] is called
    (the one request an open connection may still send is accepted with it);
    [ListenAndServe] returns [ErrServerClosed]
    after [Shutdown] and another error before it; [Shutdown] returns nil only when
    no request is left, or an error, such as that of its context, at any time. *)
From S2P Require Import Prelude GoBase GoText GoCrypto Domain TigerBeetle TigerBeetleModel LedgerModel.
From S2P Require Import Cache Health Interface Semantics Contract FakeLedger Client Service ServiceSpec.
From S2P Require Import Operations OperationsSpec Invariant Safety Replay Scenarios System.
From S2P Require Import Http HttpProgram Admission HttpSemantics Server HttpSystem HttpRefinement Config Main.
Import GoInt GoError GoTime.
Local Open Scope Z_scope.

Section process.
Context {sdk : SDK} {L : Type} {ledger : Ledger L} {Body : Type} {codecs : Codecs Body}.
Context (s : Service) (env : Env).

(** The goroutine [errorChannel <- server.ListenAndServe()]: in the call, about
    to send its error, ended. *)
Inductive listener := Listening | ServeReturned (err : error) | ListenerEnded.

(** [run] and [main]: at the [select], in [Shutdown], running the deferred
    functions with the result of [run], exited. *)
Inductive runner :=
| Selecting
| ShuttingDown
| Deferring (r : option error) (pending : list deferred_call)
| Exited (code : Z).

(** The process: [errorChannel] has one place, [deferred_run] lists the deferred
    functions that have run, [accepted] the requests in the order they arrived,
    [serving] their handlers. *)
Record process := mkProcess {
  p_listener : listener;
  errorChannel : list error;
  signalled : bool;
  p_runner : runner;
  deferred_run : list deferred_call;
  accepted : list (Request Body);
  serving : list (hprog connection);
  p_world : HWorld L }.

(** [run] when the goroutine is started. *)
Definition begin_serving (w : HWorld L) : process :=
  mkProcess Listening [] false Selecting [] [] [] w.
(** [run] when the start-up has failed. *)
Definition failed_start (err : error) (pending : list deferred_call) (w : HWorld L) : process :=
  mkProcess ListenerEnded [] false (Deferring (Some err) pending) [] [] [] w.

Definition alive (r : runner) : Prop := ∀ code, r ≠ Exited code.
(** A request that has ended, by its answer or by a panic of its handler. *)
Definition request_ended (p : hprog connection) : Prop := ∃ o, hresult p o.

Inductive process_step : process → process → Prop :=
| step_accept r f errs sg ds rs ts w :
    process_step (mkProcess f errs sg Selecting ds rs ts w)
                 (mkProcess f errs sg Selecting ds (rs ++ [r]) (ts ++ [NewHandler s r new_connection]) w)
| step_handler f errs sg m ds rs ts w ts' w' :
    alive m → hpool_step env (ts, w) (ts', w') →
    process_step (mkProcess f errs sg m ds rs ts w) (mkProcess f errs sg m ds rs ts' w')
(** SIGINT or SIGTERM *)
| step_signal f errs m ds rs ts w :
    alive m → process_step (mkProcess f errs false m ds rs ts w) (mkProcess f errs true m ds rs ts w)
| step_listen_fails err errs sg ds rs ts w :
    Is err http_ErrServerClosed = false →
    process_step (mkProcess Listening errs sg Selecting ds rs ts w)
                 (mkProcess (ServeReturned err) errs sg Selecting ds rs ts w)
| step_listen_closed errs sg m ds rs ts w :
    m ≠ Selecting → alive m →
    process_step (mkProcess Listening errs sg m ds rs ts w)
                 (mkProcess (ServeReturned http_ErrServerClosed) errs sg m ds rs ts w)
| step_send err sg m ds rs ts w :
    alive m →
    process_step (mkProcess (ServeReturned err) [] sg m ds rs ts w)
                 (mkProcess ListenerEnded [err] sg m ds rs ts w)
(** [case <-rootContext.Done()] *)
| step_select_signal f errs ds rs ts w :
    process_step (mkProcess f errs true Selecting ds rs ts w) (mkProcess f errs true ShuttingDown ds rs ts w)
(** [case err := <-errorChannel] *)
| step_select_error f err errs sg ds rs ts w :
    process_step (mkProcess f (err :: errs) sg Selecting ds rs ts w)
                 (mkProcess f errs sg (Deferring (stopped (ServeFailed err)) [CloseClient; StopSignals]) ds rs ts w)
| step_shutdown r f errs sg ds rs ts w :
    (r = None → Forall request_ended ts) →
    process_step (mkProcess f errs sg ShuttingDown ds rs ts w)
                 (mkProcess f errs sg (Deferring (stopped (Signalled r)) [CancelShutdown; CloseClient; StopSignals])
                    ds rs ts w)
| step_deferred f errs sg r d pending ds rs ts w :
    process_step (mkProcess f errs sg (Deferring r (d :: pending)) ds rs ts w)
                 (mkProcess f errs sg (Deferring r pending) (ds ++ [d]) rs ts w)
(** [main] after [run]; [flushErr] is the result of flushing the log *)
| step_exit f errs sg r flushErr ds rs ts w :
    process_step (mkProcess f errs sg (Deferring r []) ds rs ts w)
                 (mkProcess f errs sg (Exited (exit_code r flushErr)) ds rs ts w).

Definition process_steps := rtc process_step.

(** ** Invariants *)

(** The requests that arrive one by one are those of a pool that has them all
    from the beginning. *)
Lemma hpool_steps_append {A} (us : list (hprog A)) (cfg cfg' : list (hprog A) * HWorld L) :
  hpool_steps env cfg cfg' → hpool_steps env (fst cfg ++ us, snd cfg) (fst cfg' ++ us, snd cfg').
Proof.
  induction 1 as [cfg|cfg cfg1 cfg2 Hstep _ IH]; [constructor|]. eapply rtc_l; [|exact IH].
  destruct Hstep as [ts i X e k w x w' Hi Hh]. cbn [fst snd].
  rewrite <- insert_app_l by (by eapply lookup_lt_Some).
  apply (hpool_call env (ts ++ us) i X e k); [|done]. by apply lookup_app_l_Some.
Qed.

Lemma http_reachable_accept rs r (w0 : HWorld L) ts w :
  http_reachable s env rs w0 ts w →
  http_reachable s env (rs ++ [r]) w0 (ts ++ [NewHandler s r new_connection]) w.
Proof.
  intros Hreach. unfold http_reachable, http_requests_of. rewrite fmap_app.
  exact (hpool_steps_append [NewHandler s r new_connection] _ _ Hreach).
Qed.

Lemma ended_no_step ts (w : HWorld L) ts' w' : Forall request_ended ts → ¬ hpool_step env (ts, w) (ts', w').
Proof.
  intros Hall Hstep. inversion Hstep as [? i X e k ? x ? Hi Hh]; subst.
  destruct (proj1 (Forall_lookup _ _) Hall i _ Hi) as [[a|c] Ho]; discriminate Ho.
Qed.

(** The functions [run] defers on the two ways out of the [select]. *)
Definition after_error := [CloseClient; StopSignals].
Definition after_signal := [CancelShutdown; CloseClient; StopSignals].

(** [run] returns nil only after a signal, when no request is left. *)
Definition clean_end (x : process) (all : list deferred_call) : Prop :=
  signalled x = true ∧ all = after_signal ∧ Forall request_ended (serving x).

(** What holds of the process at each point of [run]. *)
Definition runner_ok (x : process) : Prop :=
  match p_runner x with
  | Selecting => deferred_run x = [] ∧ Forall (λ e, Is e http_ErrServerClosed = false) (errorChannel x) ∧
      ∀ e, p_listener x = ServeReturned e → Is e http_ErrServerClosed = false
  | ShuttingDown => deferred_run x = [] ∧ signalled x = true
  | Deferring r pending =>
      deferred_run x ++ pending ∈ [after_error; after_signal] ∧
      (r = None → clean_end x (deferred_run x ++ pending))
  | Exited code =>
      deferred_run x ∈ [after_error; after_signal] ∧ (code = 0 → clean_end x (deferred_run x))
  end.

Record process_ok (w0 : HWorld L) (x : process) : Prop := {
  ok_reachable : http_reachable s env (accepted x) w0 (serving x) (p_world x);
  ok_runner : runner_ok x;
  ok_channel : p_listener x ≠ ListenerEnded → errorChannel x = [] }.

Lemma begin_ok w0 : process_ok w0 (begin_serving w0).
Proof. split; cbn; [constructor| |done]. unfold runner_ok. cbn. split_and!; [done|constructor|done]. Qed.

Lemma process_step_ok w0 x y : process_step x y → process_ok w0 x → process_ok w0 y.
Proof.
  intros Hstep [Hreach Hrun Hchan]. destruct Hstep; cbn in *; unfold runner_ok in *; cbn in *.
  - split; [by apply http_reachable_accept|done|done].
  - split; [by eapply rtc_r|unfold runner_ok; cbn|done].
    assert (∀ all, clean_end (mkProcess f errs sg m ds rs ts w) all →
      clean_end (mkProcess f errs sg m ds rs ts' w') all) as Hclean.
    { intros all (_ & _ & Hall). by apply (ended_no_step ts w ts' w') in Hall. }
    destruct m; [done|done| |by destruct (H code)]. destruct Hrun as [? Hr]. split; [done|].
    intros ->. by apply Hclean, Hr.
  - split; [done|unfold runner_ok; cbn|done].
    destruct m; [done|by destruct Hrun| |by destruct (H code)]. destruct Hrun as [? Hr]. split; [done|].
    intros ->. destruct (Hr eq_refl) as (? & ? & ?). done.
  - split; [done|unfold runner_ok; cbn|by intros _; apply Hchan].
    destruct Hrun as (? & ? & _). split_and!; [done..|]. by intros e [= <-].
  - split; [done|unfold runner_ok; cbn|by intros _; apply Hchan].
    destruct m; [done|done| |by destruct (H0 code)]. exact Hrun.
  - split; [done|unfold runner_ok; cbn|done].
    destruct m; [|done| |by destruct (H code)]; [|exact Hrun].
    destruct Hrun as (? & ? & Hl). split_and!; [done| |done]. constructor; [by apply Hl|constructor].
  - split; [done|unfold runner_ok; cbn|done]. by destruct Hrun.
  - split; [done|unfold runner_ok; cbn|].
    + destruct Hrun as (-> & Herrs & _). inversion Herrs as [|? ? Herr _]; subst. rewrite Herr.
      split; [left|done].
    + intros Hl. specialize (Hchan Hl). discriminate Hchan.
  - split; [done|unfold runner_ok; cbn|done]. destruct Hrun as [-> Hsig]. split; [right; left|].
    intros ->. split_and!; [done|done|]. cbn. by apply H.
  - split; [done|unfold runner_ok; cbn|done]. by rewrite <- app_assoc.
  - split; [done|unfold runner_ok; cbn|done]. rewrite app_nil_r in Hrun. destruct Hrun as [? Hr].
    split; [done|]. destruct r, flushErr; try done. by intros _; apply Hr.
Qed.

Lemma process_steps_ok w0 x y : process_steps x y → process_ok w0 x → process_ok w0 y.
Proof. apply rtc_keeps. apply process_step_ok. Qed.

(** ** Termination *)

(** What is left to do apart from the handlers, once the [select] is over. *)
Definition listener_left (f : listener) : nat :=
  match f with Listening => 2 | ServeReturned _ => 1 | ListenerEnded => 0 end.
Definition runner_left (m : runner) : nat :=
  match m with Selecting => 6 | ShuttingDown => 5 | Deferring _ pending => S (length pending) | Exited _ => 0 end.
Definition left_to_do (x : process) : nat :=
  listener_left (p_listener x) + (if signalled x then 0 else 1) + runner_left (p_runner x).

Lemma stopping_step x y : p_runner x ≠ Selecting → process_step x y →
  p_runner y ≠ Selecting ∧
  ((left_to_do y < left_to_do x)%nat ∨
   left_to_do y = left_to_do x ∧ hpool_step env (serving x, p_world x) (serving y, p_world y)).
Proof.
  intros Hsel Hstep. destruct Hstep; cbn in *; try done; (split; [done|]);
    first [by right|left; unfold left_to_do; cbn; try destruct sg; lia].
Qed.

Lemma stopping_acc x : p_runner x ≠ Selecting → Acc (λ y x, process_step x y) x.
Proof.
  assert (∀ n, (∀ x, (left_to_do x < n)%nat → p_runner x ≠ Selecting → Acc (λ y x, process_step x y) x) →
    ∀ cfg, Acc (λ cfg' cfg, hpool_step env cfg cfg') cfg →
    ∀ x, left_to_do x = n → cfg = (serving x, p_world x) → p_runner x ≠ Selecting →
    Acc (λ y x, process_step x y) x) as Hinner.
  { intros n IHn cfg Hacc. induction Hacc as [cfg _ IH]. intros y Hn -> Hsel. constructor. intros z Hstep.
    destruct (stopping_step y z Hsel Hstep) as [Hz [Hlt|[Heq Hpool]]].
    - apply IHn; [by rewrite <- Hn|done].
    - by apply (IH _ Hpool z); [congruence|..]. }
  remember (left_to_do x) as n eqn:Hn. revert x Hn.
  induction (lt_wf n) as [n _ IHn]. intros x -> Hsel.
  eapply (Hinner _); [|apply hpool_step_acc|reflexivity|reflexivity|exact Hsel].
  intros y Hlt Hy. by apply (IHn (left_to_do y)).
Qed.

(** A failed start-up exits with status 1 after what was deferred until then. *)
Definition failing (err : error) (pending : list deferred_call) (x : process) : Prop :=
  (∃ rest, p_runner x = Deferring (Some err) rest ∧ deferred_run x ++ rest = pending) ∨
  p_runner x = Exited 1 ∧ deferred_run x = pending.

Lemma failing_step err pending x y : process_step x y → failing err pending x → failing err pending y.
Proof.
  unfold failing. intros [] [(rest & Hm & Hds)|[Hm Hds]]; cbn in *; simplify_eq;
    try (by left; eexists); try (by right).
  - left. eexists. split; [done|]. by rewrite <- app_assoc.
  - right. by rewrite app_nil_r.
Qed.

Lemma failed_start_exits err pending w x code :
  process_steps (failed_start err pending w) x → p_runner x = Exited code →
  code = 1 ∧ deferred_run x = pending.
Proof.
  intros Hsteps Hx.
  assert (failing err pending x) as [(rest & Hm & _)|[Hm Hds]]; [|congruence|split; congruence].
  apply (rtc_keeps process_step (failing err pending) _ _ (failing_step err pending) Hsteps).
  left. by exists pending.
Qed.

(** A process that cannot go on has exited. *)
Lemma process_progress x : (∀ y, ¬ process_step x y) → ∃ code, p_runner x = Exited code.
Proof.
  intros Hstuck. destruct x as [f errs sg m ds rs ts w]. destruct m as [| |r [|d pending]|code]; [..|by exists code].
  - destruct sg; exfalso; [eapply Hstuck, step_select_signal|by eapply Hstuck, step_signal].
  - exfalso. by eapply Hstuck, (step_shutdown (Some http_ErrServerClosed)).
  - exfalso. eapply Hstuck, (step_exit _ _ _ _ None).
  - exfalso. eapply Hstuck, step_deferred.
Qed.
End process.

(** The process has exited with status 0, or [run] is about to return nil. *)
Definition stops_cleanly {sdk : SDK} {L Body : Type} (x : process (L := L) (Body := Body)) : Prop :=
  p_runner x = Exited 0 ∨ ∃ pending, p_runner x = Deferring None pending.

Section stopping.
Context {sdk : SDK} {L : Type} {ledger : Ledger L} {view : LedgerView L} {contract : LedgerContract L}.
Context {Body : Type} {codecs : Codecs Body} (s : Service).

(** Every request was answered, by what the method it asks for returned - from the
    world [w0] in which the server began - and truthfully, and nothing is left of it. *)
Definition all_answered (env : Env) (w0 : HWorld L) (x : process (L := L) (Body := Body)) : Prop :=
  (∃ checks calls, refined s env (accepted x) w0 (serving x) (p_world x) checks calls) ∧
  (∀ i r, accepted x !! i = Some r → ∃ c, serving x !! i = Some (HRet c) ∧
     ∀ q, asks r q → not_admitted c ∨ answers s q c (w_ledger (h_world (p_world x)))) ∧
  slots (h_admission (p_world x)) = 0 ∧ admissionInFlight (h_admission (p_world x)) = 0.

Lemma ended_all_answered env w0 x :
  env_ok env → at_rest s w0 → process_ok s env w0 x → Forall request_ended (serving x) → all_answered env w0 x.
Proof.
  intros Henv Hw0 [Hreach _ _] Hall.
  destruct (http_any s env (accepted x) w0 (serving x) (p_world x) Henv Hw0 Hreach) as (gs & Hok & _).
  pose proof Hok as [_ _ [HlQ Hlg _]]. cbn [fst] in HlQ, Hlg. rewrite length_replicate in HlQ.
  assert (∀ i p, serving x !! i = Some p → gs !! i = Some idle ∧ ∃ c, p = HRet c) as Hend.
  { intros i p Hp. destruct (proj1 (Forall_lookup _ _) Hall i p Hp) as [o Ho].
    destruct (any_ended s gs _ _ _ i p o Hok Hp Ho) as [Hi [c ->]]. split; [done|]. by exists c. }
  split; [by apply http_refined|split; [|apply (hpool_all_idle _ _ _ gs _ _ Hok)]].
  - intros i r Hr. destruct (lookup_lt_is_Some_2 (serving x) i) as [p Hp];
      [rewrite <- HlQ; by eapply lookup_lt_Some|].
    destruct (Hend i p Hp) as (_ & c & ->). exists c. split; [done|]. intros q Hq.
    by eapply (http_answered s env (accepted x) w0).
  - intros i g Hi. destruct (lookup_lt_is_Some_2 (serving x) i) as [p Hp];
      [rewrite <- Hlg; by eapply lookup_lt_Some|].
    destruct (Hend i p Hp) as [Hidle _]. congruence.
Qed.
End stopping.

(** C15: The server stops cleanly.  From the moment it serves, whatever requests
    arrive, however their handlers, the listening goroutine, a signal and [run] are
    interleaved: the goroutine never blocks on its channel; once the [select] is
    over no execution is infinite, and a process that cannot go on has exited; on
    exit the client has been closed exactly once and the deferred functions have
    run, the last one first; and a process exits with status 0 only after a signal,
    when every request it accepted has been answered, by what the method it asks
    for returned and truthfully, before the client was closed, and every slot is
    free. *)
Theorem server_stops_cleanly {sdk : SDK} {L : Type} {ledger : Ledger L} {view : LedgerView L}
    {contract : LedgerContract L} {Body : Type} {codecs : Codecs Body} s env (w0 : HWorld L) x :
  env_ok env → at_rest s w0 → process_steps s env (begin_serving w0) x →
  (∀ err, p_listener x = ServeReturned err → errorChannel x = []) ∧
  (p_runner x ≠ Selecting → Acc (λ y x, process_step s env x y) x) ∧
  ((∀ y, ¬ process_step s env x y) → ∃ code, p_runner x = Exited code) ∧
  (∀ code, p_runner x = Exited code →
     deferred_run x = [CloseClient; StopSignals] ∨ deferred_run x = [CancelShutdown; CloseClient; StopSignals]) ∧
  (stops_cleanly x → signalled x = true ∧ all_answered s env w0 x).
Proof.
  intros Henv Hw0 Hsteps. pose proof (process_steps_ok s env w0 _ _ Hsteps (begin_ok s env w0)) as Hok.
  pose proof Hok as [_ Hrun Hchan]. split_and!.
  - intros err Hl. apply Hchan. by rewrite Hl.
  - apply stopping_acc.
  - apply process_progress.
  - intros code Hm. unfold runner_ok in Hrun. rewrite Hm in Hrun. destruct Hrun as [Hin _].
    apply elem_of_cons in Hin as [?|Hin]; [by left|]. apply list_elem_of_singleton in Hin. by right.
  - intros Hclean. assert (∃ all, clean_end x all) as (all & Hsig & _ & Hall).
    { unfold runner_ok in Hrun. destruct Hclean as [Hm|[pending Hm]]; rewrite Hm in Hrun; destruct Hrun as [_ H];
        by eexists; apply H. }
    split; [done|]. by eapply ended_all_answered.
Qed.

(** ** A process that serves a withdrawal, a top-up with a wrong content type and a
    balance query, is signalled, and exits *)
Section example.
Context {sdk : SDK} {L : Type} {ledger : Ledger L} {Body : Type} {codecs : Codecs Body}.
Context (s : Service) (env : Env).

Lemma accept_steps rs (rs0 : list (Request Body)) ts0 (w : HWorld L) :
  process_steps s env (mkProcess Listening [] false Selecting [] rs0 ts0 w)
    (mkProcess Listening [] false Selecting [] (rs0 ++ rs) (ts0 ++ http_requests_of s rs) w).
Proof.
  revert rs0 ts0. induction rs as [|r rs IH]; intros rs0 ts0; [by rewrite !app_nil_r; constructor|].
  eapply rtc_l; [apply step_accept|]. specialize (IH (rs0 ++ [r]) (ts0 ++ [NewHandler s r new_connection])).
  by rewrite <- !app_assoc in IH.
Qed.

Lemma handler_steps rs (cfg cfg' : list (hprog connection) * HWorld L) :
  hpool_steps env cfg cfg' →
  process_steps s env (mkProcess Listening [] false Selecting [] rs (fst cfg) (snd cfg))
    (mkProcess Listening [] false Selecting [] rs (fst cfg') (snd cfg')).
Proof.
  induction 1 as [|cfg1 cfg2 cfg3 Hstep _ IH]; [constructor|]. eapply rtc_l; [|exact IH].
  apply step_handler; [done|]. by destruct cfg1, cfg2.
Qed.

Lemma stop_steps rs ts (w : HWorld L) : Forall request_ended ts →
  process_steps s env (mkProcess Listening [] false Selecting [] rs ts w)
    (mkProcess Listening [] true (Exited 0) [CancelShutdown; CloseClient; StopSignals] rs ts w).
Proof.
  intros Hall. eapply rtc_l; [by apply step_signal|]. eapply rtc_l; [apply step_select_signal|].
  eapply rtc_l; [by apply (step_shutdown s env None)|]. do 3 (eapply rtc_l; [apply step_deferred|]).
  apply rtc_once. apply (step_exit s env _ _ _ None None).
Qed.

(** Requests are accepted, served to their end, and the process is signalled. *)
Lemma whole_run rs (w : HWorld L) ts w' :
  http_reachable s env rs w ts w' → Forall request_ended ts →
  process_steps s env (begin_serving w)
    (mkProcess Listening [] true (Exited 0) [CancelShutdown; CloseClient; StopSignals] rs ts w').
Proof.
  intros Hreach Hall. etransitivity; [apply (accept_steps rs [] [])|].
  etransitivity; [exact (handler_steps rs _ _ Hreach)|]. by apply stop_steps.
Qed.
End example.

Definition is_ended {sdk : SDK} (p : hprog connection) : bool := if p is HCall _ _ then false else true.
Lemma all_ended {sdk : SDK} ts : forallb is_ended ts = true → Forall request_ended ts.
Proof.
  intros H. apply Forall_forall. intros p Hp. apply list_elem_of_In in Hp.
  apply (proj1 (forallb_forall _ _) H) in Hp. destruct p as [c|c|]; [|..|done];
    [by exists (Returned c)|by exists (Panicked c)].
Qed.

Definition stopped_process : process (L := fakeLedger) :=
  mkProcess Listening [] true (Exited 0) [CancelShutdown; CloseClient; StopSignals] http_test_requests
    (fst (http_test_run 2 in_turns)) (snd (http_test_run 2 in_turns)).

Lemma stopped_process_steps :
  process_steps (service 100000) test_env (begin_serving (http_world 2 world_card)) stopped_process.
Proof.
  apply (whole_run (service 100000) test_env http_test_requests (http_world 2 world_card)
    (fst (http_test_run 2 in_turns)) (snd (http_test_run 2 in_turns)) (http_test_reachable 2 in_turns)).
  apply all_ended. by_computation.
Qed.

Lemma server_stops_cleanly_witness :
  signalled stopped_process = true ∧
  all_answered (service 100000) test_env (http_world 2 world_card) stopped_process.
Proof.
  refine (proj2 (proj2 (proj2 (proj2 (server_stops_cleanly (service 100000) test_env (http_world 2 world_card)
    stopped_process _ _ _)))) _).
  - apply test_env_ok.
  - by apply http_world_at_rest.
  - apply stopped_process_steps.
  - by left.
Defined.
