(* ===== verification/Loadtest.v ===== *)
(** * [cmd/loadtest/main.go]: the load-test tool

    Its options and their validation, the request it sends and its reading of the
    response, the goroutines of [benchmark] as a step relation, and the report.
    The JSON package and the parsing of URLs are the parameter [ClientLib]; what
    the network answers is an argument of [execute]. *)
From S2P Require Import Prelude GoBase GoText GoFloat TigerBeetle.
From stdpp Require Import pretty sorting.
From Stdlib Require Import Floats.SpecFloat.
Import GoInt GoError GoTime.
Local Open Scope Z_scope.

Definition defaultCorporateAccountID := "19c5d2b61ac27dd55d9c9daff5af441".
Definition defaultCardAccountID := "19c5d2b61ac27dd55d9c9daff5af442".
Definition defaultAuthorizationID := "19c5d2b61ac27dd55d9c9daff5af445".
Definition postedConcurrency : Z := 256.
Definition riskConcurrency : Z := 4096.

Record options := mkOptions {
  baseURL : string;
  operation : string;
  option_accountID : string;
  option_cardID : string;
  option_authorizationID : string;
  option_merchantID : string;
  option_amountCents : Z;
  requests : Z;
  concurrency : Z;
  runs : Z;
  warmup : Z;
  timeout : Duration }.

(** The struct [result]. *)
Record measurement := mkMeasurement {
  m_duration : Duration;
  m_status : string;
  m_httpStatus : Z;
  m_err : option error }.

Record summary := mkSummary {
  Run : Z;
  Operation : string;
  Requests : Z;
  Concurrency : Z;
  WarmupRequests : Z;
  Successful : Z;
  Failed : Z;
  DurationMS : Z;
  RequestsPerSec : spec_float;
  P50MS : spec_float;
  P95MS : spec_float;
  P99MS : spec_float;
  MaxMS : spec_float;
  FailureReasons : gmap string Z;
  SampleError : string }.

(** ** Options *)

Definition defaultConcurrency (operation : string) : Z :=
  if bool_decide (operation = "authorize") || bool_decide (operation = "increment")
  then riskConcurrency else postedConcurrency.

(** [parseFlags]; [Parse] is what [flag.Parse] makes of the defaults. *)
Definition default_options : options :=
  mkOptions "http://127.0.0.1:8080" "authorize" defaultCorporateAccountID defaultCardAccountID
    defaultAuthorizationID "MRC_009" 1 10000 0 3 1000 (dmul 15 Second).
Definition set_concurrency (n : Z) (c : options) : options :=
  mkOptions (baseURL c) (operation c) (option_accountID c) (option_cardID c) (option_authorizationID c)
    (option_merchantID c) (option_amountCents c) (requests c) n (runs c) (warmup c) (timeout c).
Definition set_requests (n : Z) (c : options) : options :=
  mkOptions (baseURL c) (operation c) (option_accountID c) (option_cardID c) (option_authorizationID c)
    (option_merchantID c) (option_amountCents c) n (concurrency c) (runs c) (warmup c) (timeout c).
Definition parseFlags (Parse : options → options) : options :=
  let configuration := Parse default_options in
  if concurrency configuration =? 0
  then set_concurrency (defaultConcurrency (operation configuration)) configuration
  else configuration.

Definition validate (c : options) : option error :=
  let op name := bool_decide (operation c = name) in
  if negb (op "authorize") && negb (op "increment") && negb (op "topup") && negb (op "withdraw") then
    Some (Errorf "operation must be authorize, increment, topup, or withdraw")
  else if op "authorize" && bool_decide (option_cardID c = "") then
    Some (Errorf "card-id is required for authorize")
  else if (op "topup" || op "withdraw") && bool_decide (option_accountID c = "") then
    Some (Errorf "account-id is required for topup and withdraw")
  else if op "increment" && bool_decide (option_authorizationID c = "") then
    Some (Errorf "authorization-id is required for increment")
  else if (option_amountCents c =? 0) || (requests c <=? 0) || (concurrency c <=? 0) || (runs c <=? 0) then
    Some (Errorf "amount-cents, requests, concurrency, and runs must be positive")
  else if warmup c <? 0 then Some (Errorf "warmup must not be negative")
  else None.

(** ** One request *)

(** A value of the [map[string]any] that is marshalled. *)
Inductive json_value := JString (s : string) | JUint64 (z : Z).

(** [json.Marshal] of a map, the error of [http.NewRequest] on a URL, and
    [json.Unmarshal] into a struct with the one field [status]. *)
Class ClientLib (Body : Type) := {
  json_Marshal : list (string * json_value) → result error Body;
  NewRequest_error : string → option error;
  Unmarshal_status : Body → result error string;
}.

Record client_request (Body : Type) := mkClientRequest {
  cr_method : string;
  cr_url : string;
  cr_contentType : string;
  cr_body : Body }.
Arguments mkClientRequest {Body}.
Arguments cr_method {Body}.
Arguments cr_url {Body}.
Arguments cr_contentType {Body}.
Arguments cr_body {Body}.

(** What [client.Do] returns, and [io.ReadAll] of the body. *)
Inductive exchange (Body : Type) :=
| DoFailed (err : error)
| Responded (StatusCode : Z) (read : result error Body).
Arguments DoFailed {Body}.
Arguments Responded {Body}.

(** [path] and [payload]. *)
Definition payload (c : options) (requestID : string) : string * list (string * json_value) :=
  if decide (operation c = "increment") then
    ("/v1/authorizations/increments",
     [("request_id", JString requestID);
      ("authorization_id", JString (option_authorizationID c));
      ("increment_cents", JUint64 (option_amountCents c))])
  else if decide (operation c = "topup") then
    ("/v1/topups",
     [("request_id", JString requestID);
      ("account_id", JString (option_accountID c));
      ("amount_cents", JUint64 (option_amountCents c))])
  else if decide (operation c = "withdraw") then
    ("/v1/withdrawals",
     [("request_id", JString requestID);
      ("account_id", JString (option_accountID c));
      ("amount_cents", JUint64 (option_amountCents c))])
  else
    ("/v1/authorizations",
     [("request_id", JString requestID);
      ("card_id", JString (option_cardID c));
      ("merchant_id", JString (option_merchantID c));
      ("amount_cents", JUint64 (option_amountCents c))]).

Section execute.
Context {Body : Type} {lib : ClientLib Body}.

(** [execute] up to the call of [client.Do]. *)
Definition outgoing (c : options) (requestID : string) : result error (client_request Body) :=
  let '(path, fields) := payload c requestID in
  match json_Marshal fields with
  | inl err => inl err
  | inr body =>
      let url := baseURL c +:+ path in
      match NewRequest_error url with
      | Some err => inl err
      | None => inr (mkClientRequest "POST" url "application/json" body)
      end
  end.

(** [execute] from the response on. *)
Definition measure (elapsed : Duration) (e : exchange Body) : measurement :=
  match e with
  | DoFailed err => mkMeasurement elapsed "" 0 (Some err)
  | Responded StatusCode (inl err) => mkMeasurement elapsed "" StatusCode (Some err)
  | Responded StatusCode (inr responseBody) =>
      if (StatusCode <? 200) || (300 <=? StatusCode) then
        mkMeasurement elapsed "" StatusCode (Some (Errorf ("HTTP " +:+ pretty StatusCode)))
      else match Unmarshal_status responseBody with
      | inl err => mkMeasurement elapsed "" StatusCode (Some err)
      | inr status => mkMeasurement elapsed status StatusCode None
      end
  end.

(** [requestID] is the text of [tb.ID()]. *)
Definition execute (c : options) (requestID : string) (Do : client_request Body → exchange Body)
    (elapsed : Duration) : measurement :=
  match outgoing c requestID with
  | inl err => mkMeasurement 0 "" 0 (Some err)
  | inr request => measure elapsed (Do request)
  end.
End execute.

Definition failureReason (m : measurement) : string :=
  match m_err m with
  | Some _ =>
      if negb (m_httpStatus m =? 0) && ((m_httpStatus m <? 200) || (300 <=? m_httpStatus m))
      then "http_" +:+ pretty (m_httpStatus m) else "request_error"
  | None => if decide (m_status m = "") then "missing_outcome" else "outcome_" +:+ m_status m
  end.

(** ** The report *)

(** [result.err == nil && (result.status == "posted" || ...)] *)
Definition success (m : measurement) : bool :=
  match m_err m with
  | Some _ => false
  | None => bool_decide (m_status m = "posted") || bool_decide (m_status m = "approved")
  end.

Record tally := mkTally {
  latencies : list Duration;
  successful : Z;
  failureReasons : gmap string Z;
  sampleError : string }.
Definition tally0 : tally := mkTally [] 0 ∅ "".
(** One iteration of [for result := range results]. *)
Definition tally_step (t : tally) (m : measurement) : tally :=
  let latencies := latencies t ++ [m_duration m] in
  if success m then mkTally latencies (successful t + 1) (failureReasons t) (sampleError t)
  else
    let reason := failureReason m in
    mkTally latencies (successful t)
      (<[reason := default 0 (failureReasons t !! reason) + 1]> (failureReasons t))
      (match m_err m with
       | Some err => if decide (sampleError t = "") then Error err else sampleError t
       | None => sampleError t
       end).

(** The float64 nearest to a percentage: 0.50, 0.95, 0.99 and 1. *)
Definition percent (p : Z) : spec_float := fdiv (binary64 p) (binary64 100).

(** [int(float64(len(values)-1) * percentile)] *)
Definition percentile_index (n : nat) (percentile : spec_float) : Z :=
  truncate (fmul (binary64 (Z.of_nat n - 1)) percentile).
(** [None] is an index out of range. *)
Definition percentileMS (values : list Duration) (percentile : spec_float) : option spec_float :=
  match values with
  | [] => Some (binary64 0)
  | _ =>
      let index := percentile_index (length values) percentile in
      if index <? 0 then None else
      value ← values !! Z.to_nat index;
      Some (fdiv (binary64 (Microseconds value)) (binary64 1000))
  end.

(** [benchmark] from the loop on: [results] in the order they were received. *)
Definition report (c : options) (results : list measurement) (elapsed : Duration) : option summary :=
  let t := foldl tally_step tally0 results in
  let latencies := merge_sort Z.le (latencies t) in
  p50 ← percentileMS latencies (percent 50);
  p95 ← percentileMS latencies (percent 95);
  p99 ← percentileMS latencies (percent 99);
  max ← percentileMS latencies (percent 100);
  Some (mkSummary 0 (operation c) (requests c) (concurrency c) (warmup c)
    (successful t) (requests c - successful t) (Milliseconds elapsed)
    (fdiv (binary64 (requests c)) (Seconds elapsed)) p50 p95 p99 max
    (failureReasons t) (sampleError t)).

(** [main] from the validation on.  [bench] is [benchmark]: its argument is the
    configuration and the number of the call, 0 for the warm-up.  The result is
    what is printed, if anything, and the exit code. *)
Definition set_Run (run : Z) (s : summary) : summary :=
  mkSummary run (Operation s) (Requests s) (Concurrency s) (WarmupRequests s) (Successful s) (Failed s)
    (DurationMS s) (RequestsPerSec s) (P50MS s) (P95MS s) (P99MS s) (MaxMS s) (FailureReasons s)
    (SampleError s).
Definition warmup_failed (c : options) (bench : options → nat → summary) : bool :=
  (0 <? warmup c) && negb (Failed (bench (set_requests (warmup c) c) 0%nat) =? 0).
Definition reports (c : options) (bench : options → nat → summary) : list summary :=
  (λ run, let report := bench c run in
    if 1 <? runs c then set_Run (Z.of_nat run) report else report) <$> seq 1 (Z.to_nat (runs c)).
Definition main (c : options) (bench : options → nat → summary) (encodeErr : option error) :
    option (list summary) * Z :=
  match validate c with
  | Some _ => (None, 2)
  | None =>
      if warmup_failed c bench then (None, 1) else
      let reports := reports c bench in
      let failed := existsb (λ r, negb (Failed r =? 0)) reports in
      match encodeErr with
      | Some _ => (None, 1)
      | None => (Some reports, if failed then 1 else 0)
      end
  end.

(** ** The goroutines of [benchmark] *)

(** A worker: at [range jobs], in [execute], at [results <-], after the loop. *)
Inductive worker := Receiving | Executing | Sending (m : measurement) | Returned.
(** The feeder: [n] jobs to send, [workers.Wait()], [close(results)], done. *)
Inductive feeder := Feeding (n : nat) | Waiting | Closing | Ended.

(** [jobs] has no buffer, so it has no contents; [results] is the buffer of the
    channel, [received] what the loop of [benchmark] has taken from it, and
    [finished] holds when that loop has ended. *)
Record pool := mkPool {
  p_feeder : feeder;
  jobs_closed : bool;
  p_workers : list worker;
  p_results : list measurement;
  results_closed : bool;
  received : list measurement;
  finished : bool }.

(** [benchmark] when its goroutines are started, for sizes that [make] can allocate. *)
Definition start (c : options) : pool :=
  mkPool (Feeding (Z.to_nat (requests c))) false (replicate (Z.to_nat (concurrency c)) Receiving)
    [] false [] false.

Section steps.
Context (capacity : nat) (executed : measurement → Prop).

Inductive bench_step : pool → pool → Prop :=
(** [jobs <- struct{}{}] meets a worker's receive *)
| step_job n i ws buf rc got fin :
    ws !! i = Some Receiving →
    bench_step (mkPool (Feeding (S n)) false ws buf rc got fin)
               (mkPool (Feeding n) false (<[i := Executing]> ws) buf rc got fin)
| step_close_jobs ws buf rc got fin :
    bench_step (mkPool (Feeding 0) false ws buf rc got fin) (mkPool Waiting true ws buf rc got fin)
| step_execute i m f jc ws buf rc got fin :
    ws !! i = Some Executing → executed m →
    bench_step (mkPool f jc ws buf rc got fin) (mkPool f jc (<[i := Sending m]> ws) buf rc got fin)
(** [results <- ...] into a free place of the buffer *)
| step_send i m f jc ws buf got fin :
    ws !! i = Some (Sending m) → (length buf < capacity)%nat →
    bench_step (mkPool f jc ws buf false got fin)
               (mkPool f jc (<[i := Receiving]> ws) (buf ++ [m]) false got fin)
(** [range jobs] ends on the closed channel; [workers.Done()] *)
| step_return i f ws buf rc got fin :
    ws !! i = Some Receiving →
    bench_step (mkPool f true ws buf rc got fin) (mkPool f true (<[i := Returned]> ws) buf rc got fin)
(** [workers.Wait()] returns when every worker is done *)
| step_wait jc ws buf rc got fin :
    Forall (λ v, v = Returned) ws →
    bench_step (mkPool Waiting jc ws buf rc got fin) (mkPool Closing jc ws buf rc got fin)
| step_close_results jc ws buf got fin :
    bench_step (mkPool Closing jc ws buf false got fin) (mkPool Ended jc ws buf true got fin)
| step_receive m f jc ws buf rc got :
    bench_step (mkPool f jc ws (m :: buf) rc got false) (mkPool f jc ws buf rc (got ++ [m]) false)
(** [range results] ends on the closed, empty channel *)
| step_finish f jc ws got :
    bench_step (mkPool f jc ws [] true got false) (mkPool f jc ws [] true got true).
End steps.
