(* ===== verification/Benchmark.v ===== *)
(** * The goroutines of the load-test tool

    The feeder, the workers and the loop of [benchmark] as [Loadtest.bench_step]
    interleaves them: the accounting invariant, progress and termination. *)
From S2P Require Import Prelude GoBase Loadtest.
Local Open Scope Z_scope.
#[local] Arguments total : simpl never.

Section pool.
Context (capacity : nat) (executed : measurement → Prop).
Local Abbreviation step := (bench_step capacity executed).

(** The requests a worker has taken and not delivered, and the jobs not yet
    taken. *)
Definition pending (v : worker) : Z := match v with Executing | Sending _ => 1 | _ => 0 end.
Definition unsent (f : feeder) : Z := match f with Feeding n => Z.of_nat n | _ => 0 end.

(** ** Termination *)

(** Steps still possible: of a worker, of the feeder, of all. *)
Definition worker_steps (v : worker) : Z :=
  match v with Receiving => 1 | Executing => 4 | Sending _ => 3 | Returned => 0 end.
Definition feeder_steps (f : feeder) : Z :=
  match f with Feeding n => 5 * Z.of_nat n + 3 | Waiting => 2 | Closing => 1 | Ended => 0 end.
Definition steps_left (p : pool) : Z :=
  feeder_steps (p_feeder p) + total worker_steps (p_workers p) +
  Z.of_nat (length (p_results p)) + (if finished p then 0 else 1).

Lemma steps_left_nonneg p : 0 ≤ steps_left p.
Proof.
  assert (0 ≤ total worker_steps (p_workers p)) by (apply total_nonneg; intros [] _; cbn; lia).
  assert (0 ≤ feeder_steps (p_feeder p)) by (destruct (p_feeder p); cbn; lia).
  unfold steps_left. destruct (finished p); lia.
Qed.

Ltac worker_sums :=
  repeat match goal with
  | H : ?ws !! ?i = Some ?x |- context [total ?f (<[?i := ?y]> ?ws)] =>
      rewrite (total_insert f ws i x y H)
  end.

Lemma step_decreases p p' : step p p' → steps_left p' < steps_left p.
Proof.
  destruct 1; unfold steps_left; cbn [p_feeder p_workers p_results finished];
    worker_sums; cbn [worker_steps feeder_steps]; rewrite ?length_app; cbn [length]; lia.
Qed.

Lemma step_acc p : Acc (λ p' p, step p p') p.
Proof.
  remember (Z.to_nat (steps_left p)) as n eqn:Hn. revert p Hn.
  induction (lt_wf n) as [n _ IH]. intros p Hn. constructor. intros p' Hstep.
  pose proof (step_decreases _ _ Hstep). pose proof (steps_left_nonneg p').
  eapply IH; [|done]. lia.
Qed.

(** ** The invariant *)

Definition feeding (f : feeder) : bool := if f is Feeding _ then true else false.
Definition ended (f : feeder) : bool := if f is Ended then true else false.
Definition waited (f : feeder) : bool := match f with Closing | Ended => true | _ => false end.

(** [n] requests over [k] workers: every request is unsent, in a worker, in the
    buffer or received. *)
Record bench_inv (n k : Z) (p : pool) : Prop := {
  binv_count : unsent (p_feeder p) + total pending (p_workers p) + Z.of_nat (length (p_results p)) +
    Z.of_nat (length (received p)) = n;
  binv_workers : Z.of_nat (length (p_workers p)) = k;
  binv_jobs : jobs_closed p = negb (feeding (p_feeder p));
  binv_running i : feeding (p_feeder p) = true → p_workers p !! i ≠ Some Returned;
  binv_returned : waited (p_feeder p) = true → Forall (λ v, v = Returned) (p_workers p);
  binv_closed : results_closed p = ended (p_feeder p);
  binv_finished : finished p = true → results_closed p = true ∧ p_results p = [];
  binv_sending i m : p_workers p !! i = Some (Sending m) → executed m;
  binv_executed : Forall executed (p_results p ++ received p) }.

Lemma start_inv c : 0 ≤ requests c → 0 ≤ concurrency c → bench_inv (requests c) (concurrency c) (start c).
Proof.
  intros Hr Hc. split; cbn; try done.
  - rewrite total_zero; [lia|]. by intros v [-> _]%elem_of_replicate.
  - rewrite length_replicate. lia.
  - intros i _ [? _]%lookup_replicate. done.
  - by intros i m [? _]%lookup_replicate.
Qed.

(** A worker changes and the rest stays. *)
Lemma not_all_returned ws i v : ws !! i = Some v → v ≠ Returned → ¬ Forall (λ v, v = Returned) ws.
Proof. intros Hi Hv Hall. by apply Hv, (Forall_lookup_1 _ _ _ _ Hall Hi). Qed.

Lemma step_inv n k p p' : step p p' → bench_inv n k p → bench_inv n k p'.
Proof.
  destruct 1; intros [Hn Hk Hj Hrun Hret Hc Hf Hs He]; cbn in *; split; cbn; worker_sums;
    rewrite ?length_insert, ?length_app; cbn; try done; try lia.
  1, 3, 6: intros j Hfeed [(<- & ? & _)|[_ ?]]%list_lookup_insert_Some; [congruence|by apply (Hrun j)].
  1, 3, 6, 10: intros j m' [(<- & ? & _)|[_ ?]]%list_lookup_insert_Some; [by simplify_eq|by eapply Hs].
  1, 2, 6: intros Hw; by destruct (not_all_returned _ _ _ H ltac:(done) (Hret Hw)).
  - intros Hfin. by destruct (Hf Hfin).
  - rewrite <- !app_assoc. apply Forall_app in He as [Hb Hg].
    apply Forall_app. split; [done|]. constructor; [by eapply Hs|done].
  - intros j Hfeed. by rewrite Hfeed in Hj.
  - intros Hfin. by destruct (Hf Hfin).
  - apply Forall_cons in He as [Hm He]. apply Forall_app in He as [Hb Hg].
    apply Forall_app. split; [done|]. apply Forall_app. split; [done|by constructor].
Qed.

Lemma steps_inv n k p p' : rtc step p p' → bench_inv n k p → bench_inv n k p'.
Proof. induction 1; eauto using step_inv. Qed.

(** ** Progress *)

(** A worker that is not at [range jobs] and not done can go on, or the loop can
    make room for it. *)
Lemma workers_idle ws :
  (∃ i, ws !! i = Some Executing) ∨ (∃ i m, ws !! i = Some (Sending m)) ∨
  (∃ i, ws !! i = Some Receiving) ∨ Forall (λ v, v = Returned) ws.
Proof.
  induction ws as [|v ws IH]; [right; right; by right|].
  destruct v as [| |m|].
  { right; right; left. by exists 0%nat. }
  { left. by exists 0%nat. }
  { right; left. by exists 0%nat, m. }
  destruct IH as [[i Hi]|[(i & m & Hi)|[[i Hi]|Hall]]].
  - left. by exists (S i).
  - right; left. by exists (S i), m.
  - right; right; left. by exists (S i).
  - right; right; right. by constructor.
Qed.

(** No deadlock: until the loop has ended, some goroutine can go on. *)
Lemma step_progress n k p :
  (0 < capacity)%nat → (∃ m, executed m) → 0 < k → bench_inv n k p → finished p = false →
  ∃ p', step p p'.
Proof.
  intros Hcap [m0 Hm0] Hk [_ Hlen Hj Hrun Hret Hc _ _ _]. destruct p as [f jc ws buf rc got fin]. cbn in *.
  intros ->. destruct buf as [|m buf]; [|eexists; apply step_receive].
  destruct (workers_idle ws) as [[i Hi]|[(i & m & Hi)|[[i Hi]|Hall]]].
  - eexists. by eapply step_execute.
  - destruct f; cbn in Hc; subst rc; try (eexists; by apply (step_send _ _ i m)).
    by destruct (not_all_returned _ _ _ Hi ltac:(done) (Hret eq_refl)).
  - destruct f as [[|n']| | |]; cbn in *; subst jc rc.
    all: try (eexists; first [apply step_close_jobs|by eapply step_job|by eapply step_return]).
  - destruct f as [n'| | |]; cbn in *; subst jc rc.
    + destruct ws as [|v ws]; [cbn in Hlen; lia|]. apply Forall_cons in Hall as [-> _].
      by destruct (Hrun 0%nat eq_refl).
    + eexists. by apply step_wait.
    + eexists. apply step_close_results.
    + eexists. apply step_finish.
Qed.

(** When the loop has ended every request has been received, exactly once. *)
Lemma finished_received n k p : bench_inv n k p → finished p = true →
  p_feeder p = Ended ∧ Forall (λ v, v = Returned) (p_workers p) ∧ p_results p = [] ∧
  Z.of_nat (length (received p)) = n ∧ Forall executed (received p).
Proof.
  intros [Hn _ _ _ Hret Hc Hf _ He] Hfin. destruct (Hf Hfin) as [Hclosed Hbuf].
  rewrite Hclosed in Hc. destruct (p_feeder p) eqn:Ef; try done. specialize (Hret eq_refl).
  rewrite Hbuf in He, Hn. cbn in He, Hn. split_and!; try done.
  rewrite total_zero in Hn; [lia|]. intros v Hv. rewrite Forall_forall in Hret. by rewrite (Hret v Hv).
Qed.

(** No goroutine can panic: nothing is sent on the closed channel of results,
    and it is closed once. *)
Lemma no_closed_channel n k p : bench_inv n k p →
  (results_closed p = true → ∀ i m, p_workers p !! i ≠ Some (Sending m)) ∧
  (p_feeder p = Closing → results_closed p = false) ∧
  (p_feeder p = Feeding 0 → jobs_closed p = false).
Proof.
  intros [_ _ Hj _ Hret Hc _ _ _]. split_and!.
  - intros Hclosed i m Hi. rewrite Hclosed in Hc.
    apply (not_all_returned _ _ _ Hi); [done|]. apply Hret. by destruct (p_feeder p).
  - intros Hf. by rewrite Hc, Hf.
  - intros Hf. by rewrite Hj, Hf.
Qed.
End pool.
