(* ===== verification/Wire.v ===== *)
(** * The JSON forms of requests and responses

    The JSON field names of [internal/domain/model.go] - the struct tags - for
    the requests a client sends, and the status a client reads in a response.
    [JSONLaws] states what [encoding/json] documents about them. *)
From S2P Require Import Prelude GoBase GoText Domain Http Server Loadtest.
Import GoInt GoError GoStrings.
Local Open Scope Z_scope.

(** The members of the object a request is marshalled to, by its struct tags. *)
Definition CreateAccountRequest_json (r : CreateAccountRequest) : list (string * json_value) :=
  [("account_id", JString (CreateAccountRequest_AccountID r));
   ("kind", JString (CreateAccountRequest_Kind r))] ++
  (if decide (CreateAccountRequest_CorporateAccountID r = "") then []
   else [("corporate_account_id", JString (CreateAccountRequest_CorporateAccountID r))]).
Definition TopUpRequest_json (r : TopUpRequest) : list (string * json_value) :=
  [("request_id", JString (TopUpRequest_RequestID r));
   ("account_id", JString (TopUpRequest_AccountID r));
   ("amount_cents", JUint64 (TopUpRequest_AmountCents r))].
Definition WithdrawalRequest_json (r : WithdrawalRequest) : list (string * json_value) :=
  [("request_id", JString (WithdrawalRequest_RequestID r));
   ("account_id", JString (WithdrawalRequest_AccountID r));
   ("amount_cents", JUint64 (WithdrawalRequest_AmountCents r))].
Definition CardAllocationRequest_json (r : CardAllocationRequest) : list (string * json_value) :=
  [("request_id", JString (CardAllocationRequest_RequestID r));
   ("account_id", JString (CardAllocationRequest_AccountID r));
   ("card_id", JString (CardAllocationRequest_CardID r));
   ("amount_cents", JUint64 (CardAllocationRequest_AmountCents r))].
Definition CardReturnRequest_json (r : CardReturnRequest) : list (string * json_value) :=
  [("request_id", JString (CardReturnRequest_RequestID r));
   ("account_id", JString (CardReturnRequest_AccountID r));
   ("card_id", JString (CardReturnRequest_CardID r));
   ("amount_cents", JUint64 (CardReturnRequest_AmountCents r))].
Definition AuthorizationRequest_json (r : AuthorizationRequest) : list (string * json_value) :=
  [("request_id", JString (AuthorizationRequest_RequestID r));
   ("card_id", JString (AuthorizationRequest_CardID r));
   ("merchant_id", JString (AuthorizationRequest_MerchantID r));
   ("amount_cents", JUint64 (AuthorizationRequest_AmountCents r))].
Definition IncrementAuthorizationRequest_json (r : IncrementAuthorizationRequest) :
    list (string * json_value) :=
  [("request_id", JString (IncrementAuthorizationRequest_RequestID r));
   ("authorization_id", JString (IncrementAuthorizationRequest_AuthorizationID r));
   ("increment_cents", JUint64 (IncrementAuthorizationRequest_IncrementCents r))].

Definition json_fields {A} (i : input A) : A → list (string * json_value) :=
  match i with
  | InputCreateAccount => CreateAccountRequest_json
  | InputTopUp => TopUpRequest_json
  | InputWithdrawal => WithdrawalRequest_json
  | InputCardAllocation => CardAllocationRequest_json
  | InputCardReturn => CardReturnRequest_json
  | InputAuthorization => AuthorizationRequest_json
  | InputIncrement => IncrementAuthorizationRequest_json
  end.

(** The member [status] of a response body, empty where there is none. *)
Definition body_status (b : body) : string :=
  match b with
  | BodyAccount r => AccountResponse_Status r
  | BodyBalance _ => ""
  | BodyTransaction r => TransactionResponse_Status r
  | BodyAuthorization r => AuthorizationResponse_Status r
  | BodyIncrement r => IncrementAuthorizationResponse_Status r
  | BodyError r => ErrorResponse_Status r
  | BodyLive status => status
  | BodyReady r => ready_status r
  | BodyText _ => ""
  end.

Definition ascii (s : string) : Prop := Forall (λ b, b < 128)%N (to_bytes s).
#[export] Instance ascii_dec s : Decision (ascii s).
Proof. apply _. Defined.

(** Values JSON keeps as they are: the package replaces invalid UTF-8. *)
Definition kept (member : string * json_value) : Prop :=
  match snd member with JString s => ascii s | JUint64 z => in_uint64 z end.

(** A body the decoder accepts is decoded to the value that was marshalled, also
    when it was read through a limit; and the status a client unmarshals is that
    of the body the server marshalled. *)
Class JSONLaws {Body : Type} (codecs : Codecs Body) (lib : ClientLib Body) (Render : list body → Body) := {
  decode_sent {A} (i : input A) (a a' : A) n b rest :
    Forall kept (json_fields i a) → json_Marshal (json_fields i a) = inr b →
    Decode i (MaxBytesReader n b) = (inr a', rest) → a' = a;
  status_sent b status :
    (∀ text, b ≠ BodyText text) → Unmarshal_status (Render [b]) = inr status → ascii status →
    status = body_status b;
}.

(** ** A codec for witnesses *)

Inductive wire := WireObject (members : list (string * json_value)) | WireBodies (bs : list body).

Definition wire_decode {A} (i : input A) (b : wire) : result error A :=
  let malformed := inl (External "malformed") in
  match i in input A return result error A → result error A with
  | InputTopUp => λ malformed,
      match b with
      | WireObject [(_, JString rid); (_, JString account); (_, JUint64 amount)] =>
          inr (mkTopUpRequest rid account amount)
      | _ => malformed
      end
  | InputWithdrawal => λ malformed,
      match b with
      | WireObject [(_, JString rid); (_, JString account); (_, JUint64 amount)] =>
          inr (mkWithdrawalRequest rid account amount)
      | _ => malformed
      end
  | _ => λ malformed, malformed
  end malformed.

#[export] Instance wire_codecs : Codecs wire := {|
  MaxBytesReader _ b := b;
  Decode A i b := (wire_decode i b, b);
  DecodeEOF _ := true;
  ParseMediaType t := inr t;
  promhttp c := c |}.
#[export] Instance wire_lib : ClientLib wire := {|
  json_Marshal members := inr (WireObject members);
  NewRequest_error _ := None;
  Unmarshal_status b := match b with WireBodies [b] => inr (body_status b) | _ => inl (External "malformed") end |}.
#[export] Instance wire_laws : JSONLaws wire_codecs wire_lib WireBodies.
Proof.
  split.
  - intros A i a a' n b rest _ [= <-] [= H _]. destruct i; cbn in H; try done;
      destruct a; cbn in H; by injection H.
  - intros b status _ [= <-] _. done.
Qed.
