(* ===== verification/LoadtestSpec.v ===== *)
(** * Theorems about the load-test tool

    The goroutines of a benchmark never deadlock and count every request once,
    the report adds up and its percentiles are in range; and what a success means
    when the tool runs against this service. *)
From S2P Require Import Prelude GoBase GoText GoFloat GoCrypto Domain TigerBeetle TigerBeetleModel.
From S2P Require Import LedgerModel Cache Health Interface Semantics Contract FakeLedger Service.
From S2P Require Import ServiceSpec Operations OperationsSpec Invariant Safety Replay Scenarios System.
From S2P Require Import Http HttpProgram Admission HttpSemantics Server HttpSystem HttpOutcomes Loadtest Benchmark Wire.
From stdpp Require Import pretty sorting.
From Stdlib Require Import SpecFloat.
Import GoInt GoError GoTime.
Local Open Scope Z_scope.

(** ** Percentiles *)

Lemma percentile_index_range n p : (0 < n)%nat → Z.of_nat n < 2 ^ 53 → p ∈ [50; 95; 99; 100] →
  0 ≤ percentile_index n (percent p) < Z.of_nat n.
Proof.
  intros Hn Hlt Hp. unfold percentile_index.
  destruct (decide (n = 1%nat)) as [->|Hne].
  { apply list_elem_of_In in Hp. repeat (destruct Hp as [<-|Hp]; [split; by vm_compute|]). done. }
  pose proof (binary64_holds (Z.of_nat n - 1) ltac:(lia)) as Hholds.
  assert (∀ mp, 2 ^ 52 ≤ Z.pos mp < 2 ^ 53 →
    0 ≤ truncate (fmul (binary64 (Z.of_nat n - 1)) (S754_finite false mp (- 53))) < Z.of_nat n) as Hfrac.
  { intros mp Hmp. pose proof (fmul_fraction _ (Z.of_nat n - 1) mp ltac:(lia) Hholds Hmp) as [Hlo Hhi].
    split; [|lia]. etransitivity; [|exact Hlo]. apply Z.div_pos; lia. }
  apply list_elem_of_In in Hp. destruct Hp as [<-|[<-|[<-|[<-|[]]]]].
  - exact (Hfrac (2 ^ 52)%positive ltac:(done)).
  - exact (Hfrac 8556839292003942%positive ltac:(done)).
  - exact (Hfrac 8917127262193582%positive ltac:(done)).
  - change (percent 100) with (S754_finite false (2 ^ 52) (- 52)).
    rewrite (fmul_one _ (Z.of_nat n - 1)) by (done || lia). lia.
Qed.

Lemma percentile_index_max n : (0 < n)%nat → Z.of_nat n < 2 ^ 53 →
  percentile_index n (percent 100) = Z.of_nat n - 1.
Proof.
  intros Hn Hlt. unfold percentile_index. destruct (decide (n = 1%nat)) as [->|Hne]; [done|].
  change (percent 100) with (S754_finite false (2 ^ 52) (- 52)).
  apply fmul_one; [lia|apply binary64_holds; lia].
Qed.

(** A latency as the report prints it. *)
Definition milliseconds (d : Duration) : spec_float := fdiv (binary64 (Microseconds d)) (binary64 1000).

(** A percentile is the figure of one of the latencies. *)
Lemma percentileMS_total values p : Z.of_nat (length values) < 2 ^ 53 → p ∈ [50; 95; 99; 100] →
  ∃ x, percentileMS values (percent p) = Some x ∧
    (values ≠ [] → ∃ d, d ∈ values ∧ x = milliseconds d).
Proof.
  intros Hlt Hp. destruct values as [|v values]; [by eexists|].
  pose proof (percentile_index_range (length (v :: values)) p ltac:(cbn; lia) Hlt Hp) as Hidx.
  unfold percentileMS.
  destruct (lookup_lt_is_Some_2 (v :: values) (Z.to_nat (percentile_index (length (v :: values)) (percent p))))
    as [d Hd]; [lia|].
  cbv zeta. rewrite (proj2 (Z.ltb_ge _ 0)), Hd by lia. cbn. eexists. split; [done|]. intros _. exists d. split; [by eapply list_elem_of_lookup_2|done].
Qed.

Lemma percentileMS_max (values : list Duration) : values ≠ [] → Z.of_nat (length values) < 2 ^ 53 →
  ∃ d i, values !! i = Some d ∧ S i = length values ∧
    percentileMS values (percent 100) = Some (milliseconds d).
Proof.
  intros Hne Hlt. destruct values as [|v values]; [done|].
  pose proof (percentile_index_max (length (v :: values)) ltac:(cbn; lia) Hlt) as Hidx.
  destruct (lookup_lt_is_Some_2 (v :: values) (length values)) as [d Hd]; [cbn; lia|].
  exists d, (length values). split_and!; [done|done|]. unfold percentileMS. cbv zeta.
  rewrite Hidx, (proj2 (Z.ltb_ge _ 0)) by (cbn; lia).
  replace (Z.to_nat (Z.of_nat (length (v :: values)) - 1)) with (length values) by (cbn; lia).
  by rewrite Hd.
Qed.

(** ** The tally *)

(** The failures with one reason. *)
Definition failed_with (reason : string) (rs : list measurement) : list measurement :=
  filter (λ m, success m = false ∧ failureReason m = reason) rs.

Record tally_of (rs : list measurement) (t : tally) : Prop := {
  tally_latencies : latencies t = m_duration <$> rs;
  tally_successful : successful t = Z.of_nat (length (filter success rs));
  tally_sum : map_sum (failureReasons t) = Z.of_nat (length rs) - successful t;
  tally_reasons reason :
    default 0 (failureReasons t !! reason) = Z.of_nat (length (failed_with reason rs)) }.

(** How many measurements satisfy [P], after one more. *)
Lemma count_one_more (P : measurement → Prop) `{Hdec : ∀ m, Decision (P m)} rs m :
  Z.of_nat (length (filter P (rs ++ [m]))) = Z.of_nat (length (filter P rs)) + (if decide (P m) then 1 else 0).
Proof.
  rewrite filter_app, filter_cons, length_app. destruct (decide (P m)); cbn; lia.
Qed.

Lemma tally_correct rs : tally_of rs (foldl tally_step tally0 rs).
Proof.
  induction rs as [|m rs [Hl Hs Hsum Hr]] using rev_ind; [by split|].
  rewrite foldl_snoc. set (t := foldl tally_step tally0 rs) in *. unfold tally_step.
  destruct (success m) eqn:E; split; cbn [latencies successful failureReasons].
  - by rewrite Hl, fmap_app.
  - rewrite count_one_more, decide_True by (by rewrite E). lia.
  - rewrite length_app. cbn. lia.
  - intros reason. unfold failed_with. rewrite count_one_more, decide_False, Z.add_0_r by (by intros [? _]; congruence).
    apply Hr.
  - by rewrite Hl, fmap_app.
  - rewrite count_one_more, decide_False, Z.add_0_r by (rewrite E; by intros []). done.
  - rewrite map_sum_count, length_app. cbn. lia.
  - intros reason. unfold failed_with. rewrite count_one_more.
    destruct (decide (failureReason m = reason)) as [<-|Hne].
    + rewrite lookup_insert_eq, decide_True by done. cbn. by rewrite Hr.
    + rewrite lookup_insert_ne, decide_False, Z.add_0_r by naive_solver. apply Hr.
Qed.

(** What a report says of the measurements it was made from. *)
Record report_of (c : options) (rs : list measurement) (s : summary) : Prop := {
  report_successful : Successful s = Z.of_nat (length (filter success rs));
  report_total : Successful s + Failed s = requests c;
  report_reasons : map_sum (FailureReasons s) = Z.of_nat (length rs) - Successful s;
  report_reason reason :
    default 0 (FailureReasons s !! reason) = Z.of_nat (length (failed_with reason rs));
  report_percentiles :
    rs ≠ [] → Forall (λ x, ∃ m, m ∈ rs ∧ x = milliseconds (m_duration m)) [P50MS s; P95MS s; P99MS s];
  report_max :
    rs ≠ [] → ∃ m, m ∈ rs ∧ MaxMS s = milliseconds (m_duration m) ∧
      Forall (λ m', m_duration m' ≤ m_duration m) rs }.

(** The last of the sorted latencies is the largest. *)
Lemma merge_sort_last (l : list Z) d i :
  merge_sort Z.le l !! i = Some d → S i = length l → Forall (λ x, x ≤ d) l.
Proof.
  intros Hi Hlen. pose proof (merge_sort_Permutation Z.le l) as Hperm.
  pose proof (Sorted_merge_sort Z.le l) as Hsorted%Sorted_StronglySorted; [|intros ???; lia].
  rewrite <- Hperm in Hlen |- *. revert Hi Hlen Hsorted. generalize (merge_sort Z.le l). clear.
  intros l Hi Hlen. rewrite <- (take_drop_middle _ _ _ Hi), (drop_ge l (S i)) by lia.
  intros Hsorted. apply Forall_app. split; [|by repeat constructor].
  apply Forall_forall. intros x Hx.
  eapply (StronglySorted_app_1_elem_of Z.le); [exact Hsorted|exact Hx|by left].
Qed.

Lemma report_exact c rs elapsed : Z.of_nat (length rs) < 2 ^ 53 →
  ∃ s, report c rs elapsed = Some s ∧ report_of c rs s.
Proof.
  intros Hlt. destruct (tally_correct rs) as [Hl Hs Hsum Hr].
  unfold report. set (t := foldl tally_step tally0 rs) in *.
  set (sorted := merge_sort Z.le (latencies t)).
  assert (sorted ≡ₚ m_duration <$> rs) as Hperm by (unfold sorted; rewrite merge_sort_Permutation; by rewrite Hl).
  assert (length sorted = length rs) as Hlen by (by rewrite Hperm, length_fmap).
  assert (Z.of_nat (length sorted) < 2 ^ 53) as Hlt' by (by rewrite Hlen).
  assert (∀ x, (sorted ≠ [] → ∃ d, d ∈ sorted ∧ x = milliseconds d) →
    rs ≠ [] → ∃ m, m ∈ rs ∧ x = milliseconds (m_duration m)) as Hmeasured.
  { intros x Hx Hrs. destruct Hx as (d & Hd & ->).
    - intros Hnil. apply Hrs. apply length_zero_iff_nil. by rewrite <- Hlen, Hnil.
    - rewrite Hperm in Hd. apply list_elem_of_fmap in Hd as (m & -> & Hm). by exists m. }
  destruct (percentileMS_total sorted 50 Hlt' ltac:(set_solver)) as (p50 & -> & H50).
  destruct (percentileMS_total sorted 95 Hlt' ltac:(set_solver)) as (p95 & -> & H95).
  destruct (percentileMS_total sorted 99 Hlt' ltac:(set_solver)) as (p99 & -> & H99).
  destruct (percentileMS_total sorted 100 Hlt' ltac:(set_solver)) as (max & Hmax & _).
  rewrite Hmax. cbn. eexists. split; [done|]. split; cbn; [done|lia|done|done| |].
  - intros Hrs. repeat constructor; by apply Hmeasured.
  - intros Hrs. destruct (percentileMS_max sorted) as (d & i & Hd & Hi & Hp); [|exact Hlt'|].
    { intros Hnil. apply Hrs. apply length_zero_iff_nil. by rewrite <- Hlen, Hnil. }
    rewrite Hp in Hmax. injection Hmax as <-.
    pose proof (list_elem_of_lookup_2 _ _ _ Hd) as Hin. rewrite Hperm in Hin.
    apply list_elem_of_fmap in Hin as (m & -> & Hm). exists m. split_and!; [done|done|].
    assert (Forall (λ x, x ≤ m_duration m) (latencies t)) as Hall.
    { eapply merge_sort_last; [exact Hd|]. rewrite <- (merge_sort_Permutation Z.le (latencies t)). exact Hi. }
    rewrite Hl in Hall. rewrite Forall_forall in Hall. apply Forall_forall. intros m' Hm'.
    by apply Hall, list_elem_of_fmap_2.
Qed.

(** ** A benchmark *)

(** What [execute] can return, whatever the network does. *)
Definition executions {Body : Type} {lib : ClientLib Body} (c : options) (m : measurement) : Prop :=
  ∃ requestID Do elapsed, m = execute c requestID Do elapsed.

Lemma validate_positive c : validate c = None →
  option_amountCents c ≠ 0 ∧ 0 < requests c ∧ 0 < concurrency c ∧ 0 < runs c ∧ 0 ≤ warmup c.
Proof. unfold validate. intros Hv. repeat case_match; try done. bool_simpl. lia. Qed.

Lemma filter_all {A} (P : A → Prop) `{∀ x, Decision (P x)} l :
  length (filter P l) = length l ↔ Forall P l.
Proof.
  induction l as [|x l IH]; [done|]. pose proof (length_filter P l).
  rewrite filter_cons, Forall_cons. destruct (decide (P x)); cbn; [|naive_solver lia].
  rewrite Nat.succ_inj_wd, IH. naive_solver.
Qed.

(** C26: A benchmark counts every request.  For accepted options, any network and
    any scheduling of the goroutines: no execution is infinite, there is no
    deadlock before the loop over the results ends, nothing is sent on the
    closed channel of results; and when the loop has ended every request has
    been executed and received exactly once, the report can be made - no index
    out of range -, its successes and its failures are those of the responses,
    the failures by reason add up to the failures, they are zero exactly when
    every response was a success, and the percentiles are latencies, the maximum
    the largest. *)
Theorem benchmark_counts_every_request {Body : Type} {lib : ClientLib Body} c :
  validate c = None → requests c < 2 ^ 53 →
  let step := bench_step (Z.to_nat (concurrency c)) (executions c) in
  Acc (λ p' p, step p p') (start c) ∧
  ∀ p, rtc step (start c) p →
    (finished p = false → ∃ p', step p p') ∧
    (results_closed p = true → ∀ i m, p_workers p !! i ≠ Some (Sending m)) ∧
    (finished p = true → ∀ elapsed,
      Z.of_nat (length (received p)) = requests c ∧ Forall (executions c) (received p) ∧
      ∃ s, report c (received p) elapsed = Some s ∧ report_of c (received p) s ∧
        map_sum (FailureReasons s) = Failed s ∧ (Failed s = 0 ↔ Forall success (received p))).
Proof.
  intros Hv Hlt step. destruct (validate_positive c Hv) as (_ & Hr & Hc & _).
  split; [apply step_acc|]. intros p Hsteps.
  assert (bench_inv (executions c) (requests c) (concurrency c) p) as Hinv
    by (eapply steps_inv; [exact Hsteps|apply start_inv; lia]).
  split_and!.
  - apply (step_progress _ _ (requests c) (concurrency c)); [lia| |done|done].
    by eexists _, "", (λ _, DoFailed unexpected), 0.
  - by apply (no_closed_channel _ _ _ _ Hinv).
  - intros Hfin elapsed.
    destruct (finished_received _ _ _ _ Hinv Hfin) as (_ & _ & _ & Hlen & Hall).
    split_and!; [done|done|].
    destruct (report_exact c (received p) elapsed) as (s & Hs & Hrep); [lia|].
    exists s. pose proof Hrep as [Hsucc Htotal Hreasons _ _ _].
    split_and!; [done|done|lia|]. rewrite <- (filter_all (λ m, success m)). lia.
Qed.

(** ** The tool against this service *)

Section against_service.
Context {sdk : SDK} {L : Type} {ledger : Ledger L} {view : LedgerView L} {contract : LedgerContract L}.
Context {Body : Type} {codecs : Codecs Body} {lib : ClientLib Body} {Render : list body → Body}.
Context {laws : JSONLaws codecs lib Render}.
Context (c : options) (requestID : string).

(** The tool's request at the server, when the base URL has no path. *)
Definition arrives (request : client_request Body) (ctx : option error) : Request Body :=
  mkRequest (cr_method request) (tl (Split (fst (payload c requestID)) 47)) (cr_contentType request)
    (cr_body request) ctx.

(** What the network makes of the server's answer: a failure of the call, a
    failure while the body is read, or the answer. *)
Inductive delivered (conn : connection) : exchange Body → Prop :=
| delivered_nothing err : delivered conn (DoFailed err)
| delivered_part status headers err :
    conn_sent conn = Some (status, headers) → delivered conn (Responded status (inl err))
| delivered_answer status headers :
    conn_sent conn = Some (status, headers) →
    delivered conn (Responded status (inr (Render (conn_body conn)))).

(** The strings and the amount survive the JSON encoding. *)
Definition sendable : Prop := Forall kept (snd (payload c requestID)).

(** A success reads the status of a 2xx answer. *)
Lemma success_answer conn e elapsed status headers b :
  responded status headers b conn → delivered conn e → success (measure elapsed e) = true →
  200 ≤ status < 300 ∧
  ((∀ text, b ≠ BodyText text) → body_status b = "posted" ∨ body_status b = "approved").
Proof.
  intros [Hsent Hbody] Hdel Hok.
  destruct Hdel as [err|st hs err Hs|st hs Hs]; [done|done|].
  rewrite Hsent in Hs. injection Hs as <- <-. rewrite Hbody in Hok. cbn in Hok.
  destruct (Z.ltb_spec status 200); [done|]. destruct (Z.leb_spec 300 status); [done|]. cbn in Hok.
  split; [lia|]. intros Htext. destruct (Unmarshal_status (Render [b])) as [err|text] eqn:E; [done|].
  unfold success in Hok. cbn in Hok. bool_simpl.
  apply orb_true_iff in Hok.
  assert (text = "posted" ∨ text = "approved") as Htxt by (destruct Hok; bool_simpl; auto).
  assert (ascii text) as Hascii by (destruct Htxt as [-> | ->]; by apply (bool_decide_unpack _)).
  rewrite <- (status_sent b text Htext E Hascii). exact Htxt.
Qed.

Lemma error_not_success conn e elapsed err headers :
  responded (fst (error_body err)) headers (snd (error_body err)) conn → delivered conn e →
  success (measure elapsed e) = false.
Proof.
  intros Hr Hdel. destruct (success _) eqn:E; [exfalso|done].
  destruct (success_answer _ _ _ _ _ _ Hr Hdel E) as [Hrange _].
  pose proof (error_reply_status err) as Hin. unfold error_body in Hrange.
  destruct (error_reply err) as [[status code] message]. cbn in *.
  unfold error_statuses in Hin. set_unfold in Hin. lia.
Qed.

Lemma not_admitted_not_success conn e elapsed :
  not_admitted conn → delivered conn e → success (measure elapsed e) = false.
Proof.
  intros Hn Hdel. destruct (success _) eqn:E; [exfalso|done].
  destruct Hn as [Hr|Hr]; destruct (success_answer _ _ _ _ _ _ Hr Hdel E) as [Hrange _];
    unfold StatusServiceUnavailable in Hrange; lia.
Qed.

(** A decoded request is the one that was marshalled. *)
Lemma decoded_sent {A} (i : input A) (a : A) f (r : Request Body) q :
  Forall kept (json_fields i a) → json_Marshal (json_fields i a) = inr (Request_Body r) →
  decoded i f r = inr q → q = f a.
Proof.
  intros Hkept Hm. unfold decoded, decodeJSON. destruct (if decide _ then _ else _); [done|].
  destruct (Decode i _) as [[err|a'] rest] eqn:E; [done|]. destruct (negb _); [done|].
  intros [= <-]. by rewrite (decode_sent i a a' _ _ _ Hkept Hm E).
Qed.

(** The server's answer to a request whose exchange is a success. *)
Lemma success_truth {A} (i : input A) (a : A) (f : A → System.request) s env rs (w : HWorld L) ts w' j
    (r : Request Body) conn e elapsed :
  env_ok env → at_rest s w → http_reachable s env rs w ts w' → rs !! j = Some r →
  asks r (decoded i f r) → Forall kept (json_fields i a) → json_Marshal (json_fields i a) = inr (Request_Body r) →
  ts !! j = Some (HRet conn) → delivered conn e → success (measure elapsed e) = true →
  ∃ answer, response_truth s (f a) answer (w_ledger (h_world w')) ∧
    responded (fst (reply_of answer)) json_headers (snd (reply_of answer)) conn.
Proof.
  intros Henv Hw Hreach Hr Hasks Hkept Hm Hconn Hdel Hok.
  destruct (http_answered s env rs w ts w' j r _ conn Henv Hw Hreach Hr Hasks Hconn) as [Hn|Ha].
  { by rewrite (not_admitted_not_success _ _ elapsed Hn Hdel) in Hok. }
  destruct (decoded i f r) as [err|q] eqn:Eq; cbn in Ha.
  - destruct Ha as [message Hresp].
    destruct (success_answer _ _ _ _ _ _ Hresp Hdel Hok) as [Hrange _]. unfold StatusBadRequest in Hrange. lia.
  - by rewrite (decoded_sent i a f r q Hkept Hm Eq) in Ha.
Qed.

(** The answer to a posting, and that to an authorization. *)
Lemma posted_success spec r (l : L) conn e elapsed :
  posted_truth spec r l → responded (fst (coded BodyTransaction r)) json_headers (snd (coded BodyTransaction r)) conn →
  delivered conn e → success (measure elapsed e) = true → ∃ t ts, spec = inr t ∧ committed_as t ts l.
Proof.
  intros Ht Hresp Hdel Hok. destruct r as [err|[response status]].
  { by rewrite (error_not_success _ _ elapsed _ _ Hresp Hdel) in Hok. }
  destruct (success_answer _ _ _ _ _ _ Hresp Hdel Hok) as [_ Hst]. cbn in Hst.
  specialize (Hst ltac:(done)).
  destruct (Ht _ _ eq_refl) as [Hf|(_ & t & Hspec & Hc)]; [rewrite Hf in Hst; by destruct Hst|by eexists _, _].
Qed.

Lemma unapproved_status status : unapproved status → status = "posted" ∨ status = "approved" → False.
Proof. intros [-> | ->] [?|?]; done. Qed.

(** The transfer the options ask for. *)
Definition tool_increment : IncrementAuthorizationRequest :=
  mkIncrementAuthorizationRequest requestID (option_authorizationID c) (option_amountCents c).
Definition tool_transfer (s : Service) : result error Transfer :=
  if decide (operation c = "topup") then
    topup_transfer s (mkTopUpRequest requestID (option_accountID c) (option_amountCents c))
  else if decide (operation c = "withdraw") then
    withdrawal_transfer s (mkWithdrawalRequest requestID (option_accountID c) (option_amountCents c))
  else
    hold_transfer s (mkAuthorizationRequest requestID (option_cardID c) (option_merchantID c)
      (option_amountCents c)).
Definition recorded (s : Service) (l : L) : Prop :=
  if decide (operation c = "increment") then
    ∃ authorizationID incrementID original hold,
      increment_ids tool_increment = inr (authorizationID, incrementID) ∧
      transfer_of l authorizationID = Some original ∧ open_authorization s original ∧
      transfer_of l incrementID = Some hold ∧
      same_but_timeout (increment_transfer s original incrementID authorizationID (option_amountCents c) 0) hold
  else ∃ t ts, tool_transfer s = inr t ∧ committed_as t ts l.

Lemma validate_operation : validate c = None →
  operation c = "authorize" ∨ operation c = "increment" ∨ operation c = "topup" ∨ operation c = "withdraw".
Proof.
  unfold validate. destruct (_ && _ && _ && _) eqn:E; [done|]. intros _.
  repeat (apply andb_false_iff in E as [E|E]); bool_simpl; auto.
Qed.
End against_service.
Arguments recorded {_ _ _}.
Arguments arrives {_}.
Arguments delivered {_}.

(** C17: A success of the load-test tool is a transfer in the ledger.  In every
    interleaving of HTTP requests with the tool's, whatever the network loses: if
    the tool counts a response as successful, the ledger holds the transfer its
    options ask for - the top-up, withdrawal or hold under the id it sent, with
    the accounts, amount and code, or the increment in the group of an open
    authorization -; so its numbers never exceed what the ledger recorded.  The
    laws assumed of JSON are those of [JSONLaws], for strings in ASCII. *)
Theorem success_is_recorded {sdk : SDK} {L : Type} {ledger : Ledger L} {view : LedgerView L}
    {contract : LedgerContract L} {Body : Type} {codecs : Codecs Body} {lib : ClientLib Body}
    {Render : list body → Body} {laws : JSONLaws codecs lib Render}
    c requestID s env rs (w : HWorld L) ts w' j request ctx conn e elapsed :
  env_ok env → at_rest s w → http_reachable s env rs w ts w' →
  validate c = None → sendable c requestID → outgoing c requestID = inr request →
  rs !! j = Some (arrives c requestID request ctx) → ts !! j = Some (HRet conn) →
  delivered Render conn e → success (measure elapsed e) = true →
  recorded c requestID s (w_ledger (h_world w')).
Proof.
  intros Henv Hw Hreach Hv Hkept Hout Hr Hconn Hdel Hok.
  unfold sendable, outgoing, arrives, recorded, tool_transfer in *.
  destruct (payload c requestID) as [path fields] eqn:Hp. cbn [fst snd] in *.
  destruct (json_Marshal fields) as [?|body] eqn:Hm; [done|].
  destruct (NewRequest_error _); [done|]. injection Hout as <-. cbn [cr_method cr_contentType cr_body] in *.
  destruct (validate_operation c Hv) as [Hop|[Hop|[Hop|Hop]]]; unfold payload in Hp; rewrite Hop in *;
    injection Hp as <- <-; repeat (rewrite decide_True by done || rewrite decide_False by done);
    match type of Hr with _ = Some ?sent => set (r := sent) in * end.
  - destruct (success_truth InputAuthorization
      (mkAuthorizationRequest requestID (option_cardID c) (option_merchantID c) (option_amountCents c))
      (ReqAuthorize ctx) s env rs w ts w' j r conn e elapsed Henv Hw Hreach Hr
      (asks_authorization r eq_refl eq_refl) Hkept Hm Hconn Hdel Hok) as ([] & Ht & Hresp); try done.
    destruct r0 as [err|[response status]];
      [by rewrite (error_not_success _ _ elapsed _ _ Hresp Hdel) in Hok|].
    destruct (success_answer _ _ _ _ _ _ Hresp Hdel Hok) as [_ Hst]. specialize (Hst ltac:(done)).
    destruct (Ht _ _ eq_refl) as [Hf|(_ & t & Hspec & Hc)]; [by destruct (unapproved_status _ Hf Hst)|].
    by eexists _, _.
  - destruct (success_truth InputIncrement (tool_increment c requestID)
      (ReqIncrementAuthorization ctx) s env rs w ts w' j r conn e elapsed Henv Hw Hreach Hr
      (asks_increment r eq_refl eq_refl) Hkept Hm Hconn Hdel Hok) as ([] & Ht & Hresp); try done.
    destruct r0 as [err|[response status]];
      [by rewrite (error_not_success _ _ elapsed _ _ Hresp Hdel) in Hok|].
    destruct (success_answer _ _ _ _ _ _ Hresp Hdel Hok) as [_ Hst]. specialize (Hst ltac:(done)).
    destruct (Ht _ _ eq_refl) as [Hf|(_ & a & i & o & h & H1 & H2 & H3 & H4 & H5 & _)];
      [by destruct (unapproved_status _ Hf Hst)|]. by exists a, i, o, h.
  - destruct (success_truth InputTopUp (mkTopUpRequest requestID (option_accountID c) (option_amountCents c))
      ReqTopUp s env rs w ts w' j r conn e elapsed Henv Hw Hreach Hr
      (asks_topup r eq_refl eq_refl) Hkept Hm Hconn Hdel Hok) as ([] & Ht & Hresp); try done.
    by eapply posted_success.
  - destruct (success_truth InputWithdrawal
      (mkWithdrawalRequest requestID (option_accountID c) (option_amountCents c))
      ReqWithdraw s env rs w ts w' j r conn e elapsed Henv Hw Hreach Hr
      (asks_withdrawal r eq_refl eq_refl) Hkept Hm Hconn Hdel Hok) as ([] & Ht & Hresp); try done.
    by eapply posted_success.
Qed.

(** A top-up of the tool on the test ledger. *)
Definition tool_options : options :=
  mkOptions "http://127.0.0.1:8080" "topup" testCorporateAccountID "" "" "" 100 2 1 1 0 (dmul 15 Second).
Definition tool_sent : client_request wire :=
  mkClientRequest "POST" "http://127.0.0.1:8080/v1/topups" "application/json"
    (WireObject (snd (payload tool_options "a7"))).
Definition tool_requests : list (Request wire) := [arrives tool_options "a7" tool_sent None].
Definition tool_run : list (hprog connection) * HWorld fakeLedger :=
  hexec test_env (replicate 40 0%nat)
    (http_requests_of (service 100000) tool_requests, http_world 2 world_card).
Definition tool_answer : connection :=
  writeJSON StatusOK (BodyTransaction (mkTransactionResponse "a7" "a7" "posted" "TransferCreated"
    1787000000000000007 "" "")) new_connection.

Lemma benchmark_counts_every_request_witness :
  Acc (λ p' p, bench_step 1 (executions tool_options) p p') (start tool_options).
Proof.
  apply (benchmark_counts_every_request tool_options).
  - by_computation.
  - reflexivity.
Defined.

Lemma success_is_recorded_witness :
  recorded tool_options "a7" (service 100000) (w_ledger (h_world (snd tool_run))).
Proof.
  apply (success_is_recorded (Render := WireBodies) tool_options "a7" (service 100000) test_env tool_requests
    (http_world 2 world_card) (fst tool_run) (snd tool_run) 0 tool_sent None tool_answer
    (Responded 200 (inr (WireBodies (conn_body tool_answer)))) 5).
  - apply test_env_ok.
  - by apply http_world_at_rest.
  - unfold http_reachable, tool_run. rewrite <- surjective_pairing. apply hexec_steps.
  - by_computation.
  - repeat constructor; by apply (bool_decide_unpack _).
  - by_computation.
  - reflexivity.
  - by_computation.
  - by eapply delivered_answer.
  - by_computation.
Defined.

(** The tool exits with 0 exactly when the options are accepted, the report is
    written and no request failed, in the warm-up or in a run. *)
Lemma main_exit_zero c bench encodeErr :
  snd (main c bench encodeErr) = 0 ↔
  validate c = None ∧ warmup_failed c bench = false ∧ encodeErr = None ∧
  ∀ run, (1 ≤ run ≤ Z.to_nat (runs c))%nat → Failed (bench c run) = 0.
Proof.
  unfold main. destruct (validate c); [naive_solver|]. destruct (warmup_failed c bench); [naive_solver|].
  destruct encodeErr; [naive_solver|]. cbn [snd].
  assert (existsb (λ r, negb (Failed r =? 0)) (reports c bench) = false ↔
    ∀ run, (1 ≤ run ≤ Z.to_nat (runs c))%nat → Failed (bench c run) = 0) as <-.
  { rewrite <- not_true_iff_false, existsb_exists. unfold reports. split.
    - intros Hno run Hrun. destruct (decide (Failed (bench c run) = 0)) as [|Hf]; [done|].
      destruct Hno. exists (if 1 <? runs c then set_Run (Z.of_nat run) (bench c run) else bench c run).
      split; [|by destruct (1 <? runs c); cbn; apply negb_true_iff, Z.eqb_neq].
      apply in_map_iff. exists run. split; [done|]. apply in_seq. lia.
    - intros Hall (r & Hin & Hf). apply in_map_iff in Hin as (run & <- & Hrun%in_seq).
      apply negb_true_iff, Z.eqb_neq in Hf. apply Hf. destruct (1 <? runs c); cbn; apply Hall; lia. }
  destruct (existsb _ _); split; naive_solver.
Qed.

(** Three responses: 3 ms, 1 ms, and a refused one after 2 ms. *)
Example report_example :
  (λ s, (Successful s, Failed s, FailureReasons s, SampleError s, P50MS s, MaxMS s)) <$>
    report (set_requests 3 tool_options)
      [mkMeasurement (dmul 3 Millisecond) "posted" 200 None;
       mkMeasurement (dmul 1 Millisecond) "approved" 200 None;
       mkMeasurement (dmul 2 Millisecond) "" 503 (Some (Errorf "HTTP 503"))] (dmul 4 Millisecond) =
  Some (2, 1, {[ "http_503" := 1 ]}, "HTTP 503", binary64 2, binary64 3).
Proof. by_computation. Qed.
